(* ===== verification/_CoqProject ===== *)
-Q . S2P
Prelude.v
Orders.v
Cell.v
Instances.v
Dag.v
DagFacts.v
ConflictGraph.v
ConflictGraphFacts.v
Blocks.v
Storage.v
SledInstances.v
BlockStorage.v
Util.v
Operations.v
DependencyGraph.v
AlphaState.v
Sleet.v
SleetFacts.v
SleetProperties.v
SleetWitnesses.v
SleetBootstrap.v
Triples.v
SleetMachine.v
SleetTermination.v
Hail.v
HailFacts.v
HailMachine.v
Ice.v
IceFacts.v
View.v
Membership.v
Dissemination.v
Alpha.v
AlphaFacts.v
Ids.v
Router.v
Files.v
Genesis.v
Network.v
Startup.v
Channel.v
Tls.v
NodeMachine.v
LifeCycle.v
Porter.v
ClientTest.v
GraphTests.v
UnitTests.v
SleetTests.v
TransportTests.v
Formats.v
Logging.v
TestHarness.v
TestFunctions.v
Benchmark.v
