(* ===== verification/Prelude.v ===== *)
(** * A verification of zfx-subzero

    The program is a node of a proof-of-stake network, one Rust crate of actix
    actors.  A request that arrives at the server goes through the router to one of
    the actors:

    - [view] keeps the known peers; [ice] pings a sample of them and decides by
      quorums which are live; the dissemination component supplies the rumours that
      pings carry;
    - [alpha] holds the state of the primary chain (validators, supply, live cells).
      When ice reports a live network it asks the peers for their last accepted
      block and hands the committee and the live cells to sleet and hail;
    - [sleet] decides on transactions: a DAG of transactions with a conflict graph of
      the cells they spend, votes collected by querying sampled validators;
    - [hail] decides on blocks, one conflict set per height, with a committee drawn by
      cryptographic sortition;
    - the storage functions keep transactions and blocks in a sled database.

    ** Files

    The sources are relative to src/src/.

    - Prelude.v: [res] (Ok, Err, panic), the state monad [st] of methods on
      [&mut self] (the mutations before an early return stay), machine integers,
      the order of iteration over hash tables, the loop rules, automation.
    - Orders.v, Cell.v: lexicographic comparison; cell/ (cells, inputs, outputs, ids,
      hashes, orders).  Instances.v: concrete hash and serialisation.
    - Dag.v, DagFacts.v: graph/dag.rs.  ConflictGraph.v, ConflictGraphFacts.v:
      graph/conflict_graph.rs and sleet/conflict_set.rs.  DependencyGraph.v:
      graph/dependency_graph.rs.
    - Blocks.v, Storage.v, BlockStorage.v: alpha/block.rs, hail/block.rs, storage/.
      SledInstances.v: a database in memory.
    - Util.v: util.rs and sleet/sleet/sleet_utils.rs; floating point numbers are those
      of the standard library's [SpecFloat] at 53 bits.
    - Operations.v, AlphaState.v: cell/cell_operation.rs, alpha/transfer.rs, stake.rs,
      coinbase.rs, initial_staker.rs; alpha/state.rs.
    - Sleet.v (state, methods, all handlers of sleet/sleet.rs), SleetFacts.v,
      SleetProperties.v, SleetWitnesses.v, SleetBootstrap.v; SleetMachine.v (the actor as
      a state machine) and SleetTermination.v, on the rules of Triples.v for invariants
      and termination of methods.
    - Hail.v, HailFacts.v: hail/; HailMachine.v: the actor as a state machine.  Ice.v, IceFacts.v: ice/ice.rs, reservoir.rs,
      quorum.rs.  Dissemination.v: ice/dissemination.rs and [DoPing].
    - View.v: view/.  Membership.v: view and ice with the rounds of [ice::run], as a state
      machine.  Alpha.v, AlphaFacts.v: alpha/alpha.rs, status_handler.rs.
    - Ids.v: zfx_id.rs and [parse_id_and_ip].
    - Router.v: protocol.rs, server/router.rs; a [Node] is the product of the actors.
      NodeMachine.v: the node as a state machine.  LifeCycle.v: the node with the
      messages between alpha, ice, the router, sleet and hail.
    - Files.v: tls/certificate.rs and server/node.rs over a model of [std::fs], the
      arguments of ../bin/main.rs.  Genesis.v: the stakers of alpha/initial_staker.rs.
    - Network.v: client.rs, server/server.rs, tls/connection_stream.rs, tls/upgrader.rs,
      and a query between two nodes.  Channel.v: channel/asymmetric.rs and both ends of
      a connection.  Tls.v: tls/tls.rs and the constructors of tls/upgrader.rs.
      Startup.v: the executions that server/node.rs spawns and the service of
      server/server.rs, side by side.
    - Porter.v: porter/.  ClientTest.v: ../bin/client_test.rs.
    - GraphTests.v, UnitTests.v, SleetTests.v, TransportTests.v: the unit tests of the
      source, translated and run on the model.
    - Formats.v: the [Display] and [Debug] forms of cells, transactions, blocks and
      queries.  Logging.v: the handlers of sleet and of the router with the log lines
      that print them.
    - TestHarness.v, TestFunctions.v, Benchmark.v: integration_test/test_model.rs,
      test_functions.rs, cell_transfer_benchmark.rs, test_node_chaos_manager.rs.

    ** Conventions

    An actor is a record with the fields of the struct, a handler a function on it.
    Messages that a handler hands to actix are appended to a list of effects in the
    state ([sl_out], [hl_out]) or returned; a handler that awaits a response is split
    there into two functions, so that any interleaving of messages is a sequence of
    calls.  A loop over a hash table runs over [iter_map] or [iter_set], for every
    order.  Random choices take a seed.  Arithmetic on machine integers panics or
    wraps as the build profile says, and the theorems hold for both.

    ** Parameters

    Code of other crates is a class of operations, with a class of laws for what its
    documentation promises: [Crypto] (blake3, bincode, ed25519), [Sled], [TxCodec],
    [BlockCodec], [StateCodec], [Sortition], [Rng], [DoublePriorityQueue], [Libm],
    [IdCrates] (base58check, blake2, name resolution), [Net] (sockets, handshakes),
    [Rustls], [CertCrates] (PEM, X.509, rcgen), [KeyCrates] (hex, ed25519), [Framed]
    (tokio-util), [Igd], [Colorize], [Tracing], [TestWorld] (processes, requests and time
    as an integration test sees them).  Each has a concrete instance under which the witnesses evaluate.

    ** Theorems

    - Sleet: what [on_receive_tx] does on every branch; acceptance is finality of the
      ancestry, with and without the memo table; the newly accepted transactions are
      exactly determined; removal of conflicts and pruning keep the invariant
      [sleet_wf] and the undecided part of the DAG; parent selection is sound and
      complete; bootstrapping from peers that run sleet ends and fetches the ancestry.
      A completed query gives every ancestor one vote, or resets their confidence
      ([query_complete_spec]).  Whatever messages arrive in whatever order, the storage
      loses nothing, the counters and chits stay in their range, and every query that was
      told to wait is still waiting or was answered once, unless its receiver is gone or a
      check panicked ([reachable_invariant]).  Every handler ends in every state, however
      broken its graphs are ([sleet_handlers_end]).  Two conflicting transactions can both
      be accepted by one completed query ([double_spends_both_accepted]; the witness is
      the end of a run of the handlers).
    - Graphs: insertion and removal keep the well-formedness of DAG and conflict graph
      and change exactly what they should; conviction is the sum of the chits of the
      progeny up to 255; the two searches visit the same vertices; Kahn's algorithm
      sorts topologically.
    - Tests: the unit tests of the source are translated and pass on the model, those of
      sleet with two actors, a mock client and a mock of hail ([sleet_tests_pass]).  The
      run of [test_sleet_accept_many] has fewer transfers than the 500 of the source.
    - Hail: whatever messages arrive, live blocks stay and are kept under their hash, and
      no block is announced twice ([hail_reachable_invariant]); every handler ends
      ([hail_handlers_end]).  The preferred block does not depend on the order of arrival; at most one
      block of a height is final in a state, although a later state can have another
      one; the next committee.  Ice: what an outcome does to the reservoir, and that
      two responders are needed to turn a decision.  View and ice stay consistent, and what
      alpha was told agrees with ice, in every sequence of requests, handshakes and pings
      ([membership_invariant]); but the loss of all peers is not reported
      ([dead_network_not_reported]).
    - Executions: in every interleaving of bootstrap, pings and connections the node goes
      through states of that machine, and nothing is pinged before the view has its
      quorum ([executions_refine_membership]).
    - Log: a cell with a stake whose data names no node makes the handler of a client's
      request, or of a stranger's query, panic ([unprintable_request_panics]).  On cells
      that can be printed the handlers of Logging.v are those of Sleet.v and Router.v
      ([route_logged_eq]), and what the program makes itself can be printed.
    - Alpha: the quorum on the last accepted block, the hand-over through ice to sleet
      and hail, the state after a restart; applying a cell accounts for what it consumes
      and produces, and capacity comes from coinbase outputs only
      ([apply_cell_accounts], [apply_no_inflation]).  But blocks never advance the height
      of the state, so a coinbase after the genesis is applied
      ([coinbase_mints_after_genesis]), and spent cells stay live.
    - Node: requests of nodes that are not validators are refused by their certificate
      and change nothing that votes; a refused query makes the sleet of the querying
      node panic.  In every reachable state what is served for a hash has that hash, and
      the same block, or a transaction with the same cell, is served for it in every later
      state ([served_content_matches_hash]).  Only stakers of the genesis block
      are asked and counted, whatever order the messages of alpha arrive in
      ([only_stakers_take_part]).  A request on a channel is
      answered with the response of the router, and when there is none the client sees the
      end of the stream over TCP and an error over TLS ([request_served_end_to_end]).  With
      TLS every peer has an id ([tls_peers_identified]), although no certificate is checked.
      A node that is started again is the same node ([restart_same_node]), and its ids
      are arrays of 32 bytes ([started_ids_typed]).  Peer descriptions read back as
      written.  Rumours are handed out often enough, three per ping; the view keeps its peers.  The
      command line client spends a chain of cells ([client_spends_chain]).
    - Porter: a mapping that the router refuses is reported as made.
    - Integration tests: requests are repeated until an answer fits; the latest cell of a
      chain is found; spending many cells keeps the books, while the benchmark counts the
      fee the wrong way and judges by the midpoint of the extremes; waiting for nodes ends
      with success in every world; the chaos manager keeps to its nodes but can leave one
      running.
    - Storage: the transaction storage refines a finite map; the last accepted block is
      the highest one.

    ** Fuel

    Loops that are not structural take fuel and return [OutOfFuel] without it.  The
    searches and [conviction] get the number of entries of the map they read plus one,
    which is enough for every DAG, well-formed or not; the topological orders get a bound
    from the number of vertices, [cleanup] the size of its queue, [sample] twice the number of
    samples plus one, [remove_progeny] the number of cells; each has a theorem that
    excludes [OutOfFuel].  [wait_until_nodes_start] polls 61 times at most, the search for the
    latest cell visits every entry of its map once unless the map is cyclic.  The loop of [FetchWithAncestry] depends on the peers: with
    peers that run sleet a sufficient number exists
    ([fetch_from_peers_complete]), with a lying peer none does
    ([lying_peer_blocks_bootstrap]).

    ** Not modelled

    What happens inside of handshakes, certificates, frames and sockets, and the accepting
    of connections by actix-server; permissions and failures of the disk; the declaration
    of command line arguments and the signals of ../bin/main.rs; the time between rounds of
    [bootstrap] and [run].  Of the log, Logging.v has only the lines of
    [on_receive_tx], [GenerateTx] and [QueryTx] of sleet and of the refusals of the router;
    the lines of the other handlers of sleet ([NewAccepted], [FreshTx], [LiveCommittee],
    [CheckPending], [AskForAncestors] and others), of which some print cells too, and those
    of hail are left out.  The conversions between error types, which only name a constructor, are written as such
    where they occur.  The scenarios of integration_test/ (stress_test.rs,
    sleet_integration_test.rs, hail_integration_test.rs) call the functions of
    TestFunctions.v one after the other on running nodes: what they check is whether a
    network of processes converges, which is no property of this code alone. *)

From stdpp Require Import prelude gmap sets fin_sets fin_maps list sorting.
From Stdlib Require Import ZArith Lia.

Declare Scope subzero_scope.
Delimit Scope subzero_scope with subzero.

(** ** Results of a Rust computation

    [Ok] and [Err] are the constructors of [std::result::Result]; [Panic] is an
    unwinding panic (an [unwrap] on [None] or [Err], an index out of bounds, an
    arithmetic overflow in a checked build); [OutOfFuel] is returned only by the
    fuel-indexed loops of this development, and is excluded by their
    termination theorems. *)
Inductive res (E A : Type) : Type :=
| Ok (a : A)
| Err (e : E)
| Panic
| OutOfFuel.

Arguments Ok {E A} a.
Arguments Err {E A} e.
Arguments Panic {E A}.
Arguments OutOfFuel {E A}.

#[export] Instance res_ret (E : Type) : MRet (res E) := λ A a, Ok a.
#[export] Instance res_bind (E : Type) : MBind (res E) := λ A B f m,
  match m with
  | Ok a => f a
  | Err e => Err e
  | Panic => Panic
  | OutOfFuel => OutOfFuel
  end.

#[export] Instance res_eq_dec `{EqDecision E, EqDecision A} : EqDecision (res E A).
Proof. solve_decision. Defined.

(** [Result::map_err], which is what [?] does through [From]. *)
Definition map_err {E F A : Type} (f : E → F) (r : res E A) : res F A :=
  match r with
  | Ok a => Ok a
  | Err e => Err (f e)
  | Panic => Panic
  | OutOfFuel => OutOfFuel
  end.

(** [Option::unwrap] and [Result::unwrap]. *)
Definition unwrap {E A : Type} (o : option A) : res E A :=
  match o with Some a => Ok a | None => Panic end.

Definition unwrap_res {E F A : Type} (r : res E A) : res F A :=
  match r with
  | Ok a => Ok a
  | Err _ => Panic
  | Panic => Panic
  | OutOfFuel => OutOfFuel
  end.

(** [Result::unwrap_or(false)]. *)
Definition unwrap_or_false {E : Type} (r : res E bool) : bool :=
  match r with Ok b => b | _ => false end.

(** [Option::ok_or]. *)
Definition ok_or {E A : Type} (o : option A) (e : E) : res E A :=
  match o with Some a => Ok a | None => Err e end.

Definition is_ok {E A : Type} (r : res E A) : bool :=
  match r with Ok _ => true | _ => false end.

(** Collect fallible results in order, as a loop with [?] does. *)
Fixpoint try_map {E A B : Type} (f : A → res E B) (l : list A) : res E (list B) :=
  match l with
  | [] => Ok []
  | x :: l' => y ← f x; ys ← try_map f l'; Ok (y :: ys)
  end.

(** ** Methods on [&mut self]

    A method mutates its receiver and then returns a result.  The mutations made
    before an early [return Err(..)] stay, so the state is returned on every
    branch and not only with [Ok]. *)
Definition st (S E A : Type) : Type := S → S * res E A.

#[export] Instance st_ret (S E : Type) : MRet (st S E) := λ A a s, (s, Ok a).
#[export] Instance st_bind (S E : Type) : MBind (st S E) := λ A B f m s,
  match m s with
  | (s', Ok a) => f a s'
  | (s', Err e) => (s', Err e)
  | (s', Panic) => (s', Panic)
  | (s', OutOfFuel) => (s', OutOfFuel)
  end.

Section st_ops.
Context {S E : Type}.

Definition gets {A : Type} (f : S → A) : st S E A := λ s, (s, Ok (f s)).
Definition modify (f : S → S) : st S E unit := λ s, (f s, Ok tt).
Definition throw {A : Type} (e : E) : st S E A := λ s, (s, Err e).
Definition panic {A : Type} : st S E A := λ s, (s, Panic).

(** Return the result of a computation that does not touch the state. *)
Definition of_res {A : Type} (r : res E A) : st S E A := λ s, (s, r).

(** Read the state with a fallible method on [&self]. *)
Definition reads {A : Type} (f : S → res E A) : st S E A := λ s, (s, f s).

(** [for x in l { body }], leaving on the first error. *)
Fixpoint foreach {X : Type} (l : list X) (body : X → st S E unit) : st S E unit :=
  match l with
  | [] => mret tt
  | x :: l' => body x ≫= λ _, foreach l' body
  end.

(** The same loop with a local accumulator. *)
Fixpoint for_acc {X A : Type} (l : list X) (body : X → A → st S E A) (a : A) : st S E A :=
  match l with
  | [] => mret a
  | x :: l' => body x a ≫= λ a', for_acc l' body a'
  end.
End st_ops.

(** Run a method of a field on the state that contains the field, converting its
    error type as [?] does. *)
Definition zoom {S T E F A : Type} (get : S → T) (put : T → S → S) (conv : E → F)
    (m : st T E A) : st S F A :=
  λ s, let '(t, r) := m (get s) in (put t s, map_err conv r).

(** [x.unwrap()] on the result of a method. *)
Definition unwrap_st {S E F A : Type} (m : st S E A) : st S F A :=
  λ s, let '(s', r) := m s in (s', unwrap_res r).

(** Replace a result by another one, keeping the effects ([match r { .. }]). *)
Definition catch {S E F A B : Type} (m : st S E A) (k : res E A → st S F B) : st S F B :=
  λ s, let '(s', r) := m s in
       match r with
       | Panic => (s', Panic)
       | OutOfFuel => (s', OutOfFuel)
       | r => k r s'
       end.

(** [let _ = ..]: drop the result of a method, but not a panic. *)
Definition ignore {S E F A : Type} (m : st S E A) : st S F unit := catch m (λ _, mret tt).

(** [if !f(x)? { return Ok(false) }] in a loop, and [Ok(true)] after it. *)
Fixpoint all_res {E A : Type} (f : A → res E bool) (l : list A) : res E bool :=
  match l with
  | [] => Ok true
  | x :: l' => b ← f x; if (b : bool) then all_res f l' else Ok false
  end.

(** ** Machine integers

    Values are kept as [Z].  [+], [-] on a [w]-bit unsigned integer panic on
    overflow when the build has overflow checks (the debug profile) and wrap
    otherwise (the release profile).  The theorems hold for both. *)
Class BuildProfile : Type := overflow_checks : bool.

Definition u_max (w : Z) : Z := 2 ^ w - 1.

Definition in_range (w z : Z) : Prop := (0 ≤ z < 2 ^ w)%Z.
#[export] Instance in_range_dec w z : Decision (in_range w z).
Proof. unfold in_range. apply _. Defined.

Definition u_norm `{BuildProfile} {E : Type} (w z : Z) : res E Z :=
  if decide (in_range w z) then Ok z
  else if overflow_checks then Panic else Ok (z mod 2 ^ w)%Z.

Definition u_add `{BuildProfile} {E : Type} (w a b : Z) : res E Z := u_norm w (a + b).
Definition u_sub `{BuildProfile} {E : Type} (w a b : Z) : res E Z := u_norm w (a - b).

Notation "a +u64 b" := (u_add 64 a b) (at level 50) : subzero_scope.
Notation "a -u64 b" := (u_sub 64 a b) (at level 50) : subzero_scope.
Notation "a +u8 b" := (u_add 8 a b) (at level 50) : subzero_scope.

(** [u8::checked_add]. *)
Definition checked_add (w a b : Z) : option Z :=
  if decide (in_range w (a + b)) then Some (a + b)%Z else None.

(** The iterator sum [iter().sum::<u64>()], an accumulation of [+]. *)
Fixpoint u_sum `{BuildProfile} {E : Type} (w acc : Z) (l : list Z) : res E Z :=
  match l with
  | [] => Ok acc
  | z :: l' => u_add w acc z ≫= λ acc', u_sum w acc' l'
  end.

Definition zsum (l : list Z) : Z := foldr Z.add 0%Z l.

(** ** Byte strings: hashes, ids and serialised values *)
Abbreviation bytes := (list Z).

(** ** Iteration order of [HashMap] and [HashSet]

    The standard library visits the entries of a hash table in an arbitrary
    order.  Every loop over a hash table is written over [iter_set] or
    [iter_map], and the theorems hold for every instance. *)
Class IterOrder : Type := {
  iter_set : ∀ {A : Type} `{Countable A}, gset A → list A;
  iter_set_perm : ∀ {A : Type} `{Countable A} (s : gset A), iter_set s ≡ₚ elements s;
  iter_map : ∀ {K V : Type} `{Countable K}, gmap K V → list (K * V);
  iter_map_perm : ∀ {K V : Type} `{Countable K} (m : gmap K V),
    iter_map m ≡ₚ map_to_list m
}.

(** The order in which stdpp enumerates a map: the instance the executable
    examples run with. *)
Definition canonical_order : IterOrder := {|
  iter_set A _ _ s := elements s;
  iter_set_perm A _ _ s := Permutation_refl (elements s);
  iter_map K V _ _ m := map_to_list m;
  iter_map_perm K V _ _ m := Permutation_refl (map_to_list m)
|}.

(** ** Automation *)
Create HintDb subzero.
Create Rewrite HintDb subzero.

(** Evaluate the monad operations applied to a state. *)
Ltac st_simpl :=
  cbn [mbind mret st_bind st_ret res_bind res_ret gets modify throw panic of_res reads
       map_err unwrap unwrap_res fst snd] in *.

(** Case analysis on every [match] of a hypothesis of the shape [.. = r]. *)
Ltac case_matches H :=
  repeat match type of H with
  | context [match ?x with _ => _ end] => destruct x eqn:?; simplify_eq/=
  end.

(** ** Reasoning about the monad *)
Lemma res_bind_Ok_inv {E A B} (m : res E A) (f : A → res E B) b :
  m ≫= f = Ok b → ∃ a, m = Ok a ∧ f a = Ok b.
Proof. destruct m; cbn; intros; simplify_eq; eauto. Qed.

Lemma map_err_Ok_inv {E F A} (f : E → F) (r : res E A) a : map_err f r = Ok a → r = Ok a.
Proof. destruct r; cbn; intros; simplify_eq; done. Qed.

Lemma all_res_Ok {E A} (f : A → res E bool) (g : A → bool) l :
  (∀ x, x ∈ l → f x = Ok (g x)) → all_res f l = Ok (forallb g l).
Proof.
  induction l as [|x l IH]; intros Hf; [done|]. cbn. rewrite Hf by set_solver. cbn.
  destruct (g x); [|done]. apply IH. set_solver.
Qed.

Lemma try_map_Ok {E A B} (f : A → res E B) (g : A → B) l :
  (∀ x, x ∈ l → f x = Ok (g x)) → try_map f l = Ok (g <$> l).
Proof.
  induction l as [|x l IH]; intros Hf; [done|]. cbn.
  rewrite Hf by set_solver. cbn. rewrite IH by set_solver. done.
Qed.

Section st_lemmas.
Context {S E : Type}.
Implicit Types s : S.

Lemma st_bind_Ok_inv {A B} (m : st S E A) (f : A → st S E B) s s' b :
  (m ≫= f) s = (s', Ok b) →
  ∃ s1 a, m s = (s1, Ok a) ∧ f a s1 = (s', Ok b).
Proof.
  unfold mbind, st_bind. destruct (m s) as [s1 [a|e| |]]; intros; simplify_eq; eauto.
Qed.

Lemma st_bind_Ok {A B} (m : st S E A) (f : A → st S E B) s s1 a :
  m s = (s1, Ok a) → (m ≫= f) s = f a s1.
Proof. unfold mbind, st_bind. by intros ->. Qed.

Lemma st_bind_Err {A B} (m : st S E A) (f : A → st S E B) s s1 e :
  m s = (s1, Err e) → (m ≫= f) s = (s1, Err e).
Proof. unfold mbind, st_bind. by intros ->. Qed.

Lemma st_bind_Panic {A B} (m : st S E A) (f : A → st S E B) s s1 :
  m s = (s1, Panic) → (m ≫= f) s = (s1, Panic).
Proof. unfold mbind, st_bind. by intros ->. Qed.

Lemma modify_bind {B} f (k : unit → st S E B) s : (modify f ≫= k) s = k tt (f s).
Proof. done. Qed.

Lemma gets_bind {A B} (f : S → A) (k : A → st S E B) s : (gets f ≫= k) s = k (f s) s.
Proof. done. Qed.

Lemma reads_bind_Ok {A B} (f : S → res E A) (k : A → st S E B) s a :
  f s = Ok a → (reads f ≫= k) s = k a s.
Proof. unfold mbind, st_bind, reads. by intros ->. Qed.

Lemma foreach_cons {X} (x : X) l (body : X → st S E unit) s :
  foreach (x :: l) body s = (body x ≫= λ _, foreach l body) s.
Proof. done. Qed.

(** The loop rule: an invariant on the elements already visited. *)
Lemma foreach_inv {X} (P : list X → S → Prop) (l : list X)
    (body : X → st S E unit) s :
  P [] s →
  (∀ pre x post s0, l = pre ++ x :: post → P pre s0 →
     ∃ s1, body x s0 = (s1, Ok tt) ∧ P (pre ++ [x]) s1) →
  ∃ s', foreach l body s = (s', Ok tt) ∧ P l s'.
Proof.
  intros HP Hstep.
  assert (∀ post pre s0, l = pre ++ post → P pre s0 →
    ∃ s', foreach post body s0 = (s', Ok tt) ∧ P l s') as Hgen.
  { induction post as [|x post IH]; intros pre s0 Hl HP0.
    - exists s0. rewrite Hl, app_nil_r. done.
    - destruct (Hstep pre x post s0 Hl HP0) as (s1 & Hb & HP1).
      destruct (IH (pre ++ [x]) s1) as (s' & Hf & HPl).
      + by rewrite <- app_assoc.
      + done.
      + exists s'. split; [|done]. rewrite foreach_cons.
        by rewrite (st_bind_Ok _ _ _ _ _ Hb). }
  by apply (Hgen l []).
Qed.

Lemma for_acc_inv {X A} (P : list X → A → S → Prop) (l : list X)
    (body : X → A → st S E A) a s :
  P [] a s →
  (∀ pre x post a0 s0, l = pre ++ x :: post → P pre a0 s0 →
     ∃ s1 a1, body x a0 s0 = (s1, Ok a1) ∧ P (pre ++ [x]) a1 s1) →
  ∃ s' a', for_acc l body a s = (s', Ok a') ∧ P l a' s'.
Proof.
  intros HP Hstep.
  assert (∀ post pre a0 s0, l = pre ++ post → P pre a0 s0 →
    ∃ s' a', for_acc post body a0 s0 = (s', Ok a') ∧ P l a' s') as Hgen.
  { induction post as [|x post IH]; intros pre a0 s0 Hl HP0.
    - exists s0, a0. rewrite Hl, app_nil_r. done.
    - destruct (Hstep pre x post a0 s0 Hl HP0) as (s1 & a1 & Hb & HP1).
      destruct (IH (pre ++ [x]) a1 s1) as (s' & a' & Hf & HPl).
      + by rewrite <- app_assoc.
      + done.
      + exists s', a'. split; [|done]. cbn [for_acc].
        by rewrite (st_bind_Ok _ _ _ _ _ Hb). }
  by apply (Hgen l []).
Qed.

(** A loop whose body always succeeds is a fold. *)
Lemma foreach_fold {X} (f : X → S → S) (l : list X) (body : X → st S E unit) s :
  (∀ x s0, x ∈ l → body x s0 = (f x s0, Ok tt)) →
  foreach l body s = (foldl (λ s0 x, f x s0) s l, Ok tt).
Proof.
  revert s. induction l as [|x l IH]; intros s Hb; [done|].
  rewrite foreach_cons, (st_bind_Ok _ _ _ (f x s) tt) by (apply Hb; set_solver).
  apply IH. set_solver.
Qed.

Lemma zoom_Ok {T F A} (get : S → T) put (conv : F → E) (m : st T F A) s t a :
  m (get s) = (t, Ok a) → zoom get put conv m s = (put t s, Ok a).
Proof. unfold zoom. by intros ->. Qed.

Lemma zoom_Err {T F A} (get : S → T) put (conv : F → E) (m : st T F A) s t e :
  m (get s) = (t, Err e) → zoom get put conv m s = (put t s, Err (conv e)).
Proof. unfold zoom. by intros ->. Qed.
End st_lemmas.

Lemma st_bind_ext {S E A B} (m : st S E A) (f f' : A → st S E B) s :
  (∀ a s', m s = (s', Ok a) → f a s' = f' a s') → (m ≫= f) s = (m ≫= f') s.
Proof. unfold mbind, st_bind. destruct (m s) as [s1 [a|e| |]]; auto. Qed.

Lemma catch_Ok {S E F A B} (m : st S E A) (k : res E A → st S F B) s s' a :
  m s = (s', Ok a) → catch m k s = k (Ok a) s'.
Proof. unfold catch. by intros ->. Qed.

Lemma catch_Err {S E F A B} (m : st S E A) (k : res E A → st S F B) s s' e :
  m s = (s', Err e) → catch m k s = k (Err e) s'.
Proof. unfold catch. by intros ->. Qed.

Lemma ignore_Ok {S E F A} (m : st S E A) s s' a :
  m s = (s', Ok a) → ignore (F:=F) m s = (s', Ok tt).
Proof. unfold ignore. intros Hm. by rewrite (catch_Ok _ _ _ _ _ Hm). Qed.

Lemma unwrap_st_Ok {S E F A} (m : st S E A) s s' a :
  m s = (s', Ok a) → unwrap_st (F:=F) m s = (s', Ok a).
Proof. unfold unwrap_st. by intros ->. Qed.

Lemma unwrap_st_Ok_inv {S E F A} (m : st S E A) s s' a :
  unwrap_st (F:=F) m s = (s', Ok a) → m s = (s', Ok a).
Proof. unfold unwrap_st. destruct (m s) as [s1 []]; cbn; intros; by simplify_eq. Qed.

Lemma reads_Ok_inv {S E A} (f : S → res E A) s s' a :
  reads f s = (s', Ok a) → s' = s ∧ f s = Ok a.
Proof. unfold reads. intros. by simplify_eq. Qed.

(** Split a hypothesis [(m ≫= f) s = (s', Ok b)]. *)
Ltac st_inv H :=
  let s1 := fresh "s" in let a := fresh "a" in
  let H1 := fresh H in
  apply st_bind_Ok_inv in H as (s1 & a & H1 & H); st_simpl; simplify_eq.

(** ** Integers *)
Section integers.
Context `{BuildProfile} {E : Type}.

Lemma u_norm_in_range (w z : Z) : in_range w z → u_norm (E:=E) w z = Ok z.
Proof. intros. unfold u_norm. by rewrite decide_True. Qed.

Lemma u_norm_Ok_exact (w z r : Z) :
  u_norm (E:=E) w z = Ok r → in_range w z → r = z.
Proof. intros Hr Hz. rewrite u_norm_in_range in Hr by done. by simplify_eq. Qed.

Lemma u_norm_range (w z r : Z) :
  (0 ≤ w)%Z → u_norm (E:=E) w z = Ok r → in_range w r.
Proof.
  unfold u_norm. intros Hw Hr. repeat case_decide; simplify_eq; [done|].
  destruct overflow_checks; simplify_eq. unfold in_range.
  apply Z.mod_pos_bound. by apply Z.pow_pos_nonneg.
Qed.

(** In a build with overflow checks a result is exact. *)
Lemma u_norm_checked (w z r : Z) :
  overflow_checks = true → u_norm (E:=E) w z = Ok r → r = z ∧ in_range w z.
Proof.
  intros Hc. unfold u_norm. case_decide; [by intros [= ->]|]. by rewrite Hc.
Qed.

(** Arithmetic panics or wraps, but never returns an error. *)
Lemma u_norm_no_Err (w z : Z) (e : E) : u_norm w z ≠ Err e.
Proof. unfold u_norm. case_decide; [done|]. by destruct overflow_checks. Qed.

Lemma u_sum_no_Err (w acc : Z) l (e : E) : u_sum w acc l ≠ Err e.
Proof.
  revert acc. induction l as [|z l IH]; intros acc; cbn; [done|]. unfold u_add.
  destruct (u_norm w (acc + z)) eqn:Hn; cbn; [apply IH| |done|done].
  by apply u_norm_no_Err in Hn.
Qed.

Lemma zsum_app l1 l2 : zsum (l1 ++ l2) = (zsum l1 + zsum l2)%Z.
Proof. unfold zsum. induction l1; cbn; lia. Qed.

Lemma zsum_nonneg l : Forall (λ z, 0 ≤ z)%Z l → (0 ≤ zsum l)%Z.
Proof. unfold zsum. induction 1; cbn; lia. Qed.

#[export] Instance zsum_perm : Proper ((≡ₚ) ==> (=)) zsum.
Proof. unfold zsum. induction 1; cbn; lia. Qed.

Lemma u_sum_Ok (w acc : Z) l :
  (0 ≤ acc)%Z → Forall (λ z, 0 ≤ z)%Z l → in_range w (acc + zsum l) →
  u_sum (E:=E) w acc l = Ok (acc + zsum l)%Z.
Proof.
  intros Hacc Hl. revert acc Hacc. induction Hl as [|z l Hz Hl IH]; intros acc Hacc Hr.
  - cbn. f_equal. lia.
  - pose proof (zsum_nonneg l Hl). unfold in_range in *.
    change (zsum (z :: l)) with (z + zsum l)%Z in *. cbn [u_sum]. unfold u_add.
    rewrite u_norm_in_range by (unfold in_range; lia). cbn [mbind res_bind].
    rewrite IH by lia. f_equal. lia.
Qed.
End integers.

(** ** Lists *)
Section lists.
Context {A : Type}.
Implicit Types l : list A.

Lemma filter_ext_in (P Q : A → Prop) `{!∀ x, Decision (P x), !∀ x, Decision (Q x)} l :
  (∀ x, x ∈ l → P x ↔ Q x) → filter P l = filter Q l.
Proof.
  induction l as [|x l IH]; intros Hpq; [done|]. rewrite !filter_cons.
  rewrite IH by set_solver. by rewrite (decide_ext (P x) (Q x)) by (apply Hpq; set_solver).
Qed.

Lemma filter_all (P : A → Prop) `{!∀ x, Decision (P x)} l :
  (∀ x, x ∈ l → P x) → filter P l = l.
Proof.
  induction l as [|x l IH]; intros Hp; [done|].
  rewrite filter_cons, decide_True, IH; set_solver.
Qed.

Lemma filter_none (P : A → Prop) `{!∀ x, Decision (P x)} l :
  filter P l = [] ↔ ∀ x, x ∈ l → ~ P x.
Proof.
  split.
  - intros He x Hx Hp. assert (x ∈ filter P l) as Hin by (by apply list_elem_of_filter).
    rewrite He in Hin. set_solver.
  - intros Hp. destruct (filter P l) as [|x k] eqn:He; [done|].
    assert (x ∈ filter P l) as [??]%list_elem_of_filter by (rewrite He; set_solver).
    naive_solver.
Qed.

Lemma forallb_true_iff (f : A → bool) l :
  forallb f l = true ↔ ∀ x, x ∈ l → f x = true.
Proof.
  induction l as [|x l IH]; cbn; [set_solver|].
  rewrite andb_true_iff, IH. set_solver.
Qed.

(** A key that occurs once selects one element. *)
Lemma filter_key_unique {K} `{EqDecision K} (f : A → K) l x :
  NoDup (f <$> l) → x ∈ l → filter (λ y, f y = f x) l = [x].
Proof.
  induction l as [|y l IH]; intros Hnd Hx; [set_solver|].
  rewrite fmap_cons in Hnd. apply NoDup_cons in Hnd as [Hy Hnd]. rewrite filter_cons. case_decide as Hf.
  - apply elem_of_cons in Hx as [->|Hx].
    + f_equal. apply filter_none. intros z Hz Heq. apply Hy, list_elem_of_fmap.
      exists z. by rewrite Heq.
    + destruct Hy. rewrite Hf. apply list_elem_of_fmap. eauto.
  - apply IH; [done|]. apply elem_of_cons in Hx as [->|Hx]; done.
Qed.

Lemma StronglySorted_filter (R : relation A) (P : A → Prop) `{!∀ x, Decision (P x)} l :
  StronglySorted R l → StronglySorted R (filter P l).
Proof.
  induction 1 as [|x l Hs IH Hx]; [constructor|]. rewrite filter_cons.
  case_decide; [|done]. constructor; [done|]. apply Forall_forall.
  intros y [_ Hy]%list_elem_of_filter. rewrite Forall_forall in Hx. auto.
Qed.
End lists.

(** ** Loops that rewrite the entries of a map *)
Section map_loops.
Context `{Countable K} {V : Type}.
Implicit Types (m : gmap K V) (l : list K).

(** Apply [f] to the entries whose key is in [l]. *)
Definition update_on l (f : K → V → V) m : gmap K V :=
  map_imap (λ k v, Some (if decide (k ∈ l) then f k v else v)) m.

Lemma lookup_update_on l f m k :
  update_on l f m !! k = (if decide (k ∈ l) then f k else id) <$> m !! k.
Proof.
  unfold update_on. rewrite map_lookup_imap. destruct (m !! k); cbn; [|done].
  by case_decide.
Qed.

Lemma dom_update_on l f m : dom (update_on l f m) = dom m.
Proof.
  apply set_eq. intros k. by rewrite !elem_of_dom, lookup_update_on, fmap_is_Some.
Qed.

Lemma update_on_nil f m : update_on [] f m = m.
Proof.
  apply map_eq. intros k. rewrite lookup_update_on, decide_False by set_solver.
  by destruct (m !! k).
Qed.

Lemma update_on_snoc l f m x v :
  x ∉ l → m !! x = Some v → <[x := f x v]> (update_on l f m) = update_on (l ++ [x]) f m.
Proof.
  intros Hx Hv. apply map_eq. intros k. destruct (decide (x = k)) as [<-|Hne].
  - rewrite lookup_insert_eq, lookup_update_on, Hv, decide_True by set_solver. done.
  - rewrite lookup_insert_ne, !lookup_update_on by done.
    by rewrite (decide_ext (k ∈ l ++ [x]) (k ∈ l)) by set_solver.
Qed.

(** A loop over distinct keys that rewrites the entry of each key. *)
Lemma foreach_update_on {S E} (get : S → gmap K V) (put : gmap K V → S → S)
    (f : K → V → V) (body : K → st S E unit) l s :
  (∀ m t, get (put m t) = m) → (∀ m m' t, put m (put m' t) = put m t) →
  (∀ t, put (get t) t = t) → NoDup l → (∀ k, k ∈ l → is_Some (get s !! k)) →
  (∀ k t v, k ∈ l → get t !! k = Some v →
     body k t = (put (<[k := f k v]> (get t)) t, Ok tt)) →
  foreach l body s = (put (update_on l f (get s)) s, Ok tt).
Proof.
  intros Hgp Hpp Hpg Hnd Hl Hbody.
  destruct (foreach_inv (λ pre t, t = put (update_on pre f (get s)) s) l body s)
    as (s' & -> & ->); [by rewrite update_on_nil, Hpg| |done].
  intros pre x post s0 -> ->. destruct (Hl x) as [v Hv]; [set_solver|].
  assert (x ∉ pre) as Hx.
  { apply NoDup_app in Hnd as (_ & Hd & _). intros Hin. apply (Hd x Hin). set_solver. }
  eexists. split; [apply (Hbody x _ v); [set_solver|]|].
  - rewrite Hgp, lookup_update_on, decide_False, Hv by done. done.
  - rewrite Hgp, Hpp. by rewrite update_on_snoc.
Qed.

(** The same with an accumulator. *)
Lemma for_acc_update_on {S E A} (get : S → gmap K V) (put : gmap K V → S → S)
    (f : K → V → V) (g : A → K → V → A) (body : K → A → st S E A) l a s :
  (∀ m t, get (put m t) = m) → (∀ m m' t, put m (put m' t) = put m t) →
  (∀ t, put (get t) t = t) → NoDup l → (∀ k, k ∈ l → is_Some (get s !! k)) →
  (∀ k a t v, k ∈ l → get t !! k = Some v →
     body k a t = (put (<[k := f k v]> (get t)) t, Ok (g a k v))) →
  for_acc l body a s =
    (put (update_on l f (get s)) s,
     Ok (foldl (λ a k, from_option (g a k) a (get s !! k)) a l)).
Proof.
  intros Hgp Hpp Hpg Hnd Hl Hbody.
  destruct (for_acc_inv (λ pre a' t, t = put (update_on pre f (get s)) s ∧
    a' = foldl (λ a k, from_option (g a k) a (get s !! k)) a pre) l body a s)
    as (s' & a' & -> & -> & ->); [by rewrite update_on_nil, Hpg| |done].
  intros pre x post a0 s0 -> [-> ->]. destruct (Hl x) as [v Hv]; [set_solver|].
  assert (x ∉ pre) as Hx.
  { apply NoDup_app in Hnd as (_ & Hd & _). intros Hin. apply (Hd x Hin). set_solver. }
  do 2 eexists. split; [apply (Hbody x _ _ v); [set_solver|]|].
  - rewrite Hgp, lookup_update_on, decide_False, Hv by done. done.
  - rewrite Hgp, Hpp, update_on_snoc by done. split; [done|].
    rewrite foldl_app. cbn. by rewrite Hv.
Qed.

(** Insert the same value at every key of a list. *)
Definition insert_all (v : V) l m : gmap K V := foldl (λ m k, <[k := v]> m) m l.

Lemma lookup_insert_all v l m k :
  insert_all v l m !! k = if decide (k ∈ l) then Some v else m !! k.
Proof.
  unfold insert_all. revert m. induction l as [|x l IH]; intros m; cbn; [done|].
  rewrite IH. destruct (decide (k ∈ l)) as [Hin|Hout].
  - by rewrite decide_True by set_solver.
  - destruct (decide (x = k)) as [<-|Hne].
    + rewrite lookup_insert_eq, decide_True by set_solver. done.
    + rewrite lookup_insert_ne, decide_False by set_solver. done.
Qed.
End map_loops.

(** ** Hash table iteration *)
Section iter_order.
Context `{IterOrder}.

Lemma elem_of_iter_set `{Countable A} (x : A) (s : gset A) : x ∈ iter_set s ↔ x ∈ s.
Proof. by rewrite iter_set_perm, elem_of_elements. Qed.

Lemma NoDup_iter_set `{Countable A} (s : gset A) : NoDup (iter_set s).
Proof. rewrite iter_set_perm. apply NoDup_elements. Qed.

Lemma elem_of_iter_map `{Countable K} {V} (k : K) (v : V) (m : gmap K V) :
  (k, v) ∈ iter_map m ↔ m !! k = Some v.
Proof. by rewrite iter_map_perm, elem_of_map_to_list. Qed.

Lemma NoDup_iter_map_fst `{Countable K} {V} (m : gmap K V) : NoDup (iter_map m).*1.
Proof. rewrite iter_map_perm. apply NoDup_fst_map_to_list. Qed.

Lemma lookup_update_on_iter `{Countable K} {V} (s : gset K) (f : K → V → V) m k :
  update_on (iter_set s) f m !! k = (if decide (k ∈ s) then f k else id) <$> m !! k.
Proof.
  rewrite lookup_update_on.
  by rewrite (decide_ext (k ∈ iter_set s) (k ∈ s)) by apply elem_of_iter_set.
Qed.

Lemma lookup_insert_all_iter `{Countable K} {V} (v : V) (s : gset K) (m : gmap K V) k :
  insert_all v (iter_set s) m !! k = if decide (k ∈ s) then Some v else m !! k.
Proof.
  rewrite lookup_insert_all.
  by rewrite (decide_ext (k ∈ iter_set s) (k ∈ s)) by apply elem_of_iter_set.
Qed.
End iter_order.

#[export] Hint Resolve NoDup_iter_set NoDup_iter_map_fst : subzero.
#[export] Hint Rewrite @elem_of_iter_set @elem_of_iter_map : subzero.
