(* ===== verification/Orders.v ===== *)
(** * Orders.v: derived orders, sorting and the lowest element

    Rust's [#[derive(Ord)]] compares the fields of a struct in turn; slices and
    arrays of bytes are compared lexicographically.  This file defines those
    comparisons, shows that they are total orders, and models [slice::sort]. *)

From stdpp Require Import prelude sorting gmap.
From Stdlib Require Import ZArith Lia.
From S2P Require Import Prelude.

(** What [Ord] promises: a total order whose [Equal] is equality. *)
Class LawfulCmp {A : Type} (cmp : A → A → comparison) : Prop := {
  cmp_eq_iff : ∀ x y, cmp x y = Eq ↔ x = y;
  cmp_opp : ∀ x y, cmp y x = CompOpp (cmp x y);
  cmp_lt_trans : ∀ x y z, cmp x y = Lt → cmp y z = Lt → cmp x z = Lt
}.

(** Compare with [c], and with [d] when [c] is [Equal] ([Ordering::then]). *)
Definition cmp_then (c d : comparison) : comparison :=
  match c with Eq => d | _ => c end.

Fixpoint list_cmp {A : Type} (cmp : A → A → comparison) (a b : list A) : comparison :=
  match a, b with
  | [], [] => Eq
  | [], _ :: _ => Lt
  | _ :: _, [] => Gt
  | x :: a', y :: b' => cmp_then (cmp x y) (list_cmp cmp a' b')
  end.

Definition bytes_cmp : bytes → bytes → comparison := list_cmp Z.compare.

(** [<] on byte arrays. *)
Definition bytes_ltb (a b : bytes) : bool :=
  match bytes_cmp a b with Lt => true | _ => false end.

#[export] Instance Z_compare_lawful : LawfulCmp Z.compare.
Proof.
  split.
  - apply Z.compare_eq_iff.
  - intros x y. apply Z.compare_antisym.
  - intros x y z. rewrite !Z.compare_lt_iff. lia.
Qed.

(** Two lawful comparisons of the fields [f] and [g] of a value, taken in turn,
    are lawful as soon as the two fields determine the value. *)
Section cmp_fields.
Context {A B C : Type} (f : A → B) (g : A → C).
Context (cmpB : B → B → comparison) (cmpC : C → C → comparison).
Context `{!LawfulCmp cmpB, !LawfulCmp cmpC}.

Definition cmp_fields (x y : A) : comparison :=
  cmp_then (cmpB (f x) (f y)) (cmpC (g x) (g y)).

Lemma cmp_fields_lawful :
  (∀ x y, f x = f y → g x = g y → x = y) → LawfulCmp cmp_fields.
Proof.
  intros Hinj. unfold cmp_fields, cmp_then. split.
  - intros x y. pose proof (cmp_eq_iff (f x) (f y)).
    pose proof (cmp_eq_iff (g x) (g y)). split; [|by intros ->; intuition (case_match; auto)].
    case_match; intros; try done. apply Hinj; intuition.
  - intros x y. rewrite (cmp_opp (f x)), (cmp_opp (g x)). by destruct (cmpB _ _).
  - intros x y z Hxy Hyz.
    destruct (cmpB (f x) (f y)) eqn:Hb1, (cmpB (f y) (f z)) eqn:Hb2; try done.
    + apply cmp_eq_iff in Hb1 as Hf1. apply cmp_eq_iff in Hb2 as Hf2.
      rewrite Hf1, Hf2, (proj2 (cmp_eq_iff _ _) eq_refl). by eapply cmp_lt_trans.
    + apply cmp_eq_iff in Hb1 as ->. by rewrite Hb2.
    + apply cmp_eq_iff in Hb2 as <-. by rewrite Hb1.
    + by rewrite (cmp_lt_trans _ _ _ Hb1 Hb2).
Qed.
End cmp_fields.

#[export] Instance list_cmp_lawful {A} (cmp : A → A → comparison) :
  LawfulCmp cmp → LawfulCmp (list_cmp cmp).
Proof.
  intros Hc. split.
  - induction x as [|a x IH]; intros [|b y]; cbn; try done.
    unfold cmp_then. pose proof (cmp_eq_iff a b) as Hab. specialize (IH y).
    split; [|by intros ?; simplify_eq; intuition (case_match; auto)].
    case_match; intros; try done. f_equal; intuition.
  - induction x as [|a x IH]; intros [|b y]; cbn; try done.
    rewrite (cmp_opp a b), IH. by destruct (cmp a b).
  - induction x as [|a x IH]; intros [|b y] [|c z]; cbn; try done.
    unfold cmp_then. intros Hxy Hyz.
    destruct (cmp a b) eqn:Hb1, (cmp b c) eqn:Hb2; try done.
    + apply cmp_eq_iff in Hb1 as ->. apply cmp_eq_iff in Hb2 as ->.
      rewrite (proj2 (cmp_eq_iff _ _) eq_refl). eauto.
    + apply cmp_eq_iff in Hb1 as ->. by rewrite Hb2.
    + apply cmp_eq_iff in Hb2 as <-. by rewrite Hb1.
    + by rewrite (cmp_lt_trans _ _ _ Hb1 Hb2).
Qed.

#[export] Instance bytes_cmp_lawful : LawfulCmp bytes_cmp.
Proof. apply _. Qed.

(** ** Sorting *)
Section sort.
Context {A : Type} (cmp : A → A → comparison).

Definition cmp_le (x y : A) : Prop := cmp x y ≠ Gt.

#[export] Instance cmp_le_dec : RelDecision cmp_le.
Proof. intros x y. unfold cmp_le. apply _. Defined.

(** [slice::sort]. *)
Definition sort (l : list A) : list A := merge_sort cmp_le l.

Context `{!LawfulCmp cmp}.

#[export] Instance cmp_le_trans : Transitive cmp_le.
Proof.
  unfold cmp_le. intros x y z Hxy Hyz.
  destruct (cmp x y) eqn:H1, (cmp y z) eqn:H2; try done.
  - apply cmp_eq_iff in H1 as ->. apply cmp_eq_iff in H2 as ->.
    by rewrite (proj2 (cmp_eq_iff _ _) eq_refl).
  - apply cmp_eq_iff in H1 as ->. by rewrite H2.
  - apply cmp_eq_iff in H2 as <-. by rewrite H1.
  - by rewrite (cmp_lt_trans _ _ _ H1 H2).
Qed.

#[export] Instance cmp_le_total : Total cmp_le.
Proof.
  unfold cmp_le. intros x y. rewrite (cmp_opp (cmp:=cmp) x y).
  destruct (cmp x y); cbn; auto.
Qed.

#[export] Instance cmp_le_antisymm : AntiSymm (=) cmp_le.
Proof.
  unfold cmp_le. intros x y. rewrite (cmp_opp (cmp:=cmp) x y).
  destruct (cmp x y) eqn:Hxy; cbn; try done. by apply cmp_eq_iff in Hxy.
Qed.

Lemma sort_perm l : sort l ≡ₚ l.
Proof. apply merge_sort_Permutation. Qed.

Lemma sort_sorted l : StronglySorted cmp_le (sort l).
Proof. apply StronglySorted_merge_sort; apply _. Qed.

(** Sorting forgets the order of the input. *)
Lemma sort_perm_eq l1 l2 : l1 ≡ₚ l2 → sort l1 = sort l2.
Proof.
  intros Hp. apply (StronglySorted_unique cmp_le).
  - apply sort_sorted.
  - apply sort_sorted.
  - by rewrite !sort_perm.
Qed.

Lemma sort_eq_perm l1 l2 : sort l1 = sort l2 → l1 ≡ₚ l2.
Proof. intros Hs. by rewrite <- (sort_perm l1), Hs, sort_perm. Qed.
End sort.

(** Comparing two sets through their sorted vectors is comparing the sets. *)
Lemma sort_iter_set_inj `{IterOrder} `{Countable A} (cmp : A → A → comparison)
    `{!LawfulCmp cmp} (s1 s2 : gset A) :
  sort cmp (iter_set s1) = sort cmp (iter_set s2) ↔ s1 = s2.
Proof.
  split; [|by intros ->]. intros Hs%sort_eq_perm. apply set_eq. intros x.
  by rewrite <- !elem_of_iter_set, Hs.
Qed.

(** ** [bytes_ltb] *)
Lemma bytes_ltb_Lt a b : bytes_ltb a b = true ↔ bytes_cmp a b = Lt.
Proof. unfold bytes_ltb. by destruct (bytes_cmp a b). Qed.

Lemma bytes_ltb_irrefl a : bytes_ltb a a = false.
Proof. unfold bytes_ltb. by rewrite (proj2 (cmp_eq_iff (cmp:=bytes_cmp) a a) eq_refl). Qed.

Lemma bytes_ltb_trans a b c :
  bytes_ltb a b = true → bytes_ltb b c = true → bytes_ltb a c = true.
Proof. rewrite !bytes_ltb_Lt. apply cmp_lt_trans. Qed.

Lemma bytes_ltb_total a b : a = b ∨ bytes_ltb a b = true ∨ bytes_ltb b a = true.
Proof.
  rewrite !bytes_ltb_Lt, (cmp_opp (cmp:=bytes_cmp) a b).
  destruct (bytes_cmp a b) eqn:Hab; cbn; auto. apply cmp_eq_iff in Hab. auto.
Qed.

Lemma bytes_ltb_asym a b : bytes_ltb a b = true → bytes_ltb b a = false.
Proof.
  rewrite bytes_ltb_Lt. unfold bytes_ltb. rewrite (cmp_opp (cmp:=bytes_cmp) a b). by intros ->.
Qed.

(** A linear scan for the lowest byte string ([if hi < h { h = hi }]). *)
Definition scan_lowest (h : bytes) (l : list bytes) : bytes :=
  foldl (λ h hi, if bytes_ltb hi h then hi else h) h l.

Lemma scan_lowest_in h l : scan_lowest h l ∈ h :: l.
Proof.
  revert h. unfold scan_lowest. induction l as [|x l IH]; intros h; cbn; [set_solver|].
  specialize (IH (if bytes_ltb x h then x else h)). case_match; set_solver.
Qed.

Lemma scan_lowest_le h l x :
  x ∈ h :: l → bytes_ltb x (scan_lowest h l) = false.
Proof.
  revert h x. unfold scan_lowest. induction l as [|y l IH]; intros h x Hx; cbn.
  - assert (x = h) as -> by set_solver. apply bytes_ltb_irrefl.
  - set (h' := if bytes_ltb y h then y else h).
    assert (bytes_ltb x h' = false ∨ x ∈ h' :: l) as [Hlt|Hin].
    { unfold h'. apply elem_of_cons in Hx as [->|[->|Hx]%elem_of_cons]; [| |set_solver].
      - destruct (bytes_ltb y h) eqn:Hyh; [left; by apply bytes_ltb_asym|set_solver].
      - destruct (bytes_ltb y h) eqn:Hyh; [right; set_solver|by left]. }
    + specialize (IH h' h' ltac:(set_solver)).
      apply not_true_is_false. intros Hxr.
      match type of Hxr with bytes_ltb x ?r = true =>
        destruct (bytes_ltb_total h' r) as [Heq|[Hr|Hr]] end.
      * rewrite <- Heq in Hxr. congruence.
      * congruence.
      * pose proof (bytes_ltb_trans _ _ _ Hxr Hr). congruence.
    + by apply IH.
Qed.
