(* ===== verification/Cell.v ===== *)
(** * Cell.v: cells, their inputs and outputs, and their ids (src/src/cell/)

    A cell is a transaction of the extended UTXO model: a set of inputs, each a
    reference to an output of another cell, and a sorted vector of outputs.
    Hashing and serialisation are code of other crates and are the fields of
    [Crypto]; [CryptoLaws] states what the program relies on. *)

From stdpp Require Import prelude gmap sets fin_sets list strings countable.
From Stdlib Require Import ZArith Lia.
From S2P Require Import Prelude Orders.

(** [cell::Error] *)
Module CellError.
Inductive Error : Type :=
| Hex (s : string)
| Bincode (s : string)
| Dalek (s : string)
| InvalidCoinbase
| InvalidStake.

#[global] Instance Error_eq_dec : EqDecision Error.
Proof. solve_decision. Defined.
End CellError.

(** ** Data *)

Definition FEE : Z := 3.

Abbreviation Capacity := Z (only parsing).
Abbreviation PublicKeyHash := bytes (only parsing).
Abbreviation CellHash := bytes (only parsing).
Abbreviation CellId := bytes (only parsing).

(** Keys and signatures of [ed25519_dalek], by their byte representation. *)
Abbreviation PublicKey := bytes (only parsing).
Abbreviation Signature := bytes (only parsing).

Inductive CellType : Type := Coinbase | Transfer | Stake.

Record CellUnlockScript : Type := { public_key : PublicKey; signature : Signature }.

Record OutputIndex : Type := { cell_hash : CellHash; index : Z }.

Record Input : Type := { output_index : OutputIndex; unlock : CellUnlockScript }.

Record Output : Type := {
  capacity : Capacity;
  cell_type : CellType;
  data : bytes;
  lock : PublicKeyHash
}.

#[export] Instance CellType_eq_dec : EqDecision CellType.
Proof. solve_decision. Defined.
#[export] Instance CellUnlockScript_eq_dec : EqDecision CellUnlockScript.
Proof. solve_decision. Defined.
#[export] Instance OutputIndex_eq_dec : EqDecision OutputIndex.
Proof. solve_decision. Defined.
#[export] Instance Input_eq_dec : EqDecision Input.
Proof. solve_decision. Defined.
#[export] Instance Output_eq_dec : EqDecision Output.
Proof. solve_decision. Defined.

#[export] Instance CellUnlockScript_countable : Countable CellUnlockScript.
Proof.
  refine (inj_countable' (λ u, (public_key u, signature u))
    (λ p, {| public_key := p.1; signature := p.2 |}) _). by intros [].
Defined.
#[export] Instance OutputIndex_countable : Countable OutputIndex.
Proof.
  refine (inj_countable' (λ u, (cell_hash u, index u))
    (λ p, {| cell_hash := p.1; index := p.2 |}) _). by intros [].
Defined.
#[export] Instance Input_countable : Countable Input.
Proof.
  refine (inj_countable' (λ u, (output_index u, unlock u))
    (λ p, {| output_index := p.1; unlock := p.2 |}) _). by intros [].
Defined.

(** [Inputs] wraps a [HashSet<Input>], [Outputs] a [Vec<Output>]. *)
Abbreviation Inputs := (gset Input) (only parsing).
Abbreviation Outputs := (list Output) (only parsing).

(** [CellIds] wraps a [HashSet<CellId>]. *)
Abbreviation CellIds := (gset bytes) (only parsing).

Record Cell : Type := { inputs : gset Input; outputs : list Output }.

#[export] Instance Cell_eq_dec : EqDecision Cell.
Proof. solve_decision. Defined.

(** ** The crates blake3, bincode and ed25519_dalek

    Serialising these in-memory values into a byte vector cannot fail: the
    serialisers are total.  [ser_cell] gets the inputs in the order in which
    [Inputs::serialize] emits them. *)
Class Crypto : Type := {
  blake3 : bytes → bytes;
  ser_bytes : bytes → bytes;
  ser_public_key : PublicKey → bytes;
  ser_signature : Signature → bytes;
  ser_cell : list Input → list Output → bytes;
  Keypair : Type;
  public : Keypair → PublicKey;
  sign : Keypair → bytes → Signature
}.

(** What the program relies on: the hash does not collide and bincode is
    injective on the values of one type. *)
Class CryptoLaws `{Crypto} : Prop := {
  blake3_inj : ∀ a b, blake3 a = blake3 b → a = b;
  ser_bytes_inj : ∀ a b, ser_bytes a = ser_bytes b → a = b;
  ser_public_key_inj : ∀ a b, ser_public_key a = ser_public_key b → a = b;
  ser_signature_inj : ∀ a b, ser_signature a = ser_signature b → a = b;
  ser_cell_inj : ∀ i o i' o', ser_cell i o = ser_cell i' o' → i = i' ∧ o = o'
}.

Section cell.
Context `{Crypto, IterOrder, BuildProfile}.

(** *** Orders ([#[derive(Ord)]] and the hand-written ones) *)

Definition cell_type_tag (t : CellType) : Z :=
  match t with Coinbase => 0 | Transfer => 1 | Stake => 2 end.

Definition cell_type_cmp (a b : CellType) : comparison :=
  Z.compare (cell_type_tag a) (cell_type_tag b).

Definition output_index_cmp : OutputIndex → OutputIndex → comparison :=
  cmp_fields cell_hash index bytes_cmp Z.compare.

(** [CellUnlockScript::cmp]: the serialised keys, then the serialised
    signatures. *)
Definition unlock_cmp (a b : CellUnlockScript) : comparison :=
  match bytes_cmp (ser_public_key (public_key a)) (ser_public_key (public_key b)) with
  | Eq => bytes_cmp (ser_signature (signature a)) (ser_signature (signature b))
  | ord => ord
  end.

Definition input_cmp : Input → Input → comparison :=
  cmp_fields output_index unlock output_index_cmp unlock_cmp.

Definition output_cmp : Output → Output → comparison :=
  cmp_fields capacity (λ o, o) Z.compare
    (cmp_fields cell_type (λ o, o) cell_type_cmp
       (cmp_fields data lock bytes_cmp bytes_cmp)).

(** *** Inputs *)

(** The sorted vector of [Inputs::serialize], [Inputs::hash], [Inputs::eq] and
    [Inputs::cmp]. *)
Definition inputs_sorted (i : Inputs) : list Input := sort input_cmp (iter_set i).

Definition inputs_eq (a b : Inputs) : bool :=
  bool_decide (inputs_sorted a = inputs_sorted b).

Definition inputs_cmp (a b : Inputs) : comparison :=
  list_cmp input_cmp (inputs_sorted a) (inputs_sorted b).

Definition inputs_new (l : list Input) : Inputs := list_to_set l.

(** *** Ids *)

Definition output_index_cell_id (o : OutputIndex) : res CellError.Error CellId :=
  let b := cell_hash o ++ [index o] in
  let encoded := ser_bytes b in
  Ok (blake3 encoded).

Definition cell_id_from_output (h : CellHash) (i : Z) (_output : Output) :
    res CellError.Error CellId :=
  let b := h ++ [i] in
  let encoded := ser_bytes b in
  Ok (blake3 encoded).

Definition input_cell_id (i : Input) : res CellError.Error CellId :=
  output_index_cell_id (output_index i).

Definition input_new (kp : Keypair) (h : CellHash) (i : Z) :
    res CellError.Error Input :=
  let oi := {| cell_hash := h; index := i |} in
  cell_id ← output_index_cell_id oi;
  let sg := sign kp cell_id in
  Ok {| output_index := oi;
        unlock := {| public_key := public kp; signature := sg |} |}.

(** *** Outputs *)

Definition outputs_new (l : list Output) : Outputs := sort output_cmp l.

Definition outputs_sum {E} (o : Outputs) : res E Capacity :=
  u_sum 64 0 (capacity <$> o).

Definition output_validate_capacity (o : Output) : res CellError.Error unit := Ok tt.

(** [Output::verify] *)
Definition output_verify (o : Output) (consumed : list Output) :
    res CellError.Error unit :=
  match cell_type o with
  | Coinbase =>
      if negb (length consumed =? 0)%nat then Err CellError.InvalidCoinbase else Ok tt
  | Transfer => Ok tt
  | Stake =>
      if negb (length consumed =? 0)%nat then Err CellError.InvalidStake else Ok tt
  end.

(** *** Cells *)

Definition cell_new (i : Inputs) (o : Outputs) : Cell := {| inputs := i; outputs := o |}.

Definition outputs_of_owner (c : Cell) (owner : PublicKeyHash) : list Output :=
  filter (λ o, lock o = owner) (outputs c).

(** [Cell::hash] *)
Definition hash (c : Cell) : CellHash :=
  let encoded := ser_cell (inputs_sorted (inputs c)) (outputs c) in
  blake3 encoded.

Definition cell_sum {E} (c : Cell) : res E Capacity := outputs_sum (outputs c).

(** *** CellIds *)

Definition from_inputs (i : Inputs) : res CellError.Error CellIds :=
  ids ← try_map input_cell_id (iter_set i);
  Ok (list_to_set ids).

(** [i as u8] truncates. *)
Definition from_outputs (h : CellHash) (o : Outputs) : res CellError.Error CellIds :=
  ids ← try_map (λ p : nat * Output, cell_id_from_output h (Z.of_nat p.1 mod 2 ^ 8)%Z p.2)
          (imap pair o);
  Ok (list_to_set ids).

Definition cell_ids_eq (a b : CellIds) : bool :=
  bool_decide (sort bytes_cmp (iter_set a) = sort bytes_cmp (iter_set b)).

Definition cell_ids_cmp (a b : CellIds) : comparison :=
  list_cmp bytes_cmp (sort bytes_cmp (iter_set a)) (sort bytes_cmp (iter_set b)).

Definition intersects_with (a b : CellIds) : bool := negb (bool_decide (a ## b)).
Definition intersect (a b : CellIds) : CellIds := a ∩ b.
Definition left_difference (a b : CellIds) : CellIds := a ∖ b.
End cell.

(** ** Facts *)
Section cell_facts.
Context `{Crypto, IterOrder, BuildProfile}.

(** The id of output [i] of the cell [h], as every function computes it. *)
Definition out_id (h : CellHash) (i : Z) : CellId := blake3 (ser_bytes (h ++ [i])).

Definition consumed_ids (c : Cell) : CellIds :=
  set_map (λ i, out_id (cell_hash (output_index i)) (index (output_index i))) (inputs c).

Definition produced_ids (c : Cell) : CellIds :=
  list_to_set (imap (λ i _, out_id (hash c) (Z.of_nat i mod 2 ^ 8)%Z) (outputs c)).

Lemma from_inputs_Ok c : from_inputs (inputs c) = Ok (consumed_ids c).
Proof.
  unfold from_inputs.
  rewrite (try_map_Ok _ (λ i, out_id (cell_hash (output_index i)) (index (output_index i))))
    by done. cbn. f_equal. apply set_eq. intros x. unfold consumed_ids.
  rewrite elem_of_list_to_set, elem_of_map, list_elem_of_fmap.
  setoid_rewrite elem_of_iter_set. done.
Qed.

Lemma from_outputs_Ok c : from_outputs (hash c) (outputs c) = Ok (produced_ids c).
Proof.
  unfold from_outputs, produced_ids.
  rewrite (try_map_Ok _ (λ p, out_id (hash c) (Z.of_nat p.1 mod 2 ^ 8)%Z)) by done.
  cbn. f_equal. rewrite fmap_imap. done.
Qed.

(** The equality of [CellIds], which compares sorted vectors taken from the two
    hash sets, is set equality: it depends neither on the order in which the
    tables are visited nor on how they were built. *)
Lemma cell_ids_eq_spec a b : cell_ids_eq a b = true ↔ a = b.
Proof.
  unfold cell_ids_eq. rewrite bool_decide_eq_true. apply sort_iter_set_inj. apply _.
Qed.

Context `{!CryptoLaws}.

#[export] Instance unlock_cmp_lawful : LawfulCmp unlock_cmp.
Proof.
  pose proof (cmp_fields_lawful (λ u, ser_public_key (public_key u))
    (λ u, ser_signature (signature u)) bytes_cmp bytes_cmp) as Hc.
  assert (∀ a b, unlock_cmp a b = cmp_fields (λ u, ser_public_key (public_key u))
    (λ u, ser_signature (signature u)) bytes_cmp bytes_cmp a b) as Heq.
  { intros a b. unfold unlock_cmp, cmp_fields, cmp_then. by destruct (bytes_cmp _ _). }
  destruct Hc as [Hc1 Hc2 Hc3].
  { intros [] [] Hp%ser_public_key_inj Hs%ser_signature_inj. cbn in *. by subst. }
  split; intros *; rewrite !Heq; [apply Hc1|apply Hc2|apply Hc3].
Qed.

#[export] Instance input_cmp_lawful : LawfulCmp input_cmp.
Proof.
  apply cmp_fields_lawful; [|apply _|intros [] [] ??; cbn in *; by subst].
  apply cmp_fields_lawful; [apply _..|intros [] [] ??; cbn in *; by subst].
Qed.

(** The hash identifies a cell: two cells with the same hash have the same
    inputs and outputs, whatever order the hash sets are visited in. *)
Lemma hash_inj c c' : hash c = hash c' → c = c'.
Proof.
  unfold hash, inputs_sorted. intros [Hi Ho]%blake3_inj%ser_cell_inj.
  apply (sort_iter_set_inj input_cmp) in Hi. destruct c, c'. cbn in *. by subst.
Qed.

Lemma out_id_inj h i h' i' : out_id h i = out_id h' i' → h = h' ∧ i = i'.
Proof.
  unfold out_id. intros Heq%blake3_inj%ser_bytes_inj.
  apply app_inj_tail in Heq. done.
Qed.

(** Two different cells produce different ids. *)
Lemma produced_ids_disjoint c c' : c ≠ c' → produced_ids c ## produced_ids c'.
Proof.
  intros Hne x. unfold produced_ids.
  rewrite !elem_of_list_to_set, !elem_of_lookup_imap.
  intros (i & o & -> & _) (i' & o' & Heq & _).
  apply out_id_inj in Heq as [Hh%hash_inj _]. done.
Qed.
End cell_facts.
