(* ===== verification/Instances.v ===== *)
(** * Instances.v: concrete instances of the interfaces

    The theorems are stated for every hash function and serialiser that satisfies
    the laws of [CryptoLaws].  This file shows that the laws can hold: a
    serialiser that writes the length of every sequence in front of it, as bincode
    does, and an injective function in the place of the hash.  The witnesses of
    the conditional theorems run on this instance. *)

From stdpp Require Import prelude gmap list.
From Stdlib Require Import ZArith Lia.
From S2P Require Import Prelude Orders Cell.

(** A serialiser whose output determines the value and where it ends. *)
Definition prefix_free {A : Type} (ser : A → bytes) : Prop :=
  ∀ a b r r', ser a ++ r = ser b ++ r' → a = b ∧ r = r'.

Definition ser_z (z : Z) : bytes := [z].
Definition ser_seq {A : Type} (ser : A → bytes) (l : list A) : bytes :=
  Z.of_nat (length l) :: mjoin (ser <$> l).
Definition ser_both {A B C : Type} (f : A → B) (g : A → C) (s : B → bytes) (t : C → bytes)
    (a : A) : bytes := s (f a) ++ t (g a).

Lemma ser_z_prefix_free : prefix_free ser_z.
Proof. intros a b r r' Heq. cbn in Heq. by simplify_eq. Qed.

Lemma ser_seq_prefix_free {A} (ser : A → bytes) : prefix_free ser → prefix_free (ser_seq ser).
Proof.
  intros Hs a b r r' Heq. cbn in Heq. injection Heq as Hlen%Nat2Z.inj Heq.
  revert b r r' Hlen Heq. induction a as [|x a IH]; intros [|y b] r r' Hlen Heq; try done.
  cbn in *. rewrite <- !app_assoc in Heq. apply Hs in Heq as [-> Heq].
  apply IH in Heq as [-> ->]; [done|lia].
Qed.

Lemma ser_both_prefix_free {A B C} (f : A → B) (g : A → C) s t :
  prefix_free s → prefix_free t → (∀ a b, f a = f b → g a = g b → a = b) →
  prefix_free (ser_both f g s t).
Proof.
  intros Hs Ht Hinj a b r r'. unfold ser_both. rewrite <- !app_assoc.
  intros [Hf Hr]%Hs. apply Ht in Hr as [Hg ->]. auto.
Qed.

Lemma prefix_free_inj {A} (ser : A → bytes) a b : prefix_free ser → ser a = ser b → a = b.
Proof.
  intros Hs Heq. apply (Hs a b [] []). by rewrite !app_nil_r.
Qed.

Definition ser_blob : bytes → bytes := ser_seq ser_z.
Definition ser_output_index : OutputIndex → bytes := ser_both cell_hash index ser_blob ser_z.
Definition ser_unlock : CellUnlockScript → bytes :=
  ser_both public_key signature ser_blob ser_blob.
Definition ser_input : Input → bytes :=
  ser_both output_index unlock ser_output_index ser_unlock.
Definition ser_output : Output → bytes :=
  ser_both capacity (λ o, o) ser_z
    (ser_both (λ o, cell_type_tag (cell_type o)) (λ o, o) ser_z
       (ser_both data lock ser_blob ser_blob)).
Definition ser_cell_body : list Input * list Output → bytes :=
  ser_both fst snd (ser_seq ser_input) (ser_seq ser_output).

Lemma ser_blob_prefix_free : prefix_free ser_blob.
Proof. apply ser_seq_prefix_free, ser_z_prefix_free. Qed.

Lemma ser_input_prefix_free : prefix_free ser_input.
Proof.
  apply ser_both_prefix_free.
  - apply ser_both_prefix_free; [apply ser_blob_prefix_free|apply ser_z_prefix_free|].
    intros [] [] ??; cbn in *; by subst.
  - apply ser_both_prefix_free; [apply ser_blob_prefix_free..|].
    intros [] [] ??; cbn in *; by subst.
  - intros [] [] ??; cbn in *; by subst.
Qed.

Lemma ser_output_prefix_free : prefix_free ser_output.
Proof.
  intros [c1 t1 d1 l1] [c2 t2 d2 l2] r r' Heq. unfold ser_output, ser_both in Heq.
  rewrite <- !app_assoc in Heq. cbn [capacity cell_type data lock] in Heq.
  apply ser_z_prefix_free in Heq as [-> Heq].
  apply ser_z_prefix_free in Heq as [Ht Heq].
  apply ser_blob_prefix_free in Heq as [-> Heq].
  apply ser_blob_prefix_free in Heq as [-> ->].
  by destruct t1, t2.
Qed.

Lemma ser_cell_body_prefix_free : prefix_free ser_cell_body.
Proof.
  apply ser_both_prefix_free.
  - apply ser_seq_prefix_free, ser_input_prefix_free.
  - apply ser_seq_prefix_free, ser_output_prefix_free.
  - intros [] [] ??; cbn in *; by subst.
Qed.

Definition plain_crypto : Crypto := {|
  blake3 b := b;
  ser_bytes b := b;
  ser_public_key b := b;
  ser_signature b := b;
  ser_cell i o := ser_cell_body (i, o);
  Keypair := bytes;
  public kp := kp;
  sign kp m := kp ++ m
|}.

Lemma plain_crypto_laws : @CryptoLaws plain_crypto.
Proof.
  split; try done. intros i o i' o' Heq.
  apply (prefix_free_inj _ _ _ ser_cell_body_prefix_free) in Heq. by simplify_eq.
Qed.

(** The same with a hash of one digit, for longer runs. *)
Definition short_crypto : Crypto := {|
  blake3 b := [foldl (λ acc z, (31 * acc + z) mod 1009)%Z 7%Z b];
  ser_bytes b := b;
  ser_public_key b := b;
  ser_signature b := b;
  ser_cell i o := ser_cell_body (i, o);
  Keypair := bytes;
  public kp := kp;
  sign kp m := kp ++ m
|}.

(** The release profile, in which unchecked arithmetic wraps. *)
Definition release_profile : BuildProfile := false.
Definition debug_profile : BuildProfile := true.

(** An output that transfers [n] to the owner [o], and an input that spends the
    output [i] of the cell [h]. *)
Definition pay (n : Z) (o : bytes) : Output :=
  {| capacity := n; cell_type := Transfer; data := []; lock := o |}.
Definition spend (h : bytes) (i : Z) : Input :=
  {| output_index := {| cell_hash := h; index := i |};
     unlock := {| public_key := []; signature := [] |} |}.
