(* ===== verification/Dag.v ===== *)
(** * Dag.v: the directed acyclic graph of sleet (src/src/graph/dag.rs)

    [DAG] keeps the outgoing edges of a vertex (its parents) in [dag_g], the
    incoming ones (its children) in [dag_inv] and one vote per vertex in
    [dag_chits].  The methods are translated one by one; the theorems on them are
    in DagFacts. *)

From stdpp Require Import prelude gmap sets fin_sets list relations.
From Stdlib Require Import ZArith Lia.
From S2P Require Import Prelude Orders Cell.

(** [graph::Error] *)
Module GraphError.
Inductive Error : Type :=
| Cell (e : CellError.Error)
| VertexExists
| VacantEntry
| UndefinedChit
| UndefinedVertex
| ChitReplace
| ChitOverflow
| EmptyConflictGraph
| DuplicateCell
| UndefinedCell
| UndefinedCellHash (h : bytes).

#[global] Instance Error_eq_dec : EqDecision Error.
Proof. solve_decision. Defined.
End GraphError.

Record DAG (V : Type) `{Countable V} : Type := mkDAG {
  dag_g : gmap V (list V);
  dag_inv : gmap V (list V);
  dag_chits : gmap V Z
}.
Arguments mkDAG {V _ _} _ _ _.
Arguments dag_g {V _ _} _.
Arguments dag_inv {V _ _} _.
Arguments dag_chits {V _ _} _.

Section dag.
Context `{Countable V}.
Abbreviation DAG := (DAG V).
Implicit Types (d : DAG) (vx u v : V).

Definition dag_new : DAG := mkDAG ∅ ∅ ∅.

Definition set_g (g : gmap V (list V)) d : DAG := mkDAG g (dag_inv d) (dag_chits d).
Definition set_inv (i : gmap V (list V)) d : DAG := mkDAG (dag_g d) i (dag_chits d).
Definition set_chits (c : gmap V Z) d : DAG := mkDAG (dag_g d) (dag_inv d) c.

(** [set_chit]: a chit of 1 cannot be replaced. *)
Definition set_chit vx (chit : Z) : st DAG GraphError.Error unit := λ d,
  match dag_chits d !! vx with
  | Some o =>
      if (o =? 1)%Z then (d, Err GraphError.ChitReplace)
      else (set_chits (<[vx := chit]> (dag_chits d)) d, Ok tt)
  | None => (set_chits (<[vx := chit]> (dag_chits d)) d, Ok tt)
  end.

Definition get_chit d vx : res GraphError.Error Z :=
  match dag_chits d !! vx with
  | Some chit => Ok chit
  | None => Err GraphError.UndefinedChit
  end.

(** [insert_vx]: the entry of [vx] in [inv], one push per edge, the edges in
    [g], a chit of 0. *)
Definition insert_vx vx (edges : list V) : st DAG GraphError.Error unit :=
  modify (λ d, match dag_inv d !! vx with
               | Some _ => d
               | None => set_inv (<[vx := []]> (dag_inv d)) d
               end);;
  foreach edges (λ ivx d,
    match dag_inv d !! ivx with
    | Some o => (set_inv (<[ivx := o ++ [vx]]> (dag_inv d)) d, Ok tt)
    | None => (d, Err GraphError.VacantEntry)
    end);;
  (λ d, match dag_g d !! vx with
        | Some _ => (d, Err GraphError.VertexExists)
        | None => (set_g (<[vx := edges]> (dag_g d)) d, Ok tt)
        end);;
  set_chit vx 0.

(** [has_vertices]: the missing vertices are the error. *)
Definition has_vertices d (vs : list V) : res (list V) unit :=
  let missing := filter (λ v, dag_g d !! v = None) vs in
  match missing with [] => Ok tt | _ => Err missing end.

(** [Vec::retain(|e| e != vx)]. *)
Definition retain_ne vx (l : list V) : list V := filter (λ e, e ≠ vx) l.

(** [remove_vx]: [vx] leaves the edges of its children, then the inverse edges
    of its parents, then the two maps.  The chit stays. *)
Definition remove_vx vx : st DAG GraphError.Error (gset V) :=
  children ← reads (λ d, ok_or (dag_inv d !! vx) GraphError.UndefinedVertex);
  foreach children (λ child d,
    match dag_g d !! child with
    | None => (d, Err GraphError.VacantEntry)
    | Some o => (set_g (<[child := retain_ne vx o]> (dag_g d)) d, Ok tt)
    end);;
  parents ← reads (λ d, ok_or (dag_g d !! vx) GraphError.UndefinedVertex);
  foreach parents (λ parent d,
    match dag_inv d !! parent with
    | None => (d, Err GraphError.VacantEntry)
    | Some o => (set_inv (<[parent := retain_ne vx o]> (dag_inv d)) d, Ok tt)
    end);;
  modify (λ d, set_g (delete vx (dag_g d)) d);;
  modify (λ d, set_inv (delete vx (dag_inv d)) d);;
  mret (list_to_set children).

(** ** Traversals

    The inner loop shared by [conviction], [bfs] and [DFS::next]: an edge that
    has no entry in [visited] gets one and is pushed on the work list. *)
Fixpoint visit_edges (push : V → list V → list V) (adj : list V)
    (visited : gmap V bool) (work : list V) : gmap V bool * list V :=
  match adj with
  | [] => (visited, work)
  | edge :: adj' =>
      match visited !! edge with
      | Some _ => visit_edges push adj' visited work
      | None => visit_edges push adj' (<[edge := true]> visited) (push edge work)
      end
  end.

(** [VecDeque::push_back]; [Vec::push] on a stack kept with its top first. *)
Definition push_back (x : V) (q : list V) : list V := q ++ [x].
Definition push_top (x : V) (q : list V) : list V := x :: q.

Fixpoint conviction_loop (fuel : nat) d (visited : gmap V bool) (queue : list V)
    (sum : Z) : res GraphError.Error Z :=
  match fuel with
  | O => OutOfFuel
  | S fuel' =>
      match queue with
      | [] => Ok sum
      | elt :: queue' =>
          chit ← get_chit d elt;
          match checked_add 8 sum chit with
          | None => Err GraphError.ChitOverflow
          | Some n =>
              adj ← unwrap (dag_inv d !! elt);
              let '(visited', queue'') := visit_edges push_back adj visited queue' in
              conviction_loop fuel' d visited' queue'' n
          end
      end
  end.

(** A vertex enters the queue once: one round per vertex, and the round that
    finds the queue empty. *)
Definition dag_fuel d : nat := S (size (dag_g d)).
Definition inv_fuel d : nat := S (size (dag_inv d)).

Definition conviction d vx : res GraphError.Error Z :=
  conviction_loop (inv_fuel d) d {[ vx := true ]} [vx] 0.

Fixpoint bfs_loop (fuel : nat) d (visited : gmap V bool) (queue result : list V) :
    res GraphError.Error (list V) :=
  match fuel with
  | O => OutOfFuel
  | S fuel' =>
      match queue with
      | [] => Ok result
      | elt :: queue' =>
          let result' := result ++ [elt] in
          adj ← unwrap (dag_g d !! elt);
          let '(visited', queue'') := visit_edges push_back adj visited queue' in
          bfs_loop fuel' d visited' queue'' result'
      end
  end.

Definition bfs d vx : res GraphError.Error (list V) :=
  bfs_loop (dag_fuel d) d {[ vx := true ]} [vx] [].

(** The iterator [DFS]. *)
Record DFS : Type := mkDFS { dfs_stack : list V; dfs_visited : gmap V bool }.

Definition dfs_new vx : DFS := mkDFS [vx] ∅.

Definition dfs_next d (it : DFS) : option V * DFS :=
  match dfs_stack it with
  | [] => (None, it)
  | next :: stack =>
      let visited :=
        match dfs_visited it !! next with
        | Some _ => dfs_visited it
        | None => <[next := true]> (dfs_visited it)
        end in
      match dag_g d !! next with
      | Some adj =>
          let '(visited', stack') := visit_edges push_top adj visited stack in
          (Some next, mkDFS stack' visited')
      | None => (None, mkDFS stack visited)
      end
  end.

(** [iter.collect()]: call [next] until it returns [None]. *)
Fixpoint dfs_collect (fuel : nat) d (it : DFS) (result : list V) :
    res GraphError.Error (list V) :=
  match fuel with
  | O => OutOfFuel
  | S fuel' =>
      match dfs_next d it with
      | (None, _) => Ok result
      | (Some x, it') => dfs_collect fuel' d it' (result ++ [x])
      end
  end.

Definition dfs d vx : res GraphError.Error (list V) :=
  dfs_collect (dag_fuel d) d (dfs_new vx) [].

(** ** Leaves, inversion, topological order *)

Definition invert d : DAG := mkDAG (dag_inv d) (dag_g d) (dag_chits d).

Context `{IterOrder}.

Definition leaves d : list V :=
  (filter (λ e : V * list V, length e.2 = 0) (iter_map (dag_inv d))).*1.

(** The inner loop of Kahn's algorithm: drop the edge back to [vx] and enqueue
    the vertices that have none left. *)
Fixpoint topo_edges vx (edges : list V) (inv : gmap V (list V)) (queue : list V) :
    res GraphError.Error (gmap V (list V) * list V) :=
  match edges with
  | [] => Ok (inv, queue)
  | edge :: edges' =>
      l ← unwrap (inv !! edge);
      let l' := retain_ne vx l in
      let inv' := <[edge := l']> inv in
      topo_edges vx edges' inv' (if decide (l' = []) then queue ++ [edge] else queue)
  end.

Fixpoint topo_loop (fuel : nat) (dg : gmap V (list V)) (dinv : gmap V (list V))
    (queue result : list V) : res GraphError.Error (list V) :=
  match fuel with
  | O => OutOfFuel
  | S fuel' =>
      match queue with
      | [] => Ok result
      | vx :: queue' =>
          let result' := result ++ [vx] in
          edges ← unwrap (dg !! vx);
          p ← topo_edges vx edges dinv queue';
          topo_loop fuel' dg p.1 p.2 result'
      end
  end.

Definition topological_sort d : res GraphError.Error (list V) :=
  let dag := invert d in
  topo_loop (dag_fuel d) (dag_g dag) (dag_inv dag) (leaves dag) [].

Definition get_ancestors d v : res GraphError.Error (list V) :=
  sorted ← topological_sort d;
  l ← dfs d v;
  let ancestors : gset V := list_to_set l ∖ {[ v ]} in
  Ok (filter (λ e, e ∈ ancestors) sorted).
End dag.
