(* ===== verification/DagFacts.v ===== *)
(** * DagFacts.v: theorems on the DAG of sleet (src/src/graph/dag.rs)

    The well-formedness invariant of a [DAG] and its preservation; the
    traversals visit exactly the reachable vertices, once each, and terminate;
    the conviction is the sum of the chits of the progeny; the topological sort
    is a permutation of the vertices with ancestors first. *)

From stdpp Require Import prelude gmap sets fin_sets list relations sorting.
From Stdlib Require Import ZArith Lia.
From S2P Require Import Prelude Orders Cell Dag.

(** ** Adjacency maps *)
Section adjacency.
Context `{Countable V}.
Implicit Types (m : gmap V (list V)) (u v x : V).

(** The edges of a vertex: [u] is listed by [v] in [m]. *)
Definition adj_rel m v u : Prop := ∃ l, m !! v = Some l ∧ u ∈ l.

(** Every listed vertex has an entry. *)
Definition adj_closed m : Prop := ∀ v u, adj_rel m v u → is_Some (m !! u).

Definition edges_of m v : list V := default [] (m !! v).

Lemma adj_rel_edges m v u : adj_rel m v u ↔ u ∈ edges_of m v.
Proof.
  unfold adj_rel, edges_of. destruct (m !! v) as [l|] eqn:Hv; cbn.
  - split; [by intros (? & [= ->] & ?)|eauto].
  - split; [by intros (? & ? & _)|set_solver].
Qed.

Lemma rtc_adj_closed m v u :
  adj_closed m → is_Some (m !! v) → rtc (adj_rel m) v u → is_Some (m !! u).
Proof. intros Hc Hv. induction 1; eauto. Qed.

(** ** The work list *)

Lemma visit_edges_spec push adj (visited : gmap V bool) work visited' work' :
  (∀ x q, push x q ≡ₚ x :: q) →
  visit_edges push adj visited work = (visited', work') →
  ∃ new, work' ≡ₚ new ++ work ∧ NoDup new ∧
    (∀ v, v ∈ new ↔ v ∈ adj ∧ visited !! v = None) ∧
    (∀ v, is_Some (visited' !! v) ↔ is_Some (visited !! v) ∨ v ∈ adj).
Proof.
  intros Hpush. revert visited work.
  induction adj as [|e adj IH]; intros visited work Hv; cbn in Hv.
  - simplify_eq. exists []. split_and!; [done|constructor|set_solver|set_solver].
  - destruct (visited !! e) as [b|] eqn:He.
    + destruct (IH _ _ Hv) as (new & Hw & Hnd & Hnew & Hvis).
      exists new. split_and!; [done|done| |].
      * intros v. rewrite Hnew, elem_of_cons. split; [naive_solver|].
        intros [[->|?] ?]; [congruence|done].
      * intros v. rewrite Hvis, elem_of_cons.
        split; [naive_solver|]. intros [?|[->|?]]; eauto.
    + destruct (IH _ _ Hv) as (new & Hw & Hnd & Hnew & Hvis).
      exists (e :: new). split_and!.
      * rewrite Hw, Hpush. cbn. by rewrite Permutation_middle.
      * constructor; [|done]. rewrite Hnew, lookup_insert_eq. naive_solver.
      * intros v. rewrite !elem_of_cons, Hnew.
        destruct (decide (v = e)) as [->|Hne]; [naive_solver|].
        rewrite lookup_insert_ne by done. naive_solver.
      * intros v. rewrite Hvis, elem_of_cons.
        destruct (decide (v = e)) as [->|Hne].
        { rewrite lookup_insert_eq. naive_solver. }
        rewrite lookup_insert_ne by done. naive_solver.
Qed.

(** What every traversal maintains: [dn] are the vertices already expanded,
    [work] those waiting. *)
Record trav_inv m vx (visited : gmap V bool) (work dn : list V) : Prop := {
  trav_nodup : NoDup (dn ++ work);
  trav_visited : ∀ v, is_Some (visited !! v) ↔ v ∈ dn ++ work;
  trav_expanded : ∀ v u, v ∈ dn → adj_rel m v u → u ∈ dn ++ work;
  trav_reach : ∀ v, v ∈ dn ++ work → rtc (adj_rel m) vx v;
  trav_start : vx ∈ dn ++ work
}.

Lemma trav_inv_init m vx : trav_inv m vx {[ vx := true ]} [vx] [].
Proof.
  split; cbn.
  - apply NoDup_singleton.
  - intros v. rewrite list_elem_of_singleton, lookup_singleton_is_Some. done.
  - set_solver.
  - intros v ->%list_elem_of_singleton. done.
  - set_solver.
Qed.

Lemma trav_inv_step push m vx visited x work dn adj visited' work' :
  (∀ x q, push x q ≡ₚ x :: q) →
  trav_inv m vx visited (x :: work) dn →
  m !! x = Some adj →
  visit_edges push adj visited work = (visited', work') →
  trav_inv m vx visited' work' (dn ++ [x]).
Proof.
  intros Hpush [Hnd Hvis Hexp Hreach Hstart] Hx Hv.
  destruct (visit_edges_spec _ _ _ _ _ _ Hpush Hv) as (new & Hw & Hndn & Hnew & Hvis').
  assert (∀ v, v ∈ new → v ∉ dn ++ x :: work) as Hfresh.
  { intros v Hin Hold. apply Hvis in Hold as [b Hb]. apply Hnew in Hin as [_ Hn].
    congruence. }
  assert ((dn ++ [x]) ++ work' ≡ₚ new ++ (dn ++ x :: work)) as Hperm.
  { rewrite Hw. solve_Permutation. }
  split.
  - rewrite Hperm. apply NoDup_app. auto.
  - intros v. rewrite Hvis', Hperm, elem_of_app, Hvis, Hnew.
    split; [|naive_solver]. intros [?|?]; [by right|].
    destruct (visited !! v) eqn:Hvv; [right; apply Hvis; eauto|by left].
  - intros v u. rewrite Hperm. rewrite elem_of_app. intros [Hin|Hin] Hadj.
    + apply elem_of_app. right. eauto.
    + apply list_elem_of_singleton in Hin as ->. destruct Hadj as (l & Hl & Hu).
      simplify_eq. apply elem_of_app. rewrite Hnew.
      destruct (visited !! u) eqn:Hvv; [right; apply Hvis; eauto|by left].
  - intros v. rewrite Hperm. intros [Hin|Hin]%elem_of_app; [|by apply Hreach].
    apply Hnew in Hin as [Hin _]. eapply rtc_r; [apply (Hreach x); set_solver|].
    exists adj. done.
  - rewrite Hperm. set_solver.
Qed.

Lemma trav_inv_done m vx visited dn v :
  trav_inv m vx visited [] dn → v ∈ dn ↔ rtc (adj_rel m) vx v.
Proof.
  intros [Hnd Hvis Hexp Hreach Hstart]. rewrite app_nil_r in *.
  split; [apply Hreach|]. revert v. apply rtc_ind_r; [done|].
  intros y z _ Hyz Hy. by eapply Hexp.
Qed.

Lemma trav_inv_length m vx visited work dn :
  adj_closed m → is_Some (m !! vx) → trav_inv m vx visited work dn →
  length (dn ++ work) ≤ size m.
Proof.
  intros Hc Hvx [Hnd Hvis Hexp Hreach Hstart].
  rewrite <- size_dom, <- (size_list_to_set (C:=gset V) (dn ++ work)) by done.
  apply subseteq_size. intros v Hv%elem_of_list_to_set.
  apply elem_of_dom. eapply rtc_adj_closed; eauto.
Qed.

(** The vertex expanded next has an entry. *)
Lemma trav_inv_head m vx visited x work dn :
  adj_closed m → is_Some (m !! vx) → trav_inv m vx visited (x :: work) dn →
  is_Some (m !! x).
Proof.
  intros Hc Hvx [Hnd Hvis Hexp Hreach Hstart].
  eapply rtc_adj_closed; eauto. apply Hreach. set_solver.
Qed.
End adjacency.

(** ** Well-formed DAGs *)
Section dag_wf.
Context `{Countable V}.
Implicit Types (d : DAG V) (u v vx : V).

(** [parent_of d v u]: [u] is a parent of [v].  [child_of d u v]: [v] is listed
    as a child of [u]. *)
Definition parent_of d : relation V := adj_rel (dag_g d).
Definition child_of d : relation V := adj_rel (dag_inv d).

(** The two maps have the same vertices and mirror each other, every vertex has
    a chit of 0 or 1, and some rank decreases along the edges. *)
Record dag_wf d : Prop := {
  wf_dom : dom (dag_g d) = dom (dag_inv d);
  wf_mirror : ∀ v u, parent_of d v u ↔ child_of d u v;
  wf_chits : ∀ v, v ∈ dom (dag_g d) →
    dag_chits d !! v = Some 0%Z ∨ dag_chits d !! v = Some 1%Z;
  wf_acyclic : ∃ rank : V → nat, ∀ v u, parent_of d v u → rank u < rank v
}.

(** No vertex is listed twice among the parents or the children of another:
    what sleet guarantees by checking the parents it selects. *)
Record dag_simple d : Prop := {
  simple_g : ∀ v, NoDup (edges_of (dag_g d) v);
  simple_inv : ∀ v, NoDup (edges_of (dag_inv d) v)
}.

Lemma wf_closed_g d : dag_wf d → adj_closed (dag_g d).
Proof.
  intros Hwf v u Huv. apply (wf_mirror d Hwf) in Huv as (l & Hl & _).
  apply elem_of_dom. rewrite (wf_dom d Hwf). by eapply elem_of_dom_2.
Qed.

Lemma wf_closed_inv d : dag_wf d → adj_closed (dag_inv d).
Proof.
  intros Hwf v u Huv. apply (wf_mirror d Hwf) in Huv as (l & Hl & _).
  apply elem_of_dom. rewrite <- (wf_dom d Hwf). by eapply elem_of_dom_2.
Qed.

Lemma wf_inv_size d : dag_wf d → size (dag_inv d) = size (dag_g d).
Proof. intros Hwf. by rewrite <- !size_dom, (wf_dom d Hwf). Qed.

Lemma push_back_perm (x : V) q : push_back x q ≡ₚ x :: q.
Proof. unfold push_back. by rewrite Permutation_app_comm. Qed.

Lemma push_top_perm (x : V) q : push_top x q ≡ₚ x :: q.
Proof. done. Qed.

(** *** Breadth-first search *)

Lemma bfs_loop_spec fuel d vx visited work dn :
  adj_closed (dag_g d) → is_Some (dag_g d !! vx) →
  trav_inv (dag_g d) vx visited work dn →
  S (size (dag_g d)) ≤ fuel + length dn →
  ∃ l, bfs_loop fuel d visited work dn = Ok l ∧ NoDup l ∧ dn `prefix_of` l ∧
    ∀ v, v ∈ l ↔ rtc (parent_of d) vx v.
Proof.
  intros Hc Hvx. revert visited work dn.
  induction fuel as [|fuel IH]; intros visited work dn Hinv Hfuel; destruct work as [|x work].
  - apply trav_inv_length in Hinv; [|done..]. rewrite length_app in Hinv. lia.
  - apply trav_inv_length in Hinv; [|done..]. rewrite length_app in Hinv. lia.
  - exists dn. pose proof (trav_nodup _ _ _ _ _ Hinv) as Hnd. rewrite app_nil_r in Hnd.
    split_and!; [done..|]. intros v. by eapply trav_inv_done.
  - cbn. destruct (trav_inv_head _ _ _ _ _ _ Hc Hvx Hinv) as [adj Hx].
    rewrite Hx. cbn. destruct (visit_edges _ _ _ _) as [visited' work'] eqn:Hv.
    destruct (IH visited' work' (dn ++ [x])) as (l & Hl & Hnd & Hpre & Hr).
    + by eapply (trav_inv_step push_back); [apply push_back_perm|..].
    + rewrite length_app. cbn. lia.
    + exists l. split_and!; [done|done| |done].
      etrans; [|done]. by apply prefix_app_r.
Qed.

Lemma bfs_reachable d vx :
  dag_wf d → vx ∈ dom (dag_g d) →
  ∃ l, bfs d vx = Ok l ∧ NoDup l ∧ head l = Some vx ∧
    ∀ v, v ∈ l ↔ rtc (parent_of d) vx v.
Proof.
  intros Hwf Hvx%elem_of_dom. pose proof (wf_closed_g d Hwf) as Hc.
  destruct Hvx as [adj Hx]. unfold bfs, dag_fuel. cbn [bfs_loop]. rewrite Hx. cbn.
  destruct (visit_edges _ _ _ _) as [visited' work'] eqn:Hv.
  destruct (bfs_loop_spec (size (dag_g d)) d vx visited' work' [vx])
    as (l & Hl & Hnd & [k ->] & Hr); eauto.
  - eapply (trav_inv_step push_back _ _ _ _ _ []);
      [apply push_back_perm|apply trav_inv_init|done|done].
  - cbn. lia.
Qed.

(** *** Depth-first search *)

(** [DFS::next] marks the vertex it pops. *)
Definition dfs_mark (it : DFS) : gmap V bool :=
  match dfs_stack it with
  | [] => dfs_visited it
  | next :: _ =>
      match dfs_visited it !! next with
      | Some _ => dfs_visited it
      | None => <[next := true]> (dfs_visited it)
      end
  end.

Lemma dfs_mark_id m vx visited work dn :
  trav_inv m vx visited work dn → dfs_mark (mkDFS work visited) = visited.
Proof.
  intros Hinv. destruct work as [|y work]; cbn; [done|].
  destruct (visited !! y) eqn:Hy; [done|].
  destruct (proj2 (trav_visited _ _ _ _ _ Hinv y)); [set_solver|congruence].
Qed.

Lemma dfs_collect_spec fuel d vx it dn :
  adj_closed (dag_g d) → is_Some (dag_g d !! vx) →
  trav_inv (dag_g d) vx (dfs_mark it) (dfs_stack it) dn →
  S (size (dag_g d)) ≤ fuel + length dn →
  ∃ l, dfs_collect fuel d it dn = Ok l ∧ NoDup l ∧ dn `prefix_of` l ∧
    ∀ v, v ∈ l ↔ rtc (parent_of d) vx v.
Proof.
  intros Hc Hvx. revert it dn.
  induction fuel as [|fuel IH]; intros [[|x work] visited] dn Hinv Hfuel; cbn in Hinv.
  - apply trav_inv_length in Hinv; [|done..]. rewrite length_app in Hinv. lia.
  - apply trav_inv_length in Hinv; [|done..]. rewrite length_app in Hinv. lia.
  - exists dn. pose proof (trav_nodup _ _ _ _ _ Hinv) as Hnd. rewrite app_nil_r in Hnd.
    split_and!; [done..|]. intros v. by eapply trav_inv_done.
  - destruct (trav_inv_head _ _ _ _ _ _ Hc Hvx Hinv) as [adj Hx].
    cbn. rewrite Hx. destruct (visit_edges _ _ _ _) as [visited' work'] eqn:Hv.
    eapply (trav_inv_step push_top) in Hinv; [|apply push_top_perm|done|done].
    destruct (IH (mkDFS work' visited') (dn ++ [x])) as (l & Hl & Hnd & Hpre & Hr).
    + by rewrite (dfs_mark_id _ _ _ _ _ Hinv).
    + rewrite length_app. cbn. lia.
    + exists l. split_and!; [done|done| |done].
      etrans; [|done]. by apply prefix_app_r.
Qed.

Lemma dfs_reachable d vx :
  dag_wf d → vx ∈ dom (dag_g d) →
  ∃ l, dfs d vx = Ok l ∧ NoDup l ∧ head l = Some vx ∧
    ∀ v, v ∈ l ↔ rtc (parent_of d) vx v.
Proof.
  intros Hwf Hvx%elem_of_dom. pose proof (wf_closed_g d Hwf) as Hc.
  destruct Hvx as [adj Hx]. unfold dfs, dag_fuel. cbn [dfs_collect]. cbn.
  rewrite Hx. destruct (visit_edges _ _ _ _) as [visited' work'] eqn:Hv.
  eapply (trav_inv_step push_top _ _ _ _ _ []) in Hv as Hinv;
    [|apply push_top_perm|apply trav_inv_init|done].
  destruct (dfs_collect_spec (size (dag_g d)) d vx (mkDFS work' visited') [vx])
    as (l & Hl & Hnd & [k ->] & Hr); eauto.
  - by rewrite (dfs_mark_id _ _ _ _ _ Hinv).
  - cbn. lia.
Qed.
End dag_wf.

(** ** Conviction *)
Section conviction.
Context `{Countable V}.
Implicit Types (d : DAG V) (u v vx : V).

Definition chit_of d v : Z := default 0%Z (dag_chits d !! v).

Lemma wf_get_chit d v :
  dag_wf d → v ∈ dom (dag_g d) → get_chit d v = Ok (chit_of d v) ∧ (0 ≤ chit_of d v ≤ 1)%Z.
Proof.
  intros Hwf Hv. unfold get_chit, chit_of.
  by destruct (wf_chits d Hwf v Hv) as [->| ->].
Qed.

Lemma zsum_chits_nonneg d l :
  dag_wf d → (∀ v, v ∈ l → v ∈ dom (dag_g d)) → (0 ≤ zsum (chit_of d <$> l))%Z.
Proof.
  intros Hwf Hl. apply zsum_nonneg. apply Forall_fmap, Forall_forall.
  intros v Hv. cbn. pose proof (wf_get_chit d v Hwf (Hl v Hv)). lia.
Qed.

(** The saturating specification: the sum, or the overflow of a [u8]. *)
Definition chit_total (z : Z) : res GraphError.Error Z :=
  if decide (z ≤ 255)%Z then Ok z else Err GraphError.ChitOverflow.

Lemma conviction_loop_spec fuel d vx visited work dn l :
  dag_wf d → is_Some (dag_inv d !! vx) →
  NoDup l → (∀ v, v ∈ l ↔ rtc (child_of d) vx v) →
  trav_inv (dag_inv d) vx visited work dn →
  S (size (dag_inv d)) ≤ fuel + length dn →
  (zsum (chit_of d <$> dn) ≤ 255)%Z →
  conviction_loop fuel d visited work (zsum (chit_of d <$> dn)) =
    chit_total (zsum (chit_of d <$> l)).
Proof.
  intros Hwf Hvx Hndl Hl. pose proof (wf_closed_inv d Hwf) as Hc.
  assert (∀ v, v ∈ l → v ∈ dom (dag_g d)) as Hldom.
  { intros v Hv%Hl. rewrite (wf_dom d Hwf). apply elem_of_dom. by eapply rtc_adj_closed. }
  revert visited work dn.
  induction fuel as [|fuel IH]; intros visited work dn Hinv Hfuel Hsum;
    [apply trav_inv_length in Hinv; [|done..]; rewrite length_app in Hinv; lia|].
  assert (∃ k, l ≡ₚ (dn ++ work) ++ k) as [k Hk].
  { apply submseteq_Permutation, NoDup_submseteq; [apply Hinv|].
    intros v Hv. by apply Hl, (trav_reach _ _ _ _ _ Hinv). }
  assert (∀ l1 l2, l ≡ₚ l1 ++ l2 →
    (0 ≤ zsum (chit_of d <$> l1) ∧ 0 ≤ zsum (chit_of d <$> l2) ∧
     zsum (chit_of d <$> l) = zsum (chit_of d <$> l1) + zsum (chit_of d <$> l2))%Z) as Hsplit.
  { intros l1 l2 Hp. rewrite Hp, fmap_app, zsum_app.
    split_and!; [apply zsum_chits_nonneg..|done]; try done;
      intros v Hv; apply Hldom; rewrite Hp; set_solver. }
  destruct work as [|x work]; cbn [conviction_loop].
  - assert (l ≡ₚ dn) as Hld; [|rewrite Hld; unfold chit_total; by rewrite decide_True].
    apply NoDup_Permutation; [done|destruct Hinv; by rewrite app_nil_r in *|].
    intros v. rewrite Hl. symmetry. by eapply trav_inv_done.
  - destruct (trav_inv_head _ _ _ _ _ _ Hc Hvx Hinv) as [adj Hx].
    assert (x ∈ dom (dag_g d)) as Hxd.
    { rewrite (wf_dom d Hwf). by eapply elem_of_dom_2. }
    destruct (wf_get_chit d x Hwf Hxd) as [-> Hcx]. cbn [mbind res_bind].
    assert (zsum (chit_of d <$> dn) + chit_of d x = zsum (chit_of d <$> dn ++ [x]))%Z as Hz.
    { rewrite fmap_app, zsum_app. cbn. lia. }
    destruct (Hsplit (dn ++ [x]) (work ++ k)) as (? & ? & Heq).
    { rewrite Hk. solve_Permutation. }
    unfold checked_add. rewrite Hz. destruct (decide (in_range 8 _)) as [Hr|Hr].
    + rewrite Hx. cbn [unwrap mbind res_bind].
      destruct (visit_edges _ _ _ _) as [visited' work'] eqn:Hv.
      apply IH.
      * by eapply (trav_inv_step push_back); [apply push_back_perm|..].
      * rewrite length_app. cbn. lia.
      * unfold in_range in Hr. lia.
    + unfold in_range in Hr. unfold chit_total. rewrite decide_False; [done|]. lia.
Qed.

Lemma progeny_enum d vx :
  dag_wf d → vx ∈ dom (dag_g d) →
  ∃ l, NoDup l ∧ ∀ v, v ∈ l ↔ rtc (child_of d) vx v.
Proof.
  intros Hwf Hvx. rewrite (wf_dom d Hwf) in Hvx.
  destruct (bfs_loop_spec (S (size (dag_inv d))) (invert d) vx {[vx := true]} [vx] [])
    as (l & _ & Hnd & _ & Hl).
  - by apply wf_closed_inv.
  - by apply elem_of_dom.
  - apply trav_inv_init.
  - cbn. lia.
  - eauto.
Qed.

Lemma conviction_total d vx l :
  dag_wf d → vx ∈ dom (dag_g d) →
  NoDup l → (∀ v, v ∈ l ↔ rtc (child_of d) vx v) →
  conviction d vx = chit_total (zsum (chit_of d <$> l)).
Proof.
  intros Hwf Hvx Hnd Hl.
  assert (is_Some (dag_inv d !! vx)) as Hi.
  { apply elem_of_dom. by rewrite <- (wf_dom d Hwf). }
  pose proof (conviction_loop_spec (inv_fuel d) d vx {[vx := true]} [vx] [] l) as Hs.
  apply Hs; auto.
  - apply trav_inv_init.
  - unfold inv_fuel. lia.
  - cbn. lia.
Qed.
End conviction.

(** ** Insertion and removal *)
Section dag_update.
Context `{Countable V}.
Implicit Types (d : DAG V) (u v vx : V).

(** How often a vertex occurs in a list of edges. *)
Definition occ v (l : list V) : nat := length (filter (λ e, e = v) l).

Lemma occ_cons v x l : occ v (x :: l) = (if decide (x = v) then 1 else 0) + occ v l.
Proof. unfold occ. rewrite filter_cons. by destruct (decide (x = v)). Qed.

Lemma occ_pos v l : v ∈ l ↔ 0 < occ v l.
Proof.
  induction l as [|x l IH]; [cbn; set_solver by lia|].
  rewrite occ_cons, elem_of_cons, IH. destruct (decide (x = v)); naive_solver lia.
Qed.

Lemma occ_NoDup v l : NoDup l → occ v l ≤ 1.
Proof.
  induction 1 as [|x l Hx Hnd IH]; [cbn; lia|]. rewrite occ_cons.
  destruct (decide (x = v)) as [->|]; [|lia].
  rewrite occ_pos in Hx. lia.
Qed.

(** A loop that rewrites one entry of an adjacency map per element. *)
Lemma foreach_update {S E} (get : S → gmap V (list V)) (put : gmap V (list V) → S → S)
    (e : E) (f : list V → list V) (cs : list V) (s : S) :
  (∀ m t, get (put m t) = m) → (∀ m m' t, put m (put m' t) = put m t) →
  (∀ t, put (get t) t = t) → (∀ c, c ∈ cs → is_Some (get s !! c)) →
  ∃ m', foreach cs (λ k t,
      match get t !! k with
      | Some o => (put (<[k := f o]> (get t)) t, Ok tt)
      | None => (t, Err e)
      end) s = (put m' s, Ok tt) ∧
    dom m' = dom (get s) ∧
    ∀ v, edges_of m' v = Nat.iter (occ v cs) f (edges_of (get s) v).
Proof.
  intros Hgp Hpp Hpg. revert s. induction cs as [|c cs IH]; intros s Hcs.
  - exists (get s). rewrite Hpg. done.
  - destruct (Hcs c) as [o Ho]; [set_solver|].
    set (s1 := put (<[c := f o]> (get s)) s).
    destruct (IH s1) as (m' & Hf & Hdom & He).
    { intros c' Hc'. unfold s1. rewrite Hgp, lookup_insert_is_Some'. right. set_solver. }
    exists m'. rewrite foreach_cons, (st_bind_Ok _ _ _ s1 tt) by (unfold s1; by rewrite Ho).
    rewrite Hf. unfold s1 in *. rewrite Hpp, Hgp in *. split_and!; [done| |].
    + rewrite Hdom, dom_insert_L. apply elem_of_dom_2 in Ho. set_solver.
    + intros v. rewrite He, occ_cons. unfold edges_of.
      destruct (decide (c = v)) as [->|Hne].
      * rewrite lookup_insert_eq, Ho. cbn. by rewrite <- Nat.iter_succ_r.
      * by rewrite lookup_insert_ne.
Qed.

Lemma iter_push vx n (l : list V) :
  Nat.iter n (λ o, o ++ [vx]) l = l ++ replicate n vx.
Proof.
  induction n as [|n IH]; [cbn; by rewrite app_nil_r|].
  by rewrite Nat.iter_succ, IH, <- app_assoc, replicate_S_end.
Qed.

(** When [insert_vx] succeeds on a well-formed graph. *)
Definition insertable d vx (edges : list V) : Prop :=
  vx ∉ dom (dag_g d) ∧ (∀ u, u ∈ edges → u ∈ dom (dag_g d)) ∧
  dag_chits d !! vx ≠ Some 1%Z.

Lemma set_chit_Ok d vx c :
  dag_chits d !! vx ≠ Some 1%Z →
  set_chit vx c d = (set_chits (<[vx := c]> (dag_chits d)) d, Ok tt).
Proof.
  unfold set_chit. intros Hne. destruct (dag_chits d !! vx) as [o|]; [|done].
  destruct (Z.eqb_spec o 1); [congruence|done].
Qed.

Lemma insert_vx_spec d vx edges :
  dag_wf d → insertable d vx edges →
  ∃ i', insert_vx vx edges d =
      (mkDAG (<[vx := edges]> (dag_g d)) i' (<[vx := 0%Z]> (dag_chits d)), Ok tt) ∧
    dom i' = {[ vx ]} ∪ dom (dag_inv d) ∧
    ∀ u, edges_of i' u = edges_of (dag_inv d) u ++ replicate (occ u edges) vx.
Proof.
  intros Hwf (Hvx & Hedges & Hchit).
  assert (dag_inv d !! vx = None) as Hi.
  { apply not_elem_of_dom. by rewrite <- (wf_dom d Hwf). }
  set (d1 := set_inv (<[vx := []]> (dag_inv d)) d).
  destruct (foreach_update (E:=GraphError.Error) dag_inv set_inv GraphError.VacantEntry
    (λ o, o ++ [vx]) edges d1) as (i' & Hf & Hdom & He).
  { done. } { done. } { by intros []. }
  { intros c Hc. cbn. rewrite lookup_insert_is_Some'. right.
    apply elem_of_dom. rewrite <- (wf_dom d Hwf). auto. }
  exists i'. split_and!.
  - unfold insert_vx. rewrite modify_bind, Hi. fold d1.
    rewrite (st_bind_Ok _ _ _ _ _ Hf). unfold d1; cbn.
    apply not_elem_of_dom in Hvx. unfold mbind, st_bind. cbn. rewrite Hvx.
    by rewrite set_chit_Ok.
  - rewrite Hdom. cbn. by rewrite dom_insert_L.
  - intros u. rewrite He, iter_push. f_equal. cbn. unfold edges_of.
    destruct (decide (vx = u)) as [<-|]; [by rewrite lookup_insert_eq, Hi|].
    by rewrite lookup_insert_ne.
Qed.

(** A vertex whose old chit is 1 is refused after it was added. *)
Lemma insert_vx_voted d vx edges :
  dag_wf d → vx ∉ dom (dag_g d) → (∀ u, u ∈ edges → u ∈ dom (dag_g d)) →
  dag_chits d !! vx = Some 1%Z →
  ∃ d', insert_vx vx edges d = (d', Err GraphError.ChitReplace) ∧
    dag_g d' = <[vx := edges]> (dag_g d) ∧ dag_chits d' = dag_chits d.
Proof.
  intros Hwf Hvx Hedges Hchit.
  assert (dag_inv d !! vx = None) as Hi by (apply not_elem_of_dom; by rewrite <- (wf_dom d Hwf)).
  destruct (foreach_update (E:=GraphError.Error) dag_inv set_inv GraphError.VacantEntry
    (λ o, o ++ [vx]) edges (set_inv (<[vx := []]> (dag_inv d)) d)) as (i' & Hf & _).
  { done. } { done. } { by intros []. }
  { intros c Hc. cbn. rewrite lookup_insert_is_Some'. right.
    apply elem_of_dom. rewrite <- (wf_dom d Hwf). auto. }
  unfold insert_vx. rewrite modify_bind, Hi. rewrite (st_bind_Ok _ _ _ _ _ Hf).
  apply not_elem_of_dom in Hvx. unfold mbind, st_bind. cbn. rewrite Hvx.
  unfold set_chit. cbn. rewrite Hchit. eauto.
Qed.

Lemma insert_vx_wf d vx edges d' :
  dag_wf d → insertable d vx edges → insert_vx vx edges d = (d', Ok tt) → dag_wf d'.
Proof.
  intros Hwf Hins Hd'. destruct (insert_vx_spec d vx edges Hwf Hins) as (i' & Heq & Hdom & He).
  rewrite Heq in Hd'. simplify_eq. destruct Hins as (Hvx & Hedges & Hchit). split; cbn.
  - by rewrite dom_insert_L, Hdom, (wf_dom d Hwf).
  - intros v u. unfold parent_of, child_of. cbn. rewrite !adj_rel_edges, He, elem_of_app.
    rewrite elem_of_replicate, <- (adj_rel_edges (dag_inv d)).
    change (adj_rel (dag_inv d) u v) with (child_of d u v).
    rewrite <- (wf_mirror d Hwf v u).
    unfold parent_of. rewrite adj_rel_edges.
    unfold edges_of. destruct (decide (vx = v)) as [<-|Hne].
    + rewrite lookup_insert_eq. apply not_elem_of_dom in Hvx. rewrite Hvx. cbn.
      rewrite occ_pos. set_solver by lia.
    + rewrite lookup_insert_ne by done. naive_solver.
  - intros v. rewrite dom_insert_L. destruct (decide (vx = v)) as [<-|Hne].
    + rewrite lookup_insert_eq. auto.
    + rewrite lookup_insert_ne by done. intros ?. apply Hwf. set_solver.
  - destruct (wf_acyclic d Hwf) as [rank Hrank].
    exists (λ v, if decide (v = vx) then S (max_list (rank <$> edges)) else rank v).
    intros v u (l & Hl & Hu). cbn in Hl. destruct (decide (vx = v)) as [<-|Hne].
    + rewrite lookup_insert_eq in Hl. simplify_eq.
      destruct (decide (u = vx)) as [->|_]; [naive_solver|].
      rewrite decide_True by done. apply Nat.lt_succ_r.
      apply max_list_elem_of_le. by apply list_elem_of_fmap_2.
    + rewrite lookup_insert_ne in Hl by done. rewrite (decide_False (P:=v=vx)) by congruence.
      assert (parent_of d v u) as Hp by (by exists l).
      rewrite decide_False; [by apply Hrank|]. intros ->. apply Hvx.
      apply elem_of_dom. by eapply wf_closed_g.
Qed.

Lemma insert_vx_simple d vx edges d' :
  dag_wf d → dag_simple d → insertable d vx edges → NoDup edges →
  insert_vx vx edges d = (d', Ok tt) → dag_simple d'.
Proof.
  intros Hwf Hs Hins Hnd Hd'.
  destruct (insert_vx_spec d vx edges Hwf Hins) as (i' & Heq & Hdom & He).
  rewrite Heq in Hd'. simplify_eq. destruct Hins as (Hvx & Hedges & Hchit).
  split; cbn; intros v.
  - unfold edges_of. destruct (decide (vx = v)) as [<-|Hne].
    + by rewrite lookup_insert_eq.
    + rewrite lookup_insert_ne by done. apply Hs.
  - rewrite He. apply NoDup_app. split_and!.
    + apply Hs.
    + intros x Hx [-> _]%elem_of_replicate. apply adj_rel_edges in Hx.
      apply (wf_mirror d Hwf) in Hx as (l & Hl & _). apply Hvx. by eapply elem_of_dom_2.
    + pose proof (occ_NoDup v edges Hnd). destruct (occ v edges) as [|[|]]; [constructor| |lia].
      apply NoDup_singleton.
Qed.
End dag_update.

Section dag_remove.
Context `{Countable V}.
Implicit Types (d : DAG V) (u v vx : V).

Lemma elem_of_retain_ne vx (l : list V) e : e ∈ retain_ne vx l ↔ e ≠ vx ∧ e ∈ l.
Proof. unfold retain_ne. by rewrite list_elem_of_filter. Qed.

Lemma retain_ne_id vx (l : list V) : vx ∉ l → retain_ne vx l = l.
Proof. intros Hvx. apply filter_all. set_solver. Qed.

Lemma retain_ne_NoDup vx (l : list V) : NoDup l → NoDup (retain_ne vx l).
Proof. apply NoDup_filter. Qed.

Lemma iter_retain n vx (l : list V) :
  (vx ∈ l → 0 < n) → Nat.iter n (retain_ne vx) l = retain_ne vx l.
Proof.
  induction n as [|n IH]; intros Hn.
  - cbn. rewrite retain_ne_id; [done|]. intros Hin%Hn. lia.
  - rewrite Nat.iter_succ. destruct (decide (vx ∈ l)) as [Hin|Hout].
    + destruct n as [|n]; [done|]. rewrite IH by lia. apply retain_ne_id.
      rewrite elem_of_retain_ne. naive_solver.
    + rewrite IH by done. by rewrite (retain_ne_id vx l), retain_ne_id.
Qed.

(** One adjacency map of the graph after [vx] left it. *)
Definition removed vx (m m' : gmap V (list V)) : Prop :=
  dom m' = dom m ∖ {[ vx ]} ∧
  ∀ v, edges_of m' v = if decide (v = vx) then [] else retain_ne vx (edges_of m v).

Lemma removed_delete vx m m1 :
  dom m1 = dom m → (∀ v, edges_of m1 v = retain_ne vx (edges_of m v)) →
  removed vx m (delete vx m1).
Proof.
  intros Hd He. split; [rewrite dom_delete_L; set_solver|].
  intros v. case_decide as Hv.
  - subst. unfold edges_of. by rewrite lookup_delete_eq.
  - rewrite <- He. unfold edges_of. by rewrite lookup_delete_ne.
Qed.

Lemma removed_adj vx m m' v u :
  removed vx m m' → adj_rel m' v u ↔ v ≠ vx ∧ u ≠ vx ∧ adj_rel m v u.
Proof.
  intros [_ He]. rewrite !adj_rel_edges, He. case_decide; [set_solver|].
  rewrite elem_of_retain_ne. naive_solver.
Qed.

Lemma wf_irrefl d v : dag_wf d → ~ parent_of d v v.
Proof. intros Hwf Hv. destruct (wf_acyclic d Hwf) as [rank Hr]. apply Hr in Hv. lia. Qed.

Lemma remove_vx_spec d vx :
  dag_wf d → vx ∈ dom (dag_g d) →
  ∃ g' i', remove_vx vx d =
      (mkDAG g' i' (dag_chits d), Ok (list_to_set (edges_of (dag_inv d) vx))) ∧
    removed vx (dag_g d) g' ∧ removed vx (dag_inv d) i'.
Proof.
  intros Hwf Hvx. pose proof Hvx as Hvi. rewrite (wf_dom d Hwf) in Hvi.
  apply elem_of_dom in Hvi as [cs Hcs]. apply elem_of_dom in Hvx as [ps Hps].
  destruct (foreach_update (E:=GraphError.Error) dag_g set_g GraphError.VacantEntry
    (retain_ne vx) cs d) as (g1 & Hg & Hgd & Hge).
  { done. } { done. } { by intros []. }
  { intros c Hc. apply elem_of_dom. rewrite (wf_dom d Hwf). apply elem_of_dom.
    apply (wf_closed_inv d Hwf vx). by exists cs. }
  assert (∀ v, edges_of g1 v = retain_ne vx (edges_of (dag_g d) v)) as Hg1.
  { intros v. rewrite Hge. apply iter_retain. intros Hin%adj_rel_edges.
    apply (wf_mirror d Hwf) in Hin as (l & Hl & Hv). simplify_eq. by apply occ_pos. }
  assert (g1 !! vx = Some ps) as Hg1vx.
  { specialize (Hg1 vx). unfold edges_of in Hg1. rewrite Hps in Hg1.
    cbn [from_option] in Hg1. unfold id in Hg1. rewrite retain_ne_id in Hg1.
    - destruct (g1 !! vx) eqn:Hx; cbn in Hg1; [congruence|].
      apply not_elem_of_dom in Hx. rewrite Hgd in Hx. by apply elem_of_dom_2 in Hps.
    - intros Hin. apply (wf_irrefl d vx Hwf). by exists ps. }
  destruct (foreach_update (E:=GraphError.Error) dag_inv set_inv GraphError.VacantEntry
    (retain_ne vx) ps (set_g g1 d)) as (i1 & Hi & Hid & Hie).
  { done. } { done. } { by intros []. }
  { intros p Hp. cbn. apply elem_of_dom. rewrite <- (wf_dom d Hwf). apply elem_of_dom.
    apply (wf_closed_g d Hwf vx). by exists ps. }
  exists (delete vx g1), (delete vx i1). split_and!.
  - unfold remove_vx. rewrite (reads_bind_Ok _ _ _ cs) by (by rewrite Hcs).
    rewrite (st_bind_Ok _ _ _ _ _ Hg).
    rewrite (reads_bind_Ok _ _ _ ps) by (cbn; by rewrite Hg1vx).
    rewrite (st_bind_Ok _ _ _ _ _ Hi). rewrite !modify_bind.
    unfold edges_of. by rewrite Hcs.
  - by apply removed_delete.
  - apply removed_delete; [done|]. intros v. rewrite Hie. apply iter_retain.
    intros Hin%adj_rel_edges. apply (wf_mirror d Hwf) in Hin as (l & Hl & Hv).
    simplify_eq. by apply occ_pos.
Qed.

Lemma remove_vx_wf d vx d' cs :
  dag_wf d → vx ∈ dom (dag_g d) → remove_vx vx d = (d', Ok cs) → dag_wf d'.
Proof.
  intros Hwf Hvx Hd'.
  destruct (remove_vx_spec d vx Hwf Hvx) as (g' & i' & Heq & Hg & Hi).
  rewrite Heq in Hd'. simplify_eq. split; unfold parent_of, child_of; cbn.
  - rewrite (proj1 Hg), (proj1 Hi). by rewrite (wf_dom d Hwf).
  - intros v u. rewrite (removed_adj _ _ _ _ _ Hg), (removed_adj _ _ _ _ _ Hi).
    pose proof (wf_mirror d Hwf v u). unfold parent_of, child_of in *. naive_solver.
  - intros v. rewrite (proj1 Hg). intros Hv. apply Hwf. set_solver.
  - destruct (wf_acyclic d Hwf) as [rank Hr]. exists rank. intros v u.
    rewrite (removed_adj _ _ _ _ _ Hg). intros (_ & _ & Hp). by apply Hr.
Qed.

Lemma remove_vx_simple d vx d' cs :
  dag_wf d → dag_simple d → vx ∈ dom (dag_g d) →
  remove_vx vx d = (d', Ok cs) → dag_simple d'.
Proof.
  intros Hwf Hs Hvx Hd'.
  destruct (remove_vx_spec d vx Hwf Hvx) as (g' & i' & Heq & [_ Hg] & [_ Hi]).
  rewrite Heq in Hd'. simplify_eq.
  split; cbn; intros v; rewrite ?Hg, ?Hi; case_decide;
    first [constructor|apply retain_ne_NoDup; apply Hs].
Qed.
End dag_remove.

(** ** Topological order *)
Section topological.
Context `{Countable V, IterOrder}.
Implicit Types (d : DAG V) (u v vx : V).

Lemma topo_edges_spec vx es inv queue :
  NoDup es → (∀ e, e ∈ es → is_Some (inv !! e)) →
  ∃ inv', topo_edges vx es inv queue =
      Ok (inv', queue ++ filter (λ e, retain_ne vx (edges_of inv e) = []) es) ∧
    dom inv' = dom inv ∧
    ∀ v, edges_of inv' v =
      if decide (v ∈ es) then retain_ne vx (edges_of inv v) else edges_of inv v.
Proof.
  intros Hnd. revert inv queue.
  induction Hnd as [|e es He Hnd IH]; intros inv queue Hes.
  - exists inv. cbn. rewrite app_nil_r. split_and!; [done..|].
    intros v. by rewrite decide_False by set_solver.
  - destruct (Hes e) as [l Hl]; [set_solver|]. cbn [topo_edges].
    rewrite Hl. cbn [unwrap mbind res_bind].
    assert (edges_of inv e = l) as Hel by (unfold edges_of; by rewrite Hl).
    edestruct (IH (<[e := retain_ne vx l]> inv)) as (inv' & Heq & Hd & Hi).
    { intros e' He'. rewrite lookup_insert_is_Some'. right. set_solver. }
    exists inv'. rewrite Heq. split_and!.
    + do 2 f_equal. rewrite filter_cons, Hel.
      assert (filter (λ e0, retain_ne vx (edges_of (<[e:=retain_ne vx l]> inv) e0) = []) es
        = filter (λ e0, retain_ne vx (edges_of inv e0) = []) es) as ->.
      { apply filter_ext_in. intros e' He'. unfold edges_of.
        rewrite lookup_insert_ne; [done|]. set_solver. }
      case_decide; [|done]. by rewrite <- app_assoc.
    + rewrite Hd, dom_insert_L. apply elem_of_dom_2 in Hl. set_solver.
    + intros v. rewrite Hi. destruct (decide (v = e)) as [->|Hne].
      * rewrite decide_False by done. rewrite decide_True by set_solver.
        unfold edges_of. by rewrite lookup_insert_eq, Hl.
      * unfold edges_of. rewrite lookup_insert_ne by done.
        by rewrite (decide_ext _ (v ∈ e :: es)) by set_solver.
Qed.

(** Kahn's invariant: the parents still listed for a vertex are those not yet
    in the result; the result and the queue hold the vertices with none left,
    once each; in the result, parents come first. *)
Record topo_inv d (dinv : gmap V (list V)) (queue result : list V) : Prop := {
  topo_dom : dom dinv = dom (dag_g d);
  topo_left : ∀ v, edges_of dinv v = filter (λ u, u ∉ result) (edges_of (dag_g d) v);
  topo_nodup : NoDup (result ++ queue);
  topo_ready : ∀ v, v ∈ result ++ queue ↔ v ∈ dom (dag_g d) ∧ edges_of dinv v = [];
  topo_order : ∀ j v u, result !! j = Some v → parent_of d v u →
    ∃ i, i < j ∧ result !! i = Some u
}.

Lemma elem_of_leaves d v : v ∈ leaves d ↔ dag_inv d !! v = Some [].
Proof.
  unfold leaves. rewrite list_elem_of_fmap. split.
  - intros ([k l] & -> & [Hlen Hin]%list_elem_of_filter). cbn in *.
    apply elem_of_iter_map in Hin. by destruct l.
  - intros Hv. exists (v, []). split; [done|]. apply list_elem_of_filter.
    split; [done|]. by apply elem_of_iter_map.
Qed.

Lemma NoDup_leaves d : NoDup (leaves d).
Proof.
  unfold leaves. eapply sublist_NoDup; [apply (NoDup_iter_map_fst (dag_inv d))|].
  apply fmap_sublist, sublist_filter.
Qed.

Lemma topo_inv_init d :
  topo_inv d (dag_inv (invert d)) (leaves (invert d)) [].
Proof.
  split; cbn; [done| |apply NoDup_leaves| |done].
  - intros v. symmetry. apply filter_all. set_solver.
  - intros v. rewrite elem_of_leaves. cbn. rewrite elem_of_dom. unfold edges_of.
    split; [by intros ->|]. intros [[l Hl] He]. rewrite Hl in *. by cbn in He; subst.
Qed.

(** A vertex that is queued has only parents that were sorted. *)
Lemma topo_queued_parents d dinv queue result v u :
  topo_inv d dinv queue result → v ∈ result ++ queue → parent_of d v u → u ∈ result.
Proof.
  intros [_ Hleft _ Hready _] Hv Hp. apply Hready in Hv as [_ Hnil]. rewrite Hleft in Hnil.
  destruct (decide (u ∈ result)) as [|Hn]; [done|].
  apply filter_none with (x:=u) in Hnil; [done|]. by apply adj_rel_edges.
Qed.

Lemma topo_inv_step d dinv vx queue result es dinv' queue' :
  dag_wf d → dag_simple d → topo_inv d dinv (vx :: queue) result →
  dag_inv d !! vx = Some es → topo_edges vx es dinv queue = Ok (dinv', queue') →
  topo_inv d dinv' queue' (result ++ [vx]).
Proof.
  intros Hwf Hs Hinv Hes Hte. pose proof Hinv as [Hdom Hleft Hnd Hready Hord].
  assert (edges_of (dag_inv d) vx = es) as Hes' by (unfold edges_of; by rewrite Hes).
  assert (NoDup es) as Hnde by (rewrite <- Hes'; apply Hs).
  assert (∀ e, e ∈ es ↔ vx ∈ edges_of (dag_g d) e) as Hchild.
  { intros e. rewrite <- Hes', <- !adj_rel_edges. symmetry. apply (wf_mirror d Hwf). }
  destruct (topo_edges_spec vx es dinv queue Hnde) as (dinv1 & Heq & Hd1 & He1).
  { intros e He. apply elem_of_dom. rewrite Hdom, (wf_dom d Hwf). apply elem_of_dom.
    apply (wf_closed_inv d Hwf vx). by exists es. }
  rewrite Heq in Hte. injection Hte as -> <-.
  assert (∀ v, edges_of dinv' v =
    filter (λ u, u ∉ result ++ [vx]) (edges_of (dag_g d) v)) as Hleft'.
  { intros v. rewrite He1, Hleft. case_decide as Hv.
    - unfold retain_ne. rewrite list_filter_filter. apply filter_ext_in. set_solver.
    - apply filter_ext_in. intros u Hu. rewrite Hchild in Hv. set_solver. }
  assert (vx ∉ result) as Hvr.
  { apply NoDup_app in Hnd as (_ & Hdisj & _). intros Hin. apply (Hdisj vx Hin). set_solver. }
  assert (∀ e, e ∈ es → e ∉ result ++ vx :: queue) as Hfresh.
  { intros e He Hin. apply Hvr. eapply topo_queued_parents; [exact Hinv|exact Hin|].
    by apply adj_rel_edges, Hchild. }
  split.
  - by rewrite Hd1.
  - done.
  - rewrite <- app_assoc. cbn. rewrite !app_comm_cons, app_assoc. apply NoDup_app. split_and!.
    + done.
    + intros x Hx [_ Hin]%list_elem_of_filter. by apply (Hfresh x).
    + by apply NoDup_filter.
  - intros v. rewrite <- app_assoc. cbn.
    rewrite !app_comm_cons, app_assoc, elem_of_app, Hready, list_elem_of_filter, He1.
    split.
    + intros [[Hv Hnil]|[Hnil Hv]].
      * split; [done|]. rewrite Hnil. by case_decide.
      * split; [|by rewrite decide_True]. rewrite (wf_dom d Hwf). apply elem_of_dom.
        apply (wf_closed_inv d Hwf vx). by exists es.
    + intros [Hv Hnil]. case_decide; auto.
  - intros j v u Hj Hp. apply lookup_snoc_Some in Hj as [[Hlt Hj]|[-> <-]].
    + destruct (Hord j v u Hj Hp) as (i & Hi & Hu). exists i. split; [done|].
      rewrite lookup_app_l by lia. done.
    + assert (u ∈ result) as [i Hi]%list_elem_of_lookup.
      { eapply topo_queued_parents; [exact Hinv| |exact Hp]. set_solver. }
      exists i. pose proof (lookup_lt_Some _ _ _ Hi). split; [lia|].
      by rewrite lookup_app_l.
Qed.

Lemma topo_inv_length d dinv queue result :
  topo_inv d dinv queue result → length (result ++ queue) ≤ size (dag_g d).
Proof.
  intros Hinv. rewrite <- size_dom, <- (size_list_to_set (C:=gset V) (result ++ queue))
    by apply Hinv.
  apply subseteq_size. intros v Hv%elem_of_list_to_set. by apply (topo_ready _ _ _ _ Hinv).
Qed.

(** The loop returns a list for which the invariant holds with an empty queue. *)
Lemma topo_loop_spec fuel d dinv queue result :
  dag_wf d → dag_simple d → topo_inv d dinv queue result →
  S (size (dag_g d)) ≤ fuel + length result →
  ∃ l dinv', topo_loop fuel (dag_inv d) dinv queue result = Ok l ∧ topo_inv d dinv' [] l.
Proof.
  intros Hwf Hs. revert dinv queue result.
  induction fuel as [|fuel IH]; intros dinv queue result Hinv Hfuel;
    [apply topo_inv_length in Hinv; rewrite length_app in Hinv; lia|].
  cbn [topo_loop]. destruct queue as [|vx queue]; [eauto|].
  assert (vx ∈ dom (dag_g d)) as Hvx.
  { apply (topo_ready _ _ _ _ Hinv). set_solver. }
  rewrite (wf_dom d Hwf) in Hvx. apply elem_of_dom in Hvx as [es Hes]. rewrite Hes.
  cbn [unwrap mbind res_bind].
  destruct (topo_edges_spec vx es dinv queue) as (dinv1 & Heq & _ & _).
  { pose proof (simple_inv d Hs vx) as Hnd. unfold edges_of in Hnd. by rewrite Hes in Hnd. }
  { intros e He. apply elem_of_dom. rewrite (topo_dom _ _ _ _ Hinv), (wf_dom d Hwf).
    apply elem_of_dom. apply (wf_closed_inv d Hwf vx). by exists es. }
  rewrite Heq. cbn. apply IH; [|rewrite length_app; cbn; lia].
  by eapply topo_inv_step.
Qed.

(** Acyclicity: no vertex is left when the queue runs dry. *)
Lemma topo_inv_complete d dinv l v :
  dag_wf d → topo_inv d dinv [] l → v ∈ dom (dag_g d) → v ∈ l.
Proof.
  intros Hwf [Hdom Hleft Hnd Hready Hord]. destruct (wf_acyclic d Hwf) as [rank Hrank].
  assert (∀ n v, rank v < n → v ∈ dom (dag_g d) → v ∈ l) as Hn;
    [|intros Hv; apply (Hn (S (rank v))); [lia|done]].
  rewrite app_nil_r in *. induction n as [|n IH]; intros w Hlt Hw; [lia|].
  apply Hready. split; [done|]. rewrite Hleft.
  apply filter_none. intros u Hu%adj_rel_edges Hnu. apply Hnu, IH.
  - apply Hrank in Hu. lia.
  - apply elem_of_dom. by eapply wf_closed_g.
Qed.

(** [l] lists every ancestor of a vertex before the vertex. *)
Definition ancestors_first d (l : list V) : Prop :=
  ∀ i j v u, l !! i = Some v → l !! j = Some u → tc (parent_of d) v u → j < i.

Lemma wf_tc_irrefl d v : dag_wf d → ~ tc (parent_of d) v v.
Proof.
  intros Hwf. destruct (wf_acyclic d Hwf) as [rank Hrank].
  assert (∀ a b, tc (parent_of d) a b → rank b < rank a) as Htc.
  { induction 1 as [a b Hab|a b c Hab _ IH]; [by apply Hrank|].
    apply Hrank in Hab. lia. }
  intros Hv%Htc. lia.
Qed.

Lemma topological_sort_inv d :
  dag_wf d → dag_simple d →
  ∃ l dinv, topological_sort d = Ok l ∧ topo_inv d dinv [] l.
Proof.
  intros Hwf Hs. apply topo_loop_spec; [done..|apply topo_inv_init|].
  unfold dag_fuel. cbn. lia.
Qed.

Lemma topo_inv_ancestors_first d dinv l :
  dag_wf d → topo_inv d dinv [] l → ancestors_first d l.
Proof.
  intros Hwf [_ _ Hnd _ Hord] i j v u Hi Hj Htc. rewrite app_nil_r in Hnd.
  assert (∃ j', j' < i ∧ l !! j' = Some u) as (j' & Hlt & Hj').
  { clear Hj. revert i Hi. induction Htc as [a b Hab|a b c Hab _ IH]; intros i Hi.
    - by eapply Hord.
    - destruct (Hord i a b Hi Hab) as (k & Hk & Hb).
      destruct (IH k Hb) as (j' & ? & ?). exists j'. split; [lia|done]. }
  by rewrite (NoDup_lookup l j j' u Hnd Hj Hj').
Qed.

Lemma ancestors_first_sorted d l :
  dag_wf d →
  ancestors_first d l ↔
    StronglySorted (λ a b, ~ tc (parent_of d) a b) l.
Proof.
  intros Hwf. split.
  - induction l as [|x l IH]; intros Hl; constructor.
    + apply IH. intros i j v u Hi Hj Htc. assert (S j < S i); [by eapply Hl|lia].
    + apply Forall_forall. intros y [j Hj]%list_elem_of_lookup Htc.
      assert (S j < 0); [by eapply Hl|lia].
  - induction 1 as [|x l Hs IH Hx]; intros i j v u Hi Hj Htc; [done|].
    rewrite Forall_forall in Hx. destruct i as [|i], j as [|j]; cbn in *; simplify_eq.
    + by apply wf_tc_irrefl in Htc.
    + apply list_elem_of_lookup_2 in Hj. by apply Hx in Hj.
    + lia.
    + rewrite <- Nat.succ_lt_mono. by eapply IH.
Qed.

Lemma filter_ancestors_first d l (P : V → Prop) `{!∀ x, Decision (P x)} :
  dag_wf d → ancestors_first d l → ancestors_first d (filter P l).
Proof.
  intros Hwf. rewrite !ancestors_first_sorted by done. apply StronglySorted_filter.
Qed.

Lemma topological_sort_perm d :
  dag_wf d → dag_simple d →
  ∃ l, topological_sort d = Ok l ∧ l ≡ₚ elements (dom (dag_g d)) ∧ ancestors_first d l.
Proof.
  intros Hwf Hs. destruct (topological_sort_inv d Hwf Hs) as (l & dinv & Heq & Hinv).
  exists l. split_and!; [done| |by eapply topo_inv_ancestors_first].
  apply NoDup_Permutation.
  - pose proof (topo_nodup _ _ _ _ Hinv) as Hnd. by rewrite app_nil_r in Hnd.
  - apply NoDup_elements.
  - intros v. rewrite elem_of_elements. split; [|by eapply topo_inv_complete].
    intros Hv. apply (topo_ready _ _ _ _ Hinv). by rewrite app_nil_r.
Qed.

Lemma get_ancestors_spec d v :
  dag_wf d → dag_simple d → v ∈ dom (dag_g d) →
  ∃ l, get_ancestors d v = Ok l ∧ NoDup l ∧ ancestors_first d l ∧
    ∀ u, u ∈ l ↔ tc (parent_of d) v u.
Proof.
  intros Hwf Hs Hv. destruct (topological_sort_perm d Hwf Hs) as (l & Heq & Hp & Hord).
  destruct (dfs_reachable d v Hwf Hv) as (r & Hdfs & _ & _ & Hr).
  eexists. unfold get_ancestors. rewrite Heq, Hdfs. cbn. split_and!; [done|..].
  - apply NoDup_filter. rewrite Hp. apply NoDup_elements.
  - by apply filter_ancestors_first.
  - intros u. rewrite list_elem_of_filter, elem_of_difference, elem_of_list_to_set, Hr.
    rewrite Hp, elem_of_elements, elem_of_singleton. split.
    + intros [[Hrt Hne] _]. apply rtc_tc in Hrt as [->|]; done.
    + intros Htc. split_and!.
      * by apply tc_rtc.
      * intros ->. by apply (wf_tc_irrefl d v Hwf).
      * apply elem_of_dom. eapply (rtc_adj_closed _ v); [by apply wf_closed_g| |by apply tc_rtc].
        by apply elem_of_dom.
Qed.
End topological.

(** ** Leaves *)
Section dag_leaves.
Context `{Countable V, IterOrder}.

Lemma leaves_dom (d : DAG V) v : dag_wf d → v ∈ leaves d → v ∈ dom (dag_g d).
Proof.
  intros Hwf Hv%elem_of_leaves. rewrite (wf_dom d Hwf). by eapply elem_of_dom_2.
Qed.

(** Every vertex is below some leaf. *)
Lemma leaf_cover (d : DAG V) v :
  dag_wf d → v ∈ dom (dag_g d) → ∃ leaf, leaf ∈ leaves d ∧ rtc (parent_of d) leaf v.
Proof.
  intros Hwf. destruct (wf_acyclic d Hwf) as [rank Hrank].
  set (B := max_list (rank <$> elements (dom (dag_g d)))).
  assert (∀ u, u ∈ dom (dag_g d) → rank u ≤ B) as HB.
  { intros u Hu. apply max_list_elem_of_le, list_elem_of_fmap_2. by apply elem_of_elements. }
  assert (∀ n u, B - rank u < n → u ∈ dom (dag_g d) →
    ∃ leaf, leaf ∈ leaves d ∧ rtc (parent_of d) leaf u) as Hn;
    [|intros Hv; apply (Hn (S (B - rank v))); [lia|done]].
  induction n as [|n IH]; intros u Hlt Hu; [lia|].
  pose proof Hu as Hui. rewrite (wf_dom d Hwf) in Hui. apply elem_of_dom in Hui as [cs Hcs].
  destruct cs as [|c cs]; [exists u; split; [by apply elem_of_leaves|done]|].
  assert (parent_of d c u) as Hpc.
  { apply (wf_mirror d Hwf). exists (c :: cs). split; [done|set_solver]. }
  assert (c ∈ dom (dag_g d)) as Hc.
  { destruct Hpc as (l & Hl & _). by eapply elem_of_dom_2. }
  destruct (IH c) as (leaf & Hleaf & Hr); [|done|].
  - pose proof (Hrank c u Hpc). pose proof (HB c Hc). lia.
  - exists leaf. split; [done|]. by eapply rtc_r.
Qed.
End dag_leaves.

(** ** Graphs built by insertion *)
Section dag_of.
Context `{Countable V}.

#[export] Instance insertable_dec d (vx : V) edges : Decision (insertable d vx edges).
Proof.
  unfold insertable. apply and_dec; [apply _|]. apply and_dec; [|apply _].
  refine (cast_if (decide (Forall (λ u, u ∈ dom (dag_g d)) edges)));
    by rewrite <- Forall_forall.
Defined.

(** Insert the listed vertices, each with its parents, into [d]. *)
Fixpoint dag_of (d : DAG V) (l : list (V * list V)) : option (DAG V) :=
  match l with
  | [] => Some d
  | (vx, edges) :: l' =>
      if decide (insertable d vx edges ∧ NoDup edges) then
        dag_of (insert_vx vx edges d).1 l'
      else None
  end.

Lemma dag_new_wf : dag_wf (dag_new (V:=V)) ∧ dag_simple (dag_new (V:=V)).
Proof.
  split; [|split; intros v; constructor].
  split; [done|split; intros (l & Hl & _); done|done|].
  exists (λ _, 0). intros v u (l & Hl & _). done.
Qed.

Lemma dag_of_wf_from d l d' :
  dag_wf d → dag_simple d → dag_of d l = Some d' → dag_wf d' ∧ dag_simple d'.
Proof.
  revert d. induction l as [|[vx es] l IH]; intros d Hwf Hs; cbn; [by intros [= <-]|].
  case_decide as Hins; [|done]. destruct Hins as [Hins Hnd].
  destruct (insert_vx_spec d vx es Hwf Hins) as (i' & Heq & _).
  apply IH; rewrite Heq; [by eapply insert_vx_wf|by eapply insert_vx_simple].
Qed.

Lemma dag_of_wf l d' :
  dag_of dag_new l = Some d' → dag_wf d' ∧ dag_simple d'.
Proof. apply dag_of_wf_from; apply dag_new_wf. Qed.
End dag_of.

(** The graph of the unit tests of dag.rs, with a vote for the vertices 4 and 5. *)
Definition dag_example : DAG Z :=
  let d := default dag_new (dag_of dag_new
    [(0, []); (1, [0]); (2, [0]); (3, [1; 2]); (4, [3; 1]); (5, [3; 2])]%Z) in
  (foreach [4; 5]%Z (λ v, set_chit v 1%Z) d).1.

Lemma set_chit_wf `{Countable V} (d d' : DAG V) vx c r :
  (c = 0 ∨ c = 1)%Z → dag_wf d → set_chit vx c d = (d', r) → dag_wf d'.
Proof.
  intros Hc Hwf Hs. unfold set_chit in Hs.
  assert (dag_wf (set_chits (<[vx := c]> (dag_chits d)) d)) as Hwf'.
  { split; cbn; try apply Hwf. intros v Hv. destruct (decide (vx = v)) as [<-|].
    - rewrite lookup_insert_eq. naive_solver.
    - rewrite lookup_insert_ne by done. by apply Hwf. }
  case_matches Hs; done.
Qed.

Lemma set_chit_graph `{Countable V} (d d' : DAG V) vx c r :
  set_chit vx c d = (d', r) → dag_g d' = dag_g d ∧ dag_inv d' = dag_inv d.
Proof. unfold set_chit. intros Hs. case_matches Hs; done. Qed.

Lemma vote_wf `{Countable V} (d : DAG V) vs :
  dag_wf d → dag_simple d →
  dag_wf (foreach vs (λ v, set_chit v 1%Z) d).1 ∧
  dag_simple (foreach vs (λ v, set_chit v 1%Z) d).1.
Proof.
  revert d. induction vs as [|v vs IH]; intros d Hwf [Hg Hi]; [done|].
  rewrite foreach_cons. unfold mbind, st_bind.
  destruct (set_chit v 1%Z d) as [d1 r] eqn:Hr.
  apply set_chit_graph in Hr as Hgr. destruct Hgr as [Eg Ei].
  pose proof (set_chit_wf _ _ _ _ _ (or_intror eq_refl) Hwf Hr) as Hwf1.
  assert (dag_simple d1) as Hs1 by (split; intros u; by rewrite ?Eg, ?Ei).
  destruct r; [by apply IH|done..].
Qed.

Lemma dag_example_wf : dag_wf dag_example ∧ dag_simple dag_example.
Proof.
  unfold dag_example.
  destruct (dag_of dag_new _) as [d|] eqn:Hd; [|vm_compute in Hd; discriminate].
  apply dag_of_wf in Hd as [Hwf Hs]. by apply vote_wf.
Qed.

(** ** Properties *)
Section properties.
Context `{Countable V, IterOrder}.
Implicit Types (d : DAG V) (u v vx : V).

(** C17: inserting a new vertex below known parents succeeds, keeps the graph
    well formed, adds exactly the edges to the parents and gives the vertex a
    chit of 0 that is the only chit that changes. *)
Theorem dag_insert_preserves d vx edges :
  dag_wf d → insertable d vx edges →
  ∃ d', insert_vx vx edges d = (d', Ok tt) ∧ dag_wf d' ∧
    (dag_simple d → NoDup edges → dag_simple d') ∧
    dom (dag_g d') = {[ vx ]} ∪ dom (dag_g d) ∧
    (∀ v u, parent_of d' v u ↔ parent_of d v u ∨ (v = vx ∧ u ∈ edges)) ∧
    dag_chits d' = <[vx := 0%Z]> (dag_chits d).
Proof.
  intros Hwf Hins. destruct (insert_vx_spec d vx edges Hwf Hins) as (i' & Heq & _).
  eexists. split; [exact Heq|]. split_and!; [|..|done].
  - by eapply insert_vx_wf.
  - intros. by eapply insert_vx_simple.
  - cbn. by rewrite dom_insert_L.
  - intros v u. unfold parent_of. cbn. rewrite !adj_rel_edges. unfold edges_of.
    destruct Hins as [Hvx%not_elem_of_dom _]. destruct (decide (vx = v)) as [<-|].
    + rewrite lookup_insert_eq, Hvx. set_solver.
    + rewrite lookup_insert_ne by done. naive_solver.
Qed.

(** C18: Removing a vertex succeeds, returns exactly its children, keeps the
    graph well formed and removes exactly the edges that touch the vertex. *)
Theorem dag_remove_preserves d vx :
  dag_wf d → vx ∈ dom (dag_g d) →
  ∃ d' cs, remove_vx vx d = (d', Ok cs) ∧ dag_wf d' ∧
    (dag_simple d → dag_simple d') ∧
    (∀ c, c ∈ cs ↔ parent_of d c vx) ∧
    dom (dag_g d') = dom (dag_g d) ∖ {[ vx ]} ∧
    (∀ v u, parent_of d' v u ↔ v ≠ vx ∧ u ≠ vx ∧ parent_of d v u) ∧
    dag_chits d' = dag_chits d.
Proof.
  intros Hwf Hvx. destruct (remove_vx_spec d vx Hwf Hvx) as (g' & i' & Heq & Hg & Hi).
  do 2 eexists. split; [exact Heq|]. split_and!; [|..|done].
  - by eapply remove_vx_wf.
  - intros. by eapply remove_vx_simple.
  - intros c. rewrite elem_of_list_to_set, <- adj_rel_edges. symmetry. apply Hwf.
  - apply Hg.
  - intros v u. by apply removed_adj.
Qed.

(** C20: both searches terminate; each yields the vertex and all its ancestors,
    once each, the vertex first; so they are permutations of each other. *)
Theorem dag_searches d vx :
  dag_wf d → vx ∈ dom (dag_g d) →
  ∃ l1 l2, dfs d vx = Ok l1 ∧ bfs d vx = Ok l2 ∧ l1 ≡ₚ l2 ∧ NoDup l1 ∧
    head l1 = Some vx ∧ head l2 = Some vx ∧
    ∀ v, v ∈ l1 ↔ rtc (parent_of d) vx v.
Proof.
  intros Hwf Hvx.
  destruct (dfs_reachable d vx Hwf Hvx) as (l1 & H1 & Hnd1 & Hh1 & Hr1).
  destruct (bfs_reachable d vx Hwf Hvx) as (l2 & H2' & Hnd2 & Hh2 & Hr2).
  exists l1, l2. split_and!; try done.
  apply NoDup_Permutation; [done..|]. intros v. by rewrite Hr1, Hr2.
Qed.

(** C19: the conviction of a vertex is the sum of the chits of its progeny, each
    vertex counted once, and [ChitOverflow] exactly when that sum does not fit
    in a byte; the search terminates and cannot panic. *)
Theorem conviction_is_progeny_sum d vx :
  dag_wf d → vx ∈ dom (dag_g d) →
  ∃ l, NoDup l ∧ (∀ v, v ∈ l ↔ rtc (child_of d) vx v) ∧
    let total := zsum (chit_of d <$> l) in
    (total ≤ 255 → conviction d vx = Ok total)%Z ∧
    (255 < total → conviction d vx = Err GraphError.ChitOverflow)%Z.
Proof.
  intros Hwf Hvx. destruct (progeny_enum d vx Hwf Hvx) as (l & Hnd & Hl).
  exists l. do 2 (split; [done|]). intros total.
  rewrite (conviction_total d vx l) by done. unfold chit_total. fold total. split; intros; by rewrite ?decide_True, ?decide_False by lia.
Qed.


(** A vertex that was removed after it got a vote cannot be inserted again:
    its chit is still there, and [insert_vx] reports [ChitReplace] after it has
    already added the vertex and its edges. *)
Theorem reinsert_voted_vertex d vx d1 cs edges :
  dag_wf d → vx ∈ dom (dag_g d) → dag_chits d !! vx = Some 1%Z →
  remove_vx vx d = (d1, Ok cs) → (∀ u, u ∈ edges → u ∈ dom (dag_g d1)) →
  ∃ d2, insert_vx vx edges d1 = (d2, Err GraphError.ChitReplace) ∧
    dag_g d2 = <[vx := edges]> (dag_g d1).
Proof.
  intros Hwf Hvx Hchit Hrm Hedges.
  pose proof (remove_vx_wf d vx d1 cs Hwf Hvx Hrm) as Hwf1.
  destruct (remove_vx_spec d vx Hwf Hvx) as (g' & i' & Heq & [Hgd _] & _).
  rewrite Heq in Hrm. injection Hrm as <- _.
  destruct (insert_vx_voted _ vx edges Hwf1) as (d2 & ? & ? & _); [|done|done|by exists d2].
  cbn. set_solver.
Qed.
End properties.

(** *** Witnesses, on [dag_example] *)

Lemma dag_insert_preserves_witness :
  ∃ d', insert_vx 6%Z [4; 5]%Z dag_example = (d', Ok tt) ∧ dag_wf d'.
Proof.
  destruct (dag_insert_preserves dag_example 6%Z [4; 5]%Z) as (d' & H1 & H2 & _).
  - apply dag_example_wf.
  - apply (bool_decide_unpack _). vm_compute. exact I.
  - exists d'. split; assumption.
Defined.

Lemma dag_remove_preserves_witness :
  ∃ d' cs, remove_vx 3%Z dag_example = (d', Ok cs) ∧ dag_wf d' ∧
    (4%Z ∈ cs ↔ parent_of dag_example 4%Z 3%Z).
Proof.
  destruct (dag_remove_preserves dag_example 3%Z) as (d' & cs & H1 & H2 & _ & H3 & _).
  - apply dag_example_wf.
  - apply (bool_decide_unpack _). vm_compute. exact I.
  - exists d', cs. split; [exact H1|]. split; [exact H2|]. apply H3.
Defined.

Lemma dag_searches_witness :
  ∃ l1 l2, dfs dag_example 4%Z = Ok l1 ∧ bfs dag_example 4%Z = Ok l2 ∧ l1 ≡ₚ l2.
Proof.
  destruct (dag_searches dag_example 4%Z) as (l1 & l2 & H1 & H2 & H3 & _).
  - apply dag_example_wf.
  - apply (bool_decide_unpack _). vm_compute. exact I.
  - exists l1, l2. split; [exact H1|]. split; [exact H2|exact H3].
Defined.

(** The votes of 4 and 5 are counted once each for the vertex 3 below them. *)
Lemma conviction_is_progeny_sum_witness :
  conviction dag_example 3%Z = Ok 2%Z ∧
  ∃ l, NoDup l ∧ ∀ v, v ∈ l ↔ rtc (child_of dag_example) 3%Z v.
Proof.
  split; [vm_compute; reflexivity|].
  destruct (conviction_is_progeny_sum dag_example 3%Z) as (l & H1 & H2 & _).
  - apply dag_example_wf.
  - apply (bool_decide_unpack _). vm_compute. exact I.
  - exists l. split; [exact H1|exact H2].
Defined.


Lemma reinsert_voted_vertex_witness :
  ∃ d2, insert_vx 4%Z [3]%Z (remove_vx 4%Z dag_example).1 = (d2, Err GraphError.ChitReplace).
Proof.
  destruct (reinsert_voted_vertex dag_example 4%Z (remove_vx 4%Z dag_example).1 ∅ [3]%Z)
    as (d2 & H1 & _).
  - apply dag_example_wf.
  - apply (bool_decide_unpack _). vm_compute. exact I.
  - vm_compute. reflexivity.
  - vm_compute. reflexivity.
  - apply Forall_forall. apply (bool_decide_unpack _). vm_compute. exact I.
  - exists d2. exact H1.
Defined.
