(* ===== verification/ConflictGraph.v ===== *)
(** * ConflictGraph.v: conflict sets and the conflict graph of sleet
      (src/src/sleet/conflict_set.rs, src/src/graph/conflict_graph.rs)

    Two transactions conflict when they spend the same output.  The conflict
    graph keeps the spenders of every output and, for every transaction, the set
    of the transactions it conflicts with, the preferred one and a confidence
    counter. *)

From stdpp Require Import prelude gmap sets fin_sets list.
From Stdlib Require Import ZArith Lia.
From S2P Require Import Prelude Orders Cell Dag.

(** [sleet::BETA1] and [sleet::BETA2]. *)
Definition BETA1 : Z := 11.
Definition BETA2 : Z := 20.

(** ** [ConflictSet] *)
Record ConflictSet (T : Type) `{Countable T} : Type := mkConflictSet {
  conflicts : gset T;
  pref : T;
  last : T;
  cnt : Z
}.
Arguments mkConflictSet {T _ _} _ _ _ _.
Arguments conflicts {T _ _} _.
Arguments pref {T _ _} _.
Arguments last {T _ _} _.
Arguments cnt {T _ _} _.

Section conflict_set.
Context `{Countable T}.
Implicit Types s : ConflictSet T.

Definition conflict_set_new (t : T) : ConflictSet T := mkConflictSet {[ t ]} t t 0.

Definition set_conflicts (c : gset T) s : ConflictSet T :=
  mkConflictSet c (pref s) (last s) (cnt s).
Definition set_pref (t : T) s : ConflictSet T :=
  mkConflictSet (conflicts s) t (last s) (cnt s).
Definition set_last (t : T) s : ConflictSet T :=
  mkConflictSet (conflicts s) (pref s) t (cnt s).
Definition set_cnt (n : Z) s : ConflictSet T :=
  mkConflictSet (conflicts s) (pref s) (last s) n.

Definition cset_is_equivalent s (hs : gset T) : bool := bool_decide (conflicts s = hs).
Definition cset_is_preferred s (t : T) : bool := bool_decide (pref s = t).
Definition cset_is_singleton s : bool := (size (conflicts s) =? 1)%nat.

(** [remove_from_conflict_set]: the last element stays; [pref] and [last] are
    left as they are. *)
Definition remove_from_conflict_set (elt : T) s : ConflictSet T :=
  if (size (conflicts s) <=? 1)%nat then s
  else set_conflicts (conflicts s ∖ {[ elt ]}) s.
End conflict_set.

(** ** [ConflictGraph] *)
Inductive OutputStatus : Type := Pending | Accepted | Rejected.

Record VertexData : Type := mkVertexData {
  spenders : gset CellHash;
  status : OutputStatus
}.

Record ConflictGraph : Type := mkConflictGraph {
  vertices : gmap CellId VertexData;
  cells : gmap CellHash Cell;
  cg_cs : gmap CellHash (ConflictSet CellHash);
  insertion_order : list CellHash
}.

Definition set_vertices v G := mkConflictGraph v (cells G) (cg_cs G) (insertion_order G).
Definition set_cells c G := mkConflictGraph (vertices G) c (cg_cs G) (insertion_order G).
Definition set_cs c G := mkConflictGraph (vertices G) (cells G) c (insertion_order G).
Definition set_order o G := mkConflictGraph (vertices G) (cells G) (cg_cs G) o.

Definition add_spender (h : CellHash) (v : VertexData) : VertexData :=
  mkVertexData (spenders v ∪ {[ h ]}) (status v).
Definition remove_spender (h : CellHash) (v : VertexData) : VertexData :=
  mkVertexData (spenders v ∖ {[ h ]}) (status v).
Definition set_status (x : OutputStatus) (v : VertexData) : VertexData :=
  mkVertexData (spenders v) x.

Section conflict_graph.
Context `{Crypto, IterOrder, BuildProfile}.
Implicit Types G : ConflictGraph.

(** A method of the conflict graph. *)
Abbreviation cg := (st ConflictGraph GraphError.Error).

Definition lift_cell {A} (r : res CellError.Error A) : cg A :=
  of_res (map_err GraphError.Cell r).

(** [data = map.get_mut(k).unwrap(); data := f data] on the vertices. *)
Definition vertex_update (f : VertexData → VertexData) (id : CellId) : cg unit := λ G,
  match vertices G !! id with
  | Some v => (set_vertices (<[id := f v]> (vertices G)) G, Ok tt)
  | None => (G, Panic)
  end.

Definition conflict_graph_new (genesis : CellIds) : ConflictGraph :=
  mkConflictGraph
    (insert_all (mkVertexData ∅ Accepted) (iter_set genesis) ∅)
    ∅ ∅ [].

Definition append (ids : CellIds) : cg unit :=
  foreach (iter_set ids) (λ g G,
    match vertices G !! g with
    | None => (set_vertices (<[g := mkVertexData ∅ Accepted]> (vertices G)) G, Ok tt)
    | Some _ => (G, Ok tt)
    end).

Definition conflicting_cells G (h : CellHash) : option (ConflictSet CellHash) :=
  cg_cs G !! h.

(** [self.cells.insert(..)], which stores the cell before the duplicate is
    reported. *)
Definition cells_insert (h : CellHash) (cell : Cell) : cg unit := λ G,
  let G' := set_cells (<[h := cell]> (cells G)) G in
  match cells G !! h with
  | None => (G', Ok tt)
  | Some _ => (G', Err GraphError.DuplicateCell)
  end.

(** The loop over the consumed ids: collect the earlier spenders, then join
    them. *)
Definition spend_input (h : CellHash) (id : CellId) (confl : gset CellHash) :
    cg (gset CellHash) := λ G,
  match vertices G !! id with
  | Some d =>
      (set_vertices (<[id := add_spender h d]> (vertices G)) G, Ok (confl ∪ spenders d))
  | None => (G, Err GraphError.UndefinedCell)
  end.

(** The loop over the conflicts: the two sets learn of each other. *)
Definition add_conflict (h ch : CellHash) (own : ConflictSet CellHash) :
    cg (ConflictSet CellHash) := λ G,
  match cg_cs G !! ch with
  | Some s =>
      (set_cs (<[ch := set_conflicts (conflicts s ∪ {[ h ]}) s]> (cg_cs G)) G,
       Ok (set_conflicts (conflicts own ∪ {[ ch ]}) own))
  | None => (G, Panic)
  end.

(** [if conflicts.len() > 0 { .. }]: inherit from the conflict inserted first. *)
Definition inherit (confl : gset CellHash) (own : ConflictSet CellHash) :
    cg (ConflictSet CellHash) :=
  if (0 <? size confl)%nat then
    first_conflict ← reads (λ G, unwrap
      (snd <$> list_find (λ h', h' ∈ confl) (insertion_order G)));
    s ← reads (λ G, unwrap (cg_cs G !! first_conflict));
    mret (set_cnt (cnt s) (set_last (last s) (set_pref (pref s) own)))
  else mret own.

(** [insert_cell] *)
Definition insert_cell (cell : Cell) : cg unit :=
  let h := hash cell in
  cells_insert h cell;;
  consumed_cell_ids ← lift_cell (from_inputs (inputs cell));
  produced_cell_ids ← lift_cell (from_outputs h (outputs cell));
  confl ← for_acc (iter_set consumed_cell_ids) (spend_input h) ∅;
  foreach (iter_set produced_cell_ids) (λ id,
    modify (λ G, set_vertices (<[id := mkVertexData ∅ Pending]> (vertices G)) G));;
  modify (λ G, set_order (insertion_order G ++ [h]) G);;
  own ← for_acc (iter_set confl) (add_conflict h) (conflict_set_new h);
  own ← inherit confl own;
  modify (λ G, set_cs (<[h := own]> (cg_cs G)) G).

(** [remove_from_vertices] *)
Definition remove_from_vertices (h : CellHash) : cg unit :=
  cell ← reads (λ G, unwrap (cells G !! h));
  produced_cell_ids ← lift_cell (from_outputs h (outputs cell));
  consumed_cell_ids ← lift_cell (from_inputs (inputs cell));
  foreach (iter_set produced_cell_ids) (vertex_update (set_status Rejected));;
  foreach (iter_set consumed_cell_ids) (vertex_update (remove_spender h)).

(** [remove_cell] *)
Definition remove_cell (h : CellHash) : cg unit :=
  s ← gets (λ G, conflicting_cells G h);
  match s with
  | Some conflict_set =>
      remove_from_vertices h;;
      foreach (iter_set (conflicts conflict_set)) (λ ch,
        if decide (h = ch) then mret tt
        else modify (λ G,
          match cg_cs G !! ch with
          | Some cset => set_cs (<[ch := remove_from_conflict_set h cset]> (cg_cs G)) G
          | None => G
          end));;
      modify (λ G, set_cells (delete h (cells G)) G);;
      modify (λ G, set_cs (delete h (cg_cs G)) G);;
      modify (λ G, set_order (filter (λ h', h' ≠ h) (insertion_order G)) G)
  | None => throw GraphError.UndefinedCell
  end.

(** [accept_cell] *)
Definition accept_cell (cell : Cell) : cg (list CellHash) :=
  let h := hash cell in
  produced_cell_ids ← lift_cell (from_outputs h (outputs cell));
  foreach (iter_set produced_cell_ids) (vertex_update (set_status Accepted));;
  s ← gets (λ G, conflicting_cells G h);
  match s with
  | Some conflict_set =>
      let confl := conflicts conflict_set in
      foreach (iter_set confl) (λ ch,
        if decide (h = ch) then mret tt else remove_cell ch);;
      modify (λ G, set_cs (<[h := set_cnt (cnt conflict_set) (conflict_set_new h)]> (cg_cs G)) G);;
      mret (filter (λ h', h' ≠ h) (iter_set confl))
  | None => throw GraphError.UndefinedCell
  end.

Definition is_singleton G (h : CellHash) : res GraphError.Error bool :=
  match conflicting_cells G h with
  | Some s => Ok (cset_is_singleton s)
  | None => Err (GraphError.UndefinedCellHash h)
  end.

Definition get_preferred G (h : CellHash) : res GraphError.Error CellHash :=
  match conflicting_cells G h with
  | Some s => Ok (pref s)
  | None => Err (GraphError.UndefinedCellHash h)
  end.

Definition is_preferred G (h : CellHash) : res GraphError.Error bool :=
  match conflicting_cells G h with
  | Some s => Ok (cset_is_preferred s h)
  | None => Err (GraphError.UndefinedCellHash h)
  end.

Definition get_confidence G (h : CellHash) : res GraphError.Error Z :=
  match conflicting_cells G h with
  | Some s => Ok (cnt s)
  | None => Err (GraphError.UndefinedCellHash h)
  end.

(** The body of [update_conflict_set] on the conflict set of [h]; the increment
    is guarded and cannot overflow. *)
Definition cset_update (h : CellHash) (d1 d2 : Z) (s : ConflictSet CellHash) :
    res GraphError.Error (ConflictSet CellHash) :=
  let s := if (d2 <? d1)%Z then set_pref h s else s in
  if negb (bool_decide (h = last s)) then Ok (set_last h s)
  else if (cnt s <? BETA2)%Z then n ← u_add 8 (cnt s) 1; Ok (set_cnt n s)
  else Ok s.

Definition update_conflict_set (h : CellHash) (d1 d2 : Z) : cg unit := λ G,
  if (0 <? size (cg_cs G))%nat then
    match cg_cs G !! h with
    | Some s =>
        match cset_update h d1 d2 s with
        | Ok s' => (set_cs (<[h := s']> (cg_cs G)) G, Ok tt)
        | Err e => (G, Err e)
        | Panic => (G, Panic)
        | OutOfFuel => (G, OutOfFuel)
        end
    | None => (G, Err (GraphError.UndefinedCellHash h))
    end
  else (G, Err GraphError.EmptyConflictGraph).

Definition reset_count (h : CellHash) : cg unit := λ G,
  if (0 <? size (cg_cs G))%nat then
    match cg_cs G !! h with
    | Some s => (set_cs (<[h := set_cnt 0 s]> (cg_cs G)) G, Ok tt)
    | None => (G, Err (GraphError.UndefinedCellHash h))
    end
  else (G, Err GraphError.EmptyConflictGraph).
End conflict_graph.
