(* ===== verification/ConflictGraphFacts.v ===== *)
(** * ConflictGraphFacts.v: theorems on the conflict graph
      (src/src/graph/conflict_graph.rs)

    The invariant: the graph records exactly who spends what, and the conflict
    set of a cell holds exactly the cells that spend one of its inputs.  Every
    operation preserves it; accepting a cell removes every double spend of it. *)

From stdpp Require Import prelude gmap sets fin_sets list.
From Stdlib Require Import ZArith Lia.
From S2P Require Import Prelude Orders Cell Instances Dag ConflictGraph.

Section facts.
Context `{Crypto, IterOrder, BuildProfile}.
Implicit Types (G : ConflictGraph) (c : Cell) (h id : bytes).

(** Two cells spend a common output. *)
Definition double_spend c c' : Prop := ∃ id, id ∈ consumed_ids c ∧ id ∈ consumed_ids c'.

Record cg_wf G : Prop := {
  cgw_hash : ∀ h c, cells G !! h = Some c → hash c = h;
  cgw_dom : dom (cg_cs G) = dom (cells G);
  cgw_nodup : NoDup (insertion_order G);
  cgw_order : ∀ h, h ∈ insertion_order G ↔ h ∈ dom (cells G);
  cgw_consumed : ∀ h c, cells G !! h = Some c → consumed_ids c ⊆ dom (vertices G);
  cgw_produced : ∀ h c, cells G !! h = Some c → produced_ids c ⊆ dom (vertices G);
  cgw_spenders : ∀ id v h, vertices G !! id = Some v →
    h ∈ spenders v ↔ ∃ c, cells G !! h = Some c ∧ id ∈ consumed_ids c;
  cgw_conflicts : ∀ h s h', cg_cs G !! h = Some s →
    h' ∈ conflicts s ↔ ∃ c c', cells G !! h = Some c ∧ cells G !! h' = Some c' ∧
      (h = h' ∨ double_spend c c');
  cgw_cnt : ∀ h s, cg_cs G !! h = Some s → (0 ≤ cnt s ≤ BETA2)%Z
}.

Lemma double_spend_sym c c' : double_spend c c' → double_spend c' c.
Proof. intros (id & ? & ?). by exists id. Qed.

Lemma wf_cs_Some G h c : cg_wf G → cells G !! h = Some c → ∃ s, cg_cs G !! h = Some s.
Proof.
  intros Hwf Hc. apply elem_of_dom_2 in Hc. rewrite <- (cgw_dom G Hwf) in Hc.
  by apply elem_of_dom in Hc.
Qed.

Lemma wf_cells_Some G h s : cg_wf G → cg_cs G !! h = Some s → ∃ c, cells G !! h = Some c.
Proof.
  intros Hwf Hc. apply elem_of_dom_2 in Hc. rewrite (cgw_dom G Hwf) in Hc.
  by apply elem_of_dom in Hc.
Qed.

Lemma wf_self_conflict G h s : cg_wf G → cg_cs G !! h = Some s → h ∈ conflicts s.
Proof.
  intros Hwf Hs. destruct (wf_cells_Some G h s Hwf Hs) as [c Hc].
  apply (cgw_conflicts G Hwf h s h Hs). exists c, c. auto.
Qed.

(** *** The loops over the vertices *)

Lemma vertex_loop (f : VertexData → VertexData) (ids : CellIds) G :
  ids ⊆ dom (vertices G) →
  foreach (iter_set ids) (vertex_update f) G =
    (set_vertices (update_on (iter_set ids) (λ _, f) (vertices G)) G, Ok tt).
Proof.
  intros Hids.
  apply (foreach_update_on vertices set_vertices (λ _, f)); [done|done|by intros []|..].
  - apply NoDup_iter_set.
  - intros id Hid%elem_of_iter_set. apply elem_of_dom. set_solver.
  - intros id t v _ Hv. unfold vertex_update. by rewrite Hv.
Qed.

Lemma spend_loop h (ids : CellIds) G :
  ids ⊆ dom (vertices G) →
  ∃ confl, for_acc (iter_set ids) (spend_input h) ∅ G =
      (set_vertices (update_on (iter_set ids) (λ _, add_spender h) (vertices G)) G,
       Ok confl) ∧
    ∀ x, x ∈ confl ↔ ∃ id v, id ∈ ids ∧ vertices G !! id = Some v ∧ x ∈ spenders v.
Proof.
  intros Hids. eexists. split.
  - apply (for_acc_update_on vertices set_vertices (λ _, add_spender h)
      (λ a _ v, a ∪ spenders v)); [done|done|by intros []|apply NoDup_iter_set|..].
    + intros id Hid%elem_of_iter_set. apply elem_of_dom. set_solver.
    + intros id a t v _ Hv. unfold spend_input. by rewrite Hv.
  - intros x. setoid_rewrite <- (elem_of_iter_set (A:=bytes)) at 2.
    assert (∀ l (a : gset bytes),
      x ∈ foldl (λ a k, from_option (λ v, a ∪ spenders v) a (vertices G !! k)) a l ↔
      x ∈ a ∨ ∃ id v, id ∈ l ∧ vertices G !! id = Some v ∧ x ∈ spenders v) as Hgen.
    { induction l as [|k l IH]; intros a; cbn; [set_solver|]. rewrite IH.
      destruct (vertices G !! k) as [v|] eqn:Hk; cbn; set_solver. }
    rewrite Hgen. set_solver.
Qed.

Lemma produce_loop (ids : CellIds) v G :
  foreach (iter_set ids) (λ id,
    modify (λ G, set_vertices (<[id := v]> (vertices G)) G)) G =
  (set_vertices (insert_all v (iter_set ids) (vertices G)) G, @Ok GraphError.Error _ tt).
Proof.
  rewrite (foreach_fold (λ id G, set_vertices (<[id := v]> (vertices G)) G)) by done.
  f_equal. generalize (iter_set ids). intros l. revert G. unfold insert_all.
  induction l as [|id l IH]; intros G; cbn; [by destruct G|]. rewrite IH. done.
Qed.

Lemma conflict_loop h (confl : gset bytes) own G :
  confl ⊆ dom (cg_cs G) →
  for_acc (iter_set confl) (add_conflict h) own G =
    (set_cs (update_on (iter_set confl)
       (λ _ s, set_conflicts (conflicts s ∪ {[ h ]}) s) (cg_cs G)) G,
     Ok (set_conflicts (conflicts own ∪ confl) own)).
Proof.
  intros Hc.
  rewrite (for_acc_update_on cg_cs set_cs
    (λ _ s, set_conflicts (conflicts s ∪ {[ h ]}) s)
    (λ a k _, set_conflicts (conflicts a ∪ {[ k ]}) a)); [|done|done|by intros []|..].
  - do 2 f_equal.
    assert (∀ l a, (∀ k, k ∈ l → is_Some (cg_cs G !! k)) →
      foldl (λ a k, from_option (λ _, set_conflicts (conflicts a ∪ {[ k ]}) a) a
        (cg_cs G !! k)) a l = set_conflicts (conflicts a ∪ list_to_set l) a) as Hgen.
    { induction l as [|k l IH]; intros a Hl; cbn.
      - destruct a. unfold set_conflicts. cbn. f_equal. set_solver.
      - destruct (Hl k) as [s Hs]; [set_solver|]. rewrite Hs. cbn.
        rewrite IH by set_solver. unfold set_conflicts. cbn. f_equal. set_solver. }
    rewrite Hgen.
    + f_equal. apply set_eq. intros x. rewrite !elem_of_union, elem_of_list_to_set.
      by rewrite elem_of_iter_set.
    + intros k Hk%elem_of_iter_set. apply elem_of_dom. set_solver.
  - apply NoDup_iter_set.
  - intros k Hk%elem_of_iter_set. apply elem_of_dom. set_solver.
  - intros k a t s _ Hs. unfold add_conflict. by rewrite Hs.
Qed.

(** *** Removing a cell *)

(** What is left of [G] when the cell [c] with the hash [h] is removed. *)
Record cell_removed G h c G' : Prop := {
  crm_cells : cells G' = delete h (cells G);
  crm_order : insertion_order G' = filter (λ h', h' ≠ h) (insertion_order G);
  crm_vertices : ∀ id, vertices G' !! id = (λ v, mkVertexData (spenders v ∖ {[ h ]})
    (if decide (id ∈ produced_ids c) then Rejected else status v)) <$> vertices G !! id;
  crm_cs : ∀ h', cg_cs G' !! h' =
    if decide (h' = h) then None
    else (λ s, set_conflicts (conflicts s ∖ {[ h ]}) s) <$> cg_cs G !! h'
}.

Lemma remove_from_conflict_set_spec h h' (s : ConflictSet bytes) :
  h' ∈ conflicts s → h ∈ conflicts s → h ≠ h' →
  remove_from_conflict_set h s = set_conflicts (conflicts s ∖ {[ h ]}) s.
Proof.
  intros Hh' Hh Hne. unfold remove_from_conflict_set.
  destruct (Nat.leb_spec (size (conflicts s)) 1) as [Hle|]; [|done].
  assert (size ({[ h; h' ]} : gset bytes) ≤ size (conflicts s)) as Hs.
  { apply subseteq_size. set_solver. }
  rewrite size_union, !size_singleton in Hs by set_solver. lia.
Qed.

Lemma wf_conflicts_sym G h s h' s' :
  cg_wf G → cg_cs G !! h = Some s → cg_cs G !! h' = Some s' →
  h' ∈ conflicts s ↔ h ∈ conflicts s'.
Proof.
  intros Hwf Hs Hs'. rewrite (cgw_conflicts G Hwf h s h' Hs), (cgw_conflicts G Hwf h' s' h Hs').
  split; intros (c & c' & ? & ? & [->|?%double_spend_sym]); exists c', c; auto.
Qed.

Lemma wf_conflicts_dom G h s : cg_wf G → cg_cs G !! h = Some s → conflicts s ⊆ dom (cg_cs G).
Proof.
  intros Hwf Hs h' Hh'. rewrite (cgw_dom G Hwf).
  apply (cgw_conflicts G Hwf h s h' Hs) in Hh' as (c & c' & _ & Hc' & _).
  by eapply elem_of_dom_2.
Qed.

(** The loop of [remove_cell] over the conflict set. *)
Lemma unconflict_loop h s G :
  conflicts s ⊆ dom (cg_cs G) →
  foreach (iter_set (conflicts s)) (λ ch,
    if decide (h = ch) then mret tt
    else modify (λ G,
      match cg_cs G !! ch with
      | Some cset => set_cs (<[ch := remove_from_conflict_set h cset]> (cg_cs G)) G
      | None => G
      end)) G =
  (set_cs (update_on (iter_set (conflicts s)) (λ k cset,
     if decide (h = k) then cset else remove_from_conflict_set h cset) (cg_cs G)) G,
   @Ok GraphError.Error _ tt).
Proof.
  intros Hdom. apply (foreach_update_on cg_cs set_cs (λ k cset,
    if decide (h = k) then cset else remove_from_conflict_set h cset));
    [done|done|by intros []|apply NoDup_iter_set|..].
  - intros k Hk%elem_of_iter_set. apply elem_of_dom. set_solver.
  - intros k t v _ Hv. destruct (decide (h = k)) as [->|].
    + rewrite insert_id by done. destruct t. done.
    + unfold modify. by rewrite Hv.
Qed.

Lemma remove_from_vertices_spec G h c :
  cells G !! h = Some c → hash c = h →
  consumed_ids c ⊆ dom (vertices G) → produced_ids c ⊆ dom (vertices G) →
  remove_from_vertices h G =
    (set_vertices (update_on (iter_set (consumed_ids c)) (λ _, remove_spender h)
       (update_on (iter_set (produced_ids c)) (λ _, set_status Rejected) (vertices G))) G,
     Ok tt).
Proof.
  intros Hc <- Hcon Hpro. unfold remove_from_vertices.
  rewrite (reads_bind_Ok _ _ _ c) by (by rewrite Hc).
  unfold lift_cell. rewrite from_outputs_Ok, from_inputs_Ok.
  erewrite st_bind_Ok; [|done]. erewrite st_bind_Ok; [|done].
  erewrite st_bind_Ok; [|by apply vertex_loop].
  rewrite vertex_loop; [done|]. cbn. by rewrite dom_update_on.
Qed.

Lemma remove_cell_spec G h c :
  cg_wf G → cells G !! h = Some c →
  ∃ G', remove_cell h G = (G', Ok tt) ∧ cell_removed G h c G'.
Proof.
  intros Hwf Hc. destruct (wf_cs_Some G h c Hwf Hc) as [s Hs].
  eexists. split.
  - unfold remove_cell. rewrite gets_bind. unfold conflicting_cells at 1. rewrite Hs.
    erewrite st_bind_Ok; [|apply (remove_from_vertices_spec G h c); eauto using cgw_hash,
      cgw_consumed, cgw_produced].
    erewrite st_bind_Ok; [|apply unconflict_loop; exact (wf_conflicts_dom G h s Hwf Hs)].
    rewrite !modify_bind. done.
  - split; cbn.
    + done.
    + done.
    + intros i. rewrite !lookup_update_on_iter, <- option_fmap_compose.
      destruct (vertices G !! i) as [v|] eqn:Hv; cbn; [|done]. f_equal.
      destruct v as [sp stt]. unfold remove_spender, set_status, id.
      case_decide as Hcon; case_decide; cbn; try done; f_equal.
      * assert (h ∉ sp); [|set_solver].
        intros Hin. apply (cgw_spenders G Hwf i _ h Hv) in Hin as (c' & ? & ?). naive_solver.
      * assert (h ∉ sp); [|set_solver].
        intros Hin. apply (cgw_spenders G Hwf i _ h Hv) in Hin as (c' & ? & ?). naive_solver.
    + intros h'. case_decide as Hh'; [subst; by rewrite lookup_delete_eq|].
      rewrite lookup_delete_ne, lookup_update_on_iter by done.
      destruct (cg_cs G !! h') as [s'|] eqn:Hs'; cbn; [|done]. f_equal.
      pose proof (wf_conflicts_sym G h s h' s' Hwf Hs Hs') as Hsym.
      case_decide as Hin; rewrite Hsym in Hin.
      * rewrite decide_False by done.
        apply remove_from_conflict_set_spec with (h':=h'); [by eapply wf_self_conflict|done..].
      * destruct s'. unfold set_conflicts. cbn in *. f_equal. set_solver.
Qed.

Lemma cell_removed_wf G h c G' : cg_wf G → cell_removed G h c G' → cg_wf G'.
Proof.
  intros Hwf [Hcells Hord Hvert Hcs].
  assert (dom (vertices G') = dom (vertices G)) as Hvd.
  { apply set_eq. intros id. by rewrite !elem_of_dom, Hvert, fmap_is_Some. }
  split.
  - intros h' c'. rewrite Hcells, lookup_delete_Some. intros [_ ?]. by apply Hwf.
  - apply set_eq. intros h'. rewrite Hcells, dom_delete_L, elem_of_difference.
    rewrite <- (cgw_dom G Hwf), !elem_of_dom, Hcs, elem_of_singleton.
    case_decide; [|rewrite fmap_is_Some]; naive_solver.
  - rewrite Hord. apply NoDup_filter, Hwf.
  - intros h'. rewrite Hord, list_elem_of_filter, (cgw_order G Hwf), Hcells, dom_delete_L.
    set_solver.
  - intros h' c'. rewrite Hcells, Hvd, lookup_delete_Some. intros [_ ?].
    by eapply cgw_consumed.
  - intros h' c'. rewrite Hcells, Hvd, lookup_delete_Some. intros [_ ?].
    by eapply cgw_produced.
  - intros id v h'. rewrite Hvert, Hcells. intros (v0 & Hv0 & ->)%fmap_Some. cbn.
    rewrite elem_of_difference, (cgw_spenders G Hwf id v0 h' Hv0), elem_of_singleton.
    setoid_rewrite lookup_delete_Some. naive_solver.
  - intros h' s h''. rewrite Hcs, Hcells. case_decide; [done|].
    intros (s0 & Hs0 & ->)%fmap_Some. cbn.
    rewrite elem_of_difference, (cgw_conflicts G Hwf h' s0 h'' Hs0), elem_of_singleton.
    setoid_rewrite lookup_delete_Some. naive_solver.
  - intros h' s. rewrite Hcs. case_decide; [done|]. intros (s0 & Hs0 & ->)%fmap_Some.
    cbn. by eapply cgw_cnt.
Qed.

(** *** Changes that keep the structure *)

(** The status of an output is not part of the invariant. *)
Lemma set_vertices_wf V G :
  cg_wf G → (∀ id, spenders <$> V !! id = spenders <$> vertices G !! id) →
  cg_wf (set_vertices V G).
Proof.
  intros Hwf HV.
  assert (dom V = dom (vertices G)) as Hd.
  { apply set_eq. intros id. rewrite !elem_of_dom.
    by rewrite <- (fmap_is_Some spenders), HV, fmap_is_Some. }
  split; cbn; rewrite ?Hd; try apply Hwf. intros id v h Hv. specialize (HV id).
  rewrite Hv in HV. cbn in HV. symmetry in HV. apply fmap_Some in HV as (v0 & Hv0 & ->).
  by apply Hwf.
Qed.

(** A conflict set may be replaced by one with the same elements. *)
Lemma set_cset_wf G h s s' :
  cg_wf G → cg_cs G !! h = Some s → conflicts s' = conflicts s →
  (0 ≤ cnt s' ≤ BETA2)%Z → cg_wf (set_cs (<[h := s']> (cg_cs G)) G).
Proof.
  intros Hwf Hs Hc Hcnt. split; cbn; try apply Hwf.
  - rewrite dom_insert_L, <- (cgw_dom G Hwf). apply elem_of_dom_2 in Hs. set_solver.
  - intros h0 s0 h'. destruct (decide (h = h0)) as [<-|].
    + rewrite lookup_insert_eq. intros [= <-]. rewrite Hc. by apply Hwf.
    + rewrite lookup_insert_ne by done. apply Hwf.
  - intros h0 s0. destruct (decide (h = h0)) as [<-|].
    + rewrite lookup_insert_eq. by intros [= <-].
    + rewrite lookup_insert_ne by done. apply Hwf.
Qed.

(** *** Accepting a cell *)

Lemma accept_loop G h s :
  cg_wf G → cg_cs G !! h = Some s →
  ∃ G', foreach (iter_set (conflicts s))
      (λ ch, if decide (h = ch) then mret tt else remove_cell ch) G = (G', Ok tt) ∧
    cg_wf G' ∧
    (∀ k, cells G' !! k = if decide (k ∈ conflicts s ∧ k ≠ h) then None else cells G !! k).
Proof.
  intros Hwf Hs.
  destruct (foreach_inv (λ pre Gt, cg_wf Gt ∧ ∀ k, cells Gt !! k =
    if decide (k ∈ pre ∧ k ≠ h) then None else cells G !! k) (iter_set (conflicts s))
    (λ ch, if decide (h = ch) then mret tt else remove_cell ch) G) as (G' & Hf & HwfG' & Hc).
  - split; [done|]. intros k. by rewrite decide_False by set_solver.
  - intros pre x post G0 Hl [Hwf0 Hc0].
    destruct (decide (h = x)) as [<-|Hne].
    + exists G0. split_and!; [done..|]. intros k. rewrite Hc0. apply decide_ext. set_solver.
    + assert (x ∉ pre) as Hx.
      { pose proof (NoDup_iter_set (conflicts s)) as Hnd. rewrite Hl in Hnd.
        apply NoDup_app in Hnd as (_ & Hd & _). intros Hin. apply (Hd x Hin). set_solver. }
      assert (x ∈ conflicts s) as Hxs.
      { apply elem_of_iter_set. rewrite Hl. set_solver. }
      apply (cgw_conflicts G Hwf h s x Hs) in Hxs as (c & cx & _ & Hcx & _).
      assert (cells G0 !! x = Some cx) as Hcx0 by (by rewrite Hc0, decide_False by naive_solver).
      destruct (remove_cell_spec G0 x cx Hwf0 Hcx0) as (G1 & Hr & Hrm).
      exists G1. split_and!; [done|by eapply cell_removed_wf|].
      intros k. rewrite (crm_cells _ _ _ _ Hrm). destruct (decide (x = k)) as [<-|].
      * rewrite lookup_delete_eq, decide_True by set_solver. done.
      * rewrite lookup_delete_ne, Hc0 by done. apply decide_ext. set_solver.
  - exists G'. split_and!; [done..|]. intros k. rewrite Hc. apply decide_ext.
    by rewrite elem_of_iter_set.
Qed.

Lemma accept_cell_spec G c :
  cg_wf G → cells G !! hash c = Some c →
  ∃ G' s l, accept_cell c G = (G', Ok l) ∧ cg_wf G' ∧
    cg_cs G !! hash c = Some s ∧
    cg_cs G' !! hash c = Some (set_cnt (cnt s) (conflict_set_new (hash c))) ∧
    l ≡ₚ elements (conflicts s ∖ {[ hash c ]}) ∧
    (∀ k, cells G' !! k = if decide (k ∈ l) then None else cells G !! k).
Proof.
  intros Hwf Hc. destruct (wf_cs_Some G _ c Hwf Hc) as [s Hs].
  set (G1 := set_vertices
    (update_on (iter_set (produced_ids c)) (λ _, set_status Accepted) (vertices G)) G).
  assert (cg_wf G1) as Hwf1.
  { apply set_vertices_wf; [done|]. intros id. rewrite lookup_update_on.
    destruct (vertices G !! id); cbn; [|done]. by destruct (decide (id ∈ _)). }
  destruct (accept_loop G1 (hash c) s Hwf1 Hs) as (G2 & Hloop & Hwf2 & Hc2).
  set (l := filter (λ h', h' ≠ hash c) (iter_set (conflicts s))).
  assert (∀ k, k ∈ l ↔ k ∈ conflicts s ∧ k ≠ hash c) as Hl.
  { intros k. unfold l. rewrite list_elem_of_filter, elem_of_iter_set. naive_solver. }
  assert (∀ k, cells G2 !! k = if decide (k ∈ l) then None else cells G !! k) as Hcl.
  { intros k. rewrite Hc2. apply decide_ext. by rewrite Hl. }
  assert (cells G2 !! hash c = Some c) as Hcc by (by rewrite Hcl, decide_False by naive_solver).
  eexists _, s, l. split_and!; [| |done|..].
  - unfold accept_cell, lift_cell. rewrite from_outputs_Ok.
    erewrite st_bind_Ok; [|done].
    erewrite st_bind_Ok; [|apply vertex_loop; by eapply cgw_produced].
    fold G1. rewrite gets_bind. unfold conflicting_cells at 1. cbn [cg_cs G1 set_vertices].
    rewrite Hs. erewrite st_bind_Ok; [|exact Hloop]. rewrite modify_bind. reflexivity.
  - destruct (wf_cs_Some G2 _ c Hwf2 Hcc) as [s2 Hs2].
    eapply set_cset_wf; [done|done| |exact (cgw_cnt G Hwf _ s Hs)].
    cbn. apply set_eq. intros k. rewrite elem_of_singleton.
    rewrite (cgw_conflicts G2 Hwf2 _ s2 k Hs2). split.
    + intros ->. exists c, c. auto.
    + intros (c1 & ck & Hc1 & Hck & [<-|Hds]); [done|]. simplify_eq.
      rewrite Hcl in Hck. case_decide as Hkl; [done|]. rewrite Hl in Hkl.
      destruct (decide (k = hash c)) as [|Hne]; [done|]. exfalso. apply Hkl. split; [|done].
      apply (cgw_conflicts G Hwf _ s k Hs). exists c, ck. auto.
  - cbn. by rewrite lookup_insert_eq.
  - apply NoDup_Permutation.
    + apply NoDup_filter, NoDup_iter_set.
    + apply NoDup_elements.
    + intros k. rewrite Hl, elem_of_elements. set_solver.
  - exact Hcl.
Qed.

(** *** Inserting a cell *)

(** A new cell whose inputs are known outputs and whose outputs nobody spends. *)
Definition cell_insertable G c : Prop :=
  cells G !! hash c = None ∧ consumed_ids c ⊆ dom (vertices G) ∧
  (∀ id v, vertices G !! id = Some v → id ∈ produced_ids c → spenders v = ∅) ∧
  produced_ids c ## consumed_ids c.

(** The cells that [c] conflicts with. *)
Definition conflicts_of G c (confl : gset CellHash) : Prop :=
  ∀ h, h ∈ confl ↔ ∃ c', cells G !! h = Some c' ∧ double_spend c c'.

(** The conflict set a new cell starts with: it takes over the preference, the
    last vote and the confidence of the conflict inserted first. *)
Definition own_set G c (confl : gset CellHash) (own : ConflictSet CellHash) : Prop :=
  conflicts own = {[ hash c ]} ∪ confl ∧
  ((confl = ∅ ∧ own = conflict_set_new (hash c)) ∨
   ∃ i f s, list_find (λ h, h ∈ confl) (insertion_order G) = Some (i, f) ∧
     cg_cs G !! f = Some s ∧ pref own = pref s ∧ last own = last s ∧ cnt own = cnt s).

Record cell_inserted G c confl own G' : Prop := {
  cin_cells : cells G' = <[hash c := c]> (cells G);
  cin_order : insertion_order G' = insertion_order G ++ [hash c];
  cin_vertices : vertices G' = insert_all (mkVertexData ∅ Pending) (iter_set (produced_ids c))
    (update_on (iter_set (consumed_ids c)) (λ _, add_spender (hash c)) (vertices G));
  cin_cs : cg_cs G' = <[hash c := own]> (update_on (iter_set confl)
    (λ _ s, set_conflicts (conflicts s ∪ {[ hash c ]}) s) (cg_cs G))
}.

Lemma find_first_conflict G h confl :
  cg_wf G → confl ⊆ dom (cells G) → confl ≠ ∅ →
  ∃ i f, list_find (λ h, h ∈ confl) (insertion_order G) = Some (i, f) ∧
    list_find (λ h, h ∈ confl) (insertion_order G ++ [h]) = Some (i, f) ∧ f ∈ confl.
Proof.
  intros Hwf Hsub [x Hx]%set_choose_L.
  destruct (list_find_elem_of (λ h, h ∈ confl) (insertion_order G) x) as [[i f] Hf].
  - apply (cgw_order G Hwf). set_solver.
  - done.
  - exists i, f. split_and!; [done|by apply list_find_app_l|].
    by apply list_find_Some in Hf as (_ & ? & _).
Qed.

Lemma conflicts_of_spenders G c confl :
  cg_wf G → consumed_ids c ⊆ dom (vertices G) →
  (∀ x, x ∈ confl ↔
    ∃ id v, id ∈ consumed_ids c ∧ vertices G !! id = Some v ∧ x ∈ spenders v) →
  conflicts_of G c confl.
Proof.
  intros Hwf Hcon Hconfl x. rewrite Hconfl. unfold double_spend. split.
  - intros (id & v & Hid & Hv & Hx). apply (cgw_spenders G Hwf id v x Hv) in Hx. naive_solver.
  - intros (c' & Hc' & id & Hid & Hid').
    assert (id ∈ dom (vertices G)) as [v Hv]%elem_of_dom by set_solver.
    exists id, v. split_and!; [done..|]. apply (cgw_spenders G Hwf id v x Hv). eauto.
Qed.

Lemma inherit_spec G c confl Gt :
  cg_wf G → confl ⊆ dom (cells G) →
  insertion_order Gt = insertion_order G ++ [hash c] →
  cg_cs Gt = update_on (iter_set confl)
    (λ _ s, set_conflicts (conflicts s ∪ {[ hash c ]}) s) (cg_cs G) →
  ∃ own, inherit confl
      (set_conflicts ({[ hash c ]} ∪ confl) (conflict_set_new (hash c))) Gt = (Gt, Ok own) ∧
    own_set G c confl own.
Proof.
  intros Hwf Hsub Hord Hcs. unfold inherit.
  destruct (Nat.ltb_spec 0 (size confl)) as [Hpos|Hz].
  - destruct (find_first_conflict G (hash c) confl Hwf Hsub) as (i & f & Hf & Hf' & Hin).
    { intros ->. rewrite size_empty in Hpos; lia. }
    assert (f ∈ dom (cg_cs G)) as [s Hs]%elem_of_dom by (rewrite (cgw_dom G Hwf); set_solver).
    eexists. split.
    + erewrite reads_bind_Ok; [|rewrite Hord; by rewrite Hf'].
      erewrite reads_bind_Ok; [reflexivity|]. cbn.
      rewrite Hcs, lookup_update_on_iter, Hs, decide_True by done. reflexivity.
    + split; [done|]. right. exists i, f, s. done.
  - assert (confl = ∅) as ->. { apply leibniz_equiv, size_empty_iff. lia. }
    eexists. split; [done|]. split; [done|]. left. split; [done|].
    unfold set_conflicts, conflict_set_new. cbn. f_equal. set_solver.
Qed.

(** A new cell with known inputs is inserted, whatever becomes of its outputs. *)
Lemma insert_cell_Ok G c :
  cg_wf G → cells G !! hash c = None → consumed_ids c ⊆ dom (vertices G) →
  ∃ G' confl own, insert_cell c G = (G', Ok tt) ∧ conflicts_of G c confl ∧
    own_set G c confl own ∧ cell_inserted G c confl own G'.
Proof.
  intros Hwf Hnew Hcon. set (h := hash c).
  set (G1 := set_cells (<[h := c]> (cells G)) G).
  destruct (spend_loop h (consumed_ids c) G1 Hcon) as (confl & Hspend & Hconfl).
  set (V1 := update_on (iter_set (consumed_ids c)) (λ _, add_spender h) (vertices G)) in *.
  set (V2 := insert_all (mkVertexData ∅ Pending) (iter_set (produced_ids c)) V1).
  set (G2 := mkConflictGraph V2 (<[h := c]> (cells G)) (cg_cs G) (insertion_order G ++ [h])).
  assert (conflicts_of G c confl) as Hco.
  { by apply conflicts_of_spenders. }
  assert (confl ⊆ dom (cells G)) as Hsub.
  { intros x (c' & Hc' & _)%Hco. by eapply elem_of_dom_2. }
  set (cs2 := update_on (iter_set confl)
    (λ _ s, set_conflicts (conflicts s ∪ {[ h ]}) s) (cg_cs G)).
  set (G3 := set_cs cs2 G2).
  destruct (inherit_spec G c confl G3 Hwf Hsub) as (own & Hinh & Hown); [done|done|].
  exists (set_cs (<[h := own]> cs2) G3), confl, own. split_and!; [|done..].
  unfold insert_cell, lift_cell. rewrite from_inputs_Ok, from_outputs_Ok. fold h.
  rewrite (st_bind_Ok _ _ _ G1 tt); [|unfold cells_insert; fold h in Hnew; by rewrite Hnew].
  erewrite st_bind_Ok; [|done]. erewrite st_bind_Ok; [|done].
  erewrite st_bind_Ok; [|exact Hspend].
  erewrite st_bind_Ok; [|apply produce_loop]. rewrite modify_bind.
  erewrite st_bind_Ok; [|apply conflict_loop; cbn; by rewrite (cgw_dom G Hwf)].
  erewrite st_bind_Ok; [|exact Hinh]. done.
Qed.

Lemma insert_cell_spec G c :
  cg_wf G → cell_insertable G c →
  ∃ G' confl own, insert_cell c G = (G', Ok tt) ∧ conflicts_of G c confl ∧
    own_set G c confl own ∧ cell_inserted G c confl own G'.
Proof. intros Hwf (Hnew & Hcon & _). by apply insert_cell_Ok. Qed.

(** The two refusals: a cell that is there already, and a cell with an input
    that the graph does not know.  Both come after [cells] was written. *)
Lemma insert_cell_duplicate G c :
  hash c ∈ dom (cells G) →
  insert_cell c G =
    (set_cells (<[hash c := c]> (cells G)) G, Err GraphError.DuplicateCell).
Proof.
  intros [c' Hc]%elem_of_dom. unfold insert_cell. unfold mbind at 1, st_bind at 1.
  unfold cells_insert. by rewrite Hc.
Qed.

Lemma spend_unknown h l confl G :
  (∃ id, id ∈ l ∧ id ∉ dom (vertices G)) →
  ∃ G', for_acc l (spend_input h) confl G = (G', Err GraphError.UndefinedCell) ∧
    cells G' = cells G ∧ cg_cs G' = cg_cs G ∧ insertion_order G' = insertion_order G.
Proof.
  revert confl G. induction l as [|x l IH]; intros confl G (id & Hid & Hn); [set_solver|].
  cbn [for_acc]. unfold mbind, st_bind, spend_input at 1.
  destruct (vertices G !! x) as [v|] eqn:Hv; [|eauto].
  destruct (IH (confl ∪ spenders v)
    (set_vertices (<[x := add_spender h v]> (vertices G)) G)) as (G' & ? & ? & ? & ?);
    [|by exists G'].
  exists id. cbn. rewrite dom_insert_L. apply elem_of_dom_2 in Hv. set_solver.
Qed.

Lemma insert_cell_unknown G c :
  cells G !! hash c = None → ~ consumed_ids c ⊆ dom (vertices G) →
  ∃ G', insert_cell c G = (G', Err GraphError.UndefinedCell) ∧
    cells G' = <[hash c := c]> (cells G) ∧ cg_cs G' = cg_cs G ∧
    insertion_order G' = insertion_order G.
Proof.
  intros Hnew Hsub.
  destruct (spend_unknown (hash c) (iter_set (consumed_ids c)) ∅
    (set_cells (<[hash c := c]> (cells G)) G)) as (G' & Hf & HcG & HsG & HoG).
  { destruct (decide (consumed_ids c ∖ dom (vertices G) = ∅)) as [He|[id Hid]%set_choose_L].
    - exfalso. apply Hsub. intros id Hid.
      destruct (decide (id ∈ dom (vertices G))); [done|set_solver].
    - exists id. rewrite elem_of_iter_set. cbn. set_solver. }
  exists G'. split_and!; [|done..].
  unfold insert_cell, lift_cell. rewrite from_inputs_Ok, from_outputs_Ok.
  erewrite st_bind_Ok; [|unfold cells_insert; by rewrite Hnew].
  erewrite st_bind_Ok; [|done]. erewrite st_bind_Ok; [|done].
  by erewrite st_bind_Err; [|exact Hf].
Qed.

Lemma cell_inserted_vertices G c confl own G' id v :
  cg_wf G → cell_insertable G c → cell_inserted G c confl own G' →
  vertices G' !! id = Some v →
  ∀ h, h ∈ spenders v ↔ ∃ c', cells G' !! h = Some c' ∧ id ∈ consumed_ids c'.
Proof.
  intros Hwf (Hnew & Hcon & Hpro & Hdisj) [Hcells _ HV _] Hv h. rewrite Hcells.
  rewrite HV, lookup_insert_all_iter, lookup_update_on_iter in Hv.
  setoid_rewrite lookup_insert_Some. case_decide as Hid.
  - simplify_eq. cbn. split; [set_solver|].
    intros (c' & [[<- <-]|[_ Hc']] & Hin); [set_solver|].
    assert (id ∈ dom (vertices G)) as [v Hv]%elem_of_dom
      by (by apply (cgw_consumed G Hwf h c')).
    pose proof (Hpro id v Hv Hid) as Hemp.
    assert (h ∈ spenders v) by (apply (cgw_spenders G Hwf id v h Hv); eauto). set_solver.
  - apply fmap_Some in Hv as (v0 & Hv0 & ->).
    pose proof (cgw_spenders G Hwf id v0 h Hv0) as Hsp.
    assert (hash c ∉ spenders v0) as Hfresh.
    { intros Hin. apply (cgw_spenders G Hwf id v0 _ Hv0) in Hin as (? & ? & _). congruence. }
    case_decide as Hidc; cbn; [rewrite elem_of_union, elem_of_singleton|]; rewrite Hsp.
    + split; [intros [(c' & ? & ?)| ->]|]; [exists c'; naive_solver|eauto|].
      intros (c' & [[<- <-]|[? ?]] & ?); eauto.
    + split; [intros (c' & ? & ?); exists c'; naive_solver|].
      intros (c' & [[<- <-]|[? ?]] & ?); [done|eauto].
Qed.

Lemma cell_inserted_conflicts G c confl own G' h s h' :
  cg_wf G → cell_insertable G c → conflicts_of G c confl → own_set G c confl own →
  cell_inserted G c confl own G' → cg_cs G' !! h = Some s →
  h' ∈ conflicts s ↔ ∃ d d', cells G' !! h = Some d ∧ cells G' !! h' = Some d' ∧
    (h = h' ∨ double_spend d d').
Proof.
  intros Hwf (Hnew & _) Hco [Hown _] [Hcells _ _ Hcs] Hs. rewrite Hcells.
  rewrite Hcs, lookup_insert_Some in Hs. setoid_rewrite lookup_insert_Some.
  destruct Hs as [[<- <-]|[Hne Hs]].
  - rewrite Hown, elem_of_union, elem_of_singleton, (Hco h'). split.
    + intros [->|(c' & Hc' & Hds)]; [exists c, c; auto|].
      exists c, c'. split_and!; [auto| |auto]. right. split; [congruence|done].
    + intros (d & d' & [[_ <-]|[? _]] & Hd' & Hor); [|done].
      destruct Hd' as [[<- _]|[_ Hd']]; [by left|].
      destruct Hor as [<-|?]; [by left|eauto].
  - rewrite lookup_update_on_iter in Hs. apply fmap_Some in Hs as (s0 & Hs0 & ->).
    destruct (wf_cells_Some G h s0 Hwf Hs0) as [ch Hch].
    pose proof (cgw_conflicts G Hwf h s0 h' Hs0) as Hc0.
    assert (h ∈ confl ↔ double_spend ch c) as Hin.
    { rewrite (Hco h). split; [intros (? & ? & ?%double_spend_sym); congruence|].
      intros ?%double_spend_sym. eauto. }
    assert (hash c ∉ conflicts s0) as Hfresh.
    { intros (? & ? & ? & ? & _)%(cgw_conflicts G Hwf h s0 _ Hs0). congruence. }
    destruct (decide (h' = hash c)) as [->|Hne'].
    + assert (hash c ∈ conflicts ((if decide (h ∈ confl) then
        (λ s, set_conflicts (conflicts s ∪ {[hash c]}) s) else Datatypes.id) s0) ↔ h ∈ confl) as ->.
      { case_decide; cbn; set_solver. }
      rewrite Hin. split; [intros; exists ch, c; naive_solver|].
      intros (d & d' & [[? _]|[_ ?]] & [[_ <-]|[? _]] & [?|?]); congruence.
    + assert (h' ∈ conflicts ((if decide (h ∈ confl) then
        (λ s, set_conflicts (conflicts s ∪ {[hash c]}) s) else Datatypes.id) s0)
        ↔ h' ∈ conflicts s0) as ->.
      { case_decide; cbn; set_solver. }
      rewrite Hc0. split; intros (d & d' & ? & ? & ?); exists d, d'; naive_solver.
Qed.

Lemma cell_inserted_wf G c confl own G' :
  cg_wf G → cell_insertable G c → conflicts_of G c confl → own_set G c confl own →
  cell_inserted G c confl own G' → cg_wf G'.
Proof.
  intros Hwf Hins Hco Hown Hci. pose proof Hins as (Hnew & Hcon & _).
  pose proof Hci as [Hcells Hord HV Hcs].
  assert (dom (vertices G') = produced_ids c ∪ dom (vertices G)) as Hvd.
  { apply set_eq. intros id. rewrite elem_of_union, !elem_of_dom, HV.
    rewrite lookup_insert_all_iter, lookup_update_on_iter.
    case_decide; [|rewrite fmap_is_Some]; naive_solver. }
  split.
  - intros h d. rewrite Hcells, lookup_insert_Some. intros [[<- <-]|[_ ?]]; [done|].
    by apply Hwf.
  - by rewrite Hcs, Hcells, !dom_insert_L, dom_update_on, (cgw_dom G Hwf).
  - rewrite Hord. apply NoDup_app. split_and!; [apply Hwf| |apply NoDup_singleton].
    intros x Hx ->%list_elem_of_singleton. apply (cgw_order G Hwf), elem_of_dom in Hx.
    rewrite Hnew in Hx. by destruct Hx.
  - intros h. rewrite Hord, Hcells, elem_of_app, (cgw_order G Hwf), dom_insert_L. set_solver.
  - intros h d. rewrite Hcells, Hvd, lookup_insert_Some. intros [[_ <-]|[_ Hd]]; [set_solver|].
    pose proof (cgw_consumed G Hwf h d Hd). set_solver.
  - intros h d. rewrite Hcells, Hvd, lookup_insert_Some. intros [[_ <-]|[_ Hd]]; [set_solver|].
    pose proof (cgw_produced G Hwf h d Hd). set_solver.
  - intros id v h Hv. by eapply cell_inserted_vertices.
  - intros h s h' Hs. by eapply cell_inserted_conflicts.
  - intros h s. rewrite Hcs, lookup_insert_Some, lookup_update_on_iter.
    intros [[_ <-]|[_ (s0 & Hs0 & ->)%fmap_Some]].
    + destruct Hown as [_ [[_ ->]|(i & f & s0 & _ & Hf & _ & _ & ->)]];
        [cbn; unfold BETA2; lia|by eapply cgw_cnt].
    + apply (cgw_cnt G Hwf) in Hs0. by case_decide.
Qed.

(** *** Votes *)

Lemma cset_update_Ok h d1 d2 s :
  (0 ≤ cnt s ≤ BETA2)%Z →
  cset_update h d1 d2 s = Ok (mkConflictSet (conflicts s)
    (if (d2 <? d1)%Z then h else pref s) h
    (if bool_decide (h = last s) then Z.min BETA2 (cnt s + 1) else cnt s)).
Proof.
  intros Hcnt. unfold cset_update, BETA2 in *.
  assert (∀ b : bool, last (if b then set_pref h s else s) = last s) as -> by (by intros []).
  assert (∀ b : bool, cnt (if b then set_pref h s else s) = cnt s) as -> by (by intros []).
  destruct (bool_decide (h = last s)) eqn:Hb; cbn.
  - apply bool_decide_eq_true in Hb as ->.
    destruct (Z.ltb_spec (cnt s) 20).
    + unfold u_add. rewrite u_norm_in_range by (unfold in_range; lia). cbn.
      rewrite Z.min_r by lia. by destruct (d2 <? d1)%Z.
    + rewrite Z.min_l by lia. assert (cnt s = 20%Z) as Hc by lia.
      destruct s, (d2 <? d1)%Z; cbn in *; by subst.
  - by destruct (d2 <? d1)%Z.
Qed.

Lemma update_conflict_set_spec G h s d1 d2 :
  cg_wf G → cg_cs G !! h = Some s →
  update_conflict_set h d1 d2 G =
    (set_cs (<[h := mkConflictSet (conflicts s)
      (if (d2 <? d1)%Z then h else pref s) h
      (if bool_decide (h = last s) then Z.min BETA2 (cnt s + 1) else cnt s)]> (cg_cs G)) G,
     Ok tt).
Proof.
  intros Hwf Hs. unfold update_conflict_set.
  destruct (Nat.ltb_spec 0 (size (cg_cs G))) as [_|Hz].
  - rewrite Hs, cset_update_Ok; [done|by eapply cgw_cnt].
  - assert (size (cg_cs G) = 0) as Hemp%map_size_empty_inv by lia.
    by rewrite Hemp in Hs.
Qed.

Lemma update_conflict_set_wf G h s d1 d2 G' :
  cg_wf G → cg_cs G !! h = Some s → update_conflict_set h d1 d2 G = (G', Ok tt) →
  cg_wf G'.
Proof.
  intros Hwf Hs. rewrite (update_conflict_set_spec G h s) by done. intros [= <-].
  eapply set_cset_wf; [done|done|done|]. cbn. apply (cgw_cnt G Hwf) in Hs.
  unfold BETA2 in *. case_bool_decide; lia.
Qed.

Lemma reset_count_spec G h s :
  cg_wf G → cg_cs G !! h = Some s →
  reset_count h G = (set_cs (<[h := set_cnt 0 s]> (cg_cs G)) G, Ok tt) ∧
  cg_wf (set_cs (<[h := set_cnt 0 s]> (cg_cs G)) G).
Proof.
  intros Hwf Hs. unfold reset_count.
  destruct (Nat.ltb_spec 0 (size (cg_cs G))) as [_|Hz].
  - rewrite Hs. split; [done|]. eapply set_cset_wf; [done|done|done|].
    cbn. unfold BETA2. lia.
  - assert (size (cg_cs G) = 0) as Hemp%map_size_empty_inv by lia.
    by rewrite Hemp in Hs.
Qed.

(** *** New graphs *)

Lemma conflict_graph_new_wf genesis : cg_wf (conflict_graph_new genesis).
Proof.
  split; cbn; try done.
  - constructor.
  - intros h. split; [set_solver|]. rewrite dom_empty_L. set_solver.
  - intros id v h. rewrite lookup_insert_all_iter. case_decide; [|done].
    intros [= <-]. cbn. split; [set_solver|]. by intros (c & ? & _).
Qed.

Lemma conflict_graph_new_vertices genesis :
  dom (vertices (conflict_graph_new genesis)) = genesis.
Proof.
  apply set_eq. intros id. cbn. rewrite elem_of_dom, lookup_insert_all_iter.
  case_decide; split; try done. by intros [].
Qed.

Lemma append_wf ids G :
  cg_wf G → ∃ G', append ids G = (G', Ok tt) ∧ cg_wf G' ∧
    dom (vertices G') = ids ∪ dom (vertices G) ∧ cells G' = cells G.
Proof.
  intros Hwf. unfold append.
  destruct (foreach_inv (λ pre Gt, cg_wf Gt ∧
    dom (vertices Gt) = list_to_set pre ∪ dom (vertices G) ∧ cells Gt = cells G)
    (iter_set ids) (λ g G,
    match vertices G !! g with
    | None => (set_vertices (<[g := mkVertexData ∅ Accepted]> (vertices G)) G,
               @Ok GraphError.Error _ tt)
    | Some _ => (G, Ok tt)
    end) G) as (G' & Hf & HwfG' & Hd & Hc).
  - split_and!; [done|set_solver|done].
  - intros pre x post G0 _ (Hwf0 & Hd0 & Hc0). destruct (vertices G0 !! x) as [v|] eqn:Hv.
    + eexists. split_and!; [done..| |done]. rewrite Hd0, list_to_set_app_L.
      apply elem_of_dom_2 in Hv. set_solver.
    + eexists. split_and!; [done| | |done].
      * split; cbn; try apply Hwf0.
        -- intros h c Hcc. pose proof (cgw_consumed G0 Hwf0 h c Hcc). set_solver.
        -- intros h c Hcc. pose proof (cgw_produced G0 Hwf0 h c Hcc). set_solver.
        -- intros id v h. rewrite lookup_insert_Some. intros [[<- <-]|[_ ?]]; [|by apply Hwf0].
           cbn. split; [set_solver|]. intros (c & Hcc & Hin).
           apply (cgw_consumed G0 Hwf0 h c Hcc) in Hin. by apply not_elem_of_dom in Hv.
      * cbn. rewrite dom_insert_L, Hd0, list_to_set_app_L. set_solver.
  - exists G'. split_and!; [done|done| |done]. rewrite Hd. apply set_eq. intros id.
    by rewrite !elem_of_union, elem_of_list_to_set, elem_of_iter_set.
Qed.
End facts.

(** ** Properties *)
Section properties.
Context `{Crypto, IterOrder, BuildProfile}.
Implicit Types (G : ConflictGraph) (c : Cell) (h id : bytes).

(** C15: inserting a new cell with known inputs succeeds and keeps the graph
    exact: the new cell is in the conflict set of another one, and the other in
    its own, exactly when they spend a common output; without a conflict the
    cell prefers itself, otherwise it takes the preference and confidence of
    the conflicting cell that was inserted first. *)
Theorem conflict_graph_insert G c :
  cg_wf G → cell_insertable G c →
  ∃ G' own, insert_cell c G = (G', Ok tt) ∧ cg_wf G' ∧
    cells G' = <[hash c := c]> (cells G) ∧ cg_cs G' !! hash c = Some own ∧
    (∀ h, h ∈ conflicts own ↔
       h = hash c ∨ ∃ c', cells G !! h = Some c' ∧ double_spend c c') ∧
    (∀ h s s', cg_cs G !! h = Some s → cg_cs G' !! h = Some s' →
       pref s' = pref s ∧ cnt s' = cnt s ∧
       (hash c ∈ conflicts s' ↔ h ∈ conflicts own)) ∧
    (own = conflict_set_new (hash c) ∨
     ∃ i f s, insertion_order G !! i = Some f ∧ f ∈ conflicts own ∧
       (∀ j h, j < i → insertion_order G !! j = Some h → h ∉ conflicts own) ∧
       cg_cs G !! f = Some s ∧ pref own = pref s ∧ cnt own = cnt s).
Proof.
  intros Hwf Hins.
  destruct (insert_cell_spec G c Hwf Hins) as (G' & confl & own & Heq & Hco & Hown & Hci).
  assert (cg_wf G') as Hwf' by (by eapply cell_inserted_wf).
  assert (cg_cs G' !! hash c = Some own) as Hownc.
  { rewrite (cin_cs _ _ _ _ _ Hci). by rewrite lookup_insert_eq. }
  assert (∀ h, h ∈ conflicts own ↔ h = hash c ∨ h ∈ confl) as Hmem.
  { intros h. rewrite (proj1 Hown). set_solver. }
  exists G', own. split_and!; [done|done|apply Hci|done| | |].
  - intros h. by rewrite Hmem, (Hco h).
  - intros h s s' Hs Hs'.
    assert (h ≠ hash c) as Hne.
    { intros ->. destruct (wf_cells_Some G _ s Hwf Hs) as [? ?].
      destruct Hins as [? _]. congruence. }
    pose proof (wf_conflicts_sym G' _ _ _ _ Hwf' Hs' Hownc) as Hsym.
    rewrite (cin_cs _ _ _ _ _ Hci), lookup_insert_ne, lookup_update_on_iter, Hs in Hs' by done.
    split_and!; [..|done]; case_decide; cbn in Hs'; by simplify_eq.
  - destruct Hown as [_ [[_ ->]|(i & f & s & Hf & Hs & Hp & _ & Hc)]]; [by left|].
    right. exists i, f, s. apply list_find_Some in Hf as (Hi & Hin & Hbefore).
    split_and!; try done; [rewrite Hmem; auto|].
    intros j h Hlt Hj. rewrite Hmem. intros [->|Hin']; [|by eapply Hbefore].
    apply list_elem_of_lookup_2, (cgw_order G Hwf), elem_of_dom in Hj as [? ?].
    destruct Hins as [? _]. congruence.
Qed.

(** C16: accepting a cell of the graph returns exactly the other cells that
    spend one of its inputs and removes them: no cell that double spends an
    output of the accepted one is left, every other cell stays, and the
    accepted cell is alone in its conflict set, preferred, with its old
    confidence. *)
Theorem conflict_graph_accept G c :
  cg_wf G → cells G !! hash c = Some c →
  ∃ G' rejected s, accept_cell c G = (G', Ok rejected) ∧ cg_wf G' ∧ NoDup rejected ∧
    (∀ h, h ∈ rejected ↔
       h ≠ hash c ∧ ∃ c', cells G !! h = Some c' ∧ double_spend c c') ∧
    (∀ h, cells G' !! h = if decide (h ∈ rejected) then None else cells G !! h) ∧
    (∀ h c', cells G' !! h = Some c' → double_spend c c' → h = hash c) ∧
    cg_cs G !! hash c = Some s ∧
    cg_cs G' !! hash c = Some (mkConflictSet {[ hash c ]} (hash c) (hash c) (cnt s)).
Proof.
  intros Hwf Hc. destruct (accept_cell_spec G c Hwf Hc) as (G' & s & l & Heq & Hwf' & Hs & Hs' & Hl & Hcl).
  assert (∀ h, h ∈ l ↔ h ≠ hash c ∧ ∃ c', cells G !! h = Some c' ∧ double_spend c c') as Hmem.
  { intros h. rewrite Hl, elem_of_elements, elem_of_difference, elem_of_singleton.
    rewrite (cgw_conflicts G Hwf _ s h Hs). split.
    - intros [(c1 & c' & ? & ? & [<-|?]) ?]; [done|]. simplify_eq. eauto.
    - intros [? (c' & ? & ?)]. split; [|done]. exists c, c'. auto. }
  exists G', l, s. split_and!; try done.
  - rewrite Hl. apply NoDup_elements.
  - intros h c' Hc' Hds. rewrite Hcl in Hc'. case_decide as Hin; [done|].
    rewrite Hmem in Hin. destruct (decide (h = hash c)); [done|]. exfalso. eauto.
Qed.

(** Removing a cell keeps the graph exact: the cell leaves every conflict
    set and every list of spenders, its outputs are marked as rejected, and
    nothing else changes. *)
Theorem conflict_graph_remove G h c :
  cg_wf G → cells G !! h = Some c →
  ∃ G', remove_cell h G = (G', Ok tt) ∧ cg_wf G' ∧
    cells G' = delete h (cells G) ∧ cg_cs G' !! h = None ∧
    (∀ h' s, h' ≠ h → cg_cs G !! h' = Some s →
       cg_cs G' !! h' = Some (set_conflicts (conflicts s ∖ {[ h ]}) s)) ∧
    (∀ id v, vertices G !! id = Some v →
       vertices G' !! id = Some (mkVertexData (spenders v ∖ {[ h ]})
         (if decide (id ∈ produced_ids c) then Rejected else status v))).
Proof.
  intros Hwf Hc. destruct (remove_cell_spec G h c Hwf Hc) as (G' & Heq & Hrm).
  exists G'. split_and!; [done|by eapply cell_removed_wf|apply Hrm|..].
  - rewrite (crm_cs _ _ _ _ Hrm). by rewrite decide_True.
  - intros h' s Hne Hs. by rewrite (crm_cs _ _ _ _ Hrm), decide_False, Hs.
  - intros id v Hv. by rewrite (crm_vertices _ _ _ _ Hrm), Hv.
Qed.

(** A vote for a cell moves the preference to it exactly when its
    conviction is the larger one, counts towards the confidence only when the
    cell was also the last one voted for, and never lifts the confidence above
    [BETA2]; no other conflict set changes, and [reset_count] clears the
    counter. *)
Theorem conflict_graph_votes G h s d1 d2 :
  cg_wf G → cg_cs G !! h = Some s →
  ∃ G1 G2 s1, update_conflict_set h d1 d2 G = (G1, Ok tt) ∧ cg_wf G1 ∧
    cg_cs G1 = <[h := s1]> (cg_cs G) ∧
    conflicts s1 = conflicts s ∧ last s1 = h ∧
    (pref s1 = if (d2 <? d1)%Z then h else pref s) ∧
    (last s = h → cnt s1 = Z.min BETA2 (cnt s + 1)) ∧
    (last s ≠ h → cnt s1 = cnt s) ∧ (0 ≤ cnt s1 ≤ BETA2)%Z ∧
    reset_count h G = (G2, Ok tt) ∧ cg_wf G2 ∧
    cg_cs G2 = <[h := set_cnt 0 s]> (cg_cs G).
Proof.
  intros Hwf Hs. pose proof (update_conflict_set_spec G h s d1 d2 Hwf Hs) as Hu.
  pose proof (update_conflict_set_wf G h s d1 d2 _ Hwf Hs Hu) as Hwf1.
  destruct (reset_count_spec G h s Hwf Hs) as [Hr Hwf2].
  do 3 eexists. split; [exact Hu|]. split; [exact Hwf1|].
  cbn [cg_cs set_cs conflicts pref last cnt].
  split_and!; try done.
  - intros ->. by rewrite bool_decide_true.
  - intros ?. by rewrite bool_decide_false by congruence.
  - apply (cgw_cnt G Hwf) in Hs. unfold BETA2 in *. cbn [cnt]. case_bool_decide; lia.
  - apply (cgw_cnt G Hwf) in Hs. unfold BETA2 in *. cbn [cnt]. case_bool_decide; lia.
Qed.

(** A cell with an input that the graph does not know is refused only after
    it was stored: it stays in [cells] without a conflict set, and a later
    attempt to insert it, when the input has become known, is refused as a
    duplicate. *)
Theorem insert_unknown_input G c :
  cells G !! hash c = None → cg_cs G !! hash c = None →
  ~ consumed_ids c ⊆ dom (vertices G) →
  ∃ G', insert_cell c G = (G', Err GraphError.UndefinedCell) ∧
    cells G' !! hash c = Some c ∧ cg_cs G' !! hash c = None ∧
    (insert_cell c G').2 = Err GraphError.DuplicateCell.
Proof.
  intros Hnew Hcs Hsub.
  destruct (insert_cell_unknown G c Hnew Hsub) as (G' & Hf & HcG & HsG & _).
  assert (cells G' !! hash c = Some c) as HcG' by (by rewrite HcG, lookup_insert_eq).
  exists G'. split_and!; [done|done|by rewrite HsG|].
  by rewrite insert_cell_duplicate by (by eapply elem_of_dom_2).
Qed.
End properties.

(** ** Graphs built by insertion *)
Section built.
Context `{Crypto, IterOrder, BuildProfile}.

#[export] Instance cell_insertable_dec G c : Decision (cell_insertable G c).
Proof.
  unfold cell_insertable. apply and_dec; [apply _|]. apply and_dec; [apply _|].
  apply and_dec; [|apply _].
  change (Decision (map_Forall (λ id v, id ∈ produced_ids c → spenders v = ∅) (vertices G))).
  apply _.
Defined.

(** Insert the cells into [G], checking that each can be inserted. *)
Fixpoint conflict_graph_of G (l : list Cell) : option ConflictGraph :=
  match l with
  | [] => Some G
  | c :: l' =>
      if decide (cell_insertable G c) then conflict_graph_of (insert_cell c G).1 l' else None
  end.

Lemma conflict_graph_of_wf G l G' : cg_wf G → conflict_graph_of G l = Some G' → cg_wf G'.
Proof.
  revert G. induction l as [|c l IH]; intros G Hwf; cbn; [by intros [= <-]|].
  case_decide as Hins; [|done].
  destruct (insert_cell_spec G c Hwf Hins) as (G1 & confl & own & Heq & Hco & Hown & Hci).
  apply IH. rewrite Heq. by eapply cell_inserted_wf.
Qed.
End built.

(** *** Witnesses: two cells that spend the same genesis output, and a third one
    that spends another output *)
Section witnesses.
#[local] Existing Instance plain_crypto.
#[local] Existing Instance canonical_order.
#[local] Existing Instance release_profile.

Definition genesis_ids : CellIds := {[ out_id [7%Z] 0; out_id [7%Z] 1 ]}.
Definition cell_a : Cell := cell_new {[ spend [7%Z] 0 ]} [pay 10 [1%Z]].
Definition cell_b : Cell := cell_new {[ spend [7%Z] 0 ]} [pay 20 [2%Z]].
Definition cell_c : Cell := cell_new {[ spend [7%Z] 1 ]} [pay 30 [1%Z]].
Definition cg_example : ConflictGraph :=
  default (conflict_graph_new genesis_ids)
    (conflict_graph_of (conflict_graph_new genesis_ids) [cell_a; cell_c]).

Lemma cg_example_wf : cg_wf cg_example.
Proof.
  unfold cg_example.
  destruct (conflict_graph_of _ _) as [G|] eqn:HG; [|by apply conflict_graph_new_wf].
  eapply conflict_graph_of_wf; [|exact HG]. apply conflict_graph_new_wf.
Qed.

Lemma conflict_graph_insert_witness :
  ∃ G' own, insert_cell cell_b cg_example = (G', Ok tt) ∧
    cg_cs G' !! hash cell_b = Some own ∧
    (hash cell_a ∈ conflicts own ↔ hash cell_a = hash cell_b ∨
      ∃ c', cells cg_example !! hash cell_a = Some c' ∧ double_spend cell_b c').
Proof.
  destruct (conflict_graph_insert cg_example cell_b) as (G' & own & H1 & _ & _ & H2 & H3 & _).
  - exact cg_example_wf.
  - apply (bool_decide_unpack _). vm_compute. exact I.
  - exists G', own. split; [exact H1|]. split; [exact H2|]. apply H3.
Defined.

(** The graph with the double spend, and what accepting [cell_b] does to it. *)
Definition cg_conflict : ConflictGraph := (insert_cell cell_b cg_example).1.

Lemma cg_conflict_wf : cg_wf cg_conflict.
Proof.
  pose proof cg_example_wf as Hwf.
  assert (cell_insertable cg_example cell_b) as Hins.
  { apply (bool_decide_unpack _). vm_compute. exact I. }
  destruct (insert_cell_spec _ _ Hwf Hins) as (G1 & confl & own & Heq & Hco & Hown & Hci).
  unfold cg_conflict. rewrite Heq. by eapply cell_inserted_wf.
Qed.

Lemma conflict_graph_accept_witness :
  (accept_cell cell_b cg_conflict).2 = Ok [hash cell_a] ∧
  ∃ G' rejected, accept_cell cell_b cg_conflict = (G', Ok rejected) ∧ cg_wf G'.
Proof.
  split; [vm_compute; reflexivity|].
  destruct (conflict_graph_accept cg_conflict cell_b) as (G' & l & s & H1 & H2 & _).
  - exact cg_conflict_wf.
  - vm_compute. reflexivity.
  - exists G', l. split; [exact H1|exact H2].
Defined.

Lemma conflict_graph_remove_witness :
  ∃ G', remove_cell (hash cell_a) cg_conflict = (G', Ok tt) ∧ cg_wf G'.
Proof.
  destruct (conflict_graph_remove cg_conflict (hash cell_a) cell_a) as (G' & H1 & H2 & _).
  - exact cg_conflict_wf.
  - vm_compute. reflexivity.
  - exists G'. split; [exact H1|exact H2].
Defined.

Lemma conflict_graph_votes_witness :
  ∃ G1 s1, update_conflict_set (hash cell_b) 3 1 cg_conflict = (G1, Ok tt) ∧
    cg_cs G1 = <[hash cell_b := s1]> (cg_cs cg_conflict) ∧ pref s1 = hash cell_b.
Proof.
  destruct (cg_cs cg_conflict !! hash cell_b) as [s|] eqn:Hs;
    [|vm_compute in Hs; discriminate].
  destruct (conflict_graph_votes cg_conflict (hash cell_b) s 3 1)
    as (G1 & G2 & s1 & H1 & _ & H2 & _ & _ & H3 & _).
  - exact cg_conflict_wf.
  - exact Hs.
  - exists G1, s1. split; [exact H1|]. split; [exact H2|exact H3].
Defined.

(** [cell_d] spends an output of a cell that arrives only later. *)
Definition cell_d : Cell := cell_new {[ spend [9%Z] 0 ]} [pay 5 [1%Z]].

Lemma insert_unknown_input_witness :
  ∃ G', insert_cell cell_d cg_example = (G', Err GraphError.UndefinedCell) ∧
    (insert_cell cell_d G').2 = Err GraphError.DuplicateCell.
Proof.
  destruct (insert_unknown_input cg_example cell_d) as (G' & H1 & _ & _ & H2).
  - vm_compute. reflexivity.
  - vm_compute. reflexivity.
  - apply (bool_decide_unpack _). vm_compute. exact I.
  - exists G'. split; [exact H1|exact H2].
Defined.
End witnesses.
