(* ===== verification/Blocks.v ===== *)
(** * Blocks.v: blocks and the error types of alpha and hail
      (src/src/alpha/mod.rs, src/src/alpha/block.rs, src/src/hail/mod.rs,
      src/src/hail/block.rs, src/src/hail/vertex.rs) *)

From stdpp Require Import prelude gmap sets list strings countable.
From Stdlib Require Import ZArith Lia.
From S2P Require Import Prelude Orders Cell Dag.

(** An error of the database crate, by its description. *)
Abbreviation SledError := string (only parsing).

Abbreviation BlockHash := bytes (only parsing).
Abbreviation BlockHeight := Z (only parsing).
Abbreviation VrfOutput := bytes (only parsing).
Abbreviation TxHash := bytes (only parsing).

(** [alpha::Error] *)
Module AlphaError.
Inductive Error : Type :=
| ActixMailbox
| Sled (e : SledError)
| Hex (s : string)
| Bincode (s : string)
| Dalek (s : string)
| Cell (e : CellError.Error)
| Graph (e : GraphError.Error)
| BootstrapConsensus
| UnspendableCell
| ExceedsAvailableFunds
| ZeroTransfer
| ZeroStake
| InvalidCoinbase
| InvalidStake
| UndefinedCellIds
| ExistingCellIds
| ExceedsCapacity.
End AlphaError.

Record Block : Type := mkBlock {
  predecessor : option BlockHash;
  block_height : BlockHeight;
  vrf_out : VrfOutput;
  block_cells : list Cell
}.

#[export] Instance Block_eq_dec : EqDecision Block.
Proof. solve_decision. Defined.

(** [hail::Error] *)
Module HailError.
Inductive Error : Type :=
| ActixMailboxError
| Alpha (e : AlphaError.Error)
| Sled (e : SledError)
| Graph (e : GraphError.Error)
| InvalidBlock (b : Block)
| InvalidBlockHash (h : BlockHash)
| InvalidBlockHeight (h : BlockHeight)
| InvalidParent
| InvalidConflictSet
| InsufficientWeight
| EmptyDAG.
End HailError.

(** A vertex of the graph of hail. *)
Record Vertex : Type := mkVertex { vertex_height : BlockHeight; vertex_hash : BlockHash }.

#[export] Instance Vertex_eq_dec : EqDecision Vertex.
Proof. solve_decision. Defined.
#[export] Instance Vertex_countable : Countable Vertex.
Proof.
  refine (inj_countable' (λ v, (vertex_height v, vertex_hash v)) (λ p, mkVertex p.1 p.2) _).
  by intros [].
Defined.

Record HailBlock : Type := mkHailBlock { hb_parent : option Vertex; hb_block : Block }.

#[export] Instance HailBlock_eq_dec : EqDecision HailBlock.
Proof. solve_decision. Defined.

(** [bincode] on blocks. *)
Class BlockCodec : Type := {
  ser_block : Block → bytes;
  de_block : bytes → res string Block;
  ser_hail_block : HailBlock → bytes;
  de_hail_block : bytes → res string HailBlock
}.

Class BlockCodecLaws `{BlockCodec} : Prop := {
  de_ser_block : ∀ b, de_block (ser_block b) = Ok b;
  de_ser_hail_block : ∀ b, de_hail_block (ser_hail_block b) = Ok b
}.

Section block.
Context `{Crypto, BlockCodec}.

Definition block_new (p : BlockHash) (h : Z) (vrf : VrfOutput) (cs : list Cell) : Block :=
  mkBlock (Some p) h vrf cs.

(** [Block::hash] *)
Definition block_hash (b : Block) : res AlphaError.Error BlockHash :=
  let encoded := ser_block b in
  Ok (blake3 encoded).

Definition hail_block_height (b : HailBlock) : BlockHeight := block_height (hb_block b).
Definition hail_block_vrf_output (b : HailBlock) : VrfOutput := vrf_out (hb_block b).

Definition hail_block_hash (b : HailBlock) : res HailError.Error BlockHash :=
  map_err HailError.Alpha (block_hash (hb_block b)).

Definition hail_block_vertex (b : HailBlock) : res HailError.Error Vertex :=
  h ← hail_block_hash b;
  Ok (mkVertex (hail_block_height b) h).

(** The hash as a function: it cannot fail. *)
Definition block_id (b : Block) : BlockHash := blake3 (ser_block b).

Lemma block_hash_Ok b : block_hash b = Ok (block_id b).
Proof. done. Qed.

Lemma hail_block_hash_Ok b : hail_block_hash b = Ok (block_id (hb_block b)).
Proof. done. Qed.

(** The hash identifies a block. *)
Lemma block_id_inj `{!CryptoLaws, !BlockCodecLaws} b b' : block_id b = block_id b' → b = b'.
Proof.
  intros Heq%blake3_inj. apply (f_equal de_block) in Heq.
  rewrite !de_ser_block in Heq. by simplify_eq.
Qed.
End block.
