(* ===== verification/Storage.v ===== *)
(** * Storage.v: the storage layer over sled
      (src/src/storage/mod.rs, tx.rs, cell.rs, hail_block.rs)

    sled is code of another crate: [Sled] lists the operations the program calls
    and [SledLaws] what its documentation promises of them when no I/O error
    occurs.  The functions of the storage layer are translated on top of it;
    [TxStorage] shows that they implement a finite map of transactions. *)

From stdpp Require Import prelude gmap sets list strings.
From Stdlib Require Import ZArith Lia.
From S2P Require Import Prelude Orders Cell Dag Blocks.

(** [storage::Error] *)
Module StorageError.
Inductive Error : Type :=
| Bincode (s : string)
| Sled (e : SledError)
| Cell (e : CellError.Error)
| Alpha (e : AlphaError.Error)
| Hail (e : HailError.Error)
| InvalidGenesis
| UndefinedGenesis
| InvalidHeight
| InvalidPredecessor
| InvalidLast
| InvalidCell
| InvalidTx
| InvalidHailBlock.
End StorageError.

(** ** The database *)
Class Sled : Type := {
  Db : Type;
  sled_get : Db → bytes → res SledError (option bytes);
  sled_contains_key : Db → bytes → res SledError bool;
  sled_insert : bytes → bytes → st Db SledError (option bytes);
  sled_update_and_fetch :
    bytes → (option bytes → option bytes) → st Db SledError (option bytes);
  sled_first : Db → res SledError (option (bytes * bytes));
  sled_last : Db → res SledError (option (bytes * bytes));
  (** [db.range(start .. end)], the end excluded *)
  sled_range : Db → bytes → bytes → list (res SledError (bytes * bytes))
}.

(** A tree is a sorted map of byte strings. *)
Class SledLaws `{Sled} : Type := {
  sled_view : Db → gmap bytes bytes;
  sled_get_law : ∀ db k, sled_get db k = Ok (sled_view db !! k);
  sled_contains_key_law : ∀ db k,
    sled_contains_key db k = Ok (bool_decide (is_Some (sled_view db !! k)));
  sled_insert_law : ∀ db k v, ∃ db', sled_insert k v db = (db', Ok (sled_view db !! k)) ∧
    sled_view db' = <[k := v]> (sled_view db);
  sled_update_law : ∀ db k f, ∃ db',
    sled_update_and_fetch k f db = (db', Ok (f (sled_view db !! k))) ∧
    sled_view db' = partial_alter (λ _, f (sled_view db !! k)) k (sled_view db)
}.

(** ** Transactions (src/src/sleet/tx.rs) *)
Module TxStatus.
Inductive TxStatus : Type := Pending | Queried | Accepted | Rejected | Removed.

#[global] Instance TxStatus_eq_dec : EqDecision TxStatus.
Proof. solve_decision. Defined.
End TxStatus.

Record Tx : Type := mkTx {
  tx_parents : list TxHash;
  tx_cell : Cell;
  tx_status : TxStatus.TxStatus
}.

#[export] Instance Tx_eq_dec : EqDecision Tx.
Proof. solve_decision. Defined.

Definition tx_new (parents : list TxHash) (cell : Cell) : Tx :=
  mkTx parents cell TxStatus.Pending.

Definition tx_with_status (s : TxStatus.TxStatus) (tx : Tx) : Tx :=
  mkTx (tx_parents tx) (tx_cell tx) s.

(** [bincode] on transactions and cells. *)
Class TxCodec : Type := {
  ser_tx : Tx → bytes;
  de_tx : bytes → res string Tx;
  de_cell : bytes → res string Cell
}.

Section tx_storage.
Context `{Crypto, IterOrder, Sled, TxCodec}.

Definition tx_hash (tx : Tx) : TxHash := hash (tx_cell tx).

(** [bincode::deserialize(..)?] *)
Definition decode_tx (v : bytes) : res StorageError.Error Tx :=
  map_err StorageError.Bincode (de_tx v).

Definition is_known_tx (db : Db) (h : TxHash) : res StorageError.Error bool :=
  map_err StorageError.Sled (sled_contains_key db h).

Definition insert_tx (tx : Tx) : st Db StorageError.Error (option bytes) := λ db,
  let h := tx_hash tx in
  let encoded := ser_tx tx in
  let '(db', r) := sled_insert h encoded db in (db', map_err StorageError.Sled r).

Definition get_tx (db : Db) (h : TxHash) : res StorageError.Error (TxHash * Tx) :=
  r ← map_err StorageError.Sled (sled_get db h);
  match r with
  | Some v => tx ← decode_tx v; Ok (h, tx)
  | None => Err StorageError.InvalidTx
  end.

(** The common body of the three checks of the status. *)
Definition check_status (test : TxStatus.TxStatus → bool) (db : Db) (h : TxHash) :
    res StorageError.Error bool :=
  r ← map_err StorageError.Sled (sled_get db h);
  match r with
  | Some v => tx ← decode_tx v; Ok (test (tx_status tx))
  | None => Err StorageError.InvalidTx
  end.

Definition is_accepted_tx : Db → TxHash → res StorageError.Error bool :=
  check_status (λ s, bool_decide (s = TxStatus.Accepted)).

Definition is_removed_tx : Db → TxHash → res StorageError.Error bool :=
  check_status (λ s, bool_decide (s = TxStatus.Removed)).

Definition cannot_be_accepted : Db → TxHash → res StorageError.Error bool :=
  check_status (λ s, bool_decide (s = TxStatus.Removed) || bool_decide (s = TxStatus.Rejected)).

(** [update_and_fetch]: a value that does not decode is dropped. *)
Definition update_and_fetch (h : TxHash) (f : option Tx → option Tx) :
    st Db StorageError.Error Tx := λ db,
  let '(db', updated) := sled_update_and_fetch h (λ maybe_tx,
    match maybe_tx with
    | Some v => match de_tx v with Ok tx => ser_tx <$> f (Some tx) | _ => None end
    | None => ser_tx <$> f None
    end) db in
  (db', r ← map_err StorageError.Sled updated;
        match r with
        | Some v => decode_tx v
        | None => Err StorageError.InvalidTx
        end).

Definition set_status (h : TxHash) (status : TxStatus.TxStatus) :
    st Db StorageError.Error unit :=
  _ ← update_and_fetch h (λ tx, tx_with_status status <$> tx);
  mret tt.
End tx_storage.

(** ** Cells and hail blocks (src/src/storage/cell.rs, hail_block.rs) *)
Section block_storage.
Context `{Crypto, IterOrder, Sled, TxCodec, BlockCodec}.

Definition is_known_cell (db : Db) (h : CellHash) : res StorageError.Error bool :=
  map_err StorageError.Sled (sled_contains_key db h).

Definition storage_insert_cell (cell : Cell) : st Db StorageError.Error (option bytes) := λ db,
  let h := hash cell in
  let encoded := ser_cell (inputs_sorted (inputs cell)) (outputs cell) in
  let '(db', r) := sled_insert h encoded db in (db', map_err StorageError.Sled r).

Definition get_cell (db : Db) (h : CellHash) : res StorageError.Error (CellHash * Cell) :=
  r ← map_err StorageError.Sled (sled_get db h);
  match r with
  | Some v => c ← map_err StorageError.Bincode (de_cell v); Ok (h, c)
  | None => Err StorageError.InvalidCell
  end.

Definition is_known_hail_block (db : Db) (h : BlockHash) : res StorageError.Error bool :=
  map_err StorageError.Sled (sled_contains_key db h).

Definition insert_hail_block (b : HailBlock) : st Db StorageError.Error (option bytes) := λ db,
  match hail_block_hash b with
  | Ok h =>
      let encoded := ser_hail_block b in
      let '(db', r) := sled_insert h encoded db in (db', map_err StorageError.Sled r)
  | Err e => (db, Err (StorageError.Hail e))
  | Panic => (db, Panic)
  | OutOfFuel => (db, OutOfFuel)
  end.

Definition get_hail_block (db : Db) (h : BlockHash) :
    res StorageError.Error (BlockHash * HailBlock) :=
  r ← map_err StorageError.Sled (sled_get db h);
  match r with
  | Some v => b ← map_err StorageError.Bincode (de_hail_block v); Ok (h, b)
  | None => Err StorageError.InvalidHailBlock
  end.
End block_storage.

(** ** Refinement: the transaction storage is a finite map *)
Class TxCodecLaws `{TxCodec} : Prop := {
  de_ser_tx : ∀ tx, de_tx (ser_tx tx) = Ok tx
}.

Section tx_refinement.
Context `{Crypto, IterOrder, SL : SledLaws, TC : TxCodecLaws}.
Implicit Types (db : Db) (h : TxHash).

Definition decode_opt (v : bytes) : option Tx :=
  match de_tx v with Ok tx => Some tx | _ => None end.

(** The map that a database represents. *)
Definition known db : gmap TxHash Tx := omap decode_opt (sled_view db).

(** Every entry decodes, to a transaction stored under its own hash. *)
Definition tx_db_wf db : Prop :=
  ∀ h v, sled_view db !! h = Some v → ∃ tx, de_tx v = Ok tx ∧ tx_hash tx = h.

Lemma known_Some db h v tx :
  sled_view db !! h = Some v → de_tx v = Ok tx → known db !! h = Some tx.
Proof. intros Hv Hd. unfold known. rewrite lookup_omap, Hv. cbn. unfold decode_opt. by rewrite Hd. Qed.

Lemma known_cases db h :
  tx_db_wf db →
  (sled_view db !! h = None ∧ known db !! h = None) ∨
  ∃ v tx, sled_view db !! h = Some v ∧ de_tx v = Ok tx ∧ known db !! h = Some tx ∧
    tx_hash tx = h.
Proof.
  intros Hwf. destruct (sled_view db !! h) as [v|] eqn:Hv.
  - right. destruct (Hwf h v Hv) as (tx & Hd & Hh). exists v, tx.
    split_and!; [done..| |done]. by eapply known_Some.
  - left. split; [done|]. unfold known. by rewrite lookup_omap, Hv.
Qed.

Lemma known_hash db h tx : tx_db_wf db → known db !! h = Some tx → tx_hash tx = h.
Proof. intros Hwf Hk. destruct (known_cases db h Hwf) as [[_ ?]|(?&?&?&?&?&?)]; congruence. Qed.

Lemma is_known_tx_spec db h :
  tx_db_wf db → is_known_tx db h = Ok (bool_decide (is_Some (known db !! h))).
Proof.
  intros Hwf. unfold is_known_tx. rewrite sled_contains_key_law. cbn. f_equal.
  destruct (known_cases db h Hwf) as [[-> ->]|(v & tx & -> & _ & -> & _)].
  - apply bool_decide_ext. split; by intros [].
  - apply bool_decide_ext. split; intros; eauto.
Qed.

Lemma check_status_spec test db h :
  tx_db_wf db → check_status test db h =
    match known db !! h with
    | Some tx => Ok (test (tx_status tx))
    | None => Err StorageError.InvalidTx
    end.
Proof.
  intros Hwf. unfold check_status, decode_tx. rewrite sled_get_law. cbn.
  destruct (known_cases db h Hwf) as [[-> ->]|(v & tx & -> & Hd & -> & _)]; [done|].
  cbn. by rewrite Hd.
Qed.

Lemma get_tx_spec db h :
  tx_db_wf db → get_tx db h =
    match known db !! h with
    | Some tx => Ok (h, tx)
    | None => Err StorageError.InvalidTx
    end.
Proof.
  intros Hwf. unfold get_tx, decode_tx. rewrite sled_get_law. cbn.
  destruct (known_cases db h Hwf) as [[-> ->]|(v & tx & -> & Hd & -> & _)]; [done|].
  cbn. by rewrite Hd.
Qed.

Lemma insert_tx_spec db tx :
  tx_db_wf db →
  ∃ db' old, insert_tx tx db = (db', Ok old) ∧ tx_db_wf db' ∧
    known db' = <[tx_hash tx := tx]> (known db).
Proof.
  intros Hwf. destruct (sled_insert_law db (tx_hash tx) (ser_tx tx)) as (db' & Hi & Hv).
  exists db', (sled_view db !! tx_hash tx). unfold insert_tx. rewrite Hi.
  split_and!; [done| |].
  - intros h v. rewrite Hv, lookup_insert_Some. intros [[<- <-]|[_ ?]]; [|by apply Hwf].
    exists tx. by rewrite de_ser_tx.
  - unfold known. rewrite Hv. apply map_eq. intros h. rewrite lookup_omap, lookup_insert.
    rewrite lookup_insert, lookup_omap. case_decide; [|done].
    cbn. unfold decode_opt. by rewrite de_ser_tx.
Qed.

Lemma set_status_spec db h s :
  tx_db_wf db →
  ∃ db', set_status h s db =
      (db', match known db !! h with
            | Some _ => Ok tt
            | None => Err StorageError.InvalidTx
            end) ∧
    tx_db_wf db' ∧ known db' = alter (tx_with_status s) h (known db).
Proof.
  intros Hwf. unfold set_status, update_and_fetch, mbind at 1, st_bind.
  match goal with |- context [sled_update_and_fetch h ?f db] =>
    destruct (sled_update_law db h f) as (db' & Hu & Hv) end.
  rewrite Hu. exists db'. unfold decode_tx.
  destruct (known_cases db h Hwf) as [[Hn Hk]|(v & tx & Hs & Hd & Hk & Hh)].
  - rewrite Hn in Hv |- *. rewrite Hk. cbn in *.
    assert (sled_view db' = sled_view db) as Hsame.
    { rewrite Hv. apply map_eq. intros h'. destruct (decide (h = h')) as [<-|].
      - by rewrite lookup_partial_alter_eq.
      - by rewrite lookup_partial_alter_ne. }
    split_and!; [done|unfold tx_db_wf; by rewrite Hsame|].
    unfold known. rewrite Hsame. apply map_eq. intros h'.
    destruct (decide (h = h')) as [<-|]; [|by rewrite lookup_alter_ne].
    rewrite lookup_alter_eq, lookup_omap, Hn. done.
  - rewrite Hs in Hv |- *. rewrite Hk, Hd in *. cbn in *. rewrite de_ser_tx in *. cbn in *.
    split_and!; [done| |].
    + intros h' v'. rewrite Hv. destruct (decide (h = h')) as [<-|].
      * rewrite lookup_partial_alter_eq. intros [= <-]. rewrite de_ser_tx. by eexists.
      * rewrite lookup_partial_alter_ne by done. apply Hwf.
    + apply map_eq. intros h'. unfold known at 1. rewrite lookup_omap, Hv.
      destruct (decide (h = h')) as [<-|].
      * rewrite lookup_partial_alter_eq, lookup_alter_eq, Hk. cbn.
        unfold decode_opt. by rewrite de_ser_tx.
      * rewrite lookup_partial_alter_ne, lookup_alter_ne by done.
        unfold known. by rewrite lookup_omap.
Qed.

(** A status that was set is the stored one. *)
Lemma set_status_Ok_inv db db' h s :
  set_status h s db = (db', Ok tt) →
  ∃ tx, known db' !! h = Some tx ∧ tx_status tx = s.
Proof.
  unfold set_status, update_and_fetch, mbind at 1, st_bind.
  match goal with |- context [sled_update_and_fetch h ?f db] =>
    destruct (sled_update_law db h f) as (db1 & Hu & Hv) end.
  rewrite Hu. intros Heq. destruct (sled_view db !! h) as [v|]; [|by cbn in Heq].
  destruct (de_tx v) as [tx| | |] eqn:Hd; cbn in Heq, Hv; try done.
  unfold decode_tx in Heq. rewrite de_ser_tx in Heq. cbn in Heq. simplify_eq.
  exists (tx_with_status s tx). split; [|done].
  apply (known_Some _ _ (ser_tx (tx_with_status s tx))); [|apply de_ser_tx].
  injection Heq as <-. by rewrite Hv, lookup_partial_alter_eq.
Qed.

(** The operations of an abstract store of transactions and their results. *)
Inductive tx_op : Type :=
| OpInsert (tx : Tx)
| OpSetStatus (h : TxHash) (s : TxStatus.TxStatus).

Definition run_op (o : tx_op) (db : Db) : Db :=
  match o with
  | OpInsert tx => (insert_tx tx db).1
  | OpSetStatus h s => (set_status h s db).1
  end.

Definition spec_op (o : tx_op) (m : gmap TxHash Tx) : gmap TxHash Tx :=
  match o with
  | OpInsert tx => <[tx_hash tx := tx]> m
  | OpSetStatus h s => alter (tx_with_status s) h m
  end.

Lemma run_op_refines o db :
  tx_db_wf db → tx_db_wf (run_op o db) ∧ known (run_op o db) = spec_op o (known db).
Proof.
  intros Hwf. destruct o as [tx|h s]; cbn.
  - by destruct (insert_tx_spec db tx Hwf) as (db' & old & -> & ? & ?).
  - by destruct (set_status_spec db h s Hwf) as (db' & -> & ? & ?).
Qed.

(** C40: after any sequence of insertions and status changes, the queries of the
    transaction storage answer as a finite map from hashes to transactions on
    which the same operations were done would: the last insertion under a hash
    with the last status set for it, and [InvalidTx] for an unknown hash. *)
Theorem tx_storage_refines_map db ops h :
  tx_db_wf db →
  let db' := foldl (λ d o, run_op o d) db ops in
  let m := foldl (λ m o, spec_op o m) (known db) ops in
  is_known_tx db' h = Ok (bool_decide (is_Some (m !! h))) ∧
  (∀ tx, m !! h = Some tx →
     get_tx db' h = Ok (h, tx) ∧ tx_hash tx = h ∧
     is_accepted_tx db' h = Ok (bool_decide (tx_status tx = TxStatus.Accepted)) ∧
     is_removed_tx db' h = Ok (bool_decide (tx_status tx = TxStatus.Removed)) ∧
     cannot_be_accepted db' h = Ok (bool_decide
       (tx_status tx = TxStatus.Removed ∨ tx_status tx = TxStatus.Rejected))) ∧
  (m !! h = None →
     get_tx db' h = Err StorageError.InvalidTx ∧
     is_accepted_tx db' h = Err StorageError.InvalidTx ∧
     is_removed_tx db' h = Err StorageError.InvalidTx ∧
     cannot_be_accepted db' h = Err StorageError.InvalidTx).
Proof.
  intros Hwf db' m.
  assert (tx_db_wf db' ∧ known db' = m) as [Hwf' Hm].
  { unfold db', m. clear db' m. revert db Hwf.
    induction ops as [|o ops IH]; intros db Hwf; cbn; [done|].
    destruct (run_op_refines o db Hwf) as [Hwf1 <-]. by apply IH. }
  unfold is_accepted_tx, is_removed_tx, cannot_be_accepted.
  rewrite is_known_tx_spec, get_tx_spec, !check_status_spec, <- Hm by done.
  split_and!; [done| |].
  - intros tx Htx. rewrite Htx. split_and!; try done; [by eapply known_hash|].
    f_equal. by rewrite bool_decide_or.
  - intros Hn. by rewrite Hn.
Qed.
End tx_refinement.
