(* ===== verification/SledInstances.v ===== *)
(** * SledInstances.v: an in-memory database and codecs

    A finite map satisfies [SledLaws], and an encoding of the values as numbers
    satisfies the round-trip laws of the codecs.  The witnesses run on them. *)

From stdpp Require Import prelude gmap sets list strings countable sorting.
From Stdlib Require Import ZArith Lia.
From S2P Require Import Prelude Orders Cell Instances Dag Blocks Storage.

(** The entries of a tree in key order. *)
Definition tree_entries (m : gmap bytes bytes) : list (bytes * bytes) :=
  sort (cmp_fields fst snd bytes_cmp bytes_cmp) (map_to_list m).

Definition map_sled : Sled := {|
  Db := gmap bytes bytes;
  sled_get m k := Ok (m !! k);
  sled_contains_key m k := Ok (bool_decide (is_Some (m !! k)));
  sled_insert k v m := (<[k := v]> m, Ok (m !! k));
  sled_update_and_fetch k f m := (partial_alter (λ _, f (m !! k)) k m, Ok (f (m !! k)));
  sled_first m := Ok (head (tree_entries m));
  sled_last m := Ok (list.last (tree_entries m));
  sled_range m a b :=
    (λ e, Ok e) <$> filter (λ e, bytes_ltb e.1 a = false ∧ bytes_ltb e.1 b = true)
      (tree_entries m)
|}.

Definition map_sled_laws : @SledLaws map_sled.
Proof.
  refine (@Build_SledLaws map_sled (λ m, m) _ _ _ _).
  - done.
  - done.
  - intros m k v. eexists. split; reflexivity.
  - intros m k f. eexists. split; reflexivity.
Defined.

(** ** Codecs *)
#[export] Instance CellType_countable : Countable CellType.
Proof.
  refine (inj_countable cell_type_tag
    (λ z, if (z =? 0)%Z then Some Coinbase else if (z =? 1)%Z then Some Transfer
          else Some Stake) _). by intros [].
Defined.
#[export] Instance Output_countable : Countable Output.
Proof.
  refine (inj_countable' (λ o, (capacity o, cell_type o, data o, lock o))
    (λ p, {| capacity := p.1.1.1; cell_type := p.1.1.2; data := p.1.2; lock := p.2 |}) _).
  by intros [].
Defined.
#[export] Instance Cell_countable : Countable Cell.
Proof.
  refine (inj_countable' (λ c, (inputs c, outputs c))
    (λ p, {| inputs := p.1; outputs := p.2 |}) _). by intros [].
Defined.
#[export] Instance TxStatus_countable : Countable TxStatus.TxStatus.
Proof.
  refine (inj_countable (λ s, match s with
      | TxStatus.Pending => 0 | TxStatus.Queried => 1 | TxStatus.Accepted => 2
      | TxStatus.Rejected => 3 | TxStatus.Removed => 4 end)
    (λ n, match n with
      | 0 => Some TxStatus.Pending | 1 => Some TxStatus.Queried
      | 2 => Some TxStatus.Accepted | 3 => Some TxStatus.Rejected
      | _ => Some TxStatus.Removed end) _). by intros [].
Defined.
#[export] Instance Tx_countable : Countable Tx.
Proof.
  refine (inj_countable' (λ t, (tx_parents t, tx_cell t, tx_status t))
    (λ p, mkTx p.1.1 p.1.2 p.2) _). by intros [].
Defined.
#[export] Instance Block_countable : Countable Block.
Proof.
  refine (inj_countable' (λ b, (predecessor b, block_height b, vrf_out b, block_cells b))
    (λ p, mkBlock p.1.1.1 p.1.1.2 p.1.2 p.2) _). by intros [].
Defined.
#[export] Instance HailBlock_countable : Countable HailBlock.
Proof.
  refine (inj_countable' (λ b, (hb_parent b, hb_block b)) (λ p, mkHailBlock p.1 p.2) _).
  by intros [].
Defined.

Definition ser_num `{Countable A} (a : A) : bytes := [Zpos (encode a)].
Definition de_num `{Countable A} (b : bytes) : res string A :=
  match b with
  | [Zpos p] => match decode p with Some a => Ok a | None => Err "decode"%string end
  | _ => Err "length"%string
  end.

Lemma de_ser_num `{Countable A} (a : A) : de_num (ser_num a) = Ok a.
Proof. unfold de_num, ser_num. by rewrite decode_encode. Qed.

Definition num_tx_codec : TxCodec := {|
  ser_tx := ser_num; de_tx := de_num; de_cell := de_num
|}.

Lemma num_tx_codec_laws : @TxCodecLaws num_tx_codec.
Proof. split. apply de_ser_num. Qed.

Definition num_block_codec : BlockCodec := {|
  ser_block := ser_num; de_block := de_num;
  ser_hail_block := ser_num; de_hail_block := de_num
|}.

Lemma num_block_codec_laws : @BlockCodecLaws num_block_codec.
Proof. split; apply de_ser_num. Qed.

(** *** Witness of the storage refinement *)
Lemma tx_storage_refines_map_witness :
  let _ := plain_crypto in let _ := canonical_order in
  let _ := map_sled in let _ := num_tx_codec in
  let tx := tx_new [] (cell_new ∅ [pay 10 [1%Z]]) in
  let ops := [OpInsert tx; OpSetStatus (tx_hash tx) TxStatus.Accepted] in
  is_accepted_tx (foldl (λ d o, run_op o d) (∅ : gmap bytes bytes) ops) (tx_hash tx) =
    Ok (bool_decide (TxStatus.Accepted = TxStatus.Accepted)).
Proof.
  set (tx := @tx_new [] (cell_new ∅ [pay 10 [1%Z]])).
  destruct (@tx_storage_refines_map plain_crypto canonical_order map_sled map_sled_laws
    num_tx_codec num_tx_codec_laws (∅ : gmap bytes bytes)
    [@OpInsert tx; @OpSetStatus (@tx_hash plain_crypto canonical_order tx) TxStatus.Accepted]
    (@tx_hash plain_crypto canonical_order tx)) as (_ & H1 & _).
  - intros h v Hv. exfalso. clear -Hv. cbn in Hv. rewrite lookup_empty in Hv. discriminate.
  - destruct (H1 (tx_with_status TxStatus.Accepted tx)) as (_ & _ & H2 & _).
    + vm_compute. reflexivity.
    + exact H2.
Defined.
