(* ===== verification/BlockStorage.v ===== *)
(** * BlockStorage.v: the blocks of the alpha chain (src/src/storage/block.rs)

    Blocks are stored under their height, as eight bytes with the most significant
    one first, followed by their hash, so that the order of the keys is the order
    of the heights. *)

From stdpp Require Import prelude gmap sets fin_maps list sorting strings.
From Stdlib Require Import ZArith Lia.
From S2P Require Import Prelude Orders Cell Instances Dag Blocks Storage SledInstances.

(** ** Keys *)

(** [U64<BigEndian>]: the digits of [z] in base 256, and back. *)
Fixpoint be_bytes (n : nat) (z : Z) : bytes :=
  match n with
  | O => []
  | S n' => (z / 256 ^ Z.of_nat n')%Z :: be_bytes n' (z mod 256 ^ Z.of_nat n')
  end.

Definition be_read (b : bytes) : Z := foldl (λ acc d, acc * 256 + d)%Z 0%Z b.

(** [Key::new(..).as_bytes()] and [Key::read_from], which wants the exact size. *)
Definition key_bytes (height : BlockHeight) (h : BlockHash) : bytes := be_bytes 8 height ++ h.

Definition key_read (b : bytes) : option (BlockHeight * BlockHash) :=
  if decide (length b = 40) then Some (be_read (take 8 b), drop 8 b) else None.

Section block_db.
Context {CR : Crypto} {BP : BuildProfile} {SD : Sled} {BC : BlockCodec}.

(** Errors of the storage layer. *)
Abbreviation sto := (res StorageError.Error).

Definition exists_genesis (db : Db) : bool :=
  match sled_first db with
  | Ok (Some _) => true
  | _ => false
  end.

Definition get_genesis (db : Db) : sto (BlockHash * Block) :=
  r ← map_err StorageError.Sled (sled_first db);
  match r with
  | Some (k, v) =>
      key ← unwrap (key_read k);
      block ← map_err StorageError.Bincode (de_block v);
      Ok (key.2, block)
  | None => Err StorageError.InvalidGenesis
  end.

Definition insert_encoded (b : Block) (hash : BlockHash) :
    st Db StorageError.Error (option bytes) := λ db,
  let '(db', r) := sled_insert (key_bytes (block_height b) hash) (ser_block b) db in
  (db', map_err StorageError.Sled r).

Definition accept_genesis (genesis : Block) : st Db StorageError.Error BlockHash :=
  hash ← of_res (map_err StorageError.Alpha (block_hash genesis));
  insert_encoded genesis hash;;
  h ← of_res (map_err StorageError.Alpha (block_hash genesis));
  mret h.

(** [accept_next_block]; the comment asks for the height of the last block plus
    one, the code computes it minus one. *)
Definition accept_next_block (b : Block) : st Db StorageError.Error BlockHash :=
  r ← reads (λ db, map_err StorageError.Sled (sled_last db));
  match r with
  | Some (k, _) =>
      key ← of_res (ok_or (key_read k) StorageError.InvalidLast);
      below ← of_res (u_sub 64 key.1 1);
      if negb (block_height b =? below)%Z then throw StorageError.InvalidHeight
      else if bool_decide (predecessor b ≠ Some key.2) then throw StorageError.InvalidPredecessor
      else
        hash ← of_res (map_err StorageError.Alpha (block_hash b));
        insert_encoded b hash;;
        mret hash
  | None => throw StorageError.UndefinedGenesis
  end.

Definition is_known_block (db : Db) (h : BlockHeight) (x : BlockHash) : sto bool :=
  map_err StorageError.Sled (sled_contains_key db (key_bytes h x)).

Definition insert_block (b : Block) : st Db StorageError.Error (option bytes) :=
  hash ← of_res (map_err StorageError.Alpha (block_hash b));
  insert_encoded b hash.

Definition get_last_accepted_hash (db : Db) : sto BlockHash :=
  r ← map_err StorageError.Sled (sled_last db);
  match r with
  | Some (k, _) => key ← unwrap (key_read k); Ok key.2
  | None => Err StorageError.InvalidLast
  end.

Definition get_last_accepted (db : Db) : sto (BlockHash * Block) :=
  r ← map_err StorageError.Sled (sled_last db);
  match r with
  | Some (k, v) =>
      key ← unwrap (key_read k);
      block ← map_err StorageError.Bincode (de_block v);
      Ok (key.2, block)
  | None => Err StorageError.InvalidLast
  end.

(** The range is read from its end. *)
Definition get_blocks_in_range (db : Db) (start_height : Z) (start_hash : BlockHash)
    (end_height : Z) (end_hash : BlockHash) : sto (list Block) :=
  try_map (λ kv : res SledError (bytes * bytes),
    e ← map_err StorageError.Sled kv;
    map_err StorageError.Bincode (de_block e.2))
    (rev (sled_range db (key_bytes start_height start_hash) (key_bytes end_height end_hash))).
End block_db.

(** ** Facts *)

(** The order of a tree: the first entry has the lowest key, the last one the
    highest. *)
Class SledOrderLaws `{SL : SledLaws} : Prop := {
  sled_first_law : ∀ db, ∃ o, sled_first db = Ok o ∧
    match o with
    | Some (k, v) => sled_view db !! k = Some v ∧
        ∀ k', is_Some (sled_view db !! k') → bytes_ltb k' k = false
    | None => sled_view db = ∅
    end;
  sled_last_law : ∀ db, ∃ o, sled_last db = Ok o ∧
    match o with
    | Some (k, v) => sled_view db !! k = Some v ∧
        ∀ k', is_Some (sled_view db !! k') → bytes_ltb k k' = false
    | None => sled_view db = ∅
    end
}.

Lemma be_bytes_length n z : length (be_bytes n z) = n.
Proof. revert z. induction n; intros z; cbn; auto. Qed.

(** Big-endian digits are ordered like the numbers. *)
Lemma be_bytes_cmp n a b x y :
  (0 ≤ a < 256 ^ Z.of_nat n)%Z → (0 ≤ b < 256 ^ Z.of_nat n)%Z →
  bytes_cmp (be_bytes n a ++ x) (be_bytes n b ++ y) = cmp_then (a ?= b)%Z (bytes_cmp x y).
Proof.
  revert a b. induction n as [|n IH]; intros a b Ha Hb.
  { cbn in *. assert (a = 0)%Z as -> by lia. assert (b = 0)%Z as -> by lia. done. }
  cbn [be_bytes app]. unfold bytes_cmp at 1. cbn [list_cmp].
  set (B := (256 ^ Z.of_nat n)%Z).
  assert (0 < B)%Z as HB by (apply Z.pow_pos_nonneg; lia).
  fold (bytes_cmp (be_bytes n (a mod B) ++ x) (be_bytes n (b mod B) ++ y)).
  rewrite IH by (apply Z.mod_pos_bound; done).
  pose proof (Z.div_mod a B). pose proof (Z.div_mod b B).
  pose proof (Z.mod_pos_bound a B HB). pose proof (Z.mod_pos_bound b B HB).
  destruct (Z.compare_spec (a / B) (b / B)) as [Heq|Hlt|Hgt]; cbn [cmp_then].
  - destruct (Z.compare_spec (a mod B) (b mod B)); destruct (Z.compare_spec a b);
      cbn; try done; nia.
  - destruct (Z.compare_spec a b); cbn; try done; nia.
  - destruct (Z.compare_spec a b); cbn; try done; nia.
Qed.

Lemma be_read_bytes n z acc :
  (0 ≤ z < 256 ^ Z.of_nat n)%Z →
  foldl (λ acc d, acc * 256 + d)%Z acc (be_bytes n z) = (acc * 256 ^ Z.of_nat n + z)%Z.
Proof.
  revert z acc. induction n as [|n IH]; intros z acc Hz; cbn [be_bytes foldl].
  { cbn in *. lia. }
  assert (0 < 256 ^ Z.of_nat n)%Z as HB by (apply Z.pow_pos_nonneg; lia).
  rewrite IH by (by apply Z.mod_pos_bound).
  pose proof (Z.div_mod z (256 ^ Z.of_nat n)).
  rewrite Nat2Z.inj_succ, Z.pow_succ_r by lia. nia.
Qed.

Section block_db_facts.
Context `{Crypto, BuildProfile, SL : SledLaws, !SledOrderLaws, BC : BlockCodecLaws}.
Implicit Types (db : Db) (b : Block).

(** blake3 gives 32 bytes. *)
Context (hash_length : ∀ m, length (blake3 m) = 32).

Definition block_key b : bytes := key_bytes (block_height b) (block_id b).

(** Every entry is a block under its key. *)
Definition block_db_wf db : Prop :=
  ∀ k v, sled_view db !! k = Some v →
    ∃ b, k = block_key b ∧ v = ser_block b ∧ in_range 64 (block_height b).

Definition has_block db b : Prop := sled_view db !! block_key b = Some (ser_block b).

Lemma key_read_block b :
  in_range 64 (block_height b) → key_read (block_key b) = Some (block_height b, block_id b).
Proof.
  intros Hr. unfold key_read, block_key, key_bytes.
  rewrite decide_True by (by rewrite length_app, be_bytes_length; unfold block_id; rewrite hash_length).
  rewrite take_app_length', drop_app_length' by (symmetry; apply be_bytes_length).
  do 2 f_equal. unfold be_read. rewrite be_read_bytes by (unfold in_range in Hr; cbn; lia). lia.
Qed.

Lemma block_key_order b b' :
  in_range 64 (block_height b) → in_range 64 (block_height b') →
  bytes_ltb (block_key b) (block_key b') = false → (block_height b' ≤ block_height b)%Z.
Proof.
  intros Hb Hb'. unfold bytes_ltb, block_key, key_bytes.
  rewrite be_bytes_cmp by (unfold in_range in *; cbn; lia).
  destruct (Z.compare_spec (block_height b) (block_height b')); cbn; [lia|done|lia].
Qed.

Lemma insert_encoded_spec db b :
  ∃ db' old, insert_encoded b (block_id b) db = (db', Ok old) ∧
    sled_view db' = <[block_key b := ser_block b]> (sled_view db).
Proof.
  unfold insert_encoded. fold (block_key b).
  destruct (sled_insert_law db (block_key b) (ser_block b)) as (db' & -> & Hv). eauto.
Qed.

Lemma is_known_block_spec db h x :
  is_known_block db h x = Ok (bool_decide (is_Some (sled_view db !! key_bytes h x))).
Proof. unfold is_known_block. by rewrite sled_contains_key_law. Qed.

(** The last entry of a well-formed database that is not empty. *)
Lemma sled_last_block db :
  block_db_wf db → sled_view db ≠ ∅ →
  ∃ last, sled_last db = Ok (Some (block_key last, ser_block last)) ∧
    has_block db last ∧ in_range 64 (block_height last) ∧
    ∀ b, in_range 64 (block_height b) → is_Some (sled_view db !! block_key b) →
      (block_height b ≤ block_height last)%Z.
Proof.
  intros Hwf Hne. destruct (sled_last_law db) as ([[k v]|] & Hl & Ho); [|done].
  destruct Ho as [Hv Hmax]. destruct (Hwf k v Hv) as (last & -> & -> & Hr).
  exists last. split_and!; [done..|]. intros b Hb Hk. apply block_key_order; auto.
Qed.

Lemma get_last_accepted_spec db last :
  sled_last db = Ok (Some (block_key last, ser_block last)) → in_range 64 (block_height last) →
  get_last_accepted db = Ok (block_id last, last) ∧
  get_last_accepted_hash db = Ok (block_id last).
Proof.
  intros Hl Hr. unfold get_last_accepted, get_last_accepted_hash. rewrite Hl.
  pose proof (key_read_block last Hr) as Hk. set (k := block_key last) in *. clearbody k.
  cbn. rewrite Hk. cbn. by rewrite de_ser_block.
Qed.

Lemma insert_block_spec db b :
  block_db_wf db → in_range 64 (block_height b) →
  ∃ db' old, insert_block b db = (db', Ok old) ∧ block_db_wf db' ∧
    sled_view db' = <[block_key b := ser_block b]> (sled_view db).
Proof.
  intros Hwf Hr. destruct (insert_encoded_spec db b) as (db' & old & Hi & Hv).
  exists db', old. split_and!; [|intros k v|done].
  - unfold insert_block. rewrite block_hash_Ok. erewrite st_bind_Ok; [exact Hi|reflexivity].
  - rewrite Hv, lookup_insert_Some. intros [[<- <-]|[_ ?]]; [by exists b|by apply Hwf].
Qed.

(** The last accepted block is one of the greatest height.  Inserting blocks,
    in whatever order, keeps the database well-formed and makes the blocks known;
    the block and the hash that are read back as last accepted are those of a
    stored block, and no known block is higher. *)
Theorem last_accepted_is_highest db bs :
  block_db_wf db → (∀ b, b ∈ bs → in_range 64 (block_height b)) → bs ≠ [] →
  ∃ db' last, foreach bs (λ b, _ ← insert_block b; mret tt) db = (db', Ok tt) ∧
    block_db_wf db' ∧
    (∀ b, b ∈ bs → is_known_block db' (block_height b) (block_id b) = Ok true) ∧
    get_last_accepted db' = Ok (block_id last, last) ∧
    get_last_accepted_hash db' = Ok (block_id last) ∧ has_block db' last ∧
    ∀ b, in_range 64 (block_height b) →
      is_known_block db' (block_height b) (block_id b) = Ok true →
      (block_height b ≤ block_height last)%Z.
Proof.
  intros Hwf Hbs Hne.
  destruct (foreach_inv (E:=StorageError.Error) (λ pre d, block_db_wf d ∧
    ∀ b, b ∈ pre → is_Some (sled_view d !! block_key b)) bs
    (λ b, _ ← insert_block b; mret tt) db) as (db' & Hf & Hwf' & Hall).
  - split; [done|set_solver].
  - intros pre b post d -> [Hw Hp].
    destruct (insert_block_spec d b) as (d' & old & Hi & Hw' & Hv); [done|set_solver|].
    exists d'. split_and!; [erewrite st_bind_Ok; [reflexivity|exact Hi]|done|].
    intros b' Hb'. rewrite Hv, lookup_insert. case_decide; [done|]. set_solver.
  - destruct bs as [|b0 bs]; [done|].
    destruct (sled_last_block db') as (last & Hl & Hh & Hr & Hmax); [done| |].
    { intros He. destruct (Hall b0) as [v Hv]; [set_solver|]. by rewrite He, lookup_empty in Hv. }
    destruct (get_last_accepted_spec db' last) as [Hg Hgh]; [done..|].
    exists db', last. split_and!; try done.
    + intros b Hb. rewrite is_known_block_spec. f_equal. by apply bool_decide_eq_true, Hall.
    + intros b Hb. rewrite is_known_block_spec. intros [= Hk%bool_decide_eq_true]. auto.
Qed.

(** The height that [accept_next_block] asks for is the one below the last block,
    so that the block which extends the chain is refused. *)
Theorem successor_block_refused db b last :
  block_db_wf db → get_last_accepted db = Ok (block_id last, last) →
  in_range 64 (block_height last) → has_block db last →
  predecessor b = Some (block_id last) → block_height b = (block_height last + 1)%Z →
  in_range 64 (block_height b) →
  ∃ r, accept_next_block b db = (db, r) ∧ (r = Err StorageError.InvalidHeight ∨ r = Panic).
Proof.
  intros Hwf Hg Hr Hh Hp Hb Hrb.
  destruct (sled_last_block db) as (l' & Hl & _ & Hr' & _); [done| |].
  { intros He. unfold has_block in Hh. by rewrite He, lookup_empty in Hh. }
  destruct (get_last_accepted_spec db l') as [Hg' _]; [done..|].
  assert (l' = last) as -> by congruence.
  unfold accept_next_block. pose proof (key_read_block last Hr) as Hk.
  set (k := block_key last) in *. clearbody k.
  erewrite st_bind_Ok; [|unfold reads; rewrite Hl; reflexivity]. cbn.
  rewrite Hk. cbn [ok_or]. erewrite st_bind_Ok; [|reflexivity]. cbn [fst snd].
  unfold in_range in *. rewrite Hb. unfold u_sub, u_norm, mbind at 1, st_bind, of_res.
  case_decide as Hd; unfold in_range in Hd; cbn.
  - rewrite (proj2 (Z.eqb_neq _ _)) by lia. cbn. eauto.
  - destruct overflow_checks; cbn; [eauto|].
    assert (block_height last = 0)%Z as -> by lia. cbn. eauto.
Qed.
End block_db_facts.

(** ** Instances for the witness *)

Lemma StronglySorted_weaken {A} (R Q : A → A → Prop) l :
  (∀ x y, R x y → Q x y) → StronglySorted R l → StronglySorted Q l.
Proof. intros HRQ. induction 1; constructor; eauto using Forall_impl. Qed.

(** The entries of a map in the order of their keys. *)
Lemma tree_entries_spec m :
  (∀ k v, (k, v) ∈ tree_entries m ↔ m !! k = Some v) ∧
  StronglySorted (λ a b, bytes_ltb b.1 a.1 = false) (tree_entries m).
Proof.
  assert (LawfulCmp (cmp_fields (A:=bytes * bytes) fst snd bytes_cmp bytes_cmp)).
  { apply cmp_fields_lawful; [apply _..|]. by intros [] [] ??; cbn in *; subst. }
  unfold tree_entries. split.
  - intros k v. by rewrite sort_perm, elem_of_map_to_list.
  - eapply StronglySorted_weaken; [|apply sort_sorted; done]. intros [k v] [k' v'].
    unfold cmp_le, cmp_fields, bytes_ltb, cmp_then. cbn. rewrite (cmp_opp (cmp:=bytes_cmp) k k').
    by destruct (bytes_cmp k k').
Qed.

Lemma map_sled_order_laws : @SledOrderLaws map_sled map_sled_laws.
Proof.
  split; intros m; eexists; (split; [reflexivity|]); cbn in m;
    destruct (tree_entries_spec m) as [Hin Hs].
  - destruct (tree_entries m) as [|[k v] l]; cbn.
    + apply map_empty. intros k. apply eq_None_not_Some. intros [v Hv%Hin]. set_solver.
    + split; [apply Hin; set_solver|]. intros k' [v' Hv%Hin].
      apply StronglySorted_inv in Hs as [_ Hall]. rewrite Forall_forall in Hall.
      apply elem_of_cons in Hv as [[= -> _]|Hv]; [apply bytes_ltb_irrefl|exact (Hall _ Hv)].
  - destruct (tree_entries m) as [|[k v] l _] using rev_ind; cbn.
    + apply map_empty. intros k. apply eq_None_not_Some. intros [v Hv%Hin]. set_solver.
    + rewrite last_snoc. split; [apply Hin; set_solver|]. intros k' [v' Hv%Hin].
      apply elem_of_app in Hv as [Hv|Hv%list_elem_of_singleton].
      * apply (StronglySorted_app_1_elem_of _ _ _ (k', v') (k, v) Hs Hv). set_solver.
      * simplify_eq. apply bytes_ltb_irrefl.
Qed.

(** A function to 32 digits in the place of the hash. *)
Definition wide_crypto : Crypto := {|
  blake3 b := Z.pos (encode b) :: replicate 31 0%Z;
  ser_bytes := @ser_bytes plain_crypto;
  ser_public_key := @ser_public_key plain_crypto;
  ser_signature := @ser_signature plain_crypto;
  ser_cell := @ser_cell plain_crypto;
  Keypair := bytes;
  public kp := kp;
  sign kp m := kp ++ m
|}.

(** The first block and its successor are inserted, the later one first. *)
Definition sample_genesis : Block := mkBlock None 0 [] [].
Definition sample_next : Block :=
  block_new (@block_id wide_crypto num_block_codec sample_genesis) 1 [] [].

Lemma last_accepted_is_highest_witness :
  let _ := wide_crypto in let _ := num_block_codec in
  ∃ (db' : gmap bytes bytes) last,
    foreach (E:=StorageError.Error) [sample_next; sample_genesis]
      (λ b, _ ← insert_block (SD:=map_sled) b; mret tt) (∅ : gmap bytes bytes) =
      (db', Ok tt) ∧
    get_last_accepted (SD:=map_sled) db' = Ok (block_id last, last) ∧
    (1 ≤ block_height last)%Z.
Proof.
  destruct (@last_accepted_is_highest wide_crypto map_sled map_sled_laws map_sled_order_laws
    num_block_codec num_block_codec_laws (λ m, eq_refl) (∅ : gmap bytes bytes)
    [sample_next; sample_genesis]) as (db' & last & Hf & _ & Hk & Hg & _ & _ & Hmax).
  - intros k v Hv. exfalso. clear -Hv. cbn in Hv. rewrite lookup_empty in Hv. discriminate.
  - intros b Hb. rewrite !elem_of_cons, elem_of_nil in Hb.
    destruct Hb as [->|[->|[]]]; (split; [apply (bool_decide_unpack _); vm_compute; exact I|];
      apply (bool_decide_unpack _); vm_compute; exact I).
  - discriminate.
  - exists db', last. split; [exact Hf|]. split; [exact Hg|].
    apply (Hmax sample_next); [|apply Hk; set_solver].
    split; apply (bool_decide_unpack _); vm_compute; exact I.
Defined.

Lemma successor_block_refused_witness :
  let _ := wide_crypto in let _ := debug_profile in let _ := num_block_codec in
  let db : gmap bytes bytes :=
    (insert_block (SD:=map_sled) sample_genesis (∅ : gmap bytes bytes)).1 in
  ∃ r, accept_next_block (SD:=map_sled) sample_next db = (db, r) ∧
    (r = Err StorageError.InvalidHeight ∨ r = Panic).
Proof.
  set (db := ((@insert_block wide_crypto map_sled num_block_codec sample_genesis
    (∅ : gmap bytes bytes)).1 : gmap bytes bytes)).
  apply (@successor_block_refused wide_crypto debug_profile map_sled map_sled_laws
    map_sled_order_laws num_block_codec num_block_codec_laws (λ m, eq_refl) db sample_next
    sample_genesis).
  - intros k v Hv. change (db !! k = Some v) in Hv. unfold db in Hv.
    change (<[@block_key wide_crypto num_block_codec sample_genesis :=
      @ser_block num_block_codec sample_genesis]> (∅ : gmap bytes bytes) !! k = Some v) in Hv.
    apply lookup_insert_Some in Hv as [[<- <-]|[_ Hv]].
    + exists sample_genesis. split_and!; [reflexivity..|].
      split; apply (bool_decide_unpack _); vm_compute; exact I.
    + rewrite lookup_empty in Hv. discriminate.
  - vm_compute. reflexivity.
  - split; apply (bool_decide_unpack _); vm_compute; exact I.
  - vm_compute. reflexivity.
  - reflexivity.
  - reflexivity.
  - split; apply (bool_decide_unpack _); vm_compute; exact I.
Defined.
