(* ===== verification/Util.v ===== *)
(** * Util.v: weights, sampling and the bounded collections
      (src/src/util.rs, src/src/sleet/sleet/sleet_utils.rs)

    Stake weights are IEEE 754 double precision numbers ([SpecFloat] of the
    Standard Library, at 53 bits of precision).  The random shuffle of the rand
    crate is a parameter. *)

From stdpp Require Import prelude gmap sets list.
From Stdlib Require Import ZArith Lia SpecFloat.
From S2P Require Import Prelude Orders Cell.

(** ** [f64] *)
Abbreviation f64 := spec_float (only parsing).
Abbreviation Weight := spec_float (only parsing).

Definition f64_add : f64 → f64 → f64 := SFadd 53 1024.
Definition f64_div : f64 → f64 → f64 := SFdiv 53 1024.
Definition f64_ltb : f64 → f64 → bool := SFltb.
Definition f64_leb : f64 → f64 → bool := SFleb.

(** [z as f64] *)
Definition f64_of_u64 (z : Z) : f64 := binary_normalize 53 1024 z 0 false.

Definition f64_zero : f64 := S754_zero false.
(** 0.5, the consensus parameter [ALPHA] *)
Definition ALPHA : f64 := f64_div (f64_of_u64 1) (f64_of_u64 2).

Definition percent_of (qty total : Z) : f64 := f64_div (f64_of_u64 qty) (f64_of_u64 total).

Definition f64_mul : f64 → f64 → f64 := SFmul 53 1024.

(** [f64::sqrt] and [f64::ceil] *)
Definition f64_sqrt : f64 → f64 := SFsqrt 53 1024.
Definition f64_ceil (x : f64) : f64 :=
  match x with
  | S754_finite s m e =>
      if (0 <=? e)%Z then x
      else
        let v := if s then Zneg m else Zpos m in
        let c := (- ((- v) / 2 ^ (- e)))%Z in
        if (c =? 0)%Z then S754_zero s else binary_normalize 53 1024 c 0 s
  | _ => x
  end.

(** [x as usize] truncates; negative numbers and [NaN] give 0. *)
Definition f64_to_usize (x : f64) : Z :=
  match x with
  | S754_finite false m e =>
      Z.min (u_max 64) (if (0 <=? e)%Z then Zpos m * 2 ^ e else Zpos m / 2 ^ (- e))
  | S754_infinity false => u_max 64
  | _ => 0
  end.

(** ** Votes and samples *)
Abbreviation Id := bytes (only parsing).

Record SocketAddr : Type := mkSocketAddr { addr_ip : bytes; addr_port : Z }.
#[export] Instance SocketAddr_eq_dec : EqDecision SocketAddr.
Proof. solve_decision. Defined.
#[export] Instance SocketAddr_countable : Countable SocketAddr.
Proof.
  refine (inj_countable' (λ a, (addr_ip a, addr_port a)) (λ p, mkSocketAddr p.1 p.2) _).
  by intros [].
Defined.

Definition sum_outcomes (outcomes : list (Id * Weight * bool)) : f64 :=
  foldl (λ acc (o : Id * Weight * bool), if o.2 then f64_add acc o.1.2 else acc) f64_zero outcomes.

(** [SliceRandom::shuffle]: some permutation, which the random source [seed]
    determines. *)
Class Rng : Type := {
  shuffle : ∀ {A : Type}, nat → list A → list A;
  shuffle_perm : ∀ {A : Type} seed (l : list A), shuffle seed l ≡ₚ l
}.

(** A shuffle that moves nothing: the laws can hold. *)
Definition keep_order : Rng := {|
  shuffle A _ l := l;
  shuffle_perm A _ l := Permutation_refl l
|}.

Fixpoint sample_loop (min_w : Weight) (vs : list (Id * SocketAddr * Weight))
    (sample : list (Id * SocketAddr)) (w : f64) : list (Id * SocketAddr) * f64 :=
  match vs with
  | [] => (sample, w)
  | (id, ip, w_v) :: vs' =>
      if f64_leb min_w w then (sample, w)
      else sample_loop min_w vs' (sample ++ [(id, ip)]) (f64_add w w_v)
  end.

Definition sample_weighted `{Rng} (seed : nat) (min_w : Weight)
    (validators : list (Id * SocketAddr * Weight)) : option (list (Id * SocketAddr)) :=
  let '(sample, w) := sample_loop min_w (shuffle seed validators) [] f64_zero in
  if f64_ltb w min_w then None else Some sample.

Definition has_coinbase_output (cell : Cell) : bool :=
  existsb (λ o, bool_decide (cell_type o = Coinbase)) (outputs cell).

Section sampling.
Context `{Rng}.

(** The weight of a list of validators, added up in order. *)
Definition total_weight (vs : list (Id * SocketAddr * Weight)) : f64 :=
  foldl (λ w (v : Id * SocketAddr * Weight), f64_add w v.2) f64_zero vs.

Lemma sample_loop_spec min_w vs dn :
  ∃ pre post, vs = pre ++ post ∧
    sample_loop min_w vs (fst <$> dn) (total_weight dn) =
      (fst <$> (dn ++ pre), total_weight (dn ++ pre)) ∧
    (post = [] ∨ f64_leb min_w (total_weight (dn ++ pre)) = true) ∧
    (∀ q v r, pre = q ++ v :: r → f64_leb min_w (total_weight (dn ++ q)) = false).
Proof.
  revert dn. induction vs as [|[[id ip] w] vs IH]; intros dn; cbn.
  - exists [], []. rewrite (app_nil_r dn). split_and!; [done|done|auto|].
    intros q v r Hq. by destruct q.
  - destruct (f64_leb min_w (total_weight dn)) eqn:Hle.
    + exists [], ((id, ip, w) :: vs). rewrite (app_nil_r dn). split_and!; [done|done|auto|].
      intros q v r Hq. by destruct q.
    + destruct (IH (dn ++ [(id, ip, w)])) as (pre & post & -> & Heq & Hpost & Hmin).
      unfold total_weight in Heq at 1. rewrite foldl_app, fmap_app in Heq. cbn in Heq.
      exists ((id, ip, w) :: pre), post. rewrite <- app_assoc in *. cbn in *.
      split_and!; [done|exact Heq|done|].
      intros [|v' q] v r Hq; cbn in Hq; simplify_eq/=; [by rewrite app_nil_r|].
      specialize (Hmin q v r eq_refl). by rewrite <- app_assoc in Hmin.
Qed.
End sampling.

(** ** Bounded collections *)
Section bounded.
Context `{Countable K} {V : Type}.

Record BoundedHashMap : Type := mkBoundedMap {
  bm_size : nat;
  bm_elems : gmap K V;
  bm_queue : list K
}.

Definition bounded_map_new (size : nat) : BoundedHashMap := mkBoundedMap size ∅ [].

(** [BoundedHashMap::insert]: a key that is present gets the new value and keeps
    its place; otherwise the oldest key may have to go. *)
Definition bounded_map_insert {E} (k : K) (v : V) : st BoundedHashMap E unit := λ m,
  let elems := <[k := v]> (bm_elems m) in
  match bm_elems m !! k with
  | Some _ => (mkBoundedMap (bm_size m) elems (bm_queue m), Ok tt)
  | None =>
      if (bm_size m <=? size elems)%nat then
        match bm_queue m with
        | [] => (mkBoundedMap (bm_size m) elems [], Panic)
        | e :: queue => (mkBoundedMap (bm_size m) (delete e elems) (queue ++ [k]), Ok tt)
        end
      else (mkBoundedMap (bm_size m) elems (bm_queue m ++ [k]), Ok tt)
  end.

Record BoundedHashSet : Type := mkBoundedSet {
  bs_size : nat;
  bs_elems : gset K;
  bs_queue : list K
}.

Definition bounded_set_new (size : nat) : BoundedHashSet := mkBoundedSet size ∅ [].

Definition bounded_set_insert {E} (k : K) : st BoundedHashSet E unit := λ s,
  let elems := {[ k ]} ∪ bs_elems s in
  if bool_decide (k ∈ bs_elems s) then (s, Ok tt)
  else if (bs_size s <=? size elems)%nat then
    match bs_queue s with
    | [] => (mkBoundedSet (bs_size s) elems [], Panic)
    | e :: queue => (mkBoundedSet (bs_size s) (elems ∖ {[ e ]}) (queue ++ [k]), Ok tt)
    end
  else (mkBoundedSet (bs_size s) elems (bs_queue s ++ [k]), Ok tt).

(** The queue lists the keys once each, oldest first, and is never full. *)
Record bounded_wf (m : BoundedHashMap) : Prop := {
  bmw_size : 2 ≤ bm_size m;
  bmw_nodup : NoDup (bm_queue m);
  bmw_dom : ∀ k, k ∈ bm_queue m ↔ is_Some (bm_elems m !! k);
  bmw_bound : length (bm_queue m) < bm_size m
}.

Lemma bounded_new_wf n : 2 ≤ n → bounded_wf (bounded_map_new n).
Proof. intros Hn. split; cbn; [done|constructor| |lia]. intros k. split; [set_solver|by intros []]. Qed.

(** The last [n] elements. *)
Definition lastn (n : nat) (l : list K) : list K := drop (length l - n) l.

Lemma bounded_size m : bounded_wf m → size (bm_elems m) = length (bm_queue m).
Proof.
  intros Hwf. rewrite <- size_dom, <- (size_list_to_set (C:=gset K) (bm_queue m)) by apply Hwf.
  f_equal. apply set_eq. intros k. rewrite elem_of_list_to_set, elem_of_dom.
  symmetry. apply Hwf.
Qed.

Lemma bounded_insert_spec {E} m k v :
  bounded_wf m →
  ∃ m', bounded_map_insert (E:=E) k v m = (m', Ok tt) ∧ bounded_wf m' ∧
    bm_size m' = bm_size m ∧
    bm_queue m' = (if decide (k ∈ bm_queue m) then bm_queue m
                   else lastn (bm_size m - 1) (bm_queue m ++ [k])) ∧
    (∀ k', bm_elems m' !! k' =
       if decide (k' ∈ bm_queue m') then <[k := v]> (bm_elems m) !! k' else None).
Proof.
  intros Hwf. pose proof (bounded_size m Hwf) as Hsz. destruct Hwf as [Hs Hnd Hd Hb].
  unfold bounded_map_insert. destruct (bm_elems m !! k) as [v0|] eqn:Hk.
  - eexists. split; [done|]. assert (k ∈ bm_queue m) as Hin by (apply Hd; eauto).
    rewrite decide_True by done. split_and!; [|done..|].
    + split; cbn; [done..| |done]. intros k'. rewrite Hd, lookup_insert_is_Some.
      destruct (decide (k = k')) as [<-|]; naive_solver.
    + intros k'. cbn. case_decide as Hk'; [done|]. rewrite Hd in Hk'.
      apply eq_None_not_Some in Hk'. rewrite lookup_insert_ne; [done|]. congruence.
  - assert (k ∉ bm_queue m) as Hout by (rewrite Hd, Hk; by intros []).
    rewrite (decide_False (P:=k ∈ bm_queue m)) by done.
    rewrite map_size_insert_None, Hsz by done.
    destruct (Nat.leb_spec (bm_size m) (S (length (bm_queue m)))) as [Hfull|Hroom].
    + destruct (bm_queue m) as [|e q] eqn:Hq; cbn in Hb, Hfull; [lia|].
      apply NoDup_cons in Hnd as [He Hndq].
      assert (lastn (bm_size m - 1) ((e :: q) ++ [k]) = q ++ [k]) as Hlast.
      { unfold lastn. cbn. rewrite length_app. cbn.
        by replace (S (length q + 1) - (bm_size m - 1)) with 1 by lia. }
      assert (∀ k', k' ∈ q ++ [k] ↔ is_Some (delete e (<[k := v]> (bm_elems m)) !! k')) as Hdom.
      { intros k'. rewrite lookup_delete_is_Some, lookup_insert_is_Some, <- Hd.
        set_solver. }
      eexists. split; [done|].
      cbn [bm_size bm_queue bm_elems]. rewrite Hlast. split_and!; [|done..|].
      * split; cbn; [done| |exact Hdom|rewrite length_app; cbn; lia].
        apply NoDup_app. split_and!; [done|set_solver|apply NoDup_singleton].
      * intros k'. case_decide as Hk'; [|by apply eq_None_not_Some; rewrite <- Hdom].
        rewrite lookup_delete_ne; [done|]. intros <-. set_solver.
    + assert (lastn (bm_size m - 1) (bm_queue m ++ [k]) = bm_queue m ++ [k]) as Hlast.
      { unfold lastn. rewrite length_app. cbn.
        by replace (length (bm_queue m) + 1 - (bm_size m - 1)) with 0 by lia. }
      assert (∀ k', k' ∈ bm_queue m ++ [k] ↔ is_Some (<[k := v]> (bm_elems m) !! k')) as Hdom.
      { intros k'. rewrite lookup_insert_is_Some, <- Hd. set_solver. }
      eexists. split; [done|].
      cbn [bm_size bm_queue bm_elems]. rewrite Hlast. split_and!; [|done..|].
      * split; cbn; [done| |exact Hdom|rewrite length_app; cbn; lia].
        apply NoDup_app. split_and!; [done|set_solver|apply NoDup_singleton].
      * intros k'. case_decide as Hk'; [done|]. by apply eq_None_not_Some; rewrite <- Hdom.
Qed.

(** The same invariant for the set. *)
Record bounded_set_wf (s : BoundedHashSet) : Prop := {
  bsw_size : 2 ≤ bs_size s;
  bsw_nodup : NoDup (bs_queue s);
  bsw_elems : bs_elems s = list_to_set (bs_queue s);
  bsw_bound : length (bs_queue s) < bs_size s
}.

Lemma bounded_set_new_wf n : 2 ≤ n → bounded_set_wf (bounded_set_new n).
Proof. intros Hn. split; cbn; [done|constructor|done|lia]. Qed.

Lemma bounded_set_insert_spec {E} s k :
  bounded_set_wf s →
  ∃ s', bounded_set_insert (E:=E) k s = (s', Ok tt) ∧ bounded_set_wf s' ∧ k ∈ bs_elems s'.
Proof.
  intros [Hs Hnd He Hb]. unfold bounded_set_insert. case_bool_decide as Hk.
  - eexists. split; [done|]. by split.
  - assert (k ∉ bs_queue s) as Hout by (rewrite He, elem_of_list_to_set in Hk; done).
    assert (size ({[ k ]} ∪ bs_elems s) = S (length (bs_queue s))) as ->.
    { rewrite size_union, size_singleton, He, size_list_to_set by set_solver. done. }
    destruct (Nat.leb_spec (bs_size s) (S (length (bs_queue s)))) as [Hfull|Hroom].
    + destruct (bs_queue s) as [|e q] eqn:Hq; cbn in Hb, Hfull; [lia|].
      apply NoDup_cons in Hnd as [Heq Hndq].
      eexists. split; [done|]. split; [split|]; cbn.
      * done.
      * apply NoDup_app. split_and!; [done|set_solver|apply NoDup_singleton].
      * rewrite He, list_to_set_app_L. cbn. set_solver.
      * rewrite length_app. cbn. lia.
      * set_solver.
    + eexists. split; [done|]. split; [split|]; cbn.
      * done.
      * apply NoDup_app. split_and!; [done|set_solver|apply NoDup_singleton].
      * rewrite He, list_to_set_app_L. cbn. set_solver.
      * rewrite length_app. cbn. lia.
      * set_solver.
Qed.
End bounded.

Arguments BoundedHashMap K {_ _} V.
Arguments BoundedHashSet K {_ _}.

(** ** Properties *)
Section properties.
Context `{Countable K} {V : Type}.

Lemma lastn_snoc n (l : list K) x : 1 ≤ n → lastn n (lastn n l ++ [x]) = lastn n (l ++ [x]).
Proof.
  intros Hn. unfold lastn. rewrite !length_app, !length_drop. cbn.
  destruct (decide (length l < n)) as [Hlt|Hge].
  - replace (length l - n) with 0 by lia. rewrite drop_0.
    by replace (length l - 0 + 1 - n) with (length l + 1 - n) by lia.
  - replace (length l - (length l - n) + 1 - n) with 1 by lia.
    replace (length l + 1 - n) with ((length l - n) + 1) by lia.
    rewrite <- drop_drop, (drop_app_le l [x]) by lia. done.
Qed.

Lemma elem_of_lastn n (l : list K) x : x ∈ lastn n l → x ∈ l.
Proof.
  unfold lastn. intros Hin. rewrite <- (take_drop (length l - n) l). set_solver.
Qed.

(** A bounded map created for [n] entries, [n] at least 2, never panics and
    holds exactly the [n - 1] most recently inserted keys with their values: one
    less than the capacity it is created for. *)
Theorem bounded_map_keeps_latest (n : nat) (kvs : list (K * V)) :
  2 ≤ n → NoDup kvs.*1 →
  ∃ m, foreach kvs (λ p, bounded_map_insert (E:=unit) p.1 p.2) (bounded_map_new n) = (m, Ok tt) ∧
    bm_queue m = lastn (n - 1) kvs.*1 ∧
    size (bm_elems m) ≤ n - 1 ∧
    ∀ k v, (k, v) ∈ kvs →
      bm_elems m !! k = if decide (k ∈ lastn (n - 1) kvs.*1) then Some v else None.
Proof.
  intros Hn Hnd.
  destruct (foreach_inv (λ pre m, bounded_wf m ∧ bm_size m = n ∧
      bm_queue m = lastn (n - 1) pre.*1 ∧ ∀ k v, (k, v) ∈ pre →
      bm_elems m !! k = if decide (k ∈ bm_queue m) then Some v else None)
    kvs (λ p, bounded_map_insert (E:=unit) p.1 p.2) (bounded_map_new n))
    as (m & Hf & Hwf & Hsz & Hq & He).
  - split_and!; [by apply bounded_new_wf|done|done|set_solver].
  - intros pre [k v] post m0 Hl (Hwf & Hsz & Hq & He). cbn.
    rewrite Hl, fmap_app in Hnd. apply NoDup_app in Hnd as (_ & Hdisj & _).
    assert (k ∉ pre.*1) as Hfresh by (intros Hin; apply (Hdisj k Hin); set_solver).
    destruct (bounded_insert_spec (E:=unit) m0 k v Hwf) as (m1 & Hi & Hwf1 & Hsz1 & Hq1 & He1).
    assert (bm_queue m1 = lastn (n - 1) (pre ++ [(k, v)]).*1) as Hq1'.
    { rewrite Hq1, Hq, Hsz, decide_False by (intros ?%elem_of_lastn; done).
      rewrite fmap_app. apply lastn_snoc. lia. }
    exists m1. split_and!; [done|done|congruence|done|].
    intros k' v' Hin. rewrite He1.
    destruct (decide (k' ∈ bm_queue m1)) as [Hk'|Hk']; [|done].
    apply elem_of_app in Hin as [Hin|[= -> ->]%list_elem_of_singleton].
    + assert (k ≠ k') as Hne.
      { intros ->. apply Hfresh. by apply (list_elem_of_fmap_2 fst) in Hin. }
      rewrite lookup_insert_ne, (He k' v' Hin) by done. apply decide_True.
      rewrite Hq1, Hq, Hsz in Hk'. rewrite Hq.
      rewrite decide_False in Hk' by (intros ?%elem_of_lastn; done).
      apply elem_of_lastn in Hk'. set_solver.
    + by rewrite lookup_insert_eq.
  - exists m. rewrite <- Hq. split_and!; [done|done| |done].
    rewrite (bounded_size m Hwf). pose proof (bmw_bound m Hwf). lia.
Qed.
End properties.

Lemma bounded_map_keeps_latest_witness :
  ∃ m, foreach [(1, 1); (2, 2); (3, 3); (4, 4)] (λ p, bounded_map_insert (E:=unit) p.1 p.2)
         (bounded_map_new (K:=nat) 3) = (m, Ok tt) ∧
       bm_queue m = lastn 2 [1; 2; 3; 4].
Proof.
  destruct (bounded_map_keeps_latest 3 [(1, 1); (2, 2); (3, 3); (4, 4)]) as (m & H1 & H2 & _).
  - lia.
  - apply (bool_decide_unpack _). vm_compute. exact I.
  - exists m. split; [exact H1|exact H2].
Defined.

(** A sample is a prefix of a shuffle of the committee: its weight, added in
    that order, is not below the minimum, and no shorter prefix reached the
    minimum; there is no sample exactly when the whole committee weighs less. *)
Theorem sample_weighted_minimal `{Rng} seed min_w validators :
  ∃ pre post, pre ++ post ≡ₚ validators ∧
    (∀ q v r, pre = q ++ v :: r → f64_leb min_w (total_weight q) = false) ∧
    (sample_weighted seed min_w validators =
       if f64_ltb (total_weight pre) min_w then None else Some (fst <$> pre)) ∧
    (post = [] ∨ f64_leb min_w (total_weight pre) = true).
Proof.
  destruct (sample_loop_spec min_w (shuffle seed validators) []) as (pre & post & Hs & Heq & Hp & Hm).
  exists pre, post. rewrite <- Hs, shuffle_perm. split_and!; [done|exact Hm| |exact Hp].
  unfold sample_weighted. change ([] : list (Id * SocketAddr)) with (fst <$> ([] : list (Id * SocketAddr * Weight))).
  change f64_zero with (total_weight []). by rewrite Heq.
Qed.
