(* ===== verification/Operations.v ===== *)
(** * Operations.v: spending cells (src/src/cell/cell_operation.rs,
      src/src/alpha/coinbase.rs, transfer.rs, stake.rs, initial_staker.rs, block.rs)

    [consume_from_cell] takes an amount out of the outputs that a key owns; the
    transfer and stake operations build a new cell from what it returns. *)

From stdpp Require Import prelude gmap sets fin_sets list strings.
From Stdlib Require Import ZArith Lia.
From S2P Require Import Prelude Orders Cell Instances Dag Blocks Util.

(** [bincode] on the data of the three types of outputs. *)
Class StateCodec : Type := {
  ser_coinbase_state : bytes;
  de_coinbase_state : bytes → res string unit;
  ser_transfer_state : bytes;
  de_transfer_state : bytes → res string unit;
  ser_stake_state : Id → bytes;
  de_stake_state : bytes → res string Id
}.

Class StateCodecLaws `{StateCodec} : Prop := {
  de_ser_coinbase_state : de_coinbase_state ser_coinbase_state = Ok tt;
  de_ser_transfer_state : de_transfer_state ser_transfer_state = Ok tt;
  de_ser_stake_state : ∀ id, de_stake_state (ser_stake_state id) = Ok id
}.

Section operations.
Context `{Crypto, IterOrder, BuildProfile, StateCodec}.

(** ** Outputs of each type *)

Definition coinbase_output (recipient_address : PublicKeyHash) (c : Capacity) :
    res AlphaError.Error Output :=
  Ok {| capacity := c; cell_type := Coinbase; data := ser_coinbase_state;
        lock := recipient_address |}.

Definition transfer_output (pkh : PublicKeyHash) (c : Capacity) :
    res AlphaError.Error Output :=
  Ok {| capacity := c; cell_type := Transfer; data := ser_transfer_state; lock := pkh |}.

Definition stake_output (node_id : Id) (pkh : PublicKeyHash) (c : Capacity) :
    res AlphaError.Error Output :=
  Ok {| capacity := c; cell_type := Stake; data := ser_stake_state node_id; lock := pkh |}.

(** ** [consume_from_cell] *)

Record ConsumeResult : Type := mkConsume {
  cr_consumed : Capacity;
  cr_residue : Capacity;
  cr_inputs : list Input
}.

Definition validate_output (o : Output) : res AlphaError.Error unit :=
  match cell_type o with
  | Coinbase => map_err AlphaError.Bincode (de_coinbase_state (data o))
  | Transfer => map_err AlphaError.Bincode (de_transfer_state (data o))
  | Stake => _ ← map_err AlphaError.Bincode (de_stake_state (data o)); Ok tt
  end.

Definition validate_capacity (os : list Output) (c : Capacity) (fee : Z) :
    res AlphaError.Error unit :=
  total ← u_sum 64 0 (capacity <$> os);
  if (c =? 0)%Z then Err AlphaError.ZeroTransfer
  else if (total <? fee)%Z || (total - fee <? c)%Z then Err AlphaError.ExceedsAvailableFunds
  else Ok tt.

(** The first loop: the vectors [owned_outputs] and [output_indices], whose
    entries correspond. *)
Fixpoint owned_outputs (pkh : PublicKeyHash) (os : list Output) (output_index : Z) :
    res AlphaError.Error (list (Output * Z)) :=
  match os with
  | [] => Ok []
  | o :: os' =>
      _ ← map_err AlphaError.Cell (output_validate_capacity o);
      _ ← validate_output o;
      next ← u_add 8 output_index 1;
      r ← owned_outputs pkh os' next;
      Ok (if decide (lock o = pkh) then (o, output_index) :: r else r)
  end.

(** The second loop. *)
Fixpoint consume_loop (kp : Keypair) (h : CellHash) (amount : Capacity)
    (owned : list (Output * Z)) (spending_capacity residue consumed : Z)
    (acc : list Input) : res AlphaError.Error ConsumeResult :=
  match owned with
  | [] => Ok (mkConsume consumed residue acc)
  | (o, i) :: owned' =>
      if (consumed <? amount)%Z then
        input ← map_err AlphaError.Cell (input_new kp h i);
        if (capacity o <=? spending_capacity)%Z then
          spending' ← u_sub 64 spending_capacity (capacity o);
          consumed' ← u_add 64 consumed (capacity o);
          consume_loop kp h amount owned' spending' residue consumed' (acc ++ [input])
        else
          consumed' ← u_add 64 consumed spending_capacity;
          residue' ← u_sub 64 (capacity o) spending_capacity;
          consume_loop kp h amount owned' spending_capacity residue' consumed' (acc ++ [input])
      else Ok (mkConsume consumed residue acc)
  end.

Definition consume_from_cell (c : Cell) (amount : Capacity) (owner_key : Keypair) :
    res AlphaError.Error ConsumeResult :=
  let encoded_public := ser_public_key (public owner_key) in
  let pkh := blake3 encoded_public in
  owned ← owned_outputs pkh (outputs c) 0;
  _ ← validate_capacity owned.*1 amount FEE;
  match owned with
  | [] => Err AlphaError.UnspendableCell
  | _ => consume_loop owner_key (hash c) amount owned amount 0 0 []
  end.

(** ** The operations *)

(** [CoinbaseOperation::try_into] *)
Definition coinbase_operation (recipients : list (PublicKeyHash * Capacity)) :
    res AlphaError.Error Cell :=
  os ← try_map (λ r : PublicKeyHash * Capacity, coinbase_output r.1 r.2) recipients;
  Ok (cell_new (inputs_new []) (outputs_new os)).

Record TransferOperation : Type := mkTransfer {
  to_cell : Cell;
  to_recipient_address : PublicKeyHash;
  to_change_address : PublicKeyHash;
  to_capacity : Capacity
}.

(** [TransferOperation::transfer] *)
Definition transfer (op : TransferOperation) (kp : Keypair) : res AlphaError.Error Cell :=
  r ← consume_from_cell (to_cell op) (to_capacity op) kp;
  main_output ← transfer_output (to_recipient_address op) (cr_consumed r);
  os ← (if (FEE <? cr_residue r)%Z && (0 <? cr_residue r - FEE)%Z then
          change ← transfer_output (to_change_address op) (cr_residue r - FEE);
          Ok [main_output; change]
        else Ok [main_output]);
  Ok (cell_new (inputs_new (cr_inputs r)) (outputs_new os)).

Record StakeOperation : Type := mkStake {
  so_cell : Cell;
  so_node_id : Id;
  so_address : PublicKeyHash;
  so_capacity : Capacity
}.

(** [StakeOperation::stake] *)
Definition stake (op : StakeOperation) (kp : Keypair) : res AlphaError.Error Cell :=
  r ← consume_from_cell (so_cell op) (so_capacity op) kp;
  main_output ← stake_output (so_node_id op) (so_address op) (cr_consumed r);
  os ← (if (FEE <? cr_residue r)%Z && (0 <? cr_residue r - FEE)%Z then
          change ← transfer_output (so_address op) (cr_residue r - FEE);
          Ok [main_output; change]
        else Ok [main_output]);
  Ok (cell_new (inputs_new (cr_inputs r)) (outputs_new os)).

(** ** The genesis block *)

(** A decoded entry of [genesis_stakers]; the key is decoded by ed25519_dalek. *)
Record InitialStaker : Type := mkStaker {
  is_keypair : Keypair;
  is_node_id : Id;
  is_total_allocation : Capacity;
  is_staked_allocation : Capacity
}.

Definition public_key_hash (s : InitialStaker) : res AlphaError.Error PublicKeyHash :=
  let encoded := ser_public_key (public (is_keypair s)) in
  Ok (blake3 encoded).

(** [genesis_vrf_out] *)
Definition genesis_vrf_out : bytes :=
  [0x57; 0xe1; 0xe7; 0x74; 0xe9; 0x76; 0x85; 0xb9; 0xdc; 0x2d; 0xbc; 0xb7; 0xa3; 0x27;
   0xfa; 0x96; 0xa6; 0x0d; 0xcd; 0xa0; 0x91; 0x9a; 0xd1; 0xb7; 0x58; 0x77; 0x88; 0x5b;
   0xd2; 0x19; 0xbf; 0xc4]%Z.

Definition build_genesis (initial_stakers : list InitialStaker) :
    res AlphaError.Error Block :=
  allocations ← try_map (λ s, pkh ← public_key_hash s; Ok (pkh, is_total_allocation s))
    initial_stakers;
  allocations_tx ← coinbase_operation allocations;
  cs ← try_map (λ s, pkh ← public_key_hash s;
         stake (mkStake allocations_tx (is_node_id s) pkh (is_staked_allocation s))
           (is_keypair s)) initial_stakers;
  Ok (mkBlock None 0 genesis_vrf_out (cs ++ [allocations_tx])).
End operations.

(** ** Facts *)
Section operations_facts.
Context `{Crypto, IterOrder, BuildProfile, StateCodec}.
Implicit Types (c : Cell) (kp : Keypair) (amount : Z) (owned used : list (Output * Z)).

(** The hash of the public key of an owner. *)
Definition owner_hash kp : PublicKeyHash := blake3 (ser_public_key (public kp)).

(** The outputs of [c] that [kp] owns, with their indices. *)
Definition owned_of kp c : list (Output * Z) :=
  filter (λ p : Output * Z, lock p.1 = owner_hash kp)
    (imap (λ i o, (o, Z.of_nat i)) (outputs c)).

Definition value owned : Z := zsum ((λ p : Output * Z, capacity p.1) <$> owned).

(** The outputs decode, are few enough to be numbered by a byte, and their
    capacities and their sum are 64-bit numbers. *)
Record spendable kp c : Prop := {
  sp_valid : Forall (λ o, validate_output o = Ok tt) (outputs c);
  sp_count : length (outputs c) ≤ 255;
  sp_range : Forall (λ o, in_range 64 (capacity o)) (outputs c);
  sp_total : in_range 64 (value (owned_of kp c))
}.

(** The input that spends an indexed output of [c]. *)
Definition spend_input_of kp c (p : Output * Z) : Input :=
  {| output_index := {| cell_hash := hash c; index := p.2 |};
     unlock := {| public_key := public kp; signature := sign kp (out_id (hash c) p.2) |} |}.

(** [used] is the shortest prefix of the owned outputs that covers the amount. *)
Record covers owned used amount : Prop := {
  cov_prefix : used `prefix_of` owned;
  cov_enough : (amount ≤ value used)%Z;
  cov_minimal : ∀ pre suf, used = pre ++ suf → suf ≠ [] → (value pre < amount)%Z
}.

Lemma owned_outputs_Ok pkh os idx :
  Forall (λ o, validate_output o = Ok tt) os → (0 ≤ idx)%Z →
  (idx + Z.of_nat (length os) ≤ 255)%Z →
  owned_outputs pkh os idx = Ok (filter (λ p : Output * Z, lock p.1 = pkh)
    (imap (λ i o, (o, idx + Z.of_nat i)%Z) os)).
Proof.
  intros Hv. revert idx. induction Hv as [|o os Ho Hv IH]; intros idx Hi Hl; [done|].
  cbn [length] in Hl. cbn [owned_outputs map_err output_validate_capacity mbind res_bind].
  rewrite Ho. cbn [mbind res_bind]. unfold u_add.
  rewrite u_norm_in_range by (unfold in_range; lia). cbn [mbind res_bind].
  rewrite IH by lia. cbn [mbind res_bind imap]. f_equal. rewrite filter_cons.
  rewrite (imap_ext (λ i o, (o, (idx + 1 + Z.of_nat i)%Z))
    ((λ i o, (o, (idx + Z.of_nat i)%Z)) ∘ S)) by (intros; cbn; f_equal; lia).
  cbn [fst]. replace (idx + Z.of_nat 0)%Z with idx by lia. by case_decide.
Qed.

Lemma value_cons p owned : value (p :: owned) = (capacity p.1 + value owned)%Z.
Proof. done. Qed.

Lemma value_app o1 o2 : value (o1 ++ o2) = (value o1 + value o2)%Z.
Proof. unfold value. by rewrite fmap_app, zsum_app. Qed.

Lemma covers_nil owned amount : (amount = 0)%Z → covers owned [] amount.
Proof.
  intros ->. split; [apply prefix_nil|done|]. intros pre suf Heq.
  symmetry in Heq. apply app_eq_nil in Heq as [_ ->]. done.
Qed.

Lemma covers_cons p owned used amount :
  (0 < amount)%Z → covers owned used (amount - capacity p.1) →
  covers (p :: owned) (p :: used) amount.
Proof.
  intros Ha [Hp He Hm]. split; [by apply prefix_cons|rewrite value_cons; lia|].
  intros [|q pre] suf Heq Hs; [done|]. cbn in Heq. simplify_eq.
  rewrite value_cons. specialize (Hm pre suf eq_refl Hs). lia.
Qed.

Lemma covers_one p owned amount :
  (0 < amount ≤ capacity p.1)%Z → covers (p :: owned) [p] amount.
Proof.
  intros Ha. split; [apply prefix_cons, prefix_nil|rewrite value_cons; unfold value; cbn; lia|].
  intros [|q [|q' pre]] suf Heq Hs; cbn in Heq; simplify_eq; try done. cbn. lia.
Qed.

Lemma consume_loop_Ok kp c amount owned spending consumed acc :
  Forall (λ p : Output * Z, in_range 64 (capacity p.1)) owned →
  (0 ≤ spending)%Z → (0 ≤ consumed)%Z → (consumed + spending = amount)%Z →
  in_range 64 amount → (spending ≤ value owned)%Z →
  ∃ used, covers owned used spending ∧
    consume_loop kp (hash c) amount owned spending 0 consumed acc =
      Ok (mkConsume amount (value used - spending) (acc ++ (spend_input_of kp c <$> used))).
Proof.
  intros Hr. revert spending consumed acc.
  induction Hr as [|[o i] owned Ho Hr IH]; intros spending consumed acc Hs Hc Hsum Ha Hv.
  - change (value []) with 0%Z in Hv. exists []. split; [apply covers_nil; lia|].
    cbn. rewrite app_nil_r. do 2 f_equal; lia.
  - destruct (decide (spending = 0)%Z) as [->|Hne].
    { exists []. split; [by apply covers_nil|]. cbn.
      rewrite (proj2 (Z.ltb_ge _ _)), app_nil_r by lia. do 2 f_equal; lia. }
    cbn [consume_loop input_new map_err mbind res_bind].
    rewrite (proj2 (Z.ltb_lt consumed amount)) by lia.
    cbn in Ho. unfold in_range in Ho, Ha. rewrite value_cons in Hv. cbn [fst] in Hv.
    change (map_err _ (input_new kp (hash c) i)) with
      (@Ok AlphaError.Error _ (spend_input_of kp c (o, i))). cbn [mbind res_bind].
    destruct (Z.leb_spec (capacity o) spending) as [Hcap|Hcap]; unfold u_add, u_sub;
      rewrite !u_norm_in_range by (unfold in_range; lia); cbn [mbind res_bind];
      rewrite ?u_norm_in_range by (unfold in_range; lia); cbn [mbind res_bind].
    + destruct (IH (spending - capacity o)%Z (consumed + capacity o)%Z
        (acc ++ [spend_input_of kp c (o, i)])) as (used & Hcov & ->);
        [unfold in_range; lia..|].
      exists ((o, i) :: used). split; [apply covers_cons; [lia|done]|].
      rewrite value_cons. cbn [fst fmap list_fmap]. rewrite <- app_assoc. do 2 f_equal. lia.
    + exists [(o, i)]. split; [apply covers_one; cbn; lia|].
      replace (consumed + spending)%Z with amount.
      destruct owned as [|[o' i'] owned]; cbn [consume_loop];
        rewrite ?(proj2 (Z.ltb_ge amount amount)) by lia; unfold value; cbn;
        do 2 f_equal; lia.
Qed.

Lemma owned_of_range kp c :
  spendable kp c → Forall (λ p : Output * Z, in_range 64 (capacity p.1)) (owned_of kp c).
Proof.
  intros [_ _ Hr _]. apply Forall_forall. intros [o i] [_ Hin]%list_elem_of_filter.
  apply elem_of_lookup_imap in Hin as (k & o' & Heq & Hk%list_elem_of_lookup_2). simplify_eq.
  rewrite Forall_forall in Hr. by apply Hr.
Qed.

Lemma value_nonneg kp c : spendable kp c → (0 ≤ value (owned_of kp c))%Z.
Proof. intros [_ _ _ [? _]]. done. Qed.

Lemma validate_capacity_Ok kp c amount :
  spendable kp c → (0 ≤ amount)%Z →
  validate_capacity (owned_of kp c).*1 amount FEE =
    if (amount =? 0)%Z then Err AlphaError.ZeroTransfer
    else if (value (owned_of kp c) - FEE <? amount)%Z then Err AlphaError.ExceedsAvailableFunds
    else Ok tt.
Proof.
  intros Hs Ha. pose proof (owned_of_range kp c Hs) as Hr. pose proof (value_nonneg kp c Hs).
  unfold validate_capacity. rewrite <- list_fmap_compose.
  change (zsum _) with (value (owned_of kp c)) in *.
  rewrite u_sum_Ok; [|lia| |apply Hs].
  - cbn [mbind res_bind]. rewrite Z.add_0_l. change (zsum _) with (value (owned_of kp c)).
    destruct (Z.eqb_spec amount 0); [done|]. unfold FEE.
    destruct (Z.ltb_spec (value (owned_of kp c)) 3); cbn [orb]; [|done].
    by rewrite (proj2 (Z.ltb_lt _ _)) by lia.
  - apply Forall_fmap. eapply Forall_impl; [exact Hr|]. intros p [??]. done.
Qed.

Lemma consume_from_cell_Ok kp c amount :
  spendable kp c → (0 < amount ≤ value (owned_of kp c) - FEE)%Z →
  ∃ used, covers (owned_of kp c) used amount ∧
    consume_from_cell c amount kp =
      Ok (mkConsume amount (value used - amount) (spend_input_of kp c <$> used)).
Proof.
  intros Hs Ha. pose proof (sp_total _ _ Hs) as Ht. unfold in_range, FEE in *.
  destruct (consume_loop_Ok kp c amount (owned_of kp c) amount 0 [])
    as (used & Hcov & Hloop); [by apply owned_of_range|unfold in_range; lia..|].
  exists used. split; [done|]. unfold consume_from_cell.
  rewrite owned_outputs_Ok by (apply Hs || (pose proof (sp_count _ _ Hs); lia)).
  cbn [mbind res_bind]. change (filter _ _) with (owned_of kp c).
  rewrite validate_capacity_Ok by (done || lia). unfold FEE.
  rewrite (proj2 (Z.eqb_neq _ _)), (proj2 (Z.ltb_ge _ _)) by lia. cbn [mbind res_bind].
  destruct (owned_of kp c) eqn:Ho; [|exact Hloop].
  change (value []) with 0%Z in Ha. lia.
Qed.

(** The inputs spend outputs of the cell. *)
Lemma spends_produced kp c used :
  spendable kp c → used `prefix_of` owned_of kp c →
  consumed_ids (cell_new (inputs_new (spend_input_of kp c <$> used)) []) ⊆ produced_ids c.
Proof.
  intros Hs [rest Hp] id. unfold consumed_ids, cell_new, inputs_new. cbn [inputs].
  rewrite elem_of_map. intros (inp & -> & Hin).
  apply elem_of_list_to_set, list_elem_of_fmap in Hin as ([o i] & -> & Hu). cbn.
  assert ((o, i) ∈ owned_of kp c) as [_ Hoi]%list_elem_of_filter by (rewrite Hp; set_solver).
  apply elem_of_lookup_imap in Hoi as (k & o' & Heq & Hk). simplify_eq.
  apply elem_of_list_to_set, elem_of_lookup_imap. exists k, o'. split; [|done].
  pose proof (lookup_lt_Some _ _ _ Hk). pose proof (sp_count _ _ Hs).
  rewrite Z.mod_small by lia. done.
Qed.

(** The change that an operation gives back: what is left after the fee. *)
Definition change_of (address : PublicKeyHash) (residue : Z) : list Output :=
  if (FEE <? residue)%Z then
    [{| capacity := residue - FEE; cell_type := Transfer; data := ser_transfer_state;
        lock := address |}]
  else [].

(** The new cell of an operation: [main] and the change, paid for by [used]. *)
Definition pays kp c used amount (main : Output) (address : PublicKeyHash) c' : Prop :=
  inputs c' = list_to_set (spend_input_of kp c <$> used) ∧
  consumed_ids c' ⊆ produced_ids c ∧
  outputs c' ≡ₚ main :: change_of address (value used - amount) ∧
  value used = (zsum (capacity <$> outputs c') + Z.min FEE (value used - amount))%Z.

Lemma pays_intro kp c used amount main address :
  spendable kp c → covers (owned_of kp c) used amount → capacity main = amount →
  pays kp c used amount main address
    (cell_new (inputs_new (spend_input_of kp c <$> used))
       (outputs_new (main :: change_of address (value used - amount)))).
Proof.
  intros Hs Hcov Hm. unfold pays. cbn [inputs outputs cell_new].
  unfold outputs_new. split_and!; [done| |apply sort_perm|].
  - pose proof (spends_produced kp c used Hs (cov_prefix _ _ _ Hcov)). done.
  - destruct Hcov as [_ He _]. rewrite sort_perm. unfold change_of, FEE.
    destruct (Z.ltb_spec 3 (value used - amount)); cbn; lia.
Qed.

Lemma change_outputs main address residue :
  (if (FEE <? residue)%Z && (0 <? residue - FEE)%Z then
     change ← transfer_output address (residue - FEE); Ok [main; change]
   else Ok [main]) = @Ok AlphaError.Error _ (main :: change_of address residue).
Proof.
  unfold change_of. destruct (Z.ltb_spec FEE residue); [|done].
  rewrite (proj2 (Z.ltb_lt _ _)) by lia. done.
Qed.

Lemma consume_loop_error kp h amount owned sp rs cs acc :
  consume_loop kp h amount owned sp rs cs acc ≠ Err AlphaError.UnspendableCell.
Proof.
  revert sp rs cs acc. induction owned as [|[o i] owned IH]; intros; cbn; [done|].
  destruct (cs <? amount)%Z; [|done]. unfold u_add, u_sub.
  destruct (capacity o <=? sp)%Z.
  - destruct (u_norm 64 (sp - _)) eqn:Hn1; cbn; [|by apply u_norm_no_Err in Hn1|done|done].
    destruct (u_norm 64 (cs + _)) eqn:Hn2; cbn; [apply IH|by apply u_norm_no_Err in Hn2|done|done].
  - destruct (u_norm 64 (cs + _)) eqn:Hn1; cbn; [|by apply u_norm_no_Err in Hn1|done|done].
    destruct (u_norm 64 (capacity o - _)) eqn:Hn2; cbn; [apply IH|by apply u_norm_no_Err in Hn2|done|done].
Qed.

(** *** Properties *)

(** Taking an amount out of a cell, on every branch.  An amount of zero and
    an amount that the owned outputs do not cover together with the fee are
    refused; otherwise the shortest covering prefix of the owned outputs is
    spent, one input per output, the amount is reported as consumed and the
    surplus as residue. *)
Theorem consume_from_cell_spec kp c amount :
  spendable kp c → in_range 64 amount →
  (amount = 0%Z → consume_from_cell c amount kp = Err AlphaError.ZeroTransfer) ∧
  ((0 < amount)%Z → (value (owned_of kp c) < amount + FEE)%Z →
     consume_from_cell c amount kp = Err AlphaError.ExceedsAvailableFunds) ∧
  ((0 < amount)%Z → (amount + FEE ≤ value (owned_of kp c))%Z →
     ∃ used, covers (owned_of kp c) used amount ∧
       consume_from_cell c amount kp =
         Ok (mkConsume amount (value used - amount) (spend_input_of kp c <$> used))).
Proof.
  intros Hs [Ha _].
  assert (∀ e, validate_capacity (owned_of kp c).*1 amount FEE = Err e →
    consume_from_cell c amount kp = Err e) as Herr.
  { intros e He. unfold consume_from_cell.
    rewrite owned_outputs_Ok by (apply Hs || (pose proof (sp_count _ _ Hs); lia)).
    cbn [mbind res_bind]. change (filter _ _) with (owned_of kp c). by rewrite He. }
  rewrite validate_capacity_Ok in Herr by done. split_and!.
  - intros ->. by apply Herr.
  - intros Hp Hv. apply Herr. rewrite (proj2 (Z.eqb_neq _ _)), (proj2 (Z.ltb_lt _ _)) by lia.
    done.
  - intros. apply consume_from_cell_Ok; [done|lia].
Qed.

(** The error [UnspendableCell], documented for a cell without outputs of
    the owner, is never returned: the check of the funds comes first. *)
Theorem consume_never_unspendable kp c amount :
  consume_from_cell c amount kp ≠ Err AlphaError.UnspendableCell.
Proof.
  unfold consume_from_cell.
  assert (∀ os i, owned_outputs (owner_hash kp) os i ≠ Err AlphaError.UnspendableCell) as Ho.
  { induction os as [|o os IH]; intros i; cbn; [done|].
    assert (∀ e, validate_output o = Err e → e ≠ AlphaError.UnspendableCell) as Hv.
    { unfold validate_output, map_err. intros e. destruct (cell_type o).
      - destruct (de_coinbase_state _); naive_solver.
      - destruct (de_transfer_state _); naive_solver.
      - destruct (de_stake_state _); naive_solver. }
    destruct (validate_output o) eqn:Hvo; cbn; try naive_solver.
    destruct (u_add 8 i 1) eqn:Hn; cbn; [|by apply u_norm_no_Err in Hn|done|done].
    destruct (owned_outputs (owner_hash kp) os _) eqn:Hr; naive_solver. }
  fold (owner_hash kp). destruct (owned_outputs _ _ 0) as [owned| | |] eqn:Heq;
    cbn [mbind res_bind]; try naive_solver.
  destruct owned as [|p owned].
  - unfold validate_capacity. cbn [fmap list_fmap u_sum mbind res_bind].
    by destruct (amount =? 0)%Z.
  - unfold validate_capacity. destruct (u_sum _ _ _) eqn:Hsum; cbn [mbind res_bind].
    + destruct (amount =? 0)%Z; [done|]. destruct (_ || _); [done|]. apply consume_loop_error.
    + by apply u_sum_no_Err in Hsum.
    + done.
    + done.
Qed.

(** C39: a transfer conserves value.  The new cell pays the requested amount to
    the recipient and the change to the change address; the spent outputs, which
    are outputs of the old cell, are worth as much as the new outputs together
    with a fee.  The fee is [FEE], or the whole residue when that is smaller: it
    is nothing at all when the spent outputs add up to the amount. *)
Theorem transfer_conserves op kp :
  spendable kp (to_cell op) →
  (0 < to_capacity op ≤ value (owned_of kp (to_cell op)) - FEE)%Z →
  ∃ c' used, transfer op kp = Ok c' ∧
    covers (owned_of kp (to_cell op)) used (to_capacity op) ∧
    pays kp (to_cell op) used (to_capacity op)
      {| capacity := to_capacity op; cell_type := Transfer; data := ser_transfer_state;
         lock := to_recipient_address op |} (to_change_address op) c'.
Proof.
  intros Hs Ha. destruct (consume_from_cell_Ok kp _ _ Hs Ha) as (used & Hcov & Hc).
  eexists _, used. split; [|split; [exact Hcov|by apply pays_intro]].
  unfold transfer. rewrite Hc. cbn [mbind res_bind cr_consumed cr_residue cr_inputs].
  pose proof (λ main, change_outputs main (to_change_address op) (value used - to_capacity op))
    as Hch. unfold transfer_output in *. cbn [mbind res_bind] in *. by rewrite Hch.
Qed.

(** Staking conserves value in the same way; the staked output carries the
    id of the validator. *)
Theorem stake_conserves op kp :
  spendable kp (so_cell op) →
  (0 < so_capacity op ≤ value (owned_of kp (so_cell op)) - FEE)%Z →
  ∃ c' used, stake op kp = Ok c' ∧
    covers (owned_of kp (so_cell op)) used (so_capacity op) ∧
    pays kp (so_cell op) used (so_capacity op)
      {| capacity := so_capacity op; cell_type := Stake;
         data := ser_stake_state (so_node_id op); lock := so_address op |} (so_address op) c'.
Proof.
  intros Hs Ha. destruct (consume_from_cell_Ok kp _ _ Hs Ha) as (used & Hcov & Hc).
  eexists _, used. split; [|split; [exact Hcov|by apply pays_intro]].
  unfold stake, stake_output. rewrite Hc.
  cbn [mbind res_bind cr_consumed cr_residue cr_inputs].
  rewrite change_outputs. done.
Qed.
End operations_facts.

(** ** An instance, and the witnesses *)
Definition plain_state_codec : StateCodec := {|
  ser_coinbase_state := [];
  de_coinbase_state b := match b with [] => Ok tt | _ => Err "trailing"%string end;
  ser_transfer_state := [];
  de_transfer_state b := match b with [] => Ok tt | _ => Err "trailing"%string end;
  ser_stake_state id := id;
  de_stake_state b := Ok b
|}.

Lemma plain_state_codec_laws : @StateCodecLaws plain_state_codec.
Proof. by split. Qed.

Section operations_witnesses.
#[local] Existing Instance plain_crypto.
#[local] Existing Instance canonical_order.
#[local] Existing Instance release_profile.
#[local] Existing Instance plain_state_codec.

Definition key1 : @Keypair plain_crypto := [1%Z].

(** The key [[1]] owns outputs of 700 and 300, the key [[2]] one of 800. *)
Definition purse : Cell :=
  match coinbase_operation [([1%Z], 700%Z); ([2%Z], 800%Z); ([1%Z], 300%Z)] with
  | Ok c => c
  | _ => cell_new ∅ []
  end.

Lemma purse_spendable : spendable key1 purse.
Proof.
  split; [vm_compute; by repeat constructor|apply (bool_decide_unpack _); vm_compute; exact I..].
Qed.

(** The outputs are sorted by capacity: 300 of the key is spent first. *)
Lemma consume_from_cell_spec_witness :
  (r ← consume_from_cell purse 400 key1; Ok (cr_consumed r, cr_residue r)) =
    @Ok AlphaError.Error _ (400, 600)%Z ∧
  consume_from_cell purse 0 key1 = Err AlphaError.ZeroTransfer ∧
  consume_from_cell purse 998 key1 = Err AlphaError.ExceedsAvailableFunds.
Proof.
  split; [vm_compute; reflexivity|]. split.
  - apply (consume_from_cell_spec key1 purse 0 purse_spendable); [|reflexivity].
    apply (bool_decide_unpack _). vm_compute. exact I.
  - apply (consume_from_cell_spec key1 purse 998 purse_spendable).
    + apply (bool_decide_unpack _). vm_compute. exact I.
    + lia.
    + vm_compute. reflexivity.
Defined.

(** A transfer of 300 spends exactly the output of 300: no fee is paid. *)
Lemma transfer_conserves_witness :
  ∃ c' used, transfer (mkTransfer purse [2%Z] [1%Z] 300) key1 = Ok c' ∧
    covers (owned_of key1 purse) used 300 ∧
    value used = (zsum (capacity <$> outputs c') + Z.min FEE (value used - 300))%Z.
Proof.
  destruct (transfer_conserves (mkTransfer purse [2%Z] [1%Z] 300) key1)
    as (c' & used & Ht & Hc & _ & _ & _ & Hv).
  - exact purse_spendable.
  - vm_compute. split; [reflexivity|discriminate].
  - exists c', used. split; [exact Ht|]. split; [exact Hc|exact Hv].
Defined.

Example transfer_without_fee :
  (c' ← transfer (mkTransfer purse [2%Z] [1%Z] 300) key1;
   Ok (size (inputs c'), capacity <$> outputs c')) = @Ok AlphaError.Error _ (1, [300%Z]).
Proof. vm_compute. reflexivity. Qed.

Lemma stake_conserves_witness :
  ∃ c' used, stake (mkStake purse [9%Z] [1%Z] 500) key1 = Ok c' ∧
    value used = (zsum (capacity <$> outputs c') + Z.min FEE (value used - 500))%Z.
Proof.
  destruct (stake_conserves (mkStake purse [9%Z] [1%Z] 500) key1)
    as (c' & used & Ht & _ & _ & _ & _ & Hv).
  - exact purse_spendable.
  - vm_compute. split; [reflexivity|discriminate].
  - exists c', used. split; [exact Ht|exact Hv].
Defined.
End operations_witnesses.
