(* ===== verification/DependencyGraph.v ===== *)
(** * DependencyGraph.v: the order of the cells of a block
      (src/src/graph/dependency_graph.rs)

    A graph whose vertices are the sets of ids that cells produce, with the ids
    that they consume as edges; [topological] takes away one vertex without
    consumers after the other (Kahn's algorithm, from the consumers to the
    producers).  [CellIds] are keys of the hash map; their equality is that of
    sets ([cell_ids_eq_spec] of Cell.v). *)

From stdpp Require Import prelude gmap sets fin_sets fin_maps list.
From Stdlib Require Import ZArith Lia.
From S2P Require Import Prelude Orders Cell Instances Dag.

Record DependencyGraph : Type := mkDependencyGraph {
  dg_dh : gmap CellIds CellIds;
  dg_roots : list CellIds
}.

Section dependency_graph.
Context `{Crypto, IterOrder}.

Definition has_inbound_edges (dh : gmap CellIds CellIds) (produced : CellIds) : bool :=
  existsb (λ e : CellIds * CellIds, intersects_with produced e.2) (iter_map dh).

Definition dependency_graph_new : DependencyGraph := mkDependencyGraph ∅ [].

(** [DependencyGraph::insert] *)
Definition dg_insert (c : Cell) : st DependencyGraph GraphError.Error unit :=
  produced ← of_res (map_err GraphError.Cell (from_outputs (hash c) (outputs c)));
  consumed ← of_res (map_err GraphError.Cell (from_inputs (inputs c)));
  entry ← gets (λ g, dg_dh g !! produced);
  match entry with
  | Some _ => throw GraphError.DuplicateCell
  | None =>
      modify (λ g, mkDependencyGraph (<[produced := consumed]> (dg_dh g)) (dg_roots g));;
      modify (λ g, mkDependencyGraph (dg_dh g)
        (filter (λ root, intersects_with consumed root = false) (dg_roots g)));;
      referenced ← gets (λ g,
        existsb (λ e : CellIds * CellIds, intersects_with produced e.2) (iter_map (dg_dh g)));
      if (referenced : bool) then mret tt
      else modify (λ g, mkDependencyGraph (dg_dh g) (dg_roots g ++ [produced]))
  end.

(** The loop of [topological]: pop a root, cut its edges, and push the
    producers that have no consumer left. *)
Fixpoint topological_loop (fuel : nat) (roots : list CellIds)
    (graph : gmap CellIds CellIds) (sorted : list CellIds) :
    res GraphError.Error (list CellIds) :=
  match fuel with
  | O => OutOfFuel
  | S fuel' =>
      match list.last roots with
      | None => Ok sorted
      | Some root =>
          match graph !! root with
          | None => Err GraphError.UndefinedCell
          | Some removed_edges =>
              let graph' := <[root := ∅]> graph in
              let freed := filter (λ producer,
                intersects_with producer removed_edges = true ∧
                has_inbound_edges graph' producer = false) (iter_map graph').*1 in
              topological_loop fuel' (removelast roots ++ freed) graph' (root :: sorted)
          end
      end
  end.

Definition topological (g : DependencyGraph) : res GraphError.Error (list CellIds) :=
  topological_loop (S (size (dg_dh g))) (dg_roots g) (dg_dh g) [].

(** The inner loop of [topological_cells]. *)
Fixpoint cells_of (cell_ids : CellIds) (cs : list Cell) : res GraphError.Error (list Cell) :=
  match cs with
  | [] => Ok []
  | c :: cs' =>
      output_cell_ids ← map_err GraphError.Cell (from_outputs (hash c) (outputs c));
      r ← cells_of cell_ids cs';
      Ok (if cell_ids_eq output_cell_ids cell_ids then c :: r else r)
  end.

Definition topological_cells (g : DependencyGraph) (cs : list Cell) :
    res GraphError.Error (list Cell) :=
  sorted ← topological g;
  rows ← try_map (λ ids, cells_of ids cs) sorted;
  Ok (mjoin (rows : list (list Cell))).
End dependency_graph.

(** ** Facts *)
Section dependency_graph_facts.
Context `{Crypto, IterOrder}.
Implicit Types (d : gmap CellIds CellIds) (p x : CellIds) (roots sorted : list CellIds).

(** The vertex [c] consumes an output of the vertex [p]. *)
Definition consumes d (c p : CellIds) : Prop := ∃ ids, d !! c = Some ids ∧ ~ p ## ids.

Definition inbound d p : Prop := ∃ c, consumes d c p.

Lemma intersects_with_true a b : intersects_with a b = true ↔ ~ a ## b.
Proof. unfold intersects_with. by rewrite negb_true_iff, bool_decide_eq_false. Qed.

Lemma intersects_with_false a b : intersects_with a b = false ↔ a ## b.
Proof. unfold intersects_with. by rewrite negb_false_iff, bool_decide_eq_true. Qed.

Lemma has_inbound_edges_spec d p : has_inbound_edges d p = true ↔ inbound d p.
Proof.
  unfold has_inbound_edges, inbound, consumes. rewrite existsb_exists. split.
  - intros ([c ids] & Hin%list_elem_of_In & Hx%intersects_with_true).
    apply elem_of_iter_map in Hin. eauto.
  - intros (c & ids & Hc & Hx). exists (c, ids).
    rewrite <- list_elem_of_In, elem_of_iter_map, intersects_with_true. done.
Qed.

Lemma has_inbound_edges_false d p : has_inbound_edges d p = false ↔ ~ inbound d p.
Proof. rewrite <- has_inbound_edges_spec. by destruct (has_inbound_edges d p). Qed.

#[export] Instance inbound_dec d p : Decision (inbound d p).
Proof. refine (cast_if (decide (has_inbound_edges d p = true)));
  by rewrite <- has_inbound_edges_spec. Defined.

(** The graph when the edges of the sorted vertices are cut. *)
Definition cut d sorted : gmap CellIds CellIds := update_on sorted (λ _ _, ∅) d.

Lemma consumes_cut d sorted c p :
  consumes (cut d sorted) c p ↔ consumes d c p ∧ c ∉ sorted.
Proof.
  unfold consumes, cut. setoid_rewrite lookup_update_on. split.
  - intros (ids & Hc & Hx). apply fmap_Some in Hc as (ids' & Hd & ->).
    case_decide; [set_solver|]. eauto.
  - intros [(ids & Hd & Hx) Hn]. exists ids. rewrite Hd, decide_False by done. done.
Qed.

Lemma cut_cons d sorted x ids :
  d !! x = Some ids → <[x := ∅]> (cut d sorted) = cut d (x :: sorted).
Proof.
  intros Hx. apply map_eq. intros k. unfold cut. rewrite lookup_update_on.
  destruct (decide (x = k)) as [<-|Hne].
  - rewrite lookup_insert_eq, Hx, decide_True by set_solver. done.
  - rewrite lookup_insert_ne, lookup_update_on by done.
    by rewrite (decide_ext (k ∈ x :: sorted) (k ∈ sorted)) by set_solver.
Qed.

(** The state of the loop: the roots and the sorted vertices are the vertices
    that no unsorted one consumes, and every sorted vertex comes before its
    consumers. *)
Record topo_inv d roots sorted : Prop := {
  ti_nodup : NoDup (roots ++ sorted);
  ti_free : ∀ p, p ∈ roots ++ sorted ↔ is_Some (d !! p) ∧ ~ inbound (cut d sorted) p;
  ti_order : ∀ a x b, sorted = a ++ x :: b → ∀ c, consumes d c x → c ∈ b
}.

(** The cells that consume [p] before [x] is cut are [x] or consume it afterwards. *)
Lemma inbound_cut d sorted x ids p :
  x ∉ sorted → d !! x = Some ids →
  inbound (cut d sorted) p ↔ ~ p ## ids ∨ inbound (cut d (x :: sorted)) p.
Proof.
  intros Hxs Hx. unfold inbound. setoid_rewrite consumes_cut. split.
  - intros (c & Hc & Hns). destruct (decide (c = x)) as [->|]; [|right; set_solver].
    left. destruct Hc as (ids' & ? & ?). naive_solver.
  - intros [Hp|(c & Hc & Hns)]; [|exists c; set_solver].
    exists x. split; [by exists ids|done].
Qed.

Lemma cells_inv_step d roots x sorted ids :
  topo_inv d (roots ++ [x]) sorted → d !! x = Some ids →
  topo_inv d (roots ++ filter (λ p, intersects_with p ids = true ∧
      has_inbound_edges (cut d (x :: sorted)) p = false) (iter_map (cut d (x :: sorted))).*1)
    (x :: sorted).
Proof.
  intros [Hnd Hfree Hord] Hx.
  set (freed := filter _ _).
  assert (∀ p, p ∈ freed ↔ is_Some (d !! p) ∧ ~ p ## ids ∧ ~ inbound (cut d (x :: sorted)) p)
    as Hfreed.
  { intros p. unfold freed. rewrite list_elem_of_filter, intersects_with_true,
      has_inbound_edges_false, list_elem_of_fmap.
    assert ((∃ y : CellIds * CellIds, p = y.1 ∧ y ∈ iter_map (cut d (x :: sorted))) ↔
      is_Some (d !! p)) as Hdom; [|naive_solver].
    rewrite <- elem_of_dom, <- (dom_update_on (x :: sorted) (λ _ _, ∅) d), elem_of_dom. split.
    - intros ([k v] & -> & Hin%elem_of_iter_map). eauto.
    - intros [v Hv]. exists (p, v). by rewrite elem_of_iter_map. }
  assert (∀ p, inbound (cut d sorted) p ↔ ~ p ## ids ∨ inbound (cut d (x :: sorted)) p) as Hin.
  { assert (x ∉ sorted) as Hxs by (apply NoDup_app in Hnd; set_solver).
    intros p. by apply inbound_cut. }
  assert (∀ p, p ∈ roots ++ x :: sorted ↔ is_Some (d !! p) ∧ ~ inbound (cut d sorted) p) as Hf.
  { intros p. rewrite <- Hfree. set_solver. }
  assert (NoDup (roots ++ x :: sorted)) as Hnd'.
  { by rewrite cons_middle, app_assoc. }
  split.
  - rewrite <- app_assoc. apply NoDup_app in Hnd' as (Hr & Hrs & Hxs).
    apply NoDup_app. split_and!; [done| |].
    + intros p Hp. rewrite elem_of_app. intros [Hq|Hq]; [|by apply (Hrs p)].
      apply Hfreed in Hq as (_ & Hq & _). destruct (proj1 (Hf p)) as [_ Hn]; [set_solver|].
      apply Hn, Hin. by left.
    + apply NoDup_app. split_and!; [apply NoDup_filter, NoDup_iter_map_fst| |done].
      intros p (_ & Hq & _)%Hfreed Hp. destruct (proj1 (Hf p)) as [_ Hn]; [set_solver|].
      apply Hn, Hin. by left.
  - intros p. assert (p ∈ (roots ++ freed) ++ x :: sorted ↔
      p ∈ roots ++ x :: sorted ∨ p ∈ freed) as -> by set_solver.
    rewrite Hf, Hfreed, Hin. destruct (decide (p ## ids)); destruct (decide (inbound
      (cut d (x :: sorted)) p)); naive_solver.
  - intros [|y a] z b Heq c Hc; cbn in Heq; injection Heq as <- Heq; [subst b|].
    + destruct (decide (c ∈ sorted)); [done|]. exfalso.
      destruct (proj1 (Hf x)) as [_ Hn]; [set_solver|]. apply Hn. exists c.
      by apply consumes_cut.
    + eapply Hord; done.
Qed.

Lemma topo_inv_bound d roots sorted :
  topo_inv d roots sorted → length (roots ++ sorted) ≤ size d.
Proof.
  intros [Hnd Hfree _]. rewrite <- size_dom, <- (size_list_to_set (C:=gset CellIds)) by done.
  apply subseteq_size. intros p. rewrite elem_of_list_to_set, Hfree, elem_of_dom. by intros [??].
Qed.

Lemma topological_loop_spec d fuel roots sorted :
  topo_inv d roots sorted → size d < fuel + length sorted →
  ∃ out, topological_loop fuel roots (cut d sorted) sorted = Ok out ∧ topo_inv d [] out.
Proof.
  revert roots sorted. induction fuel as [|fuel IH]; intros roots sorted Hinv Hfuel.
  { pose proof (topo_inv_bound _ _ _ Hinv) as Hb. rewrite length_app in Hb. lia. }
  destruct roots as [|x roots _] using rev_ind; [by exists sorted|].
  cbn [topological_loop]. rewrite last_snoc, removelast_last.
  destruct (proj1 (ti_free _ _ _ Hinv x)) as [[ids Hx] _]; [set_solver|].
  assert (x ∉ sorted) as Hxs.
  { pose proof (ti_nodup _ _ _ Hinv) as (_ & Hd & _)%NoDup_app. apply Hd. set_solver. }
  unfold cut at 1. rewrite lookup_update_on, Hx, decide_False by done. cbn [fmap option_fmap
    option_map id]. rewrite (cut_cons d sorted x ids Hx).
  apply IH; [by apply cells_inv_step|cbn; lia].
Qed.

(** The invariant of the graph: the roots are the vertices without consumers. *)
Definition dg_wf (g : DependencyGraph) : Prop := topo_inv (dg_dh g) (dg_roots g) [].

Lemma cut_nil d : cut d [] = d.
Proof. apply update_on_nil. Qed.

Lemma dg_new_wf : dg_wf dependency_graph_new.
Proof.
  split; cbn; [constructor| |intros [] ???; discriminate]. intros p. rewrite lookup_empty.
  split; [set_solver|]. by intros [[??] _].
Qed.

Lemma topological_spec (g : DependencyGraph) :
  dg_wf g → ∃ out, topological g = Ok out ∧ topo_inv (dg_dh g) [] out.
Proof.
  intros Hwf. destruct (topological_loop_spec _ (S (size (dg_dh g))) _ _ Hwf) as (out & Ho & Hi);
    [cbn; lia|]. exists out. rewrite cut_nil in Ho. done.
Qed.

(** With an order on the vertices every vertex is sorted. *)
Lemma topological_complete d (out : list CellIds) (rank : CellIds → nat) :
  topo_inv d [] out → (∀ c p, consumes d c p → is_Some (d !! p) → rank p < rank c) →
  ∀ p, p ∈ out ↔ is_Some (d !! p).
Proof.
  intros [_ Hfree _] Hrank p. split; [intros Hp; by apply Hfree|]. intros Hp.
  assert (∃ n, ∀ q, is_Some (d !! q) → rank q < n) as [n Hn].
  { exists (S (max_list (rank <$> (map_to_list d).*1))). intros q [v Hv].
    apply elem_of_map_to_list in Hv. apply Nat.lt_succ_r, max_list_elem_of_le.
    apply list_elem_of_fmap. exists q. split; [done|]. apply list_elem_of_fmap. by exists (q, v). }
  remember (n - rank p) as k eqn:Hk.
  revert p Hp Hk. induction (lt_wf k) as [k _ IH]. intros p Hp ->.
  destruct (decide (inbound (cut d out) p)) as [(c & Hc)|Hno]; [|by apply Hfree].
  apply consumes_cut in Hc as [Hc Hnc]. destruct Hnc.
  pose proof (Hrank c p Hc Hp). destruct Hc as (ids & Hd & _).
  pose proof (Hn c ltac:(eauto)). eapply IH; [|eauto|done]. pose proof (Hn p Hp). lia.
Qed.

(** Inserting a cell. *)
Lemma dg_insert_spec g c :
  dg_wf g → dg_dh g !! produced_ids c = None →
  ∃ g', dg_insert c g = (g', Ok tt) ∧ dg_wf g' ∧
    dg_dh g' = <[produced_ids c := consumed_ids c]> (dg_dh g).
Proof.
  intros [Hnd Hfree _] Hnew. rewrite app_nil_r, cut_nil in *.
  set (P := produced_ids c) in *. set (C := consumed_ids c). set (d' := <[P := C]> (dg_dh g)).
  set (kept := filter (λ root, intersects_with C root = false) (dg_roots g)).
  assert (∀ p, inbound d' p ↔ ~ p ## C ∨ inbound (dg_dh g) p) as Hin.
  { intros p. unfold inbound, consumes, d'. split.
    - intros (c' & ids & Hc & Hx). destruct (decide (P = c')) as [<-|].
      + rewrite lookup_insert_eq in Hc. simplify_eq. by left.
      + rewrite lookup_insert_ne in Hc by done. eauto.
    - intros [Hx|(c' & ids & Hc & Hx)].
      + exists P, C. by rewrite lookup_insert_eq.
      + exists c', ids. rewrite lookup_insert_ne; [done|]. intros <-. congruence. }
  assert (dg_insert c g = (mkDependencyGraph d'
    (if has_inbound_edges d' P then kept else kept ++ [P]), Ok tt)) as Heq.
  { unfold dg_insert. rewrite from_outputs_Ok, from_inputs_Ok.
    unfold mbind, st_bind, of_res, gets, modify, map_err. fold P C. rewrite Hnew.
    cbn [dg_dh dg_roots]. fold d' kept. fold (has_inbound_edges d' P).
    by destruct (has_inbound_edges d' P). }
  eexists. split; [exact Heq|]. split; [|done].
  assert (∀ p, p ∈ kept ↔ p ## C ∧ is_Some (dg_dh g !! p) ∧ ~ inbound (dg_dh g) p) as Hkept.
  { intros p. unfold kept. rewrite list_elem_of_filter, intersects_with_false, Hfree.
    split; intros [? ?]; (split; [by symmetry|done]). }
  assert (P ∉ kept) as HPk by (rewrite Hkept, Hnew; intros (_ & [] & _); done).
  split; cbn; rewrite ?app_nil_r, ?cut_nil; [| |intros [] ???; discriminate].
  - destruct (has_inbound_edges d' P); [by apply NoDup_filter|].
    apply NoDup_app. split_and!; [by apply NoDup_filter|set_solver|apply NoDup_singleton].
  - intros p. rewrite Hin. destruct (decide (p = P)) as [->|Hne].
    + rewrite <- Hin, <- has_inbound_edges_false. unfold d' at 2. rewrite lookup_insert_eq.
      destruct (has_inbound_edges d' P); [naive_solver|].
      rewrite elem_of_app, list_elem_of_singleton. naive_solver eauto.
    + unfold d' at 2. rewrite lookup_insert_ne by done.
      assert (p ∈ (if has_inbound_edges d' P then kept else kept ++ [P]) ↔ p ∈ kept) as ->.
      { destruct (has_inbound_edges d' P); [done|].
        rewrite elem_of_app, list_elem_of_singleton. naive_solver. }
      rewrite Hkept. destruct (decide (p ## C)); naive_solver.
Qed.

Lemma dg_insert_duplicate g c ids :
  dg_dh g !! produced_ids c = Some ids → dg_insert c g = (g, Err GraphError.DuplicateCell).
Proof.
  intros Hd. unfold dg_insert. rewrite from_outputs_Ok, from_inputs_Ok.
  unfold mbind, st_bind, of_res, gets, map_err. by rewrite Hd.
Qed.

(** The graph of a list of cells. *)
Record graph_of (cs : list Cell) (g : DependencyGraph) : Prop := {
  go_wf : dg_wf g;
  go_nodup : NoDup (produced_ids <$> cs);
  go_dh : ∀ p ids, dg_dh g !! p = Some ids ↔
    ∃ c, c ∈ cs ∧ p = produced_ids c ∧ ids = consumed_ids c
}.

Lemma graph_of_snoc cs g c g' :
  graph_of cs g → dg_insert c g = (g', Ok tt) → graph_of (cs ++ [c]) g'.
Proof.
  intros [Hwf Hnd Hdh] Hins. destruct (dg_dh g !! produced_ids c) as [ids|] eqn:Hnew.
  { by rewrite (dg_insert_duplicate _ _ _ Hnew) in Hins. }
  destruct (dg_insert_spec g c Hwf Hnew) as (g1 & Heq & Hwf' & Hd').
  rewrite Heq in Hins. simplify_eq. split; [done| |].
  - rewrite fmap_app. apply NoDup_app. split_and!; [done| |apply NoDup_singleton].
    intros x Hx ->%list_elem_of_singleton. apply list_elem_of_fmap in Hx as (c' & Heq' & Hc').
    assert (dg_dh g !! produced_ids c = Some (consumed_ids c')) by (apply Hdh; eauto). congruence.
  - intros p ids. rewrite Hd'. setoid_rewrite elem_of_app. setoid_rewrite list_elem_of_singleton.
    destruct (decide (produced_ids c = p)) as [<-|Hne].
    + rewrite lookup_insert_eq. split; [intros [= <-]; eauto|].
      intros (c' & [Hc'| ->] & Heq' & ->); [|done].
      assert (dg_dh g !! produced_ids c = Some (consumed_ids c')) by (apply Hdh; eauto).
      congruence.
    + rewrite lookup_insert_ne, Hdh by done. naive_solver.
Qed.

Lemma graph_of_build cs g :
  foreach cs dg_insert dependency_graph_new = (g, Ok tt) → graph_of cs g.
Proof.
  assert (∀ post pre g0, graph_of pre g0 → foreach post dg_insert g0 = (g, Ok tt) →
    graph_of (pre ++ post) g) as Hgen.
  { induction post as [|c post IH]; intros pre g0 Hg Hf.
    - cbn in Hf. injection Hf as <-. by rewrite app_nil_r.
    - rewrite foreach_cons in Hf. apply st_bind_Ok_inv in Hf as (g1 & [] & H1' & Hf).
      rewrite cons_middle, app_assoc. eapply IH; [|exact Hf]. by eapply graph_of_snoc. }
  apply (Hgen cs []). split; [apply dg_new_wf|constructor|].
  intros p ids. cbn. rewrite lookup_empty. set_solver.
Qed.

Lemma cells_of_Ok ids cs : cells_of ids cs = Ok (filter (λ c, produced_ids c = ids) cs).
Proof.
  induction cs as [|c cs IH]; cbn [cells_of]; [done|]. rewrite from_outputs_Ok, IH.
  cbn [map_err mbind res_bind]. rewrite filter_cons. f_equal.
  destruct (cell_ids_eq _ _) eqn:He.
  - apply cell_ids_eq_spec in He. by rewrite decide_True.
  - rewrite decide_False; [done|]. intros Heq%cell_ids_eq_spec. congruence.
Qed.

Lemma topological_cells_rows (cs : list Cell) (out : list CellIds) :
  NoDup (produced_ids <$> cs) → (∀ p, p ∈ out → p ∈ produced_ids <$> cs) →
  produced_ids <$> mjoin ((λ ids, filter (λ c, produced_ids c = ids) cs) <$> out) = out.
Proof.
  intros Hnd. induction out as [|p out IH]; intros Hin; [done|].
  rewrite fmap_cons. change (mjoin (?x :: ?y)) with (x ++ mjoin y). rewrite fmap_app, IH by set_solver.
  change (p :: out) with ([p] ++ out). f_equal.
  destruct (list_elem_of_fmap produced_ids cs p) as [(c & -> & Hc) _]; [set_solver|].
  by rewrite (filter_key_unique produced_ids).
Qed.

Lemma sorted_cells (cs : list Cell) (out : list CellIds) :
  NoDup (produced_ids <$> cs) → NoDup out → (∀ p, p ∈ out ↔ p ∈ produced_ids <$> cs) →
  let l := mjoin ((λ ids, filter (λ c, produced_ids c = ids) cs) <$> out) in
  produced_ids <$> l = out ∧ l ≡ₚ cs.
Proof.
  intros Hnd Hndo Hmem l.
  assert (produced_ids <$> l = out) as Hl by (apply topological_cells_rows; set_solver).
  split; [done|]. apply NoDup_Permutation; [|by eapply NoDup_fmap_1|].
  { apply (NoDup_fmap_1 produced_ids). by rewrite Hl. }
  intros c. unfold l. rewrite list_elem_of_join. split.
  - intros (row & Hc & Hr). apply list_elem_of_fmap in Hr as (p & -> & _).
    by apply list_elem_of_filter in Hc as [_ ?].
  - intros Hc. exists (filter (λ y, produced_ids y = produced_ids c) cs).
    rewrite list_elem_of_filter. split; [done|]. apply list_elem_of_fmap.
    exists (produced_ids c). split; [done|]. apply Hmem, list_elem_of_fmap. eauto.
Qed.

(** *** Property *)

(** The cell [c'] spends an output of [c]. *)
Definition depends_on (c' c : Cell) : Prop := ~ produced_ids c ## consumed_ids c'.

(** The cells of a block are put in the order of their dependencies.  When
    all cells were inserted and no cell depends on itself through others, the
    result has every cell exactly once, and a cell comes after every cell whose
    outputs it spends. *)
Theorem topological_cells_sorted cs g (rank : Cell → nat) :
  foreach cs dg_insert dependency_graph_new = (g, Ok tt) →
  (∀ c c', c ∈ cs → c' ∈ cs → depends_on c' c → rank c < rank c') →
  ∃ l, topological_cells g cs = Ok l ∧ l ≡ₚ cs ∧
    ∀ i j c c', l !! i = Some c → l !! j = Some c' → depends_on c' c → i < j.
Proof.
  intros [Hwf Hnd Hdh]%graph_of_build Hrank.
  destruct (topological_spec g Hwf) as (out & Hout & Hinv).
  set (key := λ p, from_option rank 0 (head (filter (λ c, produced_ids c = p) cs))).
  assert (∀ c, c ∈ cs → key (produced_ids c) = rank c) as Hkey.
  { intros c Hc. unfold key. by rewrite (filter_key_unique produced_ids). }
  assert (∀ p, p ∈ out ↔ p ∈ produced_ids <$> cs) as Hmem.
  { intros p. rewrite (topological_complete _ _ key Hinv), list_elem_of_fmap.
    - split; [intros [ids (c & ? & ? & ?)%Hdh]; eauto|].
      intros (c & -> & Hc). exists (consumed_ids c). apply Hdh. eauto.
    - intros c p' (ids & (c1 & Hc1 & -> & ->)%Hdh & Hx) [ids' (c2 & Hc2 & -> & _)%Hdh].
      rewrite !Hkey by done. by apply Hrank. }
  assert (NoDup out) as Hndo by (by apply (ti_nodup _ _ _ Hinv)).
  destruct (sorted_cells cs out Hnd Hndo Hmem) as [Hl Hperm].
  set (l := mjoin ((λ ids, filter (λ c, produced_ids c = ids) cs) <$> out)) in *.
  exists l. split_and!.
  - unfold topological_cells. rewrite Hout. cbn [mbind res_bind].
    rewrite (try_map_Ok _ (λ ids, filter (λ c, produced_ids c = ids) cs)); [done|].
    intros. apply cells_of_Ok.
  - done.
  - intros i j c c' Hi Hj Hdep.
    assert (out !! i = Some (produced_ids c)) as Hoi by (by rewrite <- Hl, list_lookup_fmap, Hi).
    assert (out !! j = Some (produced_ids c')) as Hoj by (by rewrite <- Hl, list_lookup_fmap, Hj).
    pose proof (ti_order _ _ _ Hinv _ _ _ (eq_sym (take_drop_middle _ _ _ Hoi))
      (produced_ids c')) as Hord.
    assert (produced_ids c' ∈ drop (S i) out) as (k & Hk)%list_elem_of_lookup.
    { apply Hord. exists (consumed_ids c'). split; [|done]. apply Hdh.
      exists c'. split; [|done]. rewrite <- Hperm. by eapply list_elem_of_lookup_2. }
    rewrite lookup_drop in Hk. pose proof (NoDup_lookup _ _ _ _ Hndo Hk Hoj). lia.
Qed.
End dependency_graph_facts.

(** ** Witness: a chain of three cells, inserted in the wrong order *)
Section dependency_graph_witnesses.
#[local] Existing Instance short_crypto.
#[local] Existing Instance canonical_order.

Definition chain1 : Cell := cell_new ∅ [pay 10 [1%Z]].
Definition chain2 : Cell := cell_new {[ spend (hash chain1) 0 ]} [pay 7 [1%Z]].
Definition chain3 : Cell := cell_new {[ spend (hash chain2) 0 ]} [pay 4 [1%Z]].
Definition chain_graph : DependencyGraph :=
  (foreach [chain3; chain1; chain2] dg_insert dependency_graph_new).1.

(** The place of a cell in the chain. *)
Definition chain_rank (c : Cell) : nat :=
  if decide (c = chain1) then 0 else if decide (c = chain2) then 1 else 2.

#[export] Instance depends_on_dec c' c : Decision (depends_on c' c).
Proof. unfold depends_on. apply _. Defined.

Lemma topological_cells_sorted_witness :
  ∃ l, topological_cells chain_graph [chain3; chain1; chain2] = Ok l ∧
    l ≡ₚ [chain3; chain1; chain2].
Proof.
  destruct (topological_cells_sorted [chain3; chain1; chain2] chain_graph
    chain_rank) as (l & Hl & Hp & _).
  - apply injective_projections; [reflexivity|vm_compute; reflexivity].
  - assert (Forall (λ c, Forall (λ c', depends_on c' c → chain_rank c < chain_rank c')
      [chain3; chain1; chain2]) [chain3; chain1; chain2]) as Hall.
    { apply (bool_decide_unpack _). vm_compute. exact I. }
    intros c c' Hc Hc'. rewrite Forall_forall in Hall. specialize (Hall c Hc).
    rewrite Forall_forall in Hall. exact (Hall c' Hc').
  - exists l. split; [exact Hl|exact Hp].
Defined.
End dependency_graph_witnesses.
