(* ===== verification/AlphaState.v ===== *)
(** * AlphaState.v: the state of alpha (src/src/alpha/state.rs)

    [apply] takes the cells of a block in the order of their dependencies and
    applies one after the other: it looks up the outputs that a cell consumes,
    checks the constraints of the outputs it produces, records new validators and
    keeps the totals of spendable and staked capacity. *)

From stdpp Require Import prelude gmap sets fin_sets fin_maps list strings.
From Stdlib Require Import ZArith Lia.
From S2P Require Import Prelude Orders Cell Instances Dag Blocks Util Operations DependencyGraph.

Record State : Type := mkState {
  as_height : Z;
  as_total_spending_capacity : Capacity;
  as_total_staking_capacity : Capacity;
  as_validators : list (Id * Capacity);
  as_live_cells : gmap CellIds Cell
}.

Section alpha_state.
Context `{Crypto, IterOrder, BuildProfile, StateCodec}.

(** A step that can fail with an error of alpha. *)
Abbreviation alpha := (res AlphaError.Error).

Definition state_new : State := mkState 0 0 0 [] ∅.

(** What the loop over the live cells collects. *)
Record Consumed : Type := mkConsumed {
  cn_ids : CellIds;
  cn_outputs : list Output;
  cn_capacity : Z
}.

(** The outputs of one live cell, numbered; [i as u8] truncates. *)
Fixpoint consume_outputs (h : CellHash) (intersection : CellIds)
    (os : list (nat * Output)) (a : Consumed) : alpha Consumed :=
  match os with
  | [] => Ok a
  | (i, o) :: os' =>
      cell_id ← map_err AlphaError.Cell (cell_id_from_output h (Z.of_nat i mod 2 ^ 8) o);
      if bool_decide (cell_id ∈ intersection) then
        c ← u_add 64 (cn_capacity a) (capacity o);
        consume_outputs h intersection os'
          (mkConsumed ({[ cell_id ]} ∪ cn_ids a) (cn_outputs a ++ [o]) c)
      else consume_outputs h intersection os' a
  end.

Fixpoint consume_live (input_cell_ids : CellIds) (live : list (CellIds * Cell))
    (a : Consumed) : alpha Consumed :=
  match live with
  | [] => Ok a
  | (live_cell_ids, live_cell) :: live' =>
      if intersects_with input_cell_ids live_cell_ids then
        a' ← consume_outputs (hash live_cell) (intersect input_cell_ids live_cell_ids)
          (imap pair (outputs live_cell)) a;
        consume_live input_cell_ids live' a'
      else consume_live input_cell_ids live' a
  end.

(** [output.verify(arguments)] after each consumed output, with the arguments
    collected so far. *)
Fixpoint verify_output (o : Output) (consumed arguments : list Output) : alpha unit :=
  match consumed with
  | [] => Ok tt
  | co :: consumed' =>
      let arguments' := if decide (cell_type o = cell_type co) then arguments ++ [co]
                        else arguments in
      _ ← map_err AlphaError.Cell (output_verify o arguments');
      verify_output o consumed' arguments'
  end.

(** [State::remove_intersection] *)
Fixpoint remove_intersection_loop (cell_ids : CellIds) (live : list (CellIds * Cell))
    (acc : gmap CellIds Cell) : alpha (gmap CellIds Cell) :=
  match live with
  | [] => Ok acc
  | (live_cell_ids, live_cell) :: live' =>
      let key :=
        if intersects_with cell_ids live_cell_ids then
          left_difference live_cell_ids (intersect cell_ids live_cell_ids)
        else live_cell_ids in
      match acc !! key with
      | Some _ => Err AlphaError.ExistingCellIds
      | None => remove_intersection_loop cell_ids live' (<[key := live_cell]> acc)
      end
  end.

Definition remove_intersection (cell_ids : CellIds) (s : State) :
    alpha (gmap CellIds Cell) :=
  remove_intersection_loop cell_ids (iter_map (as_live_cells s)) ∅.

(** The capacities that a cell produces and the validators it adds. *)
Record Produced : Type := mkProduced {
  pd_coinbase : Z;
  pd_staking : Z;
  pd_capacity : Z;
  pd_validators : list (Id * Capacity)
}.

Fixpoint produce_outputs (height : Z) (os : list Output) (a : Produced) : alpha Produced :=
  match os with
  | [] => Ok a
  | o :: os' =>
      a' ← match cell_type o with
           | Coinbase =>
               if (height =? 0)%Z then
                 c ← u_add 64 (pd_coinbase a) (capacity o);
                 Ok (mkProduced c (pd_staking a) (pd_capacity a) (pd_validators a))
               else Err AlphaError.InvalidCoinbase
           | Stake =>
               node_id ← map_err AlphaError.Bincode (de_stake_state (data o));
               c ← u_add 64 (pd_staking a) (capacity o);
               Ok (mkProduced (pd_coinbase a) c (pd_capacity a)
                 (pd_validators a ++ [(node_id, capacity o)]))
           | Transfer =>
               c ← u_add 64 (pd_capacity a) (capacity o);
               Ok (mkProduced (pd_coinbase a) (pd_staking a) c (pd_validators a))
           end;
      produce_outputs height os' a'
  end.

(** The new totals of spendable and staked capacity. *)
Definition update_totals (consumed : Z) (p : Produced) (s : State) : alpha (Z * Z) :=
  produced ← u_add 64 (pd_capacity p) (pd_staking p);
  if (produced <=? consumed)%Z && (0 <? consumed)%Z && (pd_coinbase p =? 0)%Z then
    s1 ← u_sub 64 (as_total_spending_capacity s) consumed;
    s2 ← u_add 64 s1 (pd_capacity p);
    k ← u_add 64 (as_total_staking_capacity s) (pd_staking p);
    Ok (s2, k)
  else if (as_height s =? 0)%Z && (0 <? pd_coinbase p)%Z && (pd_capacity p =? 0)%Z
          && (pd_staking p =? 0)%Z then
    s1 ← u_add 64 (as_total_spending_capacity s) (pd_coinbase p);
    Ok (s1, as_total_staking_capacity s)
  else Err AlphaError.ExceedsCapacity.

(** One iteration of the loop of [apply]; the map that [remove_intersection]
    returns is dropped. *)
Definition apply_cell (s : State) (c : Cell) : alpha State :=
  input_cell_ids ← map_err AlphaError.Cell (from_inputs (inputs c));
  a ← consume_live input_cell_ids (iter_map (as_live_cells s)) (mkConsumed ∅ [] 0);
  if cell_ids_eq (cn_ids a) input_cell_ids then
    _ ← try_map (λ o, verify_output o (cn_outputs a) []) (outputs c);
    _ ← remove_intersection (cn_ids a) s;
    p ← produce_outputs (as_height s) (outputs c) (mkProduced 0 0 0 []);
    produced_cell_ids ← map_err AlphaError.Cell (from_outputs (hash c) (outputs c));
    match as_live_cells s !! produced_cell_ids with
    | Some _ => Err AlphaError.ExistingCellIds
    | None =>
        t ← update_totals (cn_capacity a) p s;
        Ok (mkState (as_height s) t.1 t.2 (as_validators s ++ pd_validators p)
          (<[produced_cell_ids := c]> (as_live_cells s)))
    end
  else Err AlphaError.UndefinedCellIds.

Fixpoint apply_cells (s : State) (cs : list Cell) : alpha State :=
  match cs with
  | [] => Ok s
  | c :: cs' => s' ← apply_cell s c; apply_cells s' cs'
  end.

(** [State::apply] *)
Definition apply (s : State) (b : Block) : alpha State :=
  let '(dg, r) := foreach (block_cells b) dg_insert dependency_graph_new in
  _ ← map_err AlphaError.Graph r;
  ordered_cells ← map_err AlphaError.Graph (topological_cells dg (block_cells b));
  apply_cells s ordered_cells.
End alpha_state.

(** ** Facts *)
Section alpha_state_facts.
Context `{Crypto, IterOrder, BuildProfile, StateCodec}.
Implicit Types (s : State) (c : Cell) (ids : CellIds).

(** What a successful iteration has checked and done. *)
Record applied s c s' a p t : Prop := {
  ap_consume : consume_live (consumed_ids c) (iter_map (as_live_cells s))
    (mkConsumed ∅ [] 0) = Ok a;
  ap_ids : cn_ids a = consumed_ids c;
  ap_verify : ∃ vs, try_map (λ o, verify_output o (cn_outputs a) []) (outputs c) = Ok vs;
  ap_remove : ∃ m, remove_intersection (consumed_ids c) s = Ok m;
  ap_produce : produce_outputs (as_height s) (outputs c) (mkProduced 0 0 0 []) = Ok p;
  ap_new : as_live_cells s !! produced_ids c = None;
  ap_totals : update_totals (cn_capacity a) p s = Ok t;
  ap_state : s' = mkState (as_height s) t.1 t.2 (as_validators s ++ pd_validators p)
    (<[produced_ids c := c]> (as_live_cells s))
}.

Lemma apply_cell_inv s c s' :
  apply_cell s c = Ok s' → ∃ a p t, applied s c s' a p t.
Proof.
  unfold apply_cell. rewrite from_inputs_Ok, from_outputs_Ok. cbn [map_err mbind res_bind].
  intros (a & Ha & Heq)%res_bind_Ok_inv.
  destruct (cell_ids_eq (cn_ids a) (consumed_ids c)) eqn:Hids; [|done].
  apply cell_ids_eq_spec in Hids.
  apply res_bind_Ok_inv in Heq as (vs & Hvs & Heq).
  apply res_bind_Ok_inv in Heq as (m & Hm & Heq).
  apply res_bind_Ok_inv in Heq as (p & Hp & Heq).
  destruct (as_live_cells s !! produced_ids c) eqn:Hnew; [done|].
  apply res_bind_Ok_inv in Heq as (t & Ht & Heq). simplify_eq.
  exists a, p, t. split; try done; [by eexists|]. rewrite <- Hids. by eexists.
Qed.

(** *** The consumed outputs *)

(** Every entry is kept under the ids that its cell produces. *)
Definition live_wf (live : list (CellIds * Cell)) : Prop :=
  ∀ k lc, (k, lc) ∈ live → k = produced_ids lc.

(** The outputs of the cell [lc] whose ids are in [ids], and those of all live
    cells. *)
Definition spent_of ids lc : list Output :=
  (filter (λ e : nat * Output, out_id (hash lc) (Z.of_nat e.1 mod 2 ^ 8)%Z ∈ ids)
     (imap pair (outputs lc))).*2.

Definition spent ids (live : list (CellIds * Cell)) : list Output :=
  mjoin ((λ e : CellIds * Cell, spent_of ids e.2) <$> live).

Definition worth (os : list Output) : Z := zsum (capacity <$> os).

Lemma worth_app o1 o2 : worth (o1 ++ o2) = (worth o1 + worth o2)%Z.
Proof. unfold worth. by rewrite fmap_app, zsum_app. Qed.

Lemma worth_cons o os : worth (o :: os) = (capacity o + worth os)%Z.
Proof. done. Qed.

Lemma consume_outputs_inv h I os a a' :
  overflow_checks = true → consume_outputs h I os a = Ok a' →
  let sel := filter (λ e : nat * Output, out_id h (Z.of_nat e.1 mod 2 ^ 8)%Z ∈ I) os in
  cn_outputs a' = cn_outputs a ++ sel.*2 ∧
  cn_capacity a' = (cn_capacity a + worth sel.*2)%Z ∧
  cn_ids a' = cn_ids a ∪ list_to_set ((λ e, out_id h (Z.of_nat e.1 mod 2 ^ 8)%Z) <$> sel).
Proof.
  intros Hck. revert a. induction os as [|[i o] os IH]; intros a Heq; cbn in Heq.
  { simplify_eq. cbn. rewrite app_nil_r. unfold worth. cbn.
    split_and!; [done|lia|set_solver]. }
  fold (out_id h (Z.of_nat i mod 256)) in Heq. rewrite filter_cons. cbn [fst].
  change (2 ^ 8)%Z with 256%Z in *. case_bool_decide as Hin.
  - rewrite decide_True by done. apply res_bind_Ok_inv in Heq as (cap & Hcap & Heq).
    apply u_norm_checked in Hcap as [-> _]; [|done]. apply IH in Heq as (-> & -> & ->).
    cbn [cn_outputs cn_capacity cn_ids]. rewrite !fmap_cons, <- app_assoc. cbn [snd fst].
    rewrite worth_cons. split_and!; [done|lia|set_solver].
  - rewrite decide_False by done. by apply IH.
Qed.

Lemma consume_live_inv ids live a a' :
  overflow_checks = true → live_wf live → consume_live ids live a = Ok a' →
  cn_outputs a' = cn_outputs a ++ spent ids live ∧
  cn_capacity a' = (cn_capacity a + worth (spent ids live))%Z ∧
  (∀ id, id ∈ cn_ids a' → id ∈ cn_ids a ∨ ∃ k lc, (k, lc) ∈ live ∧ id ∈ k).
Proof.
  intros Hck. revert a. induction live as [|[k lc] live IH]; intros a Hwf Heq.
  { cbn in Heq. simplify_eq. unfold spent, worth. cbn. rewrite app_nil_r.
    split_and!; [done|lia|auto]. }
  assert (live_wf live) as Hwf' by (intros ???; apply Hwf; set_solver).
  assert (k = produced_ids lc) as Hk by (apply Hwf; set_solver).
  change (spent ids ((k, lc) :: live)) with (spent_of ids lc ++ spent ids live).
  rewrite worth_app. cbn [consume_live] in Heq.
  assert (∀ i o, (i, o) ∈ imap pair (outputs lc) →
    out_id (hash lc) (Z.of_nat i mod 2 ^ 8)%Z ∈ k) as Hprod.
  { intros i o (j & o' & Heq' & Hj)%elem_of_lookup_imap. simplify_eq.
    apply elem_of_list_to_set, elem_of_lookup_imap. eauto. }
  destruct (intersects_with ids k) eqn:Hi.
  - apply res_bind_Ok_inv in Heq as (a1 & H1' & Heq).
    apply consume_outputs_inv in H1' as (Ho & Hc & Hs); [|done].
    apply IH in Heq as (-> & -> & Hids); [|done].
    assert (filter (λ e : nat * Output, out_id (hash lc) (Z.of_nat e.1 mod 2 ^ 8)%Z ∈
      intersect ids k) (imap pair (outputs lc)) = filter (λ e : nat * Output,
      out_id (hash lc) (Z.of_nat e.1 mod 2 ^ 8)%Z ∈ ids) (imap pair (outputs lc))) as Hf.
    { apply filter_ext_in. intros [i o] Hio. unfold intersect. specialize (Hprod i o Hio).
      cbn in *. set_solver. }
    rewrite Hf in *. fold (spent_of ids lc) in *. rewrite Ho, Hc. split_and!.
    + by rewrite app_assoc.
    + lia.
    + intros id [Hid|(k' & lc' & ? & ?)]%Hids; [|right; exists k', lc'; set_solver].
      rewrite Hs in Hid. apply elem_of_union in Hid as [?|Hid]; [by left|right].
      exists k, lc. split; [set_solver|].
      apply elem_of_list_to_set, list_elem_of_fmap in Hid as ([i o] & -> & Hio).
      apply list_elem_of_filter in Hio as [_ Hio]. by eapply Hprod.
  - apply intersects_with_false in Hi.
    assert (spent_of ids lc = []) as ->.
    { unfold spent_of. rewrite (proj2 (filter_none _ _)); [done|].
      intros [i o] Hio Hin. apply (Hi _ Hin), (Hprod i o Hio). }
    apply IH in Heq as (-> & -> & Hids); [|done]. cbn. split_and!; [done|unfold worth; cbn; lia|].
    intros id [?|(k' & lc' & ? & ?)]%Hids; [by left|right; exists k', lc'; set_solver].
Qed.

(** *** The produced capacity *)

Definition of_type (t : CellType) (os : list Output) : list Output :=
  filter (λ o, cell_type o = t) os.

Lemma worth_types os :
  worth os = (worth (of_type Coinbase os) + worth (of_type Stake os) +
              worth (of_type Transfer os))%Z.
Proof.
  induction os as [|o os IH]; [done|]. unfold of_type in *. rewrite !filter_cons, worth_cons.
  destruct (cell_type o) eqn:Ht; repeat case_decide; try done;
    rewrite ?worth_cons; lia.
Qed.

Lemma produce_outputs_inv height os p p' :
  overflow_checks = true → produce_outputs height os p = Ok p' →
  pd_coinbase p' = (pd_coinbase p + worth (of_type Coinbase os))%Z ∧
  pd_staking p' = (pd_staking p + worth (of_type Stake os))%Z ∧
  pd_capacity p' = (pd_capacity p + worth (of_type Transfer os))%Z ∧
  (of_type Coinbase os ≠ [] → height = 0%Z).
Proof.
  intros Hck. revert p. induction os as [|o os IH]; intros p Heq.
  { cbn in Heq. simplify_eq. unfold worth, of_type. cbn. split_and!; [lia..|done]. }
  cbn [produce_outputs] in Heq. apply res_bind_Ok_inv in Heq as (p1 & Hp & Heq).
  apply IH in Heq as (-> & -> & -> & Hh). unfold of_type in *. rewrite !filter_cons.
  destruct (cell_type o) eqn:Ht; repeat case_decide; try done.
  - destruct (Z.eqb_spec height 0); [|done]. apply res_bind_Ok_inv in Hp as (z & Hz & Hp).
    apply u_norm_checked in Hz as [-> _]; [|done]. simplify_eq.
    cbn [pd_coinbase pd_staking pd_capacity]. rewrite worth_cons. split_and!; [lia|lia|lia|done].
  - apply res_bind_Ok_inv in Hp as (z & Hz & Hp).
    apply u_norm_checked in Hz as [-> _]; [|done]. simplify_eq.
    cbn [pd_coinbase pd_staking pd_capacity]. rewrite worth_cons. split_and!; [lia|lia|lia|done].
  - apply res_bind_Ok_inv in Hp as (id & _ & Hp).
    apply res_bind_Ok_inv in Hp as (z & Hz & Hp).
    apply u_norm_checked in Hz as [-> _]; [|done]. simplify_eq.
    cbn [pd_coinbase pd_staking pd_capacity]. rewrite worth_cons. split_and!; [lia|lia|lia|done].
Qed.

(** The two ways in which the totals change: a cell without coinbase outputs
    gives back at most what it consumes; at the genesis a coinbase creates
    spendable capacity. *)
Definition totals_change (consumed produced coinbase : Z) s s' : Prop :=
  let total x := (as_total_spending_capacity x + as_total_staking_capacity x)%Z in
  (coinbase = 0 ∧ produced ≤ consumed ∧ total s' = total s - (consumed - produced))%Z ∨
  (as_height s = 0 ∧ produced = coinbase ∧ total s' = total s + coinbase)%Z.

Lemma update_totals_inv consumed p s t :
  overflow_checks = true → update_totals consumed p s = Ok t →
  (pd_coinbase p = 0 ∧ pd_capacity p + pd_staking p ≤ consumed ∧
   t.1 + t.2 = as_total_spending_capacity s + as_total_staking_capacity s -
               (consumed - (pd_capacity p + pd_staking p)))%Z ∨
  (as_height s = 0 ∧ pd_capacity p = 0 ∧ pd_staking p = 0 ∧
   t.1 + t.2 = as_total_spending_capacity s + as_total_staking_capacity s + pd_coinbase p)%Z.
Proof.
  intros Hck. unfold update_totals.
  intros (pr & [-> _]%u_norm_checked & Heq)%res_bind_Ok_inv; [|done].
  destruct (_ && _ && (pd_coinbase p =? 0)%Z) eqn:Hb.
  - left. apply andb_true_iff in Hb as [[Hle _]%andb_true_iff Hcb].
    apply Z.leb_le in Hle. apply Z.eqb_eq in Hcb.
    apply res_bind_Ok_inv in Heq as (s1 & [-> _]%u_norm_checked & Heq); [|done].
    apply res_bind_Ok_inv in Heq as (s2 & [-> _]%u_norm_checked & Heq); [|done].
    apply res_bind_Ok_inv in Heq as (k & [-> _]%u_norm_checked & Heq); [|done].
    simplify_eq. cbn. lia.
  - destruct (_ && _ && _ && _) eqn:Hb2; [|done]. right.
    apply andb_true_iff in Hb2 as [[[Hh _]%andb_true_iff Hc]%andb_true_iff Hs].
    apply Z.eqb_eq in Hh, Hc, Hs.
    apply res_bind_Ok_inv in Heq as (s1 & [-> _]%u_norm_checked & Heq); [|done].
    simplify_eq. cbn. lia.
Qed.

(** *** One cell, all cells *)

Definition state_wf s : Prop := ∀ k lc, as_live_cells s !! k = Some lc → k = produced_ids lc.

Definition coinbase_worth (cs : list Cell) : Z :=
  zsum ((λ c, worth (of_type Coinbase (outputs c))) <$> cs).

Lemma apply_cell_spec s c s' :
  overflow_checks = true → state_wf s → apply_cell s c = Ok s' →
  state_wf s' ∧ as_height s' = as_height s ∧
  as_live_cells s' = <[produced_ids c := c]> (as_live_cells s) ∧
  as_live_cells s !! produced_ids c = None ∧
  (∀ id, id ∈ consumed_ids c → ∃ k lc, as_live_cells s !! k = Some lc ∧ id ∈ produced_ids lc) ∧
  totals_change (worth (spent (consumed_ids c) (iter_map (as_live_cells s))))
    (worth (outputs c)) (worth (of_type Coinbase (outputs c))) s s' ∧
  (of_type Coinbase (outputs c) ≠ [] → as_height s = 0%Z).
Proof.
  intros Hck Hwf (a & p & t & Hap)%apply_cell_inv.
  destruct Hap as [Hcons Hids _ _ Hprod Hnew Htot ->].
  assert (live_wf (iter_map (as_live_cells s))) as Hlw.
  { intros k lc Hin%elem_of_iter_map. by apply Hwf. }
  destruct (consume_live_inv _ _ _ _ Hck Hlw Hcons) as (_ & Hcap & Hin).
  destruct (produce_outputs_inv _ _ _ _ Hck Hprod) as (Hcb & Hst & Htr & Hh).
  cbn in Hcap, Hcb, Hst, Htr. split_and!; [|done|done|done| | |done].
  - intros k lc. cbn. destruct (decide (produced_ids c = k)) as [<-|].
    + rewrite lookup_insert_eq. by intros [= ->].
    + rewrite lookup_insert_ne by done. apply Hwf.
  - intros id Hid. rewrite <- Hids in Hid. destruct (Hin id Hid) as [Hn|(k & lc & Hk & Hik)].
    { cbn in Hn. set_solver. }
    exists k, lc. apply elem_of_iter_map in Hk. split; [done|]. by rewrite <- (Hwf k lc Hk).
  - apply update_totals_inv in Htot; [|done]. unfold totals_change. cbn.
    pose proof (worth_types (outputs c)). destruct Htot; [left|right]; lia.
Qed.

(** Applying a block keeps every live cell, whether it was spent or not. *)
Lemma apply_cells_live s cs s' :
  apply_cells s cs = Ok s' → as_live_cells s ⊆ as_live_cells s'.
Proof.
  revert s. induction cs as [|c cs IH]; intros s Heq; cbn in Heq; [by simplify_eq|].
  apply res_bind_Ok_inv in Heq as (s1 & (a & p & t & Hap)%apply_cell_inv & Heq).
  destruct Hap as [_ _ _ _ _ Hnew _ ->]. etrans; [|exact (IH _ Heq)].
  cbn. by apply insert_subseteq.
Qed.

Lemma apply_inv s b s' :
  apply s b = Ok s' → ∃ g l, foreach (block_cells b) dg_insert dependency_graph_new =
    (g, Ok tt) ∧ topological_cells g (block_cells b) = Ok l ∧ apply_cells s l = Ok s'.
Proof.
  unfold apply. destruct (foreach _ _ _) as [g r] eqn:Hg.
  intros ([] & Hr%map_err_Ok_inv & Heq)%res_bind_Ok_inv. subst r.
  apply res_bind_Ok_inv in Heq as (l & Hl%map_err_Ok_inv & Heq). eauto.
Qed.

Lemma topological_cells_submseteq cs g l :
  foreach cs dg_insert dependency_graph_new = (g, Ok tt) →
  topological_cells g cs = Ok l → l ⊆+ cs.
Proof.
  intros [Hwf Hnd Hdh]%graph_of_build Hl.
  destruct (topological_spec g Hwf) as (out & Hout & Hinv).
  unfold topological_cells in Hl. rewrite Hout in Hl. cbn [mbind res_bind] in Hl.
  rewrite (try_map_Ok _ (λ ids, filter (λ c, produced_ids c = ids) cs)) in Hl
    by (intros; apply cells_of_Ok). cbn [mbind res_bind] in Hl. injection Hl as <-.
  assert (∀ p, p ∈ out → p ∈ produced_ids <$> cs) as Hin.
  { intros p Hp. apply (ti_free _ _ _ Hinv) in Hp as [[ids (c & ? & -> & _)%Hdh] _].
    apply list_elem_of_fmap. eauto. }
  apply NoDup_submseteq.
  - apply (NoDup_fmap_1 produced_ids). rewrite topological_cells_rows by done.
    apply (ti_nodup _ _ _ Hinv).
  - intros c. rewrite list_elem_of_join. intros (row & Hc & Hr).
    apply list_elem_of_fmap in Hr as (p & -> & _). by apply list_elem_of_filter in Hc as [_ ?].
Qed.

Lemma worth_nonneg os : (∀ o, o ∈ os → 0 ≤ capacity o)%Z → (0 ≤ worth os)%Z.
Proof.
  intros Hos. apply zsum_nonneg, Forall_forall. intros z (o & -> & Ho)%list_elem_of_fmap. auto.
Qed.

Lemma coinbase_worth_submseteq l cs :
  l ⊆+ cs → (∀ c o, c ∈ cs → o ∈ outputs c → 0 ≤ capacity o)%Z →
  (coinbase_worth l ≤ coinbase_worth cs)%Z.
Proof.
  intros [k Hk]%submseteq_Permutation Hcs. unfold coinbase_worth. rewrite Hk, fmap_app, zsum_app.
  assert (0 ≤ zsum ((λ c, worth (of_type Coinbase (outputs c))) <$> k))%Z; [|lia].
  apply zsum_nonneg, Forall_forall. intros z (c & -> & Hc)%list_elem_of_fmap.
  apply worth_nonneg. intros o [_ Ho]%list_elem_of_filter. apply (Hcs c); [|done].
  rewrite Hk. set_solver.
Qed.

Lemma apply_cells_totals s cs s' :
  overflow_checks = true → state_wf s → apply_cells s cs = Ok s' →
  let total x := (as_total_spending_capacity x + as_total_staking_capacity x)%Z in
  state_wf s' ∧ as_height s' = as_height s ∧
  ((∀ c o, c ∈ cs → o ∈ outputs c → 0 ≤ capacity o) → total s' ≤ total s + coinbase_worth cs)%Z.
Proof.
  intros Hck. revert s. induction cs as [|c cs IH]; intros s Hwf Heq; cbn in Heq.
  { simplify_eq. unfold coinbase_worth. cbn. split_and!; [done|done|lia]. }
  apply res_bind_Ok_inv in Heq as (s1 & Hs1 & Heq).
  apply apply_cell_spec in Hs1 as (Hwf1 & Hh1 & _ & _ & _ & Ht & _); [|done..].
  apply IH in Heq as (Hwf' & Hh & Htot); [|done]. cbn zeta in *.
  split_and!; [done|congruence|]. intros Hcs.
  assert (0 ≤ worth (of_type Coinbase (outputs c)))%Z.
  { apply worth_nonneg. intros o [_ Ho]%list_elem_of_filter. apply (Hcs c); [set_solver|done]. }
  change (coinbase_worth (c :: cs)) with
    (worth (of_type Coinbase (outputs c)) + coinbase_worth cs)%Z.
  specialize (Htot ltac:(set_solver)). unfold totals_change in Ht. lia.
Qed.

(** *** The states that blocks lead to *)

Fixpoint apply_blocks s (bs : list Block) : res AlphaError.Error State :=
  match bs with
  | [] => Ok s
  | b :: bs' => s' ← apply s b; apply_blocks s' bs'
  end.

Lemma apply_wf s b s' :
  overflow_checks = true → state_wf s → apply s b = Ok s' →
  state_wf s' ∧ as_height s' = as_height s.
Proof.
  intros Hck Hwf (g & l & _ & _ & Heq)%apply_inv. by apply apply_cells_totals in Heq as (? & ? & _).
Qed.

Lemma state_new_wf : state_wf state_new.
Proof. intros k lc Hk. cbn in Hk. by rewrite lookup_empty in Hk. Qed.

(** The height is never advanced: it is still that of the genesis. *)
Lemma apply_blocks_wf s bs s' :
  overflow_checks = true → state_wf s → apply_blocks s bs = Ok s' →
  state_wf s' ∧ as_height s' = as_height s.
Proof.
  intros Hck. revert s. induction bs as [|b bs IH]; intros s Hwf Heq; cbn in Heq; [by simplify_eq|].
  apply res_bind_Ok_inv in Heq as (s1 & [Hwf1 Hh1]%apply_wf & Heq); [|done..].
  apply IH in Heq as [? ?]; [|done]. split; [done|congruence].
Qed.

Lemma apply_block_totals s b s' :
  overflow_checks = true → state_wf s → apply s b = Ok s' →
  let total x := (as_total_spending_capacity x + as_total_staking_capacity x)%Z in
  ((∀ c o, c ∈ block_cells b → o ∈ outputs c → 0 ≤ capacity o) →
   total s' ≤ total s + coinbase_worth (block_cells b))%Z.
Proof.
  intros Hck Hwf (g & l & Hg & Hl & Heq)%apply_inv total Hcs.
  pose proof (topological_cells_submseteq _ _ _ Hg Hl) as Hsub.
  apply apply_cells_totals in Heq as (_ & _ & Ht); [|done..].
  pose proof (coinbase_worth_submseteq _ _ Hsub Hcs). cbn in Ht. subst total. cbn.
  enough (as_total_spending_capacity s' + as_total_staking_capacity s' ≤
    as_total_spending_capacity s + as_total_staking_capacity s + coinbase_worth l)%Z by lia.
  apply Ht. intros c o Hc. apply Hcs. by eapply elem_of_submseteq.
Qed.

(** *** A coinbase cell *)

Lemma consume_live_nothing live a : consume_live ∅ live a = Ok a.
Proof.
  induction live as [|[k lc] live IH]; [done|]. cbn [consume_live].
  by rewrite (proj2 (intersects_with_false ∅ k)) by set_solver.
Qed.

Lemma remove_nothing live acc :
  NoDup live.*1 → (∀ k, k ∈ live.*1 → acc !! k = None) →
  ∃ m, remove_intersection_loop ∅ live acc = Ok m.
Proof.
  revert acc. induction live as [|[k lc] live IH]; intros acc Hnd Hacc; [by eexists|].
  cbn [remove_intersection_loop]. rewrite (proj2 (intersects_with_false ∅ k)) by set_solver.
  cbn in Hnd. apply NoDup_cons in Hnd as [Hk Hnd]. rewrite Hacc by (by left).
  apply IH; [done|]. intros k' Hk'. rewrite lookup_insert_ne by (by intros ->). apply Hacc. by right.
Qed.

Lemma produce_coinbase os a :
  Forall (λ o, cell_type o = Coinbase ∧ (0 ≤ capacity o)%Z) os →
  (0 ≤ pd_coinbase a)%Z → (pd_coinbase a + worth os < 2 ^ 64)%Z →
  produce_outputs 0 os a =
    Ok (mkProduced (pd_coinbase a + worth os) (pd_staking a) (pd_capacity a) (pd_validators a)).
Proof.
  intros Hos. revert a. induction Hos as [|o os [Hty Hc] Hos IH]; intros a Ha Hw.
  { unfold worth. cbn. rewrite Z.add_0_r. by destruct a. }
  rewrite worth_cons in *. cbn [produce_outputs]. rewrite Hty. cbn [Z.eqb].
  assert (0 ≤ worth os)%Z.
  { apply worth_nonneg. intros o' Ho'. rewrite Forall_forall in Hos. by apply Hos. }
  unfold u_add. rewrite u_norm_in_range by (unfold in_range; lia). cbn [mbind res_bind].
  rewrite IH by (cbn; lia). cbn. do 2 f_equal. lia.
Qed.

Lemma apply_coinbase s c :
  as_height s = 0%Z → (0 ≤ as_total_spending_capacity s)%Z →
  consumed_ids c = ∅ → Forall (λ o, cell_type o = Coinbase ∧ (0 ≤ capacity o)%Z) (outputs c) →
  (0 < worth (outputs c))%Z → (as_total_spending_capacity s + worth (outputs c) < 2 ^ 64)%Z →
  as_live_cells s !! produced_ids c = None →
  apply_cell s c = Ok (mkState 0 (as_total_spending_capacity s + worth (outputs c))
    (as_total_staking_capacity s) (as_validators s) (<[produced_ids c := c]> (as_live_cells s))).
Proof.
  intros Hh Hs Hin Hos Hw Hfit Hnew. unfold apply_cell.
  rewrite from_inputs_Ok, from_outputs_Ok, Hin, Hh. cbn [map_err mbind res_bind].
  rewrite consume_live_nothing. cbn [mbind res_bind cn_ids cn_outputs cn_capacity].
  rewrite (proj2 (cell_ids_eq_spec ∅ ∅) eq_refl).
  rewrite (try_map_Ok _ (λ _, tt)) by done. cbn [mbind res_bind].
  destruct (remove_nothing (iter_map (as_live_cells s)) ∅) as [m Hm].
  { rewrite iter_map_perm. apply NoDup_fst_map_to_list. } { intros. apply lookup_empty. }
  unfold remove_intersection. rewrite Hm. cbn [mbind res_bind].
  rewrite produce_coinbase by (cbn; try done; lia). cbn [mbind res_bind pd_coinbase pd_staking pd_capacity pd_validators].
  rewrite Hnew. unfold update_totals, u_add. cbn [pd_coinbase pd_staking pd_capacity].
  rewrite (u_norm_in_range 64 (0 + 0)) by (by split). cbn [mbind res_bind]. rewrite Hh.
  change (0 + 0 <=? 0)%Z with true. change (0 <? 0)%Z with false. change (0 =? 0)%Z with true.
  cbn [andb].
  rewrite (proj2 (Z.ltb_lt 0 (0 + worth (outputs c)))) by lia. cbn [andb].
  rewrite u_norm_in_range by (unfold in_range; lia). cbn. by rewrite app_nil_r.
Qed.

Lemma apply_one s b c s' :
  block_cells b = [c] → consumed_ids c = ∅ → apply_cell s c = Ok s' → apply s b = Ok s'.
Proof.
  intros Hb Hin Hs.
  destruct (dg_insert_spec dependency_graph_new c dg_new_wf) as (g & Hg & _); [apply lookup_empty|].
  assert (foreach [c] dg_insert dependency_graph_new = (g, Ok tt)) as Hf.
  { rewrite foreach_cons. by erewrite st_bind_Ok; [|exact Hg]. }
  destruct (topological_cells_sorted [c] g (λ _, 0) Hf) as (l & Hl & Hp & _).
  { intros c1 c2 ->%list_elem_of_singleton ->%list_elem_of_singleton Hd.
    unfold depends_on in Hd. rewrite Hin in Hd. set_solver. }
  symmetry in Hp. apply Permutation_length_1_inv in Hp as ->.
  unfold apply. rewrite Hb, Hf. cbn [map_err mbind res_bind]. rewrite Hl. cbn. by rewrite Hs.
Qed.

(** The keys of [remove_intersection] must stay apart. *)
Definition key_after ids (k : CellIds) : CellIds :=
  if intersects_with ids k then left_difference k (intersect ids k) else k.

Lemma remove_intersection_inj ids live acc m :
  remove_intersection_loop ids live acc = Ok m →
  NoDup (key_after ids <$> live.*1) ∧
  ∀ k, k ∈ key_after ids <$> live.*1 → acc !! k = None.
Proof.
  revert acc. induction live as [|[k lc] live IH]; intros acc Heq.
  { split; [constructor|set_solver]. }
  cbn [remove_intersection_loop] in Heq. fold (key_after ids k) in Heq.
  destruct (acc !! key_after ids k) eqn:Hk; [done|]. apply IH in Heq as [Hnd Hnone].
  rewrite !fmap_cons. cbn [fst]. split.
  - apply NoDup_cons. split; [|done]. intros Hin%Hnone. by rewrite lookup_insert_eq in Hin.
  - intros k' [->|Hin]%elem_of_cons; [done|]. specialize (Hnone k' Hin).
    destruct (decide (key_after ids k = k')) as [<-|]; [done|].
    by rewrite lookup_insert_ne in Hnone.
Qed.

(** *** Properties *)

(** C35: applying a cell in a state that blocks have led to, in a build with overflow
    checks.  Every input refers to an output of a live cell; the cell becomes live under
    the ids it produces; the consumed capacity is what the referenced outputs are worth,
    and either the cell has no coinbase capacity, produces at most that much and the
    rest leaves the totals as a fee, or all it produces is coinbase capacity, which is
    added to the totals. *)
Theorem apply_cell_accounts bs s c s' :
  let total x := (as_total_spending_capacity x + as_total_staking_capacity x)%Z in
  let consumed := worth (spent (consumed_ids c) (iter_map (as_live_cells s))) in
  let produced := worth (outputs c) in
  let coinbase := worth (of_type Coinbase (outputs c)) in
  overflow_checks = true → apply_blocks state_new bs = Ok s → apply_cell s c = Ok s' →
  as_live_cells s !! produced_ids c = None ∧
  as_live_cells s' = <[produced_ids c := c]> (as_live_cells s) ∧
  (∀ id, id ∈ consumed_ids c → ∃ k lc, as_live_cells s !! k = Some lc ∧ id ∈ produced_ids lc) ∧
  ((coinbase = 0 ∧ produced ≤ consumed ∧ total s' = total s - (consumed - produced))%Z ∨
   (produced = coinbase ∧ total s' = total s + coinbase)%Z).
Proof.
  intros total consumed produced coinbase Hck Hbs Heq.
  destruct (apply_blocks_wf _ _ _ Hck state_new_wf Hbs) as [Hwf _].
  destruct (apply_cell_spec s c s' Hck Hwf Heq) as (_ & _ & H3' & H4' & H5' & H6' & _).
  split_and!; [done..|]. unfold totals_change in H6'. destruct H6' as [?|[_ ?]]; [by left|by right].
Qed.

(** C36: capacity comes from coinbase outputs only.  In a build with overflow checks,
    after any sequence of blocks that were applied, starting with the genesis, the
    totals of spendable and staked capacity together are at most what the coinbase
    outputs of these blocks are worth. *)
Theorem apply_no_inflation bs s :
  overflow_checks = true → apply_blocks state_new bs = Ok s →
  (∀ b c o, b ∈ bs → c ∈ block_cells b → o ∈ outputs c → 0 ≤ capacity o)%Z →
  (as_total_spending_capacity s + as_total_staking_capacity s ≤
   zsum ((λ b, coinbase_worth (block_cells b)) <$> bs))%Z.
Proof.
  intros Hck Hbs Hcs.
  assert (∀ bs s0 s, state_wf s0 → apply_blocks s0 bs = Ok s →
    (∀ b c o, b ∈ bs → c ∈ block_cells b → o ∈ outputs c → 0 ≤ capacity o)%Z →
    (as_total_spending_capacity s + as_total_staking_capacity s ≤
     as_total_spending_capacity s0 + as_total_staking_capacity s0 +
     zsum ((λ b, coinbase_worth (block_cells b)) <$> bs))%Z) as Hgen;
    [|specialize (Hgen bs _ _ state_new_wf Hbs Hcs); cbn in Hgen; lia].
  clear bs s Hbs Hcs. induction bs as [|b bs IH]; intros s0 s Hwf Heq Hcs; cbn in Heq.
  { simplify_eq. cbn. lia. }
  apply res_bind_Ok_inv in Heq as (s1 & Hs1 & Heq).
  destruct (apply_wf _ _ _ Hck Hwf Hs1) as [Hwf1 _].
  pose proof (apply_block_totals _ _ _ Hck Hwf Hs1 ltac:(set_solver)) as Ht.
  specialize (IH s1 s Hwf1 Heq ltac:(set_solver)). cbv beta zeta in Ht. rewrite fmap_cons.
  change (zsum (?x :: ?l)) with (x + zsum l)%Z. lia.
Qed.

(** C37: coinbase outputs are not confined to the genesis.  The check that refuses them
    asks for the height of the state, which no block advances: after any blocks, a
    block with one cell without inputs whose outputs are all coinbase outputs is applied
    as long as the totals have room, and raises them by what the outputs are worth. *)
Theorem coinbase_mints_after_genesis bs s b c :
  overflow_checks = true → apply_blocks state_new bs = Ok s →
  block_cells b = [c] → consumed_ids c = ∅ →
  Forall (λ o, cell_type o = Coinbase ∧ (0 ≤ capacity o)%Z) (outputs c) →
  (0 < worth (outputs c))%Z →
  (0 ≤ as_total_spending_capacity s)%Z →
  (as_total_spending_capacity s + worth (outputs c) < 2 ^ 64)%Z →
  as_live_cells s !! produced_ids c = None →
  ∃ s', apply s b = Ok s' ∧ as_height s' = 0%Z ∧
    as_total_spending_capacity s' = (as_total_spending_capacity s + worth (outputs c))%Z ∧
    as_total_staking_capacity s' = as_total_staking_capacity s.
Proof.
  intros Hck Hbs Hb Hin Hos Hw Hpos Hfit Hnew.
  destruct (apply_blocks_wf _ _ _ Hck state_new_wf Hbs) as [_ Hh].
  eexists. split; [|split_and!]; [eapply apply_one; [done..|by apply apply_coinbase]|done..].
Qed.

(** C38: a cell that was spent stays live: the map without the spent ids is
    computed and dropped, so every live cell is still live after a block, and its
    outputs can be spent again. *)
Theorem spent_cells_stay_live s b s' :
  apply s b = Ok s' → as_live_cells s ⊆ as_live_cells s'.
Proof. intros (g & l & _ & _ & Heq)%apply_inv. by eapply apply_cells_live. Qed.

(** A cell that spends all outputs of two live cells is always refused,
    although nothing is wrong with it: the two entries would both be kept under
    the empty set of ids. *)
Theorem emptying_two_cells_refused s c k1 k2 c1 c2 s' :
  as_live_cells s !! k1 = Some c1 → as_live_cells s !! k2 = Some c2 → k1 ≠ k2 →
  k1 ⊆ consumed_ids c → k2 ⊆ consumed_ids c → k1 ≠ ∅ → k2 ≠ ∅ →
  apply_cell s c ≠ Ok s'.
Proof.
  intros Hk1 Hk2 Hne Hs1 Hs2 He1 He2 (a & p & t & Hap)%apply_cell_inv.
  destruct (ap_remove _ _ _ _ _ _ Hap) as [m Hm]. apply remove_intersection_inj in Hm as [Hnd _].
  assert (∀ k, k ⊆ consumed_ids c → k ≠ ∅ → key_after (consumed_ids c) k = ∅) as Hkey.
  { intros k Hk He. unfold key_after.
    rewrite (proj2 (intersects_with_true (consumed_ids c) k)) by set_solver.
    unfold left_difference, intersect. set_solver. }
  assert (∀ k lc, as_live_cells s !! k = Some lc → k ∈ (iter_map (as_live_cells s)).*1) as Hin.
  { intros k lc Hk%elem_of_iter_map. apply list_elem_of_fmap. by exists (k, lc). }
  apply Hin, list_elem_of_lookup in Hk1 as [i Hi]. apply Hin, list_elem_of_lookup in Hk2 as [j Hj].
  assert (i = j) as ->; [|congruence].
  eapply (NoDup_lookup _ i j ∅ Hnd); rewrite list_lookup_fmap.
  - rewrite Hi. cbn. by rewrite Hkey.
  - rewrite Hj. cbn. by rewrite Hkey.
Qed.
End alpha_state_facts.

(** ** Examples and witnesses, in a build with overflow checks *)
Section alpha_state_witnesses.
#[local] Existing Instance plain_crypto.
#[local] Existing Instance canonical_order.
#[local] Existing Instance debug_profile.
#[local] Existing Instance plain_state_codec.

(** The genesis block of six stakers, as in the test [test_apply_genesis]. *)
Definition staker (k : Z) : InitialStaker :=
  mkStaker ([k] : @Keypair plain_crypto) [100 + k]%Z 2000 1000.

Example genesis_applies :
  (b ← build_genesis (staker <$> [1; 2; 3; 4; 5; 6]%Z); s ← apply state_new b;
   Ok (as_total_spending_capacity s, as_total_staking_capacity s,
       length (as_validators s))) = @Ok AlphaError.Error _ (6000 - 6 * FEE, 6000, 6%nat)%Z.
Proof. vm_compute. reflexivity. Qed.

(** Two coinbase cells, and cells that spend them. *)
Definition mint (n : Z) : Output :=
  {| capacity := n; cell_type := Coinbase; data := []; lock := [1%Z] |}.
Definition mint1 : Cell := cell_new ∅ [mint 100].
Definition mint2 : Cell := cell_new ∅ [mint 50].
Definition pay1 : Cell := cell_new {[ spend (hash mint1) 0 ]} [pay 97 [2%Z]].
Definition pay1' : Cell := cell_new {[ spend (hash mint1) 0 ]} [pay 90 [3%Z]].
Definition pay_both : Cell :=
  cell_new {[ spend (hash mint1) 0; spend (hash mint2) 0 ]} [pay 147 [2%Z]].
Definition block_of (cs : list Cell) : Block := mkBlock None 0 [] cs.
Definition apply_or (s : State) (b : Block) : State :=
  match apply s b with Ok s' => s' | _ => s end.
Definition minted : State := apply_or state_new (block_of [mint1; mint2]).

Lemma minted_applied : apply_blocks state_new [block_of [mint1; mint2]] = Ok minted.
Proof. vm_compute. reflexivity. Qed.

Lemma apply_cell_accounts_witness :
  ∃ s', apply_cell minted pay1 = Ok s' ∧
    as_live_cells s' = <[produced_ids pay1 := pay1]> (as_live_cells minted) ∧
    ∀ id, id ∈ consumed_ids pay1 →
      ∃ k lc, as_live_cells minted !! k = Some lc ∧ id ∈ produced_ids lc.
Proof.
  assert (is_ok (apply_cell minted pay1) = true) as Hok by (vm_compute; reflexivity).
  destruct (apply_cell minted pay1) as [s'| | |] eqn:Hs; try discriminate Hok.
  exists s'. split; [reflexivity|].
  destruct (apply_cell_accounts [block_of [mint1; mint2]] minted pay1 s') as (_ & H1 & H2 & _).
  - reflexivity.
  - exact minted_applied.
  - exact Hs.
  - split; [exact H1|exact H2].
Defined.

Lemma apply_no_inflation_witness :
  (as_total_spending_capacity minted + as_total_staking_capacity minted ≤ 150)%Z.
Proof.
  apply (apply_no_inflation [block_of [mint1; mint2]] minted).
  - reflexivity.
  - exact minted_applied.
  - intros b c o Hb Hc Ho. apply list_elem_of_singleton in Hb as ->.
    assert (Forall (λ c, Forall (λ o, 0 ≤ capacity o)%Z (outputs c)) [mint1; mint2]) as Hall
      by (apply (bool_decide_unpack _); vm_compute; exact I).
    rewrite Forall_forall in Hall. specialize (Hall c Hc). rewrite Forall_forall in Hall.
    exact (Hall o Ho).
Defined.

(** Another thousand, in a block after the genesis. *)
Definition mint3 : Cell := cell_new ∅ [mint 1000].

Lemma coinbase_mints_after_genesis_witness :
  ∃ s', apply minted (block_of [mint3]) = Ok s' ∧ as_total_spending_capacity s' = 1150%Z.
Proof.
  destruct (coinbase_mints_after_genesis [block_of [mint1; mint2]] minted (block_of [mint3]) mint3)
    as (s' & H1 & _ & H2 & _).
  - reflexivity.
  - exact minted_applied.
  - reflexivity.
  - apply (bool_decide_unpack _). vm_compute. exact I.
  - apply (bool_decide_unpack _). vm_compute. exact I.
  - vm_compute. reflexivity.
  - vm_compute. discriminate.
  - vm_compute. reflexivity.
  - vm_compute. reflexivity.
  - exists s'. split; [exact H1|exact H2].
Defined.

(** Two payments out of the same output, in one block: both are applied. *)
Lemma spent_cells_stay_live_witness :
  pay1 ≠ pay1' ∧ consumed_ids pay1 = consumed_ids pay1' ∧
  ∃ s', apply minted (block_of [pay1; pay1']) = Ok s' ∧ as_live_cells minted ⊆ as_live_cells s'.
Proof.
  split; [apply (bool_decide_unpack _); vm_compute; exact I|].
  split; [vm_compute; reflexivity|].
  assert (is_ok (apply minted (block_of [pay1; pay1'])) = true) as Hok by (vm_compute; reflexivity).
  destruct (apply minted (block_of [pay1; pay1'])) as [s'| | |] eqn:Hs; try discriminate Hok.
  exists s'. split; [reflexivity|]. exact (spent_cells_stay_live _ _ _ Hs).
Defined.

Lemma emptying_two_cells_refused_witness :
  apply_cell minted pay_both = Err AlphaError.ExistingCellIds ∧
  apply_cell minted pay_both ≠ Ok minted.
Proof.
  split; [vm_compute; reflexivity|].
  apply (emptying_two_cells_refused minted pay_both (produced_ids mint1) (produced_ids mint2)
    mint1 mint2).
  - vm_compute. reflexivity.
  - vm_compute. reflexivity.
  - apply (bool_decide_unpack _). vm_compute. exact I.
  - apply (bool_decide_unpack _). vm_compute. exact I.
  - apply (bool_decide_unpack _). vm_compute. exact I.
  - apply (bool_decide_unpack _). vm_compute. exact I.
  - apply (bool_decide_unpack _). vm_compute. exact I.
Defined.
End alpha_state_witnesses.
