(* ===== verification/Sleet.v ===== *)
(** * Sleet.v: the consensus of sleet (src/src/sleet/sleet.rs)

    The actor keeps the conflict graph, the DAG, the stored transactions and the
    accepted frontier.  The methods and message handlers are state transformers
    on [Sleet]; what a handler hands to actix (notifications to itself, messages
    to hail and to the network client, answers of pending queries) is appended
    to [sl_out].  A handler that awaits a response is split at the await: the
    second part is a function of the response. *)

From stdpp Require Import prelude gmap sets fin_sets list strings.
From Stdlib Require Import ZArith Lia SpecFloat.
From S2P Require Import Prelude Orders Cell Dag ConflictGraph Blocks Storage Util.

(** [sleet::Error] *)
Module SleetError.
Inductive Error : Type :=
| Actix (s : string)
| Sled (e : SledError)
| Cell (e : CellError.Error)
| Storage (e : StorageError.Error)
| InvalidCoinbaseTransaction (c : Cell.Cell)
| InvalidTxHash (h : TxHash)
| InvalidConflictSet
| Graph (e : GraphError.Error)
| InsufficientWeight
| MissingAncestry.
End SleetError.

Definition NPARENTS : nat := 3.

(** ** Messages *)

(** The requests that sleet sends to other nodes and the responses it
    distinguishes (src/src/protocol.rs). *)
Inductive Request : Type :=
| ReqQueryTx (id : Id) (ip : SocketAddr) (tx : Tx)
| ReqGetAcceptedFrontier
| ReqFetchTx (h : TxHash)
| ReqGetTxAncestors (h : TxHash).

Inductive Response : Type :=
| QueryTxAck (id : Id) (h : TxHash) (outcome : bool)
| AcceptedFrontier (frontier : gset TxHash)
| FetchedTx (tx : option Tx)
| TxAncestors (ancestors : list Tx)
| OtherResponse.

(** [client::ClientResponse] *)
Inductive ClientResponse : Type :=
| Fanout (rs : list Response)
| Oneshot (r : option Response).

(** What a handler hands to actix. *)
Inductive Effect : Type :=
| NotifyBootstrap
| NotifyFetchWithAncestry (txs : gset TxHash)
| NotifyQueryComplete (tx : Tx) (acks : list Response)
| NotifyQueryIncomplete (tx : Tx) (acks : list Response)
| NotifyNewAccepted (hs : list TxHash)
| NotifyFreshTx (tx : Tx)
| NotifyCheckPending
| NotifyAskForAncestors (h : TxHash) (id : Id) (ip : SocketAddr)
| SendAcceptedCells (cells : list Cell)
| SendFanout (peers : list (Id * SocketAddr)) (r : Request)
| SendOneshot (id : Id) (ip : SocketAddr) (r : Request)
| Resolve (channel : nat) (outcome : bool).

(** ** State *)
Section sleet_state.
Context `{Sled}.

Record Sleet : Type := mkSleet {
  sl_node_id : Id;
  sl_node_ip : SocketAddr;
  sl_committee : gmap Id (SocketAddr * Weight);
  sl_known_txs : Db;
  sl_conflict_graph : ConflictGraph;
  sl_live_cells : BoundedHashMap CellHash Cell;
  sl_accepted_txs : BoundedHashSet TxHash;
  sl_pending_queries : list (Tx * nat);
  sl_dag : DAG TxHash;
  sl_accepted_frontier : gset TxHash;
  sl_bootstrap_peers : list (Id * SocketAddr);
  sl_old_frontier : gset TxHash;
  sl_bootstrapped : bool;
  (** the next unused oneshot channel *)
  sl_next_channel : nat;
  sl_out : list Effect
}.

Definition set_committee x s := mkSleet (sl_node_id s) (sl_node_ip s) x (sl_known_txs s)
  (sl_conflict_graph s) (sl_live_cells s) (sl_accepted_txs s) (sl_pending_queries s)
  (sl_dag s) (sl_accepted_frontier s) (sl_bootstrap_peers s) (sl_old_frontier s)
  (sl_bootstrapped s) (sl_next_channel s) (sl_out s).
Definition set_known_txs x s := mkSleet (sl_node_id s) (sl_node_ip s) (sl_committee s) x
  (sl_conflict_graph s) (sl_live_cells s) (sl_accepted_txs s) (sl_pending_queries s)
  (sl_dag s) (sl_accepted_frontier s) (sl_bootstrap_peers s) (sl_old_frontier s)
  (sl_bootstrapped s) (sl_next_channel s) (sl_out s).
Definition set_conflict_graph x s := mkSleet (sl_node_id s) (sl_node_ip s) (sl_committee s)
  (sl_known_txs s) x (sl_live_cells s) (sl_accepted_txs s) (sl_pending_queries s)
  (sl_dag s) (sl_accepted_frontier s) (sl_bootstrap_peers s) (sl_old_frontier s)
  (sl_bootstrapped s) (sl_next_channel s) (sl_out s).
Definition set_live_cells x s := mkSleet (sl_node_id s) (sl_node_ip s) (sl_committee s)
  (sl_known_txs s) (sl_conflict_graph s) x (sl_accepted_txs s) (sl_pending_queries s)
  (sl_dag s) (sl_accepted_frontier s) (sl_bootstrap_peers s) (sl_old_frontier s)
  (sl_bootstrapped s) (sl_next_channel s) (sl_out s).
Definition set_accepted_txs x s := mkSleet (sl_node_id s) (sl_node_ip s) (sl_committee s)
  (sl_known_txs s) (sl_conflict_graph s) (sl_live_cells s) x (sl_pending_queries s)
  (sl_dag s) (sl_accepted_frontier s) (sl_bootstrap_peers s) (sl_old_frontier s)
  (sl_bootstrapped s) (sl_next_channel s) (sl_out s).
Definition set_pending x n s := mkSleet (sl_node_id s) (sl_node_ip s) (sl_committee s)
  (sl_known_txs s) (sl_conflict_graph s) (sl_live_cells s) (sl_accepted_txs s) x
  (sl_dag s) (sl_accepted_frontier s) (sl_bootstrap_peers s) (sl_old_frontier s)
  (sl_bootstrapped s) n (sl_out s).
Definition set_dag x s := mkSleet (sl_node_id s) (sl_node_ip s) (sl_committee s)
  (sl_known_txs s) (sl_conflict_graph s) (sl_live_cells s) (sl_accepted_txs s)
  (sl_pending_queries s) x (sl_accepted_frontier s) (sl_bootstrap_peers s)
  (sl_old_frontier s) (sl_bootstrapped s) (sl_next_channel s) (sl_out s).
Definition set_frontier x s := mkSleet (sl_node_id s) (sl_node_ip s) (sl_committee s)
  (sl_known_txs s) (sl_conflict_graph s) (sl_live_cells s) (sl_accepted_txs s)
  (sl_pending_queries s) (sl_dag s) x (sl_bootstrap_peers s) (sl_old_frontier s)
  (sl_bootstrapped s) (sl_next_channel s) (sl_out s).
Definition set_old_frontier x s := mkSleet (sl_node_id s) (sl_node_ip s) (sl_committee s)
  (sl_known_txs s) (sl_conflict_graph s) (sl_live_cells s) (sl_accepted_txs s)
  (sl_pending_queries s) (sl_dag s) (sl_accepted_frontier s) (sl_bootstrap_peers s) x
  (sl_bootstrapped s) (sl_next_channel s) (sl_out s).
Definition set_bootstrapped x s := mkSleet (sl_node_id s) (sl_node_ip s) (sl_committee s)
  (sl_known_txs s) (sl_conflict_graph s) (sl_live_cells s) (sl_accepted_txs s)
  (sl_pending_queries s) (sl_dag s) (sl_accepted_frontier s) (sl_bootstrap_peers s)
  (sl_old_frontier s) x (sl_next_channel s) (sl_out s).
Definition emit (e : Effect) s := mkSleet (sl_node_id s) (sl_node_ip s) (sl_committee s)
  (sl_known_txs s) (sl_conflict_graph s) (sl_live_cells s) (sl_accepted_txs s)
  (sl_pending_queries s) (sl_dag s) (sl_accepted_frontier s) (sl_bootstrap_peers s)
  (sl_old_frontier s) (sl_bootstrapped s) (sl_next_channel s) (sl_out s ++ [e]).
End sleet_state.

Section sleet.
Context `{Crypto, IterOrder, BuildProfile, Sled, TxCodec, Rng}.
Implicit Types s : Sleet.

(** A method of sleet. *)
Abbreviation sl := (st Sleet SleetError.Error).

Definition sleet_new (id : Id) (ip : SocketAddr) (db : Db)
    (bootstrap_peers : list (Id * SocketAddr)) : Sleet :=
  mkSleet id ip ∅ db (conflict_graph_new ∅) (bounded_map_new 3000) (bounded_set_new 3000)
    [] dag_new ∅ bootstrap_peers ∅ false 0 [].

(** Methods of the fields. *)
Definition on_cg {A} : st ConflictGraph GraphError.Error A → sl A :=
  zoom sl_conflict_graph set_conflict_graph SleetError.Graph.
Definition on_dag {A} : st (DAG TxHash) GraphError.Error A → sl A :=
  zoom sl_dag set_dag SleetError.Graph.
Definition on_db {A} : st Db StorageError.Error A → sl A :=
  zoom sl_known_txs set_known_txs SleetError.Storage.
Definition on_live_cells {A} : st (BoundedHashMap CellHash Cell) SleetError.Error A → sl A :=
  zoom sl_live_cells set_live_cells (λ e, e).
Definition on_accepted_txs {A} : st (BoundedHashSet TxHash) SleetError.Error A → sl A :=
  zoom sl_accepted_txs set_accepted_txs (λ e, e).
Definition graph {A} : res GraphError.Error A → res SleetError.Error A :=
  map_err SleetError.Graph.
Definition notify (e : Effect) : sl unit := modify (emit e).

(** The vertices that [self.dag.dfs(..)] yields. *)
Definition dag_dfs s (h : TxHash) : res SleetError.Error (list TxHash) :=
  graph (dfs (sl_dag s) h).

(** ** Receiving transactions *)

(** [is_accepted_tx(..).unwrap_or(false)] and [cannot_be_accepted(..).unwrap_or(false)]
    on the stored status. *)
Definition stored_accepted s (h : TxHash) : bool :=
  unwrap_or_false (is_accepted_tx (sl_known_txs s) h).
Definition stored_rejected s (h : TxHash) : bool :=
  unwrap_or_false (cannot_be_accepted (sl_known_txs s) h).

Definition has_parents s (tx : Tx) : bool :=
  match has_vertices (sl_dag s) (tx_parents tx) with
  | Ok tt => true
  | Err missing_parents => forallb (stored_accepted s) missing_parents
  | _ => false
  end.

Definition remove_accepted_parents s (parents : list TxHash) : list TxHash :=
  filter (λ p, stored_accepted s p = false) parents.

(** [Sleet::insert] *)
Definition sleet_insert (tx : Tx) : sl unit :=
  on_cg (insert_cell (tx_cell tx));;
  parents ← gets (λ s, remove_accepted_parents s (tx_parents tx));
  on_dag (insert_vx (tx_hash tx) parents).

(** New, or removed because of a conflict of its ancestry. *)
Definition is_insertable_tx s (h : TxHash) : res SleetError.Error bool :=
  known ← unwrap_res (is_known_tx (sl_known_txs s) h);
  if (known : bool) then unwrap_res (is_removed_tx (sl_known_txs s) h) else Ok true.

Definition on_receive_tx (tx : Tx) : sl bool :=
  if has_coinbase_output (tx_cell tx) then
    throw (SleetError.InvalidCoinbaseTransaction (tx_cell tx))
  else
    fresh ← reads (λ s, is_insertable_tx s (tx_hash tx));
    if (fresh : bool) then
      hp ← gets (λ s, has_parents s tx);
      if (hp : bool) then
        let tx := tx_with_status TxStatus.Pending tx in
        sleet_insert tx;;
        ignore (on_db (insert_tx tx));;
        mret true
      else throw SleetError.MissingAncestry
    else mret false.

(** ** Preference *)

Definition is_strongly_preferred s (h : TxHash) : res SleetError.Error bool :=
  l ← dag_dfs s h;
  all_res (λ a, graph (is_preferred (sl_conflict_graph s) a)) l.

(** The first loop of [select_parents]: strongly preferred leaves. *)
Fixpoint select_leaves (p : nat) s (leaves : list TxHash)
    (parents accessible : list TxHash) : res SleetError.Error (list TxHash * list TxHash) :=
  match leaves with
  | [] => Ok (parents, accessible)
  | leaf :: leaves' =>
      if (p <=? length parents)%nat then Ok (parents, accessible)
      else
        pr ← is_strongly_preferred s leaf;
        if (pr : bool) then
          reach ← dag_dfs s leaf;
          select_leaves p s leaves' (parents ++ [leaf]) (accessible ++ reach)
        else select_leaves p s leaves' parents accessible
  end.

(** The inner loop of the second part, over the ancestors of a leaf; the first
    component tells whether the outer loop is left. *)
Fixpoint select_ancestor (p : nat) s (elts : list TxHash)
    (parents accessible : list TxHash) :
    res SleetError.Error (bool * list TxHash * list TxHash) :=
  match elts with
  | [] => Ok (false, parents, accessible)
  | elt :: elts' =>
      if (p <=? length parents)%nat then Ok (true, parents, accessible)
      else
        pr ← is_strongly_preferred s elt;
        if (pr : bool) && negb (bool_decide (elt ∈ parents))
           && negb (bool_decide (elt ∈ accessible)) then
          reach ← dag_dfs s elt;
          Ok (false, parents ++ [elt], accessible ++ reach)
        else select_ancestor p s elts' parents accessible
  end.

Fixpoint select_ancestors (p : nat) s (leaves : list TxHash)
    (parents accessible : list TxHash) : res SleetError.Error (list TxHash) :=
  match leaves with
  | [] => Ok parents
  | leaf :: leaves' =>
      elts ← dag_dfs s leaf;
      r ← select_ancestor p s elts parents accessible;
      let '(stop, parents', accessible') := r in
      if (stop : bool) then Ok parents'
      else select_ancestors p s leaves' parents' accessible'
  end.

Definition select_parents (p : nat) s : res SleetError.Error (list TxHash) :=
  if decide (dag_g (sl_dag s) = ∅) then Ok []
  else
    let lv := leaves (sl_dag s) in
    r ← select_leaves p s lv [] [];
    select_ancestors p s lv r.1 r.2.

(** [update_ancestral_preference] *)
Definition update_ancestral_preference (root : TxHash) : sl unit :=
  l ← reads (λ s, dag_dfs s root);
  foreach l (λ h,
    pref ← reads (λ s, graph (get_preferred (sl_conflict_graph s) h));
    d1 ← reads (λ s, graph (conviction (sl_dag s) h));
    d2 ← reads (λ s, graph (conviction (sl_dag s) pref));
    on_cg (update_conflict_set h d1 d2)).

Definition reset_ancestor_confidence (root : TxHash) : sl unit :=
  l ← reads (λ s, dag_dfs s root);
  foreach l (λ h, on_cg (reset_count h)).

(** ** Finality *)

(** [Sleet::is_accepted_tx]: stored as accepted, or confident enough. *)
Definition is_final_tx s (h : TxHash) : res SleetError.Error bool :=
  if stored_accepted s h then Ok true
  else if stored_rejected s h then Ok false
  else
    confidence ← unwrap_res (get_confidence (sl_conflict_graph s) h);
    single ← unwrap_res (is_singleton (sl_conflict_graph s) h);
    if (single : bool) && (BETA1 <=? confidence)%Z then Ok true
    else if (BETA2 <=? confidence)%Z then Ok true
    else Ok false.

(** [Sleet::is_accepted]: the transaction and its whole ancestry are final. *)
Definition is_accepted s (h : TxHash) : res SleetError.Error bool :=
  l ← dag_dfs s h;
  all_res (is_final_tx s) l.

Definition is_accepted_memo s (h : TxHash) (memo : gmap TxHash bool) :
    res SleetError.Error (bool * gmap TxHash bool) :=
  match memo !! h with
  | Some r => Ok (r, memo)
  | None => r ← is_accepted s h; Ok (r, <[h := r]> memo)
  end.

(** ** Removing conflicts *)

(** The loop that removes the progeny; it ends with an error when a transaction
    is met twice. *)
Fixpoint remove_progeny (fuel : nat) (children : list TxHash) : sl unit :=
  match fuel with
  | O => λ s, (s, OutOfFuel)
  | S fuel' =>
      match children with
      | [] => mret tt
      | h :: children' =>
          on_db (set_status h TxStatus.Removed);;
          on_cg (remove_cell h);;
          catch (on_dag (remove_vx h)) (λ r,
            match r with
            | Ok ch => remove_progeny fuel' (children' ++ iter_set ch)
            | _ => remove_progeny fuel' children'
            end)
      end
  end.

Definition remove_conflicts (tx : Tx) : sl unit :=
  rejected ← on_cg (accept_cell (tx_cell tx));
  children ← for_acc rejected (λ h children,
    on_db (set_status h TxStatus.Rejected);;
    ch ← on_dag (remove_vx h);
    mret (children ++ iter_set ch)) [];
  n ← gets (λ s, size (cells (sl_conflict_graph s)));
  remove_progeny (S (S n)) children.

(** ** The accepted frontier *)

Record frontier_acc : Type := mkFrontier {
  fr_frontier : gset TxHash;
  fr_above : gset TxHash;
  fr_memo : gmap TxHash bool
}.

Fixpoint frontier_visit s (l : list TxHash) (a : frontier_acc) :
    res SleetError.Error frontier_acc :=
  match l with
  | [] => Ok a
  | h :: l' =>
      if bool_decide (h ∈ fr_above a) then frontier_visit s l' a
      else
        r ← is_accepted_memo s h (fr_memo a);
        if (r.1 : bool) then
          reach ← dag_dfs s h;
          frontier_visit s l' (mkFrontier ({[ h ]} ∪ fr_frontier a)
            (fr_above a ∪ list_to_set reach) r.2)
        else frontier_visit s l' (mkFrontier (fr_frontier a) (fr_above a) r.2)
  end.

Fixpoint frontier_leaves s (lv : list TxHash) (a : frontier_acc) :
    res SleetError.Error frontier_acc :=
  match lv with
  | [] => Ok a
  | leaf :: lv' =>
      l ← dag_dfs s leaf;
      a' ← frontier_visit s l a;
      frontier_leaves s lv' a'
  end.

Definition compute_accepted_frontier : sl unit :=
  a ← reads (λ s, frontier_leaves s (leaves (sl_dag s)) (mkFrontier ∅ ∅ ∅));
  modify (set_frontier (fr_frontier a)).

Definition prune_at_accepted_frontier : sl unit :=
  compute_accepted_frontier;;
  frontier ← gets sl_accepted_frontier;
  to_be_pruned ← for_acc (iter_set frontier) (λ f pruned,
    reach ← reads (λ s, dag_dfs s f);
    mret (pruned ∪ list_to_set reach)) (∅ : gset TxHash);
  foreach (iter_set to_be_pruned) (λ a,
    if bool_decide (a ∈ frontier) then mret tt
    else ignore (on_dag (remove_vx a))).

(** The loop of [compute_accepted_txs]: the newly accepted transactions and the memo
    table are carried along. *)
Definition accept_step (t : TxHash) (acc : list TxHash * gmap TxHash bool) :
    sl (list TxHash * gmap TxHash bool) :=
  stored ← gets (λ s, stored_accepted s t);
  if (stored : bool) then mret acc
  else
    r ← reads (λ s, is_accepted_memo s t acc.2);
    if (r.1 : bool) then
      on_accepted_txs (bounded_set_insert t);;
      unwrap_st (on_db (set_status t TxStatus.Accepted));;
      mret (acc.1 ++ [t], r.2)
    else mret (acc.1, r.2).

Definition compute_accepted_txs (h : TxHash) : sl (list TxHash) :=
  l ← reads (λ s, dag_dfs s h);
  r ← for_acc l accept_step ([], ∅);
  mret r.1.

Definition sample (seed : nat) (minimum_weight : Weight) s :
    res SleetError.Error (list (Id * SocketAddr)) :=
  let validators := (λ e : Id * (SocketAddr * Weight), (e.1, e.2.1, e.2.2))
    <$> iter_map (sl_committee s) in
  ok_or (sample_weighted seed minimum_weight validators) SleetError.InsufficientWeight.

(** ** Message handlers *)

(** [Actor::started] *)
Definition started : sl unit := notify NotifyBootstrap.

(** [Handler<Bootstrap>]: ask the peers for their frontiers ... *)
Definition handle_bootstrap : sl unit :=
  peers ← gets sl_bootstrap_peers;
  notify (SendFanout peers ReqGetAcceptedFrontier).

(** ... and merge the answers.  [None] is a mailbox error. *)
Definition bootstrap_response (r : option ClientResponse) : sl unit :=
  match r with
  | Some (Fanout frontiers) =>
      foreach frontiers (λ f,
        match f with
        | AcceptedFrontier fr => modify (λ s, set_frontier (sl_accepted_frontier s ∪ fr) s)
        | _ => panic
        end);;
      diff ← gets (λ s, sl_accepted_frontier s ∖ sl_old_frontier s);
      if decide (diff = ∅) then modify (set_bootstrapped true)
      else
        modify (λ s, set_old_frontier (sl_accepted_frontier s) s);;
        foreach (iter_set diff) (λ h,
          on_dag (insert_vx h []);;
          on_dag (set_chit h 1));;
        notify (NotifyFetchWithAncestry diff)
  | Some (Oneshot _) => panic
  | None => throw (SleetError.Actix "mailbox")
  end.

(** [Handler<FetchWithAncestry>]: [fetch] gives the answers of the peers to
    [FetchTx].  How long the loop runs is up to the peers. *)
Fixpoint first_answer (fetch : Id * SocketAddr → TxHash → option Tx)
    (peers : list (Id * SocketAddr)) (h : TxHash) : option Tx :=
  match peers with
  | [] => None
  | p :: peers' =>
      match fetch p h with
      | Some tx => Some tx
      | None => first_answer fetch peers' h
      end
  end.

Fixpoint fetch_with_ancestry (fuel : nat) (fetch : Id * SocketAddr → TxHash → option Tx)
    (txs : list TxHash) : sl unit :=
  match fuel with
  | O => λ s, (s, OutOfFuel)
  | S fuel' =>
      match txs with
      | [] => notify NotifyBootstrap
      | h :: txs' =>
          known ← gets (λ s, unwrap_or_false (is_known_tx (sl_known_txs s) h));
          if (known : bool) then fetch_with_ancestry fuel' fetch txs'
          else
            peers ← gets sl_bootstrap_peers;
            match first_answer fetch peers h with
            | Some tx =>
                ignore (on_db (insert_tx tx));;
                fetch_with_ancestry fuel' fetch (txs' ++ tx_parents tx)
            | None => fetch_with_ancestry fuel' fetch txs'
            end
      end
  end.

(** [Handler<FetchTx>] *)
Definition handle_fetch_tx (h : TxHash) s : option Tx :=
  match get_tx (sl_known_txs s) h with
  | Ok (_, tx) => Some tx
  | _ => None
  end.

(** [Handler<Bootstrapped>], [Handler<GetAcceptedFrontier>],
    [Handler<GetLiveFrontier>] *)
Definition handle_bootstrapped s : bool := sl_bootstrapped s.
Definition handle_get_accepted_frontier s : gset TxHash := sl_accepted_frontier s.
Definition handle_get_live_frontier s : gset TxHash := list_to_set (leaves (sl_dag s)).

(** [Handler<LiveCommittee>] *)
Definition handle_live_committee (validators : gmap Id (SocketAddr * Weight))
    (live_cells : gmap CellHash Cell) : sl unit :=
  ids ← for_acc (iter_map live_cells) (λ e (ids : CellIds),
    cell_ids ← of_res (unwrap_res (from_outputs e.1 (outputs e.2)));
    present ← gets (λ s, bool_decide (is_Some (bm_elems (sl_live_cells s) !! e.1)));
    (if (present : bool) then mret tt else on_live_cells (bounded_map_insert e.1 e.2));;
    mret (ids ∪ cell_ids)) ∅;
  on_cg (append ids);;
  modify (set_committee validators).

(** [Handler<QueryIncomplete>] *)
Definition handle_query_incomplete (tx : Tx) (acks : list Response) : sl unit :=
  unwrap_st (reset_ancestor_confidence (tx_hash tx));;
  unwrap_st (on_db (set_status (tx_hash tx) TxStatus.Queried)).

(** The votes of committee members, with their weights. *)
Fixpoint query_outcomes (committee : gmap Id (SocketAddr * Weight)) (acks : list Response) :
    res SleetError.Error (list (Id * Weight * bool)) :=
  match acks with
  | [] => Ok []
  | QueryTxAck id _ outcome :: acks' =>
      r ← query_outcomes committee acks';
      Ok (match committee !! id with
          | Some (_, w) => (id, w, outcome) :: r
          | None => r
          end)
  | _ => Panic
  end.

(** [Handler<QueryComplete>] *)
Definition handle_query_complete (tx : Tx) (acks : list Response) : sl unit :=
  outcomes ← reads (λ s, query_outcomes (sl_committee s) acks);
  (if f64_ltb ALPHA (sum_outcomes outcomes) then
     unwrap_st (on_dag (set_chit (tx_hash tx) 1));;
     unwrap_st (update_ancestral_preference (tx_hash tx));;
     on_live_cells (bounded_map_insert (hash (tx_cell tx)) (tx_cell tx));;
     new_accepted ← compute_accepted_txs (tx_hash tx);
     match new_accepted with
     | [] => mret tt
     | _ => notify (NotifyNewAccepted new_accepted)
     end
   else unwrap_st (reset_ancestor_confidence (tx_hash tx)));;
  unwrap_st (on_db (set_status (tx_hash tx) TxStatus.Queried)).

(** [Handler<NewAccepted>] *)
Definition handle_new_accepted (tx_hashes : list TxHash) : sl unit :=
  cells ← for_acc tx_hashes (λ h (cells : list Cell),
    r ← reads (λ s, unwrap_res (get_tx (sl_known_txs s) h));
    ignore (remove_conflicts r.2);;
    mret (cells ++ [tx_cell r.2])) [];
  prune_at_accepted_frontier;;
  notify (SendAcceptedCells cells).

(** [Handler<FreshTx>]: query a sample ... *)
Definition handle_fresh_tx (seed : nat) (tx : Tx) : sl (list (Id * SocketAddr)) :=
  validators ← reads (λ s, unwrap_res (sample seed ALPHA s));
  me ← gets (λ s, (sl_node_id s, sl_node_ip s));
  notify (SendFanout validators (ReqQueryTx me.1 me.2 tx));;
  mret validators.

(** ... and go on when everybody answered. *)
Definition fresh_tx_response (tx : Tx) (validators : list (Id * SocketAddr))
    (r : option ClientResponse) : sl unit :=
  match r with
  | Some (Fanout acks) =>
      if (length acks =? length validators)%nat then notify (NotifyQueryComplete tx acks)
      else notify (NotifyQueryIncomplete tx acks)
  | Some (Oneshot _) => panic
  | None => throw (SleetError.Actix "mailbox")
  end.

(** [Handler<GenerateTx>] *)
Definition handle_generate_tx (cell : Cell) : sl (option CellHash) :=
  parents ← reads (λ s, unwrap_res (select_parents NPARENTS s));
  let tx := tx_new parents cell in
  catch (on_receive_tx tx) (λ r,
    match r with
    | Ok true => notify (NotifyFreshTx tx);; mret (Some (hash cell))
    | _ => mret None
    end).

(** [QueryTxAck] at once, or the channel on which it will come; a query whose
    channel is not resolved in time is answered with [false]. *)
Inductive QueryReply : Type :=
| Reply (id : Id) (h : TxHash) (outcome : bool)
| Await (id : Id) (h : TxHash) (channel : nat).

(** [Handler<QueryTx>] *)
Definition handle_query_tx (sender_id : Id) (sender_ip : SocketAddr) (tx : Tx) :
    sl QueryReply :=
  id ← gets sl_node_id;
  let h := tx_hash tx in
  catch (on_receive_tx tx) (λ r,
    match r with
    | Ok is_new =>
        (if (is_new : bool) then notify (NotifyFreshTx tx);; notify NotifyCheckPending
         else mret tt);;
        accepted ← gets (λ s, stored_accepted s h);
        if (accepted : bool) then mret (Reply id h true)
        else
          rejected ← gets (λ s, stored_rejected s h);
          if (rejected : bool) then mret (Reply id h false)
          else
            outcome ← reads (λ s, unwrap_res (is_strongly_preferred s h));
            mret (Reply id h outcome)
    | Err SleetError.MissingAncestry =>
        ch ← gets sl_next_channel;
        modify (λ s, set_pending (sl_pending_queries s ++ [(tx, ch)]) (S ch) s);;
        notify (NotifyAskForAncestors h sender_id sender_ip);;
        mret (Await id h ch)
    | _ => mret (Reply id h false)
    end).

(** [Handler<CheckPending>]: the vector is popped from its end; [closed] tells
    which channels have timed out.  A round of the loop takes the popped query and the
    queries that stay. *)
Definition check_query (closed : nat → bool) (q : Tx * nat) (remaining : list (Tx * nat)) :
    sl (list (Tx * nat)) :=
  modify (λ s, set_pending (removelast (sl_pending_queries s)) (sl_next_channel s) s);;
  hp ← gets (λ s, has_parents s q.1);
  if (hp : bool) then
    catch (on_receive_tx q.1) (λ r,
      match r with
      | Ok is_new =>
          (if (is_new : bool) then notify (NotifyFreshTx q.1) else mret tt);;
          outcome ← reads (λ s, unwrap_res (is_strongly_preferred s (tx_hash q.1)));
          notify (Resolve q.2 outcome);;
          mret remaining
      | _ => notify (Resolve q.2 false);; mret remaining
      end)
  else if closed q.2 then mret remaining
  else mret (remaining ++ [q]).

Definition handle_check_pending (closed : nat → bool) : sl unit :=
  pending ← gets sl_pending_queries;
  remaining ← for_acc (rev pending) (check_query closed) [];
  modify (λ s, set_pending (rev remaining) (sl_next_channel s) s).

(** [Handler<AskForAncestors>] *)
Definition handle_ask_for_ancestors (h : TxHash) (id : Id) (ip : SocketAddr) : sl unit :=
  notify (SendOneshot id ip (ReqGetTxAncestors h)).

Definition ask_for_ancestors_response (r : option ClientResponse) : sl unit :=
  match r with
  | Some (Oneshot (Some (TxAncestors ancestors))) =>
      foreach ancestors (λ a,
        catch (on_receive_tx a) (λ r,
          match r with
          | Ok true => notify (NotifyFreshTx a)
          | _ => mret tt
          end));;
      notify NotifyCheckPending
  | _ => mret tt
  end.

(** [Handler<GetTxAncestors>] *)
Definition handle_get_tx_ancestors (h : TxHash) s : res SleetError.Error (list Tx) :=
  hs ← graph (get_ancestors (sl_dag s) h);
  try_map (λ a, r ← unwrap_res (get_tx (sl_known_txs s) a); Ok r.2) hs.

(** The handlers that only read (src/src/sleet/sleet/sleet_cell_handlers.rs,
    sleet_status_handler.rs). *)
Definition handle_get_cell (h : CellHash) s : option Cell := bm_elems (sl_live_cells s) !! h.
Definition handle_get_cell_hashes s : list CellHash :=
  (iter_map (bm_elems (sl_live_cells s))).*1.
Definition handle_get_accepted_cell_hashes s : list CellHash :=
  iter_set (bs_elems (sl_accepted_txs s)).
Definition handle_get_accepted_cell (h : CellHash) s : option Cell :=
  match get_tx (sl_known_txs s) h with
  | Ok (_, tx) => Some (tx_cell tx)
  | _ => None
  end.
Definition handle_check_status s : Id * list (Id * SocketAddr * Weight) :=
  (sl_node_id s, (λ e : Id * (SocketAddr * Weight), (e.1, e.2.1, e.2.2))
     <$> iter_map (sl_committee s)).
End sleet.
