(* ===== verification/SleetFacts.v ===== *)
(** * SleetFacts.v: theorems on sleet (src/src/sleet/sleet.rs) *)

From stdpp Require Import prelude gmap sets fin_sets list relations strings.
From Stdlib Require Import ZArith Lia SpecFloat.
From S2P Require Import Prelude Orders Cell Instances Dag DagFacts ConflictGraph ConflictGraphFacts Blocks Storage SledInstances Util Sleet.

(** ** The invariant *)
Section sleet_wf.
Context `{Crypto, IterOrder, BuildProfile, SL : SledLaws, TC : TxCodecLaws}.
Implicit Types (s : Sleet) (h : TxHash) (tx : Tx).

(** The DAG and the conflict graph are well formed, the vertices of the DAG are
    cells of the conflict graph, and every cell of it is a stored transaction. *)
Record sleet_wf s : Prop := {
  slw_dag : dag_wf (sl_dag s);
  slw_cg : cg_wf (sl_conflict_graph s);
  slw_db : tx_db_wf (sl_known_txs s);
  slw_vertices : dom (dag_g (sl_dag s)) ⊆ dom (cells (sl_conflict_graph s));
  slw_stored : dom (cells (sl_conflict_graph s)) ⊆ dom (known (sl_known_txs s))
}.

(** The stored transactions of [s]. *)
Definition txs s : gmap TxHash Tx := known (sl_known_txs s).

Definition status_is s h (st : TxStatus.TxStatus) : Prop :=
  ∃ tx, txs s !! h = Some tx ∧ tx_status tx = st.

#[export] Instance status_is_dec s h st : Decision (status_is s h st).
Proof.
  refine (cast_if (decide (tx_status <$> txs s !! h = Some st)));
    unfold status_is; destruct (txs s !! h); cbn in *; naive_solver.
Defined.

Lemma stored_accepted_spec s h :
  tx_db_wf (sl_known_txs s) →
  stored_accepted s h = true ↔ status_is s h TxStatus.Accepted.
Proof.
  intros Hdb. unfold stored_accepted, is_accepted_tx, status_is, txs.
  rewrite check_status_spec by done. destruct (known _ !! h) as [tx|]; cbn.
  - rewrite bool_decide_eq_true. naive_solver.
  - naive_solver.
Qed.

Lemma stored_rejected_spec s h :
  tx_db_wf (sl_known_txs s) →
  stored_rejected s h = true ↔
    status_is s h TxStatus.Removed ∨ status_is s h TxStatus.Rejected.
Proof.
  intros Hdb. unfold stored_rejected, cannot_be_accepted, status_is, txs.
  rewrite check_status_spec by done. destruct (known _ !! h) as [tx|]; cbn.
  - rewrite orb_true_iff, !bool_decide_eq_true. naive_solver.
  - naive_solver.
Qed.

Lemma wf_vertex_cell s h :
  sleet_wf s → h ∈ dom (dag_g (sl_dag s)) →
  ∃ c cs, cells (sl_conflict_graph s) !! h = Some c ∧
    cg_cs (sl_conflict_graph s) !! h = Some cs.
Proof.
  intros Hwf Hh. apply (slw_vertices s Hwf), elem_of_dom in Hh as [c Hc].
  destruct (wf_cs_Some _ _ _ (slw_cg s Hwf) Hc) as [cs Hcs]. eauto.
Qed.

Lemma dag_dfs_spec s h :
  sleet_wf s → h ∈ dom (dag_g (sl_dag s)) →
  ∃ l, dag_dfs s h = Ok l ∧ NoDup l ∧ head l = Some h ∧
    (∀ a, a ∈ l ↔ rtc (parent_of (sl_dag s)) h a) ∧
    (∀ a, a ∈ l → a ∈ dom (dag_g (sl_dag s))).
Proof.
  intros Hwf Hh. pose proof (slw_dag s Hwf) as Hd.
  destruct (dfs_reachable (sl_dag s) h Hd Hh) as (l & Hl & Hnd & Hhd & Hr).
  exists l. unfold dag_dfs. rewrite Hl. split_and!; [done..|].
  intros a Ha%Hr. apply elem_of_dom. eapply rtc_adj_closed; [by apply wf_closed_g| |exact Ha].
  by apply elem_of_dom.
Qed.

(** ** Receiving transactions *)

Lemma has_parents_spec s tx :
  sleet_wf s →
  has_parents s tx = true ↔
    ∀ p, p ∈ tx_parents tx → p ∈ dom (dag_g (sl_dag s)) ∨ status_is s p TxStatus.Accepted.
Proof.
  intros Hwf. unfold has_parents, has_vertices.
  set (missing := filter (λ v, dag_g (sl_dag s) !! v = None) (tx_parents tx)).
  assert (∀ p, p ∈ missing ↔ p ∈ tx_parents tx ∧ p ∉ dom (dag_g (sl_dag s))) as Hm.
  { intros p. unfold missing. rewrite list_elem_of_filter, not_elem_of_dom. naive_solver. }
  assert (forallb (stored_accepted s) missing = true ↔
    ∀ p, p ∈ missing → status_is s p TxStatus.Accepted) as Hall.
  { rewrite forallb_true_iff.
    by setoid_rewrite (stored_accepted_spec s _ (slw_db s Hwf)). }
  assert ((match missing with [] => Ok tt | _ => Err missing end : res (list TxHash) unit) =
    if decide (missing = []) then Ok tt else Err missing) as ->
    by (by destruct missing).
  case_decide as Hnil.
  - split; [|done]. intros _ p Hp. left.
    destruct (decide (p ∈ dom (dag_g (sl_dag s)))) as [|Hn]; [done|].
    assert (p ∈ missing) as Hpm by (by apply Hm). rewrite Hnil in Hpm. set_solver.
  - rewrite Hall. split.
    + intros Hacc p Hp. destruct (decide (p ∈ dom (dag_g (sl_dag s)))); [by left|].
      right. apply Hacc, Hm. done.
    + intros Hp p [Hin Hout]%Hm. by destruct (Hp p Hin).
Qed.

Lemma is_insertable_tx_spec s h :
  sleet_wf s →
  is_insertable_tx s h =
    Ok (bool_decide (txs s !! h = None ∨ status_is s h TxStatus.Removed)).
Proof.
  intros Hwf. unfold is_insertable_tx, is_removed_tx.
  rewrite is_known_tx_spec, check_status_spec by apply Hwf. cbn.
  destruct (known (sl_known_txs s) !! h) as [tx|] eqn:Hk.
  - rewrite (bool_decide_true (is_Some (Some tx))) by eauto. cbn. f_equal.
    apply bool_decide_ext. unfold status_is, txs. rewrite Hk. naive_solver.
  - rewrite bool_decide_false by (by intros []).
    rewrite bool_decide_true; [done|]. unfold txs. auto.
Qed.

(** The transaction can enter the two graphs: its cell can enter the conflict
    graph, its parents are in the DAG or accepted, and no vote is left from an
    earlier life of it. *)
Definition receivable s tx : Prop :=
  cell_insertable (sl_conflict_graph s) (tx_cell tx) ∧
  (∀ p, p ∈ tx_parents tx → p ∈ dom (dag_g (sl_dag s)) ∨ status_is s p TxStatus.Accepted) ∧
  dag_chits (sl_dag s) !! tx_hash tx ≠ Some 1%Z.

#[export] Instance receivable_dec s tx : Decision (receivable s tx).
Proof.
  refine (cast_if (decide (cell_insertable (sl_conflict_graph s) (tx_cell tx) ∧
    Forall (λ p, p ∈ dom (dag_g (sl_dag s)) ∨ status_is s p TxStatus.Accepted)
      (tx_parents tx) ∧ dag_chits (sl_dag s) !! tx_hash tx ≠ Some 1%Z)));
    unfold receivable; rewrite Forall_forall in *; done.
Defined.

Lemma elem_of_remove_accepted_parents s ps p :
  sleet_wf s →
  p ∈ remove_accepted_parents s ps ↔ p ∈ ps ∧ ~ status_is s p TxStatus.Accepted.
Proof.
  intros Hwf. unfold remove_accepted_parents. rewrite list_elem_of_filter.
  rewrite <- (stored_accepted_spec s p (slw_db s Hwf)), not_true_iff_false. naive_solver.
Qed.

(** The transaction was entered into the two graphs and the storage, and
    nothing else changed. *)
Record recorded s tx s' : Prop := {
  rcv_txs : txs s' = <[tx_hash tx := tx_with_status TxStatus.Pending tx]> (txs s);
  rcv_cells : cells (sl_conflict_graph s') =
    <[tx_hash tx := tx_cell tx]> (cells (sl_conflict_graph s));
  rcv_dag : dag_g (sl_dag s') = <[tx_hash tx :=
    remove_accepted_parents s (tx_parents tx)]> (dag_g (sl_dag s));
  rcv_chits : dag_chits (sl_dag s') = <[tx_hash tx := 0%Z]> (dag_chits (sl_dag s));
  rcv_rest : s' = set_known_txs (sl_known_txs s')
    (set_dag (sl_dag s') (set_conflict_graph (sl_conflict_graph s') s))
}.

(** What [Sleet::insert] does on a transaction with its parents in the DAG or
    accepted, on every branch. *)
Definition parents_known s tx : Prop :=
  ∀ p, p ∈ tx_parents tx → p ∈ dom (dag_g (sl_dag s)) ∨ status_is s p TxStatus.Accepted.

Lemma live_parents_in_dag s tx u :
  sleet_wf s → parents_known s tx →
  u ∈ remove_accepted_parents s (tx_parents tx) → u ∈ dom (dag_g (sl_dag s)).
Proof.
  intros Hwf Hp [Hin Hn]%elem_of_remove_accepted_parents; [|done]. by destruct (Hp u Hin).
Qed.

Lemma new_cell_not_in_dag s tx :
  sleet_wf s → cells (sl_conflict_graph s) !! tx_hash tx = None →
  tx_hash tx ∉ dom (dag_g (sl_dag s)).
Proof.
  intros Hwf Hn Hin. apply (slw_vertices s Hwf), elem_of_dom in Hin.
  rewrite Hn in Hin. by destruct Hin.
Qed.

Lemma sleet_insert_duplicate s tx :
  tx_hash tx ∈ dom (cells (sl_conflict_graph s)) →
  sleet_insert tx s =
    (set_conflict_graph (set_cells (<[tx_hash tx := tx_cell tx]>
        (cells (sl_conflict_graph s))) (sl_conflict_graph s)) s,
     Err (SleetError.Graph GraphError.DuplicateCell)).
Proof.
  intros Hin. unfold sleet_insert. erewrite st_bind_Err; [done|].
  apply zoom_Err, insert_cell_duplicate, Hin.
Qed.

Lemma sleet_insert_unknown s tx :
  cells (sl_conflict_graph s) !! tx_hash tx = None →
  ~ consumed_ids (tx_cell tx) ⊆ dom (vertices (sl_conflict_graph s)) →
  ∃ G', sleet_insert tx s =
      (set_conflict_graph G' s, Err (SleetError.Graph GraphError.UndefinedCell)) ∧
    cells G' = <[tx_hash tx := tx_cell tx]> (cells (sl_conflict_graph s)) ∧
    cg_cs G' = cg_cs (sl_conflict_graph s).
Proof.
  intros Hn Hsub. destruct (insert_cell_unknown _ _ Hn Hsub) as (G' & HG & Hc & Hcs & _).
  exists G'. split_and!; [|done..]. unfold sleet_insert.
  erewrite st_bind_Err; [done|]. by apply zoom_Err.
Qed.

Lemma sleet_insert_voted s tx :
  sleet_wf s → parents_known s tx →
  cells (sl_conflict_graph s) !! tx_hash tx = None →
  consumed_ids (tx_cell tx) ⊆ dom (vertices (sl_conflict_graph s)) →
  dag_chits (sl_dag s) !! tx_hash tx = Some 1%Z →
  ∃ G' d', sleet_insert tx s =
      (set_dag d' (set_conflict_graph G' s), Err (SleetError.Graph GraphError.ChitReplace)) ∧
    cells G' = <[tx_hash tx := tx_cell tx]> (cells (sl_conflict_graph s)) ∧
    dag_g d' = <[tx_hash tx := remove_accepted_parents s (tx_parents tx)]> (dag_g (sl_dag s)) ∧
    dag_chits d' = dag_chits (sl_dag s).
Proof.
  intros Hwf Hp Hn Hin Hchit.
  destruct (insert_cell_Ok _ _ (slw_cg s Hwf) Hn Hin) as (G' & confl & own & HG & _ & _ & Hci).
  destruct (insert_vx_voted _ _ (remove_accepted_parents s (tx_parents tx)) (slw_dag s Hwf)
    (new_cell_not_in_dag s tx Hwf Hn)) as (d' & Hd & Hg & Hch); [|done|].
  { intros u Hu. by eapply live_parents_in_dag. }
  exists G', d'. split_and!; [|apply Hci|done..].
  unfold sleet_insert. erewrite st_bind_Ok; [|by apply zoom_Ok].
  rewrite gets_bind. by apply zoom_Err.
Qed.

Lemma sleet_insert_Ok s tx :
  sleet_wf s → parents_known s tx →
  cells (sl_conflict_graph s) !! tx_hash tx = None →
  consumed_ids (tx_cell tx) ⊆ dom (vertices (sl_conflict_graph s)) →
  dag_chits (sl_dag s) !! tx_hash tx ≠ Some 1%Z →
  ∃ G' d', sleet_insert tx s = (set_dag d' (set_conflict_graph G' s), Ok tt) ∧
    (cell_insertable (sl_conflict_graph s) (tx_cell tx) → cg_wf G') ∧
    cells G' = <[tx_hash tx := tx_cell tx]> (cells (sl_conflict_graph s)) ∧
    dag_wf d' ∧
    dag_g d' = <[tx_hash tx := remove_accepted_parents s (tx_parents tx)]> (dag_g (sl_dag s)) ∧
    dag_chits d' = <[tx_hash tx := 0%Z]> (dag_chits (sl_dag s)).
Proof.
  intros Hwf Hp Hn Hin Hchit.
  destruct (insert_cell_Ok _ _ (slw_cg s Hwf) Hn Hin) as (G' & confl & own & HG & Hco & Hown & Hci).
  assert (insertable (sl_dag s) (tx_hash tx) (remove_accepted_parents s (tx_parents tx))) as Hins.
  { split_and!; [by apply new_cell_not_in_dag| |done]. intros u Hu. by eapply live_parents_in_dag. }
  destruct (insert_vx_spec _ _ _ (slw_dag s Hwf) Hins) as (i' & Hd & _).
  eexists G', _. split_and!.
  - unfold sleet_insert. erewrite st_bind_Ok; [|by apply zoom_Ok].
    rewrite gets_bind. by apply zoom_Ok.
  - intros Hc. exact (cell_inserted_wf _ _ _ _ _ (slw_cg s Hwf) Hc Hco Hown Hci).
  - apply Hci.
  - eapply insert_vx_wf; [apply Hwf|exact Hins|exact Hd].
  - done.
  - done.
Qed.

(** [on_receive_tx] on a transaction that may be inserted is [Sleet::insert],
    followed by the insertion into the storage when that succeeds. *)
Lemma on_receive_tx_fresh s tx :
  sleet_wf s → has_coinbase_output (tx_cell tx) = false →
  txs s !! tx_hash tx = None ∨ status_is s (tx_hash tx) TxStatus.Removed →
  parents_known s tx →
  on_receive_tx tx s = (sleet_insert (tx_with_status TxStatus.Pending tx);;
    ignore (on_db (insert_tx (tx_with_status TxStatus.Pending tx)));; mret true) s.
Proof.
  intros Hwf Hcb Hfresh Hp. unfold on_receive_tx. rewrite Hcb.
  erewrite reads_bind_Ok; [|by apply is_insertable_tx_spec].
  rewrite bool_decide_true by done. rewrite gets_bind.
  by rewrite (proj2 (has_parents_spec s tx Hwf)).
Qed.

Lemma on_receive_tx_Ok s tx :
  sleet_wf s → has_coinbase_output (tx_cell tx) = false →
  txs s !! tx_hash tx = None ∨ status_is s (tx_hash tx) TxStatus.Removed →
  parents_known s tx →
  cells (sl_conflict_graph s) !! tx_hash tx = None →
  consumed_ids (tx_cell tx) ⊆ dom (vertices (sl_conflict_graph s)) →
  dag_chits (sl_dag s) !! tx_hash tx ≠ Some 1%Z →
  ∃ s', on_receive_tx tx s = (s', Ok true) ∧ recorded s tx s' ∧
    (cell_insertable (sl_conflict_graph s) (tx_cell tx) → sleet_wf s').
Proof.
  intros Hwf Hcb Hfresh Hp Hn Hin Hchit. set (tx' := tx_with_status TxStatus.Pending tx).
  destruct (sleet_insert_Ok s tx' Hwf Hp Hn Hin Hchit)
    as (G' & d' & Hins & HwfG & Hcells & Hwfd & Hg & Hch).
  destruct (insert_tx_spec (sl_known_txs s) tx' (slw_db s Hwf)) as (db' & old & Hdb & Hwfdb & Hkn).
  exists (set_known_txs db' (set_dag d' (set_conflict_graph G' s))). split_and!.
  - rewrite on_receive_tx_fresh by done. fold tx'.
    erewrite st_bind_Ok; [|exact Hins].
    erewrite st_bind_Ok; [|eapply ignore_Ok, zoom_Ok, Hdb]. done.
  - by split.
  - intros Hc. split; cbn; [done|by apply HwfG|done|..].
    + rewrite Hg, Hcells, !dom_insert_L. pose proof (slw_vertices s Hwf). set_solver.
    + rewrite Hcells. change (txs s) with (known (sl_known_txs s)).
      rewrite Hkn, !dom_insert_L. pose proof (slw_stored s Hwf). unfold tx_hash. set_solver.
Qed.

Lemma on_receive_tx_new s tx :
  sleet_wf s → has_coinbase_output (tx_cell tx) = false →
  txs s !! tx_hash tx = None ∨ status_is s (tx_hash tx) TxStatus.Removed →
  receivable s tx →
  ∃ s', on_receive_tx tx s = (s', Ok true) ∧ recorded s tx s' ∧ sleet_wf s'.
Proof.
  intros Hwf Hcb Hfresh (Hci & Hp & Hchit). pose proof Hci as (Hn & Hin & _).
  destruct (on_receive_tx_Ok s tx) as (s' & ? & ? & ?); [done..|]. exists s'. auto.
Qed.
Lemma set_conflict_graph_wf s G :
  sleet_wf s → cg_wf G → cells G = cells (sl_conflict_graph s) →
  sleet_wf (set_conflict_graph G s).
Proof. intros [] ? Hc. split; cbn; rewrite ?Hc; done. Qed.

End sleet_wf.

(** ** Preference and finality *)
Section finality.
Context `{Crypto, IterOrder, BuildProfile, SL : SledLaws, TC : TxCodecLaws}.
Implicit Types (s : Sleet) (h a : TxHash) (tx : Tx).

(** [a] is the preferred transaction of its conflict set. *)
Definition preferred s a : Prop :=
  ∃ cs, cg_cs (sl_conflict_graph s) !! a = Some cs ∧ pref cs = a.

(** [a] is stored as accepted; or it was not rejected and its confidence has
    reached [BETA2], or [BETA1] when nothing conflicts with it. *)
Definition final s a : Prop :=
  status_is s a TxStatus.Accepted ∨
  (~ status_is s a TxStatus.Removed ∧ ~ status_is s a TxStatus.Rejected ∧
   ∃ cs, cg_cs (sl_conflict_graph s) !! a = Some cs ∧
     ((size (conflicts cs) = 1%nat ∧ BETA1 ≤ cnt cs) ∨ BETA2 ≤ cnt cs)%Z).

(** The transaction and all its ancestors in the DAG. *)
Definition accepted s h : Prop := ∀ a, rtc (parent_of (sl_dag s)) h a → final s a.
Definition strongly_preferred s h : Prop :=
  ∀ a, rtc (parent_of (sl_dag s)) h a → preferred s a.

Definition acceptedb s h : bool :=
  match is_accepted s h with Ok b => b | _ => false end.
Definition strongly_preferredb s h : bool :=
  match is_strongly_preferred s h with Ok b => b | _ => false end.

Lemma is_preferred_spec s a :
  sleet_wf s → a ∈ dom (dag_g (sl_dag s)) →
  ∃ b, is_preferred (sl_conflict_graph s) a = Ok b ∧ (b = true ↔ preferred s a).
Proof.
  intros Hwf Ha. destruct (wf_vertex_cell s a Hwf Ha) as (c & cs & _ & Hcs).
  unfold is_preferred, conflicting_cells, cset_is_preferred. rewrite Hcs.
  eexists. split; [done|]. rewrite bool_decide_eq_true. unfold preferred. naive_solver.
Qed.

(** A short-circuiting test over the ancestors. *)
Lemma all_ancestors s h (f : TxHash → res SleetError.Error bool) (P : TxHash → Prop) :
  sleet_wf s → h ∈ dom (dag_g (sl_dag s)) →
  (∀ a, a ∈ dom (dag_g (sl_dag s)) → ∃ b, f a = Ok b ∧ (b = true ↔ P a)) →
  ∃ b, (l ← dag_dfs s h; all_res f l) = Ok b ∧
    (b = true ↔ ∀ a, rtc (parent_of (sl_dag s)) h a → P a).
Proof.
  intros Hwf Hh Hf. destruct (dag_dfs_spec s h Hwf Hh) as (l & -> & _ & _ & Hr & Hdom). cbn.
  rewrite (all_res_Ok f (λ a, match f a with Ok b => b | _ => false end)).
  - eexists. split; [done|]. rewrite forallb_true_iff. setoid_rewrite Hr.
    split; intros Hall a Ha.
    + destruct (Hf a) as (b & Hb & HP); [by apply Hdom, Hr|].
      apply HP. specialize (Hall a Ha). by rewrite Hb in Hall.
    + destruct (Hf a) as (b & -> & HP); [by apply Hdom, Hr|]. by apply HP, Hall.
  - intros a Ha. by destruct (Hf a (Hdom a Ha)) as (b & -> & _).
Qed.

Lemma is_strongly_preferred_spec s h :
  sleet_wf s → h ∈ dom (dag_g (sl_dag s)) →
  is_strongly_preferred s h = Ok (strongly_preferredb s h) ∧
  (strongly_preferredb s h = true ↔ strongly_preferred s h).
Proof.
  intros Hwf Hh. unfold strongly_preferredb.
  destruct (all_ancestors s h (λ a, graph (is_preferred (sl_conflict_graph s) a))
    (preferred s) Hwf Hh) as (b & Hb & HP).
  - intros a Ha. destruct (is_preferred_spec s a Hwf Ha) as (b & -> & ?). by exists b.
  - unfold is_strongly_preferred. by rewrite Hb.
Qed.

Lemma is_final_tx_spec s a :
  sleet_wf s → a ∈ dom (dag_g (sl_dag s)) →
  ∃ b, is_final_tx s a = Ok b ∧ (b = true ↔ final s a).
Proof.
  intros Hwf Ha. destruct (wf_vertex_cell s a Hwf Ha) as (c & cs & _ & Hcs).
  pose proof (stored_accepted_spec s a (slw_db s Hwf)) as Hacc.
  pose proof (stored_rejected_spec s a (slw_db s Hwf)) as Hrej.
  unfold is_final_tx, final. destruct (stored_accepted s a).
  { exists true. split; [done|]. naive_solver. }
  destruct (stored_rejected s a).
  { exists false. split; [done|]. naive_solver. }
  unfold get_confidence, is_singleton, conflicting_cells. rewrite Hcs. cbn.
  unfold cset_is_singleton.
  destruct (Nat.eqb_spec (size (conflicts cs)) 1), (Z.leb_spec BETA1 (cnt cs)),
    (Z.leb_spec BETA2 (cnt cs)); cbn; eexists; (split; [done|]); split; intros Hx;
    first [done | (right; split_and!; [naive_solver..|]; exists cs; naive_solver) |
      (destruct Hx as [?%Hacc|(_ & _ & cs' & Hcs' & Hor)]; [done|]; simplify_eq;
       unfold BETA1, BETA2 in *; lia)].
Qed.

Lemma is_accepted_spec s h :
  sleet_wf s → h ∈ dom (dag_g (sl_dag s)) →
  is_accepted s h = Ok (acceptedb s h) ∧ (acceptedb s h = true ↔ accepted s h).
Proof.
  intros Hwf Hh. unfold acceptedb.
  destruct (all_ancestors s h (is_final_tx s) (final s) Hwf Hh) as (b & Hb & HP).
  - intros a Ha. by apply is_final_tx_spec.
  - unfold is_accepted. by rewrite Hb.
Qed.

(** A memo table that holds only right answers. *)
Definition memo_ok s (memo : gmap TxHash bool) : Prop :=
  ∀ h b, memo !! h = Some b → h ∈ dom (dag_g (sl_dag s)) ∧ b = acceptedb s h.

Lemma is_accepted_memo_spec s h memo :
  sleet_wf s → h ∈ dom (dag_g (sl_dag s)) → memo_ok s memo →
  ∃ memo', is_accepted_memo s h memo = Ok (acceptedb s h, memo') ∧ memo_ok s memo'.
Proof.
  intros Hwf Hh Hm. unfold is_accepted_memo. destruct (memo !! h) as [b|] eqn:Hb.
  - exists memo. by destruct (Hm h b Hb) as [_ <-].
  - destruct (is_accepted_spec s h Hwf Hh) as [-> _]. cbn. eexists. split; [done|].
    intros h' b'. rewrite lookup_insert_Some. intros [[<- <-]|[_ ?]]; eauto.
Qed.
End finality.

(** ** New acceptances *)
Section acceptance.
Context `{Crypto, IterOrder, BuildProfile, SL : SledLaws, TC : TxCodecLaws}.
Implicit Types (s : Sleet) (h a t : TxHash) (tx : Tx).

(** [s'] is [s] with the transactions of [ts] stored as accepted. *)
Record marked s (ts : list TxHash) s' : Prop := {
  mk_txs : ∀ h, txs s' !! h =
    (if decide (h ∈ ts) then tx_with_status TxStatus.Accepted else id) <$> txs s !! h;
  mk_db : tx_db_wf (sl_known_txs s');
  mk_bounded : bounded_set_wf (sl_accepted_txs s');
  mk_rest : s' = set_known_txs (sl_known_txs s') (set_accepted_txs (sl_accepted_txs s') s)
}.

Lemma marked_graphs s ts s' :
  marked s ts s' →
  sl_dag s' = sl_dag s ∧ sl_conflict_graph s' = sl_conflict_graph s.
Proof. intros [_ _ _ ->]. done. Qed.

Lemma marked_wf s ts s' : sleet_wf s → marked s ts s' → sleet_wf s'.
Proof.
  intros Hwf Hm. destruct (marked_graphs s ts s' Hm) as [Hd Hg].
  split; rewrite ?Hd, ?Hg; try apply Hwf; [apply Hm|].
  intros h Hh. apply (slw_stored s Hwf), elem_of_dom in Hh as [tx Htx]. apply elem_of_dom.
  change (is_Some (txs s' !! h)). rewrite (mk_txs _ _ _ Hm), fmap_is_Some. by exists tx.
Qed.

Lemma marked_status s ts s' h st :
  marked s ts s' → h ∉ ts → status_is s' h st ↔ status_is s h st.
Proof.
  intros Hm Hh. unfold status_is. rewrite (mk_txs _ _ _ Hm), decide_False by done.
  destruct (txs s !! h); cbn; naive_solver.
Qed.

Lemma marked_final s ts s' a :
  sleet_wf s → marked s ts s' → (∀ t, t ∈ ts → final s t) →
  a ∈ dom (dag_g (sl_dag s)) → final s' a ↔ final s a.
Proof.
  intros Hwf Hm Hts Ha. destruct (decide (a ∈ ts)) as [Hin|Hout].
  - split; [auto|]. intros _. left.
    apply (slw_vertices s Hwf), (slw_stored s Hwf), elem_of_dom in Ha as [tx Htx].
    exists (tx_with_status TxStatus.Accepted tx). split; [|done].
    rewrite (mk_txs _ _ _ Hm), decide_True by done. unfold txs. by rewrite Htx.
  - unfold final. rewrite !(marked_status s ts s') by done.
    destruct (marked_graphs s ts s' Hm) as [_ ->]. done.
Qed.

Lemma marked_acceptedb s ts s' h :
  sleet_wf s → marked s ts s' → (∀ t, t ∈ ts → final s t) →
  h ∈ dom (dag_g (sl_dag s)) → acceptedb s' h = acceptedb s h.
Proof.
  intros Hwf Hm Hts Hh. pose proof (marked_wf s ts s' Hwf Hm) as Hwf'.
  destruct (marked_graphs s ts s' Hm) as [Hd _]. apply eq_bool_prop_intro.
  rewrite !Is_true_true, (proj2 (is_accepted_spec s h Hwf Hh)).
  rewrite (proj2 (is_accepted_spec s' h Hwf' ltac:(by rewrite Hd))).
  unfold accepted. rewrite Hd. apply forall_proper. intros a. split; intros Hx Hr;
    specialize (Hx Hr); revert Hx; rewrite (marked_final s ts s' a); try done;
    apply elem_of_dom; (eapply rtc_adj_closed; [apply wf_closed_g, Hwf| |exact Hr]);
    by apply elem_of_dom.
Qed.

Lemma mark_accepted_spec s t :
  sleet_wf s → bounded_set_wf (sl_accepted_txs s) → t ∈ dom (dag_g (sl_dag s)) →
  ∃ s', (on_accepted_txs (bounded_set_insert t);;
         unwrap_st (on_db (set_status t TxStatus.Accepted))) s = (s', Ok tt) ∧
    marked s [t] s'.
Proof.
  intros Hwf Hb Ht.
  destruct (bounded_set_insert_spec (E:=SleetError.Error) _ t Hb) as (b' & Hbi & Hbw & _).
  destruct (set_status_spec (sl_known_txs s) t TxStatus.Accepted (slw_db s Hwf))
    as (db' & Hdb & Hdbw & Hkn).
  apply (slw_vertices s Hwf), (slw_stored s Hwf), elem_of_dom in Ht as [tx Htx].
  rewrite Htx in Hdb.
  exists (set_known_txs db' (set_accepted_txs b' s)). split.
  - erewrite st_bind_Ok; [|by eapply zoom_Ok]. by eapply unwrap_st_Ok, zoom_Ok.
  - split; [|done..]. intros h. unfold txs. cbn. rewrite Hkn.
    destruct (decide (h = t)) as [->|Hne].
    + by rewrite lookup_alter_eq, decide_True by set_solver.
    + rewrite lookup_alter_ne, decide_False by set_solver. by destruct (known _ !! h).
Qed.

Lemma marked_trans s ts t s1 s2 :
  marked s ts s1 → marked s1 [t] s2 → t ∉ ts → marked s (ts ++ [t]) s2.
Proof.
  intros H1m H2m Ht. destruct H1m as [Ht1 _ _ Hr1], H2m as [Ht2 ? ? Hr2].
  split; [|done|done|rewrite Hr2, Hr1; by destruct s].
  intros h. rewrite Ht2, Ht1. destruct (txs s !! h); cbn; [|done]. f_equal.
  repeat case_decide; set_solver.
Qed.

Definition newly_accepted s : TxHash → Prop := λ t,
  stored_accepted s t = false ∧ acceptedb s t = true.

(** One round of the loop, from a state in which the transactions [ts] are marked. *)
Lemma accept_step_spec s ts sk t memo :
  sleet_wf s → marked s ts sk → memo_ok s memo → t ∉ ts → t ∈ dom (dag_g (sl_dag s)) →
  (∀ a, a ∈ ts → final s a) →
  ∃ s1 memo', accept_step t (ts, memo) sk = (s1, Ok (ts ++ filter (newly_accepted s) [t], memo')) ∧
    marked s (ts ++ filter (newly_accepted s) [t]) s1 ∧ memo_ok s memo'.
Proof.
  intros Hwf Hm Hmemo Hts Htd Hfin. unfold accept_step.
  pose proof (marked_wf s ts sk Hwf Hm) as Hwfk.
  destruct (marked_graphs s ts sk Hm) as [Hdk _].
  assert (stored_accepted sk t = stored_accepted s t) as Hst.
  { apply eq_bool_prop_intro. rewrite !Is_true_true.
    rewrite !stored_accepted_spec by first [apply Hwf|apply Hwfk].
    by apply (marked_status s ts sk). }
  rewrite gets_bind, Hst. destruct (stored_accepted s t) eqn:Hsa.
  { exists sk, memo. rewrite filter_cons_False, filter_nil, app_nil_r by (intros [? _]; congruence).
    done. }
  assert (memo_ok sk memo) as Hmk.
  { intros h' b' Hb'. destruct (Hmemo h' b' Hb') as [Hd' ->]. rewrite Hdk.
    split; [done|]. symmetry. by eapply marked_acceptedb. }
  destruct (is_accepted_memo_spec sk t memo Hwfk ltac:(by rewrite Hdk) Hmk) as (memo' & Hmm & Hmk').
  erewrite reads_bind_Ok; [|exact Hmm]. cbn [fst snd].
  assert (memo_ok s memo') as Hmo'.
  { intros h' b' Hb'. destruct (Hmk' h' b' Hb') as [Hd' ->]. rewrite Hdk in Hd'.
    split; [done|]. by eapply marked_acceptedb. }
  rewrite (marked_acceptedb s ts sk t Hwf Hm Hfin Htd). destruct (acceptedb s t) eqn:Hab.
  - destruct (mark_accepted_spec sk t Hwfk (mk_bounded _ _ _ Hm) ltac:(by rewrite Hdk))
      as (s2 & Hs2 & Hm2).
    exists s2, memo'. rewrite filter_cons_True, filter_nil by done.
    split_and!; [|by eapply marked_trans|done].
    unfold mbind, st_bind in Hs2 |- *.
    destruct (on_accepted_txs (bounded_set_insert t) sk) as [s3 [[]| | |]]; try done.
    by rewrite Hs2.
  - exists sk, memo'. rewrite filter_cons_False, filter_nil, app_nil_r by (intros [_ ?]; congruence).
    done.
Qed.

Lemma compute_accepted_txs_spec s h l :
  sleet_wf s → bounded_set_wf (sl_accepted_txs s) → h ∈ dom (dag_g (sl_dag s)) →
  dag_dfs s h = Ok l →
  ∃ s', compute_accepted_txs h s = (s', Ok (filter (newly_accepted s) l)) ∧
    marked s (filter (newly_accepted s) l) s'.
Proof.
  intros Hwf Hb Hh Hl. destruct (dag_dfs_spec s h Hwf Hh) as (l' & Hl' & Hnd & _ & _ & Hdom).
  rewrite Hl in Hl'. simplify_eq. unfold compute_accepted_txs.
  rewrite (reads_bind_Ok _ _ _ l') by done.
  destruct (for_acc_inv (λ pre (acc : list TxHash * gmap TxHash bool) sk,
    acc.1 = filter (newly_accepted s) pre ∧ marked s (filter (newly_accepted s) pre) sk ∧
    memo_ok s acc.2) l' accept_step ([], ∅) s) as (s' & [new memo] & Hf & Hnew & Hm & _).
  - split_and!; [done| |by intros ? ? ?]. split; [|apply Hwf|done|by destruct s].
    intros h'. rewrite decide_False by set_solver. by destruct (txs s !! h').
  - intros pre t post [new memo] sk -> (Hnew & Hm & Hmemo). cbn in Hnew, Hmemo. subst new.
    destruct (accept_step_spec s _ sk t memo Hwf Hm Hmemo) as (s1 & memo' & Hs1 & Hm1 & Hmo1).
    + apply NoDup_app in Hnd as (_ & Hd & _). intros [_ Hin]%list_elem_of_filter.
      apply (Hd t Hin). set_solver.
    + apply Hdom. set_solver.
    + intros a [[_ Hacc] Hin]%list_elem_of_filter.
      apply (proj2 (is_accepted_spec s a Hwf ltac:(apply Hdom; set_solver))) in Hacc.
      by apply Hacc.
    + exists s1. eexists. split; [exact Hs1|]. by rewrite filter_app.
  - exists s'. rewrite (st_bind_Ok _ _ _ _ _ Hf). cbn in Hnew |- *. subst new. done.
Qed.
End acceptance.

(** The ancestors of a transaction in the DAG of [s], itself included. *)
Abbreviation reaches s := (rtc (parent_of (sl_dag s))).

(** ** The accepted frontier *)
Section frontier.
Context `{Crypto, IterOrder, BuildProfile, SL : SledLaws, TC : TxCodecLaws}.
Implicit Types (s : Sleet) (h t : TxHash) (a : frontier_acc).

(** What the loop over the leaves maintains: the frontier holds accepted
    vertices and [fr_above] everything they reach. *)
Record frontier_inv s (a : frontier_acc) : Prop := {
  fi_accepted : ∀ f, f ∈ fr_frontier a → f ∈ dom (dag_g (sl_dag s)) ∧ acceptedb s f = true;
  fi_above : ∀ x, x ∈ fr_above a ↔ ∃ f, f ∈ fr_frontier a ∧ reaches s f x;
  fi_memo : memo_ok s (fr_memo a)
}.

Lemma frontier_visit_spec s l a :
  sleet_wf s → (∀ x, x ∈ l → x ∈ dom (dag_g (sl_dag s))) → frontier_inv s a →
  ∃ a', frontier_visit s l a = Ok a' ∧ frontier_inv s a' ∧ fr_above a ⊆ fr_above a' ∧
    ∀ x, x ∈ l → acceptedb s x = true → x ∈ fr_above a'.
Proof.
  intros Hwf. revert a. induction l as [|h l IH]; intros a Hl Hinv; cbn.
  { exists a. split_and!; [done|done|done|set_solver]. }
  case_bool_decide as Habove.
  { destruct (IH a) as (a' & ? & ? & Hmono & ?); [set_solver|done|]. exists a'.
    split_and!; [done..|]. intros x [->|Hx]%elem_of_cons; [set_solver|eauto]. }
  destruct (is_accepted_memo_spec s h (fr_memo a) Hwf) as (memo & Hm & Hmo);
    [apply Hl; set_solver|apply Hinv|]. rewrite Hm. cbn.
  destruct (acceptedb s h) eqn:Hacc.
  - destruct (dag_dfs_spec s h Hwf) as (r & Hr & _ & _ & Hrr & _); [apply Hl; set_solver|].
    rewrite Hr. cbn. edestruct IH as (a' & ? & ? & Hmono & ?); [set_solver| |].
    2: { exists a'. split; [done|]. split; [done|]. cbn in Hmono. split; [set_solver|].
         intros x [->|Hx]%elem_of_cons ?; [|eauto]. apply Hmono.
         rewrite elem_of_union, elem_of_list_to_set, Hrr. by right. }
    split; cbn; [| |done].
    + intros f [->%elem_of_singleton|Hf]%elem_of_union; [split; [apply Hl; set_solver|done]|].
      by apply Hinv.
    + intros x. rewrite elem_of_union, elem_of_list_to_set, Hrr, (fi_above s a Hinv).
      set_solver.
  - edestruct IH as (a' & ? & ? & Hmono & ?); [set_solver| |].
    2: { exists a'. cbn in Hmono. split_and!; [done..|].
         intros x [->|Hx]%elem_of_cons ?; [congruence|eauto]. }
    split; cbn; [apply Hinv|apply Hinv|done].
Qed.

Lemma frontier_leaves_spec s lv a :
  sleet_wf s → (∀ x, x ∈ lv → x ∈ dom (dag_g (sl_dag s))) → frontier_inv s a →
  ∃ a', frontier_leaves s lv a = Ok a' ∧ frontier_inv s a' ∧ fr_above a ⊆ fr_above a' ∧
    ∀ leaf x, leaf ∈ lv → reaches s leaf x → acceptedb s x = true → x ∈ fr_above a'.
Proof.
  intros Hwf. revert a. induction lv as [|leaf lv IH]; intros a Hl Hinv; cbn.
  { exists a. split_and!; [done|done|done|set_solver]. }
  destruct (dag_dfs_spec s leaf Hwf) as (l & Hll & _ & _ & Hr & Hdom); [apply Hl; set_solver|].
  rewrite Hll. cbn.
  destruct (frontier_visit_spec s l a Hwf Hdom Hinv) as (a1 & Ha1 & Hinv1 & Hm1 & Hc1).
  rewrite Ha1. cbn. destruct (IH a1) as (a' & ? & ? & Hm & Hc); [set_solver|done|].
  exists a'. split_and!; [done|done|set_solver|].
  intros leaf' x [->|Hin]%elem_of_cons Hx Hacc; [|eauto]. apply Hm, Hc1; [by apply Hr|done].
Qed.

(** The frontier: accepted vertices that together reach every accepted one. *)
Definition is_frontier s (F : gset TxHash) : Prop :=
  (∀ f, f ∈ F → f ∈ dom (dag_g (sl_dag s)) ∧ accepted s f) ∧
  (∀ v, v ∈ dom (dag_g (sl_dag s)) → accepted s v ↔ ∃ f, f ∈ F ∧ reaches s f v).

Lemma accepted_down s h (x : TxHash) : accepted s h → reaches s h x → accepted s x.
Proof. intros Hacc Hr b Hb. apply Hacc. by etrans. Qed.

Lemma compute_accepted_frontier_spec s :
  sleet_wf s →
  ∃ F, compute_accepted_frontier s = (set_frontier F s, Ok tt) ∧ is_frontier s F.
Proof.
  intros Hwf. pose proof (slw_dag s Hwf) as Hd.
  destruct (frontier_leaves_spec s (leaves (sl_dag s)) (mkFrontier ∅ ∅ ∅) Hwf)
    as (a & Ha & [Hacc Habove _] & _ & Hc).
  - intros x. by apply leaves_dom.
  - split; cbn; [set_solver|set_solver|]. intros h b. by rewrite lookup_empty.
  - exists (fr_frontier a). split.
    { unfold compute_accepted_frontier. by erewrite reads_bind_Ok; [|exact Ha]. }
    split.
    + intros f Hf. destruct (Hacc f Hf) as [Hfd Hfb]. split; [done|].
      by apply (is_accepted_spec s f Hwf Hfd).
    + intros v Hv. split.
      * intros Hva. destruct (leaf_cover (sl_dag s) v Hd Hv) as (leaf & Hleaf & Hr).
        apply Habove, (Hc leaf v Hleaf Hr). by apply (is_accepted_spec s v Hwf Hv).
      * intros (f & Hf & Hr). destruct (Hacc f Hf) as [Hfd Hfb].
        eapply accepted_down; [|exact Hr]. by apply (is_accepted_spec s f Hwf Hfd).
Qed.
End frontier.

(** ** Pruning and parent selection *)
Section prune.
Context `{Crypto, IterOrder, BuildProfile, SL : SledLaws, TC : TxCodecLaws}.
Implicit Types (s : Sleet) (h x : TxHash).

(** [d'] is [d] without the vertices of [R]. *)
Record pruned (d : DAG TxHash) (R : TxHash → Prop) (d' : DAG TxHash) : Prop := {
  pr_wf : dag_wf d';
  pr_dom : ∀ v, v ∈ dom (dag_g d') ↔ v ∈ dom (dag_g d) ∧ ~ R v;
  pr_edges : ∀ v u, parent_of d' v u ↔ ~ R v ∧ ~ R u ∧ parent_of d v u;
  pr_chits : dag_chits d' = dag_chits d
}.

Lemma prune_loop (F : gset TxHash) l s :
  dag_wf (sl_dag s) → NoDup l → (∀ x, x ∈ l → x ∈ dom (dag_g (sl_dag s))) →
  ∃ d', foreach l (λ a, if bool_decide (a ∈ F) then mret tt
      else ignore (on_dag (remove_vx a))) s = (set_dag d' s, @Ok SleetError.Error _ tt) ∧
    pruned (sl_dag s) (λ v, v ∈ l ∧ v ∉ F) d'.
Proof.
  intros Hwf Hnd Hl.
  destruct (foreach_inv (E:=SleetError.Error) (λ pre sk, ∃ d', sk = set_dag d' s ∧
      pruned (sl_dag s) (λ v, v ∈ pre ∧ v ∉ F) d') l
    (λ a, if bool_decide (a ∈ F) then mret tt
      else ignore (on_dag (remove_vx a))) s) as (s' & Hf & d' & -> & Hp); [| |eauto].
  - exists (sl_dag s). split; [by destruct s|]. split; [done|set_solver|set_solver|done].
  - intros pre x post sk -> (d & -> & [Hwfd Hdom Hedge Hch]).
    case_bool_decide as HxF.
    { eexists. split; [done|]. exists d. split; [done|].
      split; [done|set_solver|intros v u; rewrite Hedge; set_solver|done]. }
    apply NoDup_app in Hnd as (_ & Hd & _).
    assert (x ∉ pre) as Hx by (intros Hin; apply (Hd x Hin); set_solver).
    assert (x ∈ dom (dag_g d)) as Hxd by (apply Hdom; set_solver).
    destruct (remove_vx_spec d x Hwfd Hxd) as (g' & i' & Hr & Hg & Hi).
    eexists. split; [eapply ignore_Ok, zoom_Ok, Hr|]. eexists. split; [done|].
    split; cbn.
    + by eapply remove_vx_wf.
    + intros v. rewrite (proj1 Hg), elem_of_difference, Hdom. set_solver.
    + intros v u. unfold parent_of at 1. cbn. rewrite (removed_adj _ _ _ _ _ Hg).
      change (adj_rel (dag_g d) v u) with (parent_of d v u). rewrite Hedge. set_solver.
    + done.
Qed.

Lemma collect_loop (F : list TxHash) s :
  sleet_wf s → (∀ f, f ∈ F → f ∈ dom (dag_g (sl_dag s))) →
  ∃ R, for_acc F (λ f pruned,
      reach ← reads (λ s, dag_dfs s f);
      mret (pruned ∪ list_to_set reach)) (∅ : gset TxHash) s = (s, Ok R) ∧
    ∀ x, x ∈ R ↔ ∃ f, f ∈ F ∧ reaches s f x.
Proof.
  intros Hwf HF.
  destruct (for_acc_inv (λ pre (R : gset TxHash) sk, sk = s ∧
      ∀ x, x ∈ R ↔ ∃ f, f ∈ pre ∧ reaches s f x) F (λ f pruned,
      reach ← reads (λ s, dag_dfs s f);
      mret (pruned ∪ list_to_set reach)) (∅ : gset TxHash) s) as (s' & R & Hf & -> & HR);
    [set_solver| |eauto].
  intros pre f post R sk -> [-> HR].
  destruct (dag_dfs_spec s f Hwf) as (r & Hr & _ & _ & Hrr & _); [apply HF; set_solver|].
  do 2 eexists. split; [by erewrite reads_bind_Ok; [|exact Hr]|]. split; [done|].
  intros x. rewrite elem_of_union, elem_of_list_to_set, HR, Hrr. set_solver.
Qed.

Lemma prune_spec s :
  sleet_wf s →
  ∃ F d', prune_at_accepted_frontier s = (set_dag d' (set_frontier F s), Ok tt) ∧
    is_frontier s F ∧
    sleet_wf (set_dag d' (set_frontier F s)) ∧
    pruned (sl_dag s) (λ v, v ∈ dom (dag_g (sl_dag s)) ∧ accepted s v ∧ v ∉ F) d'.
Proof.
  intros Hwf. destruct (compute_accepted_frontier_spec s Hwf) as (F & HF & Hfr).
  assert (sleet_wf (set_frontier F s)) as Hwf1 by (by destruct Hwf).
  destruct (collect_loop (iter_set F) (set_frontier F s) Hwf1) as (R & HR & HRx).
  { intros f Hf%elem_of_iter_set. by apply Hfr. }
  assert (∀ x, x ∈ R ↔ x ∈ dom (dag_g (sl_dag s)) ∧ accepted s x) as HRacc.
  { intros x. rewrite HRx. setoid_rewrite elem_of_iter_set. cbn. split.
    - intros (f & Hf & Hr).
      assert (x ∈ dom (dag_g (sl_dag s))) as Hx.
      { apply elem_of_dom. eapply rtc_adj_closed; [apply wf_closed_g, Hwf| |exact Hr].
        apply elem_of_dom. by apply Hfr. }
      split; [done|]. apply Hfr; [done|]. eauto.
    - intros [Hx Hacc]. by apply Hfr. }
  destruct (prune_loop F (iter_set R) (set_frontier F s)) as (d' & Hd' & Hp).
  { apply Hwf. } { apply NoDup_iter_set. }
  { intros x Hx%elem_of_iter_set. by apply HRacc. }
  cbn in Hp. exists F, d'.
  assert (pruned (sl_dag s) (λ v, v ∈ dom (dag_g (sl_dag s)) ∧ accepted s v ∧ v ∉ F) d') as Hp'.
  { destruct Hp as [? Hdm He ?]. setoid_rewrite elem_of_iter_set in Hdm.
    setoid_rewrite elem_of_iter_set in He. setoid_rewrite HRacc in Hdm.
    setoid_rewrite HRacc in He. split; try done.
    - intros v. rewrite Hdm. naive_solver.
    - intros v u. rewrite He. naive_solver. }
  split_and!; [|done| |done].
  - unfold prune_at_accepted_frontier. erewrite st_bind_Ok; [|exact HF].
    rewrite gets_bind. erewrite st_bind_Ok; [|exact HR]. exact Hd'.
  - destruct Hwf. split; cbn; try done; [apply Hp'|].
    intros v Hv. apply (pr_dom _ _ _ Hp') in Hv as [Hv _]. auto.
Qed.
End prune.

Section parents.
Context `{Crypto, IterOrder, BuildProfile, SL : SledLaws, TC : TxCodecLaws}.
Implicit Types (s : Sleet) (h x : TxHash).

(** The parents selected so far. *)
Record selection (p : nat) s (parents accessible : list TxHash) : Prop := {
  sel_nodup : NoDup parents;
  sel_length : length parents ≤ p;
  sel_pref : ∀ x, x ∈ parents →
    x ∈ dom (dag_g (sl_dag s)) ∧ strongly_preferredb s x = true;
  sel_empty : parents = [] → accessible = []
}.

Lemma selection_snoc p s parents accessible x reach :
  selection p s parents accessible → x ∉ parents → length parents < p →
  x ∈ dom (dag_g (sl_dag s)) → strongly_preferredb s x = true →
  selection p s (parents ++ [x]) (accessible ++ reach).
Proof.
  intros [Hnd Hlen Hpr He] Hx Hlt Hd Hsp. split.
  - apply NoDup_app. split_and!; [done|set_solver|apply NoDup_singleton].
  - rewrite length_app. cbn. lia.
  - intros y [Hy| ->%list_elem_of_singleton]%elem_of_app; auto.
  - by destruct parents.
Qed.

Lemma select_leaves_spec p s lv parents accessible :
  sleet_wf s → NoDup lv → (∀ x, x ∈ lv → x ∈ dom (dag_g (sl_dag s)) ∧ x ∉ parents) →
  selection p s parents accessible →
  ∃ ps ac, select_leaves p s lv parents accessible = Ok (ps, ac) ∧ selection p s ps ac.
Proof.
  intros Hwf Hnd. revert parents accessible.
  induction Hnd as [|leaf lv Hleaf Hnd IH]; intros parents accessible Hlv Hsel; cbn; [eauto|].
  destruct (Nat.leb_spec p (length parents)) as [|Hlt]; [eauto|].
  destruct (Hlv leaf) as [Hld Hlp]; [set_solver|].
  destruct (is_strongly_preferred_spec s leaf Hwf Hld) as [-> _]. cbn.
  destruct (strongly_preferredb s leaf) eqn:Hsp; [|apply IH; [set_solver|done]].
  destruct (dag_dfs_spec s leaf Hwf Hld) as (r & -> & _). cbn.
  apply IH; [set_solver|]. by apply selection_snoc.
Qed.

Lemma select_ancestor_spec p s elts parents accessible :
  sleet_wf s → 0 < p → (∀ x, x ∈ elts → x ∈ dom (dag_g (sl_dag s))) →
  selection p s parents accessible →
  ∃ stop ps ac, select_ancestor p s elts parents accessible = Ok (stop, ps, ac) ∧
    selection p s ps ac ∧ (ps = [] → parents = []) ∧
    (ps = [] → stop = false ∧ ∀ x, x ∈ elts → strongly_preferredb s x = false).
Proof.
  intros Hwf Hp. revert parents accessible.
  induction elts as [|x elts IH]; intros parents accessible Hd Hsel; cbn.
  { do 3 eexists. split_and!; [done|done|done|set_solver]. }
  destruct (Nat.leb_spec p (length parents)) as [Hge|Hlt].
  { do 3 eexists. split_and!; [done|done|done|]. intros ->. cbn in Hge. lia. }
  assert (x ∈ dom (dag_g (sl_dag s))) as Hx by (apply Hd; set_solver).
  destruct (is_strongly_preferred_spec s x Hwf Hx) as [-> _]. cbn.
  destruct (IH parents accessible) as (st & ps & ac & Heq & Hs & Hemp & He); [set_solver|done|].
  destruct (strongly_preferredb s x) eqn:Hsp; cbn.
  - destruct (decide (x ∈ parents ∨ x ∈ accessible)) as [Hold|Hnew].
    + assert (negb (bool_decide (x ∈ parents)) && negb (bool_decide (x ∈ accessible)) = false)
        as -> by (repeat case_bool_decide; naive_solver).
      do 3 eexists. split_and!; [done..|]. intros Hps. exfalso.
      pose proof (sel_empty _ _ _ _ Hsel (Hemp Hps)) as Hac. rewrite (Hemp Hps) in Hold.
      set_solver.
    + rewrite !bool_decide_false by naive_solver. cbn.
      destruct (dag_dfs_spec s x Hwf Hx) as (r & -> & _). cbn.
      do 3 eexists. split_and!; [done|apply selection_snoc; naive_solver|by destruct parents..].
  - do 3 eexists. split_and!; [done..|]. intros Hps. destruct (He Hps) as [? Hall].
    split; [done|]. intros y [->|Hy]%elem_of_cons; auto.
Qed.

Lemma select_ancestors_spec p s lv parents accessible :
  sleet_wf s → 0 < p → (∀ x, x ∈ lv → x ∈ dom (dag_g (sl_dag s))) →
  selection p s parents accessible →
  ∃ ps ac, select_ancestors p s lv parents accessible = Ok ps ∧ selection p s ps ac ∧
    (ps = [] → parents = []) ∧
    (ps = [] → ∀ leaf x, leaf ∈ lv → reaches s leaf x → strongly_preferredb s x = false).
Proof.
  intros Hwf Hp. revert parents accessible.
  induction lv as [|leaf lv IH]; intros parents accessible Hd Hsel; cbn.
  { do 2 eexists. split_and!; [done|exact Hsel|done|set_solver]. }
  destruct (dag_dfs_spec s leaf Hwf) as (l & -> & _ & _ & Hr & Hdom); [apply Hd; set_solver|].
  cbn. destruct (select_ancestor_spec p s l parents accessible Hwf Hp Hdom Hsel)
    as (stop & ps & ac & -> & Hs & Hemp & He). cbn. destruct stop.
  { do 2 eexists. split_and!; [done|exact Hs|done|]. intros Hps. by destruct (He Hps). }
  destruct (IH ps ac) as (ps' & ac' & -> & Hs' & Hemp' & He'); [set_solver|done|].
  do 2 eexists. split_and!; [done|exact Hs'|auto|].
  intros Hps leaf' x [->|Hin]%elem_of_cons Hx; [|eauto].
  destruct (He (Hemp' Hps)) as [_ Hall]. by apply Hall, Hr.
Qed.

Lemma select_parents_spec p s :
  sleet_wf s → 0 < p →
  ∃ ps, select_parents p s = Ok ps ∧ NoDup ps ∧ length ps ≤ p ∧
    (∀ x, x ∈ ps → x ∈ dom (dag_g (sl_dag s)) ∧ strongly_preferred s x) ∧
    (ps = [] ↔ ∀ x, x ∈ dom (dag_g (sl_dag s)) → ~ strongly_preferred s x).
Proof.
  intros Hwf Hp. unfold select_parents. case_decide as Hemp.
  { exists []. rewrite Hemp, dom_empty_L. split_and!; [done|constructor|cbn; lia|set_solver|set_solver]. }
  pose proof (slw_dag s Hwf) as Hd.
  assert (∀ x, x ∈ leaves (sl_dag s) → x ∈ dom (dag_g (sl_dag s))) as Hl
    by (intros x; by apply leaves_dom).
  destruct (select_leaves_spec p s (leaves (sl_dag s)) [] []) as (ps1 & ac1 & -> & Hs1);
    [done|apply NoDup_leaves|set_solver| |].
  { split; [constructor|cbn; lia|set_solver|done]. }
  cbn. destruct (select_ancestors_spec p s (leaves (sl_dag s)) ps1 ac1 Hwf Hp Hl Hs1)
    as (ps & ac & -> & [Hnd Hlen Hpr _] & _ & He).
  assert (∀ x, x ∈ dom (dag_g (sl_dag s)) →
    strongly_preferredb s x = true ↔ strongly_preferred s x) as Hb.
  { intros x Hx. by apply is_strongly_preferred_spec. }
  exists ps. split_and!; [done..| |].
  - intros x Hx. destruct (Hpr x Hx). split; [done|]. by apply Hb.
  - split.
    + intros Hps x Hx. rewrite <- Hb by done.
      destruct (leaf_cover (sl_dag s) x Hd Hx) as (leaf & Hleaf & Hr).
      by rewrite (He Hps leaf x Hleaf Hr).
    + intros Hno. destruct ps as [|x ps]; [done|]. exfalso.
      destruct (Hpr x) as [Hx Hsp]; [set_solver|]. by apply (Hno x Hx), Hb.
Qed.
End parents.

(** ** Votes *)
Section votes.
Context `{Crypto, IterOrder, BuildProfile, SL : SledLaws, TC : TxCodecLaws}.
Implicit Types (s : Sleet) (h a : TxHash).

(** The convictions needed for a vote for [a] can be computed: the preferred
    transaction of its conflict set is in the DAG and no sum overflows. *)
Definition votable s a (d1 d2 : Z) : Prop :=
  ∃ cs, cg_cs (sl_conflict_graph s) !! a = Some cs ∧
    conviction (sl_dag s) a = Ok d1 ∧ conviction (sl_dag s) (pref cs) = Ok d2.

(** The conflict set of [a] after a vote. *)
Definition voted a (d1 d2 : Z) (cs : ConflictSet TxHash) : ConflictSet TxHash :=
  mkConflictSet (conflicts cs) (if (d2 <? d1)%Z then a else pref cs) a
    (if bool_decide (a = last cs) then Z.min BETA2 (cnt cs + 1) else cnt cs).

(** [G'] is [G] with the conflict sets of the cells in [l] replaced by [f]. *)
Record csets_updated (G : ConflictGraph) (l : list TxHash)
    (f : TxHash → ConflictSet TxHash → ConflictSet TxHash) (G' : ConflictGraph) : Prop := {
  cu_wf : cg_wf G';
  cu_cs : ∀ a, cg_cs G' !! a = (if decide (a ∈ l) then f a else id) <$> cg_cs G !! a;
  cu_rest : G' = set_cs (cg_cs G') G
}.

Lemma csets_loop s l f (body : TxHash → st Sleet SleetError.Error unit) :
  cg_wf (sl_conflict_graph s) → NoDup l →
  (∀ a, a ∈ l → is_Some (cg_cs (sl_conflict_graph s) !! a)) →
  (∀ a cs G, a ∈ l → cg_wf G → cg_cs (sl_conflict_graph s) !! a = Some cs →
     cg_cs G !! a = Some cs →
     body a (set_conflict_graph G s) =
       (set_conflict_graph (set_cs (<[a := f a cs]> (cg_cs G)) G) s, Ok tt) ∧
     conflicts (f a cs) = conflicts cs ∧ (0 ≤ cnt (f a cs) ≤ BETA2)%Z) →
  ∃ G', foreach l body s = (set_conflict_graph G' s, Ok tt) ∧
    csets_updated (sl_conflict_graph s) l f G'.
Proof.
  intros Hwf Hnd Hl Hbody.
  destruct (foreach_inv (λ pre sk, ∃ G', sk = set_conflict_graph G' s ∧
    csets_updated (sl_conflict_graph s) pre f G') l body s) as (s' & Hf & G' & -> & Hu);
    [| |eauto].
  - exists (sl_conflict_graph s). split; [by destruct s|]. split; [done| |by destruct (sl_conflict_graph s)].
    intros a. rewrite decide_False by set_solver. by destruct (cg_cs _ !! a).
  - intros pre a post sk -> (G & -> & [HwfG Hcs Hrest]).
    assert (a ∉ pre) as Ha.
    { apply NoDup_app in Hnd as (_ & Hd & _). intros Hin. apply (Hd a Hin). set_solver. }
    destruct (Hl a) as [cs Hcsa]; [set_solver|].
    assert (cg_cs G !! a = Some cs) as HG by (by rewrite Hcs, decide_False, Hcsa by done).
    destruct (Hbody a cs G) as (Hb & Hc & Hcnt); [set_solver|done..|].
    eexists. split; [exact Hb|]. eexists. split; [done|]. split; cbn.
    + by eapply set_cset_wf.
    + intros a'. destruct (decide (a = a')) as [<-|Hne].
      * rewrite lookup_insert_eq, decide_True, Hcsa by set_solver. done.
      * rewrite lookup_insert_ne, Hcs by done.
        by rewrite (decide_ext (a' ∈ pre ++ [a]) (a' ∈ pre)) by set_solver.
    + by rewrite Hrest.
Qed.

Lemma reset_ancestor_confidence_spec s h l :
  sleet_wf s → h ∈ dom (dag_g (sl_dag s)) → dag_dfs s h = Ok l →
  ∃ G', reset_ancestor_confidence h s = (set_conflict_graph G' s, Ok tt) ∧
    csets_updated (sl_conflict_graph s) l (λ _, set_cnt 0) G'.
Proof.
  intros Hwf Hh Hl. destruct (dag_dfs_spec s h Hwf Hh) as (l' & Hl' & Hnd & _ & _ & Hdom).
  rewrite Hl in Hl'. simplify_eq. unfold reset_ancestor_confidence.
  erewrite reads_bind_Ok; [|exact Hl]. apply csets_loop; [apply Hwf|done| |].
  - intros a Ha. destruct (wf_vertex_cell s a Hwf (Hdom a Ha)) as (_ & cs & _ & ->). eauto.
  - intros a cs G Ha HwfG _ Hcs. destruct (reset_count_spec G a cs HwfG Hcs) as [Hr _].
    split_and!; [|done|cbn; unfold BETA2; lia..]. etrans; [apply zoom_Ok; exact Hr|done].
Qed.

Lemma update_ancestral_preference_spec s h l (d1 d2 : TxHash → Z) :
  sleet_wf s → h ∈ dom (dag_g (sl_dag s)) → dag_dfs s h = Ok l →
  (∀ a, a ∈ l → votable s a (d1 a) (d2 a)) →
  ∃ G', update_ancestral_preference h s = (set_conflict_graph G' s, Ok tt) ∧
    csets_updated (sl_conflict_graph s) l (λ a, voted a (d1 a) (d2 a)) G'.
Proof.
  intros Hwf Hh Hl Hv. destruct (dag_dfs_spec s h Hwf Hh) as (l' & Hl' & Hnd & _ & _ & Hdom).
  rewrite Hl in Hl'. simplify_eq. unfold update_ancestral_preference.
  erewrite reads_bind_Ok; [|exact Hl]. apply csets_loop; [apply Hwf|done| |].
  - intros a Ha. destruct (wf_vertex_cell s a Hwf (Hdom a Ha)) as (_ & cs & _ & ->). eauto.
  - intros a cs G Ha HwfG Hcs0 Hcs. destruct (Hv a Ha) as (cs' & Hcs' & Hd1 & Hd2).
    simplify_eq. split_and!; [|done|..].
    + erewrite reads_bind_Ok; [|unfold get_preferred, conflicting_cells; cbn; by rewrite Hcs].
      erewrite reads_bind_Ok; [|cbn [sl_dag set_conflict_graph]; by rewrite Hd1].
      erewrite reads_bind_Ok; [|cbn [sl_dag set_conflict_graph]; by rewrite Hd2].
      etrans; [apply zoom_Ok; by apply update_conflict_set_spec|done].
    + cbn. apply (cgw_cnt G HwfG) in Hcs. unfold BETA2 in *. case_bool_decide; lia.
    + cbn. apply (cgw_cnt G HwfG) in Hcs. unfold BETA2 in *. case_bool_decide; lia.
Qed.

Lemma csets_updated_wf s l f G' :
  sleet_wf s → csets_updated (sl_conflict_graph s) l f G' →
  sleet_wf (set_conflict_graph G' s).
Proof.
  intros Hwf [HwfG _ Hr]. split; cbn; try apply Hwf; [done|..]; rewrite Hr; apply Hwf.
Qed.

(** The preferred transaction has left the DAG: its chit is still there, its
    edges are not. *)
Lemma conviction_gone (d : DAG TxHash) p c :
  dag_chits d !! p = Some c → (0 ≤ c ≤ 255)%Z → dag_inv d !! p = None →
  conviction d p = Panic.
Proof.
  intros Hc Hr Hi. unfold conviction, inv_fuel. cbn [conviction_loop].
  unfold get_chit. rewrite Hc. cbn [mbind res_bind]. unfold checked_add.
  rewrite decide_True by (unfold in_range; lia). by rewrite Hi.
Qed.
End votes.

(** ** Removing conflicts *)
Section removal.
Context `{Crypto, IterOrder, BuildProfile, SL : SledLaws, TC : TxCodecLaws}.
Implicit Types (s : Sleet) (h v u : TxHash) (d : DAG TxHash).

(** [d] is the restriction of [d0] to its own vertices, and every vertex of it
    that has lost a parent waits in [queue]. *)
Record orphans_queued (d0 d : DAG TxHash) (queue : list TxHash) : Prop := {
  oq_edges : ∀ v u, parent_of d v u ↔
    v ∈ dom (dag_g d) ∧ u ∈ dom (dag_g d) ∧ parent_of d0 v u;
  oq_queue : ∀ v u, v ∈ dom (dag_g d) → parent_of d0 v u →
    u ∈ dom (dag_g d) ∨ v ∈ queue
}.

Lemma orphans_queued_remove d0 d d' h cs queue :
  orphans_queued d0 d queue → dag_wf d →
  dom (dag_g d') = dom (dag_g d) ∖ {[ h ]} →
  (∀ v u, parent_of d' v u ↔ v ≠ h ∧ u ≠ h ∧ parent_of d v u) →
  (∀ c, c ∈ cs ↔ parent_of d c h) →
  orphans_queued d0 d' (filter (λ x, x ≠ h) queue ++ cs).
Proof.
  intros [He Hq] Hwf Hdom Hed Hcs. split.
  - intros v u. rewrite Hed, He, Hdom. set_solver.
  - intros v u. rewrite Hdom, elem_of_difference, elem_of_singleton. intros [Hv Hne] Hp.
    destruct (decide (u = h)) as [->|Hu].
    + right. destruct (decide (h ∈ dom (dag_g d))) as [Hh|Hh].
      * apply elem_of_app. right. apply Hcs, He. done.
      * destruct (Hq v h Hv Hp) as [?|Hin]; [done|].
        apply elem_of_app. left. by apply list_elem_of_filter.
    + destruct (Hq v u Hv Hp) as [?|Hin]; [left; set_solver|].
      right. apply elem_of_app. left. by apply list_elem_of_filter.
Qed.

Lemma orphans_queued_weaken d0 d queue queue' :
  orphans_queued d0 d queue → (∀ v, v ∈ dom (dag_g d) → v ∈ queue → v ∈ queue') →
  orphans_queued d0 d queue'.
Proof.
  intros [He Hq] Hsub. split; [done|]. intros v u Hv Hp. destruct (Hq v u Hv Hp); auto.
Qed.

Lemma remove_vx_undefined d h : dag_wf d → h ∉ dom (dag_g d) →
  remove_vx h d = (d, Err GraphError.UndefinedVertex).
Proof.
  intros Hwf Hh. rewrite (wf_dom d Hwf), not_elem_of_dom in Hh.
  unfold remove_vx, mbind, st_bind, reads. by rewrite Hh.
Qed.

Lemma remove_cell_undefined G h : cg_wf G → h ∉ dom (cells G) →
  remove_cell h G = (G, Err GraphError.UndefinedCell).
Proof.
  intros Hwf Hh. rewrite <- (cgw_dom G Hwf), not_elem_of_dom in Hh.
  unfold remove_cell. rewrite gets_bind. unfold conflicting_cells at 1. by rewrite Hh.
Qed.

(** The status of a transaction is set and the two graphs lose it. *)
Lemma set_status_wf s h st :
  sleet_wf s →
  ∃ s' r, on_db (set_status h st) s = (s', r) ∧ sleet_wf s' ∧
    sl_dag s' = sl_dag s ∧ sl_conflict_graph s' = sl_conflict_graph s ∧
    ((txs s !! h = None ∧ ∃ e, r = Err e) ∨ (is_Some (txs s !! h) ∧ r = Ok tt)) ∧
    txs s' = alter (tx_with_status st) h (txs s).
Proof.
  intros Hwf. destruct (set_status_spec (sl_known_txs s) h st (slw_db s Hwf))
    as (db' & Hdb & Hdbw & Hkn).
  do 2 eexists. split; [unfold on_db, zoom; by rewrite Hdb|]. cbn. split_and!; try done.
  - split; cbn; try apply Hwf; [done|]. rewrite Hkn, dom_alter_L. apply Hwf.
  - unfold txs. destruct (known (sl_known_txs s) !! h); cbn; [right|left]; eauto.
Qed.

Lemma remove_vertex_step s h d0 queue :
  dag_wf (sl_dag s) → orphans_queued d0 (sl_dag s) (h :: queue) →
  ∃ d' r, on_dag (remove_vx h) s = (set_dag d' s, r) ∧ dag_wf d' ∧
    dom (dag_g d') = dom (dag_g (sl_dag s)) ∖ {[ h ]} ∧
    ((∃ cs, r = Ok cs ∧ orphans_queued d0 d' (queue ++ iter_set cs)) ∨
     ((∃ e, r = Err e) ∧ h ∉ dom (dag_g (sl_dag s)) ∧ orphans_queued d0 d' queue)).
Proof.
  intros Hd Hoq. destruct (decide (h ∈ dom (dag_g (sl_dag s)))) as [Hin|Hout].
  - destruct (remove_vx_spec (sl_dag s) h Hd Hin) as (g' & i' & Hr & Hg & Hi).
    do 2 eexists. split; [by unfold on_dag, zoom; rewrite Hr|]. cbn.
    split_and!; [by eapply remove_vx_wf|apply Hg|]. left. eexists. split; [done|].
    eapply orphans_queued_weaken; [eapply orphans_queued_remove; [exact Hoq|done|apply Hg|..]|].
    + intros v u. by apply removed_adj.
    + intros c. rewrite <- adj_rel_edges. symmetry. apply (wf_mirror _ Hd).
    + intros v _ [[Hne Hv]%list_elem_of_filter|Hv]%elem_of_app.
      * apply elem_of_cons in Hv as [->|Hv]; set_solver.
      * apply elem_of_app. right. by rewrite elem_of_iter_set, elem_of_list_to_set.
  - do 2 eexists. split; [by unfold on_dag, zoom; rewrite remove_vx_undefined|].
    cbn. split_and!; [done|set_solver|]. right. split_and!; [eauto|done|].
    eapply orphans_queued_weaken; [exact Hoq|]. set_solver.
Qed.

(** Statuses change only to [Removed]. *)
Definition only_removes s s' : Prop :=
  ∀ h st, status_is s h st → status_is s' h st ∨ status_is s' h TxStatus.Removed.

Lemma only_removes_trans s1 s2 s3 :
  only_removes s1 s2 → only_removes s2 s3 → only_removes s1 s3.
Proof. intros H12 H23 h st [Hs|Hs]%H12; apply H23 in Hs; naive_solver. Qed.

Lemma only_removes_alter s s' h :
  txs s' = alter (tx_with_status TxStatus.Removed) h (txs s) → only_removes s s'.
Proof.
  intros Heq h' st (tx & Htx & Hst). unfold status_is. rewrite Heq.
  destruct (decide (h = h')) as [<-|].
  - right. rewrite lookup_alter_eq, Htx. eexists. done.
  - left. rewrite lookup_alter_ne by done. eauto.
Qed.

(** Removing the cell and the vertex of a transaction keeps the invariant. *)
Lemma removed_wf s h c G' d' :
  sleet_wf s → cell_removed (sl_conflict_graph s) h c G' → dag_wf d' →
  dom (dag_g d') = dom (dag_g (sl_dag s)) ∖ {[h]} →
  sleet_wf (set_dag d' (set_conflict_graph G' s)).
Proof.
  intros Hwf Hrm Hd Hdom.
  split; cbn; [done|by eapply cell_removed_wf; [apply Hwf|]|apply Hwf|..];
    rewrite ?Hdom, (crm_cells _ _ _ _ Hrm), dom_delete_L.
  - pose proof (slw_vertices s Hwf). set_solver.
  - pose proof (slw_stored s Hwf). set_solver.
Qed.

Lemma remove_progeny_spec fuel children s d0 :
  sleet_wf s → orphans_queued d0 (sl_dag s) children →
  size (cells (sl_conflict_graph s)) < fuel →
  ∃ s' r, remove_progeny fuel children s = (s', r) ∧ sleet_wf s' ∧ only_removes s s' ∧
    cells (sl_conflict_graph s') ⊆ cells (sl_conflict_graph s) ∧
    ((r = Ok tt ∧ orphans_queued d0 (sl_dag s') []) ∨ ∃ e, r = Err e).
Proof.
  revert children s. induction fuel as [|fuel IH]; intros children s Hwf Hoq Hfuel; [lia|].
  cbn [remove_progeny]. destruct children as [|h children].
  { do 2 eexists. split_and!; [done|done|by left|done|auto]. }
  destruct (set_status_wf s h TxStatus.Removed Hwf)
    as (s1 & r1 & Hs1 & Hwf1 & Hd1 & Hg1 & Hr1 & Ht1).
  pose proof (only_removes_alter s s1 h Ht1) as Hor1.
  destruct Hr1 as [[_ [e ->]]|[_ ->]].
  { do 2 eexists. split; [by apply st_bind_Err|]. rewrite Hg1. split_and!; eauto. }
  rewrite (st_bind_Ok _ _ _ _ _ Hs1).
  destruct (cells (sl_conflict_graph s1) !! h) as [c|] eqn:Hc.
  2: { do 2 eexists. split.
       - apply st_bind_Err. unfold on_cg, zoom.
         rewrite remove_cell_undefined; [done|apply Hwf1|by apply not_elem_of_dom].
       - cbn [sl_conflict_graph set_conflict_graph]. assert (set_conflict_graph (sl_conflict_graph s1) s1 = s1) as ->
           by (by destruct s1). rewrite Hg1. split_and!; eauto. }
  destruct (remove_cell_spec _ h c (slw_cg s1 Hwf1) Hc) as (G' & HG & Hrm).
  rewrite (st_bind_Ok _ _ _ (set_conflict_graph G' s1) tt) by (by apply zoom_Ok).
  destruct (remove_vertex_step (set_conflict_graph G' s1) h d0 children)
    as (d' & r2 & Hr2 & Hwfd & Hdd & Hcase); [apply Hwf1|cbn; by rewrite Hd1|].
  set (s3 := set_dag d' (set_conflict_graph G' s1)).
  assert (sleet_wf s3) as Hwf3 by (by eapply removed_wf).
  assert (only_removes s s3) as Hor3 by done.
  assert (cells G' ⊆ cells (sl_conflict_graph s)) as Hsub.
  { rewrite (crm_cells _ _ _ _ Hrm), Hg1. apply delete_subseteq. }
  assert (size (cells (sl_conflict_graph s3)) < fuel) as Hf3.
  { cbn. rewrite (crm_cells _ _ _ _ Hrm), map_size_delete_Some by (by exists c).
    assert (size (cells (sl_conflict_graph s1)) ≠ 0) as Hpos.
    { intros Hz%map_size_empty_inv. by rewrite Hz in Hc. }
    rewrite Hg1 in *. lia. }
  destruct Hcase as [(cs & -> & Hoq')|([e ->] & _ & Hoq')].
  - rewrite (catch_Ok _ _ _ _ _ Hr2).
    destruct (IH (children ++ iter_set cs) s3 Hwf3 Hoq' Hf3) as (s' & r & Heq & Hw & Ho & Hcs & Hc').
    do 2 eexists. split_and!; [exact Heq|done|by eapply only_removes_trans| |done].
    by etrans.
  - rewrite (catch_Err _ _ _ _ _ Hr2).
    destruct (IH children s3 Hwf3 Hoq' Hf3) as (s' & r & Heq & Hw & Ho & Hcs & Hc').
    do 2 eexists. split_and!; [exact Heq|done|by eapply only_removes_trans| |done].
    by etrans.
Qed.

Lemma orphans_queued_refl d : dag_wf d → orphans_queued d d [].
Proof.
  intros Hwf. split.
  - intros v u. split; [|naive_solver]. intros Hp. split_and!; [| |done].
    + destruct Hp as (l & Hl & _). by eapply elem_of_dom_2.
    + apply elem_of_dom. by eapply wf_closed_g.
  - intros v u _ Hp. left. apply elem_of_dom. by eapply wf_closed_g.
Qed.

(** What the loop over the rejected transactions maintains: [s0] is the state
    after the conflict graph dropped them. *)
Record rejecting s0 (pre children : list TxHash) s : Prop := {
  rj_dag : dag_wf (sl_dag s);
  rj_dom : dom (dag_g (sl_dag s)) = dom (dag_g (sl_dag s0)) ∖ list_to_set pre;
  rj_queue : orphans_queued (sl_dag s0) (sl_dag s) children;
  rj_cg : sl_conflict_graph s = sl_conflict_graph s0;
  rj_db : tx_db_wf (sl_known_txs s);
  rj_txs : ∀ h, txs s !! h =
    (if decide (h ∈ pre) then tx_with_status TxStatus.Rejected else id) <$> txs s0 !! h
}.

Lemma reject_loop s0 rejected :
  dag_wf (sl_dag s0) → tx_db_wf (sl_known_txs s0) → NoDup rejected →
  (∀ h, h ∈ rejected → h ∈ dom (dag_g (sl_dag s0)) ∧ is_Some (txs s0 !! h)) →
  ∃ s1 children, for_acc rejected (λ h children,
      on_db (set_status h TxStatus.Rejected);;
      ch ← on_dag (remove_vx h);
      mret (children ++ iter_set ch)) [] s0 = (s1, Ok children) ∧
    rejecting s0 rejected children s1.
Proof.
  intros Hd Hdb Hnd Hrej.
  apply (for_acc_inv (λ pre children s, rejecting s0 pre children s)).
  - split; [done|set_solver|by apply orphans_queued_refl|done|done|].
    intros h. rewrite decide_False by set_solver. by destruct (txs s0 !! h).
  - intros pre h post children s -> [Hwfd Hdom Hoq Hcg Hwfdb Htxs].
    apply NoDup_app in Hnd as (_ & Hdisj & _).
    assert (h ∉ pre) as Hh by (intros Hin; apply (Hdisj h Hin); set_solver).
    destruct (Hrej h) as [Hhd Hhs]; [set_solver|].
    destruct (set_status_spec (sl_known_txs s) h TxStatus.Rejected Hwfdb)
      as (db' & Hset & Hdbw & Hkn).
    assert (txs s !! h = txs s0 !! h) as Hth.
    { rewrite Htxs, decide_False by done. by destruct (txs s0 !! h). }
    change (known (sl_known_txs s)) with (txs s) in *. rewrite Hth in Hset.
    destruct Hhs as [tx Htx]. rewrite Htx in Hset.
    set (s1 := set_known_txs db' s).
    assert (on_db (set_status h TxStatus.Rejected) s = (s1, Ok tt)) as Hs1 by (by apply zoom_Ok).
    destruct (remove_vertex_step s1 h (sl_dag s0) children) as (d' & r & Hr & Hwfd' & Hdd & Hc).
    { done. } { eapply orphans_queued_weaken; [exact Hoq|set_solver]. }
    destruct Hc as [(cs & -> & Hoq')|(_ & Hn & _)]; [|cbn in Hn; set_solver].
    do 2 eexists. split.
    { rewrite (st_bind_Ok _ _ _ _ _ Hs1), (st_bind_Ok _ _ _ _ _ Hr). reflexivity. }
    split; cbn; [done| |done|done|done|].
    + rewrite Hdd. cbn. rewrite Hdom, list_to_set_app_L. set_solver.
    + intros h'. unfold txs at 1. cbn. rewrite Hkn.
      destruct (decide (h = h')) as [<-|Hne].
      * rewrite lookup_alter_eq, Hth, decide_True by set_solver. done.
      * rewrite lookup_alter_ne, Htxs by done.
        by rewrite (decide_ext (h' ∈ pre ++ [h]) (h' ∈ pre)) by set_solver.
Qed.

(** What is rejected when [c] is accepted: the double spends of [c]. *)
Lemma rejected_double_spends s c cs h :
  sleet_wf s → cells (sl_conflict_graph s) !! hash c = Some c →
  cg_cs (sl_conflict_graph s) !! hash c = Some cs →
  h ∈ elements (conflicts cs ∖ {[hash c]}) ↔ h ≠ hash c ∧
    ∃ c', cells (sl_conflict_graph s) !! h = Some c' ∧ double_spend c c'.
Proof.
  intros Hwf Hc Hcs. rewrite elem_of_elements, elem_of_difference, elem_of_singleton.
  rewrite (cgw_conflicts _ (slw_cg s Hwf) _ cs h Hcs). split.
  - intros [(c1 & c' & ? & ? & [<-|?]) ?]; [done|]. simplify_eq. eauto.
  - intros [? (c' & ? & ?)]. split; [|done]. exists c, c'. auto.
Qed.

Lemma remove_conflicts_spec s tx :
  let c := tx_cell tx in
  sleet_wf s → cells (sl_conflict_graph s) !! hash c = Some c →
  (∀ h c', h ≠ hash c → cells (sl_conflict_graph s) !! h = Some c' → double_spend c c' →
     h ∈ dom (dag_g (sl_dag s))) →
  ∃ s' r, remove_conflicts tx s = (s', r) ∧ sleet_wf s' ∧
    cells (sl_conflict_graph s') ⊆ cells (sl_conflict_graph s) ∧
    (∀ h c', cells (sl_conflict_graph s') !! h = Some c' → double_spend c c' → h = hash c) ∧
    (∀ h c', h ≠ hash c → cells (sl_conflict_graph s) !! h = Some c' → double_spend c c' →
       status_is s' h TxStatus.Rejected ∨ status_is s' h TxStatus.Removed) ∧
    ((r = Ok tt ∧ orphans_queued (sl_dag s) (sl_dag s') []) ∨ ∃ e, r = Err e).
Proof.
  intros c Hwf Hc Hin.
  destruct (accept_cell_spec _ c (slw_cg s Hwf) Hc)
    as (G' & cs & rej & Hacc & HwfG & Hcs & _ & Hrej & Hcl).
  assert (∀ h, h ∈ rej ↔ h ≠ hash c ∧
    ∃ c', cells (sl_conflict_graph s) !! h = Some c' ∧ double_spend c c') as Hmem.
  { intros h. rewrite Hrej. by apply rejected_double_spends. }
  set (s0 := set_conflict_graph G' s).
  destruct (reject_loop s0 rej) as (s1 & children & Hloop & [Hd1 Hdom1 Hoq Hcg Hdb1 Ht1]).
  { apply Hwf. } { apply Hwf. } { rewrite Hrej. apply NoDup_elements. }
  { intros h (Hne & c' & Hc' & Hds)%Hmem. split; [by eapply Hin|].
    apply elem_of_dom, (slw_stored s Hwf). by eapply elem_of_dom_2. }
  cbn in Hdom1, Hcg.
  assert (cells G' ⊆ cells (sl_conflict_graph s)) as Hsub.
  { apply map_subseteq_spec. intros h c'. rewrite Hcl. by case_decide. }
  assert (sleet_wf s1) as Hwf1.
  { split; rewrite ?Hcg; [done|done|done|..].
    - rewrite Hdom1. intros h [Hh Hr]%elem_of_difference. rewrite elem_of_list_to_set in Hr.
      apply elem_of_dom. rewrite Hcl, decide_False by done.
      by apply elem_of_dom, (slw_vertices s Hwf).
    - intros h Hh. apply (subseteq_dom _ _ Hsub), (slw_stored s Hwf), elem_of_dom in Hh as [t Ht].
      apply elem_of_dom. change (is_Some (txs s1 !! h)). rewrite Ht1, fmap_is_Some.
      by exists t. }
  destruct (remove_progeny_spec (S (S (size (cells (sl_conflict_graph s1))))) children s1
    (sl_dag s) Hwf1 Hoq ltac:(lia)) as (s' & r & Hrm & Hwf' & Hor & Hsub' & Hres).
  rewrite Hcg in Hsub'.
  exists s', r. split_and!; [|done|by etrans| | |done].
  - unfold remove_conflicts. rewrite (st_bind_Ok _ _ _ s0 rej) by (by apply zoom_Ok).
    rewrite (st_bind_Ok _ _ _ _ _ Hloop), gets_bind. exact Hrm.
  - intros h c' Hc' Hds. destruct (decide (h = hash c)) as [|Hne]; [done|]. exfalso.
    eapply lookup_weaken in Hc'; [|exact Hsub']. pose proof Hc' as Hc0.
    eapply lookup_weaken in Hc0; [|exact Hsub].
    rewrite Hcl, decide_True in Hc' by (apply Hmem; eauto). done.
  - intros h c' Hne Hc' Hds. apply Hor. unfold status_is. rewrite Ht1.
    rewrite decide_True by (apply Hmem; eauto).
    assert (h ∈ dom (txs s)) as [t Ht]%elem_of_dom.
    { apply (slw_stored s Hwf). by eapply elem_of_dom_2. }
    change (txs s0) with (txs s). rewrite Ht. eexists. done.
Qed.
End removal.
