(* ===== verification/SleetProperties.v ===== *)
(** * SleetProperties.v: the properties of sleet and their witnesses
      (src/src/sleet/sleet.rs) *)

From stdpp Require Import prelude gmap sets fin_sets list relations strings.
From Stdlib Require Import ZArith Lia SpecFloat.
From S2P Require Import Prelude Orders Cell Instances Dag DagFacts ConflictGraph ConflictGraphFacts Blocks Storage SledInstances Util Sleet SleetFacts.

Section properties.
Context `{Crypto, IterOrder, BuildProfile, SL : SledLaws, TC : TxCodecLaws, Rng}.
Implicit Types (s : Sleet) (h a : TxHash) (tx : Tx).

(** C1: what [on_receive_tx] does, on every branch.  A coinbase transaction is
    refused, a transaction that is known and was not removed is reported as
    known, one with a parent that is neither in the DAG nor accepted is refused
    for its ancestry, all without a change of state.  The other transactions are
    inserted, and exactly one of four cases holds.  A cell that the conflict
    graph has already is overwritten and reported as a duplicate.  A cell with
    an input the graph does not know is reported as undefined, but stays among
    the cells, without a conflict set.  A transaction that got a vote before it
    was removed is in the conflict graph and the DAG when its chit is refused.
    In these three cases the storage does not change.
    In the last case it is recorded in the conflict graph, in the DAG (below its
    parents that are not yet accepted, with a chit of 0) and in the storage (as
    pending), and nothing else changes; the invariant holds again if nobody
    spends its outputs yet. *)
Theorem receive_tx_spec s tx :
  let h := tx_hash tx in let c := tx_cell tx in
  let G := sl_conflict_graph s in
  let live := remove_accepted_parents s (tx_parents tx) in
  let fresh := has_coinbase_output c = false ∧
    (txs s !! h = None ∨ status_is s h TxStatus.Removed) in
  sleet_wf s →
  (has_coinbase_output c = true →
     on_receive_tx tx s = (s, Err (SleetError.InvalidCoinbaseTransaction c))) ∧
  (has_coinbase_output c = false →
     is_Some (txs s !! h) → ~ status_is s h TxStatus.Removed →
     on_receive_tx tx s = (s, Ok false)) ∧
  (fresh → ~ parents_known s tx →
     on_receive_tx tx s = (s, Err SleetError.MissingAncestry)) ∧
  (fresh → parents_known s tx → h ∈ dom (cells G) →
     on_receive_tx tx s = (set_conflict_graph (set_cells (<[h := c]> (cells G)) G) s,
       Err (SleetError.Graph GraphError.DuplicateCell))) ∧
  (fresh → parents_known s tx → h ∉ dom (cells G) →
     ~ consumed_ids c ⊆ dom (vertices G) →
     ∃ G', on_receive_tx tx s =
         (set_conflict_graph G' s, Err (SleetError.Graph GraphError.UndefinedCell)) ∧
       cells G' = <[h := c]> (cells G) ∧ cg_cs G' = cg_cs G) ∧
  (fresh → parents_known s tx → h ∉ dom (cells G) →
     consumed_ids c ⊆ dom (vertices G) → dag_chits (sl_dag s) !! h = Some 1%Z →
     ∃ G' d', on_receive_tx tx s = (set_dag d' (set_conflict_graph G' s),
         Err (SleetError.Graph GraphError.ChitReplace)) ∧
       cells G' = <[h := c]> (cells G) ∧
       dag_g d' = <[h := live]> (dag_g (sl_dag s)) ∧
       dag_chits d' = dag_chits (sl_dag s)) ∧
  (fresh → parents_known s tx → h ∉ dom (cells G) →
     consumed_ids c ⊆ dom (vertices G) → dag_chits (sl_dag s) !! h ≠ Some 1%Z →
     ∃ s', on_receive_tx tx s = (s', Ok true) ∧ recorded s tx s' ∧
       (cell_insertable G c → sleet_wf s')).
Proof.
  intros h c G live fresh Hwf. subst h c G live fresh. split_and!.
  - intros Hcb. unfold on_receive_tx. by rewrite Hcb.
  - intros Hcb Hk Hnr. unfold on_receive_tx. rewrite Hcb.
    erewrite reads_bind_Ok; [|by apply is_insertable_tx_spec].
    rewrite bool_decide_false; [done|]. intros [Hn|?]; [|done].
    rewrite Hn in Hk. by destruct Hk.
  - intros [Hcb Hf] Hp. unfold on_receive_tx. rewrite Hcb.
    erewrite reads_bind_Ok; [|by apply is_insertable_tx_spec].
    rewrite bool_decide_true by done. rewrite gets_bind.
    destruct (has_parents s tx) eqn:Hhp; [|done].
    rewrite has_parents_spec in Hhp by done. done.
  - intros [Hcb Hf] Hp Hin. rewrite on_receive_tx_fresh by done.
    by erewrite st_bind_Err; [|by apply sleet_insert_duplicate].
  - intros [Hcb Hf] Hp Hn%not_elem_of_dom Hsub. rewrite on_receive_tx_fresh by done.
    destruct (sleet_insert_unknown s (tx_with_status TxStatus.Pending tx) Hn Hsub)
      as (G' & Hi & ? & ?).
    exists G'. by erewrite st_bind_Err; [|exact Hi].
  - intros [Hcb Hf] Hp Hn%not_elem_of_dom Hsub Hchit. rewrite on_receive_tx_fresh by done.
    destruct (sleet_insert_voted s (tx_with_status TxStatus.Pending tx) Hwf Hp Hn Hsub Hchit)
      as (G' & d' & Hi & ? & ? & ?).
    exists G', d'. by erewrite st_bind_Err; [|exact Hi].
  - intros [Hcb Hf] Hp Hn%not_elem_of_dom Hsub Hchit. by apply on_receive_tx_Ok.
Qed.

(** C3: a transaction is accepted exactly when it and all its ancestors are
    final; the version with a memo table that holds right answers gives the
    same answer and keeps the table right. *)
Theorem acceptance_is_ancestral_finality s h memo :
  sleet_wf s → h ∈ dom (dag_g (sl_dag s)) → memo_ok s memo →
  ∃ b memo', is_accepted s h = Ok b ∧
    (b = true ↔ ∀ a, reaches s h a → final s a) ∧
    is_accepted_memo s h memo = Ok (b, memo') ∧ memo_ok s memo'.
Proof.
  intros Hwf Hh Hm. destruct (is_accepted_spec s h Hwf Hh) as [Ha Hiff].
  destruct (is_accepted_memo_spec s h memo Hwf Hh Hm) as (memo' & Hmm & Hmo).
  exists (acceptedb s h), memo'. done.
Qed.

(** C4: after a successful query exactly those ancestors are reported as newly
    accepted, once each, that were not stored as accepted and whose whole
    ancestry is final; they, and no others, are then stored as accepted. *)
Theorem newly_accepted_exact s h :
  sleet_wf s → bounded_set_wf (sl_accepted_txs s) → h ∈ dom (dag_g (sl_dag s)) →
  ∃ s' new, compute_accepted_txs h s = (s', Ok new) ∧ sleet_wf s' ∧ NoDup new ∧
    (∀ t, t ∈ new ↔ reaches s h t ∧ ~ status_is s t TxStatus.Accepted ∧ accepted s t) ∧
    (∀ t, t ∈ new → status_is s' t TxStatus.Accepted) ∧
    (∀ t st, t ∉ new → status_is s' t st ↔ status_is s t st).
Proof.
  intros Hwf Hb Hh. destruct (dag_dfs_spec s h Hwf Hh) as (l & Hl & Hnd & _ & Hr & Hdom).
  destruct (compute_accepted_txs_spec s h l Hwf Hb Hh Hl) as (s' & Hc & Hm).
  assert (∀ t, t ∈ filter (newly_accepted s) l ↔
    reaches s h t ∧ ~ status_is s t TxStatus.Accepted ∧ accepted s t) as Hmem.
  { intros t. rewrite list_elem_of_filter, Hr. unfold newly_accepted.
    rewrite <- not_true_iff_false, (stored_accepted_spec s t (slw_db s Hwf)).
    split; intros [? ?].
    - rewrite (proj2 (is_accepted_spec s t Hwf ltac:(by apply Hdom, Hr))) in *. naive_solver.
    - rewrite (proj2 (is_accepted_spec s t Hwf ltac:(by apply Hdom, Hr))) in *. naive_solver. }
  exists s', (filter (newly_accepted s) l).
  split_and!; [done|by eapply marked_wf|by apply NoDup_filter|done|..].
  - intros t Ht. unfold status_is. rewrite (mk_txs _ _ _ Hm), decide_True by done.
    assert (t ∈ dom (txs s)) as [tx Htx]%elem_of_dom.
    { apply (slw_stored s Hwf), (slw_vertices s Hwf), Hdom.
      by apply list_elem_of_filter in Ht as [_ ?]. }
    rewrite Htx. eexists. done.
  - intros t st Ht. by eapply marked_status.
Qed.

(** C13: pruning computes a frontier of accepted transactions from which every
    accepted transaction of the DAG is reached, and removes exactly the accepted
    transactions that are not on it; the edges among the others stay, and the
    invariant holds again. *)
Theorem prune_keeps_undecided s :
  sleet_wf s →
  ∃ s' F, prune_at_accepted_frontier s = (s', Ok tt) ∧ sleet_wf s' ∧
    sl_accepted_frontier s' = F ∧
    (∀ f, f ∈ F → f ∈ dom (dag_g (sl_dag s')) ∧ accepted s f) ∧
    (∀ v, v ∈ dom (dag_g (sl_dag s)) → accepted s v ↔ ∃ f, f ∈ F ∧ reaches s f v) ∧
    (∀ v, v ∈ dom (dag_g (sl_dag s')) ↔
       v ∈ dom (dag_g (sl_dag s)) ∧ (~ accepted s v ∨ v ∈ F)) ∧
    (∀ v u, parent_of (sl_dag s') v u ↔ v ∈ dom (dag_g (sl_dag s')) ∧
       u ∈ dom (dag_g (sl_dag s')) ∧ parent_of (sl_dag s) v u).
Proof.
  intros Hwf. destruct (prune_spec s Hwf) as (F & d' & Hp & [HF1 HF2] & Hwf' & [Hwd Hdm He _]).
  pose proof (wf_closed_g _ (slw_dag s Hwf)) as Hcl.
  assert (∀ v, v ∈ dom (dag_g (sl_dag s)) → accepted s v ∨ ~ accepted s v) as Hdec.
  { intros v Hv. destruct (is_accepted_spec s v Hwf Hv) as [_ Hiff].
    destruct (acceptedb s v); [left|right]; rewrite <- Hiff; done. }
  assert (∀ v, v ∈ dom (dag_g d') ↔
    v ∈ dom (dag_g (sl_dag s)) ∧ (~ accepted s v ∨ v ∈ F)) as Hd'.
  { intros v. rewrite Hdm. split; intros [Hv Hr]; (split; [done|]).
    - destruct (Hdec v Hv); [|by left]. right. destruct (decide (v ∈ F)); [done|naive_solver].
    - naive_solver. }
  eexists _, F. split; [exact Hp|]. cbn. split_and!; [done|done| |done|done|].
  - intros f Hf. destruct (HF1 f Hf). split; [|done]. apply Hd'. auto.
  - intros v u. rewrite He, !Hdm. split; [|naive_solver]. intros (Hv & Hu & Hpu).
    split_and!; [|done| |done|done].
    + destruct Hpu as (l & Hl & _). by eapply elem_of_dom_2.
    + apply elem_of_dom. by eapply Hcl.
Qed.

(** C14: parent selection returns at most [p] distinct transactions of the DAG,
    all strongly preferred, and returns none only when no transaction of the DAG
    is strongly preferred. *)
Theorem select_parents_sound_and_complete s p :
  sleet_wf s → 0 < p →
  ∃ ps, select_parents p s = Ok ps ∧ NoDup ps ∧ length ps ≤ p ∧
    (∀ x, x ∈ ps → x ∈ dom (dag_g (sl_dag s)) ∧
       ∀ a, reaches s x a → preferred s a) ∧
    (ps = [] ↔ ∀ x, x ∈ dom (dag_g (sl_dag s)) → ~ ∀ a, reaches s x a → preferred s a).
Proof. apply select_parents_spec. Qed.

(** C8: removing the conflicts of an accepted transaction whose rivals are all
    in the DAG terminates without a panic and keeps the invariant; no rival is
    left in the conflict graph and each is stored as rejected or removed; when
    it reports success, every transaction left in the DAG still has all the
    parents it had, so no descendant of a rejected transaction is left. *)
Theorem remove_conflicts_safe s tx :
  sleet_wf s → cells (sl_conflict_graph s) !! tx_hash tx = Some (tx_cell tx) →
  (∀ h c', h ≠ tx_hash tx → cells (sl_conflict_graph s) !! h = Some c' →
     double_spend (tx_cell tx) c' → h ∈ dom (dag_g (sl_dag s))) →
  ∃ s' r, remove_conflicts tx s = (s', r) ∧ sleet_wf s' ∧
    (r = Ok tt ∨ ∃ e, r = Err e) ∧
    (∀ h c', cells (sl_conflict_graph s') !! h = Some c' →
       double_spend (tx_cell tx) c' → h = tx_hash tx) ∧
    (∀ h c', h ≠ tx_hash tx → cells (sl_conflict_graph s) !! h = Some c' →
       double_spend (tx_cell tx) c' →
       status_is s' h TxStatus.Rejected ∨ status_is s' h TxStatus.Removed) ∧
    (r = Ok tt → ∀ v u, v ∈ dom (dag_g (sl_dag s')) → parent_of (sl_dag s) v u →
       parent_of (sl_dag s') v u).
Proof.
  intros Hwf Hc Hin.
  destruct (remove_conflicts_spec s tx Hwf Hc Hin) as (s' & r & Hr & Hwf' & _ & Hds & Hst & Hres).
  exists s', r. split_and!; [done|done| |done|done|].
  - destruct Hres as [[-> _]|?]; auto.
  - intros -> v u Hv Hp. destruct Hres as [[_ [He Hq]]|[e ?]]; [|done].
    apply He. destruct (Hq v u Hv Hp) as [?|?]; [done|set_solver].
Qed.

(** What is left of a query that was not won: the confidence of the transaction
    and of all its ancestors, and of no other transaction, is 0, the preferences
    are kept, and the transaction is stored as queried. *)
Record confidence_reset s h s' : Prop := {
  rst_wf : sleet_wf s';
  rst_queried : status_is s' h TxStatus.Queried;
  rst_ancestors : ∀ a cs, cg_cs (sl_conflict_graph s) !! a = Some cs → reaches s h a →
    cg_cs (sl_conflict_graph s') !! a = Some (set_cnt 0 cs);
  rst_others : ∀ a, ~ reaches s h a →
    cg_cs (sl_conflict_graph s') !! a = cg_cs (sl_conflict_graph s) !! a;
  rst_rest : s' = set_known_txs (sl_known_txs s') (set_conflict_graph (sl_conflict_graph s') s)
}.

Lemma reset_query s h :
  sleet_wf s → h ∈ dom (dag_g (sl_dag s)) →
  ∃ s', (unwrap_st (F:=SleetError.Error) (reset_ancestor_confidence h);;
         unwrap_st (on_db (set_status h TxStatus.Queried))) s = (s', Ok tt) ∧
    confidence_reset s h s'.
Proof.
  intros Hwf Hh. destruct (dag_dfs_spec s h Hwf Hh) as (l & Hl & _ & _ & Hr & _).
  destruct (reset_ancestor_confidence_spec s h l Hwf Hh Hl) as (G' & HG & Hu).
  pose proof (csets_updated_wf s l _ G' Hwf Hu) as Hwf1.
  destruct (set_status_spec (sl_known_txs s) h TxStatus.Queried (slw_db s Hwf))
    as (db' & Hdb & Hdbw & Hkn).
  assert (is_Some (known (sl_known_txs s) !! h)) as [tx0 Htx0].
  { apply elem_of_dom, (slw_stored s Hwf), (slw_vertices s Hwf), Hh. }
  rewrite Htx0 in Hdb. exists (set_known_txs db' (set_conflict_graph G' s)). split.
  - rewrite (st_bind_Ok _ _ _ _ _ (unwrap_st_Ok _ _ _ _ HG)). by eapply unwrap_st_Ok, zoom_Ok.
  - split; cbn.
    + destruct Hwf1. split; cbn; try done. by rewrite Hkn, dom_alter_L.
    + exists (tx_with_status TxStatus.Queried tx0). split; [|done]. unfold txs. cbn.
      by rewrite Hkn, lookup_alter_eq, Htx0.
    + intros a cs Hcs Ha. by rewrite (cu_cs _ _ _ _ Hu), Hcs, decide_True by (by apply Hr).
    + intros a Ha. rewrite (cu_cs _ _ _ _ Hu), decide_False by (by rewrite Hr).
      by destruct (cg_cs _ !! a).
    + done.
Qed.

Lemma reset_out s h s' : confidence_reset s h s' → sl_out s' = sl_out s.
Proof. intros Hr. by rewrite (rst_rest _ _ _ Hr). Qed.

(** An incomplete query is a query that was not won. *)
Theorem query_incomplete_resets s tx acks :
  sleet_wf s → tx_hash tx ∈ dom (dag_g (sl_dag s)) →
  ∃ s', handle_query_incomplete tx acks s = (s', Ok tt) ∧ confidence_reset s (tx_hash tx) s'.
Proof. apply reset_query. Qed.

(** Whatever a completed query decides, the handler ends by storing the
    transaction as queried, also when the transaction was stored as accepted,
    before or by the very same handler: the acceptance is forgotten. *)
Theorem query_complete_stores_queried s tx acks s' :
  handle_query_complete tx acks s = (s', Ok tt) →
  status_is s' (tx_hash tx) TxStatus.Queried.
Proof.
  unfold handle_query_complete. intros Heq.
  apply st_bind_Ok_inv in Heq as (s1 & outcomes & _ & Heq).
  apply st_bind_Ok_inv in Heq as (s2 & [] & _ & Heq).
  unfold unwrap_st, on_db, zoom in Heq.
  destruct (set_status (tx_hash tx) TxStatus.Queried (sl_known_txs s2)) as [db' r] eqn:Hs.
  destruct r as [[]|e| |]; cbn in Heq; simplify_eq.
  by apply set_status_Ok_inv in Hs.
Qed.

(** A successful query for a transaction whose conflict set still prefers a
    transaction that has left the DAG makes the handler panic: the conviction of
    the preferred one is looked up without a check. *)
Theorem dangling_preference_panics s tx acks outcomes cs c :
  sleet_wf s → tx_hash tx ∈ dom (dag_g (sl_dag s)) →
  dag_chits (sl_dag s) !! tx_hash tx ≠ Some 1%Z →
  query_outcomes (sl_committee s) acks = Ok outcomes →
  f64_ltb ALPHA (sum_outcomes outcomes) = true →
  cg_cs (sl_conflict_graph s) !! tx_hash tx = Some cs →
  pref cs ∉ dom (dag_g (sl_dag s)) → pref cs ≠ tx_hash tx →
  dag_chits (sl_dag s) !! pref cs = Some c → (0 ≤ c ≤ 255)%Z →
  (handle_query_complete tx acks s).2 = Panic.
Proof.
  intros Hwf Hh Hchit Hout Hyes Hcs Hgone Hne Hc Hrange.
  set (d1 := set_chits (<[tx_hash tx := 1%Z]> (dag_chits (sl_dag s))) (sl_dag s)).
  assert (set_chit (tx_hash tx) 1 (sl_dag s) = (d1, Ok tt)) as Hset by (by apply set_chit_Ok).
  assert (sleet_wf (set_dag d1 s)) as Hwf1.
  { destruct Hwf. split; cbn; try done. eapply set_chit_wf; [by right|done|exact Hset]. }
  destruct (dag_dfs_spec (set_dag d1 s) _ Hwf1 Hh) as (l & Hl & _ & Hhd & _ & _).
  destruct l as [|h l]; cbn in Hhd; simplify_eq.
  assert (conviction d1 (pref cs) = Panic) as Hpanic.
  { eapply conviction_gone; [|exact Hrange|].
    - cbn. by rewrite lookup_insert_ne.
    - cbn. apply not_elem_of_dom. by rewrite <- (wf_dom _ (slw_dag s Hwf)). }
  unfold handle_query_complete. erewrite reads_bind_Ok; [|exact Hout]. rewrite Hyes.
  unfold mbind at 1, st_bind at 1.
  erewrite st_bind_Ok; [|by eapply unwrap_st_Ok, zoom_Ok].
  unfold update_ancestral_preference at 1. unfold mbind at 1, st_bind at 1, unwrap_st at 1.
  erewrite reads_bind_Ok; [|exact Hl]. rewrite foreach_cons.
  unfold mbind at 1, st_bind at 1. erewrite reads_bind_Ok;
    [|unfold get_preferred, conflicting_cells; cbn; by rewrite Hcs].
  destruct (progeny_enum d1 (tx_hash tx) (slw_dag _ Hwf1) Hh) as (k & Hk1 & Hk2).
  pose proof (conviction_total d1 (tx_hash tx) k (slw_dag _ Hwf1) Hh Hk1 Hk2) as Hct.
  unfold chit_total in Hct.
  unfold mbind at 1, st_bind at 1, reads at 1. cbn [sl_dag set_dag set_conflict_graph].
  change (sl_dag (set_dag d1 s)) with d1. rewrite Hct. case_decide; [|done]. cbn [graph map_err].
  unfold mbind at 1, st_bind at 1, reads at 1.
  change (sl_dag (set_dag d1 s)) with d1. rewrite Hpanic. done.
Qed.

(** *** A won query *)

(** The transaction has got its vote. *)
Definition with_chit s h : Sleet :=
  set_dag (set_chits (<[h := 1%Z]> (dag_chits (sl_dag s))) (sl_dag s)) s.

(** The acknowledgements come from the committee and outweigh [ALPHA], the
    transaction is in the DAG without a vote, and the convictions [d1] of its
    ancestors and [d2] of their preferred rivals can be computed. *)
Record wins s tx acks (d1 d2 : TxHash → Z) : Prop := {
  win_wf : sleet_wf s;
  win_accepted : bounded_set_wf (sl_accepted_txs s);
  win_live : bounded_wf (sl_live_cells s);
  win_dag : tx_hash tx ∈ dom (dag_g (sl_dag s));
  win_chit : dag_chits (sl_dag s) !! tx_hash tx ≠ Some 1%Z;
  win_outcomes : ∃ outcomes, query_outcomes (sl_committee s) acks = Ok outcomes ∧
    f64_ltb ALPHA (sum_outcomes outcomes) = true;
  win_votable : ∀ a, reaches s (tx_hash tx) a →
    votable (with_chit s (tx_hash tx)) a (d1 a) (d2 a)
}.

(** What a won query leaves: every ancestor got a vote in its own conflict set,
    and [new] was stored as accepted and announced. *)
Record won s tx (d1 d2 : TxHash → Z) (new : list TxHash) s' : Prop := {
  won_wf : sleet_wf s';
  won_accepted : bounded_set_wf (sl_accepted_txs s');
  won_live : bounded_wf (sl_live_cells s');
  won_dag : sl_dag s' = sl_dag (with_chit s (tx_hash tx));
  won_cells : cells (sl_conflict_graph s') = cells (sl_conflict_graph s);
  won_votes : ∀ a cs, cg_cs (sl_conflict_graph s) !! a = Some cs →
    (reaches s (tx_hash tx) a →
       cg_cs (sl_conflict_graph s') !! a = Some (voted a (d1 a) (d2 a) cs)) ∧
    (~ reaches s (tx_hash tx) a → cg_cs (sl_conflict_graph s') !! a = Some cs);
  won_new : ∀ t, t ∈ new ↔ reaches s (tx_hash tx) t ∧ ~ status_is s t TxStatus.Accepted ∧
    accepted (set_conflict_graph (sl_conflict_graph s') s) t;
  won_nodup : NoDup new;
  won_stored : ∀ t, t ∈ new → t ≠ tx_hash tx → status_is s' t TxStatus.Accepted;
  won_queried : status_is s' (tx_hash tx) TxStatus.Queried;
  won_out : sl_out s' = sl_out s ++ match new with [] => [] | _ => [NotifyNewAccepted new] end
}.

(** The votes of a won query. *)
Lemma won_votes_spec s tx acks d1 d2 :
  wins s tx acks d1 d2 →
  ∃ l G', dag_dfs (with_chit s (tx_hash tx)) (tx_hash tx) = Ok l ∧
    update_ancestral_preference (tx_hash tx) (with_chit s (tx_hash tx)) =
      (set_conflict_graph G' (with_chit s (tx_hash tx)), Ok tt) ∧
    csets_updated (sl_conflict_graph s) l (λ a, voted a (d1 a) (d2 a)) G' ∧
    sleet_wf (set_conflict_graph G' (with_chit s (tx_hash tx))) ∧ NoDup l ∧
    (∀ a, a ∈ l ↔ reaches s (tx_hash tx) a) ∧ (∀ a, a ∈ l → a ∈ dom (dag_g (sl_dag s))).
Proof.
  intros [Hwf _ _ Hh Hchit _ Hv].
  assert (sleet_wf (with_chit s (tx_hash tx))) as Hwf1.
  { destruct Hwf. split; cbn; try done.
    eapply set_chit_wf; [by right|done|by apply set_chit_Ok]. }
  destruct (dag_dfs_spec (with_chit s (tx_hash tx)) _ Hwf1 Hh) as (l & Hl & Hnd & _ & Hr & Hd).
  destruct (update_ancestral_preference_spec _ _ l d1 d2 Hwf1 Hh Hl) as (G' & HG & Hu).
  { intros a Ha. by apply Hv, Hr. }
  exists l, G'. split; [exact Hl|]. split; [exact HG|]. split; [exact Hu|].
  split; [exact (csets_updated_wf _ _ _ _ Hwf1 Hu)|done].
Qed.

Lemma marked_stored s ts s' t :
  sleet_wf s → marked s ts s' → t ∈ ts → t ∈ dom (dag_g (sl_dag s)) →
  status_is s' t TxStatus.Accepted.
Proof.
  intros Hwf Hm Ht Hd. unfold status_is. rewrite (mk_txs _ _ _ Hm), decide_True by done.
  apply (slw_vertices s Hwf), (slw_stored s Hwf), elem_of_dom in Hd as [tx Htx].
  change (txs s !! t = Some tx) in Htx. rewrite Htx. by eexists.
Qed.

Lemma query_won s tx acks d1 d2 :
  wins s tx acks d1 d2 →
  ∃ s' new, handle_query_complete tx acks s = (s', Ok tt) ∧ won s tx d1 d2 new s'.
Proof.
  intros Hw. destruct (won_votes_spec s tx acks d1 d2 Hw)
    as (l & G' & Hl & HG & Hu & Hwf2 & Hnd & Hr & Hdom).
  destruct Hw as [Hwf Hacc Hlive Hh Hchit (outcomes & Hout & Hyes) _].
  destruct (bounded_insert_spec (E:=SleetError.Error) (sl_live_cells s) (hash (tx_cell tx))
    (tx_cell tx) Hlive) as (m' & Hm' & Hlive' & _).
  set (s2 := set_conflict_graph G' (with_chit s (tx_hash tx))) in *.
  set (s3 := set_live_cells m' s2).
  assert (sleet_wf s3) as Hwf3 by (destruct Hwf2; by split).
  destruct (compute_accepted_txs_spec s3 (tx_hash tx) l Hwf3 Hacc Hh Hl) as (s4 & Hc & Hmk).
  set (new := filter (newly_accepted s3) l) in *.
  set (out := match new with [] => [] | _ => [NotifyNewAccepted new] end).
  set (s5 := foldl (λ s e, emit e s) s4 out).
  assert (match new with [] => mret tt | _ => notify (NotifyNewAccepted new) end s4 =
    (s5, Ok tt)) as Hn by (unfold s5, out; by destruct new).
  assert (sleet_wf s5 ∧ sl_dag s5 = sl_dag s3 ∧ sl_conflict_graph s5 = G' ∧
    sl_known_txs s5 = sl_known_txs s4 ∧ bounded_set_wf (sl_accepted_txs s5) ∧
    sl_live_cells s5 = m' ∧ sl_out s5 = sl_out s ++ out) as (Hwf5 & Hd5 & HG5 & Ht5 & Ha5 & Hl5 & Ho5).
  { pose proof (marked_wf _ _ _ Hwf3 Hmk) as Hwf4. pose proof (mk_bounded _ _ _ Hmk).
    pose proof (mk_rest _ _ _ Hmk) as Hrest. unfold s5, out.
    destruct new; cbn; (split_and!; [destruct Hwf4; by split|rewrite Hrest; cbn; rewrite ?app_nil_r; done..]). }
  destruct (set_status_spec (sl_known_txs s5) (tx_hash tx) TxStatus.Queried (slw_db _ Hwf5))
    as (db' & Hdb & Hdbw & Hkn).
  assert (is_Some (known (sl_known_txs s5) !! tx_hash tx)) as [tx5 Htx5].
  { apply elem_of_dom, (slw_stored _ Hwf5), (slw_vertices _ Hwf5). by rewrite Hd5. }
  rewrite Htx5 in Hdb. exists (set_known_txs db' s5), new. split.
  { unfold handle_query_complete. erewrite reads_bind_Ok; [|exact Hout]. rewrite Hyes.
    rewrite (st_bind_Ok _ _ _ s5 tt); [by eapply unwrap_st_Ok, zoom_Ok|].
    erewrite st_bind_Ok; [|by eapply unwrap_st_Ok, zoom_Ok, set_chit_Ok].
    erewrite st_bind_Ok; [|eapply unwrap_st_Ok; exact HG].
    erewrite st_bind_Ok; [|by apply zoom_Ok].
    erewrite st_bind_Ok; [|exact Hc]. exact Hn. }
  split; cbn [sl_dag sl_conflict_graph sl_accepted_txs sl_live_cells sl_out set_known_txs].
  - destruct Hwf5. split; cbn; try done. by rewrite Hkn, dom_alter_L.
  - done.
  - by rewrite Hl5.
  - by rewrite Hd5.
  - rewrite HG5, (cu_rest _ _ _ _ Hu). done.
  - intros a cs Hcs. rewrite HG5, (cu_cs _ _ _ _ Hu), Hcs. setoid_rewrite <- Hr.
    by split; intros; rewrite ?decide_True, ?decide_False by done.
  - intros t. rewrite HG5. unfold new. rewrite list_elem_of_filter, Hr. unfold newly_accepted.
    rewrite <- not_true_iff_false, (stored_accepted_spec s3 t (slw_db s3 Hwf3)).
    split; intros [Hx Hy]; (assert (t ∈ dom (dag_g (sl_dag s3))) as Htd by (apply Hdom, Hr; tauto));
      rewrite (proj2 (is_accepted_spec s3 t Hwf3 Htd)) in *; tauto.
  - by apply NoDup_filter.
  - intros t Ht Hne. destruct (marked_stored s3 new s4 t Hwf3 Hmk Ht) as (tx4 & Htx4 & Hst).
    { apply list_elem_of_filter in Ht as [_ Ht]. by apply Hdom. }
    exists tx4. split; [|done]. unfold txs. cbn. by rewrite Hkn, lookup_alter_ne, Ht5.
  - exists (tx_with_status TxStatus.Queried tx5). split; [|done]. unfold txs. cbn.
    by rewrite Hkn, lookup_alter_eq, Htx5.
  - done.
Qed.


(** A vote keeps what is final. *)
Lemma voted_final s tx acks d1 d2 new s' a :
  wins s tx acks d1 d2 → won s tx d1 d2 new s' → final s a →
  final (set_conflict_graph (sl_conflict_graph s') s) a.
Proof.
  intros Hw Hn [Ha|(Hr & Hj & cs & Hcs & Hcnt)]; [by left|right].
  split_and!; [done..|]. destruct (won_votes _ _ _ _ _ _ Hn a cs Hcs) as [Hv Hnv].
  pose proof (cgw_cnt _ (slw_cg s (win_wf _ _ _ _ _ Hw)) _ _ Hcs) as Hb.
  assert (a ∈ dom (cg_cs (sl_conflict_graph s))) as Hd by (by eapply elem_of_dom_2).
  destruct (dag_dfs_spec s (tx_hash tx) (win_wf _ _ _ _ _ Hw) (win_dag _ _ _ _ _ Hw))
    as (l & _ & _ & _ & Hl & _).
  destruct (decide (a ∈ l)) as [Hin|Hout].
  - eexists. split; [by apply Hv, Hl|]. cbn.
    unfold BETA1, BETA2 in *. case_bool_decide; naive_solver lia.
  - exists cs. split; [apply Hnv; by rewrite <- Hl|done].
Qed.

(** [x] is one vote short of [BETA2], below an otherwise final ancestry. *)
Definition one_vote_short s x : Prop :=
  ~ status_is s x TxStatus.Accepted ∧ ~ status_is s x TxStatus.Removed ∧
  ~ status_is s x TxStatus.Rejected ∧
  (∃ cs, cg_cs (sl_conflict_graph s) !! x = Some cs ∧ last cs = x ∧ (BETA2 - 1 ≤ cnt cs)%Z) ∧
  ∀ y, tc (parent_of (sl_dag s)) x y → final s y.

Lemma one_vote_more s tx acks d1 d2 new s' x :
  wins s tx acks d1 d2 → won s tx d1 d2 new s' →
  reaches s (tx_hash tx) x → one_vote_short s x → x ∈ new.
Proof.
  intros Hw Hn Hx (Ha & Hr & Hj & (cs & Hcs & Hlast & Hcnt) & Hanc).
  apply (won_new _ _ _ _ _ _ Hn). split_and!; [done..|].
  intros y [->|Hy]%rtc_tc; [|eapply voted_final; [done..|by apply Hanc]].
  right. split_and!; [done..|]. eexists. split; [by apply (proj1 (won_votes _ _ _ _ _ _ Hn _ cs Hcs))|].
  right. cbn. rewrite bool_decide_true by done. unfold BETA2 in *. lia.
Qed.

(** C7: two transactions that spend the same output can both be accepted, by one
    run of the handler of completed queries.  When the query for a transaction is
    won, each of its ancestors gets a vote in its own conflict set, which counts
    the votes of no rival, and acceptance does not ask for the preference: if two
    ancestors that spend the same output are both one vote short of [BETA2] below
    a final ancestry, the handler stores both as accepted and announces both in
    the same message, while each still lists the other as a conflict. *)
Theorem double_spends_both_accepted s tx acks d1 d2 a b ca cb :
  wins s tx acks d1 d2 →
  tc (parent_of (sl_dag s)) (tx_hash tx) a → tc (parent_of (sl_dag s)) (tx_hash tx) b →
  a ≠ b → cells (sl_conflict_graph s) !! a = Some ca →
  cells (sl_conflict_graph s) !! b = Some cb → double_spend ca cb →
  one_vote_short s a → one_vote_short s b →
  ∃ s' new csa csb, handle_query_complete tx acks s = (s', Ok tt) ∧ sleet_wf s' ∧
    status_is s' a TxStatus.Accepted ∧ status_is s' b TxStatus.Accepted ∧
    a ∈ new ∧ b ∈ new ∧ sl_out s' = sl_out s ++ [NotifyNewAccepted new] ∧
    cg_cs (sl_conflict_graph s') !! a = Some csa ∧ b ∈ conflicts csa ∧
    cg_cs (sl_conflict_graph s') !! b = Some csb ∧ a ∈ conflicts csb.
Proof.
  intros Hw Ha Hb Hne Hca Hcb Hds Hsa Hsb.
  destruct (query_won s tx acks d1 d2 Hw) as (s' & new & Heq & Hn).
  assert (a ∈ new ∧ b ∈ new) as [Hna Hnb].
  { split; (eapply one_vote_more; [done|done|by apply tc_rtc|done]). }
  pose proof (won_wf _ _ _ _ _ _ Hn) as Hwf'.
  rewrite <- (won_cells _ _ _ _ _ _ Hn) in Hca, Hcb.
  destruct (wf_cs_Some _ a ca (slw_cg s' Hwf') Hca) as [csa Hcsa].
  destruct (wf_cs_Some _ b cb (slw_cg s' Hwf') Hcb) as [csb Hcsb].
  assert (∀ x, tc (parent_of (sl_dag s)) (tx_hash tx) x → x ≠ tx_hash tx) as Hstrict.
  { intros x Hx ->. by eapply wf_tc_irrefl; [apply (slw_dag s (win_wf _ _ _ _ _ Hw))|]. }
  exists s', new, csa, csb. split_and!; try done.
  - apply (won_stored _ _ _ _ _ _ Hn); auto.
  - apply (won_stored _ _ _ _ _ _ Hn); auto.
  - rewrite (won_out _ _ _ _ _ _ Hn). by destruct new; [set_solver|].
  - apply (cgw_conflicts _ (slw_cg s' Hwf') a csa b Hcsa). eauto 10.
  - apply (cgw_conflicts _ (slw_cg s' Hwf') b csb a Hcsb). exists cb, ca.
    split_and!; [done..|]. right. by apply double_spend_sym.
Qed.
End properties.
