(* ===== verification/SleetWitnesses.v ===== *)
(** * SleetWitnesses.v: a run of sleet on concrete transactions

    One genesis cell with two outputs; [tx_a] spends both, [tx_d] is a child of
    [tx_a], [tx_b] and [tx_c] each spend one output of the genesis cell and so
    conflict with [tx_a].  The properties of sleet are applied to the states of
    this run. *)

From stdpp Require Import prelude gmap sets fin_sets list relations strings.
From Stdlib Require Import ZArith Lia SpecFloat.
From S2P Require Import Prelude Orders Cell Instances Dag DagFacts ConflictGraph ConflictGraphFacts Blocks Storage SledInstances Util Sleet SleetFacts SleetProperties.

Section witnesses.
#[local] Existing Instance plain_crypto.
#[local] Existing Instance canonical_order.
#[local] Existing Instance release_profile.
#[local] Existing Instance map_sled.
#[local] Existing Instance map_sled_laws.
#[local] Existing Instance num_tx_codec.
#[local] Existing Instance num_tx_codec_laws.
#[local] Existing Instance keep_order.

Definition g0 : Cell := cell_new ∅ [pay 100 [1%Z]; pay 50 [2%Z]].
Definition tx_a : Tx := tx_new [] (cell_new {[ spend (hash g0) 0; spend (hash g0) 1 ]}
  [pay 149 [3%Z]]).
Definition tx_b : Tx := tx_new [] (cell_new {[ spend (hash g0) 1 ]} [pay 49 [4%Z]]).
Definition tx_c : Tx := tx_new [] (cell_new {[ spend (hash g0) 0 ]} [pay 99 [5%Z]]).
Definition tx_d : Tx := tx_new [tx_hash tx_a]
  (cell_new {[ spend (tx_hash tx_a) 0 ]} [pay 148 [6%Z]]).

Definition me : Id := [1%Z].
Definition my_ip : SocketAddr := mkSocketAddr [127; 0; 0; 1]%Z 1234.
Definition validators : gmap Id (SocketAddr * Weight) := {[ me := (my_ip, f64_of_u64 1) ]}.

(** The states of the run. *)
Definition s_empty : Sleet := sleet_new me my_ip (∅ : gmap bytes bytes) [].
Definition s_live : Sleet := (handle_live_committee validators {[ hash g0 := g0 ]} s_empty).1.
Definition s_a : Sleet := (on_receive_tx tx_a s_live).1.
Definition s_ad : Sleet := (on_receive_tx tx_d s_a).1.
Definition s_adb : Sleet := (on_receive_tx tx_b s_ad).1.
Definition s_ab : Sleet := (on_receive_tx tx_b s_a).1.
Definition s_abc : Sleet := (on_receive_tx tx_c s_ab).1.

(** [tx_a] with eleven successful votes. *)
Definition vote (h : TxHash) (G : ConflictGraph) : ConflictGraph :=
  (update_conflict_set h 1 0 G).1.
Definition s_voted : Sleet :=
  set_conflict_graph (Nat.iter 12 (vote (tx_hash tx_a)) (sl_conflict_graph s_ad)) s_ad.

Lemma s_live_wf : sleet_wf s_live.
Proof.
  assert (sl_known_txs s_live = (∅ : gmap bytes bytes)) as Hdb by (vm_compute; reflexivity).
  assert (sl_dag s_live = dag_new) as Hd by (vm_compute; reflexivity).
  assert (∃ ids, sl_conflict_graph s_live = conflict_graph_new ids) as [ids HG].
  { exists (produced_ids g0). vm_compute. reflexivity. }
  split; rewrite ?Hdb, ?Hd, ?HG.
  - apply dag_new_wf.
  - apply conflict_graph_new_wf.
  - intros h v Hv. exfalso. clear -Hv. cbn in Hv. rewrite lookup_empty in Hv. discriminate.
  - vm_compute. set_solver.
  - vm_compute. set_solver.
Qed.

Lemma receive_wf s tx :
  sleet_wf s → has_coinbase_output (tx_cell tx) = false → txs s !! tx_hash tx = None →
  receivable s tx → sleet_wf (on_receive_tx tx s).1.
Proof.
  intros Hwf Hcb Hn Hr.
  destruct (on_receive_tx_new s tx Hwf Hcb (or_introl Hn) Hr) as (s' & -> & _ & Hwf').
  exact Hwf'.
Qed.

Ltac evaluate := first [vm_compute; reflexivity | apply (bool_decide_unpack _); vm_compute; exact I].

Lemma s_a_wf : sleet_wf s_a.
Proof. apply receive_wf; [apply s_live_wf|evaluate..]. Qed.
Lemma s_ad_wf : sleet_wf s_ad.
Proof. apply receive_wf; [apply s_a_wf|evaluate..]. Qed.
Lemma s_adb_wf : sleet_wf s_adb.
Proof. apply receive_wf; [apply s_ad_wf|evaluate..]. Qed.
Lemma s_ab_wf : sleet_wf s_ab.
Proof. apply receive_wf; [apply s_a_wf|evaluate..]. Qed.
Lemma s_abc_wf : sleet_wf s_abc.
Proof. apply receive_wf; [apply s_ab_wf|evaluate..]. Qed.

Lemma s_voted_wf : sleet_wf s_voted.
Proof.
  assert (∀ n, cg_wf (Nat.iter n (vote (tx_hash tx_a)) (sl_conflict_graph s_ad)) ∧
    cells (Nat.iter n (vote (tx_hash tx_a)) (sl_conflict_graph s_ad)) =
      cells (sl_conflict_graph s_ad)) as Hn.
  { induction n as [|n [IH IHc]]; [split; [apply s_ad_wf|done]|].
    change (Nat.iter (S n) ?f ?x) with (f (Nat.iter n f x)). unfold vote at 1 3.
    destruct (wf_cs_Some _ (tx_hash tx_a) (tx_cell tx_a) IH) as [cs Hcs].
    { rewrite IHc. evaluate. }
    pose proof (update_conflict_set_spec _ _ _ 1 0 IH Hcs) as Hu. rewrite Hu.
    split; [|done]. by eapply update_conflict_set_wf. }
  destruct (Hn 12) as [Hw Hc]. apply set_conflict_graph_wf; [apply s_ad_wf|exact Hw|exact Hc].
Qed.

(** Spends an output of [tx_a] without naming it as a parent. *)
Definition tx_orphan : Tx := tx_new [] (tx_cell tx_d).

Lemma receive_tx_spec_witness :
  (on_receive_tx tx_d s_live).2 = Err SleetError.MissingAncestry ∧
  (∃ G', on_receive_tx tx_orphan s_live =
      (set_conflict_graph G' s_live, Err (SleetError.Graph GraphError.UndefinedCell)) ∧
    tx_hash tx_orphan ∈ dom (cells G')) ∧
  ∃ s', on_receive_tx tx_d s_a = (s', Ok true) ∧ recorded s_a tx_d s' ∧ sleet_wf s'.
Proof.
  split_and!.
  - destruct (receive_tx_spec s_live tx_d s_live_wf) as (_ & _ & H & _).
    rewrite H; [reflexivity|split; [|left]; evaluate|].
    intros Hp. destruct (Hp (tx_hash tx_a)) as [Hp'|Hp']; [evaluate| |];
      revert Hp'; evaluate.
  - destruct (receive_tx_spec s_live tx_orphan s_live_wf) as (_ & _ & _ & _ & H & _).
    destruct H as (G' & HG & Hc & _); [split; [|left]; evaluate| |evaluate|evaluate|].
    + intros p Hp. apply elem_of_nil in Hp. contradiction.
    + exists G'. split; [exact HG|]. rewrite Hc, dom_insert_L. set_solver.
  - destruct (receive_tx_spec s_a tx_d s_a_wf) as (_ & _ & _ & _ & _ & _ & H).
    destruct H as (s' & H1 & H2 & H3); [split; [|left]; evaluate| |evaluate..|].
    + intros p Hp. left. apply list_elem_of_singleton in Hp as ->. evaluate.
    + exists s'. split; [exact H1|]. split; [exact H2|]. apply H3. evaluate.
Defined.

Lemma acceptance_is_ancestral_finality_witness :
  ∃ b memo', is_accepted s_voted (tx_hash tx_d) = Ok b ∧
    is_accepted_memo s_voted (tx_hash tx_d) ∅ = Ok (b, memo').
Proof.
  destruct (acceptance_is_ancestral_finality s_voted (tx_hash tx_d) ∅)
    as (b & memo' & H1 & _ & H2 & _).
  - exact s_voted_wf.
  - evaluate.
  - intros h b Hb. rewrite lookup_empty in Hb. discriminate Hb.
  - exists b, memo'. split; [exact H1|exact H2].
Defined.

Lemma newly_accepted_exact_witness :
  (compute_accepted_txs (tx_hash tx_d) s_voted).2 = Ok [tx_hash tx_a] ∧
  ∃ s' new, compute_accepted_txs (tx_hash tx_d) s_voted = (s', Ok new) ∧ sleet_wf s' ∧
    ∀ t, t ∈ new → status_is s' t TxStatus.Accepted.
Proof.
  split; [evaluate|].
  destruct (newly_accepted_exact s_voted (tx_hash tx_d)) as (s' & new & H1 & H2 & _ & _ & H3 & _).
  - exact s_voted_wf.
  - split; evaluate.
  - evaluate.
  - exists s', new. split; [exact H1|]. split; [exact H2|exact H3].
Defined.

Lemma prune_keeps_undecided_witness :
  ∃ s' F, prune_at_accepted_frontier s_voted = (s', Ok tt) ∧ sleet_wf s' ∧
    sl_accepted_frontier s' = F.
Proof.
  destruct (prune_keeps_undecided s_voted s_voted_wf) as (s' & F & H1 & H2 & H3 & _).
  exists s', F. split; [exact H1|]. split; [exact H2|exact H3].
Defined.

Lemma select_parents_sound_and_complete_witness :
  select_parents NPARENTS s_adb = Ok [tx_hash tx_d] ∧
  ∃ ps, select_parents NPARENTS s_adb = Ok ps ∧ NoDup ps ∧ length ps ≤ NPARENTS.
Proof.
  split; [evaluate|].
  destruct (select_parents_sound_and_complete s_adb NPARENTS) as (ps & H1 & H2 & H3 & _).
  - exact s_adb_wf.
  - vm_compute. lia.
  - exists ps. split; [exact H1|]. split; [exact H2|exact H3].
Defined.

Lemma remove_conflicts_safe_witness :
  ∃ s' r, remove_conflicts tx_b s_adb = (s', r) ∧ sleet_wf s' ∧
    (status_is s' (tx_hash tx_a) TxStatus.Rejected ∨
     status_is s' (tx_hash tx_a) TxStatus.Removed).
Proof.
  destruct (remove_conflicts_safe s_adb tx_b) as (s' & r & H1 & H2 & _ & _ & H3 & _).
  - exact s_adb_wf.
  - evaluate.
  - intros h c' _ Hc _. apply elem_of_dom_2 in Hc. revert h Hc.
    change (dom (cells (sl_conflict_graph s_adb)) ⊆ dom (dag_g (sl_dag s_adb))). evaluate.
  - exists s', r. split; [exact H1|]. split; [exact H2|].
    apply (H3 (tx_hash tx_a) (tx_cell tx_a)); [evaluate|evaluate|].
    exists (out_id (hash g0) 1). split; evaluate.
Defined.

Lemma query_incomplete_resets_witness :
  ∃ s', handle_query_incomplete tx_d [] s_voted = (s', Ok tt) ∧ sleet_wf s' ∧
    status_is s' (tx_hash tx_d) TxStatus.Queried.
Proof.
  destruct (query_incomplete_resets s_voted tx_d []) as (s' & H1 & [H2 H3 _ _ _]).
  - exact s_voted_wf.
  - evaluate.
  - exists s'. split; [exact H1|]. split; [exact H2|exact H3].
Defined.

(** [tx_d] is stored as accepted, and as queried after its own query. *)
Definition s_accepted : Sleet :=
  (on_db (set_status (tx_hash tx_d) TxStatus.Accepted) s_voted).1.
Definition yes : list Response := [QueryTxAck me (tx_hash tx_d) true].

Lemma query_complete_stores_queried_witness :
  status_is s_accepted (tx_hash tx_d) TxStatus.Accepted ∧
  status_is (handle_query_complete tx_d yes s_accepted).1 (tx_hash tx_d) TxStatus.Queried.
Proof.
  split; [evaluate|].
  apply (query_complete_stores_queried s_accepted tx_d yes).
  destruct (handle_query_complete tx_d yes s_accepted) as [s' r] eqn:Heq.
  assert (r = Ok tt) as ->; [|reflexivity].
  change r with (s', r).2. rewrite <- Heq. evaluate.
Defined.

(** [tx_b] inherits the preference for [tx_a]; when [tx_c] is accepted, [tx_a]
    leaves, and [tx_b] still prefers it. *)
Definition s_gone : Sleet := (remove_conflicts tx_c s_abc).1.

Lemma s_gone_wf : sleet_wf s_gone.
Proof.
  destruct (remove_conflicts_spec s_abc tx_c) as (s' & r & Hr & Hwf & _).
  - exact s_abc_wf.
  - evaluate.
  - intros h c' _ Hc _. apply elem_of_dom_2 in Hc. revert h Hc.
    change (dom (cells (sl_conflict_graph s_abc)) ⊆ dom (dag_g (sl_dag s_abc))). evaluate.
  - unfold s_gone. by rewrite Hr.
Qed.

Lemma dangling_preference_panics_witness :
  (handle_query_complete tx_b [QueryTxAck me (tx_hash tx_b) true] s_gone).2 = Panic.
Proof.
  destruct (cg_cs (sl_conflict_graph s_gone) !! tx_hash tx_b) as [cs|] eqn:Hcs;
    [|vm_compute in Hcs; discriminate].
  assert (pref cs = tx_hash tx_a) as Hp.
  { assert (pref <$> cg_cs (sl_conflict_graph s_gone) !! tx_hash tx_b = Some (tx_hash tx_a))
      as Hf by evaluate. rewrite Hcs in Hf. by injection Hf. }
  apply (dangling_preference_panics s_gone tx_b _ [(me, f64_of_u64 1, true)] cs 0).
  - exact s_gone_wf.
  - evaluate.
  - evaluate.
  - evaluate.
  - evaluate.
  - exact Hcs.
  - rewrite Hp. evaluate.
  - rewrite Hp. evaluate.
  - rewrite Hp. evaluate.
  - lia.
Defined.
Lemma root_no_ancestor (d : DAG TxHash) x y : dag_g d !! x = Some [] → ~ tc (parent_of d) x y.
Proof.
  intros Hx Ht. assert (∃ z, parent_of d x z) as (z & l & Hl & Hz).
  { inversion Ht; eauto. }
  rewrite Hx in Hl. injection Hl as <-. by apply not_elem_of_nil in Hz.
Qed.

End witnesses.

Section run.
#[local] Existing Instance short_crypto.
#[local] Existing Instance canonical_order.
#[local] Existing Instance release_profile.
#[local] Existing Instance map_sled.
#[local] Existing Instance map_sled_laws.
#[local] Existing Instance num_tx_codec.
#[local] Existing Instance num_tx_codec_laws.
#[local] Existing Instance keep_order.
Implicit Types (s : Sleet) (tx : Tx) (h a : TxHash).

(** A run of the handlers in which two double spends are accepted.  [second] and
    then a chain of twenty transactions above both [first] and [second] win their
    queries; the last one announces both as accepted, and both cells are sent to
    hail. *)
Definition root_cell : Cell := cell_new ∅ [pay 100 [1%Z]; pay 50 [2%Z]].
Definition first : Tx := tx_new [] (cell_new {[ spend (hash root_cell) 0; spend (hash root_cell) 1 ]}
  [pay 149 [3%Z]]).
Definition second : Tx := tx_new [] (cell_new {[ spend (hash root_cell) 1 ]} [pay 49 [4%Z]]).

Definition above (ps : list TxHash) (tx : Tx) : Tx :=
  tx_new ps (cell_new {[ spend (tx_hash tx) 0 ]} [pay 1 [6%Z]]).

Fixpoint chain (n : nat) (tx : Tx) : list Tx :=
  match n with
  | O => []
  | S n' => let c := above [tx_hash tx] tx in c :: chain n' c
  end.

Definition win (tx : Tx) : st Sleet SleetError.Error unit :=
  on_receive_tx tx;; handle_query_complete tx [QueryTxAck me (tx_hash tx) true].

Ltac evaluate := first [vm_compute; reflexivity | apply (bool_decide_unpack _); vm_compute; exact I].

(** Whether [win] meets its conditions, and that it keeps the invariant then. *)
Definition d_own s h a : Z := match conviction (sl_dag (with_chit s h)) a with Ok d => d | _ => 0 end.
Definition d_pref s h a : Z :=
  match cg_cs (sl_conflict_graph s) !! a with Some cs => d_own s h (pref cs) | None => 0%Z end.

Definition votableb s h a : bool :=
  match cg_cs (sl_conflict_graph s) !! a with
  | Some cs => is_ok (conviction (sl_dag (with_chit s h)) a) &&
      is_ok (conviction (sl_dag (with_chit s h)) (pref cs))
  | None => false
  end.

Definition winsb s tx : bool :=
  bool_decide (tx_hash tx ∈ dom (dag_g (sl_dag s))) &&
  bool_decide (dag_chits (sl_dag s) !! tx_hash tx ≠ Some 1%Z) &&
  match query_outcomes (sl_committee s) [QueryTxAck me (tx_hash tx) true] with
  | Ok outcomes => f64_ltb ALPHA (sum_outcomes outcomes)
  | _ => false
  end &&
  match dag_dfs s (tx_hash tx) with Ok l => forallb (votableb s (tx_hash tx)) l | _ => false end.

Record run_wf s : Prop := {
  rw_wf : sleet_wf s;
  rw_accepted : bounded_set_wf (sl_accepted_txs s);
  rw_live : bounded_wf (sl_live_cells s)
}.

Lemma winsb_wins s tx :
  run_wf s → winsb s tx = true →
  wins s tx [QueryTxAck me (tx_hash tx) true] (d_own s (tx_hash tx)) (d_pref s (tx_hash tx)).
Proof.
  intros [Hwf Ha Hl] Hw. unfold winsb in Hw.
  apply andb_prop in Hw as [Hw Hv]. apply andb_prop in Hw as [Hw Ho].
  apply andb_prop in Hw as [Hd%bool_decide_eq_true Hc%bool_decide_eq_true].
  split; [done..| |].
  - destruct (query_outcomes (sl_committee s) _) as [o| | |]; try done. by exists o.
  - intros a Hr. destruct (dag_dfs_spec s _ Hwf Hd) as (l & Hdl & _ & _ & Hin & _).
    rewrite Hdl in Hv. apply Hin in Hr. rewrite forallb_true_iff in Hv. specialize (Hv a Hr).
    unfold votableb in Hv. unfold votable, d_pref, d_own. cbn [sl_conflict_graph with_chit set_dag].
    destruct (cg_cs (sl_conflict_graph s) !! a) as [cs|]; [|done].
    apply andb_prop in Hv as [H1 H2]. exists cs.
    destruct (conviction _ a); try done. by destruct (conviction _ (pref cs)).
Qed.

Definition receivesb s tx : bool :=
  negb (has_coinbase_output (tx_cell tx)) && bool_decide (txs s !! tx_hash tx = None) &&
  bool_decide (receivable s tx).

Lemma receivesb_wf s tx :
  run_wf s → receivesb s tx = true →
  ∃ s', on_receive_tx tx s = (s', Ok true) ∧ run_wf s'.
Proof.
  intros [Hwf Ha Hl] Hr. unfold receivesb in Hr. apply andb_prop in Hr as [Hr Hi%bool_decide_eq_true].
  apply andb_prop in Hr as [Hcb%negb_true_iff Hn%bool_decide_eq_true].
  destruct (on_receive_tx_new s tx Hwf Hcb (or_introl Hn) Hi) as (s' & Heq & Hrec & Hwf').
  exists s'. split; [done|]. split; [done|by rewrite (rcv_rest _ _ _ Hrec)..].
Qed.

Fixpoint winnable (l : list Tx) s : bool :=
  match l with
  | [] => true
  | tx :: l' => receivesb s tx && winsb (on_receive_tx tx s).1 tx && winnable l' (win tx s).1
  end.

Lemma winnable_wf l s : run_wf s → winnable l s = true → run_wf (foreach l win s).1.
Proof.
  revert s. induction l as [|tx l IH]; intros s Hs Hl; [done|]. cbn [winnable] in Hl.
  apply andb_prop in Hl as [Hl Hl']. apply andb_prop in Hl as [Hr Hw].
  destruct (receivesb_wf s tx Hs Hr) as (s1 & H1 & Hs1). rewrite H1 in Hw.
  destruct (query_won s1 tx _ _ _ (winsb_wins s1 tx Hs1 Hw)) as (s2 & new & H2 & Hn).
  assert (win tx s = (s2, Ok tt)) as Hwin by (unfold win; by erewrite st_bind_Ok; [|exact H1]).
  rewrite Hwin in Hl'. rewrite foreach_cons. erewrite st_bind_Ok; [|exact Hwin].
  apply IH; [|done]. by split; eapply Hn.
Qed.

(** The state before the last query of the run. *)
Definition joint : Tx := above [tx_hash first; tx_hash second] first.
Definition top : Tx := above [tx_hash (default joint (list.last (chain 18 joint)))]
  (default joint (list.last (chain 18 joint))).
Definition s_root : Sleet :=
  (handle_live_committee validators {[ hash root_cell := root_cell ]} s_empty).1.
Definition s_ready : Sleet :=
  (on_receive_tx top (foreach (second :: joint :: chain 18 joint) win
    (on_receive_tx first s_root).1).1).1.

Lemma s_root_wf : run_wf s_root.
Proof.
  assert (sl_known_txs s_root = (∅ : gmap bytes bytes)) as Hdb by (vm_compute; reflexivity).
  assert (sl_dag s_root = dag_new) as Hd by (vm_compute; reflexivity).
  assert (∃ ids, sl_conflict_graph s_root = conflict_graph_new ids) as [ids HG].
  { exists (produced_ids root_cell). vm_compute. reflexivity. }
  assert (sl_accepted_txs s_root = bounded_set_new 3000) as Ha by reflexivity.
  assert (sl_live_cells s_root = (bounded_map_insert (E:=unit) (hash root_cell) root_cell
    (bounded_map_new 3000)).1) as Hl by (vm_compute; reflexivity).
  split.
  - split; rewrite ?Hdb, ?Hd, ?HG.
    + apply dag_new_wf.
    + apply conflict_graph_new_wf.
    + intros h v Hv. exfalso. clear -Hv. cbn in Hv. rewrite lookup_empty in Hv. discriminate.
    + cbn. set_solver.
    + cbn. set_solver.
  - rewrite Ha. apply bounded_set_new_wf. lia.
  - rewrite Hl. destruct (bounded_insert_spec (E:=unit) (bounded_map_new 3000) (hash root_cell)
      root_cell) as (m & -> & Hm & _); [apply bounded_new_wf; lia|exact Hm].
Qed.

Lemma s_ready_wf : run_wf s_ready.
Proof.
  destruct (receivesb_wf s_root first s_root_wf) as (s1 & H1 & Hs1); [vm_compute; reflexivity|].
  assert (run_wf (foreach (second :: joint :: chain 18 joint) win s1).1) as Hs2.
  { apply winnable_wf; [exact Hs1|]. change s1 with (s1, Ok (E:=SleetError.Error) true).1.
    rewrite <- H1. vm_compute. reflexivity. }
  destruct (receivesb_wf _ top Hs2) as (s3 & H3 & Hs3).
  { change s1 with (s1, Ok (E:=SleetError.Error) true).1. rewrite <- H1. vm_compute. reflexivity. }
  unfold s_ready. rewrite H1. cbn [fst]. rewrite H3. exact Hs3.
Qed.

Lemma s_ready_wins :
  wins s_ready top [QueryTxAck me (tx_hash top) true]
    (d_own s_ready (tx_hash top)) (d_pref s_ready (tx_hash top)).
Proof. apply winsb_wins; [apply s_ready_wf|vm_compute; reflexivity]. Qed.

Lemma dag_dfs_tc s h a l :
  sleet_wf s → h ∈ dom (dag_g (sl_dag s)) → dag_dfs s h = Ok l → a ∈ l → a ≠ h →
  tc (parent_of (sl_dag s)) h a.
Proof.
  intros Hwf Hh Hl Ha Hne. destruct (dag_dfs_spec s h Hwf Hh) as (l' & Hl' & _ & _ & Hr & _).
  rewrite Hl in Hl'. injection Hl' as <-. by apply Hr, rtc_tc in Ha as [->|].
Qed.

Definition ancestry (s : Sleet) (h : TxHash) : list TxHash :=
  match dag_dfs s h with Ok l => l | _ => [] end.
Lemma top_above (a : TxHash) :
  a ∈ ancestry s_ready (tx_hash top) → a ≠ tx_hash top →
  tc (parent_of (sl_dag s_ready)) (tx_hash top) a.
Proof.
  intros Ha. eapply dag_dfs_tc; [apply (rw_wf _ s_ready_wf)|evaluate| |exact Ha].
  vm_compute. reflexivity.
Qed.
Lemma top_above_first : tc (parent_of (sl_dag s_ready)) (tx_hash top) (tx_hash first).
Proof. apply top_above; evaluate. Qed.
Lemma top_above_second : tc (parent_of (sl_dag s_ready)) (tx_hash top) (tx_hash second).
Proof. apply top_above; evaluate. Qed.

(** [x] is a root of the DAG, undecided, with nineteen votes. *)
Lemma root_short s x :
  dag_g (sl_dag s) !! x = Some [] →
  (tx_status <$> txs s !! x) ∈ [Some TxStatus.Queried; Some TxStatus.Pending] →
  (λ cs, (last cs, cnt cs)) <$> cg_cs (sl_conflict_graph s) !! x = Some (x, 19%Z) →
  one_vote_short s x.
Proof.
  intros Hroot Hst Hcs. unfold one_vote_short, status_is.
  apply fmap_Some in Hcs as (cs & Hcs & [= Hl Hc]).
  assert (∀ st, st ∉ [TxStatus.Queried; TxStatus.Pending] →
    ~ ∃ tx, txs s !! x = Some tx ∧ tx_status tx = st) as Hno.
  { intros st Hst' (tx & Htx & <-). rewrite Htx in Hst. cbn in Hst. set_solver. }
  split_and!; [apply Hno; set_solver..| |].
  - exists cs. rewrite <- Hc. unfold BETA2. split_and!; [done|done|lia].
  - intros y Hy. by destruct (root_no_ancestor _ _ _ Hroot Hy).
Qed.
Lemma first_short : one_vote_short s_ready (tx_hash first).
Proof. apply root_short; evaluate. Qed.
Lemma second_short : one_vote_short s_ready (tx_hash second).
Proof. apply root_short; evaluate. Qed.


Lemma double_spends_both_accepted_witness :
  ∃ s' new, handle_query_complete top [QueryTxAck me (tx_hash top) true] s_ready = (s', Ok tt) ∧
    status_is s' (tx_hash first) TxStatus.Accepted ∧
    status_is s' (tx_hash second) TxStatus.Accepted ∧
    tx_hash first ∈ new ∧ tx_hash second ∈ new ∧
    sl_out s' = sl_out s_ready ++ [NotifyNewAccepted new].
Proof.
  destruct (double_spends_both_accepted s_ready top _ _ _ (tx_hash first) (tx_hash second)
    (tx_cell first) (tx_cell second) s_ready_wins top_above_first top_above_second)
    as (s' & new & csa & csb & H1 & _ & H2 & H3 & H4 & H5 & H6 & _).
  - evaluate.
  - evaluate.
  - evaluate.
  - exists (out_id (hash root_cell) 1). split; evaluate.
  - exact first_short.
  - exact second_short.
  - exists s', new. split; [exact H1|]. split; [exact H2|]. split; [exact H3|].
    split; [exact H4|]. split; [exact H5|exact H6].
Defined.

Definition both_run : st Sleet SleetError.Error unit :=
  let j := above [tx_hash first; tx_hash second] first in
  on_receive_tx first;; win second;; foreach (j :: chain 19 j) win.

Definition announced (s : Sleet) : list TxHash :=
  match list.last (sl_out s) with Some (NotifyNewAccepted hs) => hs | _ => [] end.
Definition sent_cells (s : Sleet) : list Cell :=
  match list.last (sl_out s) with Some (SendAcceptedCells cs) => cs | _ => [] end.

Example double_spend_run :
  let '(s, r) := both_run (handle_live_committee validators {[ hash root_cell := root_cell ]} s_empty).1 in
  let '(s', r') := handle_new_accepted (announced s) s in
  (is_ok r, is_ok r', bool_decide (tx_cell first ∈ sent_cells s'),
     bool_decide (tx_cell second ∈ sent_cells s')) = (true, true, true, true).
Proof. vm_compute. reflexivity. Qed.
End run.
