(* ===== verification/SleetBootstrap.v ===== *)
(** * SleetBootstrap.v: fetching the accepted ancestry
      (the handler of [FetchWithAncestry] in src/src/sleet/sleet.rs)

    The loop over the queue of hashes ends when the peers answer honestly, and
    fetches the whole ancestry then; a peer that answers with another transaction
    than the one asked for can keep it busy for ever. *)

From stdpp Require Import prelude gmap sets fin_sets list relations strings.
From Stdlib Require Import ZArith Lia SpecFloat.
From S2P Require Import Prelude Orders Cell Instances Dag DagFacts ConflictGraph ConflictGraphFacts Blocks Storage.
From S2P Require Import SledInstances Util Sleet SleetFacts SleetWitnesses.

(** The sum of a function over a list, and what one changed value does to it. *)
Lemma sum_list_with_change {A : Type} `{EqDecision A} (f g : A → nat) (l : list A) x :
  NoDup l → x ∈ l → (∀ y, y ≠ x → f y = g y) →
  sum_list_with f l + g x = sum_list_with g l + f x.
Proof.
  intros Hnd Hx Hfg. induction l as [|y l IH]; [by apply not_elem_of_nil in Hx|].
  apply NoDup_cons in Hnd as [Hy Hnd]. cbn. destruct (decide (y = x)) as [->|Hne].
  - assert (sum_list_with f l = sum_list_with g l) as ->; [|lia].
    clear IH Hx. induction l as [|z l IH]; [done|]. cbn. rewrite Hfg by set_solver.
    apply NoDup_cons in Hnd as [_ Hnd]. rewrite IH; [done|set_solver|done].
  - apply elem_of_cons in Hx as [?|Hx]; [done|]. specialize (IH Hnd Hx). rewrite (Hfg y) by done. lia.
Qed.

Section fetch.
Context `{Crypto, IterOrder, BuildProfile, SL : SledLaws, TC : TxCodecLaws}.
Implicit Types (s : Sleet) (h : TxHash) (tx : Tx) (db : Db) (q : list TxHash) (U : gset TxHash) (ps : list (Id * SocketAddr)).
Context (fetch : Id * SocketAddr → TxHash → option Tx).

(** The answer to a request, that of the first peer which has one. *)
Definition fetched_from ps h : option Tx := first_answer fetch ps h.

(** The peers answer with the transaction they were asked for. *)
Definition honest ps : Prop := ∀ h tx, fetched_from ps h = Some tx → tx_hash tx = h.

(** A finite set of hashes that holds the parents of all answers. *)
Definition ancestry_in U ps : Prop :=
  ∀ h tx p, h ∈ U → fetched_from ps h = Some tx → p ∈ tx_parents tx → p ∈ U.

(** The hashes that are still to be pushed. *)
Definition pushes ps db h : nat :=
  if decide (is_Some (known db !! h)) then 0
  else match fetched_from ps h with Some tx => length (tx_parents tx) | None => 0 end.
Definition to_push U ps db : nat := sum_list_with (pushes ps db) (elements U).

(** [h] is stored, or no peer has it. *)
Definition settled ps db h : Prop := is_Some (known db !! h) ∨ fetched_from ps h = None.

(** From [db] to [db']: only new transactions were added, answers of the peers whose
    parents are settled. *)
Record fetched ps db db' : Prop := {
  ft_wf : tx_db_wf db';
  ft_keeps : known db ⊆ known db';
  ft_new : ∀ h tx, known db' !! h = Some tx → known db !! h = None →
    fetched_from ps h = Some tx ∧ ∀ p, p ∈ tx_parents tx → settled ps db' p
}.

Lemma settled_mono ps db db' h : known db ⊆ known db' → settled ps db h → settled ps db' h.
Proof. intros Hsub [[tx Htx]|?]; [left|by right]. exists tx. by eapply lookup_weaken. Qed.

Lemma to_push_insert U ps db db' h tx :
  h ∈ U → known db !! h = None → fetched_from ps h = Some tx →
  known db' = <[h := tx]> (known db) →
  to_push U ps db' + length (tx_parents tx) = to_push U ps db.
Proof.
  intros HU Hn Hf Hk. unfold to_push.
  pose proof (sum_list_with_change (pushes ps db') (pushes ps db) (elements U) h) as Hsum.
  assert (pushes ps db h = length (tx_parents tx)) as Hh.
  { unfold pushes. rewrite Hn, decide_False by (by intros []). by rewrite Hf. }
  assert (pushes ps db' h = 0) as Hh'.
  { unfold pushes. rewrite Hk, lookup_insert_eq, decide_True by eauto. done. }
  rewrite Hh, Hh' in Hsum. rewrite Hsum; [lia|apply NoDup_elements|by apply elem_of_elements|].
  intros y Hy. unfold pushes. by rewrite Hk, lookup_insert_ne by done.
Qed.

Lemma fetched_trans ps db db1 db2 h tx :
  fetched ps db1 db2 → known db1 = <[h := tx]> (known db) → known db !! h = None →
  fetched_from ps h = Some tx → (∀ p, p ∈ tx_parents tx → settled ps db2 p) →
  fetched ps db db2.
Proof.
  intros [Hwf Hkeep Hnew] Hk Hn Hf Hp. split; [done| |].
  - etrans; [|exact Hkeep]. rewrite Hk. by apply insert_subseteq.
  - intros h' tx' Hs Hnone. destruct (decide (h' = h)) as [->|Hne].
    + assert (known db2 !! h = Some tx) as Hh.
      { eapply lookup_weaken; [|exact Hkeep]. by rewrite Hk, lookup_insert_eq. }
      assert (tx' = tx) as -> by congruence. done.
    + apply Hnew; [done|]. by rewrite Hk, lookup_insert_ne.
Qed.
(** What one round of the loop does. *)
Lemma fetch_round fuel h q s :
  tx_db_wf (sl_known_txs s) →
  fetch_with_ancestry (S fuel) fetch (h :: q) s =
    match decide (is_Some (known (sl_known_txs s) !! h)), fetched_from (sl_bootstrap_peers s) h with
    | left _, _ | right _, None => fetch_with_ancestry fuel fetch q s
    | right _, Some tx =>
        fetch_with_ancestry fuel fetch (q ++ tx_parents tx)
          (set_known_txs (insert_tx tx (sl_known_txs s)).1 s)
    end.
Proof.
  intros Hdb. cbn [fetch_with_ancestry]. rewrite gets_bind, is_known_tx_spec by done.
  cbn [unwrap_or_false]. case_decide as Hk.
  - by rewrite bool_decide_true.
  - rewrite bool_decide_false by done. rewrite gets_bind. unfold fetched_from.
    destruct (first_answer _ _ h) as [tx|]; [|done].
    destruct (insert_tx_spec (sl_known_txs s) tx Hdb) as (db' & old & Hi & _).
    erewrite st_bind_Ok; [|eapply ignore_Ok, zoom_Ok, Hi]. by rewrite Hi.
Qed.

Lemma fetch_loop fuel U q s :
  tx_db_wf (sl_known_txs s) → honest (sl_bootstrap_peers s) → ancestry_in U (sl_bootstrap_peers s) → (∀ h, h ∈ q → h ∈ U) →
  length q + to_push U (sl_bootstrap_peers s) (sl_known_txs s) < fuel →
  ∃ db', fetch_with_ancestry fuel fetch q s =
      (emit NotifyBootstrap (set_known_txs db' s), Ok tt) ∧
    fetched (sl_bootstrap_peers s) (sl_known_txs s) db' ∧ ∀ h, h ∈ q → settled (sl_bootstrap_peers s) db' h.
Proof.
  revert q s. induction fuel as [|fuel IH]; intros q s Hdb Hhon HU Hq Hf; [lia|].
  destruct q as [|h q].
  { exists (sl_known_txs s). split; [by destruct s|]. split; [split; [done|done|]|].
    - intros h tx ? ?. congruence.
    - intros h Hh. by apply not_elem_of_nil in Hh. }
  rewrite fetch_round by done. cbn [length] in Hf.
  destruct (decide (is_Some _)) as [Hk|Hk]; [|destruct (fetched_from (sl_bootstrap_peers s) h) as [tx|] eqn:Ha].
  1,3: destruct (IH q s) as (db' & Heq & Hft & Hs); [done..|set_solver|lia|]; exists db';
    split; [done|]; split; [done|]; intros h' [->|Hin]%elem_of_cons; [|by apply Hs].
  - eapply settled_mono; [apply Hft|]. by left.
  - by right.
  - destruct (insert_tx_spec (sl_known_txs s) tx Hdb) as (db1 & old & Hi & Hwf1 & Hk1).
    rewrite (Hhon h tx Ha) in Hk1. rewrite Hi. cbn [fst].
    assert (known (sl_known_txs s) !! h = None) as Hn by (by apply eq_None_not_Some).
    assert (h ∈ U) as HhU by (apply Hq; set_solver).
    pose proof (to_push_insert U (sl_bootstrap_peers s) _ db1 h tx HhU Hn Ha Hk1).
    destruct (IH (q ++ tx_parents tx) (set_known_txs db1 s)) as (db' & Heq & Hft & Hs);
      [done|done|done| |rewrite length_app; cbn; lia|].
    { intros h' [?|?]%elem_of_app; [apply Hq; set_solver|by eapply HU]. }
    exists db'. split; [done|].
    assert (fetched (sl_bootstrap_peers s) (sl_known_txs s) db') as Hft'.
    { eapply fetched_trans; [exact Hft|done..|]. intros p Hp. apply Hs. set_solver. }
    split; [done|]. intros h' [->|Hin]%elem_of_cons; [|apply Hs; set_solver].
    left. exists tx. eapply lookup_weaken; [|apply Hft]. cbn. by rewrite Hk1, lookup_insert_eq.
Qed.

(** With honest peers the loop ends and fetches the ancestry.  When the
    transactions that the peers can serve for the queue lie in a finite set closed
    under parents, a number of rounds that is fixed beforehand is enough: the
    handler then asks for another bootstrap round, and has changed the storage only,
    by adding answers of the peers.  Every hash of the queue and every parent of an
    added transaction is then stored, or no peer has it. *)
Lemma fetch_with_ancestry_bound U q s :
  tx_db_wf (sl_known_txs s) → honest (sl_bootstrap_peers s) → ancestry_in U (sl_bootstrap_peers s) → (∀ h, h ∈ q → h ∈ U) →
  ∃ n, ∀ fuel, n < fuel → ∃ db',
    fetch_with_ancestry fuel fetch q s =
      (emit NotifyBootstrap (set_known_txs db' s), Ok tt) ∧
    fetched (sl_bootstrap_peers s) (sl_known_txs s) db' ∧
    ∀ h, h ∈ q → settled (sl_bootstrap_peers s) db' h.
Proof.
  intros Hdb Hhon HU Hq.
  exists (length q + to_push U (sl_bootstrap_peers s) (sl_known_txs s)).
  intros fuel Hf. by apply (fetch_loop fuel U).
Qed.

(** A peer that answers with another transaction than the one asked for keeps the
    loop busy for ever: when the answer names the hash that was asked for as its
    parent, no number of rounds is enough. *)
Theorem lying_peer_blocks_bootstrap h tx s :
  tx_db_wf (sl_known_txs s) → known (sl_known_txs s) !! h = None →
  fetched_from (sl_bootstrap_peers s) h = Some tx → tx_hash tx ≠ h → tx_parents tx = [h] →
  ∀ fuel, (fetch_with_ancestry fuel fetch [h] s).2 = OutOfFuel.
Proof.
  intros Hdb Hn Ha Hne Hp fuel. revert s Hdb Hn Ha.
  induction fuel as [|fuel IH]; intros s Hdb Hn Ha; [done|].
  rewrite fetch_round by done. rewrite Ha, decide_False by (by rewrite Hn; intros []).
  destruct (insert_tx_spec (sl_known_txs s) tx Hdb) as (db1 & old & -> & Hwf1 & Hk1).
  rewrite Hp. apply IH; cbn; [done| |done]. by rewrite Hk1, lookup_insert_ne.
Qed.
End fetch.

(** ** Peers that run sleet *)
Section peers.
Context `{Crypto, IterOrder, BuildProfile, SL : SledLaws, TC : TxCodecLaws}.
Implicit Types (s : Sleet) (h : TxHash) (tx : Tx) (q : list TxHash).
(** The state of the peer at an address, and what it answers to [FetchTx]. *)
Context (peer : Id * SocketAddr → Sleet).
Definition serve (p : Id * SocketAddr) h : option Tx := handle_fetch_tx h (peer p).

Lemma first_answer_Some (fetch : Id * SocketAddr → TxHash → option Tx) ps h tx :
  first_answer fetch ps h = Some tx → ∃ p, p ∈ ps ∧ fetch p h = Some tx.
Proof.
  induction ps as [|p ps IH]; cbn; [done|]. destruct (fetch p h) eqn:Hp.
  - intros [= ->]. exists p. split; [by left|done].
  - intros (p' & ? & ?)%IH. exists p'. split; [by right|done].
Qed.

Lemma first_answer_None (fetch : Id * SocketAddr → TxHash → option Tx) ps h p :
  first_answer fetch ps h = None → p ∈ ps → fetch p h = None.
Proof.
  induction ps as [|p' ps IH]; cbn; [by intros _ ?%not_elem_of_nil|].
  destruct (fetch p' h) eqn:Hp; [done|]. intros Hn [->|Hin]%elem_of_cons; auto.
Qed.

Lemma serve_spec p h : tx_db_wf (sl_known_txs (peer p)) → serve p h = txs (peer p) !! h.
Proof.
  intros Hdb. unfold serve, handle_fetch_tx, txs. rewrite get_tx_spec by done.
  by destruct (known _ !! h).
Qed.

(** All parents of the transactions that the peers store. *)
Definition served_parents (ps : list (Id * SocketAddr)) : gset TxHash :=
  list_to_set (ps ≫= λ p, map_to_list (txs (peer p)) ≫= λ e : TxHash * Tx, tx_parents e.2).

(** C10: bootstrapping from peers that run sleet.  The loop ends after a number of rounds
    that their storage determines, asks for another round, and has only added
    transactions that one of the peers stores; every hash of the queue, and every
    parent of a transaction that was added, is then stored unless none of the peers
    has it. *)
Theorem fetch_from_peers_complete q s :
  let ps := sl_bootstrap_peers s in
  tx_db_wf (sl_known_txs s) → (∀ p, p ∈ ps → tx_db_wf (sl_known_txs (peer p))) →
  ∃ n, ∀ fuel, n < fuel → ∃ db',
    let s' := set_known_txs db' s in
    let stored h := is_Some (txs s' !! h) ∨ ∀ p, p ∈ ps → txs (peer p) !! h = None in
    fetch_with_ancestry fuel serve q s = (emit NotifyBootstrap s', Ok tt) ∧
    tx_db_wf db' ∧ txs s ⊆ txs s' ∧ (∀ h, h ∈ q → stored h) ∧
    ∀ h tx, txs s' !! h = Some tx → txs s !! h = None →
      (∃ p, p ∈ ps ∧ txs (peer p) !! h = Some tx) ∧ ∀ x, x ∈ tx_parents tx → stored x.
Proof.
  intros ps Hdb Hpeers.
  assert (∀ h tx, fetched_from serve ps h = Some tx →
    ∃ p, p ∈ ps ∧ txs (peer p) !! h = Some tx) as Hans.
  { intros h tx (p & Hp & Hs)%first_answer_Some. rewrite serve_spec in Hs by auto. eauto. }
  assert (∀ db' h, settled serve ps db' h → is_Some (known db' !! h) ∨
    ∀ p, p ∈ ps → txs (peer p) !! h = None) as Hset.
  { intros db' h [?|Hn]; [by left|right]. intros p Hp. rewrite <- serve_spec by auto.
    by eapply first_answer_None. }
  destruct (fetch_with_ancestry_bound serve (list_to_set q ∪ served_parents ps) q s) as [n Hn].
  - done.
  - intros h tx (p & Hp & Hs)%Hans. by eapply known_hash, Hs; auto.
  - intros h tx x _ (p & Hp & Hs)%Hans Hx. apply elem_of_union_r, elem_of_list_to_set.
    apply list_elem_of_bind. exists p. split; [|done]. apply list_elem_of_bind. exists (h, tx).
    split; [done|by apply elem_of_map_to_list].
  - intros h Hh. apply elem_of_union_l. by apply elem_of_list_to_set.
  - exists n. intros fuel Hf. destruct (Hn fuel Hf) as (db' & Heq & [Hwf Hkeep Hnew] & Hs).
    exists db'. split_and!; [done..| |]; [by intros h Hh%Hs; apply Hset|].
    intros h tx Htx Hno. destruct (Hnew h tx Htx Hno) as [Ha Hx]. split; [by apply Hans|].
    intros x Hin. by apply Hset, Hx.
Qed.
End peers.

(** ** Witnesses *)
Section bootstrap_witness.
#[local] Existing Instance plain_crypto.
#[local] Existing Instance canonical_order.
#[local] Existing Instance release_profile.
#[local] Existing Instance map_sled.
#[local] Existing Instance map_sled_laws.
#[local] Existing Instance num_tx_codec.
#[local] Existing Instance num_tx_codec_laws.

(** A new node with one peer, which stores [tx_a] and its child [tx_d]. *)
Definition newcomer : Sleet := sleet_new [9%Z] my_ip (∅ : gmap bytes bytes) [(me, my_ip)].

Lemma newcomer_db : tx_db_wf (sl_known_txs newcomer).
Proof. intros h v Hv. exfalso. clear -Hv. cbn in Hv. rewrite lookup_empty in Hv. discriminate Hv. Qed.

Lemma fetch_from_peers_complete_witness :
  ∃ fuel s', fetch_with_ancestry fuel (serve (λ _, s_ad)) [tx_hash tx_d] newcomer =
    (emit NotifyBootstrap s', Ok tt) ∧ is_Some (txs s' !! tx_hash tx_d) ∧
    is_Some (txs s' !! tx_hash tx_a).
Proof.
  destruct (fetch_from_peers_complete (λ _, s_ad) [tx_hash tx_d] newcomer) as [n Hn].
  - exact newcomer_db.
  - intros p _. apply s_ad_wf.
  - destruct (Hn (S n) ltac:(lia)) as (db' & Heq & Hwf & _ & Hq & Hnew).
    exists (S n), (set_known_txs db' newcomer). split; [exact Heq|].
    assert ((me, my_ip) ∈ sl_bootstrap_peers newcomer) as Hp by (by apply list_elem_of_singleton).
    destruct (Hq (tx_hash tx_d)) as [[tx Htx]|Hno]; [by apply list_elem_of_singleton| |].
    2: { specialize (Hno _ Hp). exfalso. apply (f_equal (λ o : option Tx, bool_decide (is_Some o))) in Hno.
         vm_compute in Hno. discriminate Hno. }
    split; [by exists tx|].
    assert (txs newcomer !! tx_hash tx_d = None) as Hfresh by (vm_compute; reflexivity).
    destruct (Hnew (tx_hash tx_d) tx Htx Hfresh) as [(p & _ & Hs) Hpar].
    assert (tx_parents <$> txs s_ad !! tx_hash tx_d = Some [tx_hash tx_a]) as Hd by (vm_compute; reflexivity).
    rewrite Hs in Hd. injection Hd as Hd.
    destruct (Hpar (tx_hash tx_a)) as [?|Hno]; [rewrite Hd; by apply list_elem_of_singleton|done|].
    specialize (Hno _ Hp). exfalso. apply (f_equal (λ o : option Tx, bool_decide (is_Some o))) in Hno.
    vm_compute in Hno. discriminate Hno.
Defined.

Lemma lying_peer_blocks_bootstrap_witness :
  (fetch_with_ancestry 100 (λ _ _, Some (tx_new [[7%Z]] (tx_cell tx_b))) [[7%Z]]
    newcomer).2 = OutOfFuel.
Proof.
  apply (lying_peer_blocks_bootstrap _ [7%Z] (tx_new [[7%Z]] (tx_cell tx_b)) newcomer).
  - exact newcomer_db.
  - vm_compute. reflexivity.
  - reflexivity.
  - apply (bool_decide_unpack _). vm_compute. exact I.
  - reflexivity.
Defined.
End bootstrap_witness.
