(* ===== verification/Triples.v ===== *)
(** * Triples.v: invariants of methods

    [triple I m Q] says that the method [m] keeps the invariant [I] on every
    branch, also when it fails or panics half way, and that what it returns
    satisfies [Q].  The rules follow the operations of the monad of Prelude.v; the
    tactic [keeps] applies them and looks up the methods it meets in the hint
    database [keeps].

    [ends I m] says that [m] runs out of fuel in no state that satisfies [I], and keeps
    [I]; the tactic [ending] works in the same way with the hint database [ends]. *)

From stdpp Require Import prelude list.
From S2P Require Import Prelude.

Create HintDb keeps.

Definition triple {S E A : Type} (I : S → Prop) (m : st S E A) (Q : A → Prop) : Prop :=
  ∀ s, I s → I (m s).1 ∧ ∀ a, (m s).2 = Ok a → Q a.

(** The method keeps the invariant, whatever it returns. *)
Abbreviation keep I m := (triple I m (λ _, True)).

Section rules.
Context {S E : Type} (I : S → Prop).

Lemma triple_weaken {A} (m : st S E A) (P Q : A → Prop) :
  triple I m P → (∀ a, P a → Q a) → triple I m Q.
Proof. intros Hm HPQ s Hs. destruct (Hm s Hs) as [? HP]. split; [done|]. eauto. Qed.

Lemma keep_triple {A} (m : st S E A) Q : triple I m Q → keep I m.
Proof. intros. by eapply triple_weaken. Qed.

Lemma triple_ret {A} (a : A) (Q : A → Prop) : Q a → triple (E:=E) I (mret a) Q.
Proof. intros HQ s Hs. split; [done|]. by intros ? [= <-]. Qed.

Lemma triple_bind {A B} (m : st S E A) (k : A → st S E B) (P : A → Prop) (Q : B → Prop) :
  triple I m P → (∀ a, P a → triple I (k a) Q) → triple I (m ≫= k) Q.
Proof.
  intros Hm Hk s Hs. unfold mbind, st_bind. destruct (Hm s Hs) as [Hs1 HP].
  destruct (m s) as [s1 [a|e| |]]; cbn in *; [by apply Hk, Hs1; apply HP|done..].
Qed.

Lemma triple_reads {A} (f : S → res E A) (Q : A → Prop) :
  (∀ s a, I s → f s = Ok a → Q a) → triple I (reads f) Q.
Proof. intros Hf s Hs. split; [done|]. cbn. eauto. Qed.

Lemma triple_gets {A} (f : S → A) (Q : A → Prop) :
  (∀ s, I s → Q (f s)) → triple (E:=E) I (gets f) Q.
Proof. intros Hf s Hs. split; [done|]. intros ? [= <-]. auto. Qed.

Lemma triple_of_res {A} (r : res E A) (Q : A → Prop) :
  (∀ a, r = Ok a → Q a) → triple I (of_res r) Q.
Proof. intros Hr s Hs. by split. Qed.

Lemma triple_throw {A} (e : E) (Q : A → Prop) : triple I (throw e) Q.
Proof. intros s Hs. split; [done|]. discriminate. Qed.

Lemma triple_panic {A} (Q : A → Prop) : triple (E:=E) I panic Q.
Proof. intros s Hs. split; [done|]. discriminate. Qed.

Lemma triple_modify (f : S → S) (Q : unit → Prop) :
  (∀ s, I s → I (f s)) → Q tt → triple (E:=E) I (modify f) Q.
Proof. intros Hf HQ s Hs. split; [by apply Hf|]. by intros [] _. Qed.

Lemma triple_foreach {X} (l : list X) (body : X → st S E unit) :
  (∀ x, x ∈ l → keep I (body x)) → keep I (foreach l body).
Proof.
  induction l as [|x l IH]; intros Hb; [by apply triple_ret|]. cbn [foreach].
  eapply triple_bind; [apply Hb; by left|]. intros _ _. apply IH. intros y Hy. apply Hb. by right.
Qed.

Lemma triple_for_acc {X A} (l : list X) (body : X → A → st S E A) (Q : A → Prop) a :
  Q a → (∀ x b, x ∈ l → Q b → triple I (body x b) Q) → triple I (for_acc l body a) Q.
Proof.
  revert a. induction l as [|x l IH]; intros a Ha Hb; [by apply triple_ret|]. cbn [for_acc].
  eapply triple_bind; [apply Hb; [by left|done]|]. intros b HQ. apply IH; [done|].
  intros y c Hy. apply Hb. by right.
Qed.

Lemma triple_zoom {T F A} (get : S → T) put (conv : F → E) (J : T → Prop) (m : st T F A) Q :
  (∀ s, I s → J (get s)) → (∀ s t, I s → J t → I (put t s)) →
  triple J m Q → triple I (zoom get put conv m) Q.
Proof.
  intros HJ Hput Hm s Hs. unfold zoom. destruct (Hm (get s) (HJ s Hs)) as [Ht HQ].
  destruct (m (get s)) as [t r]. cbn in *. split; [by apply Hput|].
  intros a Ha. apply HQ. by apply map_err_Ok_inv in Ha.
Qed.

Lemma triple_catch {F A B} (m : st S E A) (k : res E A → st S F B) (P : A → Prop) (Q : B → Prop) :
  triple I m P → (∀ r, (∀ a, r = Ok a → P a) → triple I (k r) Q) → triple I (catch m k) Q.
Proof.
  intros Hm Hk s Hs. unfold catch. destruct (Hm s Hs) as [Hs1 HP].
  destruct (m s) as [s1 r]. cbn in *. specialize (Hk r HP s1 Hs1).
  destruct r; try done; (split; [done|discriminate]).
Qed.

Lemma triple_unwrap_st {F A} (m : st S E A) (Q : A → Prop) :
  triple I m Q → triple I (unwrap_st (F:=F) m) Q.
Proof.
  intros Hm s Hs. unfold unwrap_st. destruct (Hm s Hs) as [Hs1 HQ].
  destruct (m s) as [s1 r]. cbn in *. split; [done|]. intros a Ha. apply HQ. by destruct r; cbn in Ha; simplify_eq.
Qed.

(** What a run leaves behind. *)
Lemma triple_run {A} (m : st S E A) Q s s' r : triple I m Q → I s → m s = (s', r) → I s'.
Proof. intros Hm Hs Heq. destruct (Hm s Hs) as [Hi _]. by rewrite Heq in Hi. Qed.
End rules.

Lemma triple_ignore {S E F A} (I : S → Prop) (m : st S E A) : keep I m → keep I (ignore (F:=F) m).
Proof. intros Hm. eapply triple_catch; [exact Hm|]. intros r _. by apply triple_ret. Qed.

(** Apply the rules for methods whose results do not matter. *)
Ltac keeps :=
  repeat first
    [ solve [eauto 2 with keeps]
    | solve [eapply keep_triple; eauto 2 with keeps]
    | match goal with
      | |- triple _ (mbind _ _) _ => eapply (triple_bind _ _ _ (λ _, True)); [|intros ? _]
      | |- triple _ (mret _) _ => by apply triple_ret
      | |- triple _ (gets _) _ => by apply triple_gets
      | |- triple _ (reads _) _ => by apply triple_reads
      | |- triple _ (of_res _) _ => by apply triple_of_res
      | |- triple _ (throw _) _ => apply triple_throw
      | |- triple _ panic _ => apply triple_panic
      | |- triple _ (foreach _ _) _ => apply triple_foreach; intros ? _
      | |- triple _ (for_acc _ _ _) _ => apply triple_for_acc; [done|intros ? ? _ _]
      | |- triple _ (ignore _) _ => apply triple_ignore
      | |- triple _ (unwrap_st _) _ => apply triple_unwrap_st
      | |- triple _ (catch _ _) _ => eapply (triple_catch _ _ _ (λ _, True)); [|intros ? _]
      | |- triple _ (if ?b then _ else _) _ => destruct b
      | |- triple _ (match ?x with _ => _ end) _ => destruct x
      end ].

(** ** Termination *)
Create HintDb ends.

Definition ends {S E A : Type} (I : S → Prop) (m : st S E A) : Prop :=
  ∀ s, I s → I (m s).1 ∧ (m s).2 ≠ OutOfFuel.

(** The same for a computation without state. *)
Abbreviation finishes r := (r ≠ OutOfFuel).

Lemma finishes_bind {E A B} (r : res E A) (k : A → res E B) :
  finishes r → (∀ a, finishes (k a)) → finishes (r ≫= k).
Proof. intros Hr Hk. destruct r; [apply Hk|done..]. Qed.

Lemma finishes_map_err {E F A} (f : E → F) (r : res E A) : finishes r → finishes (map_err f r).
Proof. by destruct r. Qed.

Lemma finishes_unwrap_res {E F A} (r : res E A) : finishes r → finishes (unwrap_res (F:=F) r).
Proof. by destruct r. Qed.

Lemma finishes_all_res {E A} (f : A → res E bool) l :
  (∀ x, finishes (f x)) → finishes (all_res f l).
Proof.
  intros Hf. induction l as [|x l IH]; [done|]. cbn. apply finishes_bind; [done|]. by intros [].
Qed.

Lemma finishes_try_map {E A B} (f : A → res E B) l :
  (∀ x, finishes (f x)) → finishes (try_map f l).
Proof.
  intros Hf. induction l as [|x l IH]; [done|]. cbn. apply finishes_bind; [done|]. intros y.
  by apply finishes_bind.
Qed.

Section ending.
Context {S E : Type} (I : S → Prop).

Lemma ends_run {A} (m : st S E A) s : ends I m → I s → finishes (m s).2.
Proof. intros Hm Hs. by destruct (Hm s Hs). Qed.

Lemma ends_ret {A} (a : A) : ends (E:=E) I (mret a).
Proof. by intros s Hs. Qed.

Lemma ends_bind {A B} (m : st S E A) (k : A → st S E B) :
  ends I m → (∀ a, ends I (k a)) → ends I (m ≫= k).
Proof.
  intros Hm Hk s Hs. unfold mbind, st_bind. destruct (Hm s Hs) as [Hs1 Hr].
  destruct (m s) as [s1 [a|e| |]]; cbn in *; [by apply Hk|done..].
Qed.

Lemma ends_gets {A} (f : S → A) : ends (E:=E) I (gets f).
Proof. by intros s Hs. Qed.

Lemma ends_reads {A} (f : S → res E A) : (∀ s, I s → finishes (f s)) → ends I (reads f).
Proof. intros Hf s Hs. split; [done|]. by apply Hf. Qed.

Lemma ends_of_res {A} (r : res E A) : finishes r → ends I (of_res r).
Proof. by intros Hr s Hs. Qed.

Lemma ends_modify (f : S → S) : (∀ s, I s → I (f s)) → ends (E:=E) I (modify f).
Proof. intros Hf s Hs. split; [by apply Hf|done]. Qed.

Lemma ends_foreach {X} (l : list X) (body : X → st S E unit) :
  (∀ x, ends I (body x)) → ends I (foreach l body).
Proof.
  intros Hb. induction l as [|x l IH]; [apply ends_ret|]. cbn [foreach]. by apply ends_bind.
Qed.

Lemma ends_for_acc {X A} (l : list X) (body : X → A → st S E A) a :
  (∀ x b, ends I (body x b)) → ends I (for_acc l body a).
Proof.
  intros Hb. revert a. induction l as [|x l IH]; intros a; [apply ends_ret|]. cbn [for_acc].
  by apply ends_bind.
Qed.

Lemma ends_zoom {T F A} (get : S → T) put (conv : F → E) (J : T → Prop) (m : st T F A) :
  (∀ s, I s → J (get s)) → (∀ s t, I s → J t → I (put t s)) →
  ends J m → ends I (zoom get put conv m).
Proof.
  intros HJ Hput Hm s Hs. unfold zoom. destruct (Hm (get s) (HJ s Hs)) as [Ht Hr].
  destruct (m (get s)) as [t r]. cbn in *. split; [by apply Hput|by apply finishes_map_err].
Qed.

Lemma ends_catch {F A B} (m : st S E A) (k : res E A → st S F B) :
  ends I m → (∀ r, ends I (k r)) → ends I (catch m k).
Proof.
  intros Hm Hk s Hs. unfold catch. destruct (Hm s Hs) as [Hs1 Hr].
  destruct (m s) as [s1 [a|e| |]]; cbn in *; [by apply Hk..|done|done].
Qed.

Lemma ends_unwrap_st {F A} (m : st S E A) : ends I m → ends I (unwrap_st (F:=F) m).
Proof.
  intros Hm s Hs. unfold unwrap_st. destruct (Hm s Hs) as [Hs1 Hr].
  destruct (m s) as [s1 r]. cbn in *. split; [done|]. by apply finishes_unwrap_res.
Qed.
End ending.

Lemma ends_ignore {S E F A} (I : S → Prop) (m : st S E A) : ends I m → ends I (ignore (F:=F) m).
Proof. intros Hm. apply ends_catch; [done|]. intros r. apply ends_ret. Qed.

Ltac ending :=
  repeat first
    [ solve [eauto 2 with ends]
    | match goal with
      | |- ends _ (mbind _ _) => apply ends_bind; [|intros ?]
      | |- ends _ (mret _) => apply ends_ret
      | |- ends _ (gets _) => apply ends_gets
      | |- ends _ (reads _) => apply ends_reads; intros ? ?
      | |- ends _ (of_res _) => apply ends_of_res
      | |- ends _ (throw _) => by intros ? ?
      | |- ends _ panic => by intros ? ?
      | |- ends _ (modify _) => by apply ends_modify
      | |- ends _ (foreach _ _) => apply ends_foreach; intros ?
      | |- ends _ (for_acc _ _ _) => apply ends_for_acc; intros ? ?
      | |- ends _ (ignore _) => apply ends_ignore
      | |- ends _ (unwrap_st _) => apply ends_unwrap_st
      | |- ends _ (catch _ _) => apply ends_catch; [|intros ?]
      | |- ends _ (if ?b then _ else _) => destruct b
      | |- ends _ (match ?x with _ => _ end) => destruct x
      | |- finishes (mbind _ _) => apply finishes_bind; [|intros ?]
      | |- finishes (map_err _ _) => apply finishes_map_err
      | |- finishes (unwrap_res _) => apply finishes_unwrap_res
      | |- finishes (all_res _ _) => apply finishes_all_res; intros ?
      | |- finishes (try_map _ _) => apply finishes_try_map; intros ?
      | |- finishes (if ?b then _ else _) => destruct b
      | |- finishes (match ?x with _ => _ end) => destruct x
      | |- finishes (Ok _) => discriminate
      | |- finishes (Err _) => discriminate
      | |- finishes Panic => discriminate
      end ].
