(* ===== verification/SleetMachine.v ===== *)
(** * SleetMachine.v: sleet as a state machine
      (the handlers of src/src/sleet/sleet.rs)

    A step of the machine is a message: any handler of the actor with any content,
    and any response to a request it has sent.  The invariant holds after every
    sequence of steps, also when a handler failed or panicked half way. *)

From stdpp Require Import prelude gmap sets fin_sets list relations strings.
From Stdlib Require Import ZArith Lia SpecFloat.
From S2P Require Import Prelude Orders Cell Instances Dag ConflictGraph Blocks Storage SledInstances Util Sleet SleetFacts SleetProperties SleetWitnesses Triples.

Lemma submseteq_NoDup {A} (l k : list A) : l ⊆+ k → NoDup k → NoDup l.
Proof. intros [k' ->]%submseteq_Permutation Hk. by apply NoDup_app in Hk as [? _]. Qed.

(** ** The counters of the conflict sets *)
Section counters.
Context `{Crypto, IterOrder, BuildProfile}.
Implicit Types (G : ConflictGraph) (cs : ConflictSet CellHash).

Definition counter_ok cs : Prop := (0 ≤ cnt cs ≤ BETA2)%Z.
Definition counters_ok G : Prop := ∀ h cs, cg_cs G !! h = Some cs → counter_ok cs.

Lemma counters_insert G h cs : counters_ok G → counter_ok cs → counters_ok (set_cs (<[h := cs]> (cg_cs G)) G).
Proof. intros HG Hc h' cs'. cbn. rewrite lookup_insert_Some. intros [[_ <-]|[_ ?]]; [done|by eapply HG]. Qed.

Lemma vertex_update_keeps f id : keep counters_ok (vertex_update f id).
Proof. intros G HG. unfold vertex_update. by case_match. Qed.
Hint Resolve vertex_update_keeps : keeps.

Lemma append_keeps ids : keep counters_ok (append ids).
Proof. apply triple_foreach. intros g _ G HG. cbn. destruct (vertices G !! g); split; done. Qed.

Lemma add_conflict_keeps h ch own :
  counter_ok own → triple counters_ok (add_conflict h ch own) counter_ok.
Proof.
  intros Ho G HG. unfold add_conflict. destruct (cg_cs G !! ch) as [cs|] eqn:Hcs; [|done].
  split; [apply counters_insert; [done|exact (HG _ _ Hcs)]|]. cbn. by intros ? [= <-].
Qed.

Lemma inherit_keeps confl own :
  counter_ok own → triple counters_ok (inherit confl own) counter_ok.
Proof.
  intros Ho. unfold inherit. destruct (_ <? _)%nat; [|by apply triple_ret].
  eapply triple_bind; [by apply (triple_reads _ _ (λ _, True))|]. intros first _.
  eapply triple_bind; [|intros cs Hcs; apply triple_ret; exact Hcs].
  apply triple_reads. intros G cs HG. destruct (cg_cs G !! first) as [cs'|] eqn:Hf; cbn; [|done].
  intros [= <-]. exact (HG _ _ Hf).
Qed.

Lemma insert_cell_keeps c : keep counters_ok (insert_cell c).
Proof.
  unfold insert_cell. eapply (triple_bind _ _ _ (λ _, True)); [|intros _ _].
  { intros G HG. unfold cells_insert. by case_match. }
  eapply (triple_bind _ _ _ (λ _, True)); [by apply triple_of_res|intros cids _].
  eapply (triple_bind _ _ _ (λ _, True)); [by apply triple_of_res|intros pids _].
  eapply (triple_bind _ _ _ (λ _, True)); [|intros confl _].
  { apply triple_for_acc; [done|]. intros id confl _ _ G HG. unfold spend_input. by case_match. }
  eapply (triple_bind _ _ _ (λ _, True)); [|intros _ _].
  { apply triple_foreach. intros id _. by apply triple_modify. }
  eapply (triple_bind _ _ _ (λ _, True)); [by apply triple_modify|intros _ _].
  eapply (triple_bind _ _ _ counter_ok); [|intros own Hown].
  { apply triple_for_acc; [split; cbn; unfold BETA2; lia|]. intros ch own _. apply add_conflict_keeps. }
  eapply (triple_bind _ _ _ counter_ok); [by apply inherit_keeps|intros own' Hown'].
  apply triple_modify; [|done]. intros G HG. by apply counters_insert.
Qed.

Lemma remove_cell_keeps h : keep counters_ok (remove_cell h).
Proof.
  unfold remove_cell, remove_from_vertices, lift_cell. keeps.
  - apply triple_modify; [|done]. intros G HG. destruct (cg_cs G !! _) as [cs|] eqn:Hcs; [|done].
    apply counters_insert; [done|]. unfold counter_ok, remove_from_conflict_set.
    pose proof (HG _ _ Hcs). by repeat case_match.
  - by apply triple_modify.
  - apply triple_modify; [|done]. intros G HG h' cs. cbn. rewrite lookup_delete_Some. intros [_ ?].
    by eapply HG.
  - by apply triple_modify.
Qed.
Hint Resolve remove_cell_keeps : keeps.

Lemma accept_cell_keeps c : keep counters_ok (accept_cell c).
Proof.
  unfold accept_cell, lift_cell.
  eapply (triple_bind _ _ _ (λ _, True)); [by apply triple_of_res|intros pids _].
  eapply (triple_bind _ _ _ (λ _, True)); [keeps|intros _ _].
  eapply (triple_bind _ _ _ (λ o, ∀ cs, o = Some cs → counter_ok cs)).
  { apply triple_gets. intros G HG cs Hcs. by eapply HG. }
  intros [cs|] Hcs; [|keeps]. keeps. apply triple_modify; [|done].
  intros G HG. apply counters_insert; [done|]. exact (Hcs cs eq_refl).
Qed.

Lemma update_conflict_set_keeps h d1 d2 : keep counters_ok (update_conflict_set h d1 d2).
Proof.
  intros G HG. unfold update_conflict_set. case_match; [|done].
  destruct (cg_cs G !! h) as [cs|] eqn:Hcs; [|done]. pose proof (HG _ _ Hcs) as Hok.
  destruct (cset_update h d1 d2 cs) as [cs'|e| |] eqn:Hu; try done. split; [|done].
  apply counters_insert; [done|]. unfold cset_update in Hu. unfold counter_ok in *.
  assert (cnt (if (d2 <? d1)%Z then set_pref h cs else cs) = cnt cs) as Hc by (by destruct (d2 <? d1)%Z).
  destruct (negb _); [injection Hu as <-; cbn; by rewrite Hc|]. rewrite Hc in Hu.
  destruct (Z.ltb_spec (cnt cs) BETA2); [|injection Hu as <-; by rewrite Hc].
  apply res_bind_Ok_inv in Hu as (n & Hn & [= <-]). unfold u_add, u_norm in Hn.
  rewrite decide_True in Hn by (unfold in_range, BETA2 in *; lia). injection Hn as <-. cbn. lia.
Qed.

Lemma reset_count_keeps h : keep counters_ok (reset_count h).
Proof.
  intros G HG. unfold reset_count. case_match; [|done].
  destruct (cg_cs G !! h) as [cs|] eqn:Hcs; [|done]. split; [|done].
  apply counters_insert; [done|]. split; cbn; unfold BETA2; lia.
Qed.
End counters.

(** ** The chits of the DAG *)
Section chits.
Context `{Countable V}.
Implicit Types d : DAG V.

Definition chits_ok d : Prop := ∀ v c, dag_chits d !! v = Some c → c = 0%Z ∨ c = 1%Z.

Lemma set_chit_keeps v c : c = 0%Z ∨ c = 1%Z → keep chits_ok (set_chit v c).
Proof.
  intros Hc d Hd. unfold set_chit. repeat case_match; split; try done;
    intros v' c'; cbn; rewrite lookup_insert_Some; naive_solver.
Qed.

Lemma insert_vx_keeps v edges : keep chits_ok (insert_vx v edges).
Proof.
  unfold insert_vx. eapply (triple_bind _ _ _ (λ _, True)); [|intros _ _].
  { apply triple_modify; [|done]. intros d Hd. by case_match. }
  eapply (triple_bind _ _ _ (λ _, True)); [|intros _ _].
  { apply triple_foreach. intros u _ d Hd. cbn. by case_match. }
  eapply (triple_bind _ _ _ (λ _, True)); [|intros _ _; apply set_chit_keeps; by left].
  intros d Hd. by case_match.
Qed.

Lemma remove_vx_keeps v : keep chits_ok (remove_vx v).
Proof.
  unfold remove_vx. keeps; try (intros d Hd; cbn; by case_match); by apply triple_modify.
Qed.
End chits.

(** ** The invariant of the actor *)
Section machine.
Context `{Crypto, IterOrder, BuildProfile, SL : SledLaws, TC : TxCodecLaws, Rng}.
Implicit Types (s : Sleet) (h : TxHash) (tx : Tx).

(** The channels on which a query was answered late, and all that the state knows of. *)
Definition resolved (out : list Effect) : list nat :=
  omap (λ e, match e with Resolve c _ => Some c | _ => None end) out.
Definition channels s : list nat := (sl_pending_queries s).*2 ++ resolved (sl_out s).

(** [held] are the channels that a handler has taken out of the state, and [gone]
    those that may be dropped without an answer. *)
Record sleet_inv (gone : nat → bool) (held : list nat) s0 s : Prop := {
  si_db : tx_db_wf (sl_known_txs s);
  si_known : dom (known (sl_known_txs s0)) ⊆ dom (known (sl_known_txs s));
  si_counters : counters_ok (sl_conflict_graph s);
  si_chits : chits_ok (sl_dag s);
  si_live : bounded_wf (sl_live_cells s);
  si_accepted : bounded_set_wf (sl_accepted_txs s);
  si_channels : NoDup (held ++ channels s);
  si_fresh : ∀ c, c ∈ held ++ channels s → c < sl_next_channel s;
  si_all : ∀ c, c < sl_next_channel s → c ∈ held ++ channels s ∨ gone c = true;
  si_self : sl_node_id s = sl_node_id s0 ∧ sl_node_ip s = sl_node_ip s0 ∧
    sl_bootstrap_peers s = sl_bootstrap_peers s0
}.

Section invariant.
Context (gone : nat → bool) (s0 : Sleet) (held : list nat).
Abbreviation I := (sleet_inv gone held s0).

Ltac same := intros []; split; done.

Lemma on_dag_keeps {A} (m : st (DAG TxHash) GraphError.Error A) Q :
  triple chits_ok m Q → triple I (on_dag m) Q.
Proof. apply triple_zoom; [by intros s []|]. intros s d Hs Hd. destruct Hs. by split. Qed.

Lemma on_cg_keeps {A} (m : st ConflictGraph GraphError.Error A) Q :
  triple counters_ok m Q → triple I (on_cg m) Q.
Proof. apply triple_zoom; [by intros s []|]. intros s d Hs Hd. destruct Hs. by split. Qed.

(** The storage is well-formed and loses no transaction. *)
Definition db_ok (db : Db) : Prop :=
  tx_db_wf db ∧ dom (known (sl_known_txs s0)) ⊆ dom (known db).

Lemma on_db_keeps {A} (m : st Db StorageError.Error A) Q : triple db_ok m Q → triple I (on_db m) Q.
Proof. apply triple_zoom; [by intros s []|]. intros s d [] []. by split. Qed.

Lemma insert_tx_keeps tx : keep I (on_db (insert_tx tx)).
Proof.
  apply on_db_keeps. intros db [Hwf Hd]. destruct (insert_tx_spec db tx Hwf) as (db' & o & -> & ? & Hk).
  split; [|done]. split; [done|]. cbn. rewrite Hk. set_solver.
Qed.

Lemma set_status_keeps h st : keep I (on_db (set_status h st)).
Proof.
  apply on_db_keeps. intros db [Hwf Hd]. destruct (set_status_spec db h st Hwf) as (db' & -> & ? & Hk).
  split; [|done]. split; [done|]. cbn. by rewrite Hk, dom_alter_L.
Qed.

Lemma live_cells_keeps h c : keep I (on_live_cells (bounded_map_insert h c)).
Proof.
  eapply triple_zoom with (J := bounded_wf); [by intros s []|by intros s d [] ?; split|].
  intros m Hm. destruct (bounded_insert_spec (E:=SleetError.Error) m h c Hm) as (m' & -> & ? & _). done.
Qed.

Lemma accepted_txs_keeps h : keep I (on_accepted_txs (bounded_set_insert h)).
Proof.
  eapply triple_zoom with (J := bounded_set_wf); [by intros s []|by intros s d [] ?; split|].
  intros m Hm. destruct (bounded_set_insert_spec (E:=SleetError.Error) m h Hm) as (m' & -> & ? & _). done.
Qed.

Definition is_resolve (e : Effect) : bool := match e with Resolve _ _ => true | _ => false end.

Lemma notify_keeps e : is_resolve e = false → keep I (notify e).
Proof.
  intros He. apply triple_modify; [|done]. intros s [].
  assert (channels (emit e s) = channels s) as Hr.
  { unfold channels, resolved, emit. cbn [sl_pending_queries sl_out]. rewrite omap_app. f_equal.
    destruct e; cbn in *; try discriminate; by rewrite app_nil_r. }
  split; rewrite ?Hr; done.
Qed.
Hint Resolve insert_tx_keeps set_status_keeps live_cells_keeps accepted_txs_keeps : keeps.
Hint Extern 1 (triple _ (notify _) _) => (apply notify_keeps; reflexivity) : keeps.
Hint Extern 2 (triple _ (on_dag _) _) => (apply on_dag_keeps) : keeps.
Hint Extern 1 (triple _ (on_dag (set_chit _ 1)) _) => (apply on_dag_keeps, set_chit_keeps; right; reflexivity) : keeps.
Hint Extern 2 (triple _ (on_cg _) _) => (apply on_cg_keeps) : keeps.
Hint Resolve insert_vx_keeps remove_vx_keeps append_keeps insert_cell_keeps
  remove_cell_keeps accept_cell_keeps update_conflict_set_keeps reset_count_keeps : keeps.
Hint Extern 1 (triple _ (modify (set_committee _)) _) => (apply triple_modify; [by intros ? []; split|done]) : keeps.
Hint Extern 1 (triple _ (modify (set_frontier _)) _) => (apply triple_modify; [by intros ? []; split|done]) : keeps.

(** *** Methods *)
Lemma on_receive_tx_keeps tx : keep I (on_receive_tx tx).
Proof. unfold on_receive_tx, sleet_insert. keeps. Qed.

Lemma update_ancestral_preference_keeps h : keep I (update_ancestral_preference h).
Proof. unfold update_ancestral_preference. keeps. Qed.

Lemma reset_ancestor_confidence_keeps h : keep I (reset_ancestor_confidence h).
Proof. unfold reset_ancestor_confidence. keeps. Qed.

Lemma remove_progeny_keeps fuel hs : keep I (remove_progeny fuel hs).
Proof.
  revert hs. induction fuel as [|fuel IH]; intros hs; [by intros s Hs|]. cbn [remove_progeny]. keeps.
Qed.
Hint Resolve on_receive_tx_keeps update_ancestral_preference_keeps
  reset_ancestor_confidence_keeps remove_progeny_keeps : keeps.

Lemma remove_conflicts_keeps tx : keep I (remove_conflicts tx).
Proof. unfold remove_conflicts. keeps. Qed.

Lemma prune_keeps : keep I prune_at_accepted_frontier.
Proof. unfold prune_at_accepted_frontier, compute_accepted_frontier. keeps. Qed.

Lemma compute_accepted_txs_keeps h : keep I (compute_accepted_txs h).
Proof. unfold compute_accepted_txs, accept_step. keeps. Qed.
Hint Resolve remove_conflicts_keeps prune_keeps compute_accepted_txs_keeps : keeps.
Hint Extern 1 (triple _ (modify _) _) => (apply triple_modify; [intros ? []; split; done|done]) : keeps.

(** *** Handlers *)
Lemma started_keeps : keep I started.
Proof. unfold started. keeps. Qed.

Lemma handle_bootstrap_keeps : keep I handle_bootstrap.
Proof. unfold handle_bootstrap. keeps. Qed.

Lemma bootstrap_response_keeps r : keep I (bootstrap_response r).
Proof. unfold bootstrap_response. keeps. Qed.

Lemma fetch_with_ancestry_keeps fuel fetch hs : keep I (fetch_with_ancestry fuel fetch hs).
Proof. revert hs. induction fuel as [|fuel IH]; intros hs; [by intros s Hs|]. cbn [fetch_with_ancestry]. keeps. Qed.

Lemma handle_live_committee_keeps vs cs : keep I (handle_live_committee vs cs).
Proof. unfold handle_live_committee. keeps. Qed.

Lemma handle_query_incomplete_keeps tx acks : keep I (handle_query_incomplete tx acks).
Proof. unfold handle_query_incomplete. keeps. Qed.

Lemma handle_query_complete_keeps tx acks : keep I (handle_query_complete tx acks).
Proof. unfold handle_query_complete. keeps. Qed.

Lemma handle_new_accepted_keeps hs : keep I (handle_new_accepted hs).
Proof. unfold handle_new_accepted. keeps. Qed.

Lemma handle_fresh_tx_keeps seed tx : keep I (handle_fresh_tx seed tx).
Proof. unfold handle_fresh_tx. keeps. Qed.

Lemma fresh_tx_response_keeps tx vs r : keep I (fresh_tx_response tx vs r).
Proof. unfold fresh_tx_response. keeps. Qed.

Lemma handle_generate_tx_keeps c : keep I (handle_generate_tx c).
Proof. unfold handle_generate_tx. keeps. Qed.

Lemma handle_ask_for_ancestors_keeps h id ip : keep I (handle_ask_for_ancestors h id ip).
Proof. unfold handle_ask_for_ancestors. keeps. Qed.

Lemma ask_for_ancestors_response_keeps r : keep I (ask_for_ancestors_response r).
Proof. unfold ask_for_ancestors_response. keeps. Qed.

(** A query whose ancestry is missing gets a channel that was never used. *)
Lemma push_pending tx s : I s →
  I (set_pending (sl_pending_queries s ++ [(tx, sl_next_channel s)]) (S (sl_next_channel s)) s).
Proof.
  intros [].
  assert (channels (set_pending (sl_pending_queries s ++ [(tx, sl_next_channel s)])
    (S (sl_next_channel s)) s) ≡ₚ sl_next_channel s :: channels s) as Hp.
  { unfold channels. cbn. rewrite fmap_app, <- app_assoc. cbn. by rewrite <- Permutation_middle. }
  split; try done.
  - rewrite Hp, <- Permutation_middle. apply NoDup_cons. split; [|done]. intros Hc%si_fresh0. lia.
  - intros c. rewrite Hp, <- Permutation_middle. intros [->|Hc%si_fresh0]%elem_of_cons; cbn; lia.
  - intros c Hc. cbn in Hc. rewrite Hp, <- Permutation_middle, elem_of_cons.
    destruct (decide (c = sl_next_channel s)); [auto|]. destruct (si_all0 c) as [?|?]; [lia|auto..].
Qed.

Lemma await_keeps id tx e : is_resolve e = false → keep I (ch ← gets sl_next_channel;
  modify (λ s, set_pending (sl_pending_queries s ++ [(tx, ch)]) (S ch) s);;
  notify e;; mret (Await id (tx_hash tx) ch)).
Proof.
  intros He s Hs. rewrite gets_bind. by destruct (notify_keeps e He _ (push_pending tx s Hs)).
Qed.
Hint Extern 0 (triple _ (gets sl_next_channel ≫= _) _) => (apply await_keeps; reflexivity) : keeps.

Lemma handle_query_tx_keeps id ip tx : keep I (handle_query_tx id ip tx).
Proof. unfold handle_query_tx. keeps. Qed.
End invariant.

(** *** The queries that wait for their ancestry *)
Section pending.
Context (gone : nat → bool) (s0 : Sleet).
Abbreviation sleet_inv := (sleet_inv gone).
Implicit Types (held : list nat) (q : Tx * nat) (remaining p : list (Tx * nat)).

(** A channel can be dropped when it is [gone]. *)
Lemma inv_forget held held' s :
  held' ⊆+ held → (∀ c, c ∈ held → c ∈ held' ∨ gone c = true) →
  sleet_inv held s0 s → sleet_inv held' s0 s.
Proof.
  intros Hsub Hgone []. assert (held' ++ channels s ⊆+ held ++ channels s) as Hc by (by apply submseteq_skips_r).
  split; try done.
  - by eapply submseteq_NoDup.
  - intros c Hin. apply si_fresh0. by eapply elem_of_submseteq.
  - intros c Hin. rewrite elem_of_app. destruct (si_all0 c Hin) as [[Hh| ]%elem_of_app|]; [|auto..].
    destruct (Hgone c Hh); auto.
Qed.

(** Popping a query takes its channel out of the state, ... *)
Lemma inv_pop held q p s : sl_pending_queries s = p ++ [q] → sleet_inv held s0 s →
  sleet_inv (q.2 :: held) s0 (set_pending p (sl_next_channel s) s).
Proof.
  intros Hp []. assert ((q.2 :: held) ++ channels (set_pending p (sl_next_channel s) s)
    ≡ₚ held ++ channels s) as Hc.
  { unfold channels. rewrite Hp. cbn. rewrite fmap_app, <- app_assoc. cbn. by rewrite !Permutation_middle. }
  split; try done; [by rewrite Hc|intros c'; rewrite Hc; apply si_fresh0|].
  intros c' Hc'. rewrite Hc. by apply si_all0.
Qed.

(** ... answering it puts the channel among those that are done, ... *)
Lemma inv_resolve c b held s :
  sleet_inv (c :: held) s0 s → sleet_inv held s0 (emit (Resolve c b) s).
Proof.
  intros []. assert (held ++ channels (emit (Resolve c b) s) ≡ₚ (c :: held) ++ channels s) as Hc.
  { unfold channels, resolved. cbn. rewrite omap_app. cbn.
    by rewrite (app_assoc _ _ [c]), (app_assoc held), <- Permutation_cons_append. }
  split; try done; [by rewrite Hc|intros c'; rewrite Hc; apply si_fresh0|].
  intros c' Hc'. rewrite Hc. by apply si_all0.
Qed.

(** ... and the queries that stay are put back at the end. *)
Lemma inv_put_back l remaining s : l ≡ₚ remaining → sl_pending_queries s = [] →
  sleet_inv (remaining.*2) s0 s → sleet_inv [] s0 (set_pending l (sl_next_channel s) s).
Proof.
  intros Hl Hp [].
  assert (channels (set_pending l (sl_next_channel s) s) ≡ₚ remaining.*2 ++ channels s) as Hc.
  { unfold channels. rewrite Hp. cbn. by rewrite Hl. }
  split; try done; cbn [app].
  - by rewrite Hc.
  - intros c. rewrite Hc. apply si_fresh0.
  - intros c Hin. rewrite Hc. by apply si_all0.
Qed.

(** Receiving a transaction leaves the waiting queries alone. *)
Lemma on_receive_tx_pending tx p : keep (λ s, sl_pending_queries s = p) (on_receive_tx tx).
Proof.
  assert (∀ A (m : st ConflictGraph GraphError.Error A), keep (λ s, sl_pending_queries s = p) (on_cg m)).
  { intros. by eapply triple_zoom with (J := λ _, True). }
  assert (∀ A (m : st (DAG TxHash) GraphError.Error A), keep (λ s, sl_pending_queries s = p) (on_dag m)).
  { intros. by eapply triple_zoom with (J := λ _, True). }
  assert (∀ A (m : st Db StorageError.Error A), keep (λ s, sl_pending_queries s = p) (on_db m)).
  { intros. by eapply triple_zoom with (J := λ _, True). }
  unfold on_receive_tx, sleet_insert. keeps.
Qed.

(** Where the loop stands: [remaining] was popped and stays, [p] is still to be
    popped. *)
Definition at_round remaining p s : Prop :=
  sleet_inv (remaining.*2) s0 s ∧ sl_pending_queries s = p.

(** What a step of the loop leaves behind.  When it ends the handler, the channels
    that were popped and not answered, all of [waiting], are lost. *)
Definition after_round (waiting : list nat) p
    (r : Sleet * res SleetError.Error (list (Tx * nat))) : Prop :=
  match r.2 with
  | Ok remaining => at_round remaining p r.1 ∧ remaining.*2 ⊆ waiting
  | _ => ∃ held, sleet_inv held s0 r.1 ∧ held ⊆ waiting
  end.

Lemma round_resolve waiting q b remaining p s :
  sleet_inv (q.2 :: remaining.*2) s0 s → sl_pending_queries s = p →
  remaining.*2 ⊆ waiting →
  after_round waiting p ((notify (Resolve q.2 b);; mret remaining) s).
Proof. intros Hs Hp Hw. split; [|done]. split; [|done]. by apply inv_resolve. Qed.

Lemma check_query_round waiting closed q remaining p s :
  (∀ c, closed c = true → gone c = true) → q.2 :: remaining.*2 ⊆ waiting →
  at_round remaining (p ++ [q]) s → after_round waiting p (check_query closed q remaining s).
Proof.
  intros Hcl Hw [Hs Hp]. assert (remaining.*2 ⊆ waiting) as Hw' by set_solver.
  unfold check_query, mbind, st_bind. cbn [modify fst snd].
  rewrite Hp, removelast_last. apply (inv_pop _ q p) in Hs; [|done].
  set (s1 := set_pending p (sl_next_channel s) s) in *. cbn [gets].
  assert (sl_pending_queries s1 = p) as Hp1 by done. clearbody s1. clear Hp.
  destruct (has_parents s1 q.1).
  - unfold catch. pose proof (on_receive_tx_keeps gone s0 _ q.1 s1 Hs) as [Hs2 _].
    pose proof (on_receive_tx_pending q.1 p s1 Hp1) as [Hp2 _].
    destruct (on_receive_tx q.1 s1) as [s2 [is_new|e| |]]; cbn [fst] in *.
    + assert (∃ s3, (if is_new then notify (NotifyFreshTx q.1) else mret tt) s2 = (s3, Ok tt) ∧
        sleet_inv (q.2 :: remaining.*2) s0 s3 ∧ sl_pending_queries s3 = p) as (s3 & -> & Hs3 & Hp3).
      { destruct is_new; [|by exists s2]. exists (emit (NotifyFreshTx q.1) s2). split; [done|].
        split; [|done]. by apply (notify_keeps gone s0 _ (NotifyFreshTx q.1) eq_refl s2). }
      cbn [reads]. destruct (unwrap_res _) as [outcome|e| |] eqn:Ho; [by apply round_resolve|..];
        (eexists; split; [exact Hs3|done]).
    + by apply round_resolve.
    + eexists. split; [exact Hs2|done].
    + eexists. split; [exact Hs2|done].
  - destruct (closed q.2) eqn:Hq.
    + split; [|done]. split; [|done]. eapply inv_forget, Hs; [by apply submseteq_cons|].
      intros c [->|?]%elem_of_cons; auto.
    + assert ((remaining ++ [q]).*2 ≡ₚ q.2 :: remaining.*2) as Hperm.
      { rewrite fmap_app. cbn. by rewrite <- Permutation_cons_append. }
      split; [split; [|done]|by rewrite Hperm]. eapply inv_forget, Hs; [by rewrite Hperm|].
      intros c Hc. left. by rewrite Hperm.
Qed.

Lemma check_loop waiting closed l remaining s :
  (∀ c, closed c = true → gone c = true) → l.*2 ++ remaining.*2 ⊆ waiting →
  at_round remaining (rev l) s →
  after_round waiting [] (for_acc l (check_query closed) remaining s).
Proof.
  intros Hcl. revert remaining s. induction l as [|q l IH]; intros remaining s Hw Hr; cbn [for_acc rev fmap list_fmap] in *.
  { split; [done|set_solver]. }
  apply (check_query_round (q.2 :: remaining.*2) closed) in Hr; [|done|set_solver].
  unfold mbind, st_bind. unfold after_round in Hr at 1.
  destruct (check_query closed q remaining s) as [s1 [rem|e| |]]; cbn in Hr |- *.
  - destruct Hr as [Hr Hsub]. apply IH; [set_solver|done].
  - destruct Hr as (held & ? & ?). exists held. split; [done|set_solver].
  - destruct Hr as (held & ? & ?). exists held. split; [done|set_solver].
  - destruct Hr as (held & ? & ?). exists held. split; [done|set_solver].
Qed.

(** The receiving end of a channel is closed only when it is [gone]; when the check
    panics, the senders it had popped are dropped. *)
Definition may_close (closed : nat → bool) s : Prop :=
  (∀ c, closed c = true → gone c = true) ∧
  (is_ok (handle_check_pending closed s).2 = false →
     ∀ c, c ∈ (sl_pending_queries s).*2 → gone c = true).

Lemma handle_check_pending_inv closed s :
  may_close closed s → sleet_inv [] s0 s → sleet_inv [] s0 (handle_check_pending closed s).1.
Proof.
  intros [Hcl Hfail] Hs. unfold handle_check_pending in *. rewrite gets_bind in *.
  pose proof (check_loop (sl_pending_queries s).*2 closed (rev (sl_pending_queries s)) [] s Hcl) as Hr.
  rewrite rev_involutive in Hr.
  unfold mbind, st_bind in *.
  assert ((rev (sl_pending_queries s)).*2 ++ ([] : list (Tx * nat)).*2 ⊆ (sl_pending_queries s).*2) as Hsub.
  { cbn. rewrite app_nil_r. intros c. by rewrite <- (Permutation_rev (sl_pending_queries s)). }
  specialize (Hr Hsub (conj Hs eq_refl)). unfold after_round in Hr.
  destruct (for_acc _ _ _ s) as [s1 [rem|e| |]]; cbn in *.
  - destruct Hr as [[Hs1 Hp1] _]. eapply inv_put_back, Hs1; [symmetry; apply Permutation_rev|done].
  - destruct Hr as (held & Hi & Hh). eapply inv_forget, Hi; [apply submseteq_nil_l|]. eauto.
  - destruct Hr as (held & Hi & Hh). eapply inv_forget, Hi; [apply submseteq_nil_l|]. eauto.
  - destruct Hr as (held & Hi & Hh). eapply inv_forget, Hi; [apply submseteq_nil_l|]. eauto.
Qed.
End pending.

(** ** The machine *)

(** A message reaches the actor: a request of another actor or node, or the response
    to a request of its own.  Nothing is assumed of the
    contents, except that [announced] may restrict the committees that alpha names, and
    [checks] the receiving ends that are closed when the waiting queries are checked. *)
Inductive sleet_step_with (announced : gmap Id (SocketAddr * Weight) → gmap CellHash Cell → Prop)
    (checks : (nat → bool) → Sleet → Prop) : Sleet → Sleet → Prop :=
| step_started s : sleet_step_with announced checks s (started s).1
| step_bootstrap s : sleet_step_with announced checks s (handle_bootstrap s).1
| step_bootstrap_response r s : sleet_step_with announced checks s (bootstrap_response r s).1
| step_fetch_with_ancestry n fetch hs s : sleet_step_with announced checks s (fetch_with_ancestry n fetch hs s).1
| step_live_committee vs cs s :
    announced vs cs → sleet_step_with announced checks s (handle_live_committee vs cs s).1
| step_query_incomplete tx acks s : sleet_step_with announced checks s (handle_query_incomplete tx acks s).1
| step_query_complete tx acks s : sleet_step_with announced checks s (handle_query_complete tx acks s).1
| step_new_accepted hs s : sleet_step_with announced checks s (handle_new_accepted hs s).1
| step_fresh_tx seed tx s : sleet_step_with announced checks s (handle_fresh_tx seed tx s).1
| step_fresh_tx_response tx vs r s : sleet_step_with announced checks s (fresh_tx_response tx vs r s).1
| step_generate_tx c s : sleet_step_with announced checks s (handle_generate_tx c s).1
| step_query_tx id ip tx s : sleet_step_with announced checks s (handle_query_tx id ip tx s).1
| step_check_pending closed s :
    checks closed s → sleet_step_with announced checks s (handle_check_pending closed s).1
| step_ask_for_ancestors h id ip s : sleet_step_with announced checks s (handle_ask_for_ancestors h id ip s).1
| step_ask_for_ancestors_response r s : sleet_step_with announced checks s (ask_for_ancestors_response r s).1.

(** Any committee may be named and any channel closed. *)
Definition sleet_step : Sleet → Sleet → Prop := sleet_step_with (λ _ _, True) (λ _ _, True).

(** Only the channels that have [expired] are closed, or are waiting when a check
    panics. *)
Definition sleet_step_open (expired : nat → bool) : Sleet → Sleet → Prop :=
  sleet_step_with (λ _ _, True) (may_close expired).

Lemma sleet_step_any announced checks s s' :
  sleet_step_with announced checks s s' → sleet_step s s'.
Proof. by destruct 1; constructor. Qed.

Lemma sleet_step_all s s' : sleet_step s s' → sleet_step_open (λ _, true) s s'.
Proof. by destruct 1; constructor. Qed.

Hint Resolve started_keeps handle_bootstrap_keeps bootstrap_response_keeps
  fetch_with_ancestry_keeps handle_live_committee_keeps handle_query_incomplete_keeps
  handle_query_complete_keeps handle_new_accepted_keeps handle_fresh_tx_keeps
  fresh_tx_response_keeps handle_generate_tx_keeps handle_query_tx_keeps
  handle_ask_for_ancestors_keeps
  ask_for_ancestors_response_keeps : keeps.

Lemma keep_step {A} (I : Sleet → Prop) (m : st Sleet SleetError.Error A) s :
  keep I m → I s → I (m s).1.
Proof. intros Hm Hs. by apply Hm. Qed.

Lemma step_keeps expired s0 s s' :
  sleet_step_open expired s s' → sleet_inv expired [] s0 s → sleet_inv expired [] s0 s'.
Proof.
  destruct 1; first [by apply handle_check_pending_inv|apply keep_step; eauto 1 with keeps].
Qed.

Lemma reachable_keeps expired s0 s s' :
  rtc (sleet_step_open expired) s s' → sleet_inv expired [] s0 s → sleet_inv expired [] s0 s'.
Proof. induction 1; eauto using step_keeps. Qed.

Lemma sleet_new_inv expired id ip db peers :
  tx_db_wf db → sleet_inv expired [] (sleet_new id ip db peers) (sleet_new id ip db peers).
Proof.
  intros Hdb. split; try done; cbn; [apply bounded_new_wf; lia|apply bounded_set_new_wf; lia|constructor|set_solver|lia].
Qed.

Lemma sleet_inv_refl expired s0 s : sleet_inv expired [] s0 s → sleet_inv expired [] s s.
Proof. intros []. by split. Qed.

(** C2: the invariant of sleet as a state machine.  Take a node that starts on a
    well-formed storage and receives any messages in any order, requests and responses
    of any content; also handlers that failed or panicked half way count.  Then the
    storage stays well-formed, and a transaction once stored is never lost; the
    confidence of every conflict set stays in [0, BETA2], every chit is 0 or 1; the
    bounded collections stay within their bounds.  Every oneshot channel that was handed
    out belongs to one waiting query or was answered once, never both and never twice,
    unless it has [expired]: no query is dropped whose receiver still waits and that did
    not wait when a check of the queries panicked.  With [expired] everywhere true, these
    are all the runs of the actor. *)
Theorem reachable_invariant expired id ip db peers s s' :
  tx_db_wf db → rtc (sleet_step_open expired) (sleet_new id ip db peers) s →
  rtc (sleet_step_open expired) s s' →
  sleet_inv expired [] s s' ∧
  (∀ c, c < sl_next_channel s' → expired c = false →
     (c ∈ (sl_pending_queries s').*2 ∧ c ∉ resolved (sl_out s')) ∨
     (c ∉ (sl_pending_queries s').*2 ∧ c ∈ resolved (sl_out s'))) ∧
  NoDup (resolved (sl_out s')).
Proof.
  intros Hdb Hs Hs'.
  assert (sleet_inv expired [] s s') as Hi.
  { eapply reachable_keeps; [exact Hs'|]. eapply sleet_inv_refl, reachable_keeps; [exact Hs|].
    by apply sleet_new_inv. }
  split; [done|]. destruct Hi as [_ _ _ _ _ _ Hnd _ Hall _]. cbn in Hnd. unfold channels in Hnd.
  apply NoDup_app in Hnd as (_ & Hdisj & Hnd). split; [|done].
  intros c Hc He. destruct (Hall c Hc) as [Hin|]; [|congruence]. cbn in Hin.
  apply elem_of_app in Hin as [Hin|Hin]; [left|right]; naive_solver.
Qed.
End machine.


(** ** Witness *)
Section machine_witness.
#[local] Existing Instance plain_crypto.
#[local] Existing Instance canonical_order.
#[local] Existing Instance release_profile.
#[local] Existing Instance map_sled.
#[local] Existing Instance map_sled_laws.
#[local] Existing Instance num_tx_codec.
#[local] Existing Instance num_tx_codec_laws.
#[local] Existing Instance keep_order.

(** The child [tx_d] is queried before its parent is known; the sender supplies the
    parent, and the query is answered on its channel. *)
Definition s_asked : Sleet := (handle_query_tx me my_ip tx_d s_live).1.
Definition s_supplied : Sleet :=
  (ask_for_ancestors_response (Some (Oneshot (Some (TxAncestors [tx_a])))) s_asked).1.
Definition s_answered : Sleet := (handle_check_pending (λ _, false) s_supplied).1.

(** No channel has expired, and none is closed. *)
Lemma reachable_invariant_witness :
  (sl_pending_queries s_asked).*2 = [0] ∧ sl_pending_queries s_answered = [] ∧
  resolved (sl_out s_answered) = [0] ∧ sleet_inv (λ _, false) [] s_asked s_answered ∧
  NoDup (resolved (sl_out s_answered)).
Proof.
  split; [vm_compute; reflexivity|]. split; [vm_compute; reflexivity|].
  split; [vm_compute; reflexivity|].
  destruct (reachable_invariant (λ _, false) me my_ip (sl_known_txs s_empty) [] s_asked s_answered)
    as (H1 & _ & H2).
  - intros h v Hv. exfalso. clear -Hv. cbn in Hv. rewrite lookup_empty in Hv. discriminate Hv.
  - eapply rtc_l; [apply (step_live_committee _ _ validators {[ hash g0 := g0 ]}); exact I|].
    apply rtc_once, step_query_tx.
  - eapply rtc_l; [apply step_ask_for_ancestors_response|]. apply rtc_once, step_check_pending.
    split; [intros c Hc; exact Hc|]. intros Hf. exfalso. revert Hf. vm_compute. discriminate.
  - split; [exact H1|exact H2].
Defined.
End machine_witness.
