(* ===== verification/SleetTermination.v ===== *)
(** * SleetTermination.v: every handler of sleet ends
      (the loops of src/src/graph/ and src/src/sleet/sleet.rs)

    The searches of the DAG and the removal of the progeny are loops whose rounds are
    not bounded by a list.  Here they end in every state, also in one whose DAG and
    conflict graph a failed handler has left half updated; so do all handlers that
    change the state, apart from the bootstrap loop, which the peers keep going. *)

From stdpp Require Import prelude gmap sets fin_sets list relations strings.
From Stdlib Require Import ZArith Lia SpecFloat.
From S2P Require Import Prelude Orders Cell Instances Dag DagFacts ConflictGraph ConflictGraphFacts Blocks Storage SledInstances Util Sleet SleetFacts SleetProperties SleetWitnesses Triples.

(** ** The searches *)
Section searches.
Context `{Countable V}.
Implicit Types (d : DAG V) (m : gmap V (list V)) (visited : gmap V bool) (work : list V).

(** The vertices of the work list that can be expanded, and those not yet seen. *)
Definition potential m visited work : nat :=
  length (filter (λ v, v ∈ dom m) work) + size (dom m ∖ dom visited).

Lemma potential_perm m visited work work' :
  work ≡ₚ work' → potential m visited work = potential m visited work'.
Proof. intros Hp. unfold potential. by rewrite Hp. Qed.

(** Marking a vertex and putting it on the work list changes nothing. *)
Lemma potential_push m visited work v :
  visited !! v = None →
  potential m (<[v := true]> visited) (v :: work) = potential m visited work.
Proof.
  intros Hv. unfold potential. rewrite dom_insert_L, filter_cons.
  assert (v ∉ dom visited) as Hn by (by apply not_elem_of_dom).
  destruct (decide (v ∈ dom m)) as [Hm|Hm].
  - assert (dom m ∖ dom visited = {[ v ]} ∪ dom m ∖ ({[ v ]} ∪ dom visited)) as -> by
      (apply set_eq; intros u; destruct (decide (u = v)); set_solver).
    pose proof (size_union ({[ v ]} : gset V) (dom m ∖ ({[ v ]} ∪ dom visited)) ltac:(set_solver))
      as ->. rewrite size_singleton. cbn. lia.
  - do 2 f_equal. set_solver.
Qed.

Lemma visit_potential push m adj visited work visited' work' :
  (∀ x q, push x q ≡ₚ x :: q) →
  visit_edges push adj visited work = (visited', work') →
  potential m visited' work' = potential m visited work.
Proof.
  intros Hpush. revert visited work. induction adj as [|e adj IH]; intros visited work; cbn.
  { by intros [= -> ->]. }
  destruct (visited !! e) eqn:He; intros Hv; apply IH in Hv; [done|]. rewrite Hv.
  rewrite (potential_perm _ _ _ _ (Hpush e work)). by apply potential_push.
Qed.

Lemma potential_pop m visited v work :
  is_Some (m !! v) → potential m visited (v :: work) = S (potential m visited work).
Proof. intros Hv%elem_of_dom. unfold potential. by rewrite filter_cons, decide_True. Qed.

Lemma potential_start m v : potential m {[ v := true ]} [v] ≤ size m.
Proof.
  rewrite <- insert_empty, potential_push; [|apply lookup_empty]. unfold potential. cbn.
  rewrite dom_empty_L, difference_empty_L, size_dom. done.
Qed.

Lemma conviction_loop_ends fuel d visited queue sum :
  potential (dag_inv d) visited queue < fuel →
  finishes (conviction_loop fuel d visited queue sum).
Proof.
  revert visited queue sum. induction fuel as [|fuel IH]; intros visited queue sum Hf; [lia|].
  cbn [conviction_loop]. destruct queue as [|v queue]; [done|].
  unfold get_chit. destruct (dag_chits d !! v); [|done]. cbn [mbind res_bind].
  destruct (checked_add _ _ _); [|done]. destruct (dag_inv d !! v) as [adj|] eqn:Hv; [|done]. cbn.
  rewrite potential_pop in Hf by eauto.
  destruct (visit_edges _ _ _ _) as [visited' queue'] eqn:Hvis. apply IH.
  rewrite (visit_potential _ _ _ _ _ _ _ push_back_perm Hvis). lia.
Qed.

(** The conviction of a vertex is computed in a number of rounds that the inverse map
    bounds, whatever the DAG looks like. *)
Lemma conviction_ends d v : finishes (conviction d v).
Proof. apply conviction_loop_ends. pose proof (potential_start (dag_inv d) v). unfold inv_fuel. lia. Qed.

Lemma dfs_collect_ends fuel d it result :
  (∀ v, v ∈ dfs_stack it → is_Some (dfs_visited it !! v)) →
  potential (dag_g d) (dfs_visited it) (dfs_stack it) < fuel →
  finishes (dfs_collect fuel d it result).
Proof.
  revert it result. induction fuel as [|fuel IH]; intros [stack visited] result Hm Hf; [lia|].
  cbn [dfs_collect]. unfold dfs_next. cbn [dfs_stack dfs_visited] in *. destruct stack as [|v stack]; [done|].
  destruct (Hm v) as [b Hb]; [by left|]. rewrite Hb.
  destruct (dag_g d !! v) as [adj|] eqn:Hv; [|done].
  destruct (visit_edges _ _ _ _) as [visited' stack'] eqn:Hvis. rewrite potential_pop in Hf by eauto.
  apply IH; cbn [dfs_stack dfs_visited].
  - intros u Hu. destruct (visit_edges_spec _ _ _ _ _ _ (λ x q, reflexivity _) Hvis)
      as (new & Hw & _ & Hnew & Hvis'). apply Hvis'. rewrite Hw in Hu.
    apply elem_of_app in Hu as [[? _]%Hnew|Hu]; [by right|left]. apply Hm. by right.
  - rewrite (visit_potential _ _ _ _ _ _ _ (λ x q, reflexivity _) Hvis). lia.
Qed.

Lemma dfs_ends d v : finishes (dfs d v).
Proof.
  unfold dfs, dag_fuel. cbn [dfs_collect]. unfold dfs_next. cbn [dfs_new dfs_stack dfs_visited]. rewrite lookup_empty.
  destruct (dag_g d !! v) as [adj|] eqn:Hv; [|done].
  destruct (visit_edges _ _ _ _) as [visited stack] eqn:Hvis. apply dfs_collect_ends; cbn [dfs_stack dfs_visited].
  - intros u Hu. destruct (visit_edges_spec _ _ _ _ _ _ (λ x q, reflexivity _) Hvis)
      as (new & Hw & _ & Hnew & Hvis'). apply Hvis'. rewrite Hw in Hu.
    apply elem_of_app in Hu as [[? _]%Hnew|Hu]; [by right|]. by apply not_elem_of_nil in Hu.
  - rewrite (visit_potential _ _ _ _ _ _ _ (λ x q, reflexivity _) Hvis).
    pose proof (potential_start (dag_g d) v) as Hs. rewrite potential_pop in Hs by eauto.
    rewrite insert_empty. lia.
Qed.

(** ** Methods of the DAG *)
Abbreviation anywhere := (λ _ : DAG V, True).

Lemma set_chit_ends v c : ends anywhere (set_chit v c).
Proof. intros d _. split; [done|]. unfold set_chit. by repeat case_match. Qed.
Hint Resolve set_chit_ends : ends.

Lemma insert_vx_ends v edges : ends anywhere (insert_vx v edges).
Proof.
  unfold insert_vx. ending; intros d _; cbn; by case_match.
Qed.

Lemma remove_vx_ends v : ends anywhere (remove_vx v).
Proof.
  unfold remove_vx, ok_or. ending; intros d _; cbn; by case_match.
Qed.
End searches.

(** ** Methods of the conflict graph *)
Section conflict_graph_ends.
Context `{Crypto, IterOrder, BuildProfile}.
Implicit Types G : ConflictGraph.
Abbreviation anyhow := (λ _ : ConflictGraph, True).

Lemma cell_ids_finish h (c : Cell) :
  finishes (from_inputs (inputs c)) ∧ finishes (from_outputs h (outputs c)).
Proof. split; unfold from_inputs, from_outputs; ending; done. Qed.

Lemma lift_inputs_ends c : ends anyhow (lift_cell (from_inputs (inputs c))).
Proof. unfold lift_cell. ending. apply (cell_ids_finish []). Qed.

Lemma lift_outputs_ends h c : ends anyhow (lift_cell (from_outputs h (outputs c))).
Proof. unfold lift_cell. ending. apply (cell_ids_finish h). Qed.

Lemma vertex_update_ends f id : ends anyhow (vertex_update f id).
Proof. intros G _. unfold vertex_update. by case_match. Qed.
Hint Resolve lift_inputs_ends lift_outputs_ends vertex_update_ends : ends.

Lemma append_ends ids : ends anyhow (append ids).
Proof. apply ends_foreach. intros g G _. cbn. by case_match. Qed.

Lemma insert_cell_ends c : ends anyhow (insert_cell c).
Proof.
  unfold insert_cell, inherit. ending; try (intros G _; cbv [cells_insert spend_input add_conflict]; by case_match).
  all: unfold unwrap; by case_match.
Qed.

Lemma remove_cell_ends h : ends anyhow (remove_cell h).
Proof. unfold remove_cell, remove_from_vertices, unwrap. ending. Qed.
Hint Resolve remove_cell_ends : ends.

Lemma accept_cell_ends c : ends anyhow (accept_cell c).
Proof. unfold accept_cell. ending. Qed.

Lemma update_conflict_set_ends h d1 d2 : ends anyhow (update_conflict_set h d1 d2).
Proof.
  intros G _. split; [done|]. unfold update_conflict_set. destruct (_ <? _)%nat; [|done].
  destruct (cg_cs G !! h) as [cs|]; [|done].
  assert (finishes (cset_update h d1 d2 cs)) as Hu.
  { unfold cset_update. destruct (negb _); [done|]. destruct (_ <? _)%Z; [|done].
    unfold u_add, u_norm. by repeat case_match. }
  by destruct (cset_update h d1 d2 cs).
Qed.

Lemma reset_count_ends h : ends anyhow (reset_count h).
Proof. intros G _. split; [done|]. unfold reset_count. by repeat case_match. Qed.

(** A cell that was removed was there before. *)
Lemma remove_from_vertices_cells C h :
  triple (λ G, cells G = C) (remove_from_vertices h) (λ _, is_Some (C !! h)).
Proof.
  unfold remove_from_vertices, lift_cell.
  eapply (triple_bind _ _ _ (λ _, is_Some (C !! h))).
  { apply triple_reads. intros G c <-. by destruct (cells G !! h). }
  intros c Hc. assert (∀ f id, keep (λ G, cells G = C) (vertex_update f id)) as Hv.
  { intros f id G HG. unfold vertex_update. by case_match. }
  eapply triple_weaken; [|intros _ _; exact Hc]. keeps; apply Hv.
Qed.

Lemma remove_cell_shrinks h G G' :
  remove_cell h G = (G', Ok tt) → size (cells G') < size (cells G).
Proof.
  unfold remove_cell. rewrite gets_bind. destruct (conflicting_cells G h) as [cs|]; [|done].
  intros (G1 & [] & Hv & Heq)%st_bind_Ok_inv.
  destruct (remove_from_vertices_cells (cells G) h G eq_refl) as [Hc Hh].
  rewrite Hv in Hc, Hh. cbn in Hc. specialize (Hh tt eq_refl).
  apply st_bind_Ok_inv in Heq as (G2 & [] & Hl & [= <-]). cbn.
  assert (cells G2 = cells G) as ->.
  { rewrite <- Hc. refine (triple_run (λ G, cells G = cells G1) _ (λ _, True) _ _ _ _ eq_refl Hl).
    keeps. apply triple_modify; [|done]. intros G3 <-. by case_match. }
  rewrite map_size_delete_Some by done.
  assert (size (cells G) ≠ 0); [|lia]. intros Hz%map_size_empty_inv. rewrite Hz, lookup_empty in Hh.
  by destruct Hh.
Qed.
End conflict_graph_ends.

(** ** Sleet *)
Section sleet_ends.
Context `{Crypto, IterOrder, BuildProfile, SL : SledLaws, TC : TxCodecLaws, Rng}.
Implicit Types (s : Sleet) (h : TxHash) (tx : Tx).

(** The stored transactions can be read; nothing else is required of the state. *)
Definition readable s : Prop := tx_db_wf (sl_known_txs s).

Lemma on_dag_ends {A} (m : st (DAG TxHash) GraphError.Error A) :
  ends (λ _, True) m → ends readable (on_dag m).
Proof. by apply ends_zoom. Qed.

Lemma on_cg_ends {A} (m : st ConflictGraph GraphError.Error A) :
  ends (λ _, True) m → ends readable (on_cg m).
Proof. by apply ends_zoom. Qed.

Lemma on_db_ends {A} (m : st Db StorageError.Error A) : ends tx_db_wf m → ends readable (on_db m).
Proof. by apply ends_zoom. Qed.

Lemma insert_tx_ends tx : ends readable (on_db (insert_tx tx)).
Proof.
  apply on_db_ends. intros db Hwf. by destruct (insert_tx_spec db tx Hwf) as (db' & o & -> & ? & _).
Qed.

Lemma set_status_ends h st : ends readable (on_db (set_status h st)).
Proof.
  apply on_db_ends. intros db Hwf. destruct (set_status_spec db h st Hwf) as (db' & -> & ? & _).
  split; [done|]. cbn. by case_match.
Qed.

Lemma live_cells_ends h c : ends readable (on_live_cells (bounded_map_insert h c)).
Proof.
  apply ends_zoom with (J := λ _, True); [done..|]. intros m _. split; [done|].
  unfold bounded_map_insert. by repeat case_match.
Qed.

Lemma accepted_txs_ends h : ends readable (on_accepted_txs (bounded_set_insert h)).
Proof.
  apply ends_zoom with (J := λ _, True); [done..|]. intros m _. split; [done|].
  unfold bounded_set_insert. by repeat case_match.
Qed.

Lemma dag_dfs_finishes s h : finishes (dag_dfs s h).
Proof. apply finishes_map_err, dfs_ends. Qed.

Lemma conviction_finishes s h : finishes (graph (conviction (sl_dag s) h)).
Proof. apply finishes_map_err, conviction_ends. Qed.

Lemma get_tx_finishes s h : readable s → finishes (get_tx (sl_known_txs s) h).
Proof. intros Hs. rewrite get_tx_spec by done. by case_match. Qed.
Hint Resolve insert_tx_ends set_status_ends live_cells_ends accepted_txs_ends dag_dfs_finishes
  conviction_finishes get_tx_finishes : ends.
Hint Extern 2 (ends _ (on_dag _)) => (apply on_dag_ends) : ends.
Hint Extern 2 (ends _ (on_cg _)) => (apply on_cg_ends) : ends.
Hint Resolve insert_vx_ends remove_vx_ends set_chit_ends append_ends insert_cell_ends
  remove_cell_ends accept_cell_ends update_conflict_set_ends reset_count_ends : ends.

Lemma notify_ends e : ends readable (notify e).
Proof. by apply ends_modify. Qed.
Hint Resolve notify_ends : ends.

(** *** Methods that only read *)
Lemma is_insertable_tx_finishes s h : readable s → finishes (is_insertable_tx s h).
Proof.
  intros Hs. unfold is_insertable_tx. rewrite is_known_tx_spec by done. cbn. case_match; [|done].
  apply finishes_unwrap_res. unfold is_removed_tx. rewrite check_status_spec by done. by case_match.
Qed.

Lemma is_strongly_preferred_finishes s h : finishes (is_strongly_preferred s h).
Proof. unfold is_strongly_preferred, is_preferred, graph. ending. Qed.
Hint Resolve is_insertable_tx_finishes is_strongly_preferred_finishes : ends.

Lemma is_accepted_finishes s h : finishes (is_accepted s h).
Proof. unfold is_accepted, is_final_tx, get_confidence, is_singleton. ending. Qed.
Hint Resolve is_accepted_finishes : ends.

Lemma is_accepted_memo_finishes s h memo : finishes (is_accepted_memo s h memo).
Proof. unfold is_accepted_memo. ending. Qed.
Hint Resolve is_accepted_memo_finishes : ends.

Lemma frontier_visit_finishes s l a : finishes (frontier_visit s l a).
Proof. revert a. induction l as [|h l IH]; intros a; cbn [frontier_visit]; ending. Qed.
Hint Resolve frontier_visit_finishes : ends.

Lemma frontier_leaves_finishes s l a : finishes (frontier_leaves s l a).
Proof. revert a. induction l as [|h l IH]; intros a; cbn [frontier_leaves]; ending. Qed.
Hint Resolve frontier_leaves_finishes : ends.

Lemma select_parents_finishes n s : finishes (select_parents n s).
Proof.
  assert (∀ l ps acc, finishes (select_leaves n s l ps acc)) as Hlv.
  { induction l as [|h l IH]; intros ps acc; cbn [select_leaves]; ending. }
  assert (∀ l ps acc, finishes (select_ancestor n s l ps acc)) as Han.
  { induction l as [|h l IH]; intros ps acc; cbn [select_ancestor]; ending. }
  assert (∀ l ps acc, finishes (select_ancestors n s l ps acc)) as Hans.
  { induction l as [|h l IH]; intros ps acc; cbn [select_ancestors]; ending. }
  unfold select_parents. ending.
Qed.

Lemma query_outcomes_finishes c acks : finishes (query_outcomes c acks).
Proof. induction acks as [|[] acks IH]; cbn [query_outcomes]; ending. Qed.
Hint Resolve select_parents_finishes query_outcomes_finishes : ends.

(** *** Methods *)
Lemma on_receive_tx_ends tx : ends readable (on_receive_tx tx).
Proof. unfold on_receive_tx, sleet_insert. ending. Qed.

Lemma update_ancestral_preference_ends h : ends readable (update_ancestral_preference h).
Proof.
  assert (∀ s h, finishes (graph (get_preferred (sl_conflict_graph s) h))) as Hp.
  { intros s h'. unfold graph, get_preferred. ending. }
  unfold update_ancestral_preference. ending.
Qed.

Lemma reset_ancestor_confidence_ends h : ends readable (reset_ancestor_confidence h).
Proof. unfold reset_ancestor_confidence. ending. Qed.

Lemma prune_ends : ends readable prune_at_accepted_frontier.
Proof. unfold prune_at_accepted_frontier, compute_accepted_frontier. ending. Qed.

Lemma compute_accepted_txs_ends h : ends readable (compute_accepted_txs h).
Proof. unfold compute_accepted_txs, accept_step. ending. Qed.

(** A round of the removal takes a cell out of the conflict graph. *)
Lemma remove_progeny_ends n fuel hs :
  n < fuel → ∀ s, readable s → size (cells (sl_conflict_graph s)) = n →
  ∃ s' r, remove_progeny fuel hs s = (s', r) ∧ readable s' ∧ finishes r.
Proof.
  revert n hs. induction fuel as [|fuel IH]; intros n hs Hf s Hs Hn; [lia|].
  cbn [remove_progeny]. destruct hs as [|h hs]; [by eexists _, _|]. unfold mbind at 1, st_bind at 1.
  destruct (set_status_ends h TxStatus.Removed s Hs) as [Hs1 Hr1].
  assert (sl_conflict_graph (on_db (set_status h TxStatus.Removed) s).1 = sl_conflict_graph s) as Hg1.
  { unfold on_db, zoom. by destruct (set_status _ _ _). }
  destruct (on_db (set_status h TxStatus.Removed) s) as [s1 [[]|e| |]]; cbn in *; [|first [done|by eexists _, _]..].
  unfold mbind at 1, st_bind at 1. destruct (on_cg_ends _ (remove_cell_ends h) s1 Hs1) as [Hs2 Hr2].
  unfold on_cg, zoom in *. pose proof (remove_cell_shrinks h (sl_conflict_graph s1)) as Hsh.
  destruct (remove_cell h (sl_conflict_graph s1)) as [G' [[]|e| |]]; cbn in *; [|first [done|by eexists _, _]..].
  specialize (Hsh _ eq_refl). rewrite Hg1 in Hsh.
  destruct (on_dag_ends _ (remove_vx_ends h) _ Hs2) as [Hs3 Hr3].
  unfold catch, on_dag, zoom in *.
  destruct (remove_vx h _) as [d' [ch|e| |]]; cbn in *; [| |first [done|by eexists _, _]..];
    (eapply IH; [|done|reflexivity]; cbn; lia).
Qed.

Lemma remove_all_ends hs : ends readable (
  n ← gets (λ s, size (cells (sl_conflict_graph s))); remove_progeny (S (S n)) hs).
Proof.
  intros s Hs. rewrite gets_bind.
  destruct (remove_progeny_ends (size (cells (sl_conflict_graph s)))
    (S (S (size (cells (sl_conflict_graph s))))) hs ltac:(lia) s Hs eq_refl) as (s' & r & -> & ? & ?).
  done.
Qed.
Hint Resolve remove_all_ends : ends.

Lemma remove_conflicts_ends tx : ends readable (remove_conflicts tx).
Proof. unfold remove_conflicts. ending. Qed.
Hint Resolve on_receive_tx_ends update_ancestral_preference_ends reset_ancestor_confidence_ends
  prune_ends compute_accepted_txs_ends remove_conflicts_ends : ends.

(** *** Handlers *)
Lemma bootstrap_response_ends r : ends readable (bootstrap_response r).
Proof. unfold bootstrap_response. ending. Qed.

Lemma handle_live_committee_ends vs cs : ends readable (handle_live_committee vs cs).
Proof. unfold handle_live_committee. ending. apply cell_ids_finish. Qed.

Lemma handle_query_incomplete_ends tx acks : ends readable (handle_query_incomplete tx acks).
Proof. unfold handle_query_incomplete. ending. Qed.

Lemma handle_query_complete_ends tx acks : ends readable (handle_query_complete tx acks).
Proof. unfold handle_query_complete. ending. Qed.

Lemma handle_new_accepted_ends hs : ends readable (handle_new_accepted hs).
Proof. unfold handle_new_accepted. ending. Qed.

Lemma handle_fresh_tx_ends seed tx : ends readable (handle_fresh_tx seed tx).
Proof. unfold handle_fresh_tx, sample, ok_or. ending. Qed.

Lemma fresh_tx_response_ends tx vs r : ends readable (fresh_tx_response tx vs r).
Proof. unfold fresh_tx_response. ending. Qed.

Lemma handle_generate_tx_ends c : ends readable (handle_generate_tx c).
Proof. unfold handle_generate_tx. ending. Qed.

Lemma handle_query_tx_ends id ip tx : ends readable (handle_query_tx id ip tx).
Proof. unfold handle_query_tx. ending. Qed.

Lemma handle_check_pending_ends closed : ends readable (handle_check_pending closed).
Proof. unfold handle_check_pending, check_query. ending. Qed.

Lemma ask_for_ancestors_response_ends r : ends readable (ask_for_ancestors_response r).
Proof. unfold ask_for_ancestors_response. ending. Qed.

Hint Resolve bootstrap_response_ends handle_live_committee_ends handle_query_incomplete_ends
  handle_query_complete_ends handle_new_accepted_ends handle_fresh_tx_ends fresh_tx_response_ends
  handle_generate_tx_ends handle_query_tx_ends handle_check_pending_ends
  ask_for_ancestors_response_ends : ends.

(** C9: every handler of sleet ends.  In every state whose stored transactions can be
    read, whatever its DAG and its conflict graph look like, also when an earlier
    handler failed half way and left cycles, dangling edges or conflict sets without
    cells: each handler that changes the state, and each that goes on after a
    response, returns, fails or panics after finitely many rounds of its loops.  The
    loop of [FetchWithAncestry] is excepted: it goes on for as long as the peers name
    new parents. *)
Theorem sleet_handlers_end s :
  tx_db_wf (sl_known_txs s) →
  (∀ r, finishes (bootstrap_response r s).2) ∧
  (∀ vs cs, finishes (handle_live_committee vs cs s).2) ∧
  (∀ tx acks, finishes (handle_query_incomplete tx acks s).2) ∧
  (∀ tx acks, finishes (handle_query_complete tx acks s).2) ∧
  (∀ hs, finishes (handle_new_accepted hs s).2) ∧
  (∀ seed tx, finishes (handle_fresh_tx seed tx s).2) ∧
  (∀ tx vs r, finishes (fresh_tx_response tx vs r s).2) ∧
  (∀ c, finishes (handle_generate_tx c s).2) ∧
  (∀ id ip tx, finishes (handle_query_tx id ip tx s).2) ∧
  (∀ closed, finishes (handle_check_pending closed s).2) ∧
  (∀ r, finishes (ask_for_ancestors_response r s).2).
Proof.
  intros Hs. split_and!; intros; apply (ends_run readable); auto 1 with ends.
Qed.
End sleet_ends.

(** ** Witness *)
Section termination_witness.
#[local] Existing Instance plain_crypto.
#[local] Existing Instance canonical_order.
#[local] Existing Instance release_profile.
#[local] Existing Instance map_sled.
#[local] Existing Instance map_sled_laws.
#[local] Existing Instance num_tx_codec.
#[local] Existing Instance num_tx_codec_laws.
#[local] Existing Instance keep_order.

(** [tx_a] and [tx_d] as parents of each other. *)
Definition cyclic : DAG TxHash :=
  let edges := {[ tx_hash tx_a := [tx_hash tx_d]; tx_hash tx_d := [tx_hash tx_a] ]} in
  mkDAG edges edges {[ tx_hash tx_a := 1%Z ]}.

Lemma set_dag_readable d s : readable s → readable (set_dag d s).
Proof. done. Qed.

Lemma sleet_handlers_end_witness :
  finishes (handle_query_complete tx_d [QueryTxAck me (tx_hash tx_d) true] (set_dag cyclic s_ad)).2 ∧
  finishes (handle_new_accepted [tx_hash tx_a] (set_dag cyclic s_ad)).2.
Proof.
  destruct (sleet_handlers_end (set_dag cyclic s_ad)) as (_ & _ & _ & Hq & Hn & _).
  - exact (set_dag_readable cyclic s_ad (slw_db s_ad s_ad_wf)).
  - exact (conj (Hq _ _) (Hn _)).
Defined.
End termination_witness.
