(* ===== verification/Hail.v ===== *)
(** * Hail.v: the block consensus of hail (src/src/hail/)

    Blocks of one height conflict; [ConflictMap] keeps a conflict set per height.
    [Committee] is the weighted committee of a height, drawn by cryptographic
    sortition.  [Hail] is the actor: as in Sleet.v its handlers are state
    transformers, what they hand to actix is appended to [hl_out], and a handler
    that awaits a response is split at the await. *)

From stdpp Require Import prelude gmap sets fin_sets list strings.
From Stdlib Require Import ZArith Lia SpecFloat.
From S2P Require Import Prelude Orders Cell Dag Blocks Storage Util.

(** [hail::BETA1] and [hail::BETA2]; [hail::ALPHA] is the [ALPHA] of Util.v. *)
Definition HAIL_BETA1 : Z := 11.
Definition HAIL_BETA2 : Z := 20.

(** ** Conflict sets (src/src/hail/conflict_set.rs) *)

Record HailConflictSet : Type := mkHailConflictSet {
  hcs_conflicts : gset BlockHash;
  hcs_pref : BlockHash;
  hcs_last : BlockHash;
  hcs_cnt : Z
}.

Section hail_conflict_set.
Context `{IterOrder}.
Implicit Types cs : HailConflictSet.

Definition hcs_new (t : BlockHash) : HailConflictSet := mkHailConflictSet {[ t ]} t t 0.

Definition hcs_is_equivalent cs (hs : gset BlockHash) : bool :=
  bool_decide (hcs_conflicts cs = hs).
Definition hcs_is_preferred cs (t : BlockHash) : bool := bool_decide (hcs_pref cs = t).
Definition hcs_is_singleton cs : bool := (size (hcs_conflicts cs) =? 1)%nat.

Definition hcs_lowest_hash cs : option BlockHash :=
  match iter_set (hcs_conflicts cs) with
  | [] => None
  | h :: hashes => Some (scan_lowest h hashes)
  end.

Definition hcs_is_lowest_hash cs (h : BlockHash) : bool :=
  match hcs_lowest_hash cs with
  | Some l => bool_decide (l = h)
  | None => true
  end.
End hail_conflict_set.

(** ** The conflicts per height (src/src/hail/conflict_map.rs) *)

Abbreviation ConflictMap := (gmap BlockHeight HailConflictSet) (only parsing).

Section conflict_map.
Context `{Crypto, IterOrder, BuildProfile, BlockCodec}.
Implicit Types (m : gmap Z HailConflictSet) (h : BlockHeight).

Definition cm_is_preferred m h (x : BlockHash) : res HailError.Error bool :=
  match m !! h with
  | Some cs => Ok (hcs_is_preferred cs x)
  | None => Err (HailError.InvalidBlockHeight h)
  end.

Definition cm_is_singleton m h : res HailError.Error bool :=
  match m !! h with
  | Some cs => Ok (hcs_is_singleton cs)
  | None => Err (HailError.InvalidBlockHeight h)
  end.

Definition cm_get_preferred m h : res HailError.Error BlockHash :=
  match m !! h with
  | Some cs => Ok (hcs_pref cs)
  | None => Err (HailError.InvalidBlockHeight h)
  end.

Definition cm_get_confidence m (vx : Vertex) : res HailError.Error Z :=
  match m !! vertex_height vx with
  | Some cs => Ok (if decide (hcs_pref cs = vertex_hash vx) then hcs_cnt cs else 0%Z)
  | None => Err (HailError.InvalidBlockHeight (vertex_height vx))
  end.

(** [ConflictMap::insert_block] *)
Definition cm_insert_block (b : Block) : st ConflictMap HailError.Error HailConflictSet := λ m,
  match m !! block_height b with
  | Some cs =>
      match block_hash b with
      | Ok x =>
          let cs1 := mkHailConflictSet ({[ x ]} ∪ hcs_conflicts cs) (hcs_pref cs)
            (hcs_last cs) (hcs_cnt cs) in
          let cs2 :=
            if (hcs_cnt cs1 <? HAIL_BETA1)%Z && hcs_is_lowest_hash cs1 x then
              mkHailConflictSet (hcs_conflicts cs1) x (hcs_last cs1) 0
            else cs1 in
          (<[block_height b := cs2]> m, Ok cs2)
      | r => (m, map_err HailError.Alpha (h ← r; Ok (hcs_new h)))
      end
  | None =>
      match block_hash b with
      | Ok x => (<[block_height b := hcs_new x]> m, Ok (hcs_new x))
      | _ => (m, Panic)
      end
  end.

(** [ConflictMap::update_conflict_set]; the counter is a byte and is not
    bounded.  The preference is written before the counter can overflow. *)
Definition hcs_update (x : BlockHash) (d1 d2 : Z) : st HailConflictSet HailError.Error unit := λ cs,
  let cs1 := if (d2 <? d1)%Z then
      mkHailConflictSet (hcs_conflicts cs) x (hcs_last cs) (hcs_cnt cs) else cs in
  if decide (x ≠ hcs_last cs1) then
    (mkHailConflictSet (hcs_conflicts cs1) (hcs_pref cs1) x (hcs_cnt cs1), Ok tt)
  else
    (n ← of_res (u_add 8 (hcs_cnt cs1) 1);
     modify (λ cs, mkHailConflictSet (hcs_conflicts cs) (hcs_pref cs) (hcs_last cs) n)) cs1.

Definition cm_update_conflict_set h (x : BlockHash) (d1 d2 : Z) :
    st ConflictMap HailError.Error unit := λ m,
  match m !! h with
  | Some cs =>
      let '(cs', r) := hcs_update x d1 d2 cs in (<[h := cs']> m, r)
  | None => (m, Err (HailError.InvalidBlockHeight h))
  end.
End conflict_map.

(** ** The committee (src/src/hail/committee.rs) *)

(** [zfx_sortition::sortition::select] *)
Class Sortition : Type := { sortition_select : Z → Z → f64 → bytes → Z }.

Record Committee : Type := mkCommittee {
  cm_self_id : Id;
  cm_self_staking_capacity : Z;
  cm_validators : gmap Id (SocketAddr * Z);
  cm_committee : gmap Id (SocketAddr * Weight);
  cm_block_production_slot : option VrfOutput;
  cm_block_proposed : bool;
  cm_block_producers : gset VrfOutput
}.

Section committee.
Context `{Crypto, IterOrder, BuildProfile, Sortition}.
Implicit Types c : Committee.

(** Computations that cannot fail but may panic. *)
Abbreviation total := (res HailError.Error).

Definition compute_vrf_h (id : Id) (vrf_out : VrfOutput) : bytes := blake3 (id ++ vrf_out).

Definition committee_empty (self_id : Id) : Committee :=
  mkCommittee self_id 0 ∅ ∅ None false ∅.

Definition calculate_total_staking_capacity c (init : Z) : total Z :=
  u_sum 64 init ((λ e : Id * (SocketAddr * Z), e.2.2) <$> iter_map (cm_validators c)).

Definition expected_size (n : nat) : f64 :=
  f64_add (f64_ceil (f64_sqrt (f64_of_u64 (Z.of_nat n)))) (f64_of_u64 100).

(** The loop over the validators. *)
Fixpoint committee_loop (vrf_output : VrfOutput) (tsc : Z) (size : f64)
    (vs : list (Id * (SocketAddr * Z))) (committee : gmap Id (SocketAddr * Weight))
    (producers : gset VrfOutput) : total (gmap Id (SocketAddr * Weight) * gset VrfOutput) :=
  match vs with
  | [] => Ok (committee, producers)
  | (id, (ip, sc)) :: vs' =>
      let vrf_h := compute_vrf_h id vrf_output in
      let s_w := sortition_select sc tsc size vrf_h in
      let producers' := if (0 <? s_w)%Z then {[ vrf_h ]} ∪ producers else producers in
      match committee !! id with
      | Some _ => Panic
      | None => committee_loop vrf_output tsc size vs'
          (<[id := (ip, percent_of sc tsc)]> committee) producers'
      end
  end.

Definition next_committee c (vrf_output : VrfOutput) (validators : gmap Id (SocketAddr * Z)) :
    total (gmap Id (SocketAddr * Weight) * gset VrfOutput * option VrfOutput) :=
  let es := expected_size (size validators) in
  tsc ← calculate_total_staking_capacity c (cm_self_staking_capacity c);
  r ← committee_loop vrf_output tsc es (iter_map validators) ∅ ∅;
  let vrf_h := compute_vrf_h (cm_self_id c) vrf_output in
  let s_w := sortition_select (cm_self_staking_capacity c) tsc es vrf_h in
  if (0 <? s_w)%Z then Ok (r.1, {[ vrf_h ]} ∪ r.2, Some vrf_h)
  else Ok (r.1, r.2, None).

(** [Committee::next] *)
Definition committee_next (self_staking_capacity : Z) (vrf_output : VrfOutput)
    (validators : gmap Id (SocketAddr * Z)) : st Committee HailError.Error unit := λ c,
  let c1 := mkCommittee (cm_self_id c) self_staking_capacity validators (cm_committee c)
    (cm_block_production_slot c) (cm_block_proposed c) (cm_block_producers c) in
  match next_committee c1 vrf_output validators with
  | Ok (committee, producers, slot) =>
      (mkCommittee (cm_self_id c) self_staking_capacity validators committee slot false
         producers, Ok tt)
  | Err e => (c1, Err e)
  | Panic => (c1, Panic)
  | OutOfFuel => (c1, OutOfFuel)
  end.

Definition is_valid_vrf c (vrf_output : VrfOutput) : bool :=
  bool_decide (vrf_output ∈ cm_block_producers c).

Definition set_block_proposed (p : bool) c : Committee :=
  mkCommittee (cm_self_id c) (cm_self_staking_capacity c) (cm_validators c) (cm_committee c)
    (cm_block_production_slot c) p (cm_block_producers c).
End committee.

(** ** The actor (src/src/hail/hail.rs) *)

(** The responses that hail distinguishes. *)
Inductive HailResponse : Type :=
| QueryBlockAck (id : Id) (h : BlockHash) (outcome : bool)
| OtherHailResponse.

Inductive HailClientResponse : Type :=
| HailFanout (rs : list HailResponse)
| HailOneshot (r : option HailResponse).

(** What a handler hands to actix. *)
Inductive HailEffect : Type :=
| HNotifyQueryComplete (b : HailBlock) (acks : list HailResponse)
| HNotifyQueryIncomplete (b : HailBlock) (acks : list HailResponse)
| HNotifyAccepted (vx : Vertex)
| HNotifyFreshBlock (b : HailBlock)
| HNotifyGenerateBlock (b : Block)
| HSendQueryBlock (peers : list (Id * SocketAddr)) (id : Id) (b : HailBlock).

Section hail_state.
Context `{Sled}.

Record Hail : Type := mkHail {
  hl_last_accepted_hash : option BlockHash;
  hl_height : BlockHeight;
  hl_node_id : Id;
  hl_committee : Committee;
  hl_known_blocks : Db;
  hl_queried_blocks : Db;
  hl_conflict_map : gmap BlockHeight HailConflictSet;
  hl_live_blocks : gmap BlockHash Block;
  hl_accepted_vertices : gset Vertex;
  hl_dag : DAG Vertex;
  hl_out : list HailEffect
}.

Definition hl_set_last (h : option BlockHash) (n : BlockHeight) s := mkHail h n
  (hl_node_id s) (hl_committee s) (hl_known_blocks s) (hl_queried_blocks s)
  (hl_conflict_map s) (hl_live_blocks s) (hl_accepted_vertices s) (hl_dag s) (hl_out s).
Definition hl_set_committee x s := mkHail (hl_last_accepted_hash s) (hl_height s)
  (hl_node_id s) x (hl_known_blocks s) (hl_queried_blocks s)
  (hl_conflict_map s) (hl_live_blocks s) (hl_accepted_vertices s) (hl_dag s) (hl_out s).
Definition hl_set_known x s := mkHail (hl_last_accepted_hash s) (hl_height s)
  (hl_node_id s) (hl_committee s) x (hl_queried_blocks s)
  (hl_conflict_map s) (hl_live_blocks s) (hl_accepted_vertices s) (hl_dag s) (hl_out s).
Definition hl_set_queried x s := mkHail (hl_last_accepted_hash s) (hl_height s)
  (hl_node_id s) (hl_committee s) (hl_known_blocks s) x
  (hl_conflict_map s) (hl_live_blocks s) (hl_accepted_vertices s) (hl_dag s) (hl_out s).
Definition hl_set_conflict_map x s := mkHail (hl_last_accepted_hash s) (hl_height s)
  (hl_node_id s) (hl_committee s) (hl_known_blocks s) (hl_queried_blocks s)
  x (hl_live_blocks s) (hl_accepted_vertices s) (hl_dag s) (hl_out s).
Definition hl_set_live x s := mkHail (hl_last_accepted_hash s) (hl_height s)
  (hl_node_id s) (hl_committee s) (hl_known_blocks s) (hl_queried_blocks s)
  (hl_conflict_map s) x (hl_accepted_vertices s) (hl_dag s) (hl_out s).
Definition hl_set_accepted x s := mkHail (hl_last_accepted_hash s) (hl_height s)
  (hl_node_id s) (hl_committee s) (hl_known_blocks s) (hl_queried_blocks s)
  (hl_conflict_map s) (hl_live_blocks s) x (hl_dag s) (hl_out s).
Definition hl_set_dag x s := mkHail (hl_last_accepted_hash s) (hl_height s)
  (hl_node_id s) (hl_committee s) (hl_known_blocks s) (hl_queried_blocks s)
  (hl_conflict_map s) (hl_live_blocks s) (hl_accepted_vertices s) x (hl_out s).
Definition hl_emit (e : HailEffect) s := mkHail (hl_last_accepted_hash s) (hl_height s)
  (hl_node_id s) (hl_committee s) (hl_known_blocks s) (hl_queried_blocks s)
  (hl_conflict_map s) (hl_live_blocks s) (hl_accepted_vertices s) (hl_dag s)
  (hl_out s ++ [e]).
End hail_state.

Section hail.
Context `{Crypto, IterOrder, BuildProfile, Sled, BlockCodec, Rng, Sortition}.
Implicit Types s : Hail.

(** A method of hail. *)
Abbreviation hl := (st Hail HailError.Error).

Definition hail_new (node_id : Id) (known queried : Db) : Hail :=
  mkHail None 0 node_id (committee_empty node_id) known queried ∅ ∅ ∅ dag_new [].

(** Methods of the fields.  Errors of the storage are only unwrapped or
    dropped. *)
Definition on_conflict_map {A} : st ConflictMap HailError.Error A → hl A :=
  zoom hl_conflict_map hl_set_conflict_map (λ e, e).
Definition on_hail_dag {A} : st (DAG Vertex) GraphError.Error A → hl A :=
  zoom hl_dag hl_set_dag HailError.Graph.
Definition on_committee {A} : st Committee HailError.Error A → hl A :=
  zoom hl_committee hl_set_committee (λ e, e).
Definition on_known {A} (m : st Db StorageError.Error A) : hl unit :=
  ignore (zoom hl_known_blocks hl_set_known (λ e, e) m).
Definition hail_notify (e : HailEffect) : hl unit := modify (hl_emit e).

Definition hail_dfs s (vx : Vertex) : res HailError.Error (list Vertex) :=
  map_err HailError.Graph (dfs (hl_dag s) vx).

(** *** Vertices *)

(** [Hail::insert] *)
Definition hail_insert (b : HailBlock) : hl unit :=
  vertex ← of_res (unwrap_res (hail_block_vertex b));
  present ← gets (λ s, bool_decide (is_Some (dag_g (hl_dag s) !! vertex)));
  if (present : bool) then mret tt
  else
    match hb_parent b with
    | Some parent =>
        on_conflict_map (cm_insert_block (hb_block b));;
        on_hail_dag (insert_vx vertex [parent])
    | None =>
        if (vertex_height vertex =? 0)%Z then
          on_conflict_map (cm_insert_block (hb_block b));;
          on_hail_dag (insert_vx vertex [])
        else throw (HailError.InvalidBlock (hb_block b))
    end.

Definition on_receive_block (b : HailBlock) : hl bool :=
  h ← of_res (hail_block_hash b);
  known ← reads (λ s, unwrap_res (is_known_hail_block (hl_known_blocks s) h));
  if (known : bool) then mret false
  else
    hail_insert b;;
    on_known (insert_hail_block b);;
    mret true.

(** *** Preference *)

Definition hail_is_strongly_preferred s (vx : Vertex) : res HailError.Error bool :=
  l ← hail_dfs s vx;
  all_res (λ a, cm_is_preferred (hl_conflict_map s) (vertex_height a) (vertex_hash a)) l.

(** The ancestors of one leaf that can be the parent of a block of height [h];
    [h - 1] is computed when a vertex is strongly preferred. *)
Fixpoint parent_candidates s (h : BlockHeight) (vxs : list Vertex) :
    res HailError.Error (list Vertex) :=
  match vxs with
  | [] => Ok []
  | vx :: vxs' =>
      p ← hail_is_strongly_preferred s vx;
      fits ← (if (p : bool) then
                below ← u_sub 64 h 1; Ok (bool_decide (vertex_height vx = below))
              else Ok false);
      r ← parent_candidates s h vxs';
      Ok (if (fits : bool) then vx :: r else r)
  end.

(** The candidate with the lowest hash. *)
Definition scan_lowest_vertex (v : Vertex) (l : list Vertex) : Vertex :=
  foldl (λ h hi, if bytes_ltb (vertex_hash hi) (vertex_hash h) then hi else h) v l.

(** [Hail::select_parent]; [vxs[0]] panics when there is no candidate. *)
Definition select_parent (h : BlockHeight) s : res HailError.Error Vertex :=
  if decide (dag_g (hl_dag s) = ∅) then Err HailError.EmptyDAG
  else
    rows ← try_map (λ leaf, l ← hail_dfs s leaf; parent_candidates s h l) (leaves (hl_dag s));
    match mjoin (rows : list (list Vertex)) with
    | [] => Panic
    | v :: vxs => Ok (scan_lowest_vertex v vxs)
    end.

Definition hail_update_ancestral_preference (root : Vertex) : hl unit :=
  l ← reads (λ s, hail_dfs s root);
  foreach l (λ vx,
    pref ← reads (λ s, cm_get_preferred (hl_conflict_map s) (vertex_height vx));
    d1 ← reads (λ s, map_err HailError.Graph (conviction (hl_dag s) vx));
    d2 ← reads (λ s, map_err HailError.Graph
           (conviction (hl_dag s) (mkVertex (vertex_height vx) pref)));
    on_conflict_map (cm_update_conflict_set (vertex_height vx) (vertex_hash vx) d1 d2)).

(** *** Finality *)

Definition is_accepted_block s (vx : Vertex) : res HailError.Error bool :=
  single ← cm_is_singleton (hl_conflict_map s) (vertex_height vx);
  early ← (if (single : bool) then
             c ← cm_get_confidence (hl_conflict_map s) vx; Ok (HAIL_BETA1 <=? c)%Z
           else Ok false);
  if (early : bool) then Ok true
  else c ← cm_get_confidence (hl_conflict_map s) vx; Ok (HAIL_BETA2 <=? c)%Z.

(** The block and its parents are final. *)
Definition hail_is_accepted s (vx : Vertex) : res HailError.Error bool :=
  match dag_g (hl_dag s) !! vx with
  | Some parents =>
      pa ← all_res (is_accepted_block s) parents;
      if (pa : bool) then is_accepted_block s vx else Ok false
  | None => Err (HailError.InvalidBlockHash (vertex_hash vx))
  end.

(** The first accepted vertex of a list. *)
Fixpoint first_accepted s (l : list Vertex) : res HailError.Error (option Vertex) :=
  match l with
  | [] => Ok None
  | vx :: l' =>
      a ← hail_is_accepted s vx;
      if (a : bool) then Ok (Some vx) else first_accepted s l'
  end.

Definition get_accepted_frontier s : res HailError.Error (list Vertex) :=
  if decide (dag_g (hl_dag s) = ∅) then Ok []
  else
    rows ← try_map (λ leaf, l ← hail_dfs s leaf; first_accepted s l) (leaves (hl_dag s));
    Ok (omap (λ o, o) (rows : list (option Vertex))).

(** [next_accepted_vertex] skips the vertices that were reported before. *)
Definition next_accepted_vertex (vertex : Vertex) : hl (option Vertex) :=
  l ← reads (λ s, hail_dfs s vertex);
  r ← reads (λ s, first_accepted s (filter (λ vx, vx ∉ hl_accepted_vertices s) l));
  match r with
  | Some vx => modify (λ s, hl_set_accepted ({[ vx ]} ∪ hl_accepted_vertices s) s);;
               mret (Some vx)
  | None => mret None
  end.

Definition hail_sample (seed : nat) (minimum_weight : Weight) s :
    res HailError.Error (list (Id * SocketAddr)) :=
  let validators := (λ e : Id * (SocketAddr * Weight), (e.1, e.2.1, e.2.2))
    <$> iter_map (cm_committee (hl_committee s)) in
  ok_or (sample_weighted seed minimum_weight validators) HailError.InsufficientWeight.

(** *** Message handlers *)

(** [Handler<LiveCommittee>] *)
Definition hail_live_committee (last_accepted_hash : BlockHash)
    (last_accepted_block : HailBlock) (height : BlockHeight) (self_staking_capacity : Z)
    (validators : gmap Id (SocketAddr * Z)) (vrf_out : VrfOutput) : hl unit :=
  on_committee (committee_next self_staking_capacity vrf_out validators);;
  modify (hl_set_last (Some last_accepted_hash) height);;
  unwrap_st (hail_insert last_accepted_block).

(** [Handler<QueryIncomplete>] and [Handler<Accepted>] do nothing. *)
Definition hail_query_incomplete (b : HailBlock) (acks : list HailResponse) : hl unit :=
  mret tt.
Definition hail_accepted (vx : Vertex) : hl unit := mret tt.

Definition block_outcomes (committee : gmap Id (SocketAddr * Weight))
    (acks : list HailResponse) : list (Id * Weight * bool) :=
  omap (λ ack, match ack with
    | QueryBlockAck id _ outcome =>
        match committee !! id with
        | Some (_, w) => Some (id, w, outcome)
        | None => None
        end
    | OtherHailResponse => None
    end) acks.

(** [Handler<QueryComplete>] *)
Definition hail_query_complete (b : HailBlock) (acks : list HailResponse) : hl unit :=
  outcomes ← gets (λ s, block_outcomes (cm_committee (hl_committee s)) acks);
  (if f64_leb ALPHA (sum_outcomes outcomes) then
     vx ← of_res (unwrap_res (hail_block_vertex b));
     unwrap_st (on_hail_dag (set_chit vx 1));;
     unwrap_st (hail_update_ancestral_preference vx);;
     modify (λ s, hl_set_live (<[vertex_hash vx := hb_block b]> (hl_live_blocks s)) s);;
     c ← gets hl_committee;
     on_committee (committee_next (cm_self_staking_capacity c) (vrf_out (hb_block b))
       (cm_validators c));;
     modify (hl_set_last (Some (vertex_hash vx)) (vertex_height vx));;
     maybe_accepted ← unwrap_st (next_accepted_vertex vx);
     match maybe_accepted with
     | Some accepted => hail_notify (HNotifyAccepted accepted)
     | None => mret tt
     end
   else mret tt);;
  unwrap_st (zoom hl_queried_blocks hl_set_queried (λ e : StorageError.Error, e)
    (insert_hail_block b));;
  mret tt.

(** [Handler<FreshBlock>], up to the await and after it *)
Definition hail_fresh_block (seed : nat) (b : HailBlock) : hl (list (Id * SocketAddr)) :=
  validators ← reads (λ s, unwrap_res (hail_sample seed ALPHA s));
  id ← gets hl_node_id;
  hail_notify (HSendQueryBlock validators id b);;
  mret validators.

Definition hail_fresh_block_response (b : HailBlock) (validators : list (Id * SocketAddr))
    (r : option HailClientResponse) : hl unit :=
  match r with
  | Some (HailFanout acks) =>
      if (length acks =? length validators)%nat then hail_notify (HNotifyQueryComplete b acks)
      else hail_notify (HNotifyQueryIncomplete b acks)
  | Some (HailOneshot _) => panic
  | None => throw HailError.ActixMailboxError
  end.

(** [Handler<QueryBlock>]: the reply is [QueryBlockAck]. *)
Definition hail_query_block (b : HailBlock) : hl (Id * BlockHash * bool) :=
  vx ← of_res (unwrap_res (hail_block_vertex b));
  catch (on_receive_block b) (λ r,
    match r with
    | Ok true => hail_notify (HNotifyFreshBlock b)
    | _ => mret tt
    end);;
  id ← gets hl_node_id;
  catch (reads (λ s, hail_is_strongly_preferred s vx)) (λ r,
    match r with
    | Ok outcome => mret (id, vertex_hash vx, outcome)
    | _ => mret (id, vertex_hash vx, false)
    end).

(** [Handler<GetBlock>] and [Handler<GetBlockByHeight>] *)
Definition hail_get_block (h : BlockHash) s : option Block := hl_live_blocks s !! h.
Definition hail_get_block_by_height (h : BlockHeight) s : option Block :=
  snd <$> head (filter (λ e : BlockHash * Block, block_height e.2 = h)
    (iter_map (hl_live_blocks s))).

(** [Handler<GenerateBlock>] *)
Definition hail_generate_block (b : Block) : hl (option BlockHash) :=
  parent ← reads (λ s, unwrap_res (select_parent (block_height b) s));
  let hb := mkHailBlock (Some parent) b in
  catch (on_receive_block hb) (λ r,
    match r with
    | Ok true =>
        hail_notify (HNotifyFreshBlock hb);;
        h ← of_res (unwrap_res (block_hash b));
        mret (Some h)
    | _ => mret None
    end).

(** [Handler<AcceptedCells>] *)
Definition hail_accepted_cells (cs : list Cell) : hl unit :=
  slot ← gets (λ s, cm_block_production_slot (hl_committee s));
  match slot with
  | Some vrf_out =>
      proposed ← gets (λ s, cm_block_proposed (hl_committee s));
      if (proposed : bool) then mret tt
      else
        last ← reads (λ s, unwrap (hl_last_accepted_hash s));
        next ← reads (λ s, u_add 64 (hl_height s) 1);
        hail_notify (HNotifyGenerateBlock (block_new last next vrf_out cs));;
        modify (λ s, hl_set_committee (set_block_proposed true (hl_committee s)) s)
  | None => mret tt
  end.
End hail.
