(* ===== verification/HailFacts.v ===== *)
(** * HailFacts.v: theorems on hail *)

From stdpp Require Import prelude gmap sets fin_sets list relations strings.
From Stdlib Require Import ZArith Lia SpecFloat.
From S2P Require Import Prelude Orders Cell Instances Dag DagFacts Blocks Storage SledInstances Util Hail.

(** ** Conflict sets *)
Section conflict_map_facts.
Context `{Crypto, IterOrder, BuildProfile, BlockCodec}.
Implicit Types (m : gmap Z HailConflictSet) (h : BlockHeight) (x : BlockHash)
  (cs : HailConflictSet) (X : gset BlockHash).

(** [x] is the lowest hash of the set. *)
Definition lowest x X : Prop := x ∈ X ∧ ∀ y, y ∈ X → bytes_ltb y x = false.

Lemma lowest_unique x y X : lowest x X → lowest y X → x = y.
Proof.
  intros [Hx Hlx] [Hy Hly]. destruct (bytes_ltb_total x y) as [?|[?|?]]; [done| |].
  - rewrite Hly in *; done.
  - rewrite Hlx in *; done.
Qed.

Lemma hcs_is_lowest_hash_spec cs x :
  x ∈ hcs_conflicts cs → hcs_is_lowest_hash cs x = true ↔ lowest x (hcs_conflicts cs).
Proof.
  intros Hx. unfold hcs_is_lowest_hash, hcs_lowest_hash.
  assert (∀ y, y ∈ iter_set (hcs_conflicts cs) ↔ y ∈ hcs_conflicts cs) as Hin
    by (intros; apply elem_of_iter_set).
  destruct (iter_set (hcs_conflicts cs)) as [|h0 hs].
  { exfalso. apply Hin in Hx. set_solver. }
  assert (lowest (scan_lowest h0 hs) (hcs_conflicts cs)) as Hlow.
  { split; [apply Hin, scan_lowest_in|]. intros y Hy. apply scan_lowest_le, Hin, Hy. }
  rewrite bool_decide_eq_true. split; [by intros <-|]. intros. by eapply lowest_unique.
Qed.

(** What inserting the block [x] makes of a conflict set. *)
Definition with_block x (o : option HailConflictSet) : HailConflictSet :=
  match o with
  | None => hcs_new x
  | Some cs =>
      let X := {[ x ]} ∪ hcs_conflicts cs in
      if (hcs_cnt cs <? HAIL_BETA1)%Z && hcs_is_lowest_hash
           (mkHailConflictSet X (hcs_pref cs) (hcs_last cs) (hcs_cnt cs)) x
      then mkHailConflictSet X x (hcs_last cs) 0
      else mkHailConflictSet X (hcs_pref cs) (hcs_last cs) (hcs_cnt cs)
  end.

Lemma cm_insert_block_spec m b :
  cm_insert_block b m =
    (<[block_height b := with_block (block_id b) (m !! block_height b)]> m,
     Ok (with_block (block_id b) (m !! block_height b))).
Proof.
  unfold cm_insert_block. rewrite block_hash_Ok.
  destruct (m !! block_height b); [|done]. cbn [with_block hcs_cnt hcs_conflicts hcs_pref
    hcs_last]. done.
Qed.

Lemma with_block_conflicts x o :
  hcs_conflicts (with_block x o) = {[ x ]} ∪ from_option hcs_conflicts ∅ o.
Proof.
  destruct o as [cs|]; cbn; [|set_solver]. by destruct (_ && _).
Qed.

(** Before any vote the lowest hash is preferred. *)
Definition unvoted X cs : Prop :=
  hcs_conflicts cs = X ∧ lowest (hcs_pref cs) X ∧ hcs_cnt cs = 0%Z.

Lemma with_block_unvoted X cs x :
  unvoted X cs → unvoted ({[ x ]} ∪ X) (with_block x (Some cs)).
Proof.
  intros (<- & [Hp Hlow] & Hc). unfold with_block. rewrite Hc.
  change (0 <? HAIL_BETA1)%Z with true. cbn [andb].
  set (cs1 := mkHailConflictSet _ _ _ _).
  assert (x ∈ hcs_conflicts cs1) as Hx by (cbn; set_solver).
  destruct (hcs_is_lowest_hash cs1 x) eqn:Hl.
  - apply (hcs_is_lowest_hash_spec cs1 x Hx) in Hl. done.
  - split_and!; [done| |done]. cbn. split; [set_solver|].
    intros y [->%elem_of_singleton|Hy]%elem_of_union; [|by apply Hlow].
    apply not_true_is_false. intros Hlt. apply not_true_iff_false in Hl. destruct Hl.
    apply (hcs_is_lowest_hash_spec cs1 x Hx). split; [done|]. cbn.
    intros z [->%elem_of_singleton|Hz]%elem_of_union; [apply bytes_ltb_irrefl|].
    apply not_true_is_false. intros Hzx. pose proof (bytes_ltb_trans _ _ _ Hzx Hlt).
    rewrite Hlow in *; done.
Qed.

Definition insert_blocks (bs : list Block) : st ConflictMap HailError.Error unit :=
  foreach bs (λ b, _ ← cm_insert_block b; mret tt).

Lemma insert_blocks_spec h bs m X :
  (∀ b, b ∈ bs → block_height b = h) →
  (m !! h = None ∧ X = ∅ ∨ ∃ cs, m !! h = Some cs ∧ unvoted X cs) → bs ≠ [] →
  ∃ m' cs, insert_blocks bs m = (m', Ok tt) ∧ m' !! h = Some cs ∧
    unvoted (list_to_set (block_id <$> bs) ∪ X) cs.
Proof.
  revert m X. induction bs as [|b bs IH]; intros m X Hh Hm Hne; [done|].
  unfold insert_blocks in *. rewrite foreach_cons.
  assert (block_height b = h) as Hbh by (apply Hh; set_solver).
  set (cs1 := with_block (block_id b) (m !! h)).
  assert (unvoted ({[ block_id b ]} ∪ X) cs1) as Hu.
  { unfold cs1. destruct Hm as [[-> ->]|(cs & -> & Hcs)]; [|by apply with_block_unvoted].
    split_and!; [cbn; set_solver| |done]. cbn. split; [set_solver|].
    intros y Hy. assert (y = block_id b) as -> by set_solver. apply bytes_ltb_irrefl. }
  erewrite st_bind_Ok; [|erewrite st_bind_Ok; [reflexivity|apply cm_insert_block_spec]].
  rewrite Hbh. fold cs1. destruct (decide (bs = [])) as [->|Hne'].
  - exists (<[h := cs1]> m), cs1. rewrite lookup_insert_eq. split_and!; [done|done|].
    cbn. replace ({[block_id b]} ∪ ∅ ∪ X) with ({[block_id b]} ∪ X) by set_solver. done.
  - destruct (IH (<[h := cs1]> m) ({[ block_id b ]} ∪ X)) as (m' & cs & Hr & Hl & Hcs).
    + set_solver.
    + right. exists cs1. by rewrite lookup_insert_eq.
    + done.
    + exists m', cs. split_and!; [exact Hr|done|]. cbn.
      replace ({[block_id b]} ∪ list_to_set (block_id <$> bs) ∪ X)
        with (list_to_set (block_id <$> bs) ∪ ({[block_id b]} ∪ X)) by set_solver. done.
Qed.

(** Before any vote, the preferred block of a height is the one with the
    lowest hash, whatever order the blocks arrive in: two nodes that receive the
    same blocks prefer the same one. *)
Theorem preference_independent_of_order h bs bs' m :
  m !! h = None → bs ≡ₚ bs' → bs ≠ [] → (∀ b, b ∈ bs → block_height b = h) →
  ∃ m1 cs1 m2 cs2, insert_blocks bs m = (m1, Ok tt) ∧ m1 !! h = Some cs1 ∧
    insert_blocks bs' m = (m2, Ok tt) ∧ m2 !! h = Some cs2 ∧
    hcs_conflicts cs1 = hcs_conflicts cs2 ∧ hcs_pref cs1 = hcs_pref cs2 ∧
    lowest (hcs_pref cs1) (list_to_set (block_id <$> bs)).
Proof.
  intros Hm Hp Hne Hh.
  destruct (insert_blocks_spec h bs m ∅) as (m1 & cs1 & H1' & H2' & Hc1 & Hl1 & _); [done|auto|done|].
  destruct (insert_blocks_spec h bs' m ∅) as (m2 & cs2 & H3' & H4' & Hc2 & Hl2 & _).
  { intros b Hb. apply Hh. by rewrite Hp. } { auto. }
  { intros ->. by apply Permutation_nil_r in Hp. }
  rewrite right_id_L in * by apply _.
  assert (list_to_set (block_id <$> bs) =@{gset BlockHash} list_to_set (block_id <$> bs')) as Heq.
  { apply set_eq. intros y. by rewrite !elem_of_list_to_set, Hp. }
  exists m1, cs1, m2, cs2. split_and!; [done..|congruence| |done].
  eapply lowest_unique; [exact Hl1|]. by rewrite Heq.
Qed.
End conflict_map_facts.

(** ** Finality *)
Section hail_finality.
Context `{Crypto, IterOrder, BuildProfile, Sled, BlockCodec, Rng, Sortition}.
Implicit Types (s : Hail) (cs : HailConflictSet) (h : BlockHeight) (a b : BlockHash).

(** The threshold that a block needs: lower when it has no rival. *)
Definition threshold cs : Z := if hcs_is_singleton cs then HAIL_BETA1 else HAIL_BETA2.

Lemma is_accepted_block_spec s h a cs :
  hl_conflict_map s !! h = Some cs →
  is_accepted_block s (mkVertex h a) =
    Ok (bool_decide (hcs_pref cs = a ∧ threshold cs ≤ hcs_cnt cs)%Z).
Proof.
  intros Hcs. unfold is_accepted_block, cm_is_singleton, cm_get_confidence, threshold.
  cbn [vertex_height vertex_hash]. rewrite Hcs. cbn [mbind res_bind].
  destruct (decide (hcs_pref cs = a)) as [Ha|Ha]; destruct (hcs_is_singleton cs);
    unfold HAIL_BETA1, HAIL_BETA2; cbn [mbind res_bind].
  - destruct (Z.leb_spec 11 (hcs_cnt cs)); f_equal.
    + by rewrite bool_decide_true.
    + rewrite bool_decide_false by lia. apply Z.leb_gt. lia.
  - f_equal. destruct (Z.leb_spec 20 (hcs_cnt cs)).
    + by rewrite bool_decide_true.
    + rewrite bool_decide_false by lia. done.
  - by rewrite bool_decide_false by naive_solver.
  - by rewrite bool_decide_false by naive_solver.
Qed.

(** C25: at any time at most one block of a height is final. *)
Theorem one_final_block_per_height s h a b :
  is_accepted_block s (mkVertex h a) = Ok true →
  is_accepted_block s (mkVertex h b) = Ok true → a = b.
Proof.
  destruct (hl_conflict_map s !! h) as [cs|] eqn:Hcs.
  - rewrite !(is_accepted_block_spec s h _ cs) by done.
    intros [= [<- _]%bool_decide_eq_true_1] [= [? _]%bool_decide_eq_true_1]. done.
  - unfold is_accepted_block, cm_is_singleton. cbn [vertex_height]. by rewrite Hcs.
Qed.

(** C26: over time this is lost.  When a rival overtakes the conviction of a final
    block, it takes over the preference together with the votes that were counted
    for the final one: it is final at once, and the other no longer is. *)
Theorem overtaken_block_passes_on_finality s h a b cs d1 d2 :
  hl_conflict_map s !! h = Some cs → hcs_pref cs = a → hcs_last cs = a → a ≠ b →
  (HAIL_BETA2 ≤ hcs_cnt cs)%Z → (d2 < d1)%Z →
  is_accepted_block s (mkVertex h a) = Ok true ∧
  ∃ s', on_conflict_map (cm_update_conflict_set h b d1 d2) s = (s', Ok tt) ∧
    is_accepted_block s' (mkVertex h a) = Ok false ∧
    is_accepted_block s' (mkVertex h b) = Ok true.
Proof.
  intros Hcs Hp Hl Hne Hcnt Hd. unfold HAIL_BETA2 in Hcnt.
  assert (threshold cs ≤ hcs_cnt cs)%Z as Ht
    by (unfold threshold, HAIL_BETA1, HAIL_BETA2; destruct (hcs_is_singleton cs); lia).
  split; [rewrite (is_accepted_block_spec s h a cs) by done; by rewrite bool_decide_true|].
  set (cs' := mkHailConflictSet (hcs_conflicts cs) b b (hcs_cnt cs)).
  exists (hl_set_conflict_map (<[h := cs']> (hl_conflict_map s)) s). split.
  - apply zoom_Ok. unfold cm_update_conflict_set, hcs_update. rewrite Hcs.
    rewrite (proj2 (Z.ltb_lt d2 d1)) by done. cbn [hcs_last hcs_conflicts hcs_pref hcs_cnt].
    rewrite decide_True by congruence. done.
  - assert (hl_conflict_map (hl_set_conflict_map (<[h := cs']> (hl_conflict_map s)) s) !! h =
      Some cs') as Hcs' by (cbn; by rewrite lookup_insert_eq).
    rewrite !(is_accepted_block_spec _ h _ cs') by done. split; f_equal.
    + apply bool_decide_false. cbn. naive_solver.
    + by apply bool_decide_true.
Qed.

(** The counter of a conflict set is a byte without a bound: a vote for a
    block with 255 votes panics in a build with overflow checks, and in one
    without them the counter starts again at zero, so that the final block is not
    final any more. *)
Theorem vote_counter_overflows s h a cs d1 d2 :
  hl_conflict_map s !! h = Some cs → hcs_pref cs = a → hcs_last cs = a →
  hcs_cnt cs = 255%Z →
  is_accepted_block s (mkVertex h a) = Ok true ∧
  (overflow_checks = true →
     (on_conflict_map (cm_update_conflict_set h a d1 d2) s).2 = Panic) ∧
  (overflow_checks = false →
     ∃ s', on_conflict_map (cm_update_conflict_set h a d1 d2) s = (s', Ok tt) ∧
       is_accepted_block s' (mkVertex h a) = Ok false).
Proof.
  intros Hcs Hp Hl Hcnt.
  assert (threshold cs ≤ hcs_cnt cs)%Z as Ht
    by (unfold threshold, HAIL_BETA1, HAIL_BETA2; destruct (hcs_is_singleton cs); lia).
  split; [rewrite (is_accepted_block_spec s h a cs) by done; by rewrite bool_decide_true|].
  set (cs' := mkHailConflictSet (hcs_conflicts cs) a a 0).
  assert (hcs_update a d1 d2 cs =
    if overflow_checks then (cs, Panic) else (cs', Ok tt)) as Hu.
  { unfold hcs_update. set (cs1 := if (d2 <? d1)%Z then _ else _).
    assert (cs1 = cs) as ->.
    { unfold cs1. destruct (d2 <? d1)%Z; [|done]. rewrite <- Hp. by destruct cs. }
    rewrite decide_False by (rewrite Hl; naive_solver).
    unfold mbind, st_bind, of_res, u_add, u_norm. rewrite Hcnt.
    rewrite decide_False by (unfold in_range; lia). destruct overflow_checks; [done|].
    unfold cs'. clear -Hp Hl. destruct cs; cbn in *. by subst. }
  unfold on_conflict_map, zoom, cm_update_conflict_set. rewrite Hcs, Hu. split; intros ->.
  - done.
  - eexists. split; [reflexivity|]. rewrite (is_accepted_block_spec _ h a cs').
    + f_equal. apply bool_decide_false. cbn. intros [_ Hle].
      unfold threshold, HAIL_BETA1, HAIL_BETA2 in Hle. destruct (hcs_is_singleton cs'); lia.
    + cbn. by rewrite lookup_insert_eq.
Qed.
End hail_finality.

(** ** Receiving blocks *)
Section hail_receive.
Context `{Crypto, IterOrder, BuildProfile, SL : SledLaws, BlockCodec, Rng, Sortition}.
Implicit Types (s : Hail) (b : HailBlock) (vx : Vertex).

Definition block_vertex b : Vertex := mkVertex (hail_block_height b) (block_id (hb_block b)).

Lemma hail_block_vertex_Ok b : hail_block_vertex b = Ok (block_vertex b).
Proof. done. Qed.

(** The block of [vx] is in the conflict set of its height. *)
Definition in_sets (m : gmap Z HailConflictSet) vx : Prop :=
  ∃ cs, m !! vertex_height vx = Some cs ∧ vertex_hash vx ∈ hcs_conflicts cs.

(** The invariant: the conflict sets hold exactly the blocks of the DAG, and each
    prefers one of its blocks. *)
Record hail_wf s : Prop := {
  hw_dag : dag_wf (hl_dag s);
  hw_sets : ∀ vx, vx ∈ dom (dag_g (hl_dag s)) ↔ in_sets (hl_conflict_map s) vx;
  hw_pref : ∀ h cs, hl_conflict_map s !! h = Some cs → hcs_pref cs ∈ hcs_conflicts cs
}.

(** A block that can be inserted: its parent is in the DAG, or it is a genesis
    block, and it is new. *)
Definition block_insertable s b : Prop :=
  insertable (hl_dag s) (block_vertex b) (option_list (hb_parent b)) ∧
  (hb_parent b = None → hail_block_height b = 0%Z).

Lemma in_sets_insert m h x vx :
  in_sets (<[h := with_block x (m !! h)]> m) vx ↔ vx = mkVertex h x ∨ in_sets m vx.
Proof.
  destruct vx as [vh vhash]. unfold in_sets. cbn.
  destruct (decide (h = vh)) as [<-|Hne].
  - rewrite lookup_insert_eq. split.
    + intros (cs & [= <-] & Hin). rewrite with_block_conflicts in Hin.
      apply elem_of_union in Hin as [->%elem_of_singleton|Hin]; [by left|right].
      destruct (m !! h) as [cs|]; cbn in Hin; [eauto|set_solver].
    + intros Hor. eexists. split; [done|]. rewrite with_block_conflicts.
      destruct Hor as [[= ->]|(cs & -> & Hin)]; cbn; set_solver.
  - rewrite lookup_insert_ne by done. split; [by right|]. intros [[= -> ->]|?]; done.
Qed.

Lemma hail_insert_spec s b :
  hail_wf s → block_insertable s b →
  ∃ s', hail_insert b s = (s', Ok tt) ∧ hail_wf s' ∧
    dag_g (hl_dag s') = <[block_vertex b := option_list (hb_parent b)]> (dag_g (hl_dag s)) ∧
    hl_conflict_map s' = <[hail_block_height b := with_block (block_id (hb_block b))
      (hl_conflict_map s !! hail_block_height b)]> (hl_conflict_map s) ∧
    hl_known_blocks s' = hl_known_blocks s.
Proof.
  intros Hwf [Hins Hgen]. set (vx := block_vertex b) in *.
  destruct (insert_vx_spec _ _ _ (hw_dag s Hwf) Hins) as (i' & Hdag & _).
  pose proof (insert_vx_wf _ _ _ _ (hw_dag s Hwf) Hins Hdag) as Hdw.
  set (cs' := with_block (block_id (hb_block b)) (hl_conflict_map s !! hail_block_height b)).
  match type of Hdag with _ = (?d, _) => set (d' := d) in * end.
  set (m' := <[hail_block_height b := cs']> (hl_conflict_map s)).
  exists (hl_set_dag d' (hl_set_conflict_map m' s)). split; [|split; [|done]].
  - assert (on_conflict_map (cm_insert_block (hb_block b)) s =
      (hl_set_conflict_map m' s, Ok cs')) as Hcm by (apply zoom_Ok, cm_insert_block_spec).
    unfold hail_insert. rewrite hail_block_vertex_Ok. cbn [unwrap_res]. fold vx.
    erewrite st_bind_Ok; [|reflexivity]. rewrite gets_bind.
    rewrite bool_decide_false by (rewrite <- elem_of_dom; apply Hins).
    destruct (hb_parent b) as [p|] eqn:Hp.
    + rewrite (st_bind_Ok _ _ _ _ _ Hcm). by apply zoom_Ok.
    + unfold vx at 1, block_vertex. cbn [vertex_height]. rewrite Hgen by done.
      cbn [Z.eqb]. rewrite (st_bind_Ok _ _ _ _ _ Hcm). by apply zoom_Ok.
  - split; cbn; [done| |].
    + intros v. rewrite dom_insert_L, elem_of_union, elem_of_singleton, (hw_sets s Hwf).
      unfold m', cs'. by rewrite in_sets_insert.
    + intros h cs. unfold m'. destruct (decide (hail_block_height b = h)) as [<-|].
      * rewrite lookup_insert_eq. intros [= <-]. unfold cs'.
        rewrite with_block_conflicts.
        destruct (hl_conflict_map s !! hail_block_height b) as [cs|] eqn:Hcs; [|cbn; set_solver].
        pose proof (hw_pref s Hwf _ _ Hcs). unfold with_block.
        destruct (_ && _); cbn; set_solver.
      * rewrite lookup_insert_ne by done. apply (hw_pref s Hwf).
Qed.

Definition stored s (h : BlockHash) : Prop := is_Some (sled_view (hl_known_blocks s) !! h).

Lemma receive_block_new s b :
  hail_wf s → ~ stored s (block_id (hb_block b)) → block_insertable s b →
  ∃ s', on_receive_block b s = (s', Ok true) ∧ hail_wf s' ∧
    stored s' (block_id (hb_block b)) ∧
    dag_g (hl_dag s') =
      <[block_vertex b := option_list (hb_parent b)]> (dag_g (hl_dag s)) ∧
    hl_conflict_map s' = <[hail_block_height b := with_block (block_id (hb_block b))
      (hl_conflict_map s !! hail_block_height b)]> (hl_conflict_map s).
Proof.
  intros Hwf Hst Hins. destruct (hail_insert_spec s b Hwf Hins) as (s1 & Hs1 & Hwf1 & Hg & Hm & Hkb).
  destruct (sled_insert_law (hl_known_blocks s1) (block_id (hb_block b))
    (ser_hail_block b)) as (db' & Hdb & Hv).
  exists (hl_set_known db' s1). split_and!; [|by destruct Hwf1; split| |done|done].
  - unfold on_receive_block. rewrite hail_block_hash_Ok. erewrite st_bind_Ok; [|reflexivity].
    erewrite reads_bind_Ok; [|unfold is_known_hail_block; by rewrite sled_contains_key_law].
    cbn [unwrap_res]. rewrite bool_decide_false by done. erewrite st_bind_Ok; [|exact Hs1].
    erewrite st_bind_Ok; [reflexivity|]. unfold on_known. eapply ignore_Ok, zoom_Ok.
    unfold insert_hail_block. rewrite hail_block_hash_Ok, Hdb. done.
  - unfold stored. cbn. rewrite Hv, lookup_insert_eq. by eexists.
Qed.

(** Receiving a block.  A known block changes nothing; a new block whose
    parent is in the DAG (or a genesis block) enters the conflict set of its
    height, the DAG and the storage, and the invariant holds again: the conflict
    sets hold exactly the blocks of the DAG and each prefers one of its own. *)
Theorem receive_block_spec s b :
  hail_wf s →
  (stored s (block_id (hb_block b)) → on_receive_block b s = (s, Ok false)) ∧
  (~ stored s (block_id (hb_block b)) → block_insertable s b →
     ∃ s', on_receive_block b s = (s', Ok true) ∧ hail_wf s' ∧
       stored s' (block_id (hb_block b)) ∧
       dag_g (hl_dag s') =
         <[block_vertex b := option_list (hb_parent b)]> (dag_g (hl_dag s)) ∧
       hl_conflict_map s' = <[hail_block_height b := with_block (block_id (hb_block b))
         (hl_conflict_map s !! hail_block_height b)]> (hl_conflict_map s)).
Proof.
  intros Hwf. split; [|by apply receive_block_new]. intros Hst.
  unfold on_receive_block. rewrite hail_block_hash_Ok. erewrite st_bind_Ok; [|reflexivity].
  erewrite reads_bind_Ok; [|unfold is_known_hail_block; by rewrite sled_contains_key_law].
  cbn [unwrap_res]. by rewrite bool_decide_true.
Qed.

(** *** A block with an unknown parent *)

Lemma conviction_undefined (d : DAG Vertex) vx :
  dag_chits d !! vx = None → conviction d vx = Err GraphError.UndefinedChit.
Proof. intros Hc. unfold conviction, inv_fuel, get_chit. cbn. unfold get_chit. by rewrite Hc. Qed.

(** A search reads the outgoing edges only. *)
Lemma dfs_same_edges (d d' : DAG Vertex) vx : dag_g d = dag_g d' → dfs d vx = dfs d' vx.
Proof.
  intros Hg. unfold dfs, dag_fuel. rewrite Hg.
  assert (∀ fuel it r, dfs_collect fuel d it r = dfs_collect fuel d' it r) as Hc; [|apply Hc].
  induction fuel as [|fuel IH]; intros it r; [done|]. cbn.
  assert (dfs_next d it = dfs_next d' it) as -> by (unfold dfs_next; by rewrite Hg).
  destruct (dfs_next d' it) as [[x|] it']; [apply IH|done].
Qed.

(** The ancestral update of a vertex fails when the preferred block of its
    height has no chit. *)
Lemma update_ancestral_dangling s s' vx x :
  dag_wf (hl_dag s) → dag_g (hl_dag s') = dag_g (hl_dag s) → vx ∈ dom (dag_g (hl_dag s)) →
  cm_get_preferred (hl_conflict_map s') (vertex_height vx) = Ok x →
  dag_chits (hl_dag s') !! mkVertex (vertex_height vx) x = None →
  ∀ s'', hail_update_ancestral_preference vx s' ≠ (s'', Ok tt).
Proof.
  intros Hwf Hg Hvx Hp Hc s'' Heq. unfold hail_update_ancestral_preference in Heq.
  apply st_bind_Ok_inv in Heq as (s1 & l & [-> Hl]%reads_Ok_inv & Heq).
  unfold hail_dfs in Hl. apply map_err_Ok_inv in Hl. rewrite (dfs_same_edges _ _ _ Hg) in Hl.
  destruct (dfs_reachable _ _ Hwf Hvx) as (l' & Hl' & _ & Hhd & _).
  rewrite Hl' in Hl. injection Hl as <-. destruct l' as [|v l']; [done|]. cbn in Hhd. simplify_eq.
  rewrite foreach_cons in Heq. apply st_bind_Ok_inv in Heq as (s1 & [] & Heq & _).
  apply st_bind_Ok_inv in Heq as (s2 & p & [-> Hp']%reads_Ok_inv & Heq).
  rewrite Hp in Hp'. injection Hp' as <-.
  apply st_bind_Ok_inv in Heq as (s2 & d1 & [-> _]%reads_Ok_inv & Heq).
  apply st_bind_Ok_inv in Heq as (s2 & d2 & [-> Hd2]%reads_Ok_inv & _).
  by rewrite conviction_undefined in Hd2.
Qed.

Lemma with_block_lowest x cs :
  (hcs_cnt cs < HAIL_BETA1)%Z → lowest x ({[ x ]} ∪ hcs_conflicts cs) →
  hcs_pref (with_block x (Some cs)) = x.
Proof.
  intros Hcnt Hlow. unfold with_block. rewrite (proj2 (Z.ltb_lt _ _)) by done. cbn [andb].
  match goal with |- context [hcs_is_lowest_hash ?c x] => set (c1 := c) end.
  by rewrite (proj2 (hcs_is_lowest_hash_spec c1 x ltac:(cbn; set_solver)) Hlow).
Qed.

(** Setting a chit changes no other chit and nothing else. *)
Lemma set_chit_frame v x s s' :
  on_hail_dag (set_chit v x) s = (s', Ok tt) →
  ∃ c, s' = hl_set_dag (set_chits c (hl_dag s)) s ∧
    ∀ u, u ≠ v → c !! u = dag_chits (hl_dag s) !! u.
Proof.
  unfold on_hail_dag, zoom, set_chit. intros Hset.
  destruct (dag_chits (hl_dag s) !! v) as [o|]; [destruct (o =? 1)%Z; cbn in Hset|];
    simplify_eq/=; eexists; (split; [reflexivity|]); intros u Hu; by rewrite ?lookup_insert_ne.
Qed.

(** A block with a low hash and an unknown parent is refused, but stays in the
    conflict set of its height and is preferred there; from then on no query for a
    block of that height can complete, because the preferred block has no vertex
    in the DAG and the handler unwraps the error. *)
Theorem unknown_parent_blocks_height s b p cs :
  hail_wf s → hb_parent b = Some p → p ∉ dom (dag_g (hl_dag s)) → p ≠ block_vertex b →
  ~ stored s (block_id (hb_block b)) → block_vertex b ∉ dom (dag_g (hl_dag s)) →
  dag_chits (hl_dag s) !! block_vertex b = None →
  hl_conflict_map s !! hail_block_height b = Some cs → (hcs_cnt cs < HAIL_BETA1)%Z →
  lowest (block_id (hb_block b)) ({[ block_id (hb_block b) ]} ∪ hcs_conflicts cs) →
  ∃ s', on_receive_block b s = (s', Err (HailError.Graph GraphError.VacantEntry)) ∧
    cm_get_preferred (hl_conflict_map s') (hail_block_height b) = Ok (block_id (hb_block b)) ∧
    ∀ b' acks s'', hail_block_height b' = hail_block_height b →
      block_vertex b' ∈ dom (dag_g (hl_dag s)) →
      f64_leb ALPHA (sum_outcomes (block_outcomes (cm_committee (hl_committee s)) acks)) = true →
      hail_query_complete b' acks s' ≠ (s'', Ok tt).
Proof.
  intros Hwf Hpar Hp Hne Hst Hvx Hchit Hcs Hcnt Hlow. set (x := block_id (hb_block b)) in *.
  set (vx := block_vertex b) in *.
  set (cs' := with_block x (Some cs)).
  set (m' := <[hail_block_height b := cs']> (hl_conflict_map s)).
  set (d' := set_inv (<[vx := []]> (dag_inv (hl_dag s))) (hl_dag s)).
  assert (∀ v, v ∉ dom (dag_g (hl_dag s)) → dag_inv (hl_dag s) !! v = None) as Hinv.
  { intros v Hv. apply not_elem_of_dom. by rewrite <- (wf_dom _ (hw_dag s Hwf)). }
  assert (hcs_pref cs' = x) as Hpref.
  { by apply with_block_lowest. }
  exists (hl_set_dag d' (hl_set_conflict_map m' s)). split_and!.
  - unfold on_receive_block. rewrite hail_block_hash_Ok. fold x.
    erewrite st_bind_Ok; [|reflexivity].
    erewrite reads_bind_Ok; [|unfold is_known_hail_block; by rewrite sled_contains_key_law].
    cbn [unwrap_res]. rewrite bool_decide_false by done.
    apply st_bind_Err. unfold hail_insert. rewrite hail_block_vertex_Ok. fold vx.
    erewrite st_bind_Ok; [|reflexivity]. rewrite gets_bind.
    rewrite bool_decide_false by (by rewrite <- elem_of_dom). rewrite Hpar.
    erewrite st_bind_Ok; [|apply zoom_Ok, cm_insert_block_spec]. fold x.
    change (block_height (hb_block b)) with (hail_block_height b). rewrite Hcs. fold cs' m'.
    unfold on_hail_dag, zoom. cbn [hl_dag hl_set_conflict_map].
    unfold insert_vx. rewrite modify_bind, (Hinv vx Hvx). fold d'. unfold mbind, st_bind.
    cbn [foreach]. unfold mbind, st_bind. unfold d' at 1. cbn [dag_inv set_inv].
    rewrite lookup_insert_ne, (Hinv p Hp) by done. done.
  - unfold cm_get_preferred. cbn. unfold m'. rewrite lookup_insert_eq. by rewrite Hpref.
  - intros b' acks s'' Hh Hb' Hyes Heq. unfold hail_query_complete in Heq.
    rewrite gets_bind in Heq. cbn [hl_committee hl_set_dag hl_set_conflict_map] in Heq.
    rewrite Hyes in Heq. apply st_bind_Ok_inv in Heq as (s1 & [] & Heq & _).
    rewrite hail_block_vertex_Ok in Heq.
    apply st_bind_Ok_inv in Heq as (s2 & v & Hv & Heq).
    unfold of_res in Hv. cbn in Hv. injection Hv as <- <-.
    apply st_bind_Ok_inv in Heq as (s3 & [] & Hset%unwrap_st_Ok_inv & Heq).
    apply st_bind_Ok_inv in Heq as (s4 & [] & Hup%unwrap_st_Ok_inv & _).
    apply set_chit_frame in Hset as (c & -> & Hch). cbn in Hch.
    refine (update_ancestral_dangling s _ (block_vertex b') x _ _ _ _ _ _ Hup);
      [apply Hwf|done|done| |].
    + unfold cm_get_preferred. cbn. rewrite Hh. unfold m'. rewrite lookup_insert_eq. by rewrite Hpref.
    + cbn. rewrite Hh. change (mkVertex (hail_block_height b) x) with vx.
      rewrite Hch; [done|]. intros ->. done.
Qed.
End hail_receive.

(** ** Parent selection *)
Section hail_parent.
Context `{Crypto, IterOrder, BuildProfile, SL : SledLaws, BlockCodec, Rng, Sortition}.
Implicit Types (s : Hail) (v : Vertex) (h : BlockHeight).

(** The block of [v] is the preferred one of its height. *)
Definition block_preferred s v : Prop :=
  ∃ cs, hl_conflict_map s !! vertex_height v = Some cs ∧ hcs_pref cs = vertex_hash v.

Definition block_strongly_preferred s v : Prop :=
  ∀ a, rtc (parent_of (hl_dag s)) v a → block_preferred s a.

(** A possible parent for a block of height [h]. *)
Definition candidate s h v : Prop :=
  v ∈ dom (dag_g (hl_dag s)) ∧ vertex_height v = (h - 1)%Z ∧ block_strongly_preferred s v.

Definition preferredb s v : bool :=
  match cm_is_preferred (hl_conflict_map s) (vertex_height v) (vertex_hash v) with
  | Ok b => b
  | _ => false
  end.

Lemma preferredb_spec s v : preferredb s v = true ↔ block_preferred s v.
Proof.
  unfold preferredb, cm_is_preferred, block_preferred, hcs_is_preferred.
  destruct (hl_conflict_map s !! vertex_height v) as [cs|]; [|naive_solver].
  rewrite bool_decide_eq_true. naive_solver.
Qed.

(** The search from [v] and whether all it finds is preferred. *)
Definition ancestry s v : list Vertex :=
  match hail_dfs s v with Ok l => l | _ => [] end.
Definition strongb s v : bool := forallb (preferredb s) (ancestry s v).

Lemma ancestry_spec s v :
  hail_wf s → v ∈ dom (dag_g (hl_dag s)) →
  hail_dfs s v = Ok (ancestry s v) ∧
  (∀ a, a ∈ ancestry s v ↔ rtc (parent_of (hl_dag s)) v a) ∧
  (∀ a, a ∈ ancestry s v → a ∈ dom (dag_g (hl_dag s))).
Proof.
  intros Hwf Hv. destruct (dfs_reachable _ v (hw_dag s Hwf) Hv) as (l & Hl & _ & _ & Hr).
  assert (hail_dfs s v = Ok l) as Hd by (unfold hail_dfs; by rewrite Hl).
  unfold ancestry. rewrite Hd. split_and!; [done|done|].
  intros a Ha%Hr. apply elem_of_dom.
  eapply rtc_adj_closed; [apply wf_closed_g, Hwf| |exact Ha]. by apply elem_of_dom.
Qed.

Lemma strongly_preferred_spec s v :
  hail_wf s → v ∈ dom (dag_g (hl_dag s)) →
  hail_is_strongly_preferred s v = Ok (strongb s v) ∧
  (strongb s v = true ↔ block_strongly_preferred s v).
Proof.
  intros Hwf Hv. destruct (ancestry_spec s v Hwf Hv) as (Hd & Hr & Hdom). split.
  - unfold hail_is_strongly_preferred. rewrite Hd. cbn [mbind res_bind].
    apply all_res_Ok. intros a Ha. unfold preferredb, cm_is_preferred.
    destruct (proj1 (hw_sets s Hwf a) (Hdom a Ha)) as (cs & Hcs & _). by rewrite Hcs.
  - unfold strongb. rewrite forallb_true_iff. unfold block_strongly_preferred.
    split; intros Hall a Ha; apply preferredb_spec, Hall; by apply Hr.
Qed.

Lemma parent_candidates_spec s h l :
  hail_wf s → (1 ≤ h < 2 ^ 64)%Z → (∀ v, v ∈ l → v ∈ dom (dag_g (hl_dag s))) →
  parent_candidates s h l =
    Ok (filter (λ v, strongb s v = true ∧ vertex_height v = (h - 1)%Z) l).
Proof.
  intros Hwf Hh. induction l as [|v l IH]; intros Hl; [done|]. cbn [parent_candidates].
  destruct (strongly_preferred_spec s v Hwf) as [Hs _]; [set_solver|].
  rewrite Hs, filter_cons. cbn [mbind res_bind].
  unfold u_sub. rewrite u_norm_in_range by (unfold in_range; lia).
  destruct (strongb s v); cbn [mbind res_bind]; rewrite IH by set_solver; cbn [mbind res_bind].
  - case_bool_decide; case_decide; naive_solver.
  - case_decide; naive_solver.
Qed.

Lemma scan_lowest_vertex_in v l : scan_lowest_vertex v l ∈ v :: l.
Proof.
  revert v. unfold scan_lowest_vertex. induction l as [|x l IH]; intros v; cbn; [set_solver|].
  specialize (IH (if bytes_ltb (vertex_hash x) (vertex_hash v) then x else v)).
  case_match; set_solver.
Qed.

Lemma scan_lowest_vertex_hash v l :
  vertex_hash (scan_lowest_vertex v l) = scan_lowest (vertex_hash v) (vertex_hash <$> l).
Proof.
  revert v. unfold scan_lowest_vertex, scan_lowest.
  induction l as [|x l IH]; intros v; [done|]. cbn. rewrite IH.
  f_equal. by destruct (bytes_ltb _ _).
Qed.

(** The parent of a new block of height [h] is a strongly preferred vertex of
    height [h - 1] with the lowest hash among these; without such a vertex the
    selection panics, and an empty DAG is an error. *)
Theorem select_parent_spec s h :
  hail_wf s → (1 ≤ h < 2 ^ 64)%Z →
  (dag_g (hl_dag s) = ∅ → select_parent h s = Err HailError.EmptyDAG) ∧
  (dag_g (hl_dag s) ≠ ∅ → (∀ v, ~ candidate s h v) → select_parent h s = Panic) ∧
  ((∃ v, candidate s h v) → ∃ v, select_parent h s = Ok v ∧ candidate s h v ∧
     ∀ u, candidate s h u → bytes_ltb (vertex_hash u) (vertex_hash v) = false).
Proof.
  intros Hwf Hh.
  set (cands := mjoin ((λ leaf, filter (λ v, strongb s v = true ∧ vertex_height v = (h - 1)%Z)
    (ancestry s leaf)) <$> leaves (hl_dag s))).
  assert (∀ v, v ∈ cands ↔ candidate s h v) as Hc.
  { intros v. unfold cands, candidate. rewrite list_elem_of_join. split.
    - intros (row & Hv & (leaf & -> & Hlf)%list_elem_of_fmap).
      apply list_elem_of_filter in Hv as [[Hst Hvh] Hv].
      apply leaves_dom in Hlf; [|apply Hwf].
      destruct (ancestry_spec s leaf Hwf Hlf) as (_ & _ & Hd). specialize (Hd v Hv).
      split_and!; [done|done|]. by apply (strongly_preferred_spec s v Hwf Hd).
    - intros (Hv & Hvh & Hst). destruct (leaf_cover _ v (hw_dag s Hwf) Hv) as (leaf & Hlf & Hr).
      pose proof (leaves_dom _ _ (hw_dag s Hwf) Hlf) as Hld.
      eexists. split; [|apply list_elem_of_fmap; exists leaf; done].
      apply list_elem_of_filter. split; [|by apply (ancestry_spec s leaf Hwf Hld)].
      split; [|done]. by apply (strongly_preferred_spec s v Hwf Hv). }
  assert (dag_g (hl_dag s) ≠ ∅ → select_parent h s = match cands with
    | [] => Panic | v :: vxs => Ok (scan_lowest_vertex v vxs) end) as Hsel.
  { intros Hne. unfold select_parent. rewrite decide_False by done.
    rewrite (try_map_Ok _ (λ leaf, filter (λ v, strongb s v = true ∧
      vertex_height v = (h - 1)%Z) (ancestry s leaf))); [done|].
    intros leaf Hlf. apply leaves_dom in Hlf; [|apply Hwf].
    destruct (ancestry_spec s leaf Hwf Hlf) as (Hd & _ & Hdom). rewrite Hd.
    cbn [mbind res_bind]. by apply parent_candidates_spec. }
  split_and!.
  - intros He. unfold select_parent. by rewrite decide_True.
  - intros Hne Hno. rewrite Hsel by done. destruct cands as [|v vs]; [done|].
    destruct (Hno v). apply Hc. set_solver.
  - intros [v0 Hv0]. assert (dag_g (hl_dag s) ≠ ∅) as Hne.
    { intros He. destruct Hv0 as [Hd _]. rewrite He in Hd. set_solver. }
    rewrite Hsel by done. apply Hc in Hv0. destruct cands as [|v vs]; [set_solver|].
    exists (scan_lowest_vertex v vs). split_and!; [done|apply Hc, scan_lowest_vertex_in|].
    intros u Hu%Hc. rewrite scan_lowest_vertex_hash. apply scan_lowest_le.
    rewrite <- fmap_cons. apply list_elem_of_fmap. eauto.
Qed.
End hail_parent.

(** ** The committee and block production *)
Section committee_facts.
Context `{Crypto, IterOrder, BuildProfile, Sortition}.
Implicit Types (c : Committee) (vs : gmap Id (SocketAddr * Z)).

Definition weigh (total : Z) (v : SocketAddr * Z) : SocketAddr * Weight :=
  (v.1, percent_of v.2 total).

(** The sortition selects the holder of [sc] with the identity [id]. *)
Definition selected (vrf : VrfOutput) (total : Z) (es : f64) (id : Id) (sc : Z) : Prop :=
  (0 < sortition_select sc total es (compute_vrf_h id vrf))%Z.

Lemma committee_loop_spec vrf total es l cm ps :
  NoDup l.*1 → (∀ id, id ∈ l.*1 → cm !! id = None) →
  ∃ cm' ps', committee_loop vrf total es l cm ps = Ok (cm', ps') ∧
    (∀ id w, cm' !! id = Some w ↔ cm !! id = Some w ∨ ∃ v, (id, v) ∈ l ∧ w = weigh total v) ∧
    (∀ x, x ∈ ps' ↔ x ∈ ps ∨ ∃ id v, (id, v) ∈ l ∧ selected vrf total es id v.2 ∧
       x = compute_vrf_h id vrf).
Proof.
  revert cm ps. induction l as [|[id [ip sc]] l IH]; intros cm ps Hnd Hnone.
  { exists cm, ps. split_and!; [done| |]; set_solver. }
  rewrite fmap_cons in *. cbn [fst] in *. apply NoDup_cons in Hnd as [Hid Hnd].
  cbn [committee_loop]. rewrite (Hnone id) by set_solver.
  destruct (IH (<[id := weigh total (ip, sc)]> cm) (if (0 <? sortition_select sc total es
    (compute_vrf_h id vrf))%Z then {[ compute_vrf_h id vrf ]} ∪ ps else ps))
    as (cm' & ps' & Heq & Hcm & Hps); [done| |].
  { intros id' Hid'. rewrite lookup_insert_ne by (intros ->; done). apply Hnone. set_solver. }
  exists cm', ps'. split_and!; [exact Heq| |].
  - intros id' w. rewrite Hcm. setoid_rewrite elem_of_cons.
    destruct (decide (id = id')) as [<-|Hne].
    + rewrite lookup_insert_eq, (Hnone id) by set_solver. split.
      * intros [[= <-]|(v & Hv & ->)]; right; [exists (ip, sc)|exists v]; auto.
      * intros [?|(v & [[= ->]|Hv] & ->)]; [done|by left|right; eauto].
    + rewrite lookup_insert_ne by done. naive_solver.
  - intros x. rewrite Hps. setoid_rewrite elem_of_cons. unfold selected.
    destruct (Z.ltb_spec 0 (sortition_select sc total es (compute_vrf_h id vrf))) as [Hs|Hs].
    + split.
      * intros [[->%elem_of_singleton|?]%elem_of_union|(id' & v & ? & ? & ?)];
          [right; exists id, (ip, sc)|by left|right; exists id', v]; auto.
      * intros [?|(id' & v & [[= -> ->]|?] & ? & ->)];
          [left; set_solver|left; set_solver|right; eauto].
    + split; [naive_solver|]. intros [?|(id' & v & [[= -> ->]|?] & Hsel & ->)];
        [by left|cbn in Hsel; lia|right; eauto].
Qed.

(** The committee of the next block.  When the total stake is a 64-bit number,
    every validator is a member with its share of the total (the own stake
    included) as weight; the block producers are exactly the validators, and the
    node itself, that the sortition selects; the node has a slot exactly when it is
    selected, and its proposal is open again. *)
Theorem committee_next_spec c own vrf vs :
  (0 ≤ own)%Z → (∀ id v, vs !! id = Some v → 0 ≤ v.2)%Z →
  in_range 64 (own + zsum ((λ e : Id * (SocketAddr * Z), e.2.2) <$> map_to_list vs)) →
  let total := (own + zsum ((λ e : Id * (SocketAddr * Z), e.2.2) <$> map_to_list vs))%Z in
  let es := expected_size (size vs) in
  ∃ c', committee_next own vrf vs c = (c', Ok tt) ∧
    cm_committee c' = weigh total <$> vs ∧ cm_block_proposed c' = false ∧
    (∀ x, x ∈ cm_block_producers c' ↔
       (selected vrf total es (cm_self_id c) own ∧ x = compute_vrf_h (cm_self_id c) vrf) ∨
       ∃ id v, vs !! id = Some v ∧ selected vrf total es id v.2 ∧ x = compute_vrf_h id vrf) ∧
    (∀ x, cm_block_production_slot c' = Some x ↔
       selected vrf total es (cm_self_id c) own ∧ x = compute_vrf_h (cm_self_id c) vrf).
Proof.
  intros Hown Hvs Hr total es. unfold committee_next, next_committee.
  assert (∀ c1, cm_validators c1 = vs →
    calculate_total_staking_capacity c1 own = @Ok HailError.Error _ total) as Htot.
  { intros c1 Hc1. unfold calculate_total_staking_capacity. rewrite Hc1.
    assert (((λ e : Id * (SocketAddr * Z), e.2.2) <$> iter_map vs) ≡ₚ
      ((λ e : Id * (SocketAddr * Z), e.2.2) <$> map_to_list vs)) as Hp
      by (by rewrite iter_map_perm).
    rewrite u_sum_Ok; [by rewrite Hp|done| |by rewrite Hp].
    apply Forall_forall. intros z ([id v] & -> & Hin%elem_of_iter_map)%list_elem_of_fmap.
    by apply (Hvs id v). }
  cbn [cm_self_staking_capacity cm_self_id]. rewrite Htot by done. cbn [mbind res_bind].
  fold es. destruct (committee_loop_spec vrf total es (iter_map vs) ∅ ∅) as (cm' & ps' & -> & Hcm & Hps).
  { apply NoDup_iter_map_fst. } { intros. apply lookup_empty. }
  cbn [mbind res_bind fst snd].
  assert (cm' = weigh total <$> vs) as ->.
  { apply map_eq. intros id. apply option_eq. intros w. rewrite Hcm, lookup_empty, lookup_fmap_Some.
    setoid_rewrite elem_of_iter_map. naive_solver. }
  destruct (Z.ltb_spec 0 (sortition_select own total es (compute_vrf_h (cm_self_id c) vrf)))
    as [Hs|Hs]; (eexists; split; [reflexivity|]); cbn; (split_and!; [done|done| |]).
  - intros x. rewrite elem_of_union, elem_of_singleton, Hps. setoid_rewrite elem_of_iter_map.
    unfold selected at 1. set_solver.
  - intros x. unfold selected. naive_solver.
  - intros x. rewrite Hps. setoid_rewrite elem_of_iter_map. unfold selected at 2.
    split; [set_solver|]. intros [[? _]|?]; [lia|by right].
  - intros x. unfold selected. split; [done|]. intros [? _]. lia.
Qed.
End committee_facts.

Section block_production.
Context `{Crypto, IterOrder, BuildProfile, Sled, BlockCodec, Rng, Sortition}.
Implicit Types s : Hail.

(** Accepted cells are put into a block only by a node with a slot that has
    not proposed yet; the block extends the last block at the next height, and
    after it the node proposes nothing more until the committee changes. *)
Theorem one_proposal_per_slot s cs vrf last :
  cm_block_production_slot (hl_committee s) = Some vrf →
  cm_block_proposed (hl_committee s) = false →
  hl_last_accepted_hash s = Some last → in_range 64 (hl_height s + 1) →
  ∃ s', hail_accepted_cells cs s = (s', Ok tt) ∧
    hl_out s' = hl_out s ++
      [HNotifyGenerateBlock (mkBlock (Some last) (hl_height s + 1) vrf cs)] ∧
    hl_dag s' = hl_dag s ∧ hl_conflict_map s' = hl_conflict_map s ∧
    ∀ cs', hail_accepted_cells cs' s' = (s', Ok tt).
Proof.
  intros Hslot Hprop Hlast Hh. unfold hail_accepted_cells.
  rewrite gets_bind, Hslot, gets_bind, Hprop.
  erewrite reads_bind_Ok; [|by rewrite Hlast].
  erewrite reads_bind_Ok; [|unfold u_add; by rewrite u_norm_in_range].
  eexists. split; [reflexivity|]. split_and!; [done..|].
  intros cs'. rewrite gets_bind. cbn [hl_committee hl_set_committee hl_emit set_block_proposed
    cm_block_production_slot]. rewrite Hslot. done.
Qed.
End block_production.

(** ** Witnesses *)
Section hail_witnesses.
#[local] Existing Instance plain_crypto.
#[local] Existing Instance canonical_order.
#[local] Existing Instance release_profile.
#[local] Existing Instance map_sled.
#[local] Existing Instance map_sled_laws.
#[local] Existing Instance num_block_codec.
#[local] Existing Instance keep_order.

(** A sortition that selects every holder of a stake. *)
Definition by_stake : Sortition := {| sortition_select sc _ _ _ := sc |}.
#[local] Existing Instance by_stake.

Definition gen : HailBlock := mkHailBlock None (mkBlock None 0 [0%Z] []).
Definition child (p : HailBlock) (h n : Z) : HailBlock :=
  mkHailBlock (Some (block_vertex p)) (mkBlock (Some (block_id (hb_block p))) h [n] []).
Definition b1 : HailBlock := child gen 1 1.
Definition b2 : HailBlock := child gen 1 2.
Definition node : Id := [7%Z].
Definition addr : SocketAddr := mkSocketAddr [127; 0; 0; 1]%Z 80.

Definition h_empty : Hail := hail_new node (∅ : gmap bytes bytes) (∅ : gmap bytes bytes).
Definition h_gen : Hail := (on_receive_block gen h_empty).1.
Definition h_one : Hail := (on_receive_block b1 h_gen).1.

Ltac evaluate :=
  first [vm_compute; reflexivity | apply (bool_decide_unpack _); vm_compute; exact I].

Lemma h_empty_wf : hail_wf h_empty.
Proof.
  split; [apply dag_new_wf| |].
  - intros vx. cbn. rewrite dom_empty_L. split; [set_solver|].
    intros (cs & Hcs & _). cbn in Hcs. by rewrite lookup_empty in Hcs.
  - intros h cs Hcs. cbn in Hcs. by rewrite lookup_empty in Hcs.
Qed.

Lemma receive_block_wf s b :
  hail_wf s → ~ stored s (block_id (hb_block b)) → block_insertable s b →
  hail_wf (on_receive_block b s).1.
Proof.
  intros Hwf Hst Hins. by destruct (receive_block_new s b Hwf Hst Hins) as (s' & -> & Hw & _).
Qed.

Lemma h_gen_wf : hail_wf h_gen.
Proof.
  apply receive_block_wf; [apply h_empty_wf|evaluate|]. split; [|done]. evaluate.
Qed.
Lemma h_one_wf : hail_wf h_one.
Proof.
  apply receive_block_wf; [apply h_gen_wf|evaluate|]. split; [|done]. evaluate.
Qed.

Definition blk (n : Z) : Block := hb_block (child gen 1 n).

Lemma preference_independent_of_order_witness :
  ∃ m1 cs1 m2 cs2, insert_blocks [blk 2; blk 1; blk 3] ∅ = (m1, Ok tt) ∧
    m1 !! 1%Z = Some cs1 ∧ insert_blocks [blk 1; blk 2; blk 3] ∅ = (m2, Ok tt) ∧
    m2 !! 1%Z = Some cs2 ∧ hcs_pref cs1 = hcs_pref cs2.
Proof.
  destruct (preference_independent_of_order 1 [blk 2; blk 1; blk 3] [blk 1; blk 2; blk 3] ∅)
    as (m1 & cs1 & m2 & cs2 & H1 & H2 & H3 & H4 & _ & H5 & _).
  - reflexivity.
  - apply perm_swap.
  - discriminate.
  - intros b Hb. assert (Forall (λ b, block_height b = 1%Z) [blk 2; blk 1; blk 3]) as Hall
      by (repeat constructor). rewrite Forall_forall in Hall. exact (Hall b Hb).
  - exists m1, cs1, m2, cs2. auto.
Defined.

(** [b1] with 25 votes, and then with 255, against [b2]. *)
Definition votes (n : Z) : HailConflictSet :=
  mkHailConflictSet {[ block_id (blk 1); block_id (blk 2) ]} (block_id (blk 1))
    (block_id (blk 1)) n.
Definition h_votes (n : Z) : Hail := hl_set_conflict_map {[ 1%Z := votes n ]} h_one.

Lemma one_final_block_per_height_witness :
  is_accepted_block (h_votes 25) (mkVertex 1 (block_id (blk 1))) = Ok true ∧
  ∀ b, is_accepted_block (h_votes 25) (mkVertex 1 b) = Ok true → block_id (blk 1) = b.
Proof.
  split; [evaluate|]. intros b Hb.
  apply (one_final_block_per_height (h_votes 25) 1 (block_id (blk 1)) b); [evaluate|exact Hb].
Defined.

Lemma overtaken_block_passes_on_finality_witness :
  is_accepted_block (h_votes 25) (mkVertex 1 (block_id (blk 1))) = Ok true ∧
  ∃ s', on_conflict_map (cm_update_conflict_set 1 (block_id (blk 2)) 30 25) (h_votes 25) =
      (s', Ok tt) ∧
    is_accepted_block s' (mkVertex 1 (block_id (blk 1))) = Ok false ∧
    is_accepted_block s' (mkVertex 1 (block_id (blk 2))) = Ok true.
Proof.
  apply (overtaken_block_passes_on_finality (h_votes 25) 1 (block_id (blk 1))
    (block_id (blk 2)) (votes 25) 30 25); [reflexivity..|evaluate| |lia].
  vm_compute. discriminate.
Defined.

Lemma vote_counter_overflows_witness :
  is_accepted_block (h_votes 255) (mkVertex 1 (block_id (blk 1))) = Ok true ∧
  ∃ s', on_conflict_map (cm_update_conflict_set 1 (block_id (blk 1)) 3 3) (h_votes 255) =
      (s', Ok tt) ∧
    is_accepted_block s' (mkVertex 1 (block_id (blk 1))) = Ok false.
Proof.
  destruct (vote_counter_overflows (h_votes 255) 1 (block_id (blk 1)) (votes 255) 3 3)
    as (H1 & _ & H2); [reflexivity..|].
  split; [exact H1|]. apply H2. reflexivity.
Defined.

Lemma receive_block_spec_witness :
  ∃ s', on_receive_block b2 h_one = (s', Ok true) ∧ hail_wf s'.
Proof.
  destruct (receive_block_spec h_one b2 h_one_wf) as [_ H].
  destruct H as (s' & H1 & H2 & _); [evaluate|split; [evaluate|discriminate]|].
  exists s'. split; [exact H1|exact H2].
Defined.

(** A block of height 1 whose parent nobody knows, with a hash below that of
    [b1]. *)
Definition orphan : HailBlock :=
  mkHailBlock (Some (mkVertex 0 [9%Z])) (mkBlock None 1 [] []).

Definition h_orphan : Hail :=
  hl_set_committee (committee_next 1 [5%Z] {[ node := (addr, 1%Z) ]} (hl_committee h_one)).1 h_one.
Definition acks : list HailResponse := [QueryBlockAck node (block_id (blk 1)) true].

Lemma h_orphan_wf : hail_wf h_orphan.
Proof. destruct h_one_wf. by split. Qed.

Lemma unknown_parent_blocks_height_witness :
  (hail_query_complete b1 acks h_orphan).2 = Ok tt ∧
  ∃ s', on_receive_block orphan h_orphan = (s', Err (HailError.Graph GraphError.VacantEntry)) ∧
    ∀ s'', hail_query_complete b1 acks s' ≠ (s'', Ok tt).
Proof.
  split; [evaluate|].
  destruct (hl_conflict_map h_orphan !! 1%Z) as [cs|] eqn:Hcs; [|vm_compute in Hcs; discriminate].
  assert (hcs_cnt <$> hl_conflict_map h_orphan !! 1%Z = Some 0%Z) as Hcnt by evaluate.
  assert (hcs_conflicts <$> hl_conflict_map h_orphan !! 1%Z = Some {[ block_id (blk 1) ]})
    as Hset by evaluate.
  rewrite Hcs in Hcnt, Hset. injection Hcnt as Hcnt. injection Hset as Hset.
  destruct (unknown_parent_blocks_height h_orphan orphan (mkVertex 0 [9%Z]) cs)
    as (s' & H1 & _ & H2).
  - exact h_orphan_wf.
  - reflexivity.
  - evaluate.
  - evaluate.
  - evaluate.
  - evaluate.
  - evaluate.
  - exact Hcs.
  - rewrite Hcnt. evaluate.
  - rewrite Hset. split; [evaluate|].
    assert (set_Forall (λ y, bytes_ltb y (block_id (hb_block orphan)) = false)
      ({[ block_id (hb_block orphan); block_id (blk 1) ]} : gset BlockHash)) as Hall by evaluate.
    exact Hall.
  - exists s'. split; [exact H1|]. intros s''. apply H2; evaluate.
Defined.

Lemma select_parent_spec_witness :
  select_parent 2 h_one = Ok (block_vertex b1) ∧
  ∃ v, select_parent 2 h_one = Ok v ∧ candidate h_one 2 v.
Proof.
  split; [evaluate|].
  destruct (select_parent_spec h_one 2 h_one_wf) as (_ & _ & H); [lia|].
  destruct H as (v & H1 & H2 & _); [|exists v; split; [exact H1|exact H2]].
  exists (block_vertex b1). split; [evaluate|]. split; [evaluate|].
  apply (strongly_preferred_spec h_one (block_vertex b1) h_one_wf); evaluate.
Defined.

Lemma committee_next_spec_witness :
  ∃ c', committee_next 3 [5%Z] {[ [8%Z] := (addr, 1%Z) ]} (committee_empty node) = (c', Ok tt) ∧
    cm_committee c' = {[ [8%Z] := (addr, percent_of 1 4) ]}.
Proof.
  destruct (committee_next_spec (committee_empty node) 3 [5%Z] {[ [8%Z] := (addr, 1%Z) ]})
    as (c' & H1 & H2 & _).
  - lia.
  - intros id v Hv. apply lookup_singleton_Some in Hv as [_ <-]. cbn. lia.
  - evaluate.
  - exists c'. split; [exact H1|]. rewrite H2. evaluate.
Defined.

Definition h_slot : Hail := hl_set_last (Some [1%Z]) 4
  (hl_set_committee (committee_next 3 [5%Z] ∅ (committee_empty node)).1 h_one).

Lemma one_proposal_per_slot_witness :
  ∃ s', hail_accepted_cells [] h_slot = (s', Ok tt) ∧
    ∀ cs', hail_accepted_cells cs' s' = (s', Ok tt).
Proof.
  destruct (one_proposal_per_slot h_slot [] (compute_vrf_h node [5%Z]) [1%Z])
    as (s' & H1 & _ & _ & _ & H2).
  - evaluate.
  - evaluate.
  - evaluate.
  - evaluate.
  - exists s'. split; [exact H1|exact H2].
Defined.
End hail_witnesses.
