(* ===== verification/HailMachine.v ===== *)
(** * HailMachine.v: hail as a state machine (the handlers of src/src/hail/hail.rs)

    A step is a message with any content, or the response to a request of hail.  The
    invariant holds after every sequence of steps, also when handlers failed or
    panicked half way, and every handler ends. *)

From stdpp Require Import prelude gmap sets fin_sets list relations strings.
From Stdlib Require Import ZArith Lia SpecFloat.
From S2P Require Import Prelude Orders Cell Instances Dag DagFacts ConflictGraph Blocks Storage SledInstances Util Hail HailFacts.
From S2P Require Import Triples SleetMachine SleetTermination.

Section hail_machine.
Context `{Crypto, IterOrder, BuildProfile, SL : SledLaws, BlockCodec, Rng, Sortition}.
Implicit Types (s : Hail) (b : HailBlock) (vx : Vertex).

(** The vertices that were announced as accepted. *)
Definition announced_vertices (out : list HailEffect) : list Vertex :=
  omap (λ e, match e with HNotifyAccepted vx => Some vx | _ => None end) out.

(** ** The conflict sets *)

(** The counter is a byte, and no block leaves its set. *)
Record sets_ok (m0 m : gmap Z HailConflictSet) : Prop := {
  so_counter : ∀ h cs, m !! h = Some cs → in_range 8 (hcs_cnt cs);
  so_members : ∀ vx, in_sets m0 vx → in_sets m vx
}.

Lemma sets_ok_insert m0 m h cs :
  sets_ok m0 m → in_range 8 (hcs_cnt cs) →
  (∀ cs0, m !! h = Some cs0 → hcs_conflicts cs0 ⊆ hcs_conflicts cs) →
  sets_ok m0 (<[h := cs]> m).
Proof.
  intros [Hc Hm] Hcs Hsub. split.
  - intros h' cs'. rewrite lookup_insert_Some. intros [[_ <-]|[_ ?]]; eauto.
  - intros vx (cs0 & Hl & Hin)%Hm. destruct (decide (h = vertex_height vx)) as [->|Hne].
    + exists cs. rewrite lookup_insert_eq. split; [done|]. by apply (Hsub cs0).
    + exists cs0. by rewrite lookup_insert_ne.
Qed.

Lemma cm_insert_block_keeps m0 (b : Block) : keep (sets_ok m0) (cm_insert_block b).
Proof.
  intros m Hm. rewrite cm_insert_block_spec. split; [|done]. apply sets_ok_insert; [done| |].
  - unfold with_block. destruct (m !! block_height b) as [cs|] eqn:Hl; [|by unfold in_range; cbn].
    case_match; [by unfold in_range; cbn|]. cbn. exact (so_counter _ _ Hm _ _ Hl).
  - intros cs0 Hl. rewrite Hl. rewrite with_block_conflicts. cbn. set_solver.
Qed.

Lemma u_add_range {E} w a c n : (0 ≤ w)%Z → u_add (E:=E) w a c = Ok n → in_range w n.
Proof. intros Hw Hn. by eapply u_norm_range. Qed.

Lemma cm_update_keeps m0 h x d1 d2 : keep (sets_ok m0) (cm_update_conflict_set h x d1 d2).
Proof.
  intros m Hm. split; [|done]. unfold cm_update_conflict_set.
  destruct (m !! h) as [cs|] eqn:Hl; [|done].
  destruct (hcs_update x d1 d2 cs) as [cs' r] eqn:Hu. cbn.
  pose proof (so_counter _ _ Hm _ _ Hl) as Hc.
  assert (in_range 8 (hcs_cnt cs') ∧ hcs_conflicts cs' = hcs_conflicts cs) as [Hc' He].
  { unfold hcs_update in Hu. destruct (decide _) as [_|_].
    - injection Hu as <- _. by destruct (d2 <? d1)%Z.
    - unfold mbind, st_bind, of_res in Hu.
      destruct (u_add 8 _ 1) as [n|e| |] eqn:Hn; injection Hu as <- _;
        [split; [by eapply (u_add_range 8)|]|..]; by destruct (d2 <? d1)%Z. }
  apply sets_ok_insert; [done..|]. intros cs0 Hl'. rewrite He. by simplify_eq.
Qed.

(** ** The DAG *)

(** Chits are 0 or 1, and no vertex is removed. *)
Record graph_ok (d0 d : DAG Vertex) : Prop := {
  go_chits : chits_ok d;
  go_vertices : dom (dag_g d0) ⊆ dom (dag_g d)
}.

Lemma set_chit_keeps_graph d0 v c : c = 0%Z ∨ c = 1%Z → keep (graph_ok d0) (set_chit v c).
Proof.
  intros Hc d [Hd Hv]. destruct (set_chit_keeps v c Hc d Hd) as [Hk _]. split; [|done].
  split; [done|]. unfold set_chit. by repeat case_match.
Qed.

Lemma insert_vx_graph d0 v edges : keep (graph_ok d0) (insert_vx v edges).
Proof.
  unfold insert_vx. eapply (triple_bind _ _ _ (λ _, True)); [|intros _ _].
  { apply triple_modify; [|done]. intros d []. case_match; by split. }
  eapply (triple_bind _ _ _ (λ _, True)); [|intros _ _].
  { apply triple_foreach. intros u _ d []. cbn. case_match; (split; [|done]); by split. }
  eapply (triple_bind _ _ _ (λ _, True)); [|intros _ _; apply set_chit_keeps_graph; by left].
  intros d []. case_match; (split; [|done]); [by split|]. split; [done|]. cbn.
  rewrite dom_insert_L. set_solver.
Qed.

(** ** The actor *)
Record hail_inv s0 s : Prop := {
  hi_known : dom (sled_view (hl_known_blocks s0)) ⊆ dom (sled_view (hl_known_blocks s));
  hi_queried : dom (sled_view (hl_queried_blocks s0)) ⊆ dom (sled_view (hl_queried_blocks s));
  hi_sets : sets_ok (hl_conflict_map s0) (hl_conflict_map s);
  hi_graph : graph_ok (hl_dag s0) (hl_dag s);
  hi_live : ∀ h blk, hl_live_blocks s !! h = Some blk → block_id blk = h;
  hi_served : dom (hl_live_blocks s0) ⊆ dom (hl_live_blocks s);
  hi_announced : NoDup (announced_vertices (hl_out s));
  hi_accepted : hl_accepted_vertices s = list_to_set (announced_vertices (hl_out s));
  hi_reported : hl_accepted_vertices s0 ⊆ hl_accepted_vertices s;
  hi_self : hl_node_id s = hl_node_id s0 ∧ cm_self_id (hl_committee s) = cm_self_id (hl_committee s0)
}.

Section steps.
Context (s0 : Hail).
Abbreviation I := (hail_inv s0).

Lemma on_conflict_map_keeps {A} (m : st ConflictMap HailError.Error A) Q :
  triple (sets_ok (hl_conflict_map s0)) m Q → triple I (on_conflict_map m) Q.
Proof. apply triple_zoom; [by intros s []|]. intros s d [] ?. by split. Qed.

Lemma on_hail_dag_keeps {A} (m : st (DAG Vertex) GraphError.Error A) Q :
  triple (graph_ok (hl_dag s0)) m Q → triple I (on_hail_dag m) Q.
Proof. apply triple_zoom; [by intros s []|]. intros s d [] ?. by split. Qed.

Lemma insert_hail_block_keeps (X : gset bytes) b :
  keep (λ db, X ⊆ dom (sled_view db)) (insert_hail_block b).
Proof.
  intros db Hdb. unfold insert_hail_block. rewrite hail_block_hash_Ok.
  destruct (sled_insert_law db (block_id (hb_block b)) (ser_hail_block b)) as (db' & -> & Hv).
  split; [|done]. cbn. rewrite Hv, dom_insert_L. set_solver.
Qed.

Lemma on_known_keeps b : keep I (on_known (insert_hail_block b)).
Proof.
  apply triple_ignore. eapply triple_zoom; [| |apply insert_hail_block_keeps].
  - intros s Hs. exact (hi_known _ _ Hs).
  - intros s d [] ?. by split.
Qed.

Lemma on_queried_keeps b : keep I (zoom hl_queried_blocks hl_set_queried
  (λ e : StorageError.Error, e) (insert_hail_block b)).
Proof.
  eapply triple_zoom; [| |apply insert_hail_block_keeps].
  - intros s Hs. exact (hi_queried _ _ Hs).
  - intros s d [] ?. by split.
Qed.

Lemma on_committee_keeps cap vrf vs : keep I (on_committee (committee_next cap vrf vs)).
Proof.
  eapply triple_zoom with (J := λ c, cm_self_id c = cm_self_id (hl_committee s0)).
  - intros s Hs. apply Hs.
  - intros s c [] Hc. split; try done. by destruct hi_self0.
  - intros c Hc. split; [|done]. unfold committee_next. by destruct (next_committee _ _ _) as [[[? ?] ?]|e| |].
Qed.

Definition is_accepted_effect (e : HailEffect) : bool :=
  match e with HNotifyAccepted _ => true | _ => false end.

Lemma hail_notify_keeps e : is_accepted_effect e = false → keep I (hail_notify e).
Proof.
  intros He. apply triple_modify; [|done]. intros s [].
  assert (announced_vertices (hl_out (hl_emit e s)) = announced_vertices (hl_out s)) as Ha.
  { unfold announced_vertices, hl_emit. cbn. rewrite omap_app. cbn. destruct e; try done; apply app_nil_r. }
  split; rewrite ?Ha; done.
Qed.
Hint Extern 1 (triple _ (hail_notify _) _) => (apply hail_notify_keeps; reflexivity) : keeps.
Hint Extern 2 (triple _ (on_conflict_map _) _) => (apply on_conflict_map_keeps) : keeps.
Hint Extern 2 (triple _ (on_hail_dag _) _) => (apply on_hail_dag_keeps) : keeps.
Hint Extern 1 (triple _ (on_hail_dag (set_chit _ 1)) _) => (apply on_hail_dag_keeps, set_chit_keeps_graph; right; reflexivity) : keeps.
Hint Resolve cm_insert_block_keeps cm_update_keeps insert_vx_graph on_known_keeps on_queried_keeps
  on_committee_keeps : keeps.
Hint Extern 1 (triple _ (modify (hl_set_last _ _)) _) => (apply triple_modify; [by intros ? []; split|done]) : keeps.

Lemma hail_insert_keeps b : keep I (hail_insert b).
Proof. unfold hail_insert. keeps. Qed.
Hint Resolve hail_insert_keeps : keeps.

Lemma on_receive_block_keeps b : keep I (on_receive_block b).
Proof. unfold on_receive_block. keeps. Qed.
Hint Resolve on_receive_block_keeps : keeps.

Lemma hail_update_keeps vx : keep I (hail_update_ancestral_preference vx).
Proof. unfold hail_update_ancestral_preference. keeps. Qed.
Hint Resolve hail_update_keeps : keeps.

Lemma first_accepted_member s l vx : first_accepted s l = Ok (Some vx) → vx ∈ l.
Proof.
  induction l as [|v l IH]; cbn; [done|]. intros ([] & _ & Hr)%res_bind_Ok_inv.
  - injection Hr as ->. by left.
  - right. by apply IH.
Qed.

(** A vertex is announced when it is put among those that were. *)
Lemma announce_new s vx : I s → vx ∉ hl_accepted_vertices s →
  I (hl_emit (HNotifyAccepted vx) (hl_set_accepted ({[ vx ]} ∪ hl_accepted_vertices s) s)).
Proof.
  intros [] Hn.
  assert (announced_vertices (hl_out s ++ [HNotifyAccepted vx]) =
    announced_vertices (hl_out s) ++ [vx]) as Ha.
  { unfold announced_vertices. by rewrite omap_app. }
  split; try done; cbn [hl_emit hl_set_accepted hl_out hl_accepted_vertices]; rewrite ?Ha.
  - apply NoDup_app. split_and!; [done| |apply NoDup_singleton].
    intros v Hv ->%list_elem_of_singleton. apply Hn. rewrite hi_accepted0. by apply elem_of_list_to_set.
  - rewrite list_to_set_app_L, hi_accepted0. cbn. set_solver.
  - set_solver.
Qed.

Lemma announce_keeps vx : keep I (
  maybe_accepted ← unwrap_st (next_accepted_vertex vx);
  match maybe_accepted with
  | Some accepted => hail_notify (HNotifyAccepted accepted)
  | None => mret tt
  end).
Proof.
  intros s Hs. split; [|done]. unfold unwrap_st, next_accepted_vertex, mbind, st_bind, reads.
  destruct (hail_dfs s vx) as [l|e| |]; cbn; [|done..].
  destruct (first_accepted s _) as [[v|]|e| |] eqn:Hf; cbn; [|done..].
  apply announce_new; [done|]. apply first_accepted_member, list_elem_of_filter in Hf. tauto.
Qed.

(** *** Handlers *)
Lemma hail_live_committee_keeps h b n cap vs vrf : keep I (hail_live_committee h b n cap vs vrf).
Proof. unfold hail_live_committee. keeps. Qed.

Lemma live_block_keeps vx b : block_vertex b = vx →
  keep I (modify (E:=HailError.Error) (λ s, hl_set_live (<[vertex_hash vx := hb_block b]> (hl_live_blocks s)) s)).
Proof.
  intros <-. apply triple_modify; [|done]. intros s []. split; cbn; try done.
  - intros h blk. rewrite lookup_insert_Some. intros [[<- <-]|[_ ?]]; [done|eauto].
  - rewrite dom_insert_L. set_solver.
Qed.

Lemma hail_query_complete_keeps b acks : keep I (hail_query_complete b acks).
Proof.
  unfold hail_query_complete. eapply (triple_bind _ _ _ (λ _, True)); [by apply triple_gets|].
  intros outcomes _. eapply (triple_bind _ _ _ (λ _, True)); [|intros _ _; keeps].
  destruct (f64_leb _ _); [|by apply triple_ret]. rewrite hail_block_vertex_Ok.
  eapply (triple_bind _ _ _ (λ v, v = block_vertex b)).
  { apply triple_of_res. by intros ? [= <-]. }
  intros vx ->. pose proof (live_block_keeps (block_vertex b) b eq_refl) as Hl.
  pose proof (announce_keeps (block_vertex b)) as Ha. keeps.
Qed.

Lemma hail_fresh_block_keeps seed b : keep I (hail_fresh_block seed b).
Proof. unfold hail_fresh_block. keeps. Qed.

Lemma hail_fresh_block_response_keeps b vs r : keep I (hail_fresh_block_response b vs r).
Proof. unfold hail_fresh_block_response. keeps. Qed.

Lemma hail_query_block_keeps b : keep I (hail_query_block b).
Proof. unfold hail_query_block. keeps. Qed.

Lemma hail_generate_block_keeps blk : keep I (hail_generate_block blk).
Proof. unfold hail_generate_block. keeps. Qed.

Lemma hail_accepted_cells_keeps cs : keep I (hail_accepted_cells cs).
Proof.
  assert (keep I (modify (E:=HailError.Error) (λ s, hl_set_committee (set_block_proposed true (hl_committee s)) s))).
  { apply triple_modify; [|done]. intros s []. by split. }
  unfold hail_accepted_cells. keeps.
Qed.
End steps.

(** ** The machine *)

(** [announced] may restrict the committees that alpha names. *)
Inductive hail_step_with (announced : BlockHash → HailBlock → BlockHeight → Z →
    gmap Id (SocketAddr * Z) → VrfOutput → Prop) : Hail → Hail → Prop :=
| hail_step_live_committee h b n cap vs vrf s :
    announced h b n cap vs vrf → hail_step_with announced s (hail_live_committee h b n cap vs vrf s).1
| hail_step_query_incomplete b acks s : hail_step_with announced s (hail_query_incomplete b acks s).1
| hail_step_accepted vx s : hail_step_with announced s (hail_accepted vx s).1
| hail_step_query_complete b acks s : hail_step_with announced s (hail_query_complete b acks s).1
| hail_step_fresh_block seed b s : hail_step_with announced s (hail_fresh_block seed b s).1
| hail_step_fresh_block_response b vs r s : hail_step_with announced s (hail_fresh_block_response b vs r s).1
| hail_step_query_block b s : hail_step_with announced s (hail_query_block b s).1
| hail_step_generate_block blk s : hail_step_with announced s (hail_generate_block blk s).1
| hail_step_accepted_cells cs s : hail_step_with announced s (hail_accepted_cells cs s).1.

(** Any committee may be named. *)
Definition hail_step : Hail → Hail → Prop := hail_step_with (λ _ _ _ _ _ _, True).

Lemma hail_step_any announced s s' : hail_step_with announced s s' → hail_step s s'.
Proof. by destruct 1; constructor. Qed.

Hint Resolve hail_live_committee_keeps hail_query_complete_keeps hail_fresh_block_keeps
  hail_fresh_block_response_keeps hail_query_block_keeps hail_generate_block_keeps
  hail_accepted_cells_keeps : keeps.

Lemma hail_step_keeps s0 s s' : hail_step s s' → hail_inv s0 s → hail_inv s0 s'.
Proof.
  destruct 1; try done; intros Hs;
    (eapply triple_run; [|exact Hs|apply surjective_pairing]; eauto 1 with keeps).
Qed.

Lemma hail_reachable_keeps s0 s s' : rtc hail_step s s' → hail_inv s0 s → hail_inv s0 s'.
Proof. induction 1; eauto using hail_step_keeps. Qed.

Lemma hail_new_inv id known queried :
  hail_inv (hail_new id known queried) (hail_new id known queried).
Proof.
  split; try done; cbn; [split..|constructor]; try done.
Qed.

(** C24: The invariant of hail as a state machine.  Take a node that has just started and
    any sequence of messages and responses of any content; also handlers that failed or
    panicked half way count.  Between any two states that are reached no known or
    queried block, no vertex of the DAG, no member of a conflict set and no block that is
    served is lost; every counter is a byte and every chit 0 or 1; a block that is served
    has the hash under which it is stored; and every accepted vertex is announced to
    the actor exactly once. *)
Theorem hail_reachable_invariant id known queried s s' :
  rtc hail_step (hail_new id known queried) s → rtc hail_step s s' → hail_inv s s'.
Proof.
  intros Hs Hs'. eapply hail_reachable_keeps; [exact Hs'|].
  destruct (hail_reachable_keeps _ _ _ Hs (hail_new_inv id known queried)) as [? ? [] [] ? ? ? ? ? ?].
  by split.
Qed.
End hail_machine.

(** ** Termination *)
Section hail_ends.
Context `{Crypto, IterOrder, BuildProfile, SL : SledLaws, BlockCodec, Rng, Sortition}.
Implicit Types (s : Hail) (b : HailBlock) (vx : Vertex).
Abbreviation always := (λ _ : Hail, True).

Lemma on_hail_dag_ends {A} (m : st (DAG Vertex) GraphError.Error A) :
  ends (λ _, True) m → ends always (on_hail_dag m).
Proof. by apply ends_zoom. Qed.

Lemma on_conflict_map_ends {A} (m : st ConflictMap HailError.Error A) :
  ends (λ _, True) m → ends always (on_conflict_map m).
Proof. by apply ends_zoom. Qed.

Lemma cm_insert_block_ends (b : Block) : ends (λ _, True) (cm_insert_block b).
Proof. intros m _. by rewrite cm_insert_block_spec. Qed.

Lemma u_add_finishes {E} w a c : finishes (u_add (E:=E) w a c).
Proof. unfold u_add, u_norm. by repeat case_match. Qed.

Lemma cm_update_ends h x d1 d2 : ends (λ _, True) (cm_update_conflict_set h x d1 d2).
Proof.
  intros m _. split; [done|]. unfold cm_update_conflict_set. destruct (m !! h) as [cs|]; [|done].
  assert (finishes (hcs_update x d1 d2 cs).2) as Hf.
  { unfold hcs_update. destruct (decide _); [done|]. unfold mbind, st_bind, of_res.
    pose proof (u_add_finishes (E:=HailError.Error) 8
      (hcs_cnt (if (d2 <? d1)%Z then mkHailConflictSet (hcs_conflicts cs) x (hcs_last cs) (hcs_cnt cs)
                else cs)) 1) as Hu.
    by destruct (u_add _ _ _). }
  by destruct (hcs_update x d1 d2 cs).
Qed.

Lemma insert_hail_block_ends b : ends (λ _, True) (insert_hail_block b).
Proof.
  intros db _. unfold insert_hail_block. rewrite hail_block_hash_Ok.
  by destruct (sled_insert_law db (block_id (hb_block b)) (ser_hail_block b)) as (db' & -> & _).
Qed.

Lemma on_known_ends b : ends always (on_known (insert_hail_block b)).
Proof. apply ends_ignore. apply ends_zoom with (J := λ _, True); [done..|apply insert_hail_block_ends]. Qed.

Lemma on_queried_ends b : ends always (zoom hl_queried_blocks hl_set_queried
  (λ e : StorageError.Error, e) (insert_hail_block b)).
Proof. apply ends_zoom with (J := λ _, True); [done..|apply insert_hail_block_ends]. Qed.

Lemma u_sum_finishes {E} w acc l : finishes (u_sum (E:=E) w acc l).
Proof.
  revert acc. induction l as [|z l IH]; intros acc; cbn; [done|].
  apply finishes_bind; [apply u_add_finishes|done].
Qed.

Lemma committee_loop_finishes vrf tsc es vs cm ps : finishes (committee_loop vrf tsc es vs cm ps).
Proof.
  revert cm ps. induction vs as [|[id [ip sc]] vs IH]; intros cm ps; cbn; [done|]. by case_match.
Qed.

Lemma on_committee_ends cap vrf vs : ends always (on_committee (committee_next cap vrf vs)).
Proof.
  eapply ends_zoom with (J := λ _, True); [done..|]. intros c _. split; [done|].
  unfold committee_next. match goal with |- context [next_committee ?a ?b ?c] =>
    assert (finishes (next_committee a b c)) as Hf end.
  { unfold next_committee, calculate_total_staking_capacity. cbn zeta.
    apply finishes_bind; [apply u_sum_finishes|intros tsc].
    apply finishes_bind; [apply committee_loop_finishes|intros r]. by case_match. }
  by destruct (next_committee _ _ _) as [[[? ?] ?]|e| |].
Qed.

Lemma hail_dfs_finishes s vx : finishes (hail_dfs s vx).
Proof. apply finishes_map_err, dfs_ends. Qed.

Lemma hail_conviction_finishes s vx : finishes (map_err HailError.Graph (conviction (hl_dag s) vx)).
Proof. apply finishes_map_err, conviction_ends. Qed.

Lemma known_finishes s h : finishes (is_known_hail_block (hl_known_blocks s) h).
Proof. unfold is_known_hail_block. by rewrite sled_contains_key_law. Qed.
Hint Resolve cm_insert_block_ends cm_update_ends on_known_ends on_queried_ends on_committee_ends
  hail_dfs_finishes hail_conviction_finishes known_finishes insert_vx_ends set_chit_ends
  u_add_finishes : ends.
Hint Extern 2 (ends _ (on_hail_dag _)) => (apply on_hail_dag_ends) : ends.
Hint Extern 2 (ends _ (on_conflict_map _)) => (apply on_conflict_map_ends) : ends.

Lemma hail_insert_ends b : ends always (hail_insert b).
Proof. unfold hail_insert. rewrite hail_block_vertex_Ok. ending. Qed.

Lemma on_receive_block_ends b : ends always (on_receive_block b).
Proof.
  pose proof (hail_insert_ends b) as Hi. unfold on_receive_block. rewrite hail_block_hash_Ok. ending.
Qed.
Hint Resolve hail_insert_ends on_receive_block_ends : ends.

Lemma hail_is_strongly_preferred_finishes s vx : finishes (hail_is_strongly_preferred s vx).
Proof. unfold hail_is_strongly_preferred, cm_is_preferred. ending. Qed.
Hint Resolve hail_is_strongly_preferred_finishes : ends.

Lemma parent_candidates_finishes s h l : finishes (parent_candidates s h l).
Proof.
  assert (∀ w a c, finishes (u_sub (E:=HailError.Error) w a c)) as Hsub.
  { intros w a c. unfold u_sub, u_norm. by repeat case_match. }
  induction l as [|v l IH]; cbn [parent_candidates]; ending.
Qed.
Hint Resolve parent_candidates_finishes : ends.

Lemma select_parent_finishes h s : finishes (select_parent h s).
Proof. unfold select_parent. ending. Qed.

Lemma hail_update_ends vx : ends always (hail_update_ancestral_preference vx).
Proof. unfold hail_update_ancestral_preference, cm_get_preferred. ending. Qed.

Lemma first_accepted_finishes s l : finishes (first_accepted s l).
Proof.
  induction l as [|v l IH]; cbn [first_accepted]; [done|].
  unfold hail_is_accepted, is_accepted_block, cm_is_singleton, cm_get_confidence. ending.
Qed.
Hint Resolve select_parent_finishes hail_update_ends first_accepted_finishes : ends.

Lemma next_accepted_ends vx : ends always (next_accepted_vertex vx).
Proof. unfold next_accepted_vertex. ending. Qed.

Lemma hail_notify_ends e : ends always (hail_notify e).
Proof. by apply ends_modify. Qed.
Hint Resolve next_accepted_ends hail_notify_ends : ends.

Lemma hail_live_committee_ends h b n cap vs vrf : ends always (hail_live_committee h b n cap vs vrf).
Proof. unfold hail_live_committee. ending. Qed.

Lemma hail_query_complete_ends b acks : ends always (hail_query_complete b acks).
Proof. unfold hail_query_complete. rewrite hail_block_vertex_Ok. ending. Qed.

Lemma hail_fresh_block_ends seed b : ends always (hail_fresh_block seed b).
Proof. unfold hail_fresh_block, hail_sample, ok_or. ending. Qed.

Lemma hail_fresh_block_response_ends b vs r : ends always (hail_fresh_block_response b vs r).
Proof. unfold hail_fresh_block_response. ending. Qed.

Lemma hail_query_block_ends b : ends always (hail_query_block b).
Proof. unfold hail_query_block. rewrite hail_block_vertex_Ok. ending. Qed.

Lemma hail_generate_block_ends blk : ends always (hail_generate_block blk).
Proof. unfold hail_generate_block. rewrite block_hash_Ok. ending. Qed.

Lemma hail_accepted_cells_ends cs : ends always (hail_accepted_cells cs).
Proof. unfold hail_accepted_cells, unwrap. ending. Qed.
Hint Resolve hail_live_committee_ends hail_query_complete_ends hail_fresh_block_ends
  hail_fresh_block_response_ends hail_query_block_ends hail_generate_block_ends
  hail_accepted_cells_ends : ends.

(** Every handler of hail ends in every state, however broken its DAG and its conflict
    sets are. *)
Theorem hail_handlers_end s :
  (∀ h b n cap vs vrf, finishes (hail_live_committee h b n cap vs vrf s).2) ∧
  (∀ b acks, finishes (hail_query_complete b acks s).2) ∧
  (∀ seed b, finishes (hail_fresh_block seed b s).2) ∧
  (∀ b vs r, finishes (hail_fresh_block_response b vs r s).2) ∧
  (∀ b, finishes (hail_query_block b s).2) ∧
  (∀ blk, finishes (hail_generate_block blk s).2) ∧
  (∀ cs, finishes (hail_accepted_cells cs s).2).
Proof. split_and!; intros; apply (ends_run always); auto 1 with ends. Qed.
End hail_ends.

(** ** Witness *)
Section hail_machine_witness.
#[local] Existing Instance plain_crypto.
#[local] Existing Instance canonical_order.
#[local] Existing Instance release_profile.
#[local] Existing Instance map_sled.
#[local] Existing Instance map_sled_laws.
#[local] Existing Instance num_block_codec.
#[local] Existing Instance keep_order.
#[local] Existing Instance by_stake.

(** The committee of the genesis block, and then the query of the block [b1] after it. *)
Definition h_live : Hail :=
  (hail_live_committee (block_id (hb_block gen)) gen 0 10 ∅ [5%Z] h_empty).1.
Definition h_queried : Hail := (hail_query_block b1 h_live).1.

Lemma hail_reachable_invariant_witness :
  bool_decide (block_vertex b1 ∈ dom (dag_g (hl_dag h_queried))) = true ∧
  hail_inv h_live h_queried.
Proof.
  split; [vm_compute; reflexivity|].
  apply (hail_reachable_invariant node (hl_known_blocks h_empty) (hl_queried_blocks h_empty)).
  - apply rtc_once, (hail_step_live_committee _ _ gen 0 10 ∅ [5%Z]); exact I.
  - apply rtc_once, hail_step_query_block.
Defined.
End hail_machine_witness.
