(* ===== verification/Ice.v ===== *)
(** * Ice.v: peer liveness and the bootstrap quorum (src/src/ice/)

    The reservoir keeps a decision ([Live] or [Faulty]) and a conviction for every
    peer; the outcomes that other peers report are collected in a quorum per peer,
    and a full quorum strengthens or flips the decision.  [Ice] is the actor.  The
    conviction and the number of bootstrapped peers are counters of events and are
    kept as [nat]. *)

From stdpp Require Import prelude gmap sets list.
From Stdlib Require Import ZArith Lia SpecFloat.
From S2P Require Import Prelude Orders Cell Util.

(** ** Constants (src/src/ice/constants.rs) *)
Definition PING_MAX_SIZE : nat := 11.
Definition K : nat := 2.
Definition ICE_BETA1 : nat := 3.
(** [(K as f64 * ALPHA).ceil() as usize]; [ice::ALPHA] is the [ALPHA] of Util.v *)
Definition quorum_threshold : nat :=
  Z.to_nat (f64_to_usize (f64_ceil (f64_mul (f64_of_u64 (Z.of_nat K)) ALPHA))).

(** ** Choices, queries and quorums (choice.rs, query.rs, quorum.rs) *)
Inductive Choice : Type := Live | Faulty.

#[export] Instance Choice_eq_dec : EqDecision Choice.
Proof. solve_decision. Defined.

Record Query : Type := mkQuery { q_peer_id : Id; q_peer_ip : SocketAddr; q_choice : Choice }.
Record Outcome : Type := mkOutcome { oc_peer_id : Id; oc_choice : Choice }.

(** [Quorum] wraps a [HashMap<Id, Choice>]. *)
Abbreviation Quorum := (gmap Id Choice) (only parsing).

Section quorum.
Context `{IterOrder}.

Definition count (c : Choice) (q : gmap Id Choice) : nat :=
  length (filter (λ e : Id * Choice, e.2 = c) (iter_map q)).

(** [Quorum::decide] *)
Definition quorum_decide (q : gmap Id Choice) : option Choice :=
  if (quorum_threshold <? count Live q)%nat then Some Live
  else if (quorum_threshold <? count Faulty q)%nat then Some Faulty
  else None.
End quorum.

(** ** The reservoir (reservoir.rs) *)
Abbreviation PeerDecision := (SocketAddr * Choice * nat)%type (only parsing).

Record Reservoir : Type := mkReservoir {
  rv_quorums : gmap Id (gmap Id Choice);
  rv_decisions : gmap Id (SocketAddr * Choice * nat);
  rv_random_queue : list (Id * (SocketAddr * Choice * nat));
  rv_nbootstrapped : nat
}.

Definition rv_set_quorums x r :=
  mkReservoir x (rv_decisions r) (rv_random_queue r) (rv_nbootstrapped r).
Definition rv_set_decisions x r :=
  mkReservoir (rv_quorums r) x (rv_random_queue r) (rv_nbootstrapped r).
Definition rv_set_queue x r :=
  mkReservoir (rv_quorums r) (rv_decisions r) x (rv_nbootstrapped r).
Definition rv_set_nbootstrapped x r :=
  mkReservoir (rv_quorums r) (rv_decisions r) (rv_random_queue r) x.

Section reservoir.
Context `{IterOrder, Rng}.
Implicit Types (r : Reservoir) (id : Id).

Definition reservoir_new : Reservoir := mkReservoir ∅ ∅ [] 0.

Definition rv_len r : nat := size (rv_decisions r).
Definition get_decision r id : option PeerDecision := rv_decisions r !! id.
Definition get_decisions r : list (Id * PeerDecision) := iter_map (rv_decisions r).

(** A decision for [choice] with a conviction of at least [BETA1]. *)
Definition get_endpoint_having_strong_choice r id (choice : Choice) : option SocketAddr :=
  match rv_decisions r !! id with
  | Some (ip, c, conviction) =>
      if bool_decide (c = choice) && (ICE_BETA1 <=? conviction)%nat then Some ip else None
  | None => None
  end.

Definition get_live_endpoint r id : option SocketAddr :=
  get_endpoint_having_strong_choice r id Live.

Definition get_live_peers r : list (Id * SocketAddr) :=
  omap (λ e : Id * PeerDecision,
    let '(id, (ip, choice, conviction)) := e in
    if bool_decide (choice = Live) && (ICE_BETA1 <=? conviction)%nat then Some (id, ip) else None)
    (iter_map (rv_decisions r)).

Definition rv_insert id (ip : SocketAddr) (choice : Choice) (conviction : nat) r : Reservoir :=
  rv_set_decisions (<[id := (ip, choice, conviction)]> (rv_decisions r)) r.

Definition rv_insert_new id (ip : SocketAddr) (choice : Choice) (conviction : nat) r :
    Reservoir :=
  match rv_decisions r !! id with
  | Some _ => r
  | None => rv_set_decisions (<[id := (ip, choice, conviction)]> (rv_decisions r)) r
  end.

Definition set_choice id (new_choice : Choice) r : Reservoir :=
  match rv_decisions r !! id with
  | Some (ip, _, _) => rv_set_decisions (<[id := (ip, new_choice, 0)]> (rv_decisions r)) r
  | None => r
  end.

Definition update_choice id (new_choice : Choice) r : Reservoir * bool :=
  let r' :=
    match rv_decisions r !! id with
    | Some (ip, choice, _) =>
        if bool_decide (choice ≠ new_choice) then
          rv_set_decisions (<[id := (ip, new_choice, 0)]> (rv_decisions r)) r
        else r
    | None => r
    end in
  (r', (K <=? rv_nbootstrapped r')%nat).

(** [permute]: the entries below the threshold, shuffled. *)
Definition permute (seed : nat) r : Reservoir * bool :=
  let queue := filter (λ e : Id * PeerDecision, e.2.2 < ICE_BETA1) (iter_map (rv_decisions r)) in
  match queue with
  | [] => (r, false)
  | _ => (rv_set_queue (shuffle seed queue) r, true)
  end.

(** The loop of [sample]: two rounds at most per sampled entry, and the round
    that leaves. *)
Fixpoint sample_queue (fuel : nat) (seed i : nat) (samples : gmap Id PeerDecision) r :
    res unit (Reservoir * gmap Id PeerDecision) :=
  match fuel with
  | O => OutOfFuel
  | S fuel' =>
      if (K <=? i)%nat then Ok (r, samples)
      else
        match list.last (rv_random_queue r) with
        | Some (id, entry) =>
            sample_queue fuel' seed (S i) (<[id := entry]> samples)
              (rv_set_queue (removelast (rv_random_queue r)) r)
        | None =>
            match permute seed r with
            | (r', true) => sample_queue fuel' (S seed) i samples r'
            | (r', false) => Ok (r', samples)
            end
        end
  end.

Definition reservoir_sample (seed : nat) r : res unit (Reservoir * gmap Id PeerDecision) :=
  if (0 <? size (rv_decisions r))%nat then sample_queue (S (2 * K)) seed 0 ∅ r
  else Ok (r, ∅).

Definition reset_faulty_decision id r : Reservoir :=
  match rv_decisions r !! id with
  | Some (ip, Faulty, _) => rv_set_decisions (<[id := (ip, Live, 0)]> (rv_decisions r)) r
  | _ => r
  end.

Definition reset_conviction id r : Reservoir :=
  match rv_decisions r !! id with
  | Some (ip, c, _) => rv_set_decisions (<[id := (ip, c, 0)]> (rv_decisions r)) r
  | None => r
  end.

Definition process_quorum (responder_id peer_id : Id) (choice : Choice) r :
    Reservoir * gmap Id Choice :=
  match rv_quorums r !! peer_id with
  | Some quorum =>
      if bool_decide (is_Some (quorum !! responder_id)) then (r, quorum)
      else
        let quorum' := <[responder_id := choice]> quorum in
        (rv_set_quorums (<[peer_id := quorum']> (rv_quorums r)) r, quorum')
  | None =>
      let quorum := {[ responder_id := choice ]} in
      (rv_set_quorums (<[peer_id := quorum]> (rv_quorums r)) r, quorum)
  end.

Definition process_decision id (quorum : gmap Id Choice) r : Reservoir * bool :=
  match quorum_decide quorum with
  | Some decision =>
      let r1 :=
        match rv_decisions r !! id with
        | Some (ip, d, c) =>
            if bool_decide (decision ≠ d) then
              rv_set_decisions (<[id := (ip, decision, 0)]> (rv_decisions r)) r
            else
              let c' := S c in
              let r' := rv_set_decisions (<[id := (ip, d, c')]> (rv_decisions r)) r in
              if (0 <? rv_nbootstrapped r)%nat && bool_decide (d = Faulty)
                 && (ICE_BETA1 <=? c')%nat then
                rv_set_nbootstrapped (rv_nbootstrapped r - 1) r'
              else if bool_decide (d = Live) && (ICE_BETA1 <=? c')%nat then
                rv_set_nbootstrapped (S (rv_nbootstrapped r)) r'
              else r'
        | None => r
        end in
      let r2 := rv_set_quorums (delete id (rv_quorums r1)) r1 in
      (r2, (K <=? rv_nbootstrapped r2)%nat)
  | None =>
      let r1 := rv_set_quorums (delete id (rv_quorums r)) r in
      (reset_conviction id r1, false)
  end.

Definition process_outcome (responder_id : Id) (o : Outcome) r : Reservoir * bool :=
  let '(r1, q) := process_quorum responder_id (oc_peer_id o) (oc_choice o) r in
  if (K <=? size q)%nat then
    let '(r2, bootstrapped) := process_decision (oc_peer_id o) q r1 in
    if (bootstrapped : bool) then
      (r2, bool_decide (is_Some (get_endpoint_having_strong_choice r2 (oc_peer_id o)
             (oc_choice o))))
    else (r2, false)
  else (r1, false).

(** [Reservoir::fill] *)
Definition fill (responder_id : Id) (outcomes : list Outcome) r : Reservoir * (bool * bool) :=
  let r0 := reset_faulty_decision responder_id r in
  let '(r', changed) := foldl (λ (acc : Reservoir * bool) o,
    let '(r1, b) := process_outcome responder_id o acc.1 in (r1, acc.2 || b)) (r0, false)
    outcomes in
  (r', ((K <=? rv_nbootstrapped r')%nat, changed)).
End reservoir.

(** ** The actor (ice.rs) *)
Record Ice : Type := mkIce {
  ic_id : Id;
  ic_ip : SocketAddr;
  ic_reservoir : Reservoir;
  ic_bootstrapped : bool
}.

Definition ic_set_reservoir x s := mkIce (ic_id s) (ic_ip s) x (ic_bootstrapped s).
Definition ic_set_bootstrapped x s := mkIce (ic_id s) (ic_ip s) (ic_reservoir s) x.

(** The messages that the round of ice sends to alpha. *)
Inductive AlphaNotice : Type :=
| FaultyNetwork
| LiveNetwork (self_id : Id) (live_peers : list (Id * SocketAddr)).

Record Switch : Type := mkSwitch { sw_flipped : bool; sw_bootstrapped : bool }.

(** [ice::Committee] *)
Record IceCommittee : Type := mkIceCommittee {
  ico_self_staking_capacity : Z;
  ico_sleet_validators : gmap Id (SocketAddr * Weight);
  ico_hail_validators : gmap Id (SocketAddr * Z)
}.

Section ice.
Context `{IterOrder, BuildProfile, Rng}.
Implicit Types s : Ice.

Definition ice_new (id : Id) (ip : SocketAddr) (r : Reservoir) : Ice := mkIce id ip r false.

Definition process_query (r : Reservoir) (self_id : Id) (q : Query) : Reservoir * Outcome :=
  if bool_decide (q_peer_id q = self_id) then (r, mkOutcome (q_peer_id q) Live)
  else
    match get_decision r (q_peer_id q) with
    | Some (_, choice, _) => (r, mkOutcome (q_peer_id q) choice)
    | None =>
        match q_choice q with
        | Live => (set_choice (q_peer_id q) Live r, mkOutcome (q_peer_id q) (q_choice q))
        | Faulty => (set_choice (q_peer_id q) Faulty r, mkOutcome (q_peer_id q) (q_choice q))
        end
    end.

(** [Handler<Ping>] *)
Definition ice_ping (queries : list Query) s : Ice * (Id * list Outcome) :=
  let '(r, outcomes) := foldl (λ (acc : Reservoir * list Outcome) q,
    let '(r, o) := process_query acc.1 (ic_id s) q in (r, acc.2 ++ [o]))
    (ic_reservoir s, []) queries in
  (ic_set_reservoir r s, (ic_id s, outcomes)).

(** [Handler<Bootstrap>] *)
Definition ice_bootstrap (peers : list (Id * SocketAddr)) s : Ice * bool :=
  (ic_set_reservoir (foldl (λ r p, rv_insert p.1 p.2 Live 0 r) (ic_reservoir s) peers) s, true).

(** [Handler<SampleQueries>] *)
Definition ice_sample_queries (seed : nat) (sample : Id * SocketAddr) s :
    res unit (Ice * list Query) :=
  let r := rv_insert_new sample.1 sample.2 Live 0 (ic_reservoir s) in
  if (0 <? rv_len r)%nat then
    p ← reservoir_sample seed r;
    Ok (ic_set_reservoir p.1 s,
        (λ e : Id * PeerDecision, mkQuery e.1 e.2.1.1 e.2.1.2) <$> iter_map p.2)
  else Ok (ic_set_reservoir r s, []).

(** [Handler<PingSuccess>] *)
Definition ice_ping_success (ack_id : Id) (outcomes : list Outcome) s : Ice * Switch :=
  let '(r, (is_bootstrapped, flipped)) := fill ack_id outcomes (ic_reservoir s) in
  let s1 := ic_set_reservoir r s in
  if (is_bootstrapped : bool) then
    if ic_bootstrapped s1 then (s1, mkSwitch flipped true)
    else (ic_set_bootstrapped true s1, mkSwitch true true)
  else
    if negb (ic_bootstrapped s1) then (s1, mkSwitch false false)
    else (ic_set_bootstrapped false s1, mkSwitch true false).

(** [Handler<PingFailure>] *)
Definition ice_ping_failure (id : Id) s : Ice * bool :=
  let '(r, bootstrapped) := update_choice id Faulty (ic_reservoir s) in
  let s1 := ic_set_reservoir r s in
  if negb bootstrapped then
    if ic_bootstrapped s1 then (s1, true) else (s1, false)
  else (s1, false).

(** [Handler<GetLivePeers>], [Handler<ReservoirSize>], [Handler<CheckStatus>] *)
Definition ice_get_live_peers s : list (Id * SocketAddr) := get_live_peers (ic_reservoir s).
Definition ice_reservoir_size s : nat := rv_len (ic_reservoir s).
Definition ice_check_status s : bool * list (Id * SocketAddr * Choice) :=
  (ic_bootstrapped s, (λ e : Id * PeerDecision, (e.1, e.2.1.1, e.2.1.2))
     <$> get_decisions (ic_reservoir s)).

(** The first loop of [Handler<LiveCommittee>]. *)
Fixpoint live_validators s (vs : list (Id * Z)) (hail : gmap Id (SocketAddr * Z))
    (own : option Z) (total : Z) : res unit (gmap Id (SocketAddr * Z) * option Z * Z) :=
  match vs with
  | [] => Ok (hail, own, total)
  | (id, amount) :: vs' =>
      if bool_decide (id = ic_id s) then
        t ← u_add 64 total amount;
        live_validators s vs' hail (Some amount) t
      else
        match get_live_endpoint (ic_reservoir s) id with
        | Some ip =>
            t ← u_add 64 total amount;
            live_validators s vs' (<[id := (ip, amount)]> hail) own t
        | None => live_validators s vs' hail own total
        end
  end.

(** [Handler<LiveCommittee>] *)
Definition ice_live_committee (validators : list (Id * Z)) s : res unit IceCommittee :=
  r ← live_validators s validators ∅ None 0;
  let '(hail, own, total) := r in
  let sleet := foldl (λ m (v : Id * Z),
    if bool_decide (v.1 ≠ ic_id s) then
      match get_live_endpoint (ic_reservoir s) v.1 with
      | Some ip => <[v.1 := (ip, percent_of v.2 total)]> m
      | None => m
      end
    else m) (∅ : gmap Id (SocketAddr * Weight)) validators in
  match own with
  | Some c => Ok (mkIceCommittee c sleet hail)
  | None => Panic
  end.

(** [send_ping_success] and [send_ping_failure]: what alpha is told. *)
Definition send_ping_success (self_id ack_id : Id) (outcomes : list Outcome) s :
    Ice * list AlphaNotice :=
  let '(s', sw) := ice_ping_success ack_id outcomes s in
  (s', if sw_flipped sw then
         if negb (sw_bootstrapped sw) then [FaultyNetwork]
         else [LiveNetwork self_id (ice_get_live_peers s')]
       else []).

Definition send_ping_failure (id : Id) s : Ice * list AlphaNotice :=
  let '(s', flipped) := ice_ping_failure id s in
  (s', if (flipped : bool) then [FaultyNetwork] else []).

(** One peer of a round of [run]; [answer] is the response to the ping, [None]
    when it failed. *)
Definition ping_peer (seed : nat) (peer : Id * SocketAddr)
    (answer : list Query → option (Id * list Outcome)) s : res unit (Ice * list AlphaNotice) :=
  p ← ice_sample_queries seed peer s;
  Ok (match answer p.2 with
      | Some (ack_id, outcomes) => send_ping_success (ic_id s) ack_id outcomes p.1
      | None => send_ping_failure peer.1 p.1
      end).

Definition ping_size (network_size : nat) : nat := Nat.min network_size PING_MAX_SIZE.
End ice.
