(* ===== verification/IceFacts.v ===== *)
(** * IceFacts.v: theorems on the reservoir and the actor of ice *)

From stdpp Require Import prelude gmap sets fin_maps list.
From Stdlib Require Import ZArith Lia SpecFloat.
From S2P Require Import Prelude Orders Cell Util Ice.

Section ice_facts.
Context `{IterOrder, BuildProfile, Rng}.
Implicit Types (r : Reservoir) (q : gmap Id Choice) (id : Id) (c : Choice) (s : Ice).

(** ** Sampling *)

Lemma permute_spec seed r r' b :
  permute seed r = (r', b) →
  rv_decisions r' = rv_decisions r ∧ rv_quorums r' = rv_quorums r ∧
  rv_nbootstrapped r' = rv_nbootstrapped r ∧
  (b = true → rv_random_queue r' ≠ [] ∧ ∀ id e, (id, e) ∈ rv_random_queue r' →
     rv_decisions r !! id = Some e ∧ e.2 < ICE_BETA1).
Proof.
  unfold permute. destruct (filter _ _) as [|e l] eqn:Hf; intros; simplify_eq; [done|].
  split_and!; [done..|]. intros _. cbn. split.
  - intros Hnil. pose proof (shuffle_perm seed (e :: l)) as Hp. rewrite Hnil in Hp.
    by apply Permutation_nil_l in Hp.
  - intros id e'. rewrite shuffle_perm, <- Hf, list_elem_of_filter, elem_of_iter_map. naive_solver.
Qed.

(** Where a sampled entry comes from: the queue, or the decisions that are not
    settled yet. *)
Definition from_reservoir r id (e : SocketAddr * Choice * nat) : Prop :=
  (id, e) ∈ rv_random_queue r ∨ (rv_decisions r !! id = Some e ∧ e.2 < ICE_BETA1).

Lemma sample_queue_spec fuel seed i samples r :
  (rv_random_queue r = [] → 2 * (K - i) + 1 ≤ fuel) → 2 * (K - i) ≤ fuel → 1 ≤ fuel →
  size samples ≤ i → i ≤ K →
  ∃ r' m, sample_queue fuel seed i samples r = Ok (r', m) ∧ size m ≤ K ∧
    rv_decisions r' = rv_decisions r ∧ rv_quorums r' = rv_quorums r ∧
    (∀ id e, m !! id = Some e → samples !! id = Some e ∨ from_reservoir r id e).
Proof.
  revert seed i samples r. induction fuel as [|fuel IH]; intros seed i samples r He Hn H1' Hs Hi;
    [lia|]. cbn [sample_queue].
  destruct (Nat.leb_spec K i).
  { exists r, samples. split_and!; [done|lia|done..|auto]. }
  destruct (rv_random_queue r) as [|[id0 e0] l _] eqn:Hq using rev_ind.
  - cbn [list.last]. destruct (permute seed r) as [r1 b] eqn:Hp.
    destruct (permute_spec _ _ _ _ Hp) as (Hd & Hqu & _ & Hb). specialize (He eq_refl).
    destruct b; [|exists r1, samples; split_and!; [done|lia|done|done|auto]].
    destruct (Hb eq_refl) as [Hne Hin].
    destruct (IH (S seed) i samples r1) as (r' & m & Heq & Hm & Hd' & Hq' & Hfrom);
      [done|lia|lia|done|done|].
    exists r', m. split_and!; [done|done|congruence|congruence|].
    intros id e [?|Hf]%Hfrom; [by left|right]. right.
    destruct Hf as [Hf|Hf]; [by apply Hin|by rewrite <- Hd].
  - rewrite last_snoc, removelast_last.
    destruct (IH seed (S i) (<[id0 := e0]> samples) (rv_set_queue l r))
      as (r' & m & Heq & Hm & Hd' & Hq' & Hfrom).
    + intros _. lia.
    + lia.
    + lia.
    + rewrite map_size_insert. destruct (samples !! id0); cbn; lia.
    + lia.
    + exists r', m. split_and!; [done..|]. intros id e [Hl|Hf]%Hfrom.
      * destruct (decide (id0 = id)) as [<-|].
        -- rewrite lookup_insert_eq in Hl. simplify_eq. right. left. rewrite Hq. set_solver.
        -- rewrite lookup_insert_ne in Hl by done. by left.
      * right. destruct Hf as [Hf|Hf]; [left; rewrite Hq; cbn in Hf; set_solver|by right].
Qed.

(** ** Quorums *)

Lemma quorum_threshold_one : quorum_threshold = 1.
Proof. reflexivity. Qed.

Lemma two_voters c q :
  quorum_threshold < count c q → ∃ x y, x ≠ y ∧ q !! x = Some c ∧ q !! y = Some c.
Proof.
  rewrite quorum_threshold_one. unfold count. intros Hlt.
  assert (NoDup (filter (λ e : Id * Choice, e.2 = c) (iter_map q)).*1) as Hnd.
  { pose proof (NoDup_iter_map_fst q) as Hn. revert Hn.
    generalize (iter_map q). induction l as [|e l IH]; [done|]. rewrite fmap_cons, NoDup_cons.
    intros [He Hl]. rewrite filter_cons. case_decide; [|by apply IH].
    rewrite fmap_cons. apply NoDup_cons. split; [|by apply IH].
    intros (e' & Heq & [_ Hin]%list_elem_of_filter)%list_elem_of_fmap. apply He.
    rewrite Heq. apply list_elem_of_fmap. eauto. }
  destruct (filter _ _) as [|[x cx] [|[y cy] l]] eqn:Hf; cbn in Hlt; [lia|lia|].
  assert (∀ e, e ∈ (x, cx) :: (y, cy) :: l → e.2 = c ∧ q !! e.1 = Some e.2) as Hall.
  { intros [z cz]. rewrite <- Hf, list_elem_of_filter, elem_of_iter_map. done. }
  destruct (Hall (x, cx)) as [Hx Hqx]; [set_solver|].
  destruct (Hall (y, cy)) as [Hy Hqy]; [set_solver|]. cbn in *. subst.
  exists x, y. split_and!; [|done|done].
  apply NoDup_cons in Hnd as [Hn _]. intros ->. apply Hn. cbn. set_solver.
Qed.

Lemma quorum_decide_voters q c :
  quorum_decide q = Some c → ∃ x y, x ≠ y ∧ q !! x = Some c ∧ q !! y = Some c.
Proof.
  unfold quorum_decide. repeat case_match; intros; simplify_eq; apply two_voters;
    by apply Nat.ltb_lt.
Qed.

(** *** What an outcome does *)

(** The vote of [x] on the peer [id] in the open quorum. *)
Definition vote_of r id (x : Id) : option Choice := rv_quorums r !! id ≫= λ q, q !! x.

Lemma process_quorum_spec responder o r r1 q :
  process_quorum responder (oc_peer_id o) (oc_choice o) r = (r1, q) →
  rv_decisions r1 = rv_decisions r ∧ rv_nbootstrapped r1 = rv_nbootstrapped r ∧
  rv_quorums r1 = <[oc_peer_id o := q]> (rv_quorums r) ∧
  q !! responder ≠ None ∧
  (∀ x, x ≠ responder → q !! x = vote_of r (oc_peer_id o) x) ∧
  (∀ c, vote_of r (oc_peer_id o) responder = Some c → q !! responder = Some c).
Proof.
  unfold process_quorum, vote_of. destruct (rv_quorums r !! oc_peer_id o) as [q0|] eqn:Hq.
  - case_bool_decide as Hs; intros; simplify_eq; cbn.
    + split_and!; [done|done|by rewrite insert_id|by destruct Hs as [? ->]|done|done].
    + split_and!; [done|done|done|by rewrite lookup_insert_eq| |].
      * intros x Hx. by rewrite lookup_insert_ne.
      * intros c Hc. destruct Hs. eauto.
  - intros; simplify_eq; cbn. split_and!; [done|done|done|by rewrite lookup_singleton_eq| |done].
    intros x Hx. by rewrite lookup_singleton_ne.
Qed.

(** The decision on a peer after a full quorum. *)
Definition decided (v : option Choice) (e : SocketAddr * Choice * nat) :
    SocketAddr * Choice * nat :=
  let '(ip, d, n) := e in
  match v with
  | Some x => if decide (x = d) then (ip, d, S n) else (ip, x, 0)
  | None => (ip, d, 0)
  end.

Lemma process_decision_spec id q r r' b :
  process_decision id q r = (r', b) →
  rv_quorums r' = delete id (rv_quorums r) ∧
  rv_decisions r' = alter (decided (quorum_decide q)) id (rv_decisions r).
Proof.
  assert (∀ e, rv_decisions r !! id = Some e →
    <[id := decided (quorum_decide q) e]> (rv_decisions r) =
    alter (decided (quorum_decide q)) id (rv_decisions r)) as Ha.
  { intros e He. apply map_eq. intros k. destruct (decide (id = k)) as [<-|].
    - by rewrite lookup_insert_eq, lookup_alter_eq, He.
    - by rewrite lookup_insert_ne, lookup_alter_ne. }
  assert (rv_decisions r !! id = None →
    rv_decisions r = alter (decided (quorum_decide q)) id (rv_decisions r)) as Hn.
  { intros He. apply map_eq. intros k. destruct (decide (id = k)) as [<-|].
    - by rewrite lookup_alter_eq, He.
    - by rewrite lookup_alter_ne. }
  unfold process_decision, reset_conviction. cbn [rv_decisions rv_set_quorums].
  destruct (quorum_decide q) as [x|] eqn:Hq;
    destruct (rv_decisions r !! id) as [[[ip d] n]|] eqn:Hd; intros; simplify_eq;
    (split; [repeat case_match; done|]); try (by apply Hn); rewrite <- (Ha _ eq_refl); cbn; [|done].
  case_bool_decide as Hx; [by rewrite decide_False|].
  rewrite decide_True by (destruct (decide (x = d)); naive_solver).
  repeat case_match; done.
Qed.

(** *** The committee of live validators *)

(** Put the live validators other than the node itself into a map. *)
Definition add_live {A} s (f : Z → A) (m : gmap Id (SocketAddr * A)) (v : Id * Z) :
    gmap Id (SocketAddr * A) :=
  if bool_decide (v.1 ≠ ic_id s) then
    match get_live_endpoint (ic_reservoir s) v.1 with
    | Some ip => <[v.1 := (ip, f v.2)]> m
    | None => m
    end
  else m.

Lemma lookup_add_live {A} s (f : Z → A) vs id x :
  NoDup vs.*1 →
  foldl (add_live s f) ∅ vs !! id = Some x ↔
    ∃ a ip, (id, a) ∈ vs ∧ id ≠ ic_id s ∧ get_live_endpoint (ic_reservoir s) id = Some ip ∧
      x = (ip, f a).
Proof.
  induction vs as [|[id0 a0] vs IH] using rev_ind; intros Hnd.
  { cbn. rewrite lookup_empty. set_solver. }
  rewrite fmap_app in Hnd. apply NoDup_app in Hnd as (Hnd & Hdis & _). specialize (IH Hnd).
  assert (∀ a, (id0, a) ∉ vs) as Hnot.
  { intros a Hin. apply (Hdis id0); [|cbn; set_solver]. apply list_elem_of_fmap. by exists (id0, a). }
  rewrite foldl_app. cbn [foldl]. unfold add_live at 1. cbn [fst snd].
  setoid_rewrite elem_of_app. setoid_rewrite list_elem_of_singleton.
  destruct (decide (id = id0)) as [->|Hne].
  - case_bool_decide as Hself; [|split; [intros (?&?&?&?)%IH; naive_solver|naive_solver]].
    destruct (get_live_endpoint (ic_reservoir s) id0) as [ip0|] eqn:Hl.
    + rewrite lookup_insert_eq. naive_solver.
    + rewrite IH. naive_solver.
  - case_bool_decide; [|rewrite IH; naive_solver].
    destruct (get_live_endpoint (ic_reservoir s) id0); rewrite ?lookup_insert_ne by done;
      rewrite IH; naive_solver.
Qed.

(** The validators whose stake counts: the node itself and the live ones. *)
Definition counted s (vs : list (Id * Z)) : list (Id * Z) :=
  filter (λ v, v.1 = ic_id s ∨ is_Some (get_live_endpoint (ic_reservoir s) v.1)) vs.

Definition own_stake s (o : option Z) (v : Id * Z) : option Z :=
  if bool_decide (v.1 = ic_id s) then Some v.2 else o.

Lemma live_validators_spec s vs hail own total :
  (0 ≤ total)%Z → Forall (λ v : Id * Z, 0 ≤ v.2)%Z vs →
  in_range 64 (total + zsum (counted s vs).*2) →
  live_validators s vs hail own total =
    Ok (foldl (add_live s (λ a, a)) hail vs, foldl (own_stake s) own vs,
        total + zsum (counted s vs).*2)%Z.
Proof.
  intros Ht Hvs. revert hail own total Ht.
  induction Hvs as [|[id a] vs Ha Hvs IH]; intros hail own total Ht Hr.
  { cbn. do 2 f_equal. lia. }
  assert (0 ≤ zsum (counted s vs).*2)%Z as Hpos.
  { apply zsum_nonneg, Forall_fmap. unfold counted.
    apply Forall_forall. intros v [_ Hv]%list_elem_of_filter. rewrite Forall_forall in Hvs.
    by apply Hvs. }
  cbn in Ha. cbn [live_validators foldl]. unfold add_live at 2, own_stake at 2. cbn [fst snd].
  unfold counted in *. rewrite filter_cons in *. cbn [fst] in *.
  destruct (decide (id = ic_id s)) as [->|Hne].
  - rewrite decide_True in * by (by left). rewrite fmap_cons in *.
    change (zsum ((ic_id s, a).2 :: ?l)) with (a + zsum l)%Z in *.
    rewrite bool_decide_true, bool_decide_false by naive_solver. unfold u_add.
    unfold in_range in *. rewrite u_norm_in_range by (unfold in_range; lia).
    cbn [mbind res_bind]. rewrite IH by (unfold in_range; lia). do 2 f_equal. lia.
  - rewrite !(bool_decide_false (id = ic_id s)), bool_decide_true by done.
    destruct (get_live_endpoint (ic_reservoir s) id) as [ip|] eqn:Hl.
    + rewrite decide_True in * by (right; eauto). rewrite fmap_cons in *.
      change (zsum ((id, a).2 :: ?l)) with (a + zsum l)%Z in *. unfold u_add.
      unfold in_range in *. rewrite u_norm_in_range by (unfold in_range; lia).
      cbn [mbind res_bind]. rewrite IH by (unfold in_range; lia). do 2 f_equal. lia.
    + rewrite decide_False in * by naive_solver. by apply IH.
Qed.

Lemma own_stake_spec s vs a :
  NoDup vs.*1 → foldl (own_stake s) None vs = Some a ↔ (ic_id s, a) ∈ vs.
Proof.
  induction vs as [|[id0 a0] vs IH] using rev_ind; intros Hnd; [cbn; set_solver|].
  rewrite fmap_app in Hnd. apply NoDup_app in Hnd as (Hnd & Hdis & _). specialize (IH Hnd).
  rewrite foldl_app, elem_of_app, list_elem_of_singleton. cbn [foldl]. unfold own_stake at 1.
  cbn [fst snd]. case_bool_decide as Hid; [|rewrite IH; naive_solver]. subst.
  split; [naive_solver|]. intros [Hin|?]; [|naive_solver]. exfalso.
  apply (Hdis (ic_id s)); [|cbn; set_solver]. apply list_elem_of_fmap. by exists (ic_id s, a).
Qed.

(** *** Properties *)

(** Sampling for queries terminates; it yields at most [K] entries, each of
    them queued or not settled yet, and leaves decisions and quorums alone. *)
Theorem reservoir_sample_spec seed r :
  ∃ r' m, reservoir_sample seed r = Ok (r', m) ∧ size m ≤ K ∧
    rv_decisions r' = rv_decisions r ∧ rv_quorums r' = rv_quorums r ∧
    (∀ id e, m !! id = Some e → from_reservoir r id e).
Proof.
  unfold reservoir_sample. destruct (0 <? _)%nat.
  - destruct (sample_queue_spec (S (2 * K)) seed 0 ∅ r) as (r' & m & Heq & Hm & Hd & Hq & Hf);
      [intros; unfold K; lia..|by rewrite map_size_empty|lia|].
    exists r', m. split_and!; [done..|]. intros id e [He|?]%Hf; [|done].
    by rewrite lookup_empty in He.
  - exists r, ∅. split_and!; [done|rewrite map_size_empty; lia|done|done|]. intros id e He.
    by rewrite lookup_empty in He.
Qed.

(** An outcome reported by a responder.  It counts once per responder in the
    quorum on its peer; other peers are not affected.  Below [K] votes nothing is
    decided; with [K] votes the quorum is closed and its verdict strengthens the
    decision on the peer, or flips it with no conviction, or resets the conviction
    when there is no verdict. *)
Theorem process_outcome_spec responder o r r' b :
  process_outcome responder o r = (r', b) →
  ∃ q, q !! responder ≠ None ∧
    (∀ x, x ≠ responder → q !! x = vote_of r (oc_peer_id o) x) ∧
    (∀ c, vote_of r (oc_peer_id o) responder = Some c → q !! responder = Some c) ∧
    (size q < K → b = false ∧ rv_decisions r' = rv_decisions r ∧
       rv_quorums r' = <[oc_peer_id o := q]> (rv_quorums r)) ∧
    (K ≤ size q → rv_quorums r' = delete (oc_peer_id o) (rv_quorums r) ∧
       rv_decisions r' = alter (decided (quorum_decide q)) (oc_peer_id o) (rv_decisions r)).
Proof.
  unfold process_outcome. destruct (process_quorum _ _ _ r) as [r1 q] eqn:Hq.
  apply process_quorum_spec in Hq as (Hd & _ & Hqs & Hr & Hx & Hc).
  intros Heq. exists q. split_and!; [done|done|done| |].
  - intros Hlt. rewrite (proj2 (Nat.leb_gt _ _)) in Heq by done. by simplify_eq.
  - intros Hle. rewrite (proj2 (Nat.leb_le _ _)) in Heq by done.
    destruct (process_decision _ q r1) as [r2 b2] eqn:Hp.
    apply process_decision_spec in Hp as [Hq2 Hd2].
    assert (r' = r2) as -> by (by destruct b2; simplify_eq).
    rewrite Hq2, Hd2, Hqs, Hd. split; [|done]. by rewrite delete_insert_eq.
Qed.

(** The decision on a peer flips only when two different responders have
    reported the new choice, and only for the peer the outcome is about; it starts
    again without conviction. *)
Theorem flip_needs_two_responders responder o r r' b id ip c n ip' c' n' :
  process_outcome responder o r = (r', b) →
  rv_decisions r !! id = Some (ip, c, n) → rv_decisions r' !! id = Some (ip', c', n') →
  c ≠ c' →
  id = oc_peer_id o ∧ ip' = ip ∧ n' = 0 ∧
  ∃ x y q, x ≠ y ∧ q !! x = Some c' ∧ q !! y = Some c' ∧
    (∀ z, z ≠ responder → q !! z = vote_of r id z).
Proof.
  unfold process_outcome. destruct (process_quorum _ _ _ r) as [r1 q] eqn:Hq.
  apply process_quorum_spec in Hq as (Hd & _ & Hqs & Hr & Hx & Hc).
  intros Heq Hid Hid' Hne. destruct (K <=? size q) eqn:Hle.
  - destruct (process_decision _ q r1) as [r2 b2] eqn:Hp.
    apply process_decision_spec in Hp as [Hq2 Hd2].
    assert (r' = r2) as -> by (by destruct b2; simplify_eq).
    rewrite Hd2, Hd in Hid'. destruct (decide (oc_peer_id o = id)) as [<-|Hno].
    + rewrite lookup_alter_eq, Hid in Hid'. cbn in Hid'.
      destruct (quorum_decide q) as [v|] eqn:Hv; [|naive_solver].
      destruct (decide (v = c)); [naive_solver|]. simplify_eq.
      apply quorum_decide_voters in Hv as (x & y & Hxy & Hqx & Hqy).
      split_and!; [done..|]. by exists x, y, q.
    + rewrite lookup_alter_ne, Hid in Hid' by done. naive_solver.
  - simplify_eq. rewrite Hd, Hid in Hid'. naive_solver.
Qed.

(** Answering a query never changes the reservoir: the choice of an unknown
    peer, which the comments say is adopted, is not recorded. *)
Theorem process_query_records_nothing r self_id qr :
  (process_query r self_id qr).1 = r.
Proof.
  unfold process_query, set_choice, get_decision. case_bool_decide; [done|].
  destruct (rv_decisions r !! q_peer_id qr) as [[[ip ch] n]|] eqn:Hd; [done|].
  by destruct (q_choice qr).
Qed.

(** The committee that ice builds from the validators of alpha.  Its members
    for hail and for sleet are exactly the validators, other than the node itself,
    that are confirmed live, with their endpoints; the stake of each is passed to
    hail, and its share of the counted stake to sleet.  A node that is not a
    validator panics. *)
Theorem live_committee_spec s vs :
  NoDup vs.*1 → Forall (λ v : Id * Z, 0 ≤ v.2)%Z vs → in_range 64 (zsum (counted s vs).*2) →
  (ic_id s ∉ vs.*1 → ice_live_committee vs s = Panic) ∧
  (∀ own, (ic_id s, own) ∈ vs → ∃ cm, ice_live_committee vs s = Ok cm ∧
     ico_self_staking_capacity cm = own ∧
     (∀ id ip a, ico_hail_validators cm !! id = Some (ip, a) ↔
        (id, a) ∈ vs ∧ id ≠ ic_id s ∧ get_live_endpoint (ic_reservoir s) id = Some ip) ∧
     (∀ id ip w, ico_sleet_validators cm !! id = Some (ip, w) ↔
        ∃ a, (id, a) ∈ vs ∧ id ≠ ic_id s ∧
          get_live_endpoint (ic_reservoir s) id = Some ip ∧
          w = percent_of a (zsum (counted s vs).*2))).
Proof.
  intros Hnd Hpos Hr. unfold ice_live_committee.
  rewrite live_validators_spec by done. cbn [mbind res_bind]. rewrite Z.add_0_l.
  set (total := zsum (counted s vs).*2).
  split.
  - intros Hno. destruct (foldl (own_stake s) None vs) as [a|] eqn:Ho; [|done].
    apply own_stake_spec in Ho; [|done]. destruct Hno. apply list_elem_of_fmap.
    by exists (ic_id s, a).
  - intros own Hown. apply own_stake_spec in Hown; [|done]. rewrite Hown.
    eexists. split; [reflexivity|]. cbn. split_and!; [done| |].
    + intros id ip a. rewrite lookup_add_live by done. naive_solver.
    + intros id ip w. pose proof (lookup_add_live s (λ a, percent_of a total) vs id (ip, w) Hnd)
        as Hl. unfold add_live in Hl. rewrite Hl. naive_solver.
Qed.

(** What a successful ping does to the bootstrap state, and what alpha is
    told.  The flag follows the count of confirmed peers; a rise is reported with
    the live peers, a fall as a faulty network, and while the flag stays up a
    report is sent exactly when some outcome confirmed a decision. *)
Theorem ping_success_switches s ack_id outcomes :
  let fr := fill ack_id outcomes (ic_reservoir s) in
  let r := send_ping_success (ic_id s) ack_id outcomes s in
  ic_reservoir r.1 = fr.1 ∧
  ic_bootstrapped r.1 = (K <=? rv_nbootstrapped fr.1)%nat ∧
  r.2 = (if ic_bootstrapped r.1 then
           if ic_bootstrapped s && negb fr.2.2 then []
           else [LiveNetwork (ic_id s) (get_live_peers fr.1)]
         else if ic_bootstrapped s then [FaultyNetwork] else []).
Proof.
  cbv zeta. unfold send_ping_success, ice_ping_success.
  assert ((fill ack_id outcomes (ic_reservoir s)).2.1 =
    (K <=? rv_nbootstrapped (fill ack_id outcomes (ic_reservoir s)).1)%nat) as Hb.
  { unfold fill. by destruct (foldl _ _ outcomes). }
  destruct (fill ack_id outcomes (ic_reservoir s)) as [r' [b ch]]. cbn [fst snd] in *.
  rewrite <- Hb. destruct s as [id ip r0 bs]. cbn [ic_id ic_bootstrapped ic_set_reservoir].
  by destruct b, bs, ch.
Qed.

(** One peer is enough to be bootstrapped.  Every further quorum that confirms
    the same live peer counts it again, so two of them reach the count that
    stands for [K] different peers. *)
Theorem one_peer_bootstraps r p ip n x y :
  rv_decisions r !! p = Some (ip, Live, n) → ICE_BETA1 ≤ S n → rv_quorums r !! p = None →
  x ≠ y →
  let report z t := (process_outcome z (mkOutcome p Live) t).1 in
  let r' := report y (report x (report y (report x r))) in
  rv_nbootstrapped r' = 2 + rv_nbootstrapped r ∧
  rv_decisions r' = <[p := (ip, Live, S (S n))]> (rv_decisions r).
Proof.
  intros Hp Hn Hq Hxy report.
  assert (∀ t m, rv_decisions t !! p = Some (ip, Live, m) → ICE_BETA1 ≤ S m →
    rv_quorums t !! p = None →
    let t' := report y (report x t) in
    rv_nbootstrapped t' = S (rv_nbootstrapped t) ∧
    rv_decisions t' = <[p := (ip, Live, S m)]> (rv_decisions t) ∧
    rv_quorums t' !! p = None) as Hstep.
  { intros t m Ht Hm Htq. unfold report at 2, process_outcome, process_quorum. cbn [oc_peer_id oc_choice].
    rewrite Htq. rewrite map_size_singleton. change (K <=? 1) with false. cbn [fst].
    unfold report, process_outcome, process_quorum. cbn [oc_peer_id oc_choice rv_quorums
      rv_set_quorums]. rewrite lookup_insert_eq.
    rewrite bool_decide_false by (rewrite lookup_singleton_ne by done; intros []; done).
    set (q := <[y := Live]> ({[ x := Live ]} : gmap Id Choice)).
    assert (size q = 2) as Hsz.
    { unfold q. rewrite map_size_insert_None by (by rewrite lookup_singleton_ne).
      by rewrite map_size_singleton. }
    rewrite Hsz. change (K <=? 2) with true. cbv iota beta.
    assert (quorum_decide q = Some Live) as Hd.
    { unfold quorum_decide, count. rewrite quorum_threshold_one.
      assert (length (filter (λ e : Id * Choice, e.2 = Live) (iter_map q)) = 2) as ->; [|done].
      rewrite filter_all.
      - rewrite iter_map_perm. by rewrite <- Hsz, length_map_to_list.
      - intros [k v] Hin%elem_of_iter_map. unfold q in Hin.
        apply lookup_insert_Some in Hin as [[_ <-]|[_ Hin]]; [done|].
        by apply lookup_singleton_Some in Hin as [_ <-]. }
    unfold process_decision. rewrite Hd. cbn [rv_decisions rv_set_quorums]. rewrite Ht.
    rewrite bool_decide_false by naive_solver. rewrite (bool_decide_false (Live = Faulty)) by done.
    rewrite andb_false_r. cbn [andb]. rewrite bool_decide_true by done.
    rewrite (proj2 (Nat.leb_le ICE_BETA1 (S m)) Hm). cbn [andb].
    match goal with |- context [if (K <=? ?n) then _ else _] => destruct (K <=? n) end.
    all: cbn; (split_and!; [done|done|]); rewrite lookup_delete_eq; done. }
  intros r'. destruct (Hstep r n Hp Hn Hq) as (Hb1 & Hd1 & Hq1).
  destruct (Hstep (report y (report x r)) (S n)) as (Hb2 & Hd2 & _);
    [by rewrite Hd1, lookup_insert_eq|lia|done|].
  unfold r'. rewrite Hb2, Hb1, Hd2, Hd1. split; [done|]. by rewrite insert_insert_eq.
Qed.
End ice_facts.

(** ** Witnesses *)
Section ice_witnesses.
#[local] Existing Instance canonical_order.
#[local] Existing Instance keep_order.
#[local] Instance checked : BuildProfile := true.

Definition ice_peer : Id := [5%Z].
Definition ice_addr : SocketAddr := mkSocketAddr [10; 0; 0; 5]%Z 9000.
Definition ice_res : Reservoir :=
  mkReservoir ∅ {[ ice_peer := (ice_addr, Live, 2) ]} [] 0.
Definition half : Reservoir :=
  (process_outcome [1%Z] (mkOutcome ice_peer Faulty) ice_res).1.

Lemma process_outcome_spec_witness :
  ∃ r' b, process_outcome [2%Z] (mkOutcome ice_peer Faulty) half = (r', b) ∧
    ∃ q : gmap Id Choice, q !! [2%Z] ≠ None ∧ ∀ x, x ≠ [2%Z] → q !! x = vote_of half ice_peer x.
Proof.
  destruct (process_outcome [2%Z] (mkOutcome ice_peer Faulty) half) as [r' b] eqn:Heq.
  exists r', b. split; [reflexivity|].
  destruct (process_outcome_spec [2%Z] (mkOutcome ice_peer Faulty) half r' b Heq)
    as (q & H1 & H2 & _).
  exists q. split; [exact H1|exact H2].
Defined.

Lemma flip_needs_two_responders_witness :
  ∃ x y, x ≠ y ∧ ∃ q : gmap Id Choice, q !! x = Some Faulty ∧ q !! y = Some Faulty.
Proof.
  destruct (process_outcome [2%Z] (mkOutcome ice_peer Faulty) half) as [r' b] eqn:Heq.
  destruct (flip_needs_two_responders [2%Z] (mkOutcome ice_peer Faulty) half r' b ice_peer
    ice_addr Live 2 ice_addr Faulty 0) as (_ & _ & _ & x & y & q & H1 & H2 & H3 & _).
  - exact Heq.
  - vm_compute. reflexivity.
  - change r' with (r', b).1. rewrite <- Heq. vm_compute. reflexivity.
  - discriminate.
  - exists x, y. split; [exact H1|]. exists q. split; [exact H2|exact H3].
Defined.

Definition ice_node : Ice :=
  mkIce [1%Z] ice_addr
    (mkReservoir ∅ {[ ice_peer := (ice_addr, Live, 3) ]} [] 2) true.

Lemma live_committee_spec_witness :
  ∃ cm, ice_live_committee [([1%Z], 10%Z); (ice_peer, 30%Z); ([8%Z], 50%Z)] ice_node = Ok cm ∧
    ico_self_staking_capacity cm = 10%Z ∧
    ico_hail_validators cm !! ice_peer = Some (ice_addr, 30%Z).
Proof.
  destruct (live_committee_spec ice_node [([1%Z], 10%Z); (ice_peer, 30%Z); ([8%Z], 50%Z)])
    as [_ H].
  - apply (bool_decide_unpack _). vm_compute. exact I.
  - apply (bool_decide_unpack _). vm_compute. exact I.
  - apply (bool_decide_unpack _). vm_compute. exact I.
  - destruct (H 10%Z) as (cm & H1 & H2 & H3 & _); [set_solver|].
    exists cm. split; [exact H1|]. split; [exact H2|]. apply H3.
    split; [set_solver|]. split; [discriminate|vm_compute; reflexivity].
Defined.

Lemma one_peer_bootstraps_witness :
  size (rv_decisions ice_res) = 1 ∧
  let report z t := (process_outcome z (mkOutcome ice_peer Live) t).1 in
  rv_nbootstrapped (report [2%Z] (report [1%Z] (report [2%Z] (report [1%Z] ice_res)))) = 2.
Proof.
  split; [reflexivity|].
  destruct (one_peer_bootstraps ice_res ice_peer ice_addr 2 [1%Z] [2%Z]) as [H _].
  - reflexivity.
  - vm_compute. lia.
  - reflexivity.
  - discriminate.
  - exact H.
Defined.
End ice_witnesses.
