(* ===== verification/View.v ===== *)
(** * View.v: the peers of a node (src/src/view/sampleable_map.rs, src/src/view/view.rs)

    The view maps the ids of peers to their addresses.  A queue of shuffled entries
    serves the samples; a short list of peers is handed to nodes that join. *)

From stdpp Require Import prelude gmap sets list.
From Stdlib Require Import ZArith Lia.
From S2P Require Import Prelude Orders Cell Instances Dag Blocks Util Ice.

Definition PEER_LIST_MAX : nat := 3.
Definition BOOTSTRAP_QUORUM : nat := 2.

(** ** Sampling (src/src/view/sampleable_map.rs) *)
Record SampleableMap (A V : Type) `{Countable A} : Type := mkSampleableMap {
  sm_map : gmap A V;
  sm_queue : list (A * V)
}.
Arguments mkSampleableMap {A V _ _} _ _.
Arguments sm_map {A V _ _} _.
Arguments sm_queue {A V _ _} _.

Section sampleable_map.
Context `{Countable A} {V : Type} `{IterOrder, Rng}.
Implicit Types m : SampleableMap A V.

Definition sampleable_map_new : SampleableMap A V := mkSampleableMap ∅ [].

(** [HashMap::insert] through [DerefMut]: the queue does not change. *)
Definition sm_insert (k : A) (v : V) m : SampleableMap A V * option V :=
  (mkSampleableMap (<[k := v]> (sm_map m)) (sm_queue m), sm_map m !! k).

Definition next_queue m : list (A * V) := iter_map (sm_map m).

(** The loop of [sample]; every refill draws a new seed. *)
Fixpoint sample_map_loop (fuel : nat) (seed k i : nat) (result : list (A * V)) m :
    res unit (SampleableMap A V * list (A * V)) :=
  match fuel with
  | O => OutOfFuel
  | S fuel' =>
      if (k <=? i)%nat then Ok (m, result)
      else
        match list.last (sm_queue m) with
        | Some e =>
            sample_map_loop fuel' seed k (S i) (result ++ [e])
              (mkSampleableMap (sm_map m) (removelast (sm_queue m)))
        | None =>
            let queue := next_queue m in
            if (0 <? length queue)%nat then
              sample_map_loop fuel' (S seed) k i result
                (mkSampleableMap (sm_map m) (shuffle seed queue))
            else Ok (mkSampleableMap (sm_map m) queue, result)
        end
  end.

(** A drawn entry costs one round, or two when the queue is refilled for it. *)
Definition sample_map (seed k : nat) m : res unit (SampleableMap A V * list (A * V)) :=
  sample_map_loop (S (2 * k)) seed k 0 [] m.
End sampleable_map.

(** ** The actor (src/src/view/view.rs) *)
Record View : Type := mkView {
  vw_ip : SocketAddr;
  vw_node_id : Id;
  vw_peers : SampleableMap Id SocketAddr;
  vw_peer_list : gset (Id * SocketAddr)
}.

(** [VersionAck] and the responses that [UpdatePeers] distinguishes. *)
Record VersionAck : Type := mkVersionAck {
  va_id : Id;
  va_ip : SocketAddr;
  va_peer_list : list (Id * SocketAddr)
}.

Inductive ViewResponse : Type :=
| RespVersionAck (ack : VersionAck)
| OtherViewResponse.

Section view.
Context `{IterOrder, Rng}.
Implicit Types s : View.

Definition vw_set_peers (p : SampleableMap Id SocketAddr) s : View :=
  mkView (vw_ip s) (vw_node_id s) p (vw_peer_list s).
Definition vw_set_peer_list (l : gset (Id * SocketAddr)) s : View :=
  mkView (vw_ip s) (vw_node_id s) (vw_peers s) l.

Definition view_new (ip : SocketAddr) (node_id : Id) : View :=
  mkView ip node_id sampleable_map_new ∅.

(** [if self.peer_list.len() < PEER_LIST_MAX { .. }] *)
Definition list_peer (id : Id) (ip : SocketAddr) s : View :=
  if (size (vw_peer_list s) <? PEER_LIST_MAX)%nat then
    if bool_decide ((id, ip) ∉ vw_peer_list s) then
      vw_set_peer_list ({[ (id, ip) ]} ∪ vw_peer_list s) s
    else s
  else s.

Definition view_init (peers : list (Id * SocketAddr)) s : View :=
  foldl (λ s p, list_peer p.1 p.2 (vw_set_peers (sm_insert p.1 p.2 (vw_peers s)).1 s)) s peers.

Definition insert_update (id : Id) (ip : SocketAddr) s : View * bool :=
  if bool_decide (id = vw_node_id s) then (s, false)
  else
    let '(p, old) := sm_insert id ip (vw_peers s) in
    let s1 := vw_set_peers p s in
    match old with
    | Some _ => (s1, false)
    | None => (list_peer id ip s1, true)
    end.

(** [sample_k], which is also [Handler<SampleK>] *)
Definition sample_k (seed k : nat) s : res unit (View * list (Id * SocketAddr)) :=
  if (k <=? size (sm_map (vw_peers s)))%nat then
    r ← sample_map seed k (vw_peers s);
    Ok (vw_set_peers r.1 s, r.2)
  else Ok (s, []).

(** [Handler<Version>] *)
Definition view_version (id : Id) (ip : SocketAddr) s : View * VersionAck :=
  let s1 := (insert_update id ip s).1 in
  (s1, mkVersionAck (vw_node_id s1) (vw_ip s1) (iter_set (vw_peer_list s1))).

(** [Handler<GetPeers>] *)
Definition view_get_peers s : list (Id * SocketAddr) := iter_map (sm_map (vw_peers s)).

(** [Handler<Bootstrap>]: the peers that are asked for their version. *)
Definition view_bootstrap s : list (Id * SocketAddr) :=
  filter (λ p : Id * SocketAddr, p.2 ≠ vw_ip s) (iter_map (sm_map (vw_peers s))).

(** The peers of [UpdatePeers], one after the other. *)
Definition update_peer (acc : View * list (Id * SocketAddr)) (p : Id * SocketAddr) :
    View * list (Id * SocketAddr) :=
  let '(s, updated) := insert_update p.1 p.2 acc.1 in
  (s, if (updated : bool) then acc.2 ++ [p] else acc.2).

(** [Handler<UpdatePeers>] *)
Definition view_update_peers (responses : list ViewResponse) s :
    View * (list (Id * SocketAddr) * bool) :=
  let '(s', updates) := foldl (λ acc r,
    match r with
    | RespVersionAck ack =>
        foldl update_peer (update_peer acc (va_id ack, va_ip ack)) (va_peer_list ack)
    | OtherViewResponse => acc
    end) (s, []) responses in
  (s', (updates, (BOOTSTRAP_QUORUM <=? length responses)%nat)).

(** One round of [bootstrap] after the responses have come in: the view, ice, and
    whether the loop is left. *)
Definition bootstrap_round (responses : list ViewResponse) (s : View) (i : Ice) :
    View * Ice * bool :=
  if (0 <? length responses)%nat then
    let '(s', (_, bootstrapped)) := view_update_peers responses s in
    if (bootstrapped : bool) then
      let '(i', b) := ice_bootstrap (view_get_peers s') i in (s', i', b)
    else (s', i, false)
  else (s, i, false).
End view.

(** ** Facts *)

(** [n] copies of a list. *)
Definition copies {A : Type} (n : nat) (l : list A) : list A := mjoin (replicate n l).

Lemma length_copies {A} n (l : list A) : length (copies n l) = n * length l.
Proof.
  unfold copies. induction n as [|n IH]; [done|].
  change (length (l ++ mjoin (replicate n l)) = S n * length l). rewrite length_app. lia.
Qed.

Section sampling_facts.
Context `{Countable A} {V : Type} `{IterOrder, Rng}.
Implicit Types m : SampleableMap A V.

Lemma length_next_queue m : length (next_queue m) = size (sm_map m).
Proof. unfold next_queue. by rewrite iter_map_perm, length_map_to_list. Qed.

(** What the loop has drawn when it ends, and how often the queue was refilled. *)
Definition drawn_from (k : nat) m m' (drawn : list (A * V)) (n : nat) : Prop :=
  sm_map m' = sm_map m ∧
  drawn ++ sm_queue m' ≡ₚ sm_queue m ++ copies n (map_to_list (sm_map m)) ∧
  (sm_map m ≠ ∅ → length drawn = k) ∧
  (0 < n → length (sm_queue m') < size (sm_map m)).

Lemma drawn_nothing k m q :
  (k = 0 ∨ sm_map m = ∅) → sm_queue m ≡ₚ q → drawn_from k m (mkSampleableMap (sm_map m) q) [] 0.
Proof.
  intros Hk Hq. split_and!; cbn; [done|by rewrite app_nil_r|by destruct Hk|lia].
Qed.

Lemma drawn_pop k m l e m' drawn n :
  sm_queue m = l ++ [e] → drawn_from k (mkSampleableMap (sm_map m) l) m' drawn n →
  drawn_from (S k) m m' (e :: drawn) n.
Proof.
  intros Hq (Hm & Hp & Hlen & Hn). cbn in *. split_and!; [done| | |done].
  - rewrite Hq, <- app_assoc. cbn. rewrite Hp. by rewrite Permutation_middle.
  - intros Hne. cbn. by rewrite Hlen.
Qed.

Lemma drawn_refill seed k m m' drawn n :
  sm_queue m = [] → sm_map m ≠ ∅ → 0 < k →
  drawn_from k (mkSampleableMap (sm_map m) (shuffle seed (next_queue m))) m' drawn n →
  drawn_from k m m' drawn (S n).
Proof.
  intros Hq Hne Hk (Hm & Hp & Hlen & Hn). cbn in *. split_and!; [done| |done|].
  - rewrite Hp, Hq, shuffle_perm. unfold copies, next_queue. cbn. by rewrite iter_map_perm.
  - intros _. destruct n as [|n]; [|apply Hn; lia].
    apply Permutation_length in Hp. rewrite !length_app, length_copies, shuffle_perm in Hp.
    rewrite length_next_queue in Hp. specialize (Hlen Hne). lia.
Qed.

Lemma sample_map_loop_spec fuel seed k i result m :
  i ≤ k → 2 * (k - i) + (if decide (sm_queue m = []) then 1 else 0) ≤ fuel → 1 ≤ fuel →
  ∃ m' drawn n, sample_map_loop fuel seed k i result m = Ok (m', result ++ drawn) ∧
    drawn_from (k - i) m m' drawn n.
Proof.
  revert seed i result m. induction fuel as [|fuel IH]; intros seed i result m Hi Hf H1'; [lia|].
  cbn [sample_map_loop]. destruct (Nat.leb_spec k i).
  { exists m, [], 0. rewrite app_nil_r. split; [done|]. destruct m as [mm q].
    apply (drawn_nothing _ (mkSampleableMap mm q)); [left; lia|done]. }
  destruct m as [mm q]. cbn [sm_map sm_queue] in *.
  destruct q as [|e l _] using rev_ind.
  - cbn [list.last]. rewrite length_next_queue. cbn [sm_map]. rewrite decide_True in Hf by done.
    destruct (Nat.ltb_spec 0 (size mm)) as [Hs|Hs].
    + assert (mm ≠ ∅) as Hne by (intros ->; rewrite map_size_empty in Hs; lia).
      destruct (IH (S seed) i result
        (mkSampleableMap mm (shuffle seed (next_queue (mkSampleableMap mm [])))))
        as (m' & drawn & n & Heq & Hd); [lia| |lia|].
      { cbn [sm_queue]. rewrite decide_False; [lia|]. intros Hnil.
        apply (f_equal length) in Hnil. rewrite shuffle_perm, length_next_queue in Hnil.
        cbn in Hnil. lia. }
      exists m', drawn, (S n). split; [exact Heq|]. eapply drawn_refill; try done. lia.
    + exists (mkSampleableMap mm (next_queue (mkSampleableMap mm []))), [], 0.
      rewrite app_nil_r. split; [done|].
      assert (mm = ∅) as -> by (apply map_size_empty_iff; lia).
      apply (drawn_nothing _ (mkSampleableMap ∅ [])); [by right|]. cbn.
      unfold next_queue. rewrite iter_map_perm. cbn [sm_map]. by rewrite map_to_list_empty.
  - rewrite last_snoc, removelast_last.
    rewrite decide_False in Hf by (by destruct l).
    destruct (IH seed (S i) (result ++ [e]) (mkSampleableMap mm l))
      as (m' & drawn & n & Heq & Hd); [lia|case_decide; lia|lia|].
    exists m', (e :: drawn), n. rewrite Heq, <- app_assoc. split; [done|].
    replace (k - i) with (S (k - S i)) by lia. by eapply drawn_pop.
Qed.

(** Sampling terminates and is fair.  It yields exactly [k] entries, unless the
    map is empty; the entries drawn and those left in the queue are together the
    old queue and a whole number of copies of the map, and the queue was refilled
    only when it was used up: an entry is not drawn again before all others of its
    copy have been. *)
Theorem sample_map_fair seed k m :
  ∃ m' drawn n, sample_map seed k m = Ok (m', drawn) ∧ sm_map m' = sm_map m ∧
    drawn ++ sm_queue m' ≡ₚ sm_queue m ++ copies n (map_to_list (sm_map m)) ∧
    (sm_map m ≠ ∅ → length drawn = k) ∧
    (0 < n → length (sm_queue m') < size (sm_map m)).
Proof.
  destruct (sample_map_loop_spec (S (2 * k)) seed k 0 [] m)
    as (m' & drawn & n & Heq & Hd); [lia|case_decide; lia|lia|].
  rewrite Nat.sub_0_r in Hd. by exists m', drawn, n.
Qed.
End sampling_facts.

Section view_facts.
Context `{IterOrder, Rng}.
Implicit Types (s : View) (ps : list (Id * SocketAddr)).

(** At most [PEER_LIST_MAX] peers are listed, all of them peers of the view. *)
Definition view_wf s : Prop :=
  size (vw_peer_list s) ≤ PEER_LIST_MAX ∧
  ∀ p, p ∈ vw_peer_list s → p.1 ∈ dom (sm_map (vw_peers s)).

(** The peers of a list of responses, in order. *)
Definition peers_of (r : ViewResponse) : list (Id * SocketAddr) :=
  match r with
  | RespVersionAck ack => (va_id ack, va_ip ack) :: va_peer_list ack
  | OtherViewResponse => []
  end.
Definition mentioned (rs : list ViewResponse) : list (Id * SocketAddr) := rs ≫= peers_of.

(** The map after the peers of a list were inserted, the node itself left out. *)
Definition with_peers (own : Id) ps (m : gmap Id SocketAddr) : gmap Id SocketAddr :=
  foldl (λ m p, if decide (p.1 = own) then m else <[p.1 := p.2]> m) m ps.

Lemma list_peer_spec id ip s :
  view_wf s → id ∈ dom (sm_map (vw_peers s)) →
  view_wf (list_peer id ip s) ∧ vw_peers (list_peer id ip s) = vw_peers s ∧
  vw_node_id (list_peer id ip s) = vw_node_id s ∧ vw_ip (list_peer id ip s) = vw_ip s.
Proof.
  intros [Hs Hd] Hid. unfold list_peer.
  destruct (Nat.ltb_spec (size (vw_peer_list s)) PEER_LIST_MAX); [|done].
  case_bool_decide; [|done]. split_and!; [|done..]. split; cbn.
  - rewrite size_union, size_singleton by set_solver. lia.
  - intros p. rewrite elem_of_union, elem_of_singleton. intros [->|?]; [done|by apply Hd].
Qed.

Lemma insert_update_spec id ip s s' b :
  view_wf s → insert_update id ip s = (s', b) →
  view_wf s' ∧ vw_node_id s' = vw_node_id s ∧ vw_ip s' = vw_ip s ∧
  sm_queue (vw_peers s') = sm_queue (vw_peers s) ∧
  sm_map (vw_peers s') = with_peers (vw_node_id s) [(id, ip)] (sm_map (vw_peers s)) ∧
  b = bool_decide (id ≠ vw_node_id s ∧ id ∉ dom (sm_map (vw_peers s))).
Proof.
  intros Hwf. unfold insert_update. cbn [with_peers foldl fst snd].
  case_bool_decide as Hown.
  { intros [= <- <-]. rewrite decide_True by done. split_and!; try done.
    symmetry. apply bool_decide_eq_false_2. naive_solver. }
  rewrite decide_False by done. unfold sm_insert.
  set (s1 := vw_set_peers _ s).
  assert (view_wf s1 ∧ id ∈ dom (sm_map (vw_peers s1))) as [Hwf1 Hid].
  { split; [split; cbn|]; [apply Hwf| |]; unfold s1; cbn; [|set_solver].
    intros p Hp%Hwf. set_solver. }
  destruct (sm_map (vw_peers s) !! id) as [old|] eqn:Hold; intros [= <- <-].
  - split_and!; try done. symmetry. apply bool_decide_eq_false_2.
    intros [_ Hn]. apply Hn. by eapply elem_of_dom_2.
  - destruct (list_peer_spec id ip s1 Hwf1 Hid) as (Hw & -> & -> & ->).
    split_and!; try done. symmetry. apply bool_decide_eq_true_2.
    split; [done|by apply not_elem_of_dom].
Qed.

Lemma with_peers_snoc own ps p m :
  with_peers own (ps ++ [p]) m =
    if decide (p.1 = own) then with_peers own ps m else <[p.1 := p.2]> (with_peers own ps m).
Proof. unfold with_peers. by rewrite foldl_app. Qed.

Lemma dom_with_peers own ps m : dom (with_peers own ps m) = dom m ∪ (list_to_set ps.*1 ∖ {[ own ]}).
Proof.
  induction ps as [|p ps IH] using rev_ind; [set_solver|].
  rewrite with_peers_snoc, fmap_app, list_to_set_app_L.
  case_decide; [set_solver|]. rewrite dom_insert_L, IH. set_solver.
Qed.

Lemma update_peers_foldl rs acc :
  foldl (λ acc r,
    match r with
    | RespVersionAck ack =>
        foldl update_peer (update_peer acc (va_id ack, va_ip ack)) (va_peer_list ack)
    | OtherViewResponse => acc
    end) acc rs = foldl update_peer acc (mentioned rs).
Proof.
  revert acc. induction rs as [|[ack|] rs IH]; intros acc; [done|..]; cbn [foldl].
  - rewrite IH. unfold mentioned. cbn [mbind list_bind peers_of]. by rewrite foldl_app.
  - apply IH.
Qed.

(** What the loop over the peers keeps. *)
Lemma update_peer_loop ps s :
  view_wf s →
  ∃ s' updates, foldl update_peer (s, []) ps = (s', updates) ∧ view_wf s' ∧
    vw_node_id s' = vw_node_id s ∧ vw_ip s' = vw_ip s ∧
    sm_queue (vw_peers s') = sm_queue (vw_peers s) ∧
    sm_map (vw_peers s') = with_peers (vw_node_id s) ps (sm_map (vw_peers s)) ∧
    NoDup updates.*1 ∧
    ∀ id, id ∈ updates.*1 ↔
      id ∈ dom (sm_map (vw_peers s')) ∧ id ∉ dom (sm_map (vw_peers s)).
Proof.
  intros Hwf. induction ps as [|p ps IH] using rev_ind.
  { exists s, []. split_and!; try done; [apply NoDup_nil_2|]. set_solver. }
  destruct IH as (s1 & us & Heq & Hwf1 & Hn & Hip & Hq & Hm & Hnd & Hin).
  rewrite foldl_app, Heq. cbn [foldl update_peer fst snd]. unfold update_peer. cbn [fst snd].
  destruct (insert_update p.1 p.2 s1) as [s2 b] eqn:Hi.
  apply insert_update_spec in Hi as (Hwf2 & Hn2 & Hip2 & Hq2 & Hm2 & ->); [|done].
  exists s2, (if bool_decide (p.1 ≠ vw_node_id s1 ∧ p.1 ∉ dom (sm_map (vw_peers s1)))
    then us ++ [p] else us).
  assert (dom (sm_map (vw_peers s2)) =
    dom (sm_map (vw_peers s1)) ∪ ({[ p.1 ]} ∖ {[ vw_node_id s1 ]})) as Hdom.
  { rewrite Hm2, dom_with_peers. set_solver. }
  assert (dom (sm_map (vw_peers s)) ⊆ dom (sm_map (vw_peers s1))) as Hsub.
  { rewrite Hm, dom_with_peers. set_solver. }
  split_and!; try congruence; try done.
  - rewrite Hm2, with_peers_snoc, Hm, Hn. cbn. by case_decide.
  - case_bool_decide as Hnew; [|done]. rewrite fmap_app. apply NoDup_app. split_and!; [done| |].
    + intros id Hid%Hin Hp%list_elem_of_singleton. set_solver.
    + apply NoDup_singleton.
  - intros id. specialize (Hsub id). rewrite Hdom.
    rewrite elem_of_union, elem_of_difference, !elem_of_singleton.
    case_bool_decide as Hnew.
    + rewrite fmap_app, elem_of_app, Hin. cbn. rewrite list_elem_of_singleton.
      destruct Hnew. naive_solver.
    + rewrite Hin. destruct (decide (id = p.1)) as [->|]; [|tauto].
      destruct (decide (p.1 ∈ dom (sm_map (vw_peers s1)))); [tauto|].
      destruct (decide (p.1 = vw_node_id s1)); tauto.
Qed.

(** Taking over the peers of a round of handshakes.  The address of every peer
    that a response names, its sender included, is stored, the last one named for
    each; the node itself is never added; reported as updates are exactly the peers
    that were not known, once each.  At most [PEER_LIST_MAX] peers are listed for
    other nodes, and the quorum is reached by the number of responses alone. *)
Theorem update_peers_spec rs s :
  view_wf s →
  ∃ s' updates, view_update_peers rs s = (s', (updates, bool_decide (2 ≤ length rs))) ∧
    view_wf s' ∧ vw_node_id s' = vw_node_id s ∧ sm_queue (vw_peers s') = sm_queue (vw_peers s) ∧
    sm_map (vw_peers s') = with_peers (vw_node_id s) (mentioned rs) (sm_map (vw_peers s)) ∧
    dom (sm_map (vw_peers s')) = dom (sm_map (vw_peers s)) ∪
      (list_to_set (mentioned rs).*1 ∖ {[ vw_node_id s ]}) ∧
    NoDup updates.*1 ∧
    ∀ id, id ∈ updates.*1 ↔
      id ∈ dom (sm_map (vw_peers s')) ∧ id ∉ dom (sm_map (vw_peers s)).
Proof.
  intros Hwf. destruct (update_peer_loop (mentioned rs) s Hwf)
    as (s' & us & Heq & Hwf' & Hn & _ & Hq & Hm & Hnd & Hin).
  exists s', us. unfold view_update_peers. rewrite update_peers_foldl, Heq.
  split_and!; try done; [|by rewrite Hm, dom_with_peers].
  do 2 f_equal. unfold BOOTSTRAP_QUORUM. destruct (Nat.leb_spec 2 (length rs)).
  - by rewrite bool_decide_eq_true_2.
  - by rewrite bool_decide_eq_false_2 by lia.
Qed.

(** The known peers keep their place: a response can still change the address that
    is stored for one of them, although [insert_update] is documented to add peers
    that are missing. *)
Theorem known_address_replaced s id ip ip' :
  id ≠ vw_node_id s → sm_map (vw_peers s) !! id = Some ip →
  insert_update id ip' s = (vw_set_peers (sm_insert id ip' (vw_peers s)).1 s, false).
Proof. intros Hid Hip. unfold insert_update. rewrite bool_decide_eq_false_2 by done. cbn. by rewrite Hip. Qed.

Lemma ice_bootstrap_lookup ps (i : Ice) id :
  rv_decisions (ic_reservoir (ice_bootstrap ps i).1) !! id =
    match list.last (filter (λ p : Id * SocketAddr, p.1 = id) ps) with
    | Some p => Some (p.2, Live, 0)
    | None => rv_decisions (ic_reservoir i) !! id
    end.
Proof.
  cbn. induction ps as [|p ps IH] using rev_ind; [done|].
  rewrite foldl_app, filter_app. cbn [foldl filter list_filter]. unfold rv_insert. cbn.
  destruct (decide (p.1 = id)) as [<-|Hne].
  - by rewrite lookup_insert_eq, last_snoc.
  - by rewrite lookup_insert_ne, app_nil_r.
Qed.
(** A round of the bootstrap loop ends it exactly when two responses came in.
    Then ice knows every peer of the view under its address as live, without
    conviction, and its other decisions are untouched; otherwise ice is not told. *)
Theorem bootstrap_hands_over rs s i s' i' b :
  bootstrap_round rs s i = (s', i', b) →
  (b = true ↔ 2 ≤ length rs) ∧
  (b = false → i' = i) ∧
  (b = true → ∀ id,
     rv_decisions (ic_reservoir i') !! id =
       match sm_map (vw_peers s') !! id with
       | Some ip => Some (ip, Live, 0)
       | None => rv_decisions (ic_reservoir i) !! id
       end).
Proof.
  unfold bootstrap_round. destruct (Nat.ltb_spec 0 (length rs)).
  2: { intros [= <- <- <-]. split_and!; [split; [done|lia]|done|done]. }
  destruct (view_update_peers rs s) as [s1 [us q]] eqn:Hu.
  assert (q = (2 <=? length rs)%nat) as ->.
  { unfold view_update_peers in Hu. destruct (foldl _ _ _). by simplify_eq. }
  destruct (Nat.leb_spec 2 (length rs)).
  - destruct (ice_bootstrap (view_get_peers s1) i) as [i1 b1] eqn:Hi.
    intros [= <- <- <-]. assert (b1 = true) as -> by (by injection Hi).
    split_and!; [done|done|]. intros _ id.
    replace i1 with (ice_bootstrap (view_get_peers s1) i).1 by (by rewrite Hi).
    rewrite ice_bootstrap_lookup. unfold view_get_peers.
    destruct (sm_map (vw_peers s1) !! id) as [ip|] eqn:Hid.
    + rewrite (filter_key_unique fst _ (id, ip)); [done|apply NoDup_iter_map_fst|].
      by apply elem_of_iter_map.
    + rewrite (proj2 (filter_none _ _)); [done|].
      intros [id' ip'] Hin <-. apply elem_of_iter_map in Hin. cbn in *. congruence.
  - intros [= <- <- <-]. split_and!; [split; [done|lia]|done|done].
Qed.
End view_facts.

(** ** Witnesses *)
Definition host (n : Z) : SocketAddr := mkSocketAddr [10; 0; 0; n]%Z 8000.

(** Two answers to a node that knows one peer; the second one names the node
    itself and a new address of the peer. *)
Definition lone_view : View :=
  mkView (host 1) [1%Z] (mkSampleableMap {[ [2%Z] := host 2 ]} []) ∅.
Definition two_acks : list ViewResponse :=
  [RespVersionAck (mkVersionAck [2%Z] (host 2) [([3%Z], host 3)]);
   RespVersionAck (mkVersionAck [4%Z] (host 4) [([1%Z], host 1); ([2%Z], host 5)])].

Lemma update_peers_spec_witness :
  ∃ s' updates, view_update_peers two_acks lone_view = (s', (updates, true)) ∧
    NoDup updates.*1 ∧ sm_map (vw_peers s') !! [2%Z] = Some (host 5) ∧ [3%Z] ∈ updates.*1.
Proof.
  destruct (update_peers_spec two_acks lone_view)
    as (s' & us & Heq & _ & _ & _ & Hm & Hd & Hnd & Hin).
  - split; [vm_compute; lia|]. intros p Hp. by apply elem_of_empty in Hp.
  - exists s', us. split_and!; [exact Heq|exact Hnd| |].
    + rewrite Hm. vm_compute. reflexivity.
    + apply Hin. rewrite Hd. split; apply (bool_decide_unpack _); vm_compute; exact I.
Defined.

Lemma bootstrap_hands_over_witness :
  let _ := canonical_order in
  let i := mkIce [1%Z] (host 1) reservoir_new false in
  let r := bootstrap_round two_acks lone_view i in
  rv_decisions (ic_reservoir r.1.2) !! [3%Z] = Some (host 3, Live, 0).
Proof.
  set (i := mkIce [1%Z] (host 1) reservoir_new false). cbv zeta.
  destruct (@bootstrap_round canonical_order two_acks lone_view i) as [[s' i'] b] eqn:Heq.
  destruct (@bootstrap_hands_over canonical_order two_acks lone_view i s' i' b Heq)
    as (Hb & _ & Hd).
  cbn [fst snd]. rewrite Hd by (apply Hb; vm_compute; lia).
  apply (f_equal (λ r, sm_map (vw_peers r.1.1) !! [3%Z])) in Heq. cbn [fst] in Heq.
  rewrite <- Heq. vm_compute. reflexivity.
Defined.
