(* ===== verification/Membership.v ===== *)
(** * Membership.v: view and ice as one state machine
      (src/src/view/view.rs, src/src/ice/ice.rs)

    View learns peers, ice keeps a decision about each of them, and the rounds of
    [ice::run] tell alpha whether the network is live.  A step is a request of another
    node, a round of the bootstrap, or one ping of a round; the answers are arbitrary. *)

From stdpp Require Import prelude gmap sets list relations.
From Stdlib Require Import ZArith Lia.
From S2P Require Import Prelude Orders Cell Instances Dag Blocks Util Ice IceFacts View.

Record Member : Type := mkMember {
  mb_view : View;
  mb_ice : Ice;
  (** the peers that are still to be pinged in this round *)
  mb_round : list (Id * SocketAddr);
  (** what alpha was told *)
  mb_out : list AlphaNotice
}.

Section membership.
Context `{IterOrder, BuildProfile, Rng}.
Implicit Types (m : Member) (r : Reservoir) (v : View) (i : Ice) (X : gset Id).

Definition mb_set_view v m := mkMember v (mb_ice m) (mb_round m) (mb_out m).
Definition mb_set_ice i m := mkMember (mb_view m) i (mb_round m) (mb_out m).
Definition mb_tell i ns round m := mkMember (mb_view m) i round (mb_out m ++ ns).

(** ** Rounds *)

(** A round of [run]: the sample of the view ... *)
Definition start_round (seed : nat) m : res unit Member :=
  p ← sample_k seed (ping_size (ice_reservoir_size (mb_ice m))) (mb_view m);
  Ok (mkMember p.1 (mb_ice m) p.2 (mb_out m)).

(** ... and the ping of its next peer. *)
Definition ping_next (seed : nat) (answer : Id * SocketAddr → list Query → option (Id * list Outcome))
    m : res unit Member :=
  match mb_round m with
  | [] => Ok m
  | peer :: rest =>
      p ← ping_peer seed peer (answer peer) (mb_ice m);
      Ok (mb_tell p.1 p.2 rest m)
  end.

Fixpoint ping_all (n : nat) (seed : nat)
    (answer : Id * SocketAddr → list Query → option (Id * list Outcome)) m : res unit Member :=
  match n with
  | O => Ok m
  | S n' => m' ← ping_next seed answer m; ping_all n' (S seed) answer m'
  end.

(** [ice::run], one turn of its loop *)
Definition run_round (seed : nat)
    (answer : Id * SocketAddr → list Query → option (Id * list Outcome)) m : res unit Member :=
  m' ← start_round seed m;
  ping_all (length (mb_round m')) (S seed) answer m'.

(** ** The machine *)
Inductive member_step : Member → Member → Prop :=
| member_version id ip m : member_step m (mb_set_view (view_version id ip (mb_view m)).1 m)
| member_queries qs m : member_step m (mb_set_ice (ice_ping qs (mb_ice m)).1 m)
| member_bootstrap rs m :
    let b := bootstrap_round rs (mb_view m) (mb_ice m) in
    member_step m (mb_set_ice b.1.2 (mb_set_view b.1.1 m))
| member_sample seed m m' : start_round seed m = Ok m' → member_step m m'
| member_ping seed answer m m' : ping_next seed answer m = Ok m' → member_step m m'.

(** ** The reservoir *)

(** The peers are among [X], what is queued are peers, and an open quorum has a
    vote and is not full. *)
Record reservoir_ok X r : Prop := {
  ro_peers : dom (rv_decisions r) ⊆ X;
  ro_queue : ∀ id e, (id, e) ∈ rv_random_queue r → id ∈ dom (rv_decisions r);
  ro_quorums : ∀ id q, rv_quorums r !! id = Some q → 0 < size q < K
}.

Lemma reservoir_ok_weaken X Y r : X ⊆ Y → reservoir_ok X r → reservoir_ok Y r.
Proof. intros HXY []. split; try done. set_solver. Qed.

(** New decisions about the same peers. *)
Lemma reservoir_ok_decisions X r ds :
  dom ds = dom (rv_decisions r) → reservoir_ok X r → reservoir_ok X (rv_set_decisions ds r).
Proof. intros Hd []. split; cbn; rewrite ?Hd; done. Qed.

Lemma reservoir_ok_insert X r id e :
  id ∈ X → reservoir_ok X r → reservoir_ok X (rv_set_decisions (<[id := e]> (rv_decisions r)) r).
Proof.
  intros Hid []. split; cbn; rewrite ?dom_insert_L; [set_solver| |done].
  intros id' e' Hin. apply ro_queue0 in Hin. set_solver.
Qed.

Lemma dom_insert_known r id e e' :
  rv_decisions r !! id = Some e' → dom (<[id := e]> (rv_decisions r)) = dom (rv_decisions r).
Proof. intros Hid. rewrite dom_insert_L. apply elem_of_dom_2 in Hid. set_solver. Qed.

Lemma process_outcome_ok X responder o r :
  reservoir_ok X r → reservoir_ok X (process_outcome responder o r).1.
Proof.
  intros [Hp Hq Hs]. unfold process_outcome.
  destruct (process_quorum responder (oc_peer_id o) (oc_choice o) r) as [r1 q] eqn:Hpq.
  assert (rv_random_queue r1 = rv_random_queue r) as Hrq.
  { unfold process_quorum in Hpq. repeat case_match; by simplify_eq. }
  pose proof (process_quorum_spec _ _ _ _ _ Hpq) as (Hd & _ & Hqs & Hr & _).
  destruct (Nat.leb_spec K (size q)) as [Hk|Hk].
  - destruct (process_decision (oc_peer_id o) q r1) as [r2 b] eqn:Hpd.
    assert (rv_random_queue r2 = rv_random_queue r1) as Hrq2.
    { unfold process_decision, reset_conviction in Hpd. repeat case_match; by simplify_eq. }
    apply process_decision_spec in Hpd as [Hq2 Hd2].
    assert (dom (rv_decisions r2) = dom (rv_decisions r)) as Hdom by (by rewrite Hd2, dom_alter_L, Hd).
    assert (reservoir_ok X r2) as Hr2; [|by destruct b].
    split; rewrite ?Hdom, ?Hrq2, ?Hrq; [done|done|]. intros id q'.
    rewrite Hq2, Hqs, delete_insert_eq, lookup_delete_Some. intros [_ ?]. by eapply Hs.
  - split; cbn; rewrite ?Hd, ?Hrq; [done|done|]. intros id q'.
    rewrite Hqs, lookup_insert_Some. intros [[_ <-]|[_ ?]]; [|by eapply Hs]. split; [|done].
    apply Nat.neq_0_lt_0. intros ->%map_size_empty_inv. by rewrite lookup_empty in Hr.
Qed.

Lemma fill_ok X responder os r : reservoir_ok X r → reservoir_ok X (fill responder os r).1.
Proof.
  intros Hr. unfold fill.
  assert (reservoir_ok X (reset_faulty_decision responder r)) as Hr0.
  { unfold reset_faulty_decision. repeat case_match; try done.
    apply reservoir_ok_decisions; [|done]. by eapply dom_insert_known. }
  revert Hr0. generalize (reset_faulty_decision responder r), false.
  induction os as [|o os IH]; intros r0 b Hr0; [done|]. cbn [foldl fst snd].
  pose proof (process_outcome_ok X responder o r0 Hr0) as Hr1.
  destruct (process_outcome responder o r0) as [r1 b1]. by apply IH.
Qed.

Lemma update_choice_ok X id c r :
  reservoir_ok X r → reservoir_ok X (update_choice id c r).1 ∧
  rv_nbootstrapped (update_choice id c r).1 = rv_nbootstrapped r.
Proof.
  intros Hr. unfold update_choice. cbn. destruct (rv_decisions r !! id) as [[[ip d] n]|] eqn:Hid; [|done].
  case_bool_decide; [|done]. split; [|done]. apply reservoir_ok_decisions; [|done].
  by eapply dom_insert_known.
Qed.

Lemma process_query_ok X r self q :
  reservoir_ok X r → reservoir_ok X (process_query r self q).1 ∧
  rv_nbootstrapped (process_query r self q).1 = rv_nbootstrapped r.
Proof.
  intros Hr. unfold process_query. case_bool_decide; [done|]. unfold get_decision, set_choice.
  destruct (rv_decisions r !! q_peer_id q) as [[[ip d] n]|] eqn:Hid; [done|].
  by destruct (q_choice q).
Qed.

Lemma ice_ping_ok X qs i :
  reservoir_ok X (ic_reservoir i) → let i' := (ice_ping qs i).1 in
  reservoir_ok X (ic_reservoir i') ∧ ic_id i' = ic_id i ∧ ic_bootstrapped i' = ic_bootstrapped i ∧
  rv_nbootstrapped (ic_reservoir i') = rv_nbootstrapped (ic_reservoir i).
Proof.
  intros Hr. unfold ice_ping.
  assert (∀ acc : Reservoir * list Outcome, reservoir_ok X acc.1 →
    let acc' := foldl (λ acc q, let '(r, o) := process_query acc.1 (ic_id i) q in (r, acc.2 ++ [o]))
      acc qs in
    reservoir_ok X acc'.1 ∧ rv_nbootstrapped acc'.1 = rv_nbootstrapped acc.1) as Hf.
  { induction qs as [|q qs IH]; intros acc Hacc; [done|]. cbn [foldl].
    destruct (process_query_ok X acc.1 (ic_id i) q Hacc) as [Hok Hn].
    destruct (process_query acc.1 (ic_id i) q) as [r1 o]. cbn in *.
    destruct (IH (r1, acc.2 ++ [o]) Hok) as [? ->]. done. }
  specialize (Hf (ic_reservoir i, []) Hr). destruct (foldl _ _ _) as [r' os]. cbn in *. tauto.
Qed.

Lemma sample_queue_ok X fuel seed n samples r r' sm :
  reservoir_ok X r → sample_queue fuel seed n samples r = Ok (r', sm) →
  reservoir_ok X r' ∧ rv_nbootstrapped r' = rv_nbootstrapped r.
Proof.
  revert seed n samples r. induction fuel as [|fuel IH]; intros seed n samples r Hr Heq; [done|].
  cbn [sample_queue] in Heq. destruct (K <=? n)%nat; [by simplify_eq|].
  destruct (rv_random_queue r) as [|[id e] l _] eqn:Hq using rev_ind.
  - cbn in Heq. destruct (permute seed r) as [r1 b] eqn:Hp.
    pose proof (permute_spec _ _ _ _ Hp) as (Hd & Hqs & Hn & Hb). destruct Hr as [Hr1 Hr2 Hr3].
    destruct b.
    + destruct (Hb eq_refl) as [_ Hin]. rewrite <- Hn. eapply IH, Heq.
      split; rewrite ?Hd, ?Hqs; [done| |done]. intros id e [He _]%Hin. by eapply elem_of_dom_2.
    + simplify_eq. split; [|done]. unfold permute in Hp. case_match; simplify_eq. by split.
  - rewrite last_snoc, removelast_last in Heq. destruct Hr as [Hr1 Hr2 Hr3].
    eapply IH in Heq; [done|]. split; cbn; [done| |done].
    intros id' e' Hin. apply (Hr2 id' e'). rewrite Hq. set_solver.
Qed.

Lemma sample_queries_ok X seed p i i' qs :
  p.1 ∈ X → reservoir_ok X (ic_reservoir i) → ice_sample_queries seed p i = Ok (i', qs) →
  reservoir_ok X (ic_reservoir i') ∧ ic_id i' = ic_id i ∧ ic_bootstrapped i' = ic_bootstrapped i ∧
  rv_nbootstrapped (ic_reservoir i') = rv_nbootstrapped (ic_reservoir i) ∧
  dom (rv_decisions (ic_reservoir i')) = {[ p.1 ]} ∪ dom (rv_decisions (ic_reservoir i)).
Proof.
  intros Hp Hr. unfold ice_sample_queries. set (r0 := rv_insert_new _ _ _ _ _).
  assert (reservoir_ok X r0 ∧ rv_nbootstrapped r0 = rv_nbootstrapped (ic_reservoir i) ∧
    dom (rv_decisions r0) = {[ p.1 ]} ∪ dom (rv_decisions (ic_reservoir i))) as (Hr0 & Hn & Hd).
  { unfold r0, rv_insert_new. destruct (rv_decisions (ic_reservoir i) !! p.1) eqn:Hl.
    - split_and!; [done|done|]. apply elem_of_dom_2 in Hl. set_solver.
    - split_and!; [by apply reservoir_ok_insert|done|]. cbn. by rewrite dom_insert_L. }
  destruct (0 <? _)%nat; [|intros; simplify_eq; done].
  intros ([r1 sm] & Hs & [= <- <-])%res_bind_Ok_inv. cbn.
  assert (rv_decisions r1 = rv_decisions r0) as Hds.
  { destruct (reservoir_sample_spec seed r0) as (? & ? & Hs' & _ & Hds & _). rewrite Hs in Hs'. by simplify_eq. }
  unfold reservoir_sample in Hs. destruct (0 <? _)%nat; [|by simplify_eq].
  destruct (sample_queue_ok X _ _ _ _ _ _ _ Hr0 Hs) as [? ?]. rewrite Hds. split_and!; congruence || done.
Qed.

(** ** The view *)

(** The node itself is not among its peers, and only peers are sampled. *)
Record view_ok (own : Id) v : Prop := {
  vo_own : vw_node_id v = own;
  vo_wf : view_wf v;
  vo_self : own ∉ dom (sm_map (vw_peers v));
  vo_queue : ∀ e, e ∈ sm_queue (vw_peers v) → e.1 ∈ dom (sm_map (vw_peers v))
}.

Lemma copies_elem {A} n (l : list A) x : x ∈ copies n l → x ∈ l.
Proof.
  unfold copies. rewrite list_elem_of_join. intros (k & Hx & Hk). by apply elem_of_replicate in Hk as [-> _].
Qed.

Lemma sample_k_ok own seed k v :
  view_ok own v → ∃ v' ps, sample_k seed k v = Ok (v', ps) ∧ view_ok own v' ∧
    sm_map (vw_peers v') = sm_map (vw_peers v) ∧
    ∀ p, p ∈ ps → p.1 ∈ dom (sm_map (vw_peers v)).
Proof.
  intros [Hid Hwf Hself Hq]. unfold sample_k. destruct (_ <=? _)%nat.
  2: { exists v, []. split_and!; [done|done|done|set_solver]. }
  destruct (sample_map_fair seed k (vw_peers v)) as (sm & drawn & n & -> & Hm & Hp & _).
  assert (∀ p, p ∈ drawn ++ sm_queue sm → p.1 ∈ dom (sm_map (vw_peers v))) as Hin.
  { intros [x y]. rewrite Hp, elem_of_app. intros [?|Hc%copies_elem%elem_of_map_to_list]; [by apply Hq|].
    by eapply elem_of_dom_2. }
  eexists _, _. split; [reflexivity|]. split_and!; [|done|intros p ?; apply Hin; set_solver].
  destruct Hwf as [Hw1 Hw2]. split; cbn; rewrite ?Hm; [done| |done|].
  - split; cbn; [done|by rewrite Hm].
  - intros e He. apply Hin. set_solver.
Qed.

Lemma insert_update_ok own id ip v :
  view_ok own v → let v' := (insert_update id ip v).1 in
  view_ok own v' ∧ dom (sm_map (vw_peers v)) ⊆ dom (sm_map (vw_peers v')).
Proof.
  intros [Hid Hwf Hself Hq]. cbn. destruct (insert_update id ip v) as [v' b] eqn:Hi. cbn.
  apply insert_update_spec in Hi as (Hwf' & Hid' & _ & Hq' & Hm & _); [|done].
  assert (dom (sm_map (vw_peers v')) = dom (sm_map (vw_peers v)) ∪ ({[ id ]} ∖ {[ own ]})) as Hd.
  { rewrite Hm, dom_with_peers, Hid. set_solver. }
  split; [|set_solver]. split; [congruence|done|set_solver|].
  rewrite Hq'. intros e He%Hq. set_solver.
Qed.

Lemma update_peers_ok own rs v :
  view_ok own v → let v' := (view_update_peers rs v).1 in
  view_ok own v' ∧ dom (sm_map (vw_peers v)) ⊆ dom (sm_map (vw_peers v')).
Proof.
  intros [Hid Hwf Hself Hq]. cbn.
  destruct (update_peers_spec rs v Hwf) as (v' & us & -> & Hwf' & Hid' & Hq' & _ & Hd & _). cbn.
  split; [|set_solver]. split; [congruence|done|set_solver|].
  rewrite Hq'. intros e He%Hq. set_solver.
Qed.

(** ** The invariant *)

(** The test on which [fill] and [update_choice] report. *)
Definition enough r : bool := (K <=? rv_nbootstrapped r)%nat.

#[local] Arguments enough _ : simpl never.

(** What alpha was told last. *)
Definition told_live (out : list AlphaNotice) : bool :=
  match list.last out with Some (LiveNetwork _ _) => true | _ => false end.

Record member_inv (own : Id) m : Prop := {
  mi_view : view_ok own (mb_view m);
  mi_id : ic_id (mb_ice m) = own;
  mi_round : ∀ p, p ∈ mb_round m → p.1 ∈ dom (sm_map (vw_peers (mb_view m)));
  mi_reservoir : reservoir_ok (dom (sm_map (vw_peers (mb_view m)))) (ic_reservoir (mb_ice m));
  mi_flag : ic_bootstrapped (mb_ice m) = enough (ic_reservoir (mb_ice m));
  mi_told : told_live (mb_out m) = ic_bootstrapped (mb_ice m)
}.

Lemma told_live_app out ns : ns ≠ [] → told_live (out ++ ns) = told_live ns.
Proof. intros Hns. unfold told_live. rewrite last_app. by destruct ns as [|n ns _] using rev_ind; [|rewrite last_snoc]. Qed.

Lemma ping_success_keeps X out self ack os i :
  reservoir_ok X (ic_reservoir i) →
  ic_bootstrapped i = enough (ic_reservoir i) → told_live out = ic_bootstrapped i →
  let '(i', ns) := send_ping_success self ack os i in
  reservoir_ok X (ic_reservoir i') ∧ ic_id i' = ic_id i ∧
  ic_bootstrapped i' = enough (ic_reservoir i') ∧
  told_live (out ++ ns) = ic_bootstrapped i'.
Proof.
  intros Hr Hf Ht. unfold send_ping_success, ice_ping_success.
  pose proof (fill_ok X ack os _ Hr) as Hr'.
  destruct (fill ack os (ic_reservoir i)) as [r' [b flipped]] eqn:Hfill. cbn in Hr'.
  assert (b = enough r') as ->.
  { unfold fill in Hfill. destruct (foldl _ _ _) as [r0 c]. by simplify_eq. }
  destruct (enough r') eqn:Hb, (ic_bootstrapped i) eqn:Hi; cbn [ic_bootstrapped ic_set_reservoir];
    rewrite ?Hi; cbn [negb sw_flipped sw_bootstrapped]; cbn; (split_and!; [done|done|congruence|]);
    rewrite ?app_nil_r; try congruence.
  - destruct flipped; [by rewrite told_live_app, Hi|by rewrite app_nil_r, Hi].
  - by rewrite told_live_app.
  - by rewrite told_live_app.
Qed.

(** A failed ping never makes ice report a faulty network. *)
Lemma ping_failure_silent id i :
  ic_bootstrapped i = enough (ic_reservoir i) →
  send_ping_failure id i = (ic_set_reservoir (update_choice id Faulty (ic_reservoir i)).1 i, []).
Proof.
  intros Hf. unfold send_ping_failure, ice_ping_failure.
  assert ((update_choice id Faulty (ic_reservoir i)).2 = ic_bootstrapped i) as Hb.
  { rewrite Hf. unfold update_choice, enough. cbn [snd].
    destruct (rv_decisions _ !! id) as [[[ip d] n]|]; [by case_bool_decide|done]. }
  destruct (update_choice id Faulty (ic_reservoir i)) as [r b]. cbn in Hb. subst b. cbn.
  destruct (ic_bootstrapped i) eqn:Hi; cbn; by rewrite ?Hi.
Qed.

Lemma ping_peer_keeps X out seed p answer i :
  p.1 ∈ X → reservoir_ok X (ic_reservoir i) →
  ic_bootstrapped i = enough (ic_reservoir i) → told_live out = ic_bootstrapped i →
  ∃ i' ns, ping_peer seed p answer i = Ok (i', ns) ∧
    reservoir_ok X (ic_reservoir i') ∧ ic_id i' = ic_id i ∧
    ic_bootstrapped i' = enough (ic_reservoir i') ∧ told_live (out ++ ns) = ic_bootstrapped i'.
Proof.
  intros Hp Hr Hf Ht. unfold ping_peer.
  assert (∃ x, ice_sample_queries seed p i = Ok x) as [[i1 qs] Hs].
  { unfold ice_sample_queries. destruct (0 <? _)%nat; [|eauto].
    destruct (reservoir_sample_spec seed (rv_insert_new p.1 p.2 Live 0 (ic_reservoir i))) as (? & ? & -> & _).
    eauto. }
  destruct (sample_queries_ok X seed p i i1 qs Hp Hr Hs) as (Hr1 & Hid1 & Hb1 & Hn1 & _).
  assert (ic_bootstrapped i1 = enough (ic_reservoir i1)) as Hf1 by (unfold enough; by rewrite Hn1, Hb1, Hf).
  rewrite Hs. cbn [mbind res_bind fst snd]. destruct (answer qs) as [[ack os]|].
  - pose proof (ping_success_keeps X out (ic_id i) ack os i1 Hr1 Hf1) as Hk.
    destruct (send_ping_success (ic_id i) ack os i1) as [i2 ns].
    destruct Hk as (? & ? & ? & ?); [congruence|]. exists i2, ns. split_and!; congruence || done.
  - rewrite ping_failure_silent by done. destruct (update_choice_ok X p.1 Faulty _ Hr1) as [Hu Hn].
    eexists _, _. split; [reflexivity|]. rewrite app_nil_r.
    cbn [ic_reservoir ic_set_reservoir ic_id ic_bootstrapped]. split_and!; [done|done| |congruence].
    unfold enough in *. by rewrite Hn, Hf1.
Qed.

Lemma ping_next_keeps own seed answer m :
  member_inv own m → ∃ m', ping_next seed answer m = Ok m' ∧ member_inv own m'.
Proof.
  intros Hm. unfold ping_next. destruct (mb_round m) as [|p rest] eqn:Hr; [eauto|].
  destruct Hm as [Hv Hid Hrd Hres Hf Ht].
  destruct (ping_peer_keeps (dom (sm_map (vw_peers (mb_view m)))) (mb_out m) seed p (answer p) (mb_ice m))
    as (i' & ns & -> & Hr' & Hid' & Hf' & Ht'); [apply Hrd; rewrite Hr; by left|done..|].
  eexists. split; [reflexivity|]. split; cbn; try done; [congruence|].
  intros q Hq. apply Hrd. rewrite Hr. by right.
Qed.

Lemma start_round_keeps own seed m :
  member_inv own m → ∃ m', start_round seed m = Ok m' ∧ member_inv own m'.
Proof.
  intros [Hv Hid Hrd Hres Hf Ht]. unfold start_round.
  destruct (sample_k_ok own seed (ping_size (ice_reservoir_size (mb_ice m))) (mb_view m) Hv)
    as (v' & ps & -> & Hv' & Hm & Hps).
  eexists. split; [reflexivity|]. split; cbn; try done; rewrite Hm; done.
Qed.

Lemma ice_bootstrap_ok X ps i :
  (∀ p, p ∈ ps → p.1 ∈ X) → reservoir_ok X (ic_reservoir i) → let i' := (ice_bootstrap ps i).1 in
  reservoir_ok X (ic_reservoir i') ∧ ic_id i' = ic_id i ∧ ic_bootstrapped i' = ic_bootstrapped i ∧
  enough (ic_reservoir i') = enough (ic_reservoir i).
Proof.
  intros Hps Hr. cbn. generalize dependent (ic_reservoir i).
  induction ps as [|p ps IH]; intros r Hr; [done|]. cbn [foldl].
  destruct (IH ltac:(set_solver) (rv_insert p.1 p.2 Live 0 r)) as (? & ? & ? & He).
  - apply reservoir_ok_insert; [apply Hps; by left|done].
  - split_and!; done.
Qed.

Lemma bootstrap_round_keeps own rs m :
  member_inv own m → let b := bootstrap_round rs (mb_view m) (mb_ice m) in
  member_inv own (mb_set_ice b.1.2 (mb_set_view b.1.1 m)).
Proof.
  intros [Hv Hid Hrd Hres Hf Ht]. unfold bootstrap_round. destruct (0 <? _)%nat; [|by split].
  destruct (update_peers_ok own rs (mb_view m) Hv) as [Hv' Hsub].
  destruct (view_update_peers rs (mb_view m)) as [v' [us []]]; cbn in Hv', Hsub;
    [|split; cbn; try done; [set_solver|by eapply reservoir_ok_weaken]].
  destruct (ice_bootstrap_ok (dom (sm_map (vw_peers v'))) (view_get_peers v') (mb_ice m))
    as (Hr' & Hid' & Hb' & He').
  - intros [x y] Hin. apply elem_of_iter_map in Hin. by eapply elem_of_dom_2.
  - by eapply reservoir_ok_weaken.
  - destruct (ice_bootstrap _ (mb_ice m)) as [i' b']. cbn in *.
    split; cbn; [done|congruence|set_solver|done|congruence|congruence].
Qed.

Lemma member_step_keeps own m m' : member_step m m' → member_inv own m → member_inv own m'.
Proof.
  destruct 1 as [id ip m|qs m|rs m b|seed m m' Hs|seed answer m m' Hp]; intros Hm.
  - destruct Hm as [Hv Hid Hrd Hres Hf Ht]. destruct (insert_update_ok own id ip _ Hv) as [Hv' Hsub].
    split; cbn; try done; [set_solver|by eapply reservoir_ok_weaken].
  - destruct Hm as [Hv Hid Hrd Hres Hf Ht].
    destruct (ice_ping_ok _ qs _ Hres) as (Hr' & Hid' & Hb' & Hn').
    split; cbn; try done; [congruence| |congruence]. unfold enough in *. congruence.
  - by apply bootstrap_round_keeps.
  - destruct (start_round_keeps own seed m Hm) as (? & Hs' & ?). congruence.
  - destruct (ping_next_keeps own seed answer m Hm) as (? & Hp' & ?). congruence.
Qed.

Lemma member_steps_keep own m m' : rtc member_step m m' → member_inv own m → member_inv own m'.
Proof. induction 1; eauto using member_step_keeps. Qed.

(** The two actors when the node starts. *)
Definition member_start (ip : SocketAddr) (peers : list (Id * SocketAddr)) (id : Id) : Member :=
  mkMember (view_init peers (view_new ip id)) (ice_new id ip reservoir_new) [] [].

Lemma view_init_ok own ps v :
  own ∉ ps.*1 → view_ok own v → sm_queue (vw_peers v) = [] →
  view_ok own (view_init ps v) ∧ sm_queue (vw_peers (view_init ps v)) = [].
Proof.
  revert v. induction ps as [|p ps IH]; intros v Hps [Hid [Hsz Hin] Hself Hq] Hnil; [done|].
  rewrite fmap_cons, not_elem_of_cons in Hps. destruct Hps as [Hp Hps]. cbn [view_init foldl].
  set (v1 := vw_set_peers (sm_insert p.1 p.2 (vw_peers v)).1 v).
  assert (view_wf v1 ∧ p.1 ∈ dom (sm_map (vw_peers v1))) as [Hwf1 Hd1].
  { split; [split|]; cbn; [done| |set_solver]. intros x Hx%Hin. set_solver. }
  destruct (list_peer_spec p.1 p.2 v1 Hwf1 Hd1) as (Hwf & Hpe & Hn & _).
  apply IH; [done| |by rewrite Hpe].
  split; rewrite ?Hpe, ?Hn; [done|done|cbn; set_solver|]. cbn. rewrite Hnil. set_solver.
Qed.

Lemma member_start_inv ip peers id : id ∉ peers.*1 → member_inv id (member_start ip peers id).
Proof.
  intros Hid. destruct (view_init_ok id peers (view_new ip id)) as [Hv _]; [done| |done|].
  - split; cbn; [done| |set_solver|set_solver]. split; cbn; [rewrite size_empty; lia|set_solver].
  - split; cbn; try done; [set_solver|]. split; cbn; [set_solver..|]. intros x q Hx.
    by rewrite lookup_empty in Hx.
Qed.

Lemma ping_all_runs own n seed answer m :
  member_inv own m → ∃ m', ping_all n seed answer m = Ok m' ∧ rtc member_step m m'.
Proof.
  revert seed m. induction n as [|n IH]; intros seed m Hm; [by exists m|]. cbn [ping_all].
  destruct (ping_next_keeps own seed answer m Hm) as (m1 & Hp & Hm1).
  destruct (IH (S seed) m1 Hm1) as (m' & Hp' & Hs'). exists m'. rewrite Hp. split; [done|].
  eapply rtc_l; [|done]. by eapply member_ping.
Qed.

Lemma run_round_runs own seed answer m :
  member_inv own m → ∃ m', run_round seed answer m = Ok m' ∧ rtc member_step m m'.
Proof.
  intros Hm. unfold run_round. destruct (start_round_keeps own seed m Hm) as (m1 & Hs & Hm1).
  destruct (ping_all_runs own (length (mb_round m1)) (S seed) answer m1 Hm1) as (m' & Hp & Hr).
  exists m'. rewrite Hs. split; [done|]. eapply rtc_l; [|done]. by eapply member_sample.
Qed.

(** C27: View and ice stay consistent, with each other and with what alpha was told.  Take
    a node whose bootstrap peers are others, and any sequence of requests, handshakes and
    pings with any answers.  Then the node is not among its own peers, ice decides and
    queries only about peers of the view, at most three peers are handed to others, no
    full quorum stays open; alpha was told last that the network is live exactly when ice
    has counted enough confirmations; and the next round of pings ends, whatever the
    peers answer. *)
Theorem membership_invariant ip peers id m :
  id ∉ peers.*1 → rtc member_step (member_start ip peers id) m →
  member_inv id m ∧
  ∀ seed answer, ∃ m', run_round seed answer m = Ok m' ∧ rtc member_step m m'.
Proof.
  intros Hid Hm. apply (member_steps_keep id) in Hm; [|by apply member_start_inv].
  split; [done|]. intros seed answer. by eapply run_round_runs.
Qed.

(** ** A network that dies *)
Definition nobody (p : Id * SocketAddr) (qs : list Query) : option (Id * list Outcome) := None.

(** The peer is thought to be faulty. *)
Definition thought_faulty r (id : Id) : Prop := ∃ ip n, rv_decisions r !! id = Some (ip, Faulty, n).

Lemma faulty_not_live r id : thought_faulty r id → get_live_endpoint r id = None.
Proof. intros (ip & n & Hid). unfold get_live_endpoint, get_endpoint_having_strong_choice. by rewrite Hid. Qed.

Lemma update_faulty r id :
  id ∈ dom (rv_decisions r) → let r' := (update_choice id Faulty r).1 in
  thought_faulty r' id ∧ ∀ x, thought_faulty r x → thought_faulty r' x.
Proof.
  intros [[[ip c] n] Hid]%elem_of_dom. unfold update_choice. cbn. rewrite Hid.
  case_bool_decide as Hc.
  - split; [exists ip, 0; cbn; by rewrite lookup_insert_eq|]. intros x (ip' & n' & Hx).
    unfold thought_faulty. cbn. destruct (decide (id = x)) as [<-|].
    + exists ip, 0. by rewrite lookup_insert_eq.
    + exists ip', n'. by rewrite lookup_insert_ne.
  - split; [|done]. exists ip, n. destruct c; [by destruct Hc|done].
Qed.

Lemma sample_queries_decisions seed p i i' qs :
  ice_sample_queries seed p i = Ok (i', qs) → ∀ x, thought_faulty (ic_reservoir i) x →
  thought_faulty (ic_reservoir i') x.
Proof.
  unfold ice_sample_queries. set (r0 := rv_insert_new _ _ _ _ _). intros Heq x Hx.
  assert (thought_faulty r0 x) as Hx0.
  { destruct Hx as (ip & n & Hx). exists ip, n. unfold r0, rv_insert_new.
    destruct (rv_decisions (ic_reservoir i) !! p.1) eqn:Hl; [done|]. cbn.
    rewrite lookup_insert_ne; [done|]. intros <-. congruence. }
  destruct (0 <? _)%nat; [|by simplify_eq].
  apply res_bind_Ok_inv in Heq as ([r1 sm] & Hs & [= <- _]). cbn.
  destruct (reservoir_sample_spec seed r0) as (? & ? & Hs' & _ & Hds & _). rewrite Hs in Hs'.
  simplify_eq. unfold thought_faulty. by rewrite Hds.
Qed.

Lemma silent_ping own seed m p rest :
  member_inv own m → mb_round m = p :: rest →
  ∃ i', ping_next seed nobody m = Ok (mb_tell i' [] rest m) ∧
    ic_bootstrapped i' = ic_bootstrapped (mb_ice m) ∧ thought_faulty (ic_reservoir i') p.1 ∧
    ∀ x, thought_faulty (ic_reservoir (mb_ice m)) x → thought_faulty (ic_reservoir i') x.
Proof.
  intros [Hv Hid Hrd Hres Hf Ht] Hr.
  assert (p.1 ∈ dom (sm_map (vw_peers (mb_view m)))) as Hp by (apply Hrd; rewrite Hr; by left).
  destruct (ping_peer_keeps _ (mb_out m) seed p (nobody p) (mb_ice m) Hp Hres Hf Ht) as (i' & ns & Hpp & _).
  unfold ping_next. rewrite Hr, Hpp. unfold ping_peer in Hpp.
  apply res_bind_Ok_inv in Hpp as ([i1 qs] & Hs & Heq). cbn [fst snd nobody] in Heq.
  destruct (sample_queries_ok _ _ _ _ _ _ Hp Hres Hs) as (Hr1 & _ & Hb1 & Hn1 & Hd1).
  rewrite ping_failure_silent in Heq by (unfold enough in *; by rewrite Hn1, Hb1, Hf).
  injection Heq as <- <-. eexists. split; [reflexivity|].
  destruct (update_faulty (ic_reservoir i1) p.1) as [Hfp Hfx]; [rewrite Hd1; set_solver|].
  split_and!; [done|done|]. intros x Hx. apply Hfx. by eapply sample_queries_decisions.
Qed.

Lemma silent_pings own n seed m :
  member_inv own m → n = length (mb_round m) →
  ∃ m', ping_all n seed nobody m = Ok m' ∧ mb_out m' = mb_out m ∧ mb_view m' = mb_view m ∧
    ic_bootstrapped (mb_ice m') = ic_bootstrapped (mb_ice m) ∧
    ∀ x, x ∈ (mb_round m).*1 ∨ thought_faulty (ic_reservoir (mb_ice m)) x →
      thought_faulty (ic_reservoir (mb_ice m')) x.
Proof.
  revert seed m. induction n as [|n IH]; intros seed m Hm Hn.
  { exists m. destruct (mb_round m); [|done]. split_and!; [done..|]. intros x [Hx|?]; [set_solver|done]. }
  destruct (mb_round m) as [|p rest] eqn:Hr; [done|]. injection Hn as Hn.
  destruct (silent_ping own seed m p rest Hm Hr) as (i' & Hp & Hb & Hfp & Hfx).
  destruct (ping_next_keeps own seed nobody m Hm) as (m1 & Hp1 & Hm1). rewrite Hp in Hp1.
  injection Hp1 as <-. destruct (IH (S seed) _ Hm1 Hn) as (m' & Hall & Ho & Hv & Hb' & Hx').
  exists m'. cbn [ping_all]. rewrite Hp. split_and!; [exact Hall| |done|cbn in Hb'; congruence|].
  - rewrite Ho. cbn. by rewrite app_nil_r.
  - intros x Hx. apply Hx'. cbn. rewrite fmap_cons, elem_of_cons in Hx.
    destruct Hx as [[->|?]|?]; [right; done|by left|right; by apply Hfx].
Qed.

(** C28: A network that dies is not noticed.  When in a round no peer that is pinged
    answers, all of them are thought to be faulty afterwards and none of them would be
    named for a committee; but ice stays bootstrapped if it was, and alpha is told
    nothing, although the handler of [PingFailure] is written to report the change. *)
Theorem dead_network_not_reported ip peers id m seed :
  id ∉ peers.*1 → rtc member_step (member_start ip peers id) m →
  ∃ pinged m', start_round seed m = Ok pinged ∧ run_round seed nobody m = Ok m' ∧
    mb_out m' = mb_out m ∧ ic_bootstrapped (mb_ice m') = ic_bootstrapped (mb_ice m) ∧
    ∀ x, x ∈ (mb_round pinged).*1 →
      thought_faulty (ic_reservoir (mb_ice m')) x ∧ get_live_endpoint (ic_reservoir (mb_ice m')) x = None.
Proof.
  intros Hid Hm. apply (member_steps_keep id) in Hm; [|by apply member_start_inv].
  destruct (start_round_keeps id seed m Hm) as (m1 & Hs & Hm1).
  destruct (silent_pings id _ (S seed) m1 Hm1 eq_refl) as (m' & Hall & Ho & _ & Hb & Hx).
  assert (mb_out m1 = mb_out m ∧ mb_ice m1 = mb_ice m) as [Ho1 Hi1].
  { unfold start_round in Hs. apply res_bind_Ok_inv in Hs as (? & _ & [= <-]). done. }
  exists m1, m'. split; [done|]. unfold run_round. rewrite Hs. split_and!; [exact Hall|congruence|congruence|].
  intros x Hin. pose proof (Hx x (or_introl Hin)). split; [done|]. by apply faulty_not_live.
Qed.
End membership.

(** ** Witnesses *)
Section membership_witnesses.
#[local] Existing Instance canonical_order.
#[local] Existing Instance release_profile.
#[local] Existing Instance keep_order.

(** Peers that know each other and answer every query. *)
Definition everybody (p : Id * SocketAddr) (qs : list Query) : option (Id * list Outcome) :=
  Some (p.1, (λ q, mkOutcome (q_peer_id q) Live) <$> qs).

Fixpoint rounds (n seed : nat) (m : Member) : res unit Member :=
  match n with
  | O => Ok m
  | S n' => m' ← run_round seed everybody m; rounds n' (S seed) m'
  end.

Definition joining : Member := member_start (host 1) [([2%Z], host 2); ([3%Z], host 3)] [1%Z].
Definition joined : Member :=
  let b := bootstrap_round [RespVersionAck (mkVersionAck [2%Z] (host 2) []);
    RespVersionAck (mkVersionAck [3%Z] (host 3) [([1%Z], host 1)])] (mb_view joining) (mb_ice joining) in
  mb_set_ice b.1.2 (mb_set_view b.1.1 joining).

Lemma rounds_run own n seed m :
  member_inv own m → ∃ m', rounds n seed m = Ok m' ∧ rtc member_step m m'.
Proof.
  revert seed m. induction n as [|n IH]; intros seed m Hm; [by exists m|]. cbn [rounds].
  destruct (run_round_runs own seed everybody m Hm) as (m1 & -> & Hr).
  destruct (IH (S seed) m1) as (m' & Hm' & Hr'); [by eapply member_steps_keep|].
  exists m'. split; [exact Hm'|]. by etrans.
Qed.

Definition confirmed : Member := match rounds 3 0 joined with Ok m => m | _ => joined end.

Lemma confirmed_reachable : rtc member_step joining confirmed.
Proof.
  eapply rtc_l; [apply member_bootstrap|]. fold joined. unfold confirmed.
  destruct (rounds_run [1%Z] 3 0 joined) as (m' & -> & Hr); [|exact Hr].
  apply bootstrap_round_keeps, member_start_inv. apply (bool_decide_unpack _). vm_compute. exact I.
Qed.

Lemma membership_invariant_witness :
  told_live (mb_out confirmed) = true ∧ ([1%Z] ∉ dom (sm_map (vw_peers (mb_view confirmed)))) ∧
  ∃ m', run_round 7 nobody confirmed = Ok m'.
Proof.
  split; [vm_compute; reflexivity|].
  destruct (membership_invariant (host 1) [([2%Z], host 2); ([3%Z], host 3)] [1%Z] confirmed)
    as [[[_ _ Hself _] _ _ _ _ _] Hrun].
  - apply (bool_decide_unpack _). vm_compute. exact I.
  - exact confirmed_reachable.
  - split; [exact Hself|]. destruct (Hrun 7 nobody) as (m' & Hm' & _). exists m'. exact Hm'.
Defined.

Lemma dead_network_not_reported_witness :
  ic_bootstrapped (mb_ice confirmed) = true ∧
  ∃ m', run_round 7 nobody confirmed = Ok m' ∧ mb_out m' = mb_out confirmed ∧
    ic_bootstrapped (mb_ice m') = true ∧
    get_live_endpoint (ic_reservoir (mb_ice m')) [2%Z] = None.
Proof.
  assert (ic_bootstrapped (mb_ice confirmed) = true) as Hb by (vm_compute; reflexivity).
  assert (match start_round 7 confirmed with Ok p => bool_decide ([2%Z] ∈ (mb_round p).*1) | _ => false end = true)
    as Hp by (vm_compute; reflexivity).
  split; [exact Hb|].
  destruct (dead_network_not_reported (host 1) [([2%Z], host 2); ([3%Z], host 3)] [1%Z] confirmed 7)
    as (pinged & m' & Hs & Hr & Ho & Hb' & Hx).
  - apply (bool_decide_unpack _). vm_compute. exact I.
  - exact confirmed_reachable.
  - exists m'. rewrite Hs in Hp. apply bool_decide_eq_true in Hp.
    split; [exact Hr|]. split; [exact Ho|]. split; [exact (eq_trans Hb' Hb)|]. apply (Hx [2%Z] Hp).
Defined.
End membership_witnesses.
