(* ===== verification/Dissemination.v ===== *)
(** * Dissemination.v: the gossip that pings carry
      (src/src/ice/dissemination.rs, and [DoPing] of src/src/ice/ice.rs)

    Rumours wait in a map under a number, with a priority queue that counts how
    often each one was handed out.  The queue is a type of the priority_queue
    crate: [DoublePriorityQueue] lists its operations and [PriorityQueueLaws] what
    the crate documents of them. *)

From stdpp Require Import prelude gmap sets list fin_maps.
From Stdlib Require Import ZArith Lia SpecFloat.
From S2P Require Import Prelude Orders Cell Instances Dag Blocks Util Ice.

Definition GOSSIP_LIMIT : nat := 3.

Inductive Gossip : Type := Joiner (id : Id).

Abbreviation GossipId := Z (only parsing).

(** ** The priority queue *)
Class DoublePriorityQueue : Type := {
  PQ : Type;
  pq_new : PQ;
  pq_push : GossipId → Z → PQ → PQ;
  pq_push_increase : GossipId → Z → PQ → PQ;
  pq_pop_min : PQ → PQ * option (GossipId * Z);
  pq_pop_max : PQ → PQ * option (GossipId * Z);
  pq_peek_max : PQ → option (GossipId * Z);
  pq_len : PQ → nat
}.

(** An entry of [m] whose priority is the greatest with respect to [le]. *)
Definition extreme (le : Z → Z → Prop) (m : gmap GossipId Z) (o : option (GossipId * Z)) : Prop :=
  match o with
  | None => m = ∅
  | Some (i, p) => m !! i = Some p ∧ ∀ j q, m !! j = Some q → le p q
  end.

Definition without (m : gmap GossipId Z) (o : option (GossipId * Z)) : gmap GossipId Z :=
  match o with Some (i, _) => delete i m | None => m end.

(** A queue is a map from items to priorities. *)
Class PriorityQueueLaws `{DoublePriorityQueue} : Type := {
  pq_view : PQ → gmap GossipId Z;
  pq_new_law : pq_view pq_new = ∅;
  pq_push_law : ∀ i p q, pq_view (pq_push i p q) = <[i := p]> (pq_view q);
  pq_push_increase_law : ∀ i p q, pq_view (pq_push_increase i p q) =
    match pq_view q !! i with
    | Some p0 => <[i := Z.max p0 p]> (pq_view q)
    | None => <[i := p]> (pq_view q)
    end;
  pq_pop_min_law : ∀ q, extreme Z.le (pq_view q) (pq_pop_min q).2 ∧
    pq_view (pq_pop_min q).1 = without (pq_view q) (pq_pop_min q).2;
  pq_pop_max_law : ∀ q, extreme Z.ge (pq_view q) (pq_pop_max q).2 ∧
    pq_view (pq_pop_max q).1 = without (pq_view q) (pq_pop_max q).2;
  pq_peek_max_law : ∀ q, extreme Z.ge (pq_view q) (pq_peek_max q);
  pq_len_law : ∀ q, pq_len q = size (pq_view q)
}.

(** [f64::log2], whose precision the standard library leaves open. *)
Class Libm : Type := { f64_log2 : f64 → f64 }.

(** ** [PriorityMap] *)
Section priority_map.
Context {DQ : DoublePriorityQueue} {LM : Libm} {BP : BuildProfile}.

Record PriorityMap : Type := mkPriorityMap {
  pm_c : GossipId;
  pm_h : gmap GossipId Gossip;
  pm_q : PQ
}.

(** The methods do not fail, but can panic. *)
Abbreviation pmap := (st PriorityMap Empty_set).

Definition pm_set_c (c : GossipId) m := mkPriorityMap c (pm_h m) (pm_q m).
Definition pm_set_h (h : gmap GossipId Gossip) m := mkPriorityMap (pm_c m) h (pm_q m).
Definition pm_set_q (q : PQ) m := mkPriorityMap (pm_c m) (pm_h m) q.

Definition priority_map_new : PriorityMap := mkPriorityMap 0 ∅ pq_new.

Definition pm_push (g : Gossip) : pmap unit :=
  modify (λ m, pm_set_h (<[pm_c m := g]> (pm_h m)) m);;
  modify (λ m, pm_set_q (pq_push (pm_c m) 0 (pm_q m)) m);;
  c ← gets pm_c;
  c' ← of_res (u_add 64 c 1);
  modify (pm_set_c c').

Definition has_over_limit (m : PriorityMap) (limit : Z) : bool :=
  match pq_peek_max (pm_q m) with
  | None => false
  | Some (_, p) => (limit <=? p)%Z
  end.

(** The loop of [cleanup]: every round removes an entry. *)
Fixpoint cleanup_loop (fuel : nat) (limit deleted : Z) : pmap Z :=
  match fuel with
  | O => of_res OutOfFuel
  | S fuel' =>
      over ← gets (λ m, has_over_limit m limit);
      if (over : bool) then
        q ← gets pm_q;
        i ← of_res (unwrap (pq_pop_max q).2);
        modify (pm_set_q (pq_pop_max q).1);;
        modify (λ m, pm_set_h (delete i.1 (pm_h m)) m);;
        deleted' ← of_res (u_add 64 deleted 1);
        cleanup_loop fuel' limit deleted'
      else mret deleted
  end.

Definition cleanup (limit : Z) : pmap Z := λ m, cleanup_loop (S (pq_len (pm_q m))) limit 0 m.

(** [for _ in 0..n { match self.q.pop_min() { .. } }] *)
Fixpoint pop_mins (n : nat) (q : PQ) : PQ * list (GossipId * Z) :=
  match n with
  | O => (q, [])
  | S n' =>
      match pq_pop_min q with
      | (q', None) => (q', [])
      | (q', Some kv) => let '(q'', v) := pop_mins n' q' in (q'', kv :: v)
      end
  end.

Definition take_n (n : nat) : pmap (list Gossip) :=
  q ← gets pm_q;
  let '(q', v) := pop_mins n q in
  modify (pm_set_q q');;
  foreach v (λ kv,
    p' ← of_res (u_add 64 kv.2 1);
    modify (λ m, pm_set_q (pq_push_increase kv.1 p' (pm_q m)) m));;
  reads (λ m, try_map (λ kv : GossipId * Z, unwrap (pm_h m !! kv.1)) v).

(** *** The actor *)

(** [Handler<Gossip>] *)
Definition dc_gossip (g : Gossip) : pmap unit := pm_push g.

Definition rumours_limit (network_size : Z) : Z :=
  f64_to_usize (f64_ceil (f64_log2 (f64_of_u64 network_size))).

(** [Handler<GossipQuery>], which [pull_rumours] sends *)
Definition dc_gossip_query (network_size : Z) : pmap (list Gossip) :=
  let limit := rumours_limit network_size in
  r ← take_n GOSSIP_LIMIT;
  cleanup limit;;
  mret r.
End priority_map.

(** ** Facts *)
Section priority_map_facts.
Context {DQ : DoublePriorityQueue} {PL : PriorityQueueLaws} {LM : Libm} {BP : BuildProfile}.
Implicit Types (m : PriorityMap) (q : PQ) (view : gmap GossipId Z).

Definition pm_view m : gmap GossipId Z := pq_view (pm_q m).

(** The queue has the keys of the map, the counter is above them, and no count has
    reached the last number of its width. *)
Record pm_shape m : Prop := {
  wf_keys : dom (pm_h m) = dom (pm_view m);
  wf_counter : in_range 64 (pm_c m);
  wf_fresh : ∀ i, i ∈ dom (pm_view m) → (0 ≤ i < pm_c m)%Z
}.

Definition pm_wf m : Prop :=
  pm_shape m ∧ ∀ i p, pm_view m !! i = Some p → (0 ≤ p < u_max 64)%Z.

Lemma priority_map_new_wf : pm_wf priority_map_new.
Proof.
  split; [split|]; unfold pm_view; cbn; rewrite ?pq_new_law.
  - by rewrite !dom_empty_L.
  - unfold in_range. lia.
  - intros i. rewrite dom_empty_L. set_solver.
  - intros i p. by rewrite lookup_empty.
Qed.

(** A new rumour starts with a count of 0; only the last number of the counter
    cannot be used. *)
Lemma pm_push_spec g m :
  pm_wf m → in_range 64 (pm_c m + 1) →
  ∃ m', pm_push g m = (m', Ok tt) ∧ pm_wf m' ∧ pm_c m' = (pm_c m + 1)%Z ∧
    pm_h m' = <[pm_c m := g]> (pm_h m) ∧ pm_view m' = <[pm_c m := 0%Z]> (pm_view m).
Proof.
  intros [[Hk Hc Hf] Hp] Hr. unfold pm_push. rewrite !modify_bind, gets_bind. cbn [pm_c pm_set_h pm_set_q].
  erewrite st_bind_Ok; [|unfold of_res, u_add; rewrite u_norm_in_range by done; reflexivity].
  set (m' := mkPriorityMap (pm_c m + 1) (<[pm_c m := g]> (pm_h m)) (pq_push (pm_c m) 0 (pm_q m))).
  assert (pm_view m' = <[pm_c m := 0%Z]> (pm_view m)) as Hv by apply pq_push_law.
  exists m'. split_and!; [done| |done|done|done]. unfold in_range in Hc.
  split; [split|]; rewrite ?Hv; cbn [pm_c pm_h m'].
  - by rewrite !dom_insert_L, Hk.
  - done.
  - intros i. rewrite dom_insert_L, elem_of_union, elem_of_singleton.
    intros [->|Hi%Hf]; lia.
  - intros i p. rewrite lookup_insert_Some. intros [[_ <-]|[_ ?]]; [|by eapply Hp].
    unfold u_max. lia.
Qed.

(** What [n] removals of a least entry take out. *)
Lemma pop_mins_spec n q q' v :
  pop_mins n q = (q', v) →
  NoDup v.*1 ∧ length v = Nat.min n (size (pq_view q)) ∧
  (∀ i p, (i, p) ∈ v → pq_view q !! i = Some p) ∧
  (∀ i, pq_view q' !! i = if decide (i ∈ v.*1) then None else pq_view q !! i) ∧
  (∀ i p j r, (i, p) ∈ v → j ∉ v.*1 → pq_view q !! j = Some r → (p ≤ r)%Z).
Proof.
  revert q q' v. induction n as [|n IH]; intros q q' v; cbn [pop_mins].
  { intros [= <- <-]. split_and!; [apply NoDup_nil_2|done|set_solver| |set_solver].
    intros i. rewrite decide_False by set_solver. done. }
  destruct (pq_pop_min_law q) as [Hext Hdel].
  destruct (pq_pop_min q) as [q1 [[i0 p0]|]]; cbn in Hext, Hdel.
  2: { intros [= <- <-]. rewrite Hdel, Hext, map_size_empty.
       split_and!; [apply NoDup_nil_2|cbn; lia|set_solver| |set_solver].
       intros i. rewrite decide_False by set_solver. by rewrite lookup_empty. }
  destruct (pop_mins n q1) as [q2 v'] eqn:Hpop. intros [= <- <-].
  destruct Hext as [Hi0 Hmin]. destruct (IH _ _ _ Hpop) as (Hnd & Hlen & Hin & Hv & Hle).
  rewrite Hdel in Hlen, Hin, Hv, Hle.
  assert (i0 ∉ v'.*1) as Hni0.
  { intros [[i p] [-> Hip]]%list_elem_of_fmap. apply Hin in Hip. by rewrite lookup_delete_eq in Hip. }
  assert (∀ i p, (i, p) ∈ v' → i ≠ i0 ∧ pq_view q !! i = Some p) as Hin'.
  { intros i p Hip. apply Hin, lookup_delete_Some in Hip as [? ?]. done. }
  split_and!.
  - cbn. by apply NoDup_cons.
  - rewrite length_cons, Hlen, map_size_delete_Some by done.
    assert (size (pq_view q) ≠ 0); [|lia].
    intros Hz%map_size_empty_iff. by rewrite Hz, lookup_empty in Hi0.
  - intros i p [[= -> ->]|Hip]%elem_of_cons; [done|by apply Hin'].
  - intros i. rewrite Hv. cbn. destruct (decide (i = i0)) as [->|].
    + rewrite decide_False, lookup_delete_eq, decide_True by set_solver. done.
    + rewrite lookup_delete_ne by done. apply decide_ext. set_solver.
  - intros i p j r [[= -> ->]|Hip]%elem_of_cons Hj Hjr; [by apply (Hmin j)|].
    cbn in Hj. apply (Hle i p j); [done|set_solver|]. rewrite lookup_delete_ne by set_solver. done.
Qed.

(** The counts of the entries in a list go up by one. *)
Definition bump (ids : list GossipId) view : gmap GossipId Z := update_on ids (λ _ p, (p + 1)%Z) view.

Lemma take_n_spec n m :
  pm_wf m →
  ∃ m' v, take_n n m = (m', Ok (omap (λ i, pm_h m !! i) v)) ∧
    pm_c m' = pm_c m ∧ pm_h m' = pm_h m ∧ pm_view m' = bump v (pm_view m) ∧
    NoDup v ∧ length v = Nat.min n (size (pm_view m)) ∧
    (∀ i, i ∈ v → is_Some (pm_view m !! i)) ∧
    (∀ i p j r, i ∈ v → pm_view m !! i = Some p → j ∉ v → pm_view m !! j = Some r → (p ≤ r)%Z).
Proof.
  intros Hwf. unfold take_n. rewrite gets_bind.
  destruct (pop_mins n (pm_q m)) as [q' v] eqn:Hpop. rewrite modify_bind.
  destruct (pop_mins_spec _ _ _ _ Hpop) as (Hnd & Hlen & Hin & Hv & Hle).
  fold (pm_view m) in Hlen, Hin, Hv, Hle.
  match goal with |- context [foreach v ?b] => destruct (foreach_inv (E:=Empty_set) (λ pre t,
    pm_c t = pm_c m ∧ pm_h t = pm_h m ∧ ∀ i, pm_view t !! i =
      if decide (i ∈ v.*1) then if decide (i ∈ pre.*1) then (λ p, (p + 1)%Z) <$> pm_view m !! i else None
      else pm_view m !! i) v b (pm_set_q q' m)) as (m' & Hf & Hc & Hh & Hview) end.
  - split_and!; [done..|]. intros i. unfold pm_view at 1. cbn. rewrite Hv.
    case_decide; [|done]. by rewrite decide_False by set_solver.
  - intros pre [i p] post t -> (Hc & Hh & Ht). assert (pm_view m !! i = Some p) as Hip by set_solver.
    eexists. split.
    { erewrite st_bind_Ok; [reflexivity|]. unfold of_res, u_add. rewrite u_norm_in_range; [done|].
      pose proof (proj2 Hwf i p Hip). unfold in_range, u_max in *. cbn. lia. }
    cbn [fst snd]. split_and!; [done..|]. intros j. unfold pm_view at 1. cbn.
    rewrite fmap_app in Hnd. apply NoDup_app in Hnd as (_ & Hd & Hnd2).
    assert (i ∉ pre.*1) as Hi by (intros Hi; apply (Hd i Hi); set_solver).
    rewrite pq_push_increase_law. fold (pm_view t).
    rewrite (Ht i), decide_True, decide_False by set_solver.
    destruct (decide (i = j)) as [<-|Hne].
    + rewrite lookup_insert_eq, !decide_True, Hip by set_solver. done.
    + rewrite lookup_insert_ne, Ht by done.
      case_decide; [|done]. apply decide_ext. set_solver.
  - erewrite st_bind_Ok; [|exact Hf]. exists m', v.*1. split_and!; [|done|done| |done|by rewrite length_fmap| |].
    + unfold reads. rewrite Hh. f_equal. clear -Hin Hwf.
      assert (∀ i p, (i, p) ∈ v → is_Some (pm_h m !! i)) as Hh.
      { intros i p Hip. rewrite <- elem_of_dom, (wf_keys _ (proj1 Hwf)), elem_of_dom. eauto. }
      clear Hin. induction v as [|[i p] v IH]; [done|]. cbn.
      destruct (Hh i p) as [g Hg]; [set_solver|]. rewrite Hg. cbn.
      rewrite IH by set_solver. done.
    + apply map_eq. intros i. rewrite Hview. unfold bump. rewrite lookup_update_on.
      case_decide; [done|]. by destruct (pm_view m !! i).
    + intros i [[j p] [-> Hip]]%list_elem_of_fmap. eauto.
    + intros i p j r [[i' p'] [-> Hip]]%list_elem_of_fmap Hp Hj Hr. cbn in *.
      assert (p' = p) as <- by (apply Hin in Hip; congruence). eauto.
Qed.

(** The entries with a count below a limit. *)
Definition below (limit : Z) view : gmap GossipId Z := filter (λ e, (e.2 < limit)%Z) view.

Lemma below_id limit view : (∀ i p, view !! i = Some p → (p < limit)%Z) → below limit view = view.
Proof. intros Hall. apply map_filter_id. intros i p Hp. by apply (Hall i). Qed.

Lemma below_delete limit view i p :
  view !! i = Some p → (limit ≤ p)%Z → below limit (delete i view) = below limit view.
Proof.
  intros Hi Hp. apply map_eq. intros j. apply option_eq. intros r.
  unfold below. rewrite !map_lookup_filter_Some, lookup_delete_Some. cbn.
  split; [naive_solver|]. intros [Hj ?]. split_and!; [|done|done].
  intros <-. assert (r = p) as -> by congruence. lia.
Qed.

(** What [cleanup] leaves: the keys of the map and the queue stay the same. *)
Lemma cleanup_loop_spec fuel limit d m :
  pm_shape m → size (pm_view m) < fuel → (0 ≤ d)%Z →
  (d + Z.of_nat (size (pm_view m)) < 2 ^ 64)%Z →
  ∃ m' d', cleanup_loop fuel limit d m = (m', Ok d') ∧ pm_shape m' ∧ pm_c m' = pm_c m ∧
    pm_view m' = below limit (pm_view m) ∧
    (∀ i, i ∈ dom (pm_view m') → pm_h m' !! i = pm_h m !! i).
Proof.
  revert d m. induction fuel as [|fuel IH]; intros d m Hwf Hf Hd0 Hd; [lia|].
  cbn [cleanup_loop]. rewrite gets_bind. unfold has_over_limit.
  pose proof (pq_peek_max_law (pm_q m)) as Hpeek. fold (pm_view m) in Hpeek.
  destruct (pq_peek_max (pm_q m)) as [[i p]|]; cbn [extreme] in Hpeek.
  2: { exists m, d. split_and!; [done..| |done]. rewrite Hpeek. by unfold below; rewrite map_filter_empty. }
  destruct Hpeek as [Hip Hmax]. destruct (Z.leb_spec limit p).
  2: { exists m, d. split_and!; [done..| |done]. symmetry. apply below_id.
       intros j r Hj%Hmax. lia. }
  rewrite gets_bind. destruct (pq_pop_max_law (pm_q m)) as [Hext Hdel]. fold (pm_view m) in Hext, Hdel.
  destruct (pq_pop_max (pm_q m)) as [q' [[k r]|]] eqn:Hpop; cbn [fst snd extreme without] in *.
  2: { by rewrite Hext, lookup_empty in Hip. }
  destruct Hext as [Hk Hkmax]. apply Hkmax in Hip as Hrp.
  assert (size (pm_view m) = S (size (delete k (pm_view m)))) as Hsz.
  { rewrite map_size_delete_Some by done. assert (size (pm_view m) ≠ 0); [|lia].
    intros Hz%map_size_empty_iff. by rewrite Hz, lookup_empty in Hk. }
  erewrite st_bind_Ok by reflexivity. rewrite !modify_bind. cbn [fst].
  erewrite st_bind_Ok;
    [|unfold of_res, u_add; rewrite u_norm_in_range by (unfold in_range; lia); reflexivity].
  set (m1 := pm_set_h _ _). assert (pm_view m1 = delete k (pm_view m)) as Hv1 by exact Hdel.
  destruct (IH (d + 1)%Z m1) as (m' & d' & Heq & Hwf' & Hc & Hv & Hh).
  - split; rewrite ?Hv1; cbn [m1 pm_c pm_h pm_set_h pm_set_q].
    + by rewrite !dom_delete_L, (wf_keys _ Hwf).
    + apply Hwf.
    + intros j Hj. apply (wf_fresh _ Hwf). rewrite dom_delete_L in Hj. set_solver.
  - rewrite Hv1. lia.
  - lia.
  - rewrite Hv1. lia.
  - exists m', d'. split_and!; [exact Heq|done|done| |].
    + rewrite Hv, Hv1. apply (below_delete _ _ _ r); [done|lia].
    + intros j Hj. rewrite Hh by done. cbn. rewrite lookup_delete_ne; [done|].
      intros <-. rewrite Hv, Hv1 in Hj. apply elem_of_dom in Hj as [z Hz].
      unfold below in Hz. apply map_lookup_filter_Some in Hz as [Hz _].
      by rewrite lookup_delete_eq in Hz.
Qed.

(** The counter bounds the number of rumours. *)
Lemma pm_shape_small m : pm_shape m → (Z.of_nat (size (pm_view m)) < 2 ^ 64)%Z.
Proof.
  intros Hwf.
  assert (dom (pm_view m) ⊆ list_to_set (seqZ 0 (pm_c m))) as Hsub.
  { intros i Hi%(wf_fresh _ Hwf). rewrite elem_of_list_to_set, elem_of_seqZ. lia. }
  apply subseteq_size in Hsub. rewrite size_dom in Hsub.
  pose proof (size_list_to_set (C:=gset Z) (seqZ 0 (pm_c m)) (NoDup_seqZ _ _)) as Hsz.
  rewrite length_seqZ in Hsz. destruct (wf_counter _ Hwf). lia.
Qed.

Lemma rumours_limit_range n : (0 ≤ rumours_limit n ≤ u_max 64)%Z.
Proof.
  assert (0 ≤ u_max 64)%Z by (unfold u_max; lia).
  unfold rumours_limit, f64_to_usize. destruct (f64_ceil _) as [|[]| |[] k e]; try lia.
  assert (0 ≤ if (0 <=? e)%Z then Z.pos k * 2 ^ e else Z.pos k / 2 ^ (- e))%Z; [|lia].
  destruct (Z.leb_spec 0 e).
  - apply Z.mul_nonneg_nonneg; [lia|apply Z.pow_nonneg; lia].
  - apply Z.div_pos; [lia|apply Z.pow_pos_nonneg; lia].
Qed.

Lemma gossip_query_spec n m :
  pm_wf m →
  ∃ m' ids, dc_gossip_query n m = (m', Ok (omap (λ i, pm_h m !! i) ids)) ∧ pm_wf m' ∧
    pm_c m' = pm_c m ∧
    pm_view m' = below (rumours_limit n) (bump ids (pm_view m)) ∧
    (∀ i, i ∈ dom (pm_view m') → pm_h m' !! i = pm_h m !! i) ∧
    NoDup ids ∧ length ids = Nat.min GOSSIP_LIMIT (size (pm_view m)) ∧
    (∀ i, i ∈ ids → is_Some (pm_view m !! i)) ∧
    (∀ i p j r, i ∈ ids → pm_view m !! i = Some p → j ∉ ids → pm_view m !! j = Some r →
       (p ≤ r)%Z).
Proof.
  intros Hwf. destruct (take_n_spec GOSSIP_LIMIT m Hwf)
    as (m1 & ids & Ht & Hc1 & Hh1 & Hv1 & Hnd & Hlen & Hin & Hle).
  assert (pm_shape m1) as Hs1.
  { destruct Hwf as [[Hk Hc Hf] _]. split.
    - by rewrite Hv1, Hh1, Hk; unfold bump; rewrite dom_update_on.
    - by rewrite Hc1.
    - intros i. rewrite Hv1, Hc1. unfold bump. rewrite dom_update_on. apply Hf. }
  destruct (cleanup_loop_spec (S (pq_len (pm_q m1))) (rumours_limit n) 0 m1)
    as (m2 & d & Hcl & Hs2 & Hc2 & Hv2 & Hh2); [done|rewrite pq_len_law; unfold pm_view; lia|lia| |].
  { rewrite Z.add_0_l. by apply pm_shape_small. }
  exists m2, ids. split_and!; try done.
  - unfold dc_gossip_query. erewrite st_bind_Ok; [|exact Ht].
    by erewrite st_bind_Ok; [reflexivity|exact Hcl].
  - split; [done|]. intros i p. rewrite Hv2, Hv1. unfold below.
    rewrite map_lookup_filter_Some. unfold bump. rewrite lookup_update_on, fmap_Some. cbn.
    intros [(p0 & Hp0 & ->) Hlt]. pose proof (rumours_limit_range n).
    apply (proj2 Hwf) in Hp0. destruct (decide (i ∈ ids)); cbn in *; lia.
  - congruence.
  - by rewrite Hv2, Hv1.
  - intros i Hi. by rewrite Hh2, Hh1.
Qed.

(** *** Every rumour is handed out as often as the limit says *)

(** What an entry still has to be handed out. *)
Definition still_due (limit : Z) (h : gmap GossipId Gossip) (e : GossipId * Z) : list Gossip :=
  match h !! e.1 with
  | Some g => replicate (Z.to_nat (limit - e.2)) g
  | None => []
  end.

Definition pending_of limit h view : list Gossip := map_to_list view ≫= still_due limit h.
Definition pending limit m : list Gossip := pending_of limit (pm_h m) (pm_view m).

Lemma pending_insert limit h view i p :
  view !! i = None →
  pending_of limit h (<[i := p]> view) ≡ₚ still_due limit h (i, p) ++ pending_of limit h view.
Proof. intros Hi. unfold pending_of. by rewrite map_to_list_insert. Qed.

Lemma pending_below limit h view : pending_of limit h (below limit view) ≡ₚ pending_of limit h view.
Proof.
  induction view as [|i p view Hi IH] using map_ind; [unfold below; by rewrite map_filter_empty|].
  rewrite pending_insert by done. unfold below in *. destruct (decide (p < limit)%Z).
  - rewrite map_filter_insert_True by done. rewrite pending_insert, IH; [done|].
    apply map_lookup_filter_None. by left.
  - rewrite map_filter_insert_not' by (cbn; naive_solver). rewrite IH.
    unfold still_due. cbn. replace (Z.to_nat (limit - p)) with 0 by lia. by destruct (h !! i).
Qed.

Lemma pending_ext limit h h' view :
  (∀ i, i ∈ dom view → h !! i = h' !! i) → pending_of limit h view = pending_of limit h' view.
Proof.
  intros Heq. unfold pending_of. apply Forall_bind_ext, Forall_forall. intros [i p] Hip.
  apply elem_of_map_to_list in Hip. unfold still_due. cbn. rewrite Heq; [done|].
  by eapply elem_of_dom_2.
Qed.

Lemma bump_cons i ids view p :
  i ∉ ids → view !! i = Some p → bump (i :: ids) view = bump ids (<[i := (p + 1)%Z]> view).
Proof.
  intros Hi Hp. apply map_eq. intros j. unfold bump. rewrite !lookup_update_on.
  destruct (decide (i = j)) as [<-|Hne].
  - rewrite lookup_insert_eq, Hp, decide_True, decide_False by set_solver. done.
  - rewrite lookup_insert_ne by done. f_equal. apply decide_ext. set_solver.
Qed.

(** Handing out a rumour is what it was waiting for. *)
Lemma pending_bump limit h ids view :
  NoDup ids → (∀ i, i ∈ ids → is_Some (h !! i)) →
  (∀ i, i ∈ ids → ∃ p, view !! i = Some p ∧ (p < limit)%Z) →
  pending_of limit h view ≡ₚ omap (λ i, h !! i) ids ++ pending_of limit h (bump ids view).
Proof.
  revert view. induction ids as [|i ids IH]; intros view Hnd Hh Hv.
  { unfold bump. by rewrite update_on_nil. }
  apply NoDup_cons in Hnd as [Hi Hnd]. destruct (Hv i) as (p & Hp & Hlt); [set_solver|].
  destruct (Hh i) as [g Hg]; [set_solver|]. rewrite (bump_cons _ _ _ p) by done. cbn. rewrite Hg. cbn.
  rewrite <- (IH (<[i := (p + 1)%Z]> view)); [|done|set_solver|].
  - rewrite <- (insert_delete_id view i p) at 1 by done.
    rewrite <- (insert_delete_eq view i (p + 1)%Z).
    rewrite !pending_insert by apply lookup_delete_eq.
    unfold still_due. cbn. rewrite Hg.
    replace (Z.to_nat (limit - p)) with (S (Z.to_nat (limit - (p + 1)))) by lia. done.
  - intros j Hj. rewrite lookup_insert_ne by set_solver. set_solver.
Qed.

(** One query hands out what is pending, and leaves the rest pending. *)
Lemma pending_query n m m' r :
  pm_wf m → (∀ i p, pm_view m !! i = Some p → (p < rumours_limit n)%Z) →
  dc_gossip_query n m = (m', Ok r) →
  pending (rumours_limit n) m ≡ₚ r ++ pending (rumours_limit n) m' ∧
  length r = Nat.min GOSSIP_LIMIT (size (pm_view m)) ∧ pm_wf m' ∧
  ∀ i p, pm_view m' !! i = Some p → (p < rumours_limit n)%Z.
Proof.
  intros Hwf Hlt Hq. destruct (gossip_query_spec n m Hwf)
    as (m1 & ids & Hq1 & Hwf1 & _ & Hv & Hh & Hnd & Hlen & Hin & _).
  rewrite Hq in Hq1. injection Hq1 as <- ->.
  assert (∀ i, i ∈ ids → is_Some (pm_h m !! i)) as Hsome.
  { intros i Hi%Hin. by rewrite <- elem_of_dom, (wf_keys _ (proj1 Hwf)), elem_of_dom. }
  split_and!; [| |done|].
  - unfold pending. rewrite (pending_bump _ _ ids) by (try done; intros i Hi; destruct (Hin i Hi); eauto).
    apply Permutation_app_head. rewrite (pending_ext _ (pm_h m') (pm_h m)) by done.
    by rewrite Hv, pending_below.
  - rewrite <- Hlen. clear -Hsome. induction ids as [|i ids IH]; [done|]. cbn.
    destruct (Hsome i) as [g ->]; [set_solver|]. cbn. rewrite IH; [done|set_solver].
  - intros i p. rewrite Hv. unfold below. rewrite map_lookup_filter_Some. by intros [_ ?].
Qed.

(** [k] pings in a row: how many rumours were stored before each, and what it handed
    out. *)
Fixpoint gossip_rounds (k : nat) (n : Z) : st PriorityMap Empty_set (list (nat * list Gossip)) :=
  match k with
  | O => mret []
  | S k' =>
      stored ← gets (λ m, pq_len (pm_q m));
      r ← dc_gossip_query n;
      rs ← gossip_rounds k' n;
      mret ((stored, r) :: rs)
  end.

Lemma pending_nil limit m :
  pm_wf m → (∀ i p, pm_view m !! i = Some p → (p < limit)%Z) →
  pending limit m = [] → pm_view m = ∅.
Proof.
  intros Hwf Hlt Hnil. apply map_empty. intros i. apply eq_None_not_Some. intros [p Hp].
  assert (is_Some (pm_h m !! i)) as [g Hg].
  { rewrite <- elem_of_dom, (wf_keys _ (proj1 Hwf)), elem_of_dom. eauto. }
  assert (g ∈ pending limit m) as Hin; [|rewrite Hnil in Hin; set_solver].
  unfold pending, pending_of. apply list_elem_of_bind. exists (i, p).
  split; [|by apply elem_of_map_to_list]. unfold still_due. cbn. rewrite Hg.
  apply elem_of_replicate. specialize (Hlt i p Hp). split; [done|lia].
Qed.

(** C34: every rumour reaches the network.  Take a store in which the count of every
    rumour is below the limit that the size of the network gives (a new rumour starts
    with 0, and a ping drops the others).  When no new rumours come in, every ping hands
    out three rumours, or all of them when fewer than three are stored; after enough
    pings every rumour was handed out exactly as often as its count was below the limit,
    and nothing is stored any more. *)
Theorem rumours_spread n k m :
  pm_wf m → (∀ i p, pm_view m !! i = Some p → (p < rumours_limit n)%Z) →
  length (pending (rumours_limit n) m) ≤ k →
  ∃ m' rounds, gossip_rounds k n m = (m', Ok rounds) ∧
    Forall (λ round, length round.2 = Nat.min 3 round.1) rounds ∧
    concat rounds.*2 ≡ₚ pending (rumours_limit n) m ∧
    pm_view m' = ∅ ∧ pm_h m' = ∅.
Proof.
  revert m. induction k as [|k IH]; intros m Hwf Hlt Hk.
  - exists m, []. assert (pending (rumours_limit n) m = []) as Hnil by (by apply nil_length_inv; lia).
    assert (pm_view m = ∅) as Hv by (by eapply pending_nil).
    split_and!; [done|done|by rewrite Hnil|done|].
    apply dom_empty_inv_L. by rewrite (wf_keys _ (proj1 Hwf)), Hv, dom_empty_L.
  - destruct (gossip_query_spec n m Hwf) as (m1 & ids & Hq & _).
    set (r := omap _ ids) in Hq.
    destruct (pending_query n m m1 r Hwf Hlt Hq) as (Hp & Hlen & Hwf1 & Hlt1).
    destruct (IH m1 Hwf1 Hlt1) as (m' & rounds & Hr & Hthree & Hout & Hv & Hh).
    { apply Permutation_length in Hp. rewrite length_app in Hp.
      destruct (decide (pm_view m = ∅)) as [He|Hne].
      - assert (pending (rumours_limit n) m = []) as Hnil
          by (unfold pending, pending_of; by rewrite He, map_to_list_empty).
        rewrite Hnil in Hp. cbn in Hp. lia.
      - apply map_size_non_empty_iff in Hne. unfold GOSSIP_LIMIT in Hlen. lia. }
    exists m', ((pq_len (pm_q m), r) :: rounds). split_and!; [| | |done|done].
    + cbn [gossip_rounds]. rewrite gets_bind. erewrite st_bind_Ok; [|exact Hq].
      by erewrite st_bind_Ok; [|exact Hr].
    + constructor; [|done]. cbn. by rewrite pq_len_law.
    + cbn. by rewrite Hp, Hout.
Qed.

(** One pull of rumours, at any time.  It succeeds and hands out up to three
    different rumours with the lowest counts; their counts go up by one, then the
    rumours whose count has reached the limit are dropped, and nothing else
    changes. *)
Theorem gossip_query_lowest_first n m :
  pm_wf m →
  ∃ m' ids, dc_gossip_query n m = (m', Ok (omap (λ i, pm_h m !! i) ids)) ∧ pm_wf m' ∧
    NoDup ids ∧ length ids = Nat.min 3 (size (pm_view m)) ∧
    (∀ i p j r, i ∈ ids → pm_view m !! i = Some p → j ∉ ids → pm_view m !! j = Some r →
       (p ≤ r)%Z) ∧
    (∀ i p', pm_view m' !! i = Some p' ↔ (p' < rumours_limit n)%Z ∧
       ∃ p, pm_view m !! i = Some p ∧ p' = if decide (i ∈ ids) then (p + 1)%Z else p) ∧
    (∀ i, i ∈ dom (pm_view m') → pm_h m' !! i = pm_h m !! i).
Proof.
  intros Hwf. destruct (gossip_query_spec n m Hwf)
    as (m' & ids & Hq & Hwf' & _ & Hv & Hh & Hnd & Hlen & Hin & Hle).
  exists m', ids. split_and!; try done. intros i p'. rewrite Hv. unfold below.
  rewrite map_lookup_filter_Some. unfold bump. rewrite lookup_update_on, fmap_Some. cbn.
  destruct (decide (i ∈ ids)); naive_solver.
Qed.

(** With a limit of 0, which is what a network of one peer gives, a pull drops all
    rumours, also those that were not handed out. *)
Theorem small_network_drops_rumours n m :
  pm_wf m → rumours_limit n = 0%Z →
  ∃ m' r, dc_gossip_query n m = (m', Ok r) ∧ length r ≤ 3 ∧ pm_view m' = ∅.
Proof.
  intros Hwf Hn. destruct (gossip_query_spec n m Hwf)
    as (m' & ids & Hq & Hwf' & _ & Hv & _ & _ & Hlen & _).
  exists m', (omap (λ i, pm_h m !! i) ids). split_and!; [done| |].
  - etrans; [|etrans; [apply Nat.eq_le_incl, Hlen|apply Nat.le_min_l]].
    clear. induction ids as [|i ids IH]; cbn; [lia|]. destruct (pm_h m !! i); cbn; lia.
  - apply map_empty. intros i. apply eq_None_not_Some. intros [p Hp].
    pose proof (proj2 Hwf' i p Hp). rewrite Hv in Hp. unfold below in Hp.
    apply map_lookup_filter_Some in Hp as [_ Hp]. cbn in Hp. lia.
Qed.
End priority_map_facts.

(** ** [DoPing] (src/src/ice/ice.rs) *)

(** The message of a ping and the responses that the handler distinguishes. *)
Record Ping : Type := mkPing { pg_id : Id; pg_queries : list Query; pg_rumours : list Gossip }.

Inductive PingResponse : Type :=
| RespAck (id : Id) (outcomes : list Outcome)
| OtherPingResponse.

(** [ClientResponse] *)
Inductive PingClientResponse : Type :=
| PingOneshot (r : option PingResponse)
| PingFanout (rs : list PingResponse).

Module PingError.
Inductive Error : Type := Byzantine | Crash | InvalidResponse | Actix.
End PingError.

Section do_ping.
Context {DQ : DoublePriorityQueue} {LM : Libm} {BP : BuildProfile}.

(** The rumours are pulled, then the ping is sent; [None] stands for a mailbox
    error. *)
Definition do_ping (self_id : Id) (queries : list Query) (network_size : Z) :
    st PriorityMap Empty_set Ping :=
  rumours ← dc_gossip_query network_size;
  mret (mkPing self_id queries rumours).

Definition do_ping_response (r : option PingClientResponse) :
    res PingError.Error (Id * list Outcome) :=
  match r with
  | Some (PingOneshot (Some (RespAck id outcomes))) => Ok (id, outcomes)
  | Some (PingOneshot (Some OtherPingResponse)) => Err PingError.Byzantine
  | Some (PingOneshot None) => Err PingError.Crash
  | Some (PingFanout _) => Err PingError.InvalidResponse
  | None => Err PingError.Actix
  end.
End do_ping.

(** ** An instance of the queue and the witnesses *)

(** The entry of a list whose priority is preferred to all others. *)
Definition pick (better : Z → Z → bool) (l : list (GossipId * Z)) : option (GossipId * Z) :=
  foldr (λ e acc, match acc with
    | Some a => if better e.2 a.2 then Some e else Some a
    | None => Some e
    end) None l.

Lemma pick_spec (better : Z → Z → bool) (le : Z → Z → Prop) `{!PreOrder le} l :
  (∀ x y, if better x y then le x y else le y x) →
  match pick better l with
  | Some e => e ∈ l ∧ ∀ e', e' ∈ l → le e.2 e'.2
  | None => l = []
  end.
Proof.
  intros Hb. induction l as [|e l IH]; [done|]. cbn [pick foldr]. fold (pick better l).
  destruct (pick better l) as [a|]; [|subst; split; [set_solver|by intros e' ->%list_elem_of_singleton]].
  destruct IH as [Ha Hle]. specialize (Hb e.2 a.2). destruct (better e.2 a.2); cbn.
  - split; [set_solver|]. intros e' [->|He']%elem_of_cons; [done|]. etrans; [done|by apply Hle].
  - split; [set_solver|]. intros e' [->|He']%elem_of_cons; [done|by apply Hle].
Qed.

Definition pop_pick (better : Z → Z → bool) (m : gmap GossipId Z) :
    gmap GossipId Z * option (GossipId * Z) :=
  let o := pick better (map_to_list m) in (without m o, o).

Definition map_queue : DoublePriorityQueue := {|
  PQ := gmap GossipId Z;
  pq_new := ∅;
  pq_push i p m := <[i := p]> m;
  pq_push_increase i p m :=
    match m !! i with Some p0 => <[i := Z.max p0 p]> m | None => <[i := p]> m end;
  pq_pop_min := pop_pick Z.leb;
  pq_pop_max := pop_pick Z.geb;
  pq_peek_max m := (pop_pick Z.geb m).2;
  pq_len m := size m
|}.

Lemma pick_extreme (better : Z → Z → bool) (le : Z → Z → Prop) `{!PreOrder le} (m : gmap GossipId Z) :
  (∀ x y, if better x y then le x y else le y x) → extreme le m (pick better (map_to_list m)).
Proof.
  intros Hb. pose proof (pick_spec better le (map_to_list m) Hb) as Hp. unfold extreme.
  destruct (pick better (map_to_list m)) as [[i p]|].
  - destruct Hp as [Hip Hle]. rewrite elem_of_map_to_list in Hip. split; [done|].
    intros j q Hj. apply (Hle (j, q)). by apply elem_of_map_to_list.
  - by apply map_to_list_empty_iff in Hp.
Qed.

#[local] Instance ge_preorder : PreOrder Z.ge.
Proof. split; [intros x; lia|intros x y z; lia]. Qed.

Lemma leb_picks x y : if (x <=? y)%Z then (x ≤ y)%Z else (y ≤ x)%Z.
Proof. destruct (Z.leb_spec x y); lia. Qed.
Lemma geb_picks x y : if (x >=? y)%Z then (x >= y)%Z else (y >= x)%Z.
Proof. rewrite Z.geb_leb. destruct (Z.leb_spec y x); lia. Qed.

Definition map_queue_laws : @PriorityQueueLaws map_queue.
Proof.
  refine (@Build_PriorityQueueLaws map_queue (λ m, m) _ _ _ _ _ _ _); cbn; try done.
  - intros q. split; [|done]. apply (pick_extreme _ Z.le), leb_picks.
  - intros q. split; [|done]. apply (pick_extreme _ Z.ge), geb_picks.
  - intros q. apply (pick_extreme _ Z.ge), geb_picks.
Defined.

(** The logarithm of the power of two below a number. *)
Definition floor_log2 : Libm := {|
  f64_log2 x := match x with
    | S754_finite false m e => f64_of_u64 (Z.log2 (Zpos m) + e)
    | _ => S754_infinity true
    end
|}.

(** Four rumours in a network of four nodes: the limit is 2. *)
Definition four_rumours : @PriorityMap map_queue :=
  (@foreach _ Empty_set _ [Joiner [1%Z]; Joiner [2%Z]; Joiner [3%Z]; Joiner [4%Z]]
    (@dc_gossip map_queue debug_profile) (@priority_map_new map_queue)).1.

Lemma four_rumours_wf : @pm_wf map_queue map_queue_laws four_rumours.
Proof.
  split; [split|].
  - vm_compute. reflexivity.
  - split; apply (bool_decide_unpack _); vm_compute; exact I.
  - intros i Hi.
    assert (set_Forall (λ i : Z, (0 ≤ i < 4)%Z)
      (dom (@pm_view map_queue map_queue_laws four_rumours))) as Hall
      by (apply (bool_decide_unpack _); vm_compute; exact I). exact (Hall i Hi).
  - assert (map_Forall (λ (_ p : Z), (0 ≤ p < u_max 64)%Z)
      (@pm_view map_queue map_queue_laws four_rumours)) as Hall
      by (apply (bool_decide_unpack _); vm_compute; exact I). intros i p Hp. exact (Hall i p Hp).
Qed.

Lemma rumours_spread_witness :
  let _ := map_queue in let _ := map_queue_laws in let _ := floor_log2 in
  let _ := debug_profile in
  ∃ m' rounds, gossip_rounds 8 4 four_rumours = (m', Ok rounds) ∧
    Forall (λ round, length round.2 = Nat.min 3 round.1) rounds ∧
    length (concat rounds.*2) = 8 ∧ pm_view m' = ∅.
Proof.
  destruct (@rumours_spread map_queue map_queue_laws floor_log2 debug_profile 4 8 four_rumours)
    as (m' & rounds & Hr & H3 & Hp & Hv & _).
  - apply four_rumours_wf.
  - assert (map_Forall (λ (_ p : Z), (p < @rumours_limit floor_log2 4)%Z)
      (@pm_view map_queue map_queue_laws four_rumours)) as Hall
      by (apply (bool_decide_unpack _); vm_compute; exact I). intros i p Hp. exact (Hall i p Hp).
  - vm_compute. lia.
  - exists m', rounds. split; [exact Hr|]. split; [exact H3|]. split; [|exact Hv].
    apply Permutation_length in Hp. rewrite Hp. vm_compute. reflexivity.
Defined.

Lemma gossip_query_lowest_first_witness :
  let _ := map_queue in let _ := map_queue_laws in let _ := floor_log2 in
  let _ := debug_profile in
  ∃ m' r, dc_gossip_query 4 four_rumours = (m', Ok r) ∧ pm_wf m'.
Proof.
  destruct (@gossip_query_lowest_first map_queue map_queue_laws floor_log2 debug_profile 4
    four_rumours four_rumours_wf) as (m' & ids & Hq & Hwf & _).
  eexists m', _. split; [exact Hq|exact Hwf].
Defined.
