(* ===== verification/Alpha.v ===== *)
(** * Alpha.v: the actor of the primary chain
      (src/src/alpha/alpha.rs, src/src/alpha/alpha/status_handler.rs)

    Alpha stores the genesis block and applies it to its state.  When ice reports a
    live network it asks the peers for their last accepted block, and once enough
    of them agree it hands validators, live cells and the last block over to the
    router, to sleet and to hail. *)

From stdpp Require Import prelude gmap sets list strings.
From Stdlib Require Import ZArith Lia.
From S2P Require Import Prelude Orders Cell Instances Dag ConflictGraph Blocks Storage SledInstances BlockStorage.
From S2P Require Import Util Operations DependencyGraph AlphaState Sleet Hail Ice.

(** ** Messages *)
Record ReceiveLastAccepted : Type := mkReceive {
  rl_last_block_hash : BlockHash;
  rl_last_block : Block;
  rl_last_vrf_output : VrfOutput;
  rl_last_accepted : BlockHash
}.

(** The responses that alpha distinguishes. *)
Inductive AlphaResponse : Type :=
| LastAccepted (hash : BlockHash)
| OtherAlphaResponse.

(** [ClientResponse] *)
Inductive AlphaClientResponse : Type :=
| AlphaFanout (rs : list AlphaResponse)
| AlphaOneshot (r : option AlphaResponse).

(** What a handler hands to actix. *)
Inductive AlphaEffect : Type :=
| SendValidatorSet (validators : gset Id)
| SendGetLastAccepted (peers : list (Id * SocketAddr))
| NotifyQueryLastAccepted (peers : list (Id * SocketAddr))
| NotifyReceiveLastAccepted (m : ReceiveLastAccepted).

(** The messages [sleet::LiveCommittee] and [hail::LiveCommittee]. *)
Record SleetLiveCommittee : Type := mkSleetLive {
  slc_validators : gmap Id (SocketAddr * Weight);
  slc_live_cells : gmap CellHash Cell
}.
Record HailLiveCommittee : Type := mkHailLive {
  hlc_last_accepted_hash : BlockHash;
  hlc_last_accepted_block : HailBlock;
  hlc_height : BlockHeight;
  hlc_self_id : Id;
  hlc_self_staking_capacity : Z;
  hlc_total_staking_capacity : Z;
  hlc_validators : gmap Id (SocketAddr * Z);
  hlc_vrf_out : VrfOutput
}.

Record NodeStatus : Type := mkNodeStatus {
  ns_bootstrapped : bool;
  ns_height : Z;
  ns_peers : list (Id * SocketAddr * Choice);
  ns_validators : list (Id * SocketAddr * Weight)
}.

Section alpha.
Context {CR : Crypto} {IO : IterOrder} {BP : BuildProfile} {SC : StateCodec} {SD : Sled}
  {BC : BlockCodec} {TC : TxCodec} {SO : Sortition} {RN : Rng}.

(** ** State *)
Record Alpha : Type := mkAlpha {
  al_node_id : Id;
  al_tree : Db;
  (** whether the address of the router is known *)
  al_router : bool;
  al_state : State
}.

Definition al_set_tree (t : Db) a := mkAlpha (al_node_id a) t (al_router a) (al_state a).
Definition al_set_router (r : bool) a := mkAlpha (al_node_id a) (al_tree a) r (al_state a).
Definition al_set_state (s : State) a := mkAlpha (al_node_id a) (al_tree a) (al_router a) s.

(** The handlers do not fail: they unwrap, and panic. *)
Abbreviation al := (st Alpha Empty_set).

Definition on_tree {A} (m : st Db StorageError.Error A) : st Alpha StorageError.Error A :=
  zoom al_tree al_set_tree (λ e, e) m.

(** [Alpha::create], after the database was opened *)
Definition alpha_create (node_id : Id) (tree : Db) : Alpha := mkAlpha node_id tree false state_new.

Definition get_validator_set (a : Alpha) : gset Id :=
  list_to_set (omap (λ v : Id * Capacity, if (0 <? v.2)%Z then Some v.1 else None)
    (as_validators (al_state a))).

(** [self.state = self.state.apply(genesis).unwrap()] *)
Definition apply_genesis (genesis : Block) : al unit :=
  s ← gets al_state;
  genesis_state ← of_res (unwrap_res (apply s genesis));
  modify (al_set_state genesis_state).

(** [Actor::started]; the stakers are those of [genesis_stakers] *)
Definition alpha_started (stakers : list InitialStaker) : al unit :=
  known ← gets (λ a, exists_genesis (al_tree a));
  if negb known then
    genesis ← of_res (unwrap_res (build_genesis stakers));
    _ ← unwrap_st (on_tree (accept_genesis genesis));
    apply_genesis genesis
  else
    p ← reads (λ a, unwrap_res (get_genesis (al_tree a)));
    apply_genesis p.2.

(** [Handler<InitRouter>] *)
Definition init_router (a : Alpha) : Alpha * list AlphaEffect :=
  let a' := al_set_router true a in (a', [SendValidatorSet (get_validator_set a')]).

(** [Handler<QueryLastAccepted>] up to the request: the own last block is read
    first. *)
Definition query_last_accepted (peers : list (Id * SocketAddr)) :
    al (Block * list AlphaEffect) :=
  p ← reads (λ a, unwrap_res (get_last_accepted (al_tree a)));
  mret (p.2, [SendGetLastAccepted peers]).

(** The loop over the reported hashes. *)
Fixpoint count_last_accepted (last_block : Block) (v : list BlockHash)
    (occurences : gmap BlockHash nat) (already_applied : gset BlockHash) : list AlphaEffect :=
  match v with
  | [] => []
  | h :: v' =>
      match occurences !! h with
      | Some count =>
          if bool_decide (h ∉ already_applied) then
            let occurences' := <[h := S count]> occurences in
            if (quorum_threshold <=? S count)%nat then
              NotifyReceiveLastAccepted (mkReceive h last_block (vrf_out last_block) h)
                :: count_last_accepted last_block v' occurences' ({[ h ]} ∪ already_applied)
            else count_last_accepted last_block v' occurences' already_applied
          else count_last_accepted last_block v' occurences already_applied
      | None => count_last_accepted last_block v' (<[h := 0]> occurences) already_applied
      end
  end.

(** The hashes of the responses that carry one. *)
Definition reported (rs : list AlphaResponse) : list BlockHash :=
  omap (λ r, match r with LastAccepted h => Some h | OtherAlphaResponse => None end) rs.

(** ... and what is done with the responses, [None] being a mailbox error. *)
Definition last_accepted_response (last_block : Block) (r : option AlphaClientResponse) :
    list AlphaEffect :=
  match r with
  | Some (AlphaFanout rs) => count_last_accepted last_block (reported rs) ∅ ∅
  | _ => []
  end.

(** The live cells under their hashes. *)
Definition cells_by_hash (live : gmap CellIds Cell) : gmap CellHash Cell :=
  foldl (λ m (e : CellIds * Cell), <[hash e.2 := e.2]> m) ∅ (iter_map live).

(** The future that [Handler<ReceiveLastAccepted>] spawns, on a copy of the state;
    [i] is the state of ice when it answers. *)
Definition initialize (a : Alpha) (m : ReceiveLastAccepted) (i : Ice) :
    res unit (list AlphaEffect * SleetLiveCommittee * HailLiveCommittee) :=
  let state := al_state a in
  let router := if al_router a then [SendValidatorSet (get_validator_set a)] else [] in
  committee ← ice_live_committee (as_validators state) i;
  Ok (router,
    mkSleetLive (ico_sleet_validators committee) (cells_by_hash (as_live_cells state)),
    mkHailLive (rl_last_accepted m) (mkHailBlock None (rl_last_block m)) (as_height state)
      (al_node_id a) (ico_self_staking_capacity committee) (as_total_staking_capacity state)
      (ico_hail_validators committee) (rl_last_vrf_output m)).

(** [Handler<ReceiveLastAccepted>]: what is handed over, if anything *)
Definition receive_last_accepted (m : ReceiveLastAccepted) (i : Ice) (a : Alpha) :
    res unit (option (list AlphaEffect * SleetLiveCommittee * HailLiveCommittee)) :=
  if bool_decide (rl_last_block_hash m = rl_last_accepted m) then
    r ← initialize a m i; Ok (Some r)
  else Ok None.

(** The receivers of the two messages. *)
Definition deliver_sleet (m : SleetLiveCommittee) : st Sleet SleetError.Error unit :=
  handle_live_committee (slc_validators m) (slc_live_cells m).
Definition deliver_hail (m : HailLiveCommittee) : st Hail HailError.Error unit :=
  hail_live_committee (hlc_last_accepted_hash m) (hlc_last_accepted_block m) (hlc_height m)
    (hlc_self_staking_capacity m) (hlc_validators m) (hlc_vrf_out m).

(** [Handler<LiveNetwork>] and [Handler<FaultyNetwork>] *)
Definition live_network (live_peers : list (Id * SocketAddr)) : list AlphaEffect :=
  [NotifyQueryLastAccepted live_peers].
Definition faulty_network : list AlphaEffect := [].

(** [Handler<GetLastAccepted>] *)
Definition alpha_get_last_accepted : al BlockHash :=
  reads (λ a, unwrap_res (get_last_accepted_hash (al_tree a))).

(** [Handler<AcceptedBlock>] does nothing. *)
Definition accepted_block (b : Block) (a : Alpha) : Alpha := a.

(** [Handler<GetNodeStatus>]; ice and sleet answer in turn. *)
Definition get_node_status (a : Alpha) (i : Ice) (s : Sleet) : NodeStatus :=
  let '(bootstrapped, peers) := ice_check_status i in
  mkNodeStatus bootstrapped (as_height (al_state a)) peers (handle_check_status s).2.
End alpha.
