(* ===== verification/AlphaFacts.v ===== *)
(** * AlphaFacts.v: the properties of the alpha actor

    The quorum on the last accepted block, the hand-over to sleet and hail, and the
    state after a restart. *)

From stdpp Require Import prelude gmap sets list strings.
From Stdlib Require Import ZArith Lia.
From S2P Require Import Prelude Orders Cell Instances Dag DagFacts ConflictGraph ConflictGraphFacts Blocks Storage.
From S2P Require Import SledInstances BlockStorage Util Operations DependencyGraph AlphaState Sleet SleetFacts.
From S2P Require Import Hail HailFacts Ice Alpha.

(** ** The quorum on the last accepted block *)
Section quorum_facts.
Implicit Types (v : list BlockHash) (h : BlockHash).

(** How often a hash was reported. *)
Definition times h v : nat := length (filter (λ x, x = h) v).

Definition receive_of (last : Block) h : AlphaEffect :=
  NotifyReceiveLastAccepted (mkReceive h last (vrf_out last) h).

Lemma times_cons h x v : times h (x :: v) = (if decide (x = h) then 1 else 0) + times h v.
Proof. unfold times. rewrite filter_cons. by destruct (decide (x = h)). Qed.

(** How many more reports of a hash the loop waits for. *)
Definition needed (occ : gmap BlockHash nat) h : nat :=
  match occ !! h with Some _ => 1 | None => 2 end.

Lemma count_last_accepted_spec last v occ app :
  ∃ hs, count_last_accepted last v occ app = receive_of last <$> hs ∧ NoDup hs ∧
    ∀ h, h ∈ hs ↔ h ∉ app ∧ needed occ h ≤ times h v.
Proof.
  revert occ app. induction v as [|x v IH]; intros occ app; cbn [count_last_accepted].
  { exists []. split_and!; [done|apply NoDup_nil_2|]. intros h. unfold needed, times. cbn.
    destruct (occ !! h); set_solver by lia. }
  setoid_rewrite times_cons. destruct (occ !! x) as [c|] eqn:Hx.
  - case_bool_decide as Happ.
    + change quorum_threshold with 1. cbn [Nat.leb].
      destruct (IH (<[x := S c]> occ) ({[ x ]} ∪ app)) as (hs & -> & Hnd & Hin).
      exists (x :: hs). split_and!; [done| |].
      * apply NoDup_cons. split; [|done]. rewrite Hin. set_solver.
      * intros h. rewrite elem_of_cons, Hin. unfold needed.
        destruct (decide (x = h)) as [<-|Hne].
        -- rewrite Hx. split; [intros _; split; [done|lia]|by left].
        -- rewrite lookup_insert_ne by done. set_solver.
    + destruct (IH occ app) as (hs & -> & Hnd & Hin). exists hs. split_and!; [done..|].
      intros h. rewrite Hin. destruct (decide (x = h)) as [<-|]; [tauto|done].
  - destruct (IH (<[x := 0]> occ) app) as (hs & -> & Hnd & Hin). exists hs. split_and!; [done..|].
    intros h. rewrite Hin. unfold needed. destruct (decide (x = h)) as [<-|].
    + rewrite lookup_insert_eq, Hx. split; intros [? ?]; (split; [done|lia]).
    + by rewrite lookup_insert_ne.
Qed.

(** C31: alpha takes a hash for the last accepted one when at least two of the
    responses report it, and then once; with other responses or a failed request
    nothing is done. *)
Theorem last_accepted_quorum last rs :
  (∃ hs, last_accepted_response last (Some (AlphaFanout rs)) =
      (λ h, NotifyReceiveLastAccepted (mkReceive h last (vrf_out last) h)) <$> hs ∧
    NoDup hs ∧ ∀ h, h ∈ hs ↔ 2 ≤ times h (reported rs)) ∧
  (∀ r, last_accepted_response last (Some (AlphaOneshot r)) = []) ∧
  last_accepted_response last None = [].
Proof.
  split_and!; [|done|done].
  destruct (count_last_accepted_spec last (reported rs) ∅ ∅) as (hs & Heq & Hnd & Hin).
  exists hs. split_and!; [done..|]. intros h. rewrite Hin. unfold needed. rewrite lookup_empty.
  set_solver.
Qed.
End quorum_facts.

(** ** Methods that leave a part of the state alone *)
Section preserves.
Context {S E R : Type} (f : S → R).

Definition preserves {A} (m : st S E A) : Prop := ∀ s, f (m s).1 = f s.

Lemma preserves_bind {A B} (m : st S E A) (k : A → st S E B) :
  preserves m → (∀ a, preserves (k a)) → preserves (m ≫= k).
Proof.
  intros Hm Hk s. unfold mbind, st_bind. specialize (Hm s).
  destruct (m s) as [s' [x| | |]]; cbn in *; [|done..]. by rewrite Hk.
Qed.

Lemma preserves_zoom {T F A} (get : S → T) put (conv : F → E) (m : st T F A) :
  (∀ t s, f (put t s) = f s) → preserves (zoom get put conv m).
Proof. intros Hput s. unfold zoom. destruct (m (get s)). apply Hput. Qed.
End preserves.

(** ** The hand-over to sleet and hail *)
Section hand_over.
Context `{CR : Crypto, !CryptoLaws, IO : IterOrder, BP : BuildProfile, SL : SledLaws}.
Context `{TC : TxCodecLaws, BC : BlockCodec, SC : StateCodec, SO : Sortition, RN : Rng}.
Implicit Types (a : Alpha) (i : Ice).

Lemma cells_by_hash_spec (live : gmap CellIds Cell) h c :
  cells_by_hash live !! h = Some c ↔ hash c = h ∧ ∃ ids, live !! ids = Some c.
Proof.
  transitivity (hash c = h ∧ ∃ ids, (ids, c) ∈ iter_map live).
  2: { by setoid_rewrite elem_of_iter_map. }
  unfold cells_by_hash. generalize (iter_map live).
  intros l. induction l as [|[ids x] l IH] using rev_ind.
  { cbn [foldl]. rewrite lookup_empty. split; [done|]. intros (_ & ids & Hin). set_solver. }
  rewrite foldl_app. cbn [foldl fst snd]. rewrite lookup_insert_Some, IH.
  setoid_rewrite elem_of_app. setoid_rewrite list_elem_of_singleton. split.
  - intros [[Hh ->]|(Hne & Hh & ids' & Hin)]; eauto.
  - intros (Hh & ids' & [Hin|[= -> ->]]); [|by left].
    destruct (decide (hash x = h)) as [Hx|]; [|right; eauto].
    left. split; [done|]. apply hash_inj. congruence.
Qed.

Lemma get_validator_set_spec a id :
  id ∈ get_validator_set a ↔ ∃ c, (id, c) ∈ as_validators (al_state a) ∧ (0 < c)%Z.
Proof.
  unfold get_validator_set. rewrite elem_of_list_to_set, list_elem_of_omap. split.
  - intros ([id' c] & Hin & Hc). cbn in Hc. destruct (Z.ltb_spec 0 c); simplify_eq. eauto.
  - intros (c & Hin & Hc). exists (id, c). split; [done|]. cbn. by rewrite (proj2 (Z.ltb_lt _ _)).
Qed.

(** What sleet has learned from [LiveCommittee]. *)
Record committee_known (validators : gmap Id (SocketAddr * Weight)) (live : gmap CellHash Cell)
    (s s' : Sleet) : Prop := {
  ck_wf : sleet_wf s';
  ck_bounded : bounded_wf (sl_live_cells s');
  ck_committee : sl_committee s' = validators;
  ck_dag : sl_dag s' = sl_dag s;
  ck_txs : sl_known_txs s' = sl_known_txs s;
  ck_cells : cells (sl_conflict_graph s') = cells (sl_conflict_graph s);
  ck_vertices : ∀ id, id ∈ dom (vertices (sl_conflict_graph s')) ↔
    id ∈ dom (vertices (sl_conflict_graph s)) ∨
    ∃ h c, live !! h = Some c ∧ id ∈ produced_ids c
}.

Lemma handle_live_committee_spec validators live (s : Sleet) :
  (∀ h c, live !! h = Some c → hash c = h) → sleet_wf s → bounded_wf (sl_live_cells s) →
  ∃ s', handle_live_committee validators live s = (s', Ok tt) ∧
    committee_known validators live s s'.
Proof.
  intros Hlive Hwf Hb. unfold handle_live_committee.
  match goal with |- context [for_acc ?l ?b ∅] =>
    destruct (for_acc_inv (λ pre ids t, ∃ x, t = set_live_cells x s ∧ bounded_wf x ∧
      ∀ id, id ∈ ids ↔ ∃ h c, (h, c) ∈ pre ∧ id ∈ produced_ids c) l b ∅ s)
      as (s1 & ids & Hf & x & -> & Hbx & Hids) end.
  - exists (sl_live_cells s). split_and!; [by destruct s|done|]. set_solver.
  - intros pre [h c] post ids t Hl (x & -> & Hbx & Hids).
    assert (hash c = h) as <- by (apply (Hlive h), elem_of_iter_map; rewrite Hl; set_solver).
    assert (∀ id, id ∈ ids ∪ produced_ids c ↔
      ∃ h' c', (h', c') ∈ pre ++ [(hash c, c)] ∧ id ∈ produced_ids c') as Hids'.
    { intros id. rewrite elem_of_union, Hids. setoid_rewrite elem_of_app.
      setoid_rewrite list_elem_of_singleton. naive_solver. }
    cbn [fst snd]. rewrite from_outputs_Ok.
    destruct (bm_elems x !! hash c) as [c0|] eqn:Hx.
    + exists (set_live_cells x s), (ids ∪ produced_ids c). split; [|by exists x].
      erewrite st_bind_Ok; [|reflexivity]. rewrite gets_bind. cbn.
      rewrite Hx, bool_decide_eq_true_2 by eauto. done.
    + destruct (bounded_insert_spec (E:=SleetError.Error) x (hash c) c Hbx)
        as (x' & Hi & Hbx' & _).
      exists (set_live_cells x' s), (ids ∪ produced_ids c). split; [|by exists x'].
      erewrite st_bind_Ok; [|reflexivity]. rewrite gets_bind. cbn [sl_live_cells set_live_cells].
      rewrite Hx, bool_decide_eq_false_2 by (by intros []).
      erewrite st_bind_Ok; [|apply zoom_Ok; exact Hi]. done.
  - destruct (append_wf ids (sl_conflict_graph s) (slw_cg _ Hwf)) as (G' & Ha & HG' & Hd & Hc).
    exists (set_committee validators (set_conflict_graph G' (set_live_cells x s))). split.
    + erewrite st_bind_Ok; [|exact Hf]. erewrite st_bind_Ok; [|apply zoom_Ok; exact Ha]. done.
    + split; try done.
      * destruct Hwf. split; cbn; rewrite ?Hc; done.
      * intros id. cbn. rewrite Hd, elem_of_union, Hids. setoid_rewrite elem_of_iter_map. tauto.
Qed.

(** The last block as hail gets it: a vertex without a parent. *)
Definition root_vertex (b : Block) : Vertex := block_vertex (mkHailBlock None b).

(** Inserting a block touches neither the committee nor the last hash. *)
Lemma hail_insert_frame b (h h' : Hail) r :
  hail_insert b h = (h', r) →
  hl_committee h' = hl_committee h ∧ hl_last_accepted_hash h' = hl_last_accepted_hash h.
Proof.
  intros Heq.
  assert (preserves (λ h, (hl_committee h, hl_last_accepted_hash h)) (hail_insert b)) as Hp.
  { repeat first [apply preserves_bind; [|intros ?]|apply preserves_zoom; done|by intros ?
      |case_match]. }
  specialize (Hp h). rewrite Heq in Hp. by injection Hp as -> ->.
Qed.

Lemma hail_live_committee_spec last_hash b height own vs vrf (h : Hail) cm :
  hail_wf h → block_height b = 0%Z → dag_chits (hl_dag h) !! root_vertex b ≠ Some 1%Z →
  committee_next own vrf vs (hl_committee h) = (cm, Ok tt) →
  ∃ h', hail_live_committee last_hash (mkHailBlock None b) height own vs vrf h = (h', Ok tt) ∧
    hail_wf h' ∧ hl_committee h' = cm ∧ hl_last_accepted_hash h' = Some last_hash ∧
    dom (dag_g (hl_dag h')) = {[ root_vertex b ]} ∪ dom (dag_g (hl_dag h)).
Proof.
  intros Hwf Hb Hchit Hcm. unfold hail_live_committee.
  erewrite st_bind_Ok; [|apply zoom_Ok; exact Hcm]. rewrite modify_bind.
  set (h1 := hl_set_last _ _ _).
  assert (hail_wf h1) as Hwf1 by (by destruct Hwf; split).
  destruct (decide (root_vertex b ∈ dom (dag_g (hl_dag h)))) as [Hin|Hout].
  - exists h1. split_and!; [|done|done|done|set_solver]. unfold unwrap_st, hail_insert.
    erewrite st_bind_Ok; [|by rewrite hail_block_vertex_Ok]. rewrite gets_bind.
    rewrite bool_decide_eq_true_2; [done|]. by apply elem_of_dom.
  - destruct (hail_insert_spec h1 (mkHailBlock None b) Hwf1) as (h' & Hi & Hwf' & Hg & _).
    { split; [|done]. split_and!; [done|set_solver|done]. }
    destruct (hail_insert_frame _ _ _ _ Hi) as [Hc Hl].
    exists h'. unfold unwrap_st. rewrite Hi. split_and!; [done|done|done|done|].
    rewrite Hg, dom_insert_L. done.
Qed.


(** The check for a missing bootstrap never fails: the hash that alpha compares
    with the accepted one is a copy of it.  Whatever the own last block is, it is
    handed over under the hash that the others report. *)
Theorem lagging_node_hands_over a rs i c last h out :
  2 ≤ times h (reported rs) →
  out = last_accepted_response last (Some (AlphaFanout rs)) →
  ice_live_committee (as_validators (al_state a)) i = Ok c →
  ∃ m sm hm eff, NotifyReceiveLastAccepted m ∈ out ∧
    receive_last_accepted m i a = Ok (Some (eff, sm, hm)) ∧
    hlc_last_accepted_hash hm = h ∧ hlc_last_accepted_block hm = mkHailBlock None last.
Proof.
  intros Hh -> Hc.
  destruct (count_last_accepted_spec last (reported rs) ∅ ∅) as (hs & Heq & _ & Hin).
  exists (mkReceive h last (vrf_out last) h). do 3 eexists. split_and!.
  - cbn. rewrite Heq. change (receive_of last h ∈ receive_of last <$> hs).
    apply list_elem_of_fmap_2, Hin. split; [set_solver|].
    unfold needed. by rewrite lookup_empty.
  - unfold receive_last_accepted, initialize. rewrite bool_decide_eq_true_2 by done.
    rewrite Hc. reflexivity.
  - done.
  - done.
Qed.
End hand_over.

(** ** Restarting *)
Section restart.
Context `{CR : Crypto, IO : IterOrder, BP : BuildProfile, SL : SledLaws, !SledOrderLaws}.
Context `{BC : BlockCodecLaws, SC : StateCodec}.
(** blake3 gives 32 bytes. *)
Context (hash_length : ∀ m, length (blake3 m) = 32).
Implicit Types (db : Db) (b g : Block).

Lemma build_genesis_height stakers g : build_genesis stakers = Ok g → block_height g = 0%Z.
Proof.
  unfold build_genesis. intros Hg.
  repeat (apply res_bind_Ok_inv in Hg as (? & _ & Hg)). by simplify_eq.
Qed.

(** The genesis block is the only one of height 0. *)
Definition chain_from g db : Prop :=
  sled_view db !! block_key g = Some (ser_block g) ∧
  ∀ k v, sled_view db !! k = Some v →
    k = block_key g ∨ ∃ b, k = block_key b ∧ (0 < block_height b)%Z ∧ in_range 64 (block_height b).

Lemma block_key_height b b' :
  in_range 64 (block_height b) → in_range 64 (block_height b') →
  block_key b = block_key b' → block_height b = block_height b'.
Proof.
  intros Hb Hb' Heq. apply Z.le_antisymm; apply block_key_order; try done;
    rewrite Heq; apply bytes_ltb_irrefl.
Qed.

Lemma chain_from_genesis g db db' r :
  sled_view db = ∅ → accept_genesis g db = (db', Ok r) → chain_from g db'.
Proof.
  intros He. unfold accept_genesis. rewrite block_hash_Ok. erewrite st_bind_Ok; [|reflexivity].
  destruct (insert_encoded_spec db g) as (db1 & old & Hi & Hv).
  erewrite st_bind_Ok; [|exact Hi]. intros [= <- _]. rewrite He in Hv.
  split; rewrite Hv; [apply lookup_insert_eq|].
  intros k v. rewrite lookup_insert_Some, lookup_empty. intros [[<- _]|[_ ?]]; [by left|done].
Qed.

Lemma chain_from_insert g b db db' r :
  block_height g = 0%Z → (0 < block_height b)%Z → in_range 64 (block_height b) →
  chain_from g db → insert_block b db = (db', Ok r) → chain_from g db'.
Proof.
  intros Hg Hb Hr [Hgdb Hall]. unfold insert_block. rewrite block_hash_Ok.
  erewrite st_bind_Ok; [|reflexivity].
  destruct (insert_encoded_spec db b) as (db1 & old & -> & Hv). intros [= <- _].
  assert (block_key b ≠ block_key g) as Hne.
  { intros Heq%block_key_height; [lia|done|]. rewrite Hg. unfold in_range. lia. }
  split; rewrite Hv; [by rewrite lookup_insert_ne|].
  intros k v. rewrite lookup_insert_Some. intros [[<- _]|[_ ?]]; [right; eauto|by eapply Hall].
Qed.

Lemma chain_from_first g db :
  block_height g = 0%Z → chain_from g db →
  exists_genesis db = true ∧ get_genesis db = Ok (block_id g, g).
Proof.
  intros Hg [Hgdb Hall]. assert (in_range 64 (block_height g)) as Hr by (rewrite Hg; unfold in_range; lia).
  destruct (sled_first_law db) as ([[k v]|] & Hf & Ho).
  2: { by rewrite Ho, lookup_empty in Hgdb. }
  destruct Ho as [Hk Hmin]. assert (k = block_key g) as ->.
  { destruct (Hall k v Hk) as [|(b & -> & Hb & Hrb)]; [done|].
    assert (block_height b ≤ block_height g)%Z; [|lia].
    apply block_key_order; [done|done|]. apply Hmin. eauto. }
  assert (v = ser_block g) as -> by congruence.
  unfold exists_genesis, get_genesis. rewrite Hf. split; [done|].
  pose proof (key_read_block hash_length g Hr) as Hkr. set (x := block_key g) in *. clearbody x.
  cbn. rewrite Hkr. cbn. by rewrite de_ser_block.
Qed.

Lemma unwrap_res_Ok_inv {E F A} (r : res E A) x : unwrap_res (F:=F) r = Ok x → r = Ok x.
Proof. destruct r; cbn; intros; by simplify_eq. Qed.

Lemma fresh_start_inv stakers id tree a :
  sled_view tree = ∅ → alpha_started stakers (alpha_create id tree) = (a, Ok tt) →
  ∃ g s db r, build_genesis stakers = Ok g ∧ accept_genesis g tree = (db, Ok r) ∧
    apply state_new g = Ok s ∧ a = mkAlpha id db false s.
Proof.
  intros He. unfold alpha_started. rewrite gets_bind. cbn [alpha_create al_tree].
  assert (exists_genesis tree = false) as ->.
  { unfold exists_genesis. destruct (sled_first_law tree) as ([[k v]|] & -> & Ho); [|done].
    destruct Ho as [Hk _]. by rewrite He, lookup_empty in Hk. }
  cbn [negb]. intros Hst. apply st_bind_Ok_inv in Hst as (a1 & g & Hg & Hst).
  unfold of_res in Hg. injection Hg as <- Hg. apply unwrap_res_Ok_inv in Hg.
  apply st_bind_Ok_inv in Hst as (a2 & r & Ha%unwrap_st_Ok_inv & Hst).
  unfold on_tree, zoom in Ha. cbn [al_tree alpha_create] in Ha.
  destruct (accept_genesis g tree) as [db r'] eqn:Hacc. apply pair_eq in Ha as [<- Hr].
  apply map_err_Ok_inv in Hr as ->. unfold apply_genesis in Hst. rewrite gets_bind in Hst.
  apply st_bind_Ok_inv in Hst as (a3 & s & Hs & Hst). unfold of_res in Hs.
  injection Hs as <- Hs%unwrap_res_Ok_inv. unfold modify in Hst. simplify_eq. by exists g, s, db, r.
Qed.

Lemma restart_Ok stakers id db g s :
  block_height g = 0%Z → chain_from g db → apply state_new g = Ok s →
  alpha_started stakers (alpha_create id db) = (mkAlpha id db false s, Ok tt).
Proof.
  intros Hg Hch Hs. destruct (chain_from_first g db Hg Hch) as [Hex Hget].
  unfold alpha_started. rewrite gets_bind. cbn [alpha_create al_tree]. rewrite Hex. cbn [negb].
  erewrite reads_bind_Ok; [|cbn [al_tree alpha_create]; rewrite Hget; reflexivity]. cbn [snd].
  unfold apply_genesis. rewrite gets_bind. cbn [al_state alpha_create].
  erewrite st_bind_Ok; [|unfold of_res; rewrite Hs; reflexivity]. done.
Qed.

(** C33: a restart restores the state.  A node that was started on an empty database
    and has stored blocks of later heights since comes back with the state of the
    first start and leaves the database as it is. *)
Theorem restart_restores_state stakers stakers' id tree a bs tree' :
  sled_view tree = ∅ →
  alpha_started stakers (alpha_create id tree) = (a, Ok tt) →
  (∀ b, b ∈ bs → 0 < block_height b ∧ in_range 64 (block_height b))%Z →
  foreach bs (λ b, _ ← insert_block b; mret tt) (al_tree a) = (tree', Ok tt) →
  ∃ a', alpha_started stakers' (alpha_create id tree') = (a', Ok tt) ∧
    al_state a' = al_state a ∧ al_tree a' = tree'.
Proof.
  intros He (g & s & db & r & Hg & Ha & Hs & ->)%fresh_start_inv Hbs Hf; [|done].
  apply build_genesis_height in Hg as Hg0. cbn [al_tree al_state] in *.
  assert (chain_from g tree') as Hch.
  { apply (chain_from_genesis g tree db r He) in Ha. clear He Hs. revert db Ha Hf.
    induction bs as [|b bs IH]; intros db Hch Hf; [by injection Hf as <-|].
    rewrite foreach_cons in Hf. apply st_bind_Ok_inv in Hf as (db1 & [] & Hb & Hf).
    apply st_bind_Ok_inv in Hb as (db2 & old & Hb & [= <-]).
    apply (IH (λ b' Hb', Hbs b' (list_elem_of_further _ _ _ Hb')) db2); [|done].
    destruct (Hbs b) as [??]; [set_solver|]. by eapply chain_from_insert. }
  exists (mkAlpha id tree' false s). split; [|done]. by eapply restart_Ok.
Qed.
End restart.

(** ** Witnesses *)
Section restart_witness.
#[local] Existing Instance wide_crypto.
#[local] Existing Instance canonical_order.
#[local] Existing Instance debug_profile.
#[local] Existing Instance plain_state_codec.
#[local] Existing Instance num_block_codec.
#[local] Existing Instance map_sled.

Definition one_staker : InitialStaker := mkStaker ([1%Z] : @Keypair wide_crypto) [101%Z] 2000 1000.
Definition first_start : Alpha * res Empty_set unit :=
  alpha_started [one_staker] (alpha_create [7%Z] (∅ : gmap bytes bytes)).

Lemma restart_restores_state_witness :
  ∃ a tree' a', first_start = (a, Ok tt) ∧
    foreach (E:=StorageError.Error) [sample_next] (λ b, _ ← insert_block b; mret tt) (al_tree a) =
      (tree', Ok tt) ∧
    alpha_started [] (alpha_create [7%Z] tree') = (a', Ok tt) ∧ al_state a' = al_state a.
Proof.
  assert (is_ok first_start.2 = true) as Hok by (vm_compute; reflexivity).
  destruct first_start as [a [[]| | |]] eqn:Hs; [|discriminate Hok..].
  destruct (@insert_encoded_spec wide_crypto map_sled map_sled_laws num_block_codec
    (al_tree a) sample_next) as (tree' & old & Hi & _).
  assert (foreach (E:=StorageError.Error) [sample_next]
    (λ b, _ ← insert_block b; mret tt) (al_tree a) = (tree', Ok tt)) as Hf.
  { rewrite foreach_cons. erewrite st_bind_Ok; [reflexivity|].
    erewrite st_bind_Ok; [reflexivity|]. unfold insert_block. rewrite block_hash_Ok.
    erewrite st_bind_Ok; [exact Hi|reflexivity]. }
  destruct (@restart_restores_state wide_crypto canonical_order debug_profile map_sled
    map_sled_laws map_sled_order_laws num_block_codec num_block_codec_laws plain_state_codec
    (λ m, eq_refl) [one_staker] [] [7%Z] (∅ : gmap bytes bytes) a [sample_next] tree')
    as (a' & H1 & H2 & _).
  - reflexivity.
  - exact Hs.
  - intros b ->%list_elem_of_singleton. split; [reflexivity|].
    split; apply (bool_decide_unpack _); vm_compute; exact I.
  - exact Hf.
  - exists a, tree', a'. split; [reflexivity|]. split; [exact Hf|]. split; [exact H1|exact H2].
Defined.
End restart_witness.

Section hand_over_witness.
#[local] Existing Instance plain_crypto.
#[local] Existing Instance canonical_order.
#[local] Existing Instance release_profile.
#[local] Existing Instance plain_state_codec.
#[local] Existing Instance num_block_codec.
#[local] Existing Instance num_tx_codec.
#[local] Existing Instance map_sled.
#[local] Existing Instance map_sled_laws.
#[local] Existing Instance keep_order.
#[local] Existing Instance by_stake.

(** A node with a live cell, one confirmed peer, and fresh sleet and hail. *)
Definition stocked : Cell := cell_new ∅ [pay 100 [1%Z]].
Definition booted : Alpha :=
  mkAlpha [1%Z] (∅ : gmap bytes bytes) true
    (mkState 0 100 40 [([1%Z], 10%Z); ([5%Z], 30%Z)] {[ produced_ids stocked := stocked ]}).
Definition ice_up : Ice :=
  mkIce [1%Z] addr (mkReservoir ∅ {[ [5%Z] := (addr, Live, 3) ]} [] 2) true.
Definition root_block : Block := mkBlock None 0 [9%Z] [].
Definition agreed : ReceiveLastAccepted :=
  mkReceive (block_id root_block) root_block [9%Z] (block_id root_block).
Definition sleet_up : Sleet := sleet_new [1%Z] addr (∅ : gmap bytes bytes) [].

Lemma sleet_up_wf : sleet_wf sleet_up ∧ bounded_wf (sl_live_cells sleet_up).
Proof.
  split; split; cbn.
  - apply dag_new_wf.
  - apply conflict_graph_new_wf.
  - intros h v Hv. cbn in Hv. by rewrite lookup_empty in Hv.
  - set_solver.
  - set_solver.
  - lia.
  - apply NoDup_nil_2.
  - intros k. rewrite lookup_empty. split; [set_solver|by intros []].
  - lia.
Qed.

End hand_over_witness.
