(* ===== verification/Ids.v ===== *)
(** * Ids.v: node ids and peer descriptions
      (src/src/zfx_id.rs, [parse_id_and_ip] of src/src/util.rs, the errors of
      src/src/lib.rs)

    An [Id] is an array of 32 bytes, printed in the base58check format.  The
    format is that of the base58check crate, the hash that of the blake2 crate and
    the resolution of host names a service: [IdCrates] lists these operations and
    [IdCratesLaws] what their documentation says. *)

From stdpp Require Import prelude gmap list strings pretty.
From Stdlib Require Import ZArith Lia Ascii String.
From S2P Require Import Prelude Orders Cell Blocks Storage BlockStorage Util.

(** [crate::Error] *)
Module CrateError.
Inductive Error : Type :=
| IO
| Dalek
| Sled
| Actix
| InvalidResponse
| ChannelError (s : string)
| JoinError
| Byzantine
| Crash
| GenesisUndefined
| InvalidHeight
| InvalidPredecessor
| InvalidGenesis
| InvalidLast
| TryFromStringError
| PeerParseError
| UnexpectedPeerConnected.
#[export] Instance Error_eq_dec : EqDecision Error.
Proof. solve_decision. Defined.
End CrateError.

Class IdCrates : Type := {
  (** [to_base58check] and [from_base58check], with the version byte *)
  to_base58check : Z → bytes → string;
  from_base58check : string → option (Z * bytes);
  (** [Blake2bVar] with an output of 32 bytes *)
  blake2b : bytes → bytes;
  (** the [Debug] form of an IPv6 address with its port *)
  fmt_v6 : SocketAddr → string;
  (** [to_socket_addrs], [None] being an error *)
  to_socket_addrs : string → option (list SocketAddr)
}.

(** [s.split(c)]: the parts between the separators, at least one. *)
Fixpoint str_split (c : ascii) (s : string) : list string :=
  match s with
  | EmptyString => [EmptyString]
  | String a s' =>
      if bool_decide (a = c) then EmptyString :: str_split c s'
      else match str_split c s' with
           | p :: ps => String a p :: ps
           | [] => [String a EmptyString]
           end
  end.

(** [as_bytes] of a string *)
Definition string_bytes (s : string) : bytes :=
  (λ a, Z.of_nat (nat_of_ascii a)) <$> list_ascii_of_string s.

(** The characters of a string. *)
Definition occurs (c : ascii) (s : string) : Prop := c ∈ list_ascii_of_string s.
#[export] Instance occurs_dec c s : Decision (occurs c s).
Proof. unfold occurs. apply _. Defined.

(** Values of the array type [[u8; n]]. *)
Definition array (n : nat) (b : bytes) : Prop := List.length b = n ∧ Forall (in_range 8) b.
#[export] Instance array_dec n b : Decision (array n b).
Proof. unfold array. apply _. Defined.

Class IdCratesLaws `{IdCrates} : Prop := {
  base58check_round_trip : ∀ v b, in_range 8 v → Forall (in_range 8) b →
    from_base58check (to_base58check v b) = Some (v, b);
  (** decoding yields bytes *)
  base58check_bytes : ∀ s v b, from_base58check s = Some (v, b) → Forall (in_range 8) b;
  (** the separator of a peer description is not in the alphabet *)
  base58check_alphabet : ∀ v b, ¬ occurs "@"%char (to_base58check v b);
  blake2b_array : ∀ b, array 32 (blake2b b)
}.

Section ids.
Context `{IdCrates}.
Implicit Types id : Id.

(** [Display] and [FromStr] *)
Definition id_to_string id : string := to_base58check 0 id.

Definition id_from_str (s : string) : res CrateError.Error Id :=
  p ← ok_or (from_base58check s) CrateError.TryFromStringError;
  if negb (p.1 =? 0)%Z then Err CrateError.TryFromStringError
  else if decide (List.length p.2 = 32) then Ok p.2
  else Err CrateError.TryFromStringError.

(** [hash] *)
Definition id_hash (input : bytes) : bytes := blake2b input.

Definition id_new (b : bytes) : Id := id_hash b.

(** [Id::from_hash]: [Vec::resize] cuts off or fills up with zeros. *)
Definition id_from_hash (b : bytes) : Id := take 32 (b ++ replicate (32 - List.length b) 0%Z).

(** The [Debug] form of an address: [a.b.c.d:port] for IPv4. *)
Definition fmt_addr (a : SocketAddr) : string :=
  match addr_ip a with
  | [x; y; z; w] =>
      pretty x +:+ "." +:+ pretty y +:+ "." +:+ pretty z +:+ "." +:+ pretty w +:+ ":" +:+
        pretty (addr_port a)
  | _ => fmt_v6 a
  end.

Definition from_ip (a : SocketAddr) : Id := id_new (string_bytes (fmt_addr a)).

(** [Id::zero], [Id::max], [Id::one], [Id::two] *)
Definition id_zero : Id := replicate 32 0%Z.
Definition id_max : Id := replicate 32 255%Z.
Definition id_one : Id := replicate 32 1%Z.
Definition id_two : Id := replicate 32 2%Z.

Definition hash_prefix id (prefix : Z) : Id := id_hash (be_bytes 8 prefix ++ id).
Definition id_prefix id (prefix : Z) : bytes := id_hash (be_bytes 8 prefix) ++ id.
Definition prefix_id id (prefix : Id) : bytes := prefix ++ id.
Definition id_suffix id (suffix : bytes) : bytes := id ++ suffix.

(** The two [Index] traits: an index or a range out of bounds panics. *)
Definition id_index id (i : nat) : res CrateError.Error Z := unwrap (id !! i).
Definition id_range id (start stop : nat) : res CrateError.Error bytes :=
  if decide (start ≤ stop ≤ List.length id) then Ok (take (stop - start) (drop start id)) else Panic.

(** [x.to_socket_addrs().map_err(..)?.next().unwrap()] *)
Definition resolve (s : string) : res CrateError.Error SocketAddr :=
  addrs ← ok_or (to_socket_addrs s) CrateError.PeerParseError;
  unwrap (head addrs).

Definition parse_id_and_ip (s : string) : res CrateError.Error (Id * SocketAddr) :=
  match str_split "@"%char s with
  | [ip] => a ← resolve ip; Ok (from_ip a, a)
  | [id; ip] =>
      i ← map_err (λ _, CrateError.PeerParseError) (id_from_str id);
      a ← resolve ip; Ok (i, a)
  | _ => Err CrateError.PeerParseError
  end.
End ids.

(** ** Properties *)
Lemma str_split_cons c s : ∃ p ps, str_split c s = p :: ps.
Proof. destruct s as [|a s]; cbn; [eauto|]. case_bool_decide; [eauto|]. destruct (str_split c s); eauto. Qed.

Lemma str_split_none c s : ¬ occurs c s → str_split c s = [s].
Proof.
  unfold occurs. induction s as [|a s IH]; cbn; [done|].
  rewrite elem_of_cons. intros Hn. rewrite bool_decide_eq_false_2 by naive_solver.
  by rewrite IH by naive_solver.
Qed.

Lemma str_split_app c s t : ¬ occurs c s → str_split c (s +:+ String c t) = s :: str_split c t.
Proof.
  unfold occurs. induction s as [|a s IH].
  - change (EmptyString +:+ String c t) with (String c t). cbn [str_split].
    by rewrite bool_decide_eq_true_2.
  - change (String a s +:+ String c t) with (String a (s +:+ String c t)).
    cbn [str_split list_ascii_of_string]. rewrite elem_of_cons. intros Hn. rewrite bool_decide_eq_false_2 by naive_solver.
    by rewrite IH by naive_solver.
Qed.

(** The first part ends at the first separator. *)
Lemma str_split_inv c s p ps :
  str_split c s = p :: ps → ¬ occurs c p ∧
  ((ps = [] ∧ s = p) ∨ ∃ t, s = p +:+ String c t ∧ str_split c t = ps).
Proof.
  unfold occurs. revert p ps. induction s as [|a s IH]; cbn; intros p ps.
  { intros [= <- <-]. split; [apply not_elem_of_nil|by left]. }
  case_bool_decide as Ha.
  - intros [= <- <-]. split; [apply not_elem_of_nil|]. right. exists s. by subst.
  - destruct (str_split_cons c s) as (q & qs & Hs). rewrite Hs. intros [= <- <-].
    destruct (IH q qs Hs) as (Hq & Hcase). cbn. split; [rewrite elem_of_cons; naive_solver|].
    destruct Hcase as [[-> ->]|(t & -> & Ht)]; [by left|]. right. by exists t.
Qed.

Lemma str_split_two c s p q :
  str_split c s = [p; q] ↔ s = p +:+ String c q ∧ ¬ occurs c p ∧ ¬ occurs c q.
Proof.
  split.
  - intros (Hp & [[? _]|(t & -> & Ht)])%str_split_inv; [done|].
    apply str_split_inv in Ht as (Hq & [[_ ->]|(t' & -> & Ht)]); [done|].
    destruct (str_split_cons c t') as (? & ? & ?). congruence.
  - intros (-> & Hp & Hq). by rewrite str_split_app, str_split_none.
Qed.

Lemma str_split_one c s p : str_split c s = [p] ↔ s = p ∧ ¬ occurs c p.
Proof.
  split.
  - intros (Hp & [[_ ->]|(t & -> & Ht)])%str_split_inv; [done|].
    destruct (str_split_cons c t) as (? & ? & ?). congruence.
  - intros [-> Hp]. by rewrite str_split_none.
Qed.

Section id_facts.
Context `{IL : IdCratesLaws}.
Implicit Types id : Id.

Lemma id_from_str_Ok s id :
  id_from_str s = Ok id ↔ from_base58check s = Some (0%Z, id) ∧ array 32 id.
Proof.
  unfold id_from_str, array. split.
  - intros (p & Hp & Hr)%res_bind_Ok_inv.
    destruct (from_base58check s) as [[v b]|] eqn:Hs; [injection Hp as <-|discriminate]. cbn [fst snd] in Hr.
    destruct (Z.eqb_spec v 0) as [->|]; cbn [negb] in Hr; [|discriminate]. case_decide; [|discriminate]. injection Hr as <-.
    split; [done|]. split; [done|by eapply base58check_bytes].
  - intros [-> [Hl _]]. cbn. by rewrite decide_True.
Qed.

Lemma id_from_str_total s :
  id_from_str s = Err CrateError.TryFromStringError ∨ ∃ id, id_from_str s = Ok id.
Proof.
  unfold id_from_str. destruct (from_base58check s) as [[v b]|]; cbn; [|by left].
  destruct (v =? 0)%Z; cbn; [|by left]. case_decide; eauto.
Qed.

Lemma id_to_from id : array 32 id → id_from_str (id_to_string id) = Ok id.
Proof.
  intros Ha. apply id_from_str_Ok. split; [|done].
  apply base58check_round_trip; [by vm_compute|apply Ha].
Qed.

(** Printing an id and parsing it again gives the id back, and only the
    printed form of 32 bytes parses: every result of the parser is an array of 32
    bytes of version 0, and everything else is a [TryFromStringError]. *)
Theorem id_string_round_trip :
  (∀ id, array 32 id → id_from_str (id_to_string id) = Ok id) ∧
  (∀ s, match id_from_str s with
        | Ok id => array 32 id ∧ from_base58check s = Some (0%Z, id)
        | Err e => e = CrateError.TryFromStringError ∧
            ¬ ∃ id, array 32 id ∧ from_base58check s = Some (0%Z, id)
        | _ => False
        end).
Proof.
  split; [apply id_to_from|]. intros s.
  destruct (id_from_str_total s) as [Heq|[id Heq]]; rewrite Heq.
  - split; [done|]. intros (id & Ha & Hs).
    assert (id_from_str s = Ok id) as Hok by (by apply id_from_str_Ok). congruence.
  - apply id_from_str_Ok in Heq as [? ?]. done.
Qed.

(** What a description without a separator, or with one, means. *)
Lemma parse_address s :
  ¬ occurs "@"%char s →
  parse_id_and_ip s = (a ← resolve s; Ok (from_ip a, a)).
Proof. intros Hs. unfold parse_id_and_ip. by rewrite str_split_none. Qed.

Lemma parse_pair p q :
  ¬ occurs "@"%char p → ¬ occurs "@"%char q →
  parse_id_and_ip (p +:+ String "@"%char q) =
    (i ← map_err (λ _, CrateError.PeerParseError) (id_from_str p); a ← resolve q; Ok (i, a)).
Proof. intros Hp Hq. unfold parse_id_and_ip. by rewrite str_split_app, str_split_none. Qed.

Lemma resolve_Ok s a : resolve s = Ok a ↔ ∃ rest, to_socket_addrs s = Some (a :: rest).
Proof.
  unfold resolve. destruct (to_socket_addrs s) as [[|b l]|]; cbn; naive_solver.
Qed.

(** A peer description reads back as what it was written from.  For an id and
    the text of an address the result is the id and the first address the text
    resolves to; without an id the id is derived from the address.  Every
    description that parses is of one of these two forms, and its id is an array of
    32 bytes. *)
Theorem peer_description_round_trip s id a :
  parse_id_and_ip s = Ok (id, a) ↔
  ∃ ip rest, to_socket_addrs ip = Some (a :: rest) ∧ ¬ occurs "@"%char ip ∧
    ((s = ip ∧ id = from_ip a) ∨
     ∃ p, s = p +:+ String "@"%char ip ∧ ¬ occurs "@"%char p ∧ array 32 id ∧
       from_base58check p = Some (0%Z, id)).
Proof.
  split.
  - unfold parse_id_and_ip. destruct (str_split _ s) as [|p [|ip [|]]] eqn:Hs; [done| | |done].
    + apply str_split_one in Hs as [<- Hs]. intros (b & [rest Hb]%resolve_Ok & [= <- <-])%res_bind_Ok_inv.
      exists s, rest. split_and!; [done..|by left].
    + apply str_split_two in Hs as (-> & Hp & Hip).
      intros (i & Hi%map_err_Ok_inv & (b & [rest Hb]%resolve_Ok & [= <- <-])%res_bind_Ok_inv)%res_bind_Ok_inv.
      apply id_from_str_Ok in Hi as [Hi Ha]. exists ip, rest. split_and!; [done..|]. right. by exists p.
  - intros (ip & rest & Hip & Hn & [[-> ->]|(p & -> & Hp & Ha & Hd)]).
    + rewrite parse_address by done.
      by rewrite (proj2 (resolve_Ok ip a)) by eauto.
    + rewrite parse_pair by done. rewrite (proj2 (id_from_str_Ok p id)) by done. cbn.
      by rewrite (proj2 (resolve_Ok ip a)) by eauto.
Qed.

(** The printed form of an id is a first part of a description. *)
Lemma parse_printed id ip a rest :
  array 32 id → ¬ occurs "@"%char ip → to_socket_addrs ip = Some (a :: rest) →
  parse_id_and_ip (id_to_string id +:+ String "@"%char ip) = Ok (id, a).
Proof.
  intros Hid Hip Ha. rewrite parse_pair by (try done; apply base58check_alphabet).
  rewrite id_to_from by done. cbn. by rewrite (proj2 (resolve_Ok ip a)) by eauto.
Qed.

(** A resolver that answers with no address makes the parser panic. *)
Theorem unresolved_address_panics s :
  ¬ occurs "@"%char s → to_socket_addrs s = Some [] → parse_id_and_ip s = Panic.
Proof. intros Hs Ha. rewrite parse_address by done. unfold resolve. by rewrite Ha. Qed.

(** Every way to make an id yields 32 bytes. *)
Lemma id_from_hash_array b : Forall (in_range 8) b → array 32 (id_from_hash b).
Proof.
  intros Hb. unfold id_from_hash, array. split.
  - rewrite length_take, length_app, length_replicate. lia.
  - apply Forall_take, Forall_app. split; [done|]. apply Forall_replicate. by vm_compute.
Qed.

Lemma id_from_hash_id id : array 32 id → id_from_hash id = id.
Proof.
  intros [Hl _]. unfold id_from_hash. rewrite Hl, Nat.sub_diag. cbn [replicate].
  rewrite app_nil_r. by apply take_ge; rewrite Hl.
Qed.

(** The keys built from ids tell their parts apart.  [from_hash] keeps an id
    and always yields one; [prefix_id] and [suffix] have 64 and 40 bytes and are
    injective; a prefix that is a number is hashed, to 64 bytes in all. *)
Theorem id_keys_injective id id' :
  array 32 id → array 32 id' →
  id_from_hash id = id ∧
  array 64 (prefix_id id id') ∧
  (∀ x x', array 32 x → array 32 x' → prefix_id id x = prefix_id id' x' → id = id' ∧ x = x') ∧
  (∀ x x', array 8 x → array 8 x' →
     array 40 (id_suffix id x) ∧ (id_suffix id x = id_suffix id' x' → id = id' ∧ x = x')) ∧
  (∀ n, array 64 (id_prefix id n) ∧ array 32 (hash_prefix id n)).
Proof.
  intros Hid Hid'. destruct (Hid) as [Hl Hf], (Hid') as [Hl' Hf'].
  unfold prefix_id, id_suffix, id_prefix. split_and!.
  - by apply id_from_hash_id.
  - split; [by rewrite length_app, Hl, Hl'|by apply Forall_app].
  - intros x x' [Hx _] [Hx' _] [-> ->]%app_inj_1; [done|congruence].
  - intros x x' [Hx ?] [Hx' ?]. split.
    + split; [by rewrite length_app, Hl, Hx|by apply Forall_app].
    + intros [-> ->]%app_inj_1; [done|congruence].
  - intros n. destruct (blake2b_array (be_bytes 8 n)) as [Hh Hb]. split.
    + split; [by rewrite length_app; unfold id_hash; rewrite Hh, Hl|by apply Forall_app].
    + apply blake2b_array.
Qed.
End id_facts.

(** ** Witnesses

    A code with two letters per byte in the place of base58check. *)
Definition letter (n : Z) : ascii := ascii_of_nat (65 + Z.to_nat n).
Definition unletter (a : ascii) : option Z :=
  let n := (Z.of_nat (nat_of_ascii a) - 65)%Z in
  if decide (0 ≤ n < 16)%Z then Some n else None.

Fixpoint encode_letters (b : bytes) : string :=
  match b with
  | [] => EmptyString
  | z :: b' => String (letter (z / 16)) (String (letter (z mod 16)) (encode_letters b'))
  end.

Fixpoint decode_letters (s : string) : option bytes :=
  match s with
  | EmptyString => Some []
  | String a (String c s') =>
      hi ← unletter a; lo ← unletter c; b ← decode_letters s'; Some ((16 * hi + lo)%Z :: b)
  | _ => None
  end.

Lemma letter_unletter n : (0 ≤ n < 16)%Z → unletter (letter n) = Some n ∧ letter n ≠ "@"%char.
Proof.
  intros Hn. unfold unletter, letter.
  assert (nat_of_ascii (ascii_of_nat (65 + Z.to_nat n)) = 65 + Z.to_nat n) as Ha
    by (apply nat_ascii_embedding; lia).
  rewrite Ha. replace (Z.of_nat (65 + Z.to_nat n) - 65)%Z with n by lia.
  rewrite decide_True by done. split; [done|]. intros Heq. rewrite Heq in Ha. vm_compute in Ha. lia.
Qed.

Lemma nibbles z : in_range 8 z → (0 ≤ z / 16 < 16)%Z ∧ (0 ≤ z mod 16 < 16)%Z.
Proof.
  intros [? ?]. change (2 ^ 8)%Z with 256%Z in *. split; [|apply Z.mod_pos_bound; lia].
  split; [apply Z.div_pos; lia|apply Z.div_lt_upper_bound; lia].
Qed.

Lemma decode_encode b : Forall (in_range 8) b → decode_letters (encode_letters b) = Some b.
Proof.
  induction 1 as [|z b Hz Hb IH]; [done|]. destruct (nibbles z Hz) as [Hhi Hlo].
  cbn [encode_letters decode_letters].
  rewrite (proj1 (letter_unletter _ Hhi)), (proj1 (letter_unletter _ Hlo)). cbn.
  rewrite IH. cbn. do 2 f_equal. symmetry. apply Z.div_mod. lia.
Qed.

Lemma decode_bytes_ok (n : nat) s b :
  String.length s ≤ n → decode_letters s = Some b → Forall (in_range 8) b.
Proof.
  revert s b. induction n as [|n IH]; intros [|a [|c s]] b; cbn; try (intros; simplify_eq; done || lia).
  intros Hl. unfold unletter. repeat case_decide; try done. cbn.
  destruct (decode_letters s) as [b'|] eqn:Hs; cbn; [|done]. intros [= <-].
  constructor; [unfold in_range; change (2 ^ 8)%Z with 256%Z; lia|]. apply (IH s); [lia|done].
Qed.

Lemma encode_no_separator b : Forall (in_range 8) b → ¬ occurs "@"%char (encode_letters b).
Proof.
  unfold occurs. induction 1 as [|z b Hz Hb IH]; cbn; [apply not_elem_of_nil|].
  destruct (nibbles z Hz) as [Hhi Hlo].
  rewrite !elem_of_cons.
  pose proof (proj2 (letter_unletter _ Hhi)). pose proof (proj2 (letter_unletter _ Hlo)).
  naive_solver.
Qed.

Definition byte_mod (z : Z) : Z := (z mod 256)%Z.

Lemma byte_mod_range z : in_range 8 (byte_mod z).
Proof. unfold in_range, byte_mod. apply Z.mod_pos_bound. vm_compute. reflexivity. Qed.

Lemma byte_mod_id b : Forall (in_range 8) b → byte_mod <$> b = b.
Proof.
  induction 1 as [|z b Hz _ IH]; [done|]. rewrite fmap_cons, IH. f_equal.
  unfold byte_mod. by apply Z.mod_small.
Qed.

Lemma bytes_mod_ok b : Forall (in_range 8) (byte_mod <$> b).
Proof. apply Forall_fmap, Forall_true. intros z. apply byte_mod_range. Qed.

Definition letter_crates : IdCrates := {|
  to_base58check v b := encode_letters (byte_mod <$> (v :: b));
  from_base58check s :=
    match decode_letters s with Some (v :: b) => Some (v, b) | _ => None end;
  blake2b b := byte_mod <$> take 32 (b ++ replicate 32 0%Z);
  fmt_v6 _ := EmptyString;
  to_socket_addrs s :=
    if bool_decide (s = "10.0.0.2:8000"%string) then Some [mkSocketAddr [10; 0; 0; 2]%Z 8000]
    else None
|}.

Lemma letter_crates_laws : @IdCratesLaws letter_crates.
Proof.
  split; cbn [letter_crates to_base58check from_base58check blake2b].
  - intros v b Hv Hb. rewrite byte_mod_id by (by constructor).
    by rewrite decode_encode by (by constructor).
  - intros s v b. destruct (decode_letters s) as [[|w c]|] eqn:Hs; [done| |done].
    intros [= -> ->]. apply (decode_bytes_ok (String.length s)) in Hs; [|done].
    by apply Forall_cons in Hs as [_ ?].
  - intros v b. apply encode_no_separator, bytes_mod_ok.
  - intros b. split; [|apply bytes_mod_ok].
    rewrite length_fmap, length_take, length_app, length_replicate. lia.
Qed.

Lemma id_string_round_trip_witness :
  @id_from_str letter_crates (@id_to_string letter_crates id_two) = Ok id_two.
Proof.
  apply (@id_string_round_trip letter_crates letter_crates_laws).
  apply (bool_decide_unpack _). vm_compute. exact I.
Defined.

Lemma peer_description_round_trip_witness :
  @parse_id_and_ip letter_crates
    (@id_to_string letter_crates id_one +:+ "@10.0.0.2:8000") =
    Ok (id_one, mkSocketAddr [10; 0; 0; 2]%Z 8000).
Proof.
  apply (@peer_description_round_trip letter_crates letter_crates_laws).
  exists "10.0.0.2:8000"%string, []. split_and!; [vm_compute; reflexivity| |].
  - apply (bool_decide_unpack _). vm_compute. exact I.
  - right. exists (@id_to_string letter_crates id_one).
    split_and!; [reflexivity| | |]; [..|vm_compute; reflexivity];
      apply (bool_decide_unpack _); vm_compute; exact I.
Defined.

Lemma id_keys_injective_witness :
  prefix_id id_one id_two ≠ prefix_id id_two id_one.
Proof.
  destruct (@id_keys_injective letter_crates letter_crates_laws id_one id_two)
    as (_ & _ & Hinj & _); [apply (bool_decide_unpack _); vm_compute; exact I..|].
  intros Heq. destruct (Hinj id_two id_one) as [Hf _];
    [apply (bool_decide_unpack _); vm_compute; exact I..|exact Heq|]. discriminate Hf.
Defined.
