(* ===== verification/Router.v ===== *)
(** * Router.v: a node and its router
      (src/src/server/router.rs, src/src/protocol.rs, the start of the actors in
      src/src/server/node.rs)

    [Node] is the product of the states of the actors of a node; a request
    that arrives at the router is handed to one of them.  A request that sleet
    answers later, when a channel is resolved, is [Awaiting]. *)

From stdpp Require Import prelude gmap sets list strings.
From Stdlib Require Import ZArith Lia.
From S2P Require Import Prelude Orders Cell Instances Dag ConflictGraph Blocks Storage SledInstances BlockStorage.
From S2P Require Import Util Operations DependencyGraph AlphaState Sleet Hail Ice View Dissemination Alpha Ids.

(** ** The protocol *)
Module Protocol.
Inductive Request : Type :=
| Version (id : Id) (ip : SocketAddr)
| Ping (ping : Dissemination.Ping)
| GetLastAccepted
| GetAncestors
| GetNodeStatus
| GetCellHashes
| GetAcceptedCellHashes
| GetCell (cell_hash : CellHash)
| GetAcceptedCell (cell_hash : CellHash)
| GenerateTx (cell : Cell)
| QueryTx (id : Id) (ip : SocketAddr) (tx : Tx)
| GetTxAncestors (tx_hash : TxHash)
| GetAcceptedFrontier
| FetchTx (tx_hash : TxHash)
| GetLiveFrontier
| GetBlock (block_hash : BlockHash)
| GetBlockByHeight (block_height : BlockHeight)
| QueryBlock (id : Id) (block : HailBlock).

Inductive Response : Type :=
| VersionAck (ack : View.VersionAck)
| Ack (id : Id) (outcomes : list Outcome)
| LastAccepted (last_accepted : BlockHash)
| Ancestors
| CellHashes (ids : list CellHash)
| AcceptedCellHashes (ids : list CellHash)
| NodeStatus (status : Alpha.NodeStatus)
| CellAck (cell : option Cell)
| AcceptedCellAck (cell : option Cell)
| GenerateTxAck (cell_hash : option CellHash)
| QueryTxAck (id : Id) (tx_hash : TxHash) (outcome : bool)
| TxAncestors (ancestors : list Tx)
| AcceptedFrontier (frontier : gset TxHash)
| FetchedTx (tx : option Tx)
| LiveFrontier (frontier : gset TxHash)
| BlockAck (block : option Block)
| QueryBlockAck (id : Id) (block_hash : BlockHash) (outcome : bool)
| Unknown
| RequestRefused.
End Protocol.

(** A response, or a promise of [QueryTxAck] on a channel of sleet. *)
Inductive Answer : Type :=
| Answered (r : Protocol.Response)
| Awaiting (id : Id) (h : TxHash) (channel : nat).

(** What the promise turns into: [None] is the timeout or a dropped channel. *)
Definition settle (a : Answer) (outcome : option bool) : Protocol.Response :=
  match a with
  | Answered r => r
  | Awaiting id h _ => Protocol.QueryTxAck id h (default false outcome)
  end.

(** [RouterRequest] *)
Record RouterRequest : Type := mkRouterRequest {
  rr_peer_id : Id;
  rr_check_peer : bool;
  rr_request : Protocol.Request
}.

Section router.
Context {CR : Crypto} {IO : IterOrder} {BP : BuildProfile} {SC : StateCodec} {SD : Sled}
  {BC : BlockCodec} {TC : TxCodec} {SO : Sortition} {RN : Rng}.

Record Node : Type := mkNode {
  nd_view : View;
  nd_ice : Ice;
  nd_alpha : Alpha;
  nd_sleet : Sleet;
  nd_hail : Hail;
  (** [Router::validators] *)
  nd_validators : gset Id
}.
Implicit Types n : Node.

Definition nd_set_view x n := mkNode x (nd_ice n) (nd_alpha n) (nd_sleet n) (nd_hail n) (nd_validators n).
Definition nd_set_ice x n := mkNode (nd_view n) x (nd_alpha n) (nd_sleet n) (nd_hail n) (nd_validators n).
Definition nd_set_alpha x n := mkNode (nd_view n) (nd_ice n) x (nd_sleet n) (nd_hail n) (nd_validators n).
Definition nd_set_sleet x n := mkNode (nd_view n) (nd_ice n) (nd_alpha n) x (nd_hail n) (nd_validators n).
Definition nd_set_hail x n := mkNode (nd_view n) (nd_ice n) (nd_alpha n) (nd_sleet n) x (nd_validators n).
Definition nd_set_validators x n := mkNode (nd_view n) (nd_ice n) (nd_alpha n) (nd_sleet n) (nd_hail n) x.

Abbreviation nd := (st Node Empty_set).

(** [addr.send(msg).await.unwrap()]: a handler that panics makes the caller panic. *)
Definition send_alpha {E A} (m : st Alpha E A) : nd A :=
  unwrap_st (zoom nd_alpha nd_set_alpha (λ e : E, e) m).
Definition send_sleet {E A} (m : st Sleet E A) : nd A :=
  unwrap_st (zoom nd_sleet nd_set_sleet (λ e : E, e) m).
Definition send_hail {E A} (m : st Hail E A) : nd A :=
  unwrap_st (zoom nd_hail nd_set_hail (λ e : E, e) m).
Definition send_view {A} (m : View → View * A) : nd A :=
  λ n, let '(v, a) := m (nd_view n) in (nd_set_view v n, Ok a).
Definition send_ice {A} (m : Ice → Ice * A) : nd A :=
  λ n, let '(i, a) := m (nd_ice n) in (nd_set_ice i n, Ok a).

(** Handlers that only read. *)
Definition ask_sleet {A} (f : Sleet → A) : nd A := gets (λ n, f (nd_sleet n)).
Definition ask_hail {A} (f : Hail → A) : nd A := gets (λ n, f (nd_hail n)).

Definition answer (r : Protocol.Response) : nd Answer := mret (Answered r).

(** [Handler<RouterRequest>] *)
Definition route (m : RouterRequest) : nd Answer :=
  validators ← gets nd_validators;
  let refused := rr_check_peer m && bool_decide (rr_peer_id m ∉ validators) in
  match rr_request m with
  | Protocol.Version id ip =>
      ack ← send_view (view_version id ip); answer (Protocol.VersionAck ack)
  | Protocol.Ping ping =>
      ack ← send_ice (ice_ping (pg_queries ping)); answer (Protocol.Ack ack.1 ack.2)
  | Protocol.GetLastAccepted =>
      h ← send_alpha alpha_get_last_accepted; answer (Protocol.LastAccepted h)
  | Protocol.GetCellHashes =>
      hs ← ask_sleet handle_get_cell_hashes; answer (Protocol.CellHashes hs)
  | Protocol.GetCell h =>
      c ← ask_sleet (handle_get_cell h); answer (Protocol.CellAck c)
  | Protocol.GetAcceptedCellHashes =>
      hs ← ask_sleet handle_get_accepted_cell_hashes; answer (Protocol.AcceptedCellHashes hs)
  | Protocol.GetAcceptedCell h =>
      c ← ask_sleet (handle_get_accepted_cell h); answer (Protocol.AcceptedCellAck c)
  | Protocol.GenerateTx cell =>
      h ← send_sleet (handle_generate_tx cell); answer (Protocol.GenerateTxAck h)
  | Protocol.QueryTx id ip tx =>
      if refused then answer Protocol.RequestRefused
      else
        r ← send_sleet (handle_query_tx id ip tx);
        match r with
        | Reply id' h outcome => answer (Protocol.QueryTxAck id' h outcome)
        | Await id' h channel => mret (Awaiting id' h channel)
        end
  | Protocol.GetTxAncestors h =>
      if refused then answer Protocol.RequestRefused
      else
        txs ← send_sleet (reads (handle_get_tx_ancestors h)); answer (Protocol.TxAncestors txs)
  | Protocol.GetAcceptedFrontier =>
      f ← ask_sleet handle_get_accepted_frontier; answer (Protocol.AcceptedFrontier f)
  | Protocol.FetchTx h =>
      tx ← ask_sleet (handle_fetch_tx h); answer (Protocol.FetchedTx tx)
  | Protocol.GetLiveFrontier =>
      f ← ask_sleet handle_get_live_frontier; answer (Protocol.LiveFrontier f)
  | Protocol.GetBlock h =>
      b ← ask_hail (hail_get_block h); answer (Protocol.BlockAck b)
  | Protocol.GetBlockByHeight h =>
      b ← ask_hail (hail_get_block_by_height h); answer (Protocol.BlockAck b)
  | Protocol.QueryBlock _ b =>
      if refused then answer Protocol.RequestRefused
      else
        r ← send_hail (hail_query_block b); answer (Protocol.QueryBlockAck r.1.1 r.1.2 r.2)
  | Protocol.GetNodeStatus =>
      status ← gets (λ n, get_node_status (nd_alpha n) (nd_ice n) (nd_sleet n));
      answer (Protocol.NodeStatus status)
  | Protocol.GetAncestors => answer Protocol.Unknown
  end.

(** [Handler<ValidatorSet>] *)
Definition set_validator_set (validators : gset Id) n : Node := nd_set_validators validators n.

(** The messages of alpha for the router, delivered in order. *)
Definition deliver_router (es : list AlphaEffect) n : Node :=
  foldl (λ n e, match e with
                | SendValidatorSet vs => set_validator_set vs n
                | _ => n
                end) n es.

(** [Router::started]: alpha learns the address and sends the validators. *)
Definition router_started n : Node :=
  let '(a, es) := init_router (nd_alpha n) in deliver_router es (nd_set_alpha a n).

(** ** Starting a node (src/src/server/node.rs) *)
Section start.
Context {IC : IdCrates}.

(** The id of the node: that of the certificate, the one given, or that of the
    address. *)
Definition choose_node_id (cert : option bytes) (node_id : option Id) (listener_ip : SocketAddr) : Id :=
  match cert with
  | Some c => id_new c
  | None => match node_id with
            | None => from_ip listener_ip
            | Some id => id
            end
  end.

(** The states in which [run] starts the actors, on the databases that they open. *)
Definition start_actors (listener_ip : SocketAddr) (peers : list (Id * SocketAddr)) (id : Id)
    (tree known_txs known_blocks queried_blocks : Db) : Node :=
  mkNode (view_init peers (view_new listener_ip id))
    (ice_new id listener_ip reservoir_new)
    (alpha_create id tree)
    (sleet_new id listener_ip known_txs peers)
    (hail_new id known_blocks queried_blocks) ∅.
End start.
End router.

(** ** Properties *)

(** The requests that only validators may send. *)
Definition validator_only (r : Protocol.Request) : bool :=
  match r with
  | Protocol.QueryTx _ _ _ | Protocol.GetTxAncestors _ | Protocol.QueryBlock _ _ => true
  | _ => false
  end.

Section router_facts.
Context {CR : Crypto} {IO : IterOrder} {BP : BuildProfile} {SC : StateCodec} {SD : Sled}
  {BC : BlockCodec} {TC : TxCodec} {SO : Sortition} {RN : Rng}.
Implicit Types (n : Node) (m : RouterRequest).

Definition refuses n m : Prop :=
  rr_check_peer m = true ∧ (rr_peer_id m ∉ nd_validators n) ∧ validator_only (rr_request m) = true.

(** The components that a request may change. *)
Inductive changes : Protocol.Request → Node → Node → Prop :=
| changes_nothing r n : changes r n n
| changes_view id ip n v : changes (Protocol.Version id ip) n (nd_set_view v n)
| changes_ice ping n i : changes (Protocol.Ping ping) n (nd_set_ice i n)
| changes_sleet_new cell n s : changes (Protocol.GenerateTx cell) n (nd_set_sleet s n)
| changes_sleet_query id ip tx n s : changes (Protocol.QueryTx id ip tx) n (nd_set_sleet s n)
| changes_hail id b n h : changes (Protocol.QueryBlock id b) n (nd_set_hail h n).

Lemma send_sleet_state {E A} (m : st Sleet E A) n :
  ∃ s r, send_sleet m n = (nd_set_sleet s n, r).
Proof. unfold send_sleet, unwrap_st, zoom. destruct (m (nd_sleet n)) as [s r]. eauto. Qed.

Lemma send_hail_state {E A} (m : st Hail E A) n :
  ∃ h r, send_hail m n = (nd_set_hail h n, r).
Proof. unfold send_hail, unwrap_st, zoom. destruct (m (nd_hail n)) as [s r]. eauto. Qed.

Lemma send_sleet_read {E A} (f : Sleet → res E A) n :
  send_sleet (reads f) n = (n, unwrap_res (f (nd_sleet n))).
Proof.
  unfold send_sleet, unwrap_st, zoom, reads. destruct n; cbn.
  destruct (f _); reflexivity.
Qed.

Lemma send_alpha_read {E A} (f : Alpha → res E A) n :
  send_alpha (reads f) n = (n, unwrap_res (f (nd_alpha n))).
Proof.
  unfold send_alpha, unwrap_st, zoom, reads. destruct n; cbn.
  destruct (f _); reflexivity.
Qed.

(** What follows a call does not change the node any more. *)
Lemma bind_state {A B} (m : st Node Empty_set A) (k : A → st Node Empty_set B) n :
  (∀ a n0, (k a n0).1 = n0) → ((m ≫= k) n).1 = (m n).1.
Proof.
  intros Hk. unfold mbind, st_bind. destruct (m n) as [n1 [a|e| |]]; cbn; [apply Hk|done..].
Qed.

(** The result of a call followed by a reply. *)
Lemma bind_answer {A} (m : st Node Empty_set A) (f : A → Protocol.Response) n :
  ((m ≫= λ a, answer (f a)) n).2 = (a ← (m n).2; Ok (Answered (f a))).
Proof. unfold mbind, st_bind. by destruct (m n) as [n1 [a|e| |]]. Qed.

Lemma route_changes m n : changes (rr_request m) n (route m n).1.
Proof.
  unfold route. rewrite gets_bind. cbn zeta.
  destruct (rr_request m); try case_match; rewrite ?bind_state;
    try apply changes_nothing; try (intros [] ?; done); try done.
  - unfold send_view. destruct (view_version _ _ _). constructor.
  - unfold send_ice. destruct (ice_ping _ _). constructor.
  - unfold alpha_get_last_accepted. rewrite send_alpha_read. constructor.
  - destruct (send_sleet_state (handle_generate_tx cell) n) as (s & r & ->). constructor.
  - destruct (send_sleet_state (handle_query_tx id ip tx) n) as (s & r & ->). constructor.
  - rewrite send_sleet_read. constructor.
  - destruct (send_hail_state (hail_query_block block) n) as (s & r & ->). constructor.
Qed.

Lemma route_refuses m n : refuses n m → route m n = (n, Ok (Answered Protocol.RequestRefused)).
Proof.
  intros (Hc & Hp & Hv). unfold route. rewrite gets_bind. cbn zeta.
  rewrite Hc, bool_decide_eq_true_2 by done. cbn [andb]. by destruct (rr_request m).
Qed.

Lemma route_refused_inv m n :
  (route m n).2 = Ok (Answered Protocol.RequestRefused) → refuses n m.
Proof.
  unfold route, refuses. rewrite gets_bind. cbn zeta.
  destruct (rr_request m) eqn:Hr; cbn [validator_only];
    try case_match; rewrite ?bind_answer;
    try (intros (? & ? & ?)%res_bind_Ok_inv; discriminate); try discriminate;
    try (rewrite andb_true_iff, bool_decide_eq_true in *; naive_solver).
  unfold mbind, st_bind. destruct (send_sleet _ _) as [? [[]|[]| |]]; discriminate.
Qed.

(** What the router lets through.  A request is refused exactly when the peer is
    to be checked, is not a validator, and the request is one of [QueryTx],
    [GetTxAncestors] and [QueryBlock]; a refused request leaves the node as it was.
    Whatever a peer that is checked and no validator sends, alpha, hail and the set
    of validators stay as they are, sleet changes only by [GenerateTx], ice only by
    [Ping] and the view only by [Version]. *)
Theorem outsiders_do_not_vote m n :
  ((route m n).2 = Ok (Answered Protocol.RequestRefused) ↔ refuses n m) ∧
  (refuses n m → (route m n).1 = n) ∧
  (rr_check_peer m = true → (rr_peer_id m ∉ nd_validators n) →
   let n' := (route m n).1 in
   nd_alpha n' = nd_alpha n ∧ nd_hail n' = nd_hail n ∧ nd_validators n' = nd_validators n ∧
   (nd_sleet n' = nd_sleet n ∨ ∃ cell, rr_request m = Protocol.GenerateTx cell) ∧
   (nd_ice n' = nd_ice n ∨ ∃ ping, rr_request m = Protocol.Ping ping) ∧
   (nd_view n' = nd_view n ∨ ∃ id ip, rr_request m = Protocol.Version id ip)).
Proof.
  split_and!.
  - split; [apply route_refused_inv|]. by intros ->%route_refuses.
  - by intros ->%route_refuses.
  - intros Hc Hp n'.
    destruct (decide (validator_only (rr_request m) = true)) as [Hv|Hv].
    { subst n'. rewrite route_refuses by done. cbn. tauto. }
    pose proof (route_changes m n) as Hch. fold n' in Hch.
    destruct Hch; cbn in *; try done; split_and!; eauto.
Qed.

(** Once the router is up it admits the validators of alpha: the transaction and
    block queries of a peer that is checked are refused exactly when the state of
    alpha gives the peer no stake. *)
Theorem stakers_are_admitted n m :
  validator_only (rr_request m) = true → rr_check_peer m = true →
  (route m (router_started n)).2 = Ok (Answered Protocol.RequestRefused) ↔
  ¬ ∃ c, (rr_peer_id m, c) ∈ as_validators (al_state (nd_alpha n)) ∧ (0 < c)%Z.
Proof.
  intros Hv Hc.
  assert ((route m (router_started n)).2 = Ok (Answered Protocol.RequestRefused) ↔
    refuses (router_started n) m) as ->.
  { split; [apply route_refused_inv|]. by intros ->%route_refuses. }
  unfold refuses. cbn. unfold get_validator_set. cbn.
  rewrite elem_of_list_to_set, list_elem_of_omap. split.
  - intros (_ & Hn & _) (c & Hin & Hpos). apply Hn. exists (rr_peer_id m, c).
    split; [done|]. cbn. by rewrite (proj2 (Z.ltb_lt 0 c)).
  - intros Hn. split_and!; [done| |done]. intros ([i c] & Hin & Hc'). cbn in Hc'.
    destruct (Z.ltb_spec 0 c); [|done]. injection Hc' as ->. apply Hn. eauto.
Qed.
End router_facts.
