(* ===== verification/Files.v ===== *)
(** * Files.v: the files of a node
      (src/src/tls/certificate.rs; the key pair and the start in
      src/src/server/node.rs; the arguments in src/bin/main.rs)

    The file system of [std::fs] is a finite map of paths; permissions and full disks
    are not modelled.  The formats PEM, X.509 and hex, the generation of certificates
    and of key pairs belong to other crates: [CertCrates] and [KeyCrates] list what is
    used of them, the laws what their documentation says.  Random choices are a
    seed. *)

From stdpp Require Import prelude gmap list strings.
From Stdlib Require Import ZArith Lia Ascii String.
From S2P Require Import Prelude Orders Cell Instances Dag ConflictGraph Blocks Storage SledInstances BlockStorage.
From S2P Require Import Util Operations DependencyGraph AlphaState Sleet Hail Ice View Dissemination Alpha Ids Router.

(** ** [std::fs] *)

(** The components of a path; the empty path is the root. *)
Abbreviation Path := (list string).

Inductive Entry : Type := File (contents : bytes) | Dir.

Abbreviation Fs := (gmap (list string) Entry).

Inductive IoError : Type := NotFound | NotADirectory | IsADirectory | InvalidData.

Section fs.
Implicit Types (p : Path) (f : Fs) (c : bytes).

Definition entry f p : option Entry := match p with [] => Some Dir | _ => f !! p end.

(** [Path::exists] *)
Definition path_exists f p : bool := bool_decide (is_Some (entry f p)).

(** [Path::parent] *)
Definition parent p : option Path := match p with [] => None | _ => Some (removelast p) end.

(** [fs::read] *)
Definition fs_read f p : res IoError bytes :=
  match entry f p with
  | Some (File c) => Ok c
  | Some Dir => Err IsADirectory
  | None => Err NotFound
  end.

(** [fs::create_dir_all]: the missing directories from the root on. *)
Fixpoint create_dirs (pre todo : Path) : st Fs IoError unit :=
  match todo with
  | [] => mret tt
  | d :: todo' => λ f,
      let p := pre ++ [d] in
      match f !! p with
      | Some (File _) => (f, Err NotADirectory)
      | Some Dir => create_dirs p todo' f
      | None => create_dirs p todo' (<[p := Dir]> f)
      end
  end.
Definition create_dir_all p : st Fs IoError unit := create_dirs [] p.

(** [fs::write], and [File::create] with [write_all]: the file is created or replaced,
    its directory has to be there. *)
Definition fs_write p c : st Fs IoError unit := λ f,
  match entry f p with
  | Some Dir => (f, Err IsADirectory)
  | Some (File _) => (<[p := File c]> f, Ok tt)
  | None =>
      match entry f (removelast p) with
      | Some Dir => (<[p := File c]> f, Ok tt)
      | Some (File _) => (f, Err NotADirectory)
      | None => (f, Err NotFound)
      end
  end.
End fs.

(** ** Strings in files *)

(** [String::from_utf8]: which bytes are UTF-8. *)
Definition utf8_tail (lo hi z : Z) : bool := (lo <=? z)%Z && (z <=? hi)%Z.

Fixpoint utf8_valid (b : bytes) : bool :=
  match b with
  | [] => true
  | x :: b1 =>
      if (x <? 128)%Z then utf8_valid b1
      else match b1 with
      | [] => false
      | y :: b2 =>
          if utf8_tail 194 223 x then utf8_tail 128 191 y && utf8_valid b2
          else match b2 with
          | [] => false
          | z :: b3 =>
              if utf8_tail 224 239 x then
                utf8_tail (if (x =? 224)%Z then 160 else 128) (if (x =? 237)%Z then 159 else 191) y
                && utf8_tail 128 191 z && utf8_valid b3
              else match b3 with
              | [] => false
              | w :: b4 =>
                  utf8_tail 240 244 x
                  && utf8_tail (if (x =? 240)%Z then 144 else 128) (if (x =? 244)%Z then 143 else 191) y
                  && utf8_tail 128 191 z && utf8_tail 128 191 w && utf8_valid b4
              end
          end
      end
  end.

(** [String::from_utf8(..)], whose characters are the bytes. *)
Definition string_of_bytes (b : bytes) : string :=
  string_of_list_ascii ((λ z, ascii_of_nat (Z.to_nat z)) <$> b).

(** [read_to_string] *)
Definition fs_read_to_string (f : Fs) (p : Path) : res IoError string :=
  c ← fs_read f p;
  if utf8_valid c then Ok (string_of_bytes c) else Err InvalidData.

(** ** Certificates (src/src/tls/certificate.rs) *)
Module CertError.
Inductive Error : Type :=
| IoErr (e : IoError)
| TryFromStringError
| CertificateGenError
| CertificateReadError
| CertificateParseError.
End CertError.

Class CertCrates : Type := {
  (** [pem::parse(..)?.contents] and [pem::encode] *)
  pem_parse : bytes → option bytes;
  pem_encode : string → bytes → bytes;
  (** [X509Certificate::from_der]: whether it succeeds *)
  x509_from_der : bytes → bool;
  (** key pair and self-signed certificate by rcgen, as (certificate, private key) *)
  rcgen : nat → option (bytes * bytes)
}.

Class CertCratesLaws `{CertCrates} : Prop := {
  pem_round_trip : ∀ tag c, pem_parse (pem_encode tag c) = Some c;
  rcgen_valid : ∀ seed cert key, rcgen seed = Some (cert, key) → x509_from_der cert = true
}.

Section certificates.
Context `{CertCrates}.
Implicit Types (f : Fs) (cert_file priv_key_file : Path).

(** [?] on an I/O error *)
Definition cert_io {A} (r : res IoError A) : res CertError.Error A := map_err CertError.IoErr r.

Definition generate_node_cert (seed : nat) : res CertError.Error (bytes * bytes) :=
  ok_or (rcgen seed) CertError.CertificateGenError.

Definition der_to_pem (contents : bytes) (tag : string) : bytes := pem_encode tag contents.

(** The directory of a file is created; a failure panics. *)
Definition create_parent (p : Path) : st Fs CertError.Error unit :=
  match parent p with
  | Some d => unwrap_st (create_dir_all d)
  | None => mret tt
  end.

Definition get_node_cert cert_file priv_key_file (seed : nat) :
    st Fs CertError.Error (bytes * bytes) :=
  both ← gets (λ f, path_exists f cert_file && path_exists f priv_key_file);
  if (both : bool) then
    cert_pem ← reads (λ f, cert_io (fs_read f cert_file));
    cert ← of_res (ok_or (pem_parse cert_pem) CertError.CertificateReadError);
    key_pem ← reads (λ f, cert_io (fs_read f priv_key_file));
    key ← of_res (ok_or (pem_parse key_pem) CertError.CertificateReadError);
    if x509_from_der cert then mret (cert, key) else throw CertError.CertificateParseError
  else
    generated ← of_res (generate_node_cert seed);
    let pem_cert := der_to_pem generated.1 "CERTIFICATE" in
    let pem_key := der_to_pem generated.2 "PRIVATE KEY" in
    create_parent cert_file;;
    create_parent priv_key_file;;
    zoom (λ f, f) (λ f _, f) CertError.IoErr (fs_write cert_file pem_cert);;
    zoom (λ f, f) (λ f _, f) CertError.IoErr (fs_write priv_key_file pem_key);;
    mret generated.
End certificates.

(** ** Key pairs and the start of a node (src/src/server/node.rs) *)
Class KeyCrates `{Crypto} : Type := {
  hex_encode : bytes → string;
  hex_decode : string → option bytes;
  (** [Keypair::from_bytes], [to_bytes] and [generate] *)
  keypair_from_bytes : bytes → option Keypair;
  keypair_to_bytes : Keypair → bytes;
  keypair_generate : nat → Keypair
}.

Class KeyCratesLaws `{KeyCrates} : Prop := {
  hex_round_trip : ∀ kp, hex_decode (hex_encode (keypair_to_bytes kp)) = Some (keypair_to_bytes kp);
  (** hex digits are ASCII *)
  hex_utf8 : ∀ s b, hex_decode s = Some b → utf8_valid (string_bytes s) = true;
  keypair_round_trip : ∀ kp, keypair_from_bytes (keypair_to_bytes kp) = Some kp
}.

(** The command line of a node, as [run] gets it. *)
Record RunArgs : Type := mkRunArgs {
  ra_ip : string;
  ra_bootstrap_peers : list string;
  ra_keypair : option string;
  ra_use_tls : bool;
  ra_cert_path : option Path;
  ra_pk_path : option Path;
  ra_node_id : option Id
}.

Section start.
Context {CR : Crypto} {CC : CertCrates} {KC : KeyCrates} {IC : IdCrates} {SD : Sled}
  {IO : IterOrder} {BP : BuildProfile} {SC : StateCodec} {BC : BlockCodec}.
Implicit Types (f : Fs) (a : RunArgs).

(** A method of the file system whose failure panics. *)
Definition fs_unwrap {A} (m : st Fs IoError A) : st Fs CrateError.Error A := unwrap_st m.
(** [?] on an I/O error *)
Definition fs_try {A} (m : st Fs IoError A) : st Fs CrateError.Error A :=
  zoom (λ f, f) (λ f _, f) (λ _, CrateError.IO) m.

(** [/tmp/<node_id>] and the file of the key pair in it *)
Definition keypair_dir (node_id : string) : Path := ["tmp"; node_id].
Definition keypair_path (node_id : string) : Path := ["tmp"; node_id; node_id +:+ ".keypair"].

(** [run] stores the key pair before it is decoded. *)
Definition store_keypair (node_id keypair_hex : string) : st Fs CrateError.Error Keypair :=
  fs_unwrap (create_dir_all (keypair_dir node_id));;
  fs_unwrap (fs_write (keypair_path node_id) (string_bytes keypair_hex));;
  b ← of_res (unwrap (hex_decode keypair_hex));
  of_res (unwrap (keypair_from_bytes b)).

Definition read_or_generate_keypair (node_id : string) (seed : nat) :
    st Fs CrateError.Error Keypair :=
  fs_unwrap (create_dir_all (keypair_dir node_id));;
  opened ← gets (λ f, path_exists f (keypair_path node_id));
  if (opened : bool) then
    contents ← fs_try (reads (λ f, fs_read_to_string f (keypair_path node_id)));
    b ← of_res (unwrap (hex_decode contents));
    of_res (ok_or (keypair_from_bytes b) CrateError.Dalek)
  else
    let keypair := keypair_generate seed in
    fs_unwrap (create_dir_all (keypair_dir node_id));;
    fs_try (fs_write (keypair_path node_id) (string_bytes (hex_encode (keypair_to_bytes keypair))));;
    mret keypair.

(** The certificate, when TLS is used. *)
Definition load_certificate a (seed : nat) : st Fs CrateError.Error (option bytes) :=
  if ra_use_tls a then
    cert_path ← of_res (unwrap (ra_cert_path a));
    pk_path ← of_res (unwrap (ra_pk_path a));
    r ← unwrap_st (get_node_cert cert_path pk_path seed);
    mret (Some r.1)
  else mret None.

(** [run], up to the start of the actors, which open the databases; the upgraders that
    it makes from the certificate are those of Tls.v. *)
Definition run a (seed : nat) (tree known_txs known_blocks queried_blocks : Db) :
    st Fs CrateError.Error Node :=
  listener_ip ← of_res (resolve (ra_ip a));
  peers ← of_res (try_map (λ p, unwrap_res (parse_id_and_ip p)) (ra_bootstrap_peers a));
  cert ← load_certificate a seed;
  let id := choose_node_id cert (ra_node_id a) listener_ip in
  keypair_hex ← of_res (unwrap (ra_keypair a));
  store_keypair (hex_encode id) keypair_hex;;
  mret (start_actors listener_ip peers id tree known_txs known_blocks queried_blocks).
(** *** The command line (src/bin/main.rs)

    What clap found; a value that is missing where it is needed ends the program. *)
Record Matches : Type := mkMatches {
  m_listener_ip : option string;
  m_bootstrap_peer : option (list string);
  m_keypair : option string;
  m_use_tls : bool;
  m_cert_path : option string;
  m_pk_path : option string;
  m_node_id : option string
}.

Inductive MainError : Type := Exit.

(** [Path::new], relative to the root *)
Definition path_new (s : string) : Path :=
  filter (λ c, c ≠ EmptyString ∧ c ≠ "."%string) (str_split "/"%char s).

(** [value_t!(..).unwrap_or_else(|e| e.exit())] *)
Definition or_exit {A} (o : option A) : res MainError A := ok_or o Exit.

Definition main_args (m : Matches) : res MainError RunArgs :=
  listener_ip ← or_exit (m_listener_ip m);
  bootstrap_peers ← or_exit (m_bootstrap_peer m);
  cert_path ← (if m_use_tls m then p ← or_exit (m_cert_path m); Ok (Some (path_new p)) else Ok None);
  pk_path ← (if m_use_tls m then p ← or_exit (m_pk_path m); Ok (Some (path_new p)) else Ok None);
  node_id ← match m_node_id m with
            | Some s => id ← unwrap_res (id_from_str s); Ok (Some id)
            | None => Ok None
            end;
  Ok (mkRunArgs listener_ip bootstrap_peers (m_keypair m) (m_use_tls m) cert_path pk_path node_id).
End start.

(** ** Properties of the file system *)
Section fs_facts.
Implicit Types (p q : Path) (f : Fs) (c : bytes).

(** [f'] has the directories of [f], and the files of [f] outside [ps]. *)
Record grows (ps : list Path) f f' : Prop := {
  gr_dirs : ∀ q, f !! q = Some Dir → f' !! q = Some Dir;
  gr_files : ∀ q c, q ∉ ps → f !! q = Some (File c) → f' !! q = Some (File c)
}.

Lemma grows_refl ps f : grows ps f f.
Proof. by split. Qed.

Lemma grows_trans ps f1 f2 f3 : grows ps f1 f2 → grows ps f2 f3 → grows ps f1 f3.
Proof. intros [H1 H1'] [H2 H2']. split; eauto. Qed.

Lemma grows_weaken ps ps' f f' : ps ⊆ ps' → grows ps f f' → grows ps' f f'.
Proof. intros Hs [H1 H2]. split; [done|]. intros q c Hq. apply H2. set_solver. Qed.

(** The directories on the way from [pre] to [pre ++ todo]. *)
Definition dirs_exist f (pre todo : Path) : Prop :=
  ∀ i, i < List.length todo → f !! (pre ++ take (S i) todo) = Some Dir.

Lemma dirs_exist_grows ps f f' pre todo :
  grows ps f f' → dirs_exist f pre todo → dirs_exist f' pre todo.
Proof. intros Hg Hd i Hi. by apply (gr_dirs ps f f' Hg), Hd. Qed.

Lemma dirs_exist_cons f pre d todo :
  dirs_exist f pre (d :: todo) ↔ f !! (pre ++ [d]) = Some Dir ∧ dirs_exist f (pre ++ [d]) todo.
Proof.
  unfold dirs_exist. split.
  - intros Hd. split; [apply (Hd 0); cbn; lia|]. intros i Hi. rewrite <- app_assoc.
    apply (Hd (S i)). cbn. lia.
  - intros [H0 Hd] [|i] Hi; [done|]. cbn in *. specialize (Hd i ltac:(lia)).
    by rewrite <- app_assoc in Hd.
Qed.

Lemma create_dirs_spec pre todo f f' :
  create_dirs pre todo f = (f', Ok tt) → grows [] f f' ∧ dirs_exist f' pre todo.
Proof.
  revert pre f. induction todo as [|d todo IH]; intros pre f; cbn.
  { intros [= <-]. split; [apply grows_refl|]. intros i. cbn. lia. }
  rewrite dirs_exist_cons. destruct (f !! (pre ++ [d])) as [[c|]|] eqn:Hd; [done| |].
  - intros [Hg Hex]%IH. split_and!; [done| |done]. by apply (gr_dirs [] f f').
  - intros [Hg Hex]%IH. split_and!; [|apply (gr_dirs [] _ _ Hg), lookup_insert_eq|done].
    eapply grows_trans; [|exact Hg]. split; intros q; intros; rewrite lookup_insert_ne; congruence.
Qed.

Lemma create_dirs_id pre todo f : dirs_exist f pre todo → create_dirs pre todo f = (f, Ok tt).
Proof.
  revert pre. induction todo as [|d todo IH]; intros pre; [done|].
  rewrite dirs_exist_cons. intros [Hd Hex]. cbn. rewrite Hd. by apply IH.
Qed.

Lemma fs_write_spec p c f f' :
  fs_write p c f = (f', Ok tt) → p ≠ [] ∧ f' = <[p := File c]> f ∧ f !! p ≠ Some Dir.
Proof.
  unfold fs_write. destruct p as [|d p]; [done|].
  change (entry f (d :: p)) with (f !! (d :: p)).
  destruct (f !! (d :: p)) as [[c'|]|] eqn:Hp; [by intros [= <-]|done|].
  destruct (entry f (removelast (d :: p))) as [[]|]; try done. by intros [= <-].
Qed.

Lemma fs_write_grows p c f f' : fs_write p c f = (f', Ok tt) → grows [p] f f'.
Proof.
  intros (_ & -> & Hd)%fs_write_spec. split.
  - intros q Hq. rewrite lookup_insert_ne; [done|]. by intros ->.
  - intros q c' Hq Hf. rewrite lookup_insert_ne; [done|]. set_solver.
Qed.

Lemma fs_write_id p c f : p ≠ [] → f !! p = Some (File c) → fs_write p c f = (f, Ok tt).
Proof.
  intros Hp Hf. unfold fs_write, entry. destruct p; [done|]. rewrite Hf. by rewrite insert_id.
Qed.

Lemma fs_read_file p c f : p ≠ [] → f !! p = Some (File c) → fs_read f p = Ok c.
Proof. intros Hp Hf. unfold fs_read, entry. destruct p; [done|]. by rewrite Hf. Qed.

Lemma fs_read_Ok p c f : fs_read f p = Ok c → p ≠ [] ∧ f !! p = Some (File c).
Proof.
  unfold fs_read, entry. destruct p; [done|].
  destruct (f !! _) as [[]|] eqn:Hf; try done. by intros [= ->].
Qed.
End fs_facts.

Lemma fs_zoom_Ok_inv {E F A} (conv : E → F) (m : st Fs E A) f f' a :
  zoom (λ f, f) (λ f _, f) conv m f = (f', Ok a) → m f = (f', Ok a).
Proof. unfold zoom. destruct (m f) as [t [x|e| |]]; cbn; intros; by simplify_eq. Qed.

Lemma of_res_Ok_inv {S E A} (r : res E A) (s s' : S) a :
  of_res r s = (s', Ok a) → s' = s ∧ r = Ok a.
Proof. by intros [= -> ->]. Qed.

Lemma unwrap_Ok_inv {E A} (o : option A) a : unwrap (E:=E) o = Ok a → o = Some a.
Proof. destruct o; [by intros [= ->]|done]. Qed.

(** ** Certificates *)
Section cert_facts.
Context `{CertCratesLaws}.
Implicit Types (f : Fs) (c k : Path) (cert key : bytes).

(** The two files hold the certificate and the private key. *)
Record cert_stored f c k cert key : Prop := {
  cs_cert : ∃ pem, fs_read f c = Ok pem ∧ pem_parse pem = Some cert;
  cs_key : ∃ pem, fs_read f k = Ok pem ∧ pem_parse pem = Some key;
  cs_valid : x509_from_der cert = true
}.

Lemma fs_read_exists f p x : fs_read f p = Ok x → path_exists f p = true.
Proof.
  intros [Hp Hf]%fs_read_Ok. unfold path_exists, entry. destruct p; [done|]. by rewrite Hf.
Qed.

Lemma get_stored_cert f c k cert key seed :
  cert_stored f c k cert key → get_node_cert c k seed f = (f, Ok (cert, key)).
Proof.
  intros [(pc & Hc & Hpc) (pk & Hk & Hpk) Hv]. unfold get_node_cert. rewrite gets_bind.
  rewrite (fs_read_exists f c pc), (fs_read_exists f k pk) by done. cbn [andb].
  erewrite reads_bind_Ok by (by rewrite Hc). erewrite st_bind_Ok by (by rewrite Hpc).
  erewrite reads_bind_Ok by (by rewrite Hk). erewrite st_bind_Ok by (by rewrite Hpk).
  by rewrite Hv.
Qed.

(** What a successful call leaves behind. *)
Lemma get_node_cert_stores f c k seed f' cert key :
  c ≠ k → get_node_cert c k seed f = (f', Ok (cert, key)) → cert_stored f' c k cert key.
Proof.
  intros Hne. unfold get_node_cert. rewrite gets_bind. destruct (_ && _).
  - intros (f1 & pc & [-> Hc]%reads_Ok_inv & Heq)%st_bind_Ok_inv.
    apply st_bind_Ok_inv in Heq as (f1 & c0 & [-> Hpc]%of_res_Ok_inv & Heq).
    apply st_bind_Ok_inv in Heq as (f1 & pk & [-> Hk]%reads_Ok_inv & Heq).
    apply st_bind_Ok_inv in Heq as (f1 & k0 & [-> Hpk]%of_res_Ok_inv & Heq).
    apply map_err_Ok_inv in Hc, Hk. destruct (x509_from_der c0) eqn:Hv; [|done].
    injection Heq as <- <- <-. split; [| |done].
    + exists pc. split; [done|]. by destruct (pem_parse pc); simplify_eq/=.
    + exists pk. split; [done|]. by destruct (pem_parse pk); simplify_eq/=.
  - intros (f1 & [cert0 key0] & [-> Hg]%of_res_Ok_inv & Heq)%st_bind_Ok_inv. cbn zeta in Heq.
    apply st_bind_Ok_inv in Heq as (f1 & [] & _ & Heq).
    apply st_bind_Ok_inv in Heq as (f2 & [] & _ & Heq).
    apply st_bind_Ok_inv in Heq as (f3 & [] & Hwc%fs_zoom_Ok_inv & Heq).
    apply st_bind_Ok_inv in Heq as (f4 & [] & Hwk%fs_zoom_Ok_inv & [= -> -> ->]).
    apply fs_write_spec in Hwc as (Hc0 & -> & _), Hwk as (Hk0 & -> & _). split.
    + eexists. split; [|apply pem_round_trip]. apply fs_read_file; [done|].
      by rewrite lookup_insert_ne, lookup_insert_eq.
    + eexists. split; [|apply pem_round_trip]. apply fs_read_file; [done|]. apply lookup_insert_eq.
    + unfold generate_node_cert in Hg. destruct (rcgen seed) as [[]|] eqn:Hr; [|done].
      injection Hg as -> ->. by eapply rcgen_valid.
Qed.

Lemma cert_stored_grows ps f f' c k cert key :
  grows ps f f' → c ∉ ps → k ∉ ps → cert_stored f c k cert key → cert_stored f' c k cert key.
Proof.
  intros Hg Hc Hk [(pc & [? Hfc]%fs_read_Ok & ?) (pk & [? Hfk]%fs_read_Ok & ?) ?].
  split; [exists pc|exists pk|done]; (split; [|done]); apply fs_read_file; try done;
    by apply (gr_files ps f f' Hg).
Qed.

(** The identity of a node survives a restart: after a call that returned, every later
    call returns the same certificate and key, whatever would be generated, and changes
    no file; the two paths have to differ. *)
Theorem node_cert_stable f c k seed f' r :
  c ≠ k → get_node_cert c k seed f = (f', Ok r) →
  ∀ seed', get_node_cert c k seed' f' = (f', Ok r).
Proof. intros Hne Heq seed'. destruct r. by eapply get_stored_cert, get_node_cert_stores. Qed.
End cert_facts.

(** ** Key pairs *)
Lemma string_of_bytes_id s : string_of_bytes (string_bytes s) = s.
Proof.
  unfold string_of_bytes, string_bytes. rewrite <- list_fmap_compose.
  rewrite <- (string_of_list_ascii_of_string s) at 2. f_equal.
  induction (list_ascii_of_string s) as [|a l IH]; [done|]. cbn. rewrite IH. f_equal.
  by rewrite Nat2Z.id, ascii_nat_embedding.
Qed.

Section start_facts.
Context {CR : Crypto} {CC : CertCrates} {CL : CertCratesLaws} {KC : KeyCrates} {KL : KeyCratesLaws}
  {IC : IdCrates} {SD : Sled} {IO : IterOrder} {BP : BuildProfile} {SC : StateCodec}
  {BC : BlockCodec}.
Implicit Types (f : Fs) (a : RunArgs) (kp : Keypair) (id hex : string).

(** The file of the key pair is there with its directories, and can be decoded. *)
Record keypair_stored f id hex kp : Prop := {
  ks_dirs : dirs_exist f [] (keypair_dir id);
  ks_file : f !! keypair_path id = Some (File (string_bytes hex));
  ks_decodes : ∃ b, hex_decode hex = Some b ∧ keypair_from_bytes b = Some kp
}.

Lemma read_stored_keypair f id hex kp seed :
  keypair_stored f id hex kp → read_or_generate_keypair id seed f = (f, Ok kp).
Proof.
  intros [Hd Hf (b & Hb & Hk)]. unfold read_or_generate_keypair.
  erewrite st_bind_Ok by (by apply unwrap_st_Ok, create_dirs_id).
  rewrite gets_bind. erewrite fs_read_exists by (by apply fs_read_file, Hf).
  erewrite st_bind_Ok.
  2: { eapply zoom_Ok. unfold reads, fs_read_to_string. erewrite fs_read_file by (by try apply Hf).
       cbn. erewrite hex_utf8 by done. by rewrite string_of_bytes_id. }
  erewrite st_bind_Ok by (by rewrite Hb). by rewrite Hk.
Qed.

Lemma write_keypair_stored f f1 f' id hex kp b :
  create_dir_all (keypair_dir id) f = (f1, Ok tt) →
  fs_write (keypair_path id) (string_bytes hex) f1 = (f', Ok tt) →
  hex_decode hex = Some b → keypair_from_bytes b = Some kp →
  keypair_stored f' id hex kp ∧ grows [keypair_path id] f f'.
Proof.
  intros [Hg Hd]%create_dirs_spec Hw Hb Hk. pose proof (fs_write_grows _ _ _ _ Hw) as Hg'. split.
  - split; [by eapply dirs_exist_grows| |eauto].
    apply fs_write_spec in Hw as (_ & -> & _). apply lookup_insert_eq.
  - eapply grows_trans; [|exact Hg']. eapply grows_weaken, Hg. set_solver.
Qed.

Lemma store_keypair_stores f f' id hex kp :
  store_keypair id hex f = (f', Ok kp) →
  keypair_stored f' id hex kp ∧ grows [keypair_path id] f f'.
Proof.
  intros (f1 & [] & Hd%unwrap_st_Ok_inv & Heq)%st_bind_Ok_inv.
  apply st_bind_Ok_inv in Heq as (f2 & [] & Hw%unwrap_st_Ok_inv & Heq).
  apply st_bind_Ok_inv in Heq as (f3 & b & [-> Hb%unwrap_Ok_inv]%of_res_Ok_inv & Heq).
  apply of_res_Ok_inv in Heq as [-> Hk%unwrap_Ok_inv]. by eapply write_keypair_stored.
Qed.

Lemma store_keypair_again f id hex kp :
  keypair_stored f id hex kp → store_keypair id hex f = (f, Ok kp).
Proof.
  intros [Hd Hf (b & Hb & Hk)]. unfold store_keypair.
  erewrite st_bind_Ok by (by apply unwrap_st_Ok, create_dirs_id).
  erewrite st_bind_Ok by (by apply unwrap_st_Ok, fs_write_id).
  erewrite st_bind_Ok by (by rewrite Hb). by rewrite Hk.
Qed.

(** A key pair that [run] has stored, or that was generated, is read back by every
    later call. *)
Theorem keypair_persists f f' id kp :
  (∃ hex, store_keypair id hex f = (f', Ok kp)) ∨
  (∃ seed, read_or_generate_keypair id seed f = (f', Ok kp)) →
  ∀ seed, read_or_generate_keypair id seed f' = (f', Ok kp).
Proof.
  intros [[hex Hs]|[seed0 Hg]] seed.
  - apply store_keypair_stores in Hs as [Hs _]. by eapply read_stored_keypair.
  - unfold read_or_generate_keypair in Hg.
    apply st_bind_Ok_inv in Hg as (f1 & [] & Hd%unwrap_st_Ok_inv & Heq). rewrite gets_bind in Heq.
    destruct (path_exists f1 _) eqn:Hex.
    + apply st_bind_Ok_inv in Heq as (f2 & hex & Hr%fs_zoom_Ok_inv & Heq).
      apply reads_Ok_inv in Hr as [-> Hr].
      apply st_bind_Ok_inv in Heq as (f3 & b & [-> Hb%unwrap_Ok_inv]%of_res_Ok_inv & Heq).
      apply of_res_Ok_inv in Heq as [-> Hk]. apply create_dirs_spec in Hd as [_ Hd].
      unfold read_or_generate_keypair.
      erewrite st_bind_Ok by (by apply unwrap_st_Ok, create_dirs_id).
      rewrite gets_bind, Hex. erewrite st_bind_Ok by (by apply zoom_Ok; unfold reads; rewrite Hr).
      erewrite st_bind_Ok by (by rewrite Hb). by rewrite Hk.
    + cbn zeta in Heq.
      apply st_bind_Ok_inv in Heq as (f2 & [] & Hd2%unwrap_st_Ok_inv & Heq).
      apply st_bind_Ok_inv in Heq as (f3 & [] & Hw%fs_zoom_Ok_inv & [= <- <-]).
      eapply read_stored_keypair, write_keypair_stored; [done..|apply hex_round_trip|].
      apply keypair_round_trip.
Qed.

(** The files that the arguments name do not get in the way of each other. *)
Definition paths_apart a : Prop :=
  ∀ c k, ra_cert_path a = Some c → ra_pk_path a = Some k →
    c ≠ k ∧ ∀ id, c ≠ keypair_path id ∧ k ≠ keypair_path id.

(** Loading the certificate again, also after files other than its own were written. *)
Lemma load_again a seed f f1 f2 cert ps :
  paths_apart a → (∀ p, p ∈ ps → ∃ id, p = keypair_path id) →
  load_certificate a seed f = (f1, Ok cert) → grows ps f1 f2 →
  ∀ seed', load_certificate a seed' f2 = (f2, Ok cert).
Proof.
  unfold load_certificate. intros Hap Hps Heq Hg seed'.
  destruct (ra_use_tls a); [|by injection Heq as <- <-].
  apply st_bind_Ok_inv in Heq as (f3 & c & [-> Hc%unwrap_Ok_inv]%of_res_Ok_inv & Heq).
  apply st_bind_Ok_inv in Heq as (f3 & k & [-> Hk%unwrap_Ok_inv]%of_res_Ok_inv & Heq).
  apply st_bind_Ok_inv in Heq as (f3 & [cert0 key0] & Hr%unwrap_st_Ok_inv & [= -> <-]).
  destruct (Hap c k Hc Hk) as [Hne Hapart].
  erewrite st_bind_Ok by (by rewrite Hc). erewrite st_bind_Ok by (by rewrite Hk).
  erewrite st_bind_Ok; [|apply unwrap_st_Ok, get_stored_cert; eapply cert_stored_grows; [exact Hg|..]].
  - done.
  - intros (id & ->)%Hps. by destruct (Hapart id).
  - intros (id & ->)%Hps. by destruct (Hapart id).
  - by eapply get_node_cert_stores.
Qed.

(** C30: A node that is started again is the same node.  When [run] succeeds, its
    certificate and its key pair are on disk, and every later start with the same
    arguments on the same databases succeeds, changes no file, and gives the actors
    the same states: with TLS the id stays the hash of the certificate that the first
    start generated or found, although each start would generate another one. *)
Theorem restart_same_node a seed f f' n tree txs blocks queried :
  paths_apart a →
  run a seed tree txs blocks queried f = (f', Ok n) →
  (∀ seed', run a seed' tree txs blocks queried f' = (f', Ok n)) ∧
  ∃ hex kp, ra_keypair a = Some hex ∧
    ∀ seed', read_or_generate_keypair (hex_encode (hl_node_id (nd_hail n))) seed' f' = (f', Ok kp).
Proof.
  intros Hap Heq. unfold run in Heq.
  apply st_bind_Ok_inv in Heq as (f0 & ip & [-> Hip]%of_res_Ok_inv & Heq).
  apply st_bind_Ok_inv in Heq as (f0 & peers & [-> Hpeers]%of_res_Ok_inv & Heq).
  apply st_bind_Ok_inv in Heq as (f1 & cert & Hcert & Heq). cbn zeta in Heq.
  apply st_bind_Ok_inv in Heq as (f2 & hex & [-> Hhex]%of_res_Ok_inv & Heq).
  apply st_bind_Ok_inv in Heq as (f3 & kp & Hs & [= -> <-]).
  apply store_keypair_stores in Hs as [Hs Hg]. split.
  - intros seed'. unfold run. erewrite st_bind_Ok by (by rewrite Hip).
    erewrite st_bind_Ok by (by rewrite Hpeers). erewrite st_bind_Ok.
    2: { eapply load_again; [done| |exact Hcert|exact Hg]. intros p ->%list_elem_of_singleton. eauto. }
    cbn zeta. erewrite st_bind_Ok by (by rewrite Hhex).
    by erewrite st_bind_Ok by (by apply store_keypair_again).
  - exists hex, kp. apply unwrap_Ok_inv in Hhex. split; [done|]. intros seed'.
    eapply read_stored_keypair. exact Hs.
Qed.
End start_facts.

(** ** The ids of a started node *)
Section start_types.
Context {CR : Crypto} {CC : CertCrates} {KC : KeyCrates} {IC : IdCrates} {IL : IdCratesLaws}
  {SD : Sled} {IO : IterOrder}.
Implicit Types (id : Id) (peers : list (Id * SocketAddr)) (v : View).

(** Every id in the states in which the actors start: the own id in each actor, and
    those of the peers of the view and of sleet. *)
Definition own_ids (n : Node) : list Id :=
  [vw_node_id (nd_view n); ic_id (nd_ice n); al_node_id (nd_alpha n); sl_node_id (nd_sleet n);
   hl_node_id (nd_hail n)].
Definition peer_ids (n : Node) : list Id :=
  (map_to_list (sm_map (vw_peers (nd_view n)))).*1 ++ (elements (vw_peer_list (nd_view n))).*1 ++
  (sl_bootstrap_peers (nd_sleet n)).*1.

(** The ids of a view satisfy [P]. *)
Record view_ids (P : Id → Prop) v : Prop := {
  vi_peers : ∀ id ip, sm_map (vw_peers v) !! id = Some ip → P id;
  vi_list : ∀ p, p ∈ vw_peer_list v → P p.1
}.

Lemma list_peer_ids P id ip v : P id → view_ids P v → view_ids P (list_peer id ip v).
Proof.
  intros Hid [Hp Hl]. unfold list_peer. destruct (_ <? _)%nat; [|done].
  case_bool_decide; [|done]. split; [exact Hp|]. cbn. intros p.
  rewrite elem_of_union, elem_of_singleton. intros [->|?]; [done|by apply Hl].
Qed.

Lemma view_init_ids P peers v :
  Forall (λ p, P p.1) peers → view_ids P v →
  view_ids P (view_init peers v) ∧ vw_node_id (view_init peers v) = vw_node_id v.
Proof.
  revert v. induction peers as [|[id ip] peers IH]; intros v Hall Hv; [done|].
  apply Forall_cons in Hall as [Hid Hall]. unfold view_init. cbn [foldl fst snd].
  destruct (IH (list_peer id ip (vw_set_peers (sm_insert id ip (vw_peers v)).1 v)) Hall) as [H1 H2].
  - apply list_peer_ids; [done|]. destruct Hv as [Hp Hl]. split; [|exact Hl]. cbn. intros j q.
    destruct (decide (j = id)) as [->|Hne]; [done|]. rewrite lookup_insert_ne by done. apply Hp.
  - split; [exact H1|]. etransitivity; [exact H2|]. unfold list_peer.
    destruct (_ <? _)%nat; [by case_bool_decide|done].
Qed.

Lemma parsed_id_array s id a : parse_id_and_ip s = Ok (id, a) → array 32 id.
Proof.
  unfold parse_id_and_ip. destruct (str_split _ s) as [|p [|ip [|]]]; [done| | |done].
  - intros (b & _ & [= <- _])%res_bind_Ok_inv. apply blake2b_array.
  - intros (i & Hi%map_err_Ok_inv & (b & _ & [= <- _])%res_bind_Ok_inv)%res_bind_Ok_inv.
    by apply id_from_str_Ok in Hi as [_ ?].
Qed.

Lemma parsed_peers_arrays ss peers :
  try_map (λ p, unwrap_res (E:=CrateError.Error) (F:=CrateError.Error) (parse_id_and_ip p)) ss = Ok peers →
  Forall (λ p, array 32 p.1) peers.
Proof.
  revert peers. induction ss as [|s ss IH]; intros peers; cbn; [by intros [= <-]|].
  destruct (parse_id_and_ip s) as [[id a]| | |] eqn:Hs; cbn; try done.
  intros (l & Hl & [= <-])%res_bind_Ok_inv. constructor; [by eapply parsed_id_array|by apply IH].
Qed.

Lemma main_node_id m a id : main_args m = Ok a → ra_node_id a = Some id → array 32 id.
Proof.
  unfold main_args.
  intros (? & _ & (? & _ & (? & _ & (? & _ & (o & Ho & [= <-])%res_bind_Ok_inv)%res_bind_Ok_inv)%res_bind_Ok_inv)%res_bind_Ok_inv)%res_bind_Ok_inv.
  cbn. intros ->. destruct (m_node_id m) as [s|]; [|done].
  destruct (id_from_str s) as [i| | |] eqn:Hi; try done. injection Ho as <-.
  by apply id_from_str_Ok in Hi as [_ ?].
Qed.

Lemma run_Ok_inv a seed tree txs blocks queried f f' n :
  run a seed tree txs blocks queried f = (f', Ok n) →
  ∃ ip peers cert,
    try_map (λ p, unwrap_res (E:=CrateError.Error) (F:=CrateError.Error) (parse_id_and_ip p))
      (ra_bootstrap_peers a) = Ok peers ∧
    n = start_actors ip peers (choose_node_id cert (ra_node_id a) ip) tree txs blocks queried.
Proof.
  unfold run.
  intros (f1 & ip & [_ Hip]%of_res_Ok_inv & (f2 & peers & [_ Hp]%of_res_Ok_inv & (f3 & cert & _ & Hr)%st_bind_Ok_inv)%st_bind_Ok_inv)%st_bind_Ok_inv.
  destruct (st_bind_Ok_inv _ _ _ _ _ Hr) as (f4 & hex & _ & (f5 & kp & _ & [= _ <-])%st_bind_Ok_inv).
  by exists ip, peers, cert.
Qed.

(** The ids of a node are arrays of 32 bytes.  When the command line is accepted and
    [run] starts the actors, every actor has the same id of its own, and it and the ids
    of all peers that the view and sleet start with are arrays of 32 bytes, wherever they
    come from: a certificate, the command line or an address. *)
Theorem started_ids_typed m a seed tree txs blocks queried f f' n :
  main_args m = Ok a → run a seed tree txs blocks queried f = (f', Ok n) →
  Forall (array 32) (own_ids n) ∧ Forall (array 32) (peer_ids n) ∧
  ∃ id, own_ids n = replicate 5 id.
Proof.
  intros Hm Hr. apply run_Ok_inv in Hr as (ip & peers & cert & Hp%parsed_peers_arrays & ->).
  set (id := choose_node_id cert (ra_node_id a) ip).
  assert (array 32 id) as Hid.
  { unfold id, choose_node_id. destruct cert; [apply blake2b_array|].
    destruct (ra_node_id a) eqn:Hn; [by eapply main_node_id|apply blake2b_array]. }
  destruct (view_init_ids (array 32) peers (view_new ip id) Hp) as [[Hv Hl] Hn]; [by split|].
  assert (own_ids (start_actors ip peers id tree txs blocks queried) = replicate 5 id) as Hown.
  { unfold own_ids, start_actors. cbn in Hn |- *. by rewrite Hn. }
  split_and!; [rewrite Hown; by apply Forall_replicate| |by exists id].
  unfold peer_ids, start_actors. cbn [nd_view nd_sleet sl_bootstrap_peers sleet_new].
  rewrite !Forall_app, !Forall_fmap, !Forall_forall. split_and!.
  - intros [j q] Hj%elem_of_map_to_list. by apply (Hv j q).
  - intros p Hj%elem_of_elements. by apply Hl.
  - rewrite Forall_forall in Hp. exact Hp.
Qed.
End start_types.

(** ** Witness *)
Section files_witness.
(** Two key pairs. *)
Definition two_keys_crypto : Crypto := {|
  blake3 b := b;
  ser_bytes b := b;
  ser_public_key b := b;
  ser_signature b := b;
  ser_cell i o := ser_cell_body (i, o);
  Keypair := bool;
  public kp := if kp then [1%Z] else [0%Z];
  sign kp m := (if kp then 1%Z else 0%Z) :: m
|}.
#[local] Existing Instance two_keys_crypto.
#[local] Existing Instance canonical_order.
#[local] Existing Instance map_sled.
#[local] Existing Instance letter_crates.

(** PEM prefixes a byte, and the certificate is the seed. *)
Definition byte_certs : CertCrates := {|
  pem_parse b := match b with _ :: c => Some c | [] => None end;
  pem_encode _ c := 45%Z :: c;
  x509_from_der _ := true;
  rcgen seed := Some ([Z.of_nat seed], [7%Z])
|}.
#[local] Existing Instance byte_certs.

Lemma byte_certs_laws : CertCratesLaws.
Proof. split; done. Qed.
#[local] Existing Instance byte_certs_laws.

Definition two_keys : KeyCrates := {|
  hex_encode b := if bool_decide (b = [1%Z]) then "01"%string
    else if bool_decide (b = [0%Z]) then "00"%string else "ff"%string;
  hex_decode s := if bool_decide (s = "01"%string) then Some [1%Z]
    else if bool_decide (s = "00"%string) then Some [0%Z] else None;
  keypair_from_bytes b := if bool_decide (b = [1%Z]) then Some true
    else if bool_decide (b = [0%Z]) then Some false else None;
  keypair_to_bytes kp := if (kp : bool) then [1%Z] else [0%Z];
  keypair_generate seed := Nat.even seed
|}.
#[local] Existing Instance two_keys.

Lemma two_keys_laws : KeyCratesLaws.
Proof.
  split; cbn.
  - by intros [].
  - intros s b. repeat case_bool_decide; by subst.
  - by intros [].
Qed.
#[local] Existing Instance two_keys_laws.

Definition tls_args : RunArgs := mkRunArgs "10.0.0.2:8000" [] (Some "01"%string) true
  (Some ["etc"; "node.crt"]%string) (Some ["etc"; "node.key"]%string) None.

(** The first start generates the certificate [[5]]; the second one keeps it. *)
Definition first_start : Fs * res CrateError.Error Node :=
  run tls_args 5 (∅ : gmap bytes bytes) (∅ : gmap bytes bytes) (∅ : gmap bytes bytes)
    (∅ : gmap bytes bytes) ∅.

Lemma restart_same_node_witness :
  ∃ f' n, first_start = (f', Ok n) ∧ hl_node_id (nd_hail n) = id_new [5%Z] ∧
    run tls_args 6 (∅ : gmap bytes bytes) (∅ : gmap bytes bytes) (∅ : gmap bytes bytes)
      (∅ : gmap bytes bytes) f' = (f', Ok n).
Proof.
  destruct first_start as [f' [n|e| |]] eqn:Hf; [|exfalso..].
  2-4: apply (f_equal (λ p : Fs * res CrateError.Error Node, is_ok p.2)) in Hf; vm_compute in Hf;
    discriminate Hf.
  exists f', n. split; [reflexivity|]. split.
  - apply (f_equal (λ p : Fs * res CrateError.Error Node,
      match p.2 with Ok n => Some (hl_node_id (nd_hail n)) | _ => None end)) in Hf.
    cbn [snd] in Hf. apply (inj Some). rewrite <- Hf. vm_compute. reflexivity.
  - apply (restart_same_node tls_args 5 ∅ f' n).
    + intros c k [= <-] [= <-]. split; [discriminate|]. intros id. split; discriminate.
    + exact Hf.
Defined.

(** A node on plain TCP with one peer. *)
Definition tcp_matches : Matches := mkMatches (Some "10.0.0.2:8000"%string)
  (Some [id_to_string id_two +:+ "@10.0.0.2:8000"]) (Some "01"%string) false None None
  (Some (id_to_string id_one)).

Definition tcp_start (a : RunArgs) : Fs * res CrateError.Error Node :=
  run a 0 (∅ : gmap bytes bytes) (∅ : gmap bytes bytes) (∅ : gmap bytes bytes)
    (∅ : gmap bytes bytes) ∅.

Definition tcp_args : RunArgs := mkRunArgs "10.0.0.2:8000"
  [id_to_string id_two +:+ "@10.0.0.2:8000"] (Some "01"%string) false None None (Some id_one).

Lemma started_ids_typed_witness :
  ∃ f' n, main_args tcp_matches = Ok tcp_args ∧ tcp_start tcp_args = (f', Ok n) ∧
    own_ids n = replicate 5 id_one ∧ id_two ∈ peer_ids n ∧ Forall (array 32) (peer_ids n).
Proof.
  assert (match (tcp_start tcp_args).2 with
          | Ok n => bool_decide (own_ids n = replicate 5 id_one ∧ id_two ∈ peer_ids n)
          | _ => false
          end = true) as Hok by (vm_compute; reflexivity).
  assert (main_args tcp_matches = Ok tcp_args) as Ha by (vm_compute; reflexivity).
  destruct (tcp_start tcp_args) as [f' [n|e| |]] eqn:Hr; [|discriminate Hok..].
  exists f', n. apply bool_decide_eq_true in Hok as [Hown Hin].  unfold tcp_start in Hr.
  destruct (started_ids_typed (IL:=letter_crates_laws) tcp_matches tcp_args _ _ _ _ _ _ _ _ Ha Hr)
    as (_ & Hp & _).
  exact (conj Ha (conj eq_refl (conj Hown (conj Hin Hp)))).
Defined.
End files_witness.
