(* ===== verification/Genesis.v ===== *)
(** * Genesis.v: the stakers of the genesis block (src/src/alpha/initial_staker.rs)

    The keys are decoded by other crates ([KeyCrates] and [IdCrates]); the texts of
    their errors are arguments. *)

From stdpp Require Import prelude gmap list strings.
From Stdlib Require Import ZArith Lia String.
From S2P Require Import Prelude Orders Cell Instances Dag Blocks Storage SledInstances BlockStorage.
From S2P Require Import Util Operations DependencyGraph AlphaState Ids Files.

Section genesis.
Context {CR : Crypto} {KC : KeyCrates} {IC : IdCrates}.
Context (hex_message dalek_message : string).

Definition from_hex (kps : string) (node_id : Id) (total_allocation staked_allocation : Capacity) :
    res AlphaError.Error InitialStaker :=
  b ← ok_or (hex_decode kps) (AlphaError.Hex hex_message);
  keypair ← ok_or (keypair_from_bytes b) (AlphaError.Dalek dalek_message);
  Ok (mkStaker keypair node_id total_allocation staked_allocation).

(** Key pair, id, allocation and stake of each entry. *)
Definition genesis_entries : list (string * string * Z * Z) := [
  ("ad7f2ee3958a7f3fa2c84931770f5773ef7694fdd0bb217d90f29a94199c9d7307ca3851515c89344639fe6a4077923068d1d7fc6106701213c61d34ef8e9416",
   "12My22AzQQosboCy6TCDFkTQwHTSuHhFN1VDcdDRPUe3H8j3DvY", 2000, 1000);
  ("5a353c630d3faf8e2d333a0983c1c71d5e9b6aed8f4959578fbeb3d3f3172886393b576de0ac1fe86a4dd416cf032543ac1bd066eb82585f779f6ce21237c0cd",
   "19Y53ymnBw4LWUpiAMUzPYmYqZmukRhNHm3VyAhzMqckRcuvkf", 2000, 1000);
  ("6f4b736b9a6894858a81696d9c96cbdacf3d49099d212213f5abce33da18716f067f8a2b9aeb602cd4163291ebbf39e0e024634f3be19bde4c490465d9095a6b",
   "1A2iUK1VQWMfvtmrBpXXkVJjM5eMWmTfMEcBx4TatSJeuoSH7n", 2000, 1000);
  ("3ae38eec96146c241f6cadf01995af14f027b23b8fecbc77dbc2e3ed5fec6fc3fb4fe5534f7affc9a8f1d99e290fdb91cc26777edd6fae480cad9f735d1b3680",
   "12StzamTJk2jBxbdqGmT6gLfpctv9f39CmBXTsm8sBG2n6AdPxx", 2000, 1000);
  ("aae4e1343eb40e217a60fc61e22b86925686e664d7663c09d0042eb049600e187a2049a994e5b7a3e2baa9341c697029550ee0782d83ba31fe10fa0fefd6cc52",
   "1tJB1qNY6R4nPGQN83hmX8bviD6dbEMXkGjfByrCVYZsNnrJSk", 2000, 1000);
  ("8c739c713aeb69e21a37bc2aab2ab314d08627d5435754b0418a71529c3614bccdfa638fa8da6d06e98a374c1df48e3a3d2563a4c7d78d0e7589f6706a8ed0d8",
   "12KyV3nz5wJhqFSfEFsKAhEqMGaPD88JeeS7LA4Qsjbyf2Yqp87", 2000, 1000)]%Z%string.

Definition genesis_stakers : res AlphaError.Error (list InitialStaker) :=
  try_map (λ e : string * string * Z * Z, let '(kps, id, total, staked) := e in
    node_id ← unwrap_res (id_from_str id);
    unwrap_res (from_hex kps node_id total staked)) genesis_entries.
End genesis.
