(* ===== verification/Network.v ===== *)
(** * Network.v: connections, the client and the server
      (src/src/tls/connection_stream.rs, src/src/tls/upgrader.rs, src/src/client.rs,
      src/src/server/server.rs)

    Sockets, the TLS handshake and the framed channel belong to tokio and rustls:
    [Net] lists what is used of them.  Which peer is at the other end of a
    connection, which requests are sent and which responses are taken is the code
    of this file. *)

From stdpp Require Import prelude gmap sets list strings.
From Stdlib Require Import ZArith Lia.
From S2P Require Import Prelude Orders Cell Instances Dag ConflictGraph Blocks Storage SledInstances BlockStorage.
From S2P Require Import Util Operations DependencyGraph AlphaState Sleet Hail Ice View Dissemination Alpha Ids Router.

Class Net : Type := {
  TcpStream : Type;
  (** [TcpStream::connect] *)
  tcp_connect : SocketAddr → option TcpStream;
  tcp_peer_addr : TcpStream → option SocketAddr;
  (** The handshake of [TlsConnector] and [TlsAcceptor]; the result is what
      [peer_certificates] reports afterwards. *)
  tls_connect : TcpStream → option (option (list bytes));
  tls_accept : TcpStream → option (option (list bytes))
}.

Section connections.
Context {NT : Net} {IC : IdCrates}.

(** ** Connections (src/src/tls/connection_stream.rs) *)
Inductive ConnectionStream : Type :=
| Tcp (s : TcpStream)
| TlsServer (s : TcpStream) (peer_certificates : option (list bytes))
| TlsClient (s : TcpStream) (peer_certificates : option (list bytes)).

Definition peer_addr (c : ConnectionStream) : option SocketAddr :=
  match c with
  | Tcp s | TlsServer s _ | TlsClient s _ => tcp_peer_addr s
  end.

Definition is_tls (c : ConnectionStream) : bool :=
  match c with
  | Tcp _ => false
  | TlsServer _ _ => true
  | TlsClient _ _ => true
  end.

Definition id_from_first_cert (certs : option (list bytes)) : option Id :=
  match certs with
  | Some certs => match certs with [] => None | c :: _ => Some (id_new c) end
  | None => None
  end.

Definition get_id (c : ConnectionStream) : option Id :=
  match c with
  | Tcp s => from_ip <$> tcp_peer_addr s
  | TlsServer _ certs => id_from_first_cert certs
  | TlsClient _ certs => id_from_first_cert certs
  end.

(** ** Upgraders (src/src/tls/upgrader.rs) *)
Inductive Upgrader : Type := TcpUpgrader | TlsClientUpgrader | TlsServerUpgrader.

Definition upgrader_is_tls (u : Upgrader) : bool :=
  match u with
  | TcpUpgrader => false
  | TlsClientUpgrader => true
  | TlsServerUpgrader => true
  end.

Definition upgrade (u : Upgrader) (s : TcpStream) : res CrateError.Error ConnectionStream :=
  match u with
  | TcpUpgrader => Ok (Tcp s)
  | TlsClientUpgrader => certs ← ok_or (tls_connect s) CrateError.IO; Ok (TlsClient s certs)
  | TlsServerUpgrader => certs ← ok_or (tls_accept s) CrateError.IO; Ok (TlsServer s certs)
  end.

(** ** The client (src/src/client.rs)

    [exchange] sends a request on the channel of a connection and receives the
    response. *)
Section client.
Context (exchange : ConnectionStream → Protocol.Request →
  res CrateError.Error (option Protocol.Response)).

Definition oneshot (u : Upgrader) (id : Id) (ip : SocketAddr) (request : Protocol.Request) :
    res CrateError.Error (option Protocol.Response) :=
  socket ← ok_or (tcp_connect ip) CrateError.IO;
  connection ← upgrade u socket;
  if is_tls connection then
    peer ← ok_or (get_id connection) CrateError.UnexpectedPeerConnected;
    if bool_decide (id ≠ peer) then Err CrateError.UnexpectedPeerConnected
    else exchange connection request
  else exchange connection request.

Definition err_to_none {A} (r : res CrateError.Error (option A)) : option A :=
  match r with Ok o => o | _ => None end.

(** The spawned requests run concurrently; a request that fails, or whose task
    panics, adds no response. *)
Definition fanout (u : Upgrader) (peers : list (Id * SocketAddr)) (request : Protocol.Request) :
    list Protocol.Response :=
  omap (λ p : Id * SocketAddr, err_to_none (oneshot u p.1 p.2 request)) peers.

Inductive ClientRequest : Type :=
| ReqOneshot (id : Id) (ip : SocketAddr) (request : Protocol.Request)
| ReqFanout (peers : list (Id * SocketAddr)) (request : Protocol.Request).

Inductive ClientReply : Type :=
| RespOneshot (r : option Protocol.Response)
| RespFanout (rs : list Protocol.Response).

(** [Handler<ClientRequest>] *)
Definition client_request (u : Upgrader) (m : ClientRequest) : ClientReply :=
  match m with
  | ReqOneshot id ip request => RespOneshot (err_to_none (oneshot u id ip request))
  | ReqFanout peers request => RespFanout (fanout u peers request)
  end.
End client.

(** ** The server (src/src/server/server.rs)

    [received] is what the channel yields on the connection; the response that is
    sent back is returned. *)
Section server.
Context {CR : Crypto} {IO : IterOrder} {BP : BuildProfile} {SC : StateCodec} {SD : Sled}
  {BC : BlockCodec} {TC : TxCodec} {SO : Sortition} {RN : Rng}.

Definition process_stream (u : Upgrader) (stream : TcpStream)
    (received : ConnectionStream → res CrateError.Error (option Protocol.Request)) :
    st Node CrateError.Error (option Answer) :=
  connection ← of_res (upgrade u stream);
  peer_id ← of_res (unwrap (get_id connection));
  request ← of_res (unwrap_res (received connection));
  match request with
  | Some request =>
      response ← unwrap_st (route (mkRouterRequest peer_id (upgrader_is_tls u) request));
      mret (Some response)
  | None => mret None
  end.
End server.
End connections.

(** The responses as sleet tells them apart. *)
Definition sleet_response (r : Protocol.Response) : Sleet.Response :=
  match r with
  | Protocol.QueryTxAck id h outcome => QueryTxAck id h outcome
  | Protocol.AcceptedFrontier f => AcceptedFrontier f
  | Protocol.FetchedTx tx => FetchedTx tx
  | Protocol.TxAncestors txs => TxAncestors txs
  | _ => OtherResponse
  end.

(** ** Properties *)
Section client_facts.
Context {NT : Net} {IC : IdCrates}.
Context (exchange : ConnectionStream → Protocol.Request →
  res CrateError.Error (option Protocol.Response)).
Implicit Types (u : Upgrader) (p : Id * SocketAddr) (req : Protocol.Request).

(** The response [r] came over a connection to the address of [p], and when the
    connection is encrypted the certificate at the other end is that of [p]. *)
Definition answered_by u req p (r : Protocol.Response) : Prop :=
  ∃ s c, tcp_connect p.2 = Some s ∧ upgrade u s = Ok c ∧ exchange c req = Ok (Some r) ∧
    (upgrader_is_tls u = true → get_id c = Some p.1).

Definition answers u req p : bool :=
  bool_decide (is_Some (err_to_none (oneshot exchange u p.1 p.2 req))).

Lemma upgrade_is_tls u s c : upgrade u s = Ok c → is_tls c = upgrader_is_tls u.
Proof.
  destruct u; cbn; [by intros [= <-]| |]; intros (certs & _ & [= <-])%res_bind_Ok_inv; done.
Qed.

Lemma oneshot_answered u req p r :
  err_to_none (oneshot exchange u p.1 p.2 req) = Some r ↔ answered_by u req p r.
Proof.
  unfold oneshot, answered_by. split.
  - destruct (tcp_connect p.2) as [s|] eqn:Hs; cbn; [|done].
    destruct (upgrade u s) as [c| | |] eqn:Hc; cbn; try done.
    rewrite (upgrade_is_tls u s c) by done.
    destruct (upgrader_is_tls u); [destruct (get_id c) as [i|] eqn:Hi; cbn; [|done]|].
    1: case_bool_decide as Hne; [done|].
    all: destruct (exchange c req) as [o| | |] eqn:He; cbn; try done; intros ->.
    all: exists s, c; split_and!; [done..|]; intros; congruence.
  - intros (s & c & -> & Hc & He & Ht). cbn. rewrite Hc. cbn.
    rewrite (upgrade_is_tls u s c) by done. destruct (upgrader_is_tls u); [|by rewrite He].
    rewrite Ht by done. cbn. by rewrite bool_decide_eq_false_2, He by tauto.
Qed.

Lemma fanout_answered u req peers :
  Forall2 (answered_by u req) (filter (answers u req) peers) (fanout exchange u peers req).
Proof.
  induction peers as [|p peers IH]; [constructor|].
  unfold fanout, answers in *. cbn [omap list_omap filter list_filter].
  destruct (err_to_none _) as [r|] eqn:Hr.
  - rewrite decide_True by (by apply bool_decide_spec). constructor; [by apply oneshot_answered|done].
  - rewrite decide_False by (rewrite bool_decide_spec; by intros []). done.
Qed.

Lemma length_fanout u req peers :
  List.length (fanout exchange u peers req) = List.length peers ↔
  ∀ p, p ∈ peers → answers u req p = true.
Proof.
  rewrite <- (Forall2_length _ _ _ (fanout_answered u req peers)).
  split.
  - intros Hl p Hp. destruct (answers u req p) eqn:Ha; [done|].
    assert (¬ answers u req p) as Hn by (rewrite Ha; tauto).
    pose proof (length_filter_lt (λ p, Is_true (answers u req p)) peers p Hp Hn). lia.
  - intros Hall. f_equal. induction peers as [|p peers IH]; [done|].
    cbn [filter list_filter]. rewrite decide_True by (apply Is_true_true, Hall; set_solver).
    f_equal. apply IH. set_solver.
Qed.

Lemma answers_spec u req p : answers u req p = true ↔ ∃ r, answered_by u req p r.
Proof.
  unfold answers. rewrite bool_decide_eq_true. unfold is_Some.
  by setoid_rewrite oneshot_answered.
Qed.

(** The responses of a fanout are those of the peers it was sent to.  They come in
    the order of the peers, at most one for each, over a connection to the address
    of the peer; with TLS the hash of the certificate at the other end is the id of
    the peer.  All peers have answered exactly when there are as many responses as
    peers. *)
Theorem fanout_authenticated u req peers :
  Forall2 (answered_by u req) (filter (answers u req) peers) (fanout exchange u peers req) ∧
  (∀ p r, p ∈ peers → answered_by u req p r → r ∈ fanout exchange u peers req) ∧
  (List.length (fanout exchange u peers req) = List.length peers ↔
   ∀ p, p ∈ peers → ∃ r, answered_by u req p r).
Proof.
  split_and!; [apply fanout_answered| |].
  - intros p r Hp Hr. apply list_elem_of_omap. exists p. split; [done|]. by apply oneshot_answered.
  - rewrite length_fanout. by setoid_rewrite answers_spec.
Qed.
End client_facts.

Section server_facts.
Context {NT : Net} {IC : IdCrates}.
Context {CR : Crypto} {IO : IterOrder} {BP : BuildProfile} {SC : StateCodec} {SD : Sled}
  {BC : BlockCodec} {TC : TxCodec} {SO : Sortition} {RN : Rng}.
Implicit Types (n : Node) (req : Protocol.Request).
Abbreviation reception := (ConnectionStream → res CrateError.Error (option Protocol.Request)).

(** A stream whose peer is known and on which a request comes in. *)
Lemma process_stream_route u stream c id req n (received : reception) :
  upgrade u stream = Ok c → get_id c = Some id → received c = Ok (Some req) →
  process_stream u stream received n =
    (let '(n', r) := route (mkRouterRequest id (upgrader_is_tls u) req) n in
     (n', a ← unwrap_res r; Ok (Some a))).
Proof.
  intros Hc Hid Hr. unfold process_stream, mbind, st_bind, of_res, unwrap_st.
  rewrite Hc, Hid. cbn [unwrap]. rewrite Hr. cbn [unwrap_res].
  destruct (route _ n) as [n' [a|[]| |]]; done.
Qed.

(** The server decides by the certificate.  A request on a TLS connection is handed
    to the router under the id that is the hash of the certificate of the peer: a
    request of validators is refused exactly when that id is not a validator, and
    then the node does not change.  On a plain connection nothing is refused, and a
    TLS peer without a certificate makes the server panic before it reads. *)
Theorem server_checks_certificate stream (received : reception) n :
  (∀ cert certs req, tls_accept stream = Some (Some (cert :: certs)) →
     received (TlsServer stream (Some (cert :: certs))) = Ok (Some req) →
     validator_only req = true →
     ((process_stream TlsServerUpgrader stream received n).2 =
        Ok (Some (Answered Protocol.RequestRefused)) ↔ id_new cert ∉ nd_validators n) ∧
     ((id_new cert ∉ nd_validators n) →
        (process_stream TlsServerUpgrader stream received n).1 = n)) ∧
  (process_stream TcpUpgrader stream received n).2 ≠ Ok (Some (Answered Protocol.RequestRefused)) ∧
  (tls_accept stream = Some (Some []) ∨ tls_accept stream = Some None →
     process_stream TlsServerUpgrader stream received n = (n, Panic)).
Proof.
  split_and!.
  - intros cert certs req Ha Hr Hv.
    set (m := mkRouterRequest (id_new cert) true req).
    rewrite (process_stream_route TlsServerUpgrader stream (TlsServer stream (Some (cert :: certs)))
      (id_new cert) req n received) by (by cbn; rewrite ?Ha).
    cbn [upgrader_is_tls]. fold m. split.
    + assert (id_new cert ∉ nd_validators n ↔ refuses n m) as ->.
      { unfold refuses. cbn. tauto. }
      destruct (route m n) as [n' r] eqn:Hm. cbn [snd]. split.
      * intros Hres. apply route_refused_inv. rewrite Hm. cbn.
        destruct r as [a|[]| |]; cbn in *; congruence.
      * intros Href%route_refuses. rewrite Hm in Href. injection Href as -> ->. done.
    + intros Hn. rewrite route_refuses by done. done.
  - destruct (tcp_peer_addr stream) as [a|] eqn:Ha.
    2: { unfold process_stream, mbind, st_bind, of_res. cbn. by rewrite Ha. }
    destruct (received (Tcp stream)) as [[req|]|e| |] eqn:Hr.
    2-5: unfold process_stream, mbind, st_bind, of_res; cbn; by rewrite Ha; cbn; rewrite Hr.
    rewrite (process_stream_route TcpUpgrader stream (Tcp stream) (from_ip a) req n received)
      by (by cbn; rewrite ?Ha).
    cbn [upgrader_is_tls]. destruct (route _ n) as [n' r] eqn:Hm. cbn [snd].
    destruct r as [ans|[]| |]; cbn; [|done..]. intros [= ->].
    assert (refuses n (mkRouterRequest (from_ip a) false req)) as [Hf _]; [|done].
    apply route_refused_inv. by rewrite Hm.
  - intros [Ha|Ha]; unfold process_stream, mbind, st_bind, of_res; cbn; by rewrite Ha.
Qed.
End server_facts.

(** ** A query between nodes *)
Section query_round.
Context {NT : Net} {IC : IdCrates}.
Context {CR : Crypto} {IO : IterOrder} {BP : BuildProfile} {SC : StateCodec} {SD : Sled}
  {BC : BlockCodec} {TC : TxCodec} {SO : Sortition} {RN : Rng}.
Context (exchange : ConnectionStream → Protocol.Request →
  res CrateError.Error (option Protocol.Response)).
Implicit Types (s : Sleet) (vs : list (Id * SocketAddr)) (tx : Tx).

(** The responses of a query to the sampled validators, as sleet gets them. *)
Definition query_acks (u : Upgrader) vs (me : Id) (ip : SocketAddr) tx : list Sleet.Response :=
  sleet_response <$> fanout exchange u vs (Protocol.QueryTx me ip tx).

(** How the round of a fresh transaction ends.  The query counts as complete
    exactly when every sampled validator answered, over TLS under its own
    certificate, and as incomplete otherwise; the acknowledgements handed on are the
    responses of the validators, in their order. *)
Theorem query_round_ends u vs me ip tx s :
  let acks := query_acks u vs me ip tx in
  let answered p := ∃ r, answered_by exchange u (Protocol.QueryTx me ip tx) p r in
  ((∀ p, p ∈ vs → answered p) ∧
   fresh_tx_response tx vs (Some (Fanout acks)) s = (emit (NotifyQueryComplete tx acks) s, Ok tt)) ∨
  ((∃ p, p ∈ vs ∧ ¬ answered p) ∧
   fresh_tx_response tx vs (Some (Fanout acks)) s = (emit (NotifyQueryIncomplete tx acks) s, Ok tt)).
Proof.
  intros acks answered. unfold fresh_tx_response.
  assert (length acks = length vs ↔
    ∀ p, p ∈ vs → answers exchange u (Protocol.QueryTx me ip tx) p = true) as Hlen.
  { unfold acks, query_acks. rewrite length_fmap. apply length_fanout. }
  destruct (Nat.eqb_spec (length acks) (length vs)) as [Heq|Hne]; [left|right]; (split; [|done]).
  - intros p Hp. by apply answers_spec, Hlen.
  - rewrite Hlen, <- Forall_forall in Hne.
    apply not_Forall_Exists in Hne; [|apply _]. apply Exists_exists in Hne as (p & Hp & Hno).
    exists p. split; [done|]. unfold answered. by rewrite <- answers_spec.
Qed.

Lemma query_outcomes_panic committee acks :
  OtherResponse ∈ acks → query_outcomes committee acks = Panic.
Proof.
  induction acks as [|[] acks IH]; rewrite ?elem_of_nil, ?elem_of_cons; intros Hin; try done.
  cbn. rewrite IH; [done|]. by destruct Hin as [?|].
Qed.

(** C22: a validator that does not know the querying node as a validator crashes its
    sleet.  The server of the validator refuses the query, the client returns the
    refusal as a response like any other, the round counts as complete, and the
    handler of the completed query panics in every state. *)
Theorem refusal_crashes_querier vs me ip tx s p stream cert certs received (n : Node) :
  let req := Protocol.QueryTx me ip tx in
  let served := process_stream TlsServerUpgrader stream received n in
  (∀ q, q ∈ vs → ∃ r, answered_by exchange TlsClientUpgrader req q r) →
  p ∈ vs →
  tls_accept stream = Some (Some (cert :: certs)) →
  received (TlsServer stream (Some (cert :: certs))) = Ok (Some req) →
  (id_new cert ∉ nd_validators n) →
  (∀ a, served.2 = Ok (Some a) →
     ∃ o, answered_by exchange TlsClientUpgrader req p (settle a o)) →
  let acks := query_acks TlsClientUpgrader vs me ip tx in
  fresh_tx_response tx vs (Some (Fanout acks)) s = (emit (NotifyQueryComplete tx acks) s, Ok tt) ∧
  ∀ s', handle_query_complete tx acks s' = (s', Panic).
Proof.
  intros req served Hall Hp Ha Hr Hn Hsent acks.
  assert (served = (n, Ok (Some (Answered Protocol.RequestRefused)))) as Hserved.
  { unfold served. rewrite (process_stream_route TlsServerUpgrader stream
      (TlsServer stream (Some (cert :: certs))) (id_new cert) req n received) by (by cbn; rewrite ?Ha).
    by rewrite route_refuses. }
  destruct (Hsent (Answered Protocol.RequestRefused)) as [o Ho]; [by rewrite Hserved|].
  split.
  - unfold fresh_tx_response. assert (length acks = length vs) as ->.
    { unfold acks, query_acks. rewrite length_fmap. apply length_fanout.
      intros q Hq. by apply answers_spec, Hall. }
    by rewrite Nat.eqb_refl.
  - intros s'. unfold handle_query_complete, mbind at 1, st_bind at 1, reads.
    rewrite query_outcomes_panic; [done|].
    apply list_elem_of_fmap. exists Protocol.RequestRefused. split; [done|].
    apply list_elem_of_omap. exists p. split; [done|]. by apply oneshot_answered.
Qed.
End query_round.

(** ** Witnesses *)
Section network_witness.
#[local] Existing Instance plain_crypto.
#[local] Existing Instance canonical_order.
#[local] Existing Instance release_profile.
#[local] Existing Instance plain_state_codec.
#[local] Existing Instance num_block_codec.
#[local] Existing Instance num_tx_codec.
#[local] Existing Instance map_sled.
#[local] Existing Instance keep_order.
#[local] Existing Instance letter_crates.

Definition whole_stake : Sortition := {| sortition_select sc _ _ _ := sc |}.
#[local] Existing Instance whole_stake.

Definition empty_db : gmap bytes bytes := ∅.
Definition node_addr : SocketAddr := mkSocketAddr [10; 0; 0; 2]%Z 8000.

(** A network in which every server shows the certificate [[5]] and every client
    [[7]]. *)
Definition two_certs : Net := {|
  TcpStream := unit;
  tcp_connect _ := Some tt;
  tcp_peer_addr _ := Some node_addr;
  tls_connect _ := Some (Some [[5%Z]]);
  tls_accept _ := Some (Some [[7%Z]])
|}.
#[local] Existing Instance two_certs.

(** A node that has just been started, with two stakers. *)
Definition started_node : Node :=
  mkNode (view_new node_addr [5%Z]) (ice_new [5%Z] node_addr reservoir_new)
    (mkAlpha [5%Z] empty_db false (mkState 0 100 40 [(id_new [5%Z], 10%Z); (id_new [7%Z], 0%Z)] ∅))
    (sleet_new [5%Z] node_addr empty_db []) (hail_new [5%Z] empty_db empty_db) ∅.

Definition fresh_tx : Tx := tx_new [] (cell_new ∅ [pay 1 [1%Z]]).

Lemma stakers_are_admitted_witness :
  (route (mkRouterRequest (id_new [7%Z]) true (Protocol.GetTxAncestors [0%Z]))
     (router_started started_node)).2 = Ok (Answered Protocol.RequestRefused).
Proof.
  apply stakers_are_admitted; [reflexivity..|].
  cbn [rr_peer_id]. intros (c & Hin & Hc). cbn in Hin.
  rewrite !elem_of_cons, elem_of_nil in Hin. destruct Hin as [Hin|[Hin|[]]].
  - apply (f_equal fst) in Hin. vm_compute in Hin. discriminate Hin.
  - apply (f_equal snd) in Hin. cbn in Hin. lia.
Defined.

(** The node at the other end of every connection. *)
Definition ask_started (c : ConnectionStream) (req : Protocol.Request) :
    res CrateError.Error (option Protocol.Response) :=
  match (process_stream TlsServerUpgrader tt (λ _, Ok (Some req))
           (router_started started_node)).2 with
  | Ok (Some a) => Ok (Some (settle a None))
  | _ => Err (CrateError.ChannelError "closed")
  end.

Lemma refusal_crashes_querier_witness :
  handle_query_complete fresh_tx
    (query_acks ask_started TlsClientUpgrader [(id_new [5%Z], node_addr)] (id_new [7%Z]) node_addr
       fresh_tx) (nd_sleet started_node) = (nd_sleet started_node, Panic).
Proof.
  set (req := Protocol.QueryTx (id_new [7%Z]) node_addr fresh_tx).
  assert (answered_by ask_started TlsClientUpgrader req (id_new [5%Z], node_addr)
    Protocol.RequestRefused) as Ha.
  { exists (tt : @TcpStream two_certs), (TlsClient (tt : @TcpStream two_certs) (Some [[5%Z]])). vm_compute. repeat split. }
  eapply (@refusal_crashes_querier two_certs letter_crates plain_crypto canonical_order release_profile
    map_sled num_block_codec num_tx_codec ask_started [(id_new [5%Z], node_addr)] (id_new [7%Z]) node_addr
    fresh_tx (nd_sleet started_node) (id_new [5%Z], node_addr) tt [7%Z] []
    (λ _, Ok (Some req)) (router_started started_node)).
  - intros q Hq. apply list_elem_of_singleton in Hq as ->. exists Protocol.RequestRefused. exact Ha.
  - apply list_elem_of_singleton. reflexivity.
  - reflexivity.
  - reflexivity.
  - apply (bool_decide_unpack _). vm_compute. exact I.
  - intros a Heq. exists None.
    assert (settle a None = Protocol.RequestRefused) as ->; [|exact Ha].
    vm_compute in Heq. injection Heq as <-. reflexivity.
Defined.
End network_witness.
