(* ===== verification/Startup.v ===== *)
(** * Startup.v: what runs in a node once its actors are started
      (src/src/server/node.rs: the executions that [run] spawns;
      src/src/server/server.rs: [listen])

    Two executions run side by side: one asks peers until the view has its quorum and
    then spawns [ice::run], the other starts the router and serves connections.  Their
    steps, in any order and with whatever the peers answer, are steps of the machine of
    Membership.v. *)

From stdpp Require Import prelude gmap sets list relations.
From Stdlib Require Import ZArith Lia.
From S2P Require Import Prelude Orders Cell Instances Dag ConflictGraph Blocks Storage SledInstances BlockStorage.
From S2P Require Import Util Operations DependencyGraph AlphaState Sleet Hail Ice IceFacts View Membership Dissemination Alpha Ids Router Network SleetWitnesses.

(** How far [bootstrap_execution] is. *)
Inductive BootPhase : Type := Bootstrapping | IceRunning.

Section startup.
Context {CR : Crypto} {IO : IterOrder} {BP : BuildProfile} {SC : StateCodec} {SD : Sled}
  {BC : BlockCodec} {TC : TxCodec} {SO : Sortition} {RN : Rng} {IC : IdCrates} {NT : Net}.

Record Execution : Type := mkExecution {
  ex_node : Node;
  ex_phase : BootPhase;
  (** the router is started and the server accepts connections *)
  ex_listening : bool;
  (** the peers that [ice::run] has still to ping in its round *)
  ex_round : list (Id * SocketAddr);
  (** what ice told alpha *)
  ex_out : list AlphaNotice
}.
Implicit Types (e : Execution) (n : Node) (m : Member).

(** The part of the node that Membership.v describes. *)
Definition member_of e : Member :=
  mkMember (nd_view (ex_node e)) (nd_ice (ex_node e)) (ex_round e) (ex_out e).
Definition put_member m e : Execution :=
  mkExecution (nd_set_ice (mb_ice m) (nd_set_view (mb_view m) (ex_node e))) (ex_phase e) (ex_listening e)
    (mb_round m) (mb_out m).
Definition ex_set_node n e : Execution := mkExecution n (ex_phase e) (ex_listening e) (ex_round e) (ex_out e).

(** [run] after the actors were started: both executions are spawned. *)
Definition spawn_executions n : Execution := mkExecution n Bootstrapping false [] [].

(** A turn of [view::bootstrap]; when the loop is left [ice::run] is spawned. *)
Definition bootstrap_turn (responses : list ViewResponse) e : Execution :=
  let '(v, i, stop) := bootstrap_round responses (nd_view (ex_node e)) (nd_ice (ex_node e)) in
  mkExecution (nd_set_ice i (nd_set_view v (ex_node e)))
    (if (stop : bool) then IceRunning else Bootstrapping) (ex_listening e) (ex_round e) (ex_out e).

(** [listener_execution] up to [listen]. *)
Definition start_listener e : Execution :=
  mkExecution (router_started (ex_node e)) (ex_phase e) true (ex_round e) (ex_out e).

(** The service of [listen] for one connection: a failure ends this connection only. *)
Definition serve_connection (u : Upgrader) (stream : TcpStream)
    (received : ConnectionStream → res CrateError.Error (option Protocol.Request)) e : Execution :=
  ex_set_node (process_stream u stream received (ex_node e)).1 e.

Inductive exec_step : Execution → Execution → Prop :=
| exec_bootstrap rs e : ex_phase e = Bootstrapping → exec_step e (bootstrap_turn rs e)
| exec_sample seed e m :
    ex_phase e = IceRunning → start_round seed (member_of e) = Ok m → exec_step e (put_member m e)
| exec_ping seed answer e m :
    ex_phase e = IceRunning → ping_next seed answer (member_of e) = Ok m → exec_step e (put_member m e)
| exec_listen e : ex_listening e = false → exec_step e (start_listener e)
| exec_serve u stream received e : ex_listening e = true → exec_step e (serve_connection u stream received e)
(** alpha, sleet and hail handle messages of their own *)
| exec_actors n' e :
    nd_view n' = nd_view (ex_node e) → nd_ice n' = nd_ice (ex_node e) → exec_step e (ex_set_node n' e).

(** ** The steps of the other machine *)
Definition at_most_one (R : Member → Member → Prop) m m' : Prop := m' = m ∨ R m m'.

(** View and ice, as one request of the router leaves them. *)
Lemma route_members r n round out :
  let at_ n := mkMember (nd_view n) (nd_ice n) round out in
  at_most_one member_step (at_ n) (at_ (route r n).1).
Proof.
  cbn zeta. destruct (rr_request r) eqn:Hr.
  1: { right. unfold route. rewrite gets_bind, Hr. cbn zeta. rewrite bind_state by done.
       unfold send_view. destruct (view_version id ip (nd_view n)) as [v a] eqn:Hv. cbn.
       pose proof (member_version id ip (mkMember (nd_view n) (nd_ice n) round out)) as Hs.
       unfold mb_set_view in Hs. cbn [mb_view mb_ice mb_round mb_out] in Hs. by rewrite Hv in Hs. }
  1: { right. unfold route. rewrite gets_bind, Hr. cbn zeta. rewrite bind_state by done.
       unfold send_ice. destruct (ice_ping (pg_queries ping) (nd_ice n)) as [i a] eqn:Hi. cbn.
       pose proof (member_queries (pg_queries ping) (mkMember (nd_view n) (nd_ice n) round out)) as Hs.
       unfold mb_set_ice in Hs. cbn [mb_view mb_ice mb_round mb_out] in Hs. by rewrite Hi in Hs. }
  all: left; pose proof (route_changes r n) as Hch; rewrite Hr in Hch;
    revert Hch; generalize (route r n).1; intros n' Hch; by inversion Hch.
Qed.

Lemma process_stream_state u stream received n :
  (process_stream u stream received n).1 = n ∨ ∃ r, (process_stream u stream received n).1 = (route r n).1.
Proof.
  unfold process_stream, mbind, st_bind, of_res. destruct (upgrade u stream) as [c| | |]; [|by left..].
  destruct (unwrap (get_id c)) as [id| | |]; [|by left..].
  destruct (unwrap_res (received c)) as [[req|]| | |]; [|by left..].
  right. exists (mkRouterRequest id (upgrader_is_tls u) req). unfold unwrap_st.
  by destruct (route _ n) as [n' []].
Qed.

Lemma router_started_members n : nd_view (router_started n) = nd_view n ∧ nd_ice (router_started n) = nd_ice n.
Proof.
  unfold router_started, deliver_router. destruct (init_router (nd_alpha n)) as [a es].
  set (n1 := nd_set_alpha a n). change (nd_view n) with (nd_view n1). change (nd_ice n) with (nd_ice n1). generalize n1.
  induction es as [|x es IH]; intros n0; cbn [foldl]; [done|]. destruct (IH (match x with
    | SendValidatorSet vs => set_validator_set vs n0 | _ => n0 end)) as [-> ->]. by destruct x.
Qed.

Lemma exec_step_member e e' : exec_step e e' → at_most_one member_step (member_of e) (member_of e').
Proof.
  intros Hs. destruct Hs as [rs e _|seed e m _ Hm|seed answer e m _ Hm|e _|u stream received e _|n' e Hv Hi].
  - right. unfold bootstrap_turn.
    pose proof (member_bootstrap rs (member_of e)) as Hs. cbn zeta in Hs. unfold mb_set_ice, mb_set_view in Hs.
    cbn [member_of mb_view mb_ice mb_round mb_out] in Hs.
    destruct (bootstrap_round rs (nd_view (ex_node e)) (nd_ice (ex_node e))) as [[v i] b]. exact Hs.
  - right. destruct m. by apply (member_sample seed).
  - right. destruct m. by apply (member_ping seed answer).
  - left. unfold member_of, start_listener. cbn [ex_node ex_round ex_out]. by destruct (router_started_members (ex_node e)) as [-> ->].
  - unfold member_of, serve_connection, ex_set_node. cbn [ex_node ex_round ex_out].
    destruct (process_stream_state u stream received (ex_node e)) as [->|[r ->]]; [by left|apply route_members].
  - left. unfold member_of, ex_set_node. cbn [ex_node ex_round ex_out]. by rewrite Hv, Hi.
Qed.

Lemma exec_steps_member e e' : rtc exec_step e e' → rtc member_step (member_of e) (member_of e').
Proof.
  induction 1 as [|e e1 e2 [Heq|Hs]%exec_step_member _ IH]; [done|by rewrite <- Heq|by eapply rtc_l].
Qed.

(** Before ice runs nothing was pinged and alpha was told nothing. *)
Lemma exec_steps_quiet e e' :
  rtc exec_step e e' → (ex_phase e = Bootstrapping → ex_round e = [] ∧ ex_out e = []) →
  ex_phase e' = Bootstrapping → ex_round e' = [] ∧ ex_out e' = [].
Proof.
  induction 1 as [|e e1 e2 Hs _ IH]; [done|]. intros He. apply IH. clear IH.
  destruct Hs as [rs e Hp|seed e m Hp _|seed answer e m Hp _|e _|u stream received e _|n' e _ _]; cbn; auto; [|congruence..].
  unfold bootstrap_turn. destruct (bootstrap_round _ _ _) as [[v i] b]. cbn. auto.
Qed.

(** C29: A node that runs is a member.  Whatever connections it serves and whatever its peers
    answer, in every interleaving of its executions: view and ice go through states of
    the machine of Membership.v and keep its invariant; nothing is pinged and ice counts
    as not bootstrapped until the view has its quorum; and alpha knows of a live network
    exactly when ice has counted enough confirmations. *)
Theorem executions_refine_membership ip peers id tree txs blocks queried e :
  id ∉ peers.*1 →
  rtc exec_step (spawn_executions (start_actors ip peers id tree txs blocks queried)) e →
  rtc member_step (member_start ip peers id) (member_of e) ∧
  member_inv id (member_of e) ∧
  (ex_phase e = Bootstrapping → ex_round e = [] ∧ ic_bootstrapped (nd_ice (ex_node e)) = false) ∧
  told_live (ex_out e) = enough (ic_reservoir (nd_ice (ex_node e))).
Proof.
  intros Hid Hs. pose proof (exec_steps_member _ _ Hs) as Hm.
  assert (member_inv id (member_of e)) as Hinv by (eapply member_steps_keep; [exact Hm|by apply member_start_inv]).
  split_and!; [exact Hm|done| |].
  - intros Hp. destruct (exec_steps_quiet _ _ Hs) as [Hr Ho]; [done|done|]. split; [done|].
    pose proof (mi_told _ _ Hinv) as Ht. cbn [member_of mb_out mb_ice] in Ht. rewrite Ho in Ht. done.
  - exact (eq_trans (mi_told _ _ Hinv) (mi_flag _ _ Hinv)).
Qed.
End startup.

(** ** Witness *)
Section startup_witness.
#[local] Existing Instance plain_crypto.
#[local] Existing Instance canonical_order.
#[local] Existing Instance release_profile.
#[local] Existing Instance plain_state_codec.
#[local] Existing Instance num_block_codec.
#[local] Existing Instance num_tx_codec.
#[local] Existing Instance map_sled.
#[local] Existing Instance keep_order.
#[local] Existing Instance letter_crates.
#[local] Existing Instance whole_stake.
#[local] Existing Instance two_certs.

(** A node with two bootstrap peers serves the handshake of a third one and then has the
    answers of the two. *)
Definition starting : Execution :=
  spawn_executions (start_actors (host 1) [([2%Z], host 2); ([3%Z], host 3)] [1%Z]
    empty_db empty_db empty_db empty_db).
Definition greeted : Execution :=
  serve_connection TcpUpgrader tt (λ _, Ok (Some (Protocol.Version [4%Z] (host 4)))) (start_listener starting).
Definition up : Execution :=
  bootstrap_turn [RespVersionAck (mkVersionAck [2%Z] (host 2) []);
    RespVersionAck (mkVersionAck [3%Z] (host 3) [([1%Z], host 1)])] greeted.

Lemma greeted_reachable : rtc exec_step starting greeted.
Proof.
  eapply rtc_l; [apply exec_listen; reflexivity|]. apply rtc_once, exec_serve. reflexivity.
Qed.

Lemma executions_refine_membership_witness :
  ex_phase up = IceRunning ∧ bool_decide ([4%Z] ∈ dom (sm_map (vw_peers (nd_view (ex_node up))))) = true ∧
  ([1%Z] ∉ dom (sm_map (vw_peers (nd_view (ex_node up))))) ∧
  ic_bootstrapped (nd_ice (ex_node greeted)) = false.
Proof.
  split; [vm_compute; reflexivity|]. split; [vm_compute; reflexivity|].
  assert ([1%Z] ∉ [([2%Z], host 2); ([3%Z], host 3)].*1) as Hid by (apply (bool_decide_unpack _); vm_compute; exact I).
  destruct (executions_refine_membership (SD := map_sled) (host 1) _ [1%Z] empty_db empty_db empty_db empty_db greeted Hid greeted_reachable)
    as (_ & _ & Hquiet & _).
  destruct (executions_refine_membership (SD := map_sled) (host 1) _ [1%Z] empty_db empty_db empty_db empty_db up Hid)
    as (_ & [[_ _ Hself _] _ _ _ _ _] & _).
  - eapply rtc_r; [exact greeted_reachable|]. apply exec_bootstrap. vm_compute. reflexivity.
  - split; [exact Hself|]. apply Hquiet. vm_compute. reflexivity.
Defined.
End startup_witness.
