(* ===== verification/Channel.v ===== *)
(** * Channel.v: the channel between client and server
      (src/src/channel/asymmetric.rs, the conversions of errors in src/src/lib.rs, the
      use of the channel in src/src/client.rs and src/src/server/server.rs)

    Framing and serialisation belong to tokio-util and bincode: [Framed] is what they
    write for a message and what they read from the bytes that have arrived.  A
    connection is the bytes on their way in each direction. *)

From stdpp Require Import prelude gmap sets list strings.
From Stdlib Require Import ZArith Lia.
From S2P Require Import Prelude Orders Cell Instances Dag ConflictGraph Blocks Storage SledInstances BlockStorage.
From S2P Require Import Util Operations DependencyGraph AlphaState Sleet Hail Ice View Dissemination Alpha Ids Router Network.

(** [channel::Error], with the printed errors of the codecs *)
Module ChannelError.
Inductive Error : Type :=
| IO
| ReadError (s : string)
| WriteError (s : string).
End ChannelError.

Class Framed (A : Type) : Type := {
  (** [Sink::send]: the bytes of a message, or an error *)
  frame : A → string + bytes;
  (** [TryStream::try_next] on the bytes of a TCP connection, or of a TLS session, that
      the other end drops after them: the bytes that are left, and a message, the end of
      the stream or an error *)
  try_next (tls : bool) : bytes → bytes * (string + option A)
}.

(** A message is read whole, whatever follows.  A TCP connection that was dropped ends
    the stream; a TLS session that was dropped without a [close_notify], which neither
    end sends, reads as [UnexpectedEof]. *)
Class FramedLaws (A : Type) `{Framed A} : Prop := {
  try_next_frame : ∀ tls a b rest, frame a = inr b → try_next tls (b ++ rest) = (rest, inr (Some a));
  try_next_end : try_next false [] = ([], inr None);
  try_next_eof : ∃ e, try_next true [] = ([], inl e)
}.

(** The bytes on the way to either end. *)
Record Duplex : Type := mkDuplex { to_server : bytes; to_client : bytes }.

(** ** The channel (src/src/channel/asymmetric.rs) *)
Section channel.
Context {NT : Net}.

Record Channel : Type := mkChannel { ch_socket : option ConnectionStream }.

Definition wrap (socket : ConnectionStream) : res ChannelError.Error Channel :=
  Ok (mkChannel (Some socket)).

(** [split] takes the socket; the second call panics. *)
Definition split : st Channel ChannelError.Error ConnectionStream := λ c,
  (mkChannel None, unwrap (ch_socket c)).

(** The two ends: the client sends [I] and receives [O], the server the reverse. *)
Definition client_send {I} `{Framed I} (item : I) : st Duplex ChannelError.Error unit := λ d,
  match frame item with
  | inr b => (mkDuplex (to_server d ++ b) (to_client d), Ok tt)
  | inl e => (d, Err (ChannelError.WriteError e))
  end.

Definition server_send {O} `{Framed O} (item : O) : st Duplex ChannelError.Error unit := λ d,
  match frame item with
  | inr b => (mkDuplex (to_server d) (to_client d ++ b), Ok tt)
  | inl e => (d, Err (ChannelError.WriteError e))
  end.

Definition server_recv {I} `{Framed I} (tls : bool) : st Duplex ChannelError.Error (option I) := λ d,
  let '(rest, r) := try_next tls (to_server d) in
  (mkDuplex rest (to_client d),
   match r with inr o => Ok o | inl e => Err (ChannelError.ReadError e) end).

Definition client_recv {O} `{Framed O} (tls : bool) : st Duplex ChannelError.Error (option O) := λ d,
  let '(rest, r) := try_next tls (to_client d) in
  (mkDuplex (to_server d) rest,
   match r with inr o => Ok o | inl e => Err (ChannelError.ReadError e) end).

(** [From<channel::Error<..>> for Error] (src/src/lib.rs), for both directions *)
Definition crate_error (e : ChannelError.Error) : CrateError.Error :=
  match e with
  | ChannelError.IO => CrateError.IO
  | ChannelError.ReadError s => CrateError.ChannelError s
  | ChannelError.WriteError s => CrateError.ChannelError s
  end.

(** [?] on the error of a channel *)
Definition channel_try {A} (m : st Duplex ChannelError.Error A) : st Duplex CrateError.Error A :=
  zoom (λ d, d) (λ d _, d) crate_error m.

(** ** Both ends of a connection *)
Context {IC : IdCrates} {FQ : Framed Protocol.Request} {FR : Framed Protocol.Response}.
Context {CR : Crypto} {IO : IterOrder} {BP : BuildProfile} {SC : StateCodec} {SD : Sled}
  {BC : BlockCodec} {TC : TxCodec} {SO : Sortition} {RN : Rng}.

(** The rest of [oneshot], when [serve] is what the other end does once the request is
    on its way: it reads and writes the connection, and drops it. *)
Definition exchange_with (serve : Duplex → Duplex) (c : ConnectionStream)
    (request : Protocol.Request) : res CrateError.Error (option Protocol.Response) :=
  channel ← map_err crate_error (wrap c);
  socket ← map_err crate_error (split channel).2;
  ((channel_try (client_send request);;
    modify serve;;
    channel_try (client_recv (is_tls socket))) (mkDuplex [] [])).2.

(** The whole of [process_stream]: the state is the node with the connection.
    [outcome] is what a pending query is resolved with, if it is. *)
Definition serve_stream (u : Upgrader) (stream : TcpStream) (outcome : option bool) :
    st (Node * Duplex) CrateError.Error unit :=
  connection ← of_res (upgrade u stream);
  peer_id ← of_res (unwrap (get_id connection));
  channel ← of_res (unwrap_res (wrap connection));
  socket ← of_res (unwrap_res (split channel).2);
  request ← unwrap_st (zoom snd (λ d s, (s.1, d)) (λ e : ChannelError.Error, e)
    (server_recv (is_tls socket)));
  match request with
  | Some request =>
      response ← unwrap_st (zoom fst (λ n s, (n, s.2)) (λ e : Empty_set, e)
        (route (mkRouterRequest peer_id (upgrader_is_tls u) request)));
      unwrap_st (zoom snd (λ d s, (s.1, d)) (λ e : ChannelError.Error, e)
        (server_send (settle response outcome)))
  | None => mret tt
  end.
End channel.

(** ** Properties *)

(** Messages arrive in the order in which they were sent, each once, and then the
    end, which a TLS session that was dropped reports as an error. *)
Theorem channel_fifo {I} `{FramedLaws I} tls (items : list I) d :
  foreach items client_send (mkDuplex [] []) = (d, Ok tt) →
  ∃ d', for_acc items (λ _ got, o ← server_recv tls; mret (got ++ option_list o)) [] d = (d', Ok items) ∧
    (if tls then ∃ e, (server_recv (I:=I) tls d').2 = Err (ChannelError.ReadError e)
     else (server_recv (I:=I) tls d').2 = Ok None).
Proof.
  assert (∀ items d0 d, foreach items client_send d0 = (d, Ok tt) →
    ∃ b, d = mkDuplex (to_server d0 ++ b) (to_client d0) ∧
      ∀ rest cl acc, for_acc items (λ _ got, o ← server_recv tls; mret (got ++ option_list o)) acc
          (mkDuplex (b ++ rest) cl) = (mkDuplex rest cl, Ok (acc ++ items))) as Hgen.
  { clear items d. induction items as [|x items IH]; intros d0 d Hs.
    - injection Hs as <-. exists []. split; [by destruct d0; rewrite app_nil_r|].
      intros rest cl acc. cbn. by rewrite app_nil_r.
    - rewrite foreach_cons in Hs. apply st_bind_Ok_inv in Hs as (d1 & [] & Hx & Hs).
      unfold client_send in Hx. destruct (frame x) as [|bx] eqn:Hf; [done|]. injection Hx as <-.
      destruct (IH _ _ Hs) as (b & -> & Hr). exists (bx ++ b). cbn. split; [by rewrite app_assoc|].
      intros rest cl acc. cbn [for_acc]. erewrite st_bind_Ok.
      2: { erewrite st_bind_Ok; [reflexivity|]. unfold server_recv. cbn [to_server to_client].
           by rewrite <- (app_assoc bx b rest), (try_next_frame tls x bx) by done. }
      cbn [option_list]. rewrite Hr. by rewrite <- app_assoc. }
  intros Hs. destruct (Hgen items _ d Hs) as (b & -> & Hr). cbn.
  exists (mkDuplex [] []). split.
  - specialize (Hr [] [] []). by rewrite app_nil_r in Hr.
  - unfold server_recv. cbn. destruct tls; [|by rewrite try_next_end].
    destruct try_next_eof as [e ->]. by exists e.
Qed.

Section end_to_end.
Context {NT : Net} {IC : IdCrates}.
Context {FQ : Framed Protocol.Request} {FR : Framed Protocol.Response}
  {LQ : FramedLaws Protocol.Request} {LR : FramedLaws Protocol.Response}.
Context {CR : Crypto} {IO : IterOrder} {BP : BuildProfile} {SC : StateCodec} {SD : Sled}
  {BC : BlockCodec} {TC : TxCodec} {SO : Sortition} {RN : Rng}.
Implicit Types (u : Upgrader) (n : Node) (req : Protocol.Request).

(** The server on a connection on which a request is waiting. *)
Lemma serve_stream_request u stream c peer req b o n n' r :
  upgrade u stream = Ok c → get_id c = Some peer → frame req = inr b →
  route (mkRouterRequest peer (upgrader_is_tls u) req) n = (n', r) →
  (serve_stream u stream o (n, mkDuplex b [])).1 =
    (n', mkDuplex [] match r with
                     | Ok a => match frame (settle a o) with inr b' => b' | inl _ => [] end
                     | _ => []
                     end).
Proof.
  intros Hc Hid Hf Hr. unfold serve_stream, mbind, st_bind, of_res. rewrite Hc, Hid. cbn.
  unfold unwrap_st, zoom, server_recv. cbn.
  rewrite <- (app_nil_r b), (try_next_frame _ req b) by done. cbn. rewrite Hr.
  destruct r as [a|[]| |]; cbn; [|done..]. unfold server_send. by destruct (frame (settle a o)).
Qed.

(** The answer that goes over the wire, if there is one. *)
Definition wire_answer (r : res Empty_set Answer) (o : option bool) : option Protocol.Response :=
  match r with
  | Ok a => if frame (settle a o) is inr _ then Some (settle a o) else None
  | _ => None
  end.

(** What the client reads when the server has answered, or has dropped the connection. *)
Lemma client_reads tls r o :
  (client_recv tls (mkDuplex [] match r with
      | Ok a => match frame (settle a o) with inr b' => b' | inl _ => [] end
      | _ => []
      end)).2 = Ok (wire_answer r o) ∧ (tls = true → is_Some (wire_answer r o)) ∨
  wire_answer r o = None ∧ tls = true ∧
    ∃ e, (client_recv (O:=Protocol.Response) tls (mkDuplex [] match r with
      | Ok a => match frame (settle a o) with inr b' => b' | inl _ => [] end
      | _ => []
      end)).2 = Err (ChannelError.ReadError e).
Proof.
  assert ((client_recv (O:=Protocol.Response) tls (mkDuplex [] [])).2 = Ok None ∧ tls = false ∨
    tls = true ∧ ∃ e, (client_recv (O:=Protocol.Response) tls (mkDuplex [] [])).2 =
      Err (ChannelError.ReadError e)) as Hend.
  { unfold client_recv. cbn. destruct tls; [right|left; by rewrite try_next_end].
    destruct try_next_eof as [e ->]. split; [done|]. by exists e. }
  unfold wire_answer. destruct r as [a|[]| |]; [|naive_solver..].
  destruct (frame (settle a o)) as [|b'] eqn:Ha; [naive_solver|]. left.
  unfold client_recv. cbn [to_client]. rewrite <- (app_nil_r b'), (try_next_frame _ _ b') by done. eauto.
Qed.

(** C23: A request and its answer cross the wire.  The client connects, and with TLS the
    certificate of the server is that of the peer it wants; the server takes the
    connection and knows the id of the client.  Then the server runs the request in its
    router under that id, and the client gets exactly the answer of the router, or the
    outcome of the query it was waiting for.  When the router panics or the answer
    cannot be serialised the connection is dropped: the client then gets no answer and
    no error over TCP, and an error of the channel over TLS. *)
Theorem request_served_end_to_end uc us id ip s c s' c' peer req b n n' r o :
  tcp_connect ip = Some s → upgrade uc s = Ok c →
  (upgrader_is_tls uc = true → get_id c = Some id) →
  upgrade us s' = Ok c' → get_id c' = Some peer → frame req = inr b →
  route (mkRouterRequest peer (upgrader_is_tls us) req) n = (n', r) →
  (serve_stream us s' o (n, mkDuplex b [])).1.1 = n' ∧
  let got := oneshot (exchange_with (λ d, (serve_stream us s' o (n, d)).1.2)) uc id ip req in
  match wire_answer r o with
  | Some answer => got = Ok (Some answer)
  | None => if upgrader_is_tls uc then ∃ e, got = Err (CrateError.ChannelError e) else got = Ok None
  end.
Proof.
  intros Hs Hc Hid Hc' Hpeer Hf Hr.
  pose proof (serve_stream_request us s' c' peer req b o n n' r Hc' Hpeer Hf Hr) as Hserve.
  split; [by rewrite Hserve|]. intros got.
  assert (got = map_err crate_error (client_recv (upgrader_is_tls uc) (serve_stream us s' o
    (n, mkDuplex b [])).1.2).2) as ->.
  { assert (exchange_with (λ d, (serve_stream us s' o (n, d)).1.2) c req = map_err crate_error
      (client_recv (upgrader_is_tls uc) (serve_stream us s' o (n, mkDuplex b [])).1.2).2) as Hex.
    { unfold exchange_with. cbn. unfold mbind, st_bind, channel_try, zoom, client_send.
      rewrite Hf, (upgrade_is_tls uc s c Hc). cbn. by destruct (client_recv _ _). }
    rewrite <- Hex. unfold got. generalize (exchange_with (λ d, (serve_stream us s' o (n, d)).1.2)).
    intros exchange. unfold oneshot. rewrite Hs. cbn. rewrite Hc. cbn. rewrite (upgrade_is_tls uc s c Hc).
    destruct (upgrader_is_tls uc); [|done]. rewrite Hid by done. cbn.
    by rewrite bool_decide_eq_false_2 by tauto. }
  rewrite Hserve. cbn [snd].
  destruct (client_reads (upgrader_is_tls uc) r o) as [[-> Htls]|(-> & -> & e & ->)]; [|by exists e].
  destruct (wire_answer r o) as [x|]; [done|]. destruct (upgrader_is_tls uc); [|done].
  by destruct Htls.
Qed.
End end_to_end.

(** ** Witness *)
Section channel_witness.
#[local] Existing Instance plain_crypto.
#[local] Existing Instance canonical_order.
#[local] Existing Instance release_profile.
#[local] Existing Instance plain_state_codec.
#[local] Existing Instance num_block_codec.
#[local] Existing Instance num_tx_codec.
#[local] Existing Instance map_sled.
#[local] Existing Instance keep_order.
#[local] Existing Instance letter_crates.
#[local] Existing Instance whole_stake.
#[local] Existing Instance two_certs.

(** Codecs for two requests and one response. *)
Definition ancestors_codec : Framed Protocol.Request := {|
  frame r := match r with
             | Protocol.GetTxAncestors [z] => inr [1%Z; z]
             | Protocol.GetCellHashes => inr [3%Z]
             | _ => inl "too long"%string
             end;
  try_next tls b := match b with
                | [] => ([], if tls then inl "unexpected end of file"%string else inr None)
                | 1%Z :: z :: rest => (rest, inr (Some (Protocol.GetTxAncestors [z])))
                | 3%Z :: rest => (rest, inr (Some Protocol.GetCellHashes))
                | _ => ([], inl "bad frame"%string)
                end
|}.
Definition refusal_codec : Framed Protocol.Response := {|
  frame r := match r with Protocol.RequestRefused => inr [2%Z] | _ => inl "too long"%string end;
  try_next tls b := match b with
                | [] => ([], if tls then inl "unexpected end of file"%string else inr None)
                | 2%Z :: rest => (rest, inr (Some Protocol.RequestRefused))
                | _ => ([], inl "bad frame"%string)
                end
|}.

Lemma ancestors_codec_laws : @FramedLaws _ ancestors_codec.
Proof.
  split; [|done|by eexists]. intros tls [] b rest; cbn; try discriminate; [by intros [= <-]|].
  destruct tx_hash as [|z [|]]; try discriminate. by intros [= <-].
Qed.
Lemma refusal_codec_laws : @FramedLaws _ refusal_codec.
Proof. split; [|done|by eexists]. intros tls [] b rest; cbn; try discriminate. by intros [= <-]. Qed.
#[local] Existing Instance ancestors_codec.
#[local] Existing Instance refusal_codec.
#[local] Existing Instance ancestors_codec_laws.
#[local] Existing Instance refusal_codec_laws.

(** The node asks itself, over TLS or TCP. *)
Definition ask (uc us : Upgrader) (req : Protocol.Request) : res CrateError.Error (option Protocol.Response) :=
  oneshot (exchange_with (λ d,
      (serve_stream us (tt : @TcpStream two_certs) None (router_started started_node, d)).1.2))
    uc (id_new [5%Z]) node_addr req.

Definition routed (peer : Id) (tls : bool) : Node * res Empty_set Answer :=
  route (mkRouterRequest peer tls Protocol.GetCellHashes) (router_started started_node).
Lemma routed_unserialised peer tls : wire_answer (routed peer tls).2 None = None.
Proof. reflexivity. Qed.

(** Over TLS its certificate is not that of a staker, and a request for ancestors is
    refused.  The answer with the cell hashes cannot be serialised by the codec. *)
Lemma request_served_end_to_end_witness :
  ask TlsClientUpgrader TlsServerUpgrader (Protocol.GetTxAncestors [0%Z]) =
    Ok (Some Protocol.RequestRefused) ∧
  ask TcpUpgrader TcpUpgrader Protocol.GetCellHashes = Ok None ∧
  ∃ e, ask TlsClientUpgrader TlsServerUpgrader Protocol.GetCellHashes =
    Err (CrateError.ChannelError e).
Proof.
  split_and!.
  - assert (∃ n' a, route (mkRouterRequest (id_new [7%Z]) true (Protocol.GetTxAncestors [0%Z]))
        (router_started started_node) = (n', Ok a) ∧ settle a None = Protocol.RequestRefused)
      as (n' & a & Hr & Ha).
    { eexists _, _. split; [apply route_refuses|reflexivity].
      split_and!; [reflexivity| |reflexivity]. apply (bool_decide_unpack _). vm_compute. exact I. }
    destruct (request_served_end_to_end TlsClientUpgrader TlsServerUpgrader (id_new [5%Z]) node_addr
      (tt : @TcpStream two_certs) (TlsClient (tt : @TcpStream two_certs) (Some [[5%Z]]))
      (tt : @TcpStream two_certs) (TlsServer (tt : @TcpStream two_certs) (Some [[7%Z]]))
      (id_new [7%Z]) (Protocol.GetTxAncestors [0%Z]) [1%Z; 0%Z]
      (router_started started_node) n' (Ok a) None) as [_ H];
      [reflexivity..|exact Hr|]. unfold wire_answer in H. rewrite Ha in H. exact H.
  - destruct (request_served_end_to_end TcpUpgrader TcpUpgrader (id_new [5%Z]) node_addr
      (tt : @TcpStream two_certs) (Tcp (tt : @TcpStream two_certs))
      (tt : @TcpStream two_certs) (Tcp (tt : @TcpStream two_certs))
      (from_ip node_addr) Protocol.GetCellHashes [3%Z] (router_started started_node)
      (routed (from_ip node_addr) false).1 (routed (from_ip node_addr) false).2 None) as [_ H];
      [reflexivity|reflexivity|discriminate|reflexivity|reflexivity|reflexivity|
       apply surjective_pairing|]. rewrite routed_unserialised in H. exact H.
  - destruct (request_served_end_to_end TlsClientUpgrader TlsServerUpgrader (id_new [5%Z]) node_addr
      (tt : @TcpStream two_certs) (TlsClient (tt : @TcpStream two_certs) (Some [[5%Z]]))
      (tt : @TcpStream two_certs) (TlsServer (tt : @TcpStream two_certs) (Some [[7%Z]]))
      (id_new [7%Z]) Protocol.GetCellHashes [3%Z] (router_started started_node)
      (routed (id_new [7%Z]) true).1 (routed (id_new [7%Z]) true).2 None) as [_ H];
      [reflexivity..|apply surjective_pairing|]. rewrite routed_unserialised in H. exact H.
Defined.

Lemma channel_fifo_witness :
  ∃ d d', foreach [Protocol.GetTxAncestors [3%Z]; Protocol.GetTxAncestors [4%Z]] client_send
      (mkDuplex [] []) = (d, Ok tt) ∧
    for_acc [Protocol.GetTxAncestors [3%Z]; Protocol.GetTxAncestors [4%Z]]
      (λ _ got, o ← server_recv true; mret (got ++ option_list o)) [] d =
      (d', Ok [Protocol.GetTxAncestors [3%Z]; Protocol.GetTxAncestors [4%Z]]).
Proof.
  eexists. edestruct (channel_fifo (I:=Protocol.Request) true
    [Protocol.GetTxAncestors [3%Z]; Protocol.GetTxAncestors [4%Z]]) as (d' & Hd & _);
    [reflexivity|]. exists d'. split; [reflexivity|exact Hd].
Defined.
End channel_witness.
