(* ===== verification/Tls.v ===== *)
(** * Tls.v: the configuration of TLS (src/src/tls/tls.rs, the constructors of
      src/src/tls/upgrader.rs)

    The handshake is that of rustls.  [Rustls] runs it for a configuration; what its
    documentation promises about the verifiers it calls is [RustlsLaws].  With the two
    configurations of the node the handshakes make up a network ([Net]) as client and
    server use it. *)

From stdpp Require Import prelude gmap sets list strings.
From Stdlib Require Import ZArith Lia.
From S2P Require Import Prelude Orders Cell Instances Dag ConflictGraph Blocks Storage SledInstances BlockStorage.
From S2P Require Import Util Operations DependencyGraph AlphaState Sleet Hail Ice View Dissemination Alpha Ids Router Network.

(** ** Verifiers and configurations *)

(** The methods of [ClientCertVerifier] and [ServerCertVerifier] that are implemented;
    the time and the further arguments are ignored by both. *)
Record ClientCertVerifier : Type := {
  verify_client_cert : bytes → list bytes → bool;
  client_auth_root_subjects : option (list bytes);
  offer_client_auth : bool;
  client_auth_mandatory : option bool
}.

Record ServerCertVerifier : Type := { verify_server_cert : bytes → list bytes → string → bool }.

Definition ZfxClientCertVerifier : ClientCertVerifier := {|
  verify_client_cert _ _ := true;
  client_auth_root_subjects := Some [];
  offer_client_auth := true;
  client_auth_mandatory := Some true
|}.

Definition ZfxServerCertVerifier : ServerCertVerifier := {| verify_server_cert _ _ _ := true |}.

(** The name that clients connect to. *)
Definition DUMMY_DOMAIN : string := "example.org".

Record ClientConfig : Type := mkClientConfig {
  cc_chain : list bytes; cc_key : bytes; cc_verifier : ServerCertVerifier }.
Record ServerConfig : Type := mkServerConfig {
  sc_chain : list bytes; sc_key : bytes; sc_verifier : ClientCertVerifier }.

Class Rustls : Type := {
  Stream : Type;
  stream_connect : SocketAddr → option Stream;
  stream_peer_addr : Stream → option SocketAddr;
  (** [with_single_cert]: whether the key can be used *)
  usable_key : bytes → bool;
  (** the handshake of either side: the certificates that the peer has shown *)
  accept : ServerConfig → Stream → option (option (list bytes));
  connect : ClientConfig → string → Stream → option (option (list bytes))
}.

(** A server that requires authentication takes a client only when it has shown a
    certificate that the verifier accepts; a client takes a server only when it has
    shown a certificate that the verifier accepts. *)
Class RustlsLaws `{Rustls} : Prop := {
  accept_verified : ∀ cfg s certs, accept cfg s = Some certs →
    offer_client_auth (sc_verifier cfg) = true →
    client_auth_mandatory (sc_verifier cfg) = Some true →
    ∃ c cs, certs = Some (c :: cs) ∧ verify_client_cert (sc_verifier cfg) c cs = true;
  connect_verified : ∀ cfg name s certs, connect cfg name s = Some certs →
    ∃ c cs, certs = Some (c :: cs) ∧ verify_server_cert (cc_verifier cfg) c cs name = true
}.

Section tls.
Context `{Rustls}.
Implicit Types (cert key : bytes).

(** [client_tls_config] and [server_tls_config]; a bad key panics. *)
Definition client_tls_config cert key : res CrateError.Error ClientConfig :=
  if usable_key key then Ok (mkClientConfig [cert] key ZfxServerCertVerifier) else Panic.

Definition server_tls_config cert key : res CrateError.Error ServerConfig :=
  if usable_key key then Ok (mkServerConfig [cert] key ZfxClientCertVerifier) else Panic.

(** [tls_upgraders] and [tcp_upgraders]: the handshakes of the two upgraders. *)
Definition tls_net (cc : ClientConfig) (sc : ServerConfig) : Net := {|
  TcpStream := Stream;
  tcp_connect := stream_connect;
  tcp_peer_addr := stream_peer_addr;
  tls_connect := connect cc DUMMY_DOMAIN;
  tls_accept := accept sc
|}.

Record Upgraders : Type := mkUpgraders { up_client : Upgrader; up_server : Upgrader }.

Definition tls_upgraders cert key : res CrateError.Error (Upgraders * Net) :=
  cc ← client_tls_config cert key;
  sc ← server_tls_config cert key;
  Ok (mkUpgraders TlsClientUpgrader TlsServerUpgrader, tls_net cc sc).

Definition tcp_upgraders : Upgraders := mkUpgraders TcpUpgrader TcpUpgrader.
End tls.

(** ** Properties *)
Section tls_facts.
Context {RS : Rustls} {RL : RustlsLaws} {IC : IdCrates}.

(** The first certificate that the peer of a connection has shown. *)
Definition shown {NT : Net} (c : ConnectionStream) : option bytes :=
  match c with
  | TlsServer _ (Some (cert :: _)) | TlsClient _ (Some (cert :: _)) => Some cert
  | _ => None
  end.

(** With TLS every peer has an id.  Under the configurations of a node, each
    connection that one of its upgraders yields is encrypted, the peer has shown a
    certificate, and the id of the connection is its hash, so that a server never
    panics on the id.  Nothing but the presence of a certificate is asked for: both
    verifiers accept every certificate and every chain behind it. *)
Theorem tls_peers_identified cert key us NT s c u :
  tls_upgraders cert key = Ok (us, NT) →
  u = up_client us ∨ u = up_server us → @upgrade NT u s = Ok c →
  @is_tls NT c = true ∧
  (∃ shown_cert, @shown NT c = Some shown_cert ∧ @get_id NT IC c = Some (id_new shown_cert)) ∧
  ∀ end_entity chain name,
    verify_client_cert ZfxClientCertVerifier end_entity chain = true ∧
    verify_server_cert ZfxServerCertVerifier end_entity chain name = true.
Proof.
  unfold tls_upgraders, client_tls_config, server_tls_config. destruct (usable_key key); [|done].
  intros [= <- <-] Hu Hup. destruct Hu as [Hu|Hu]; subst u; cbn in Hup.
  - destruct (connect _ _ s) as [certs|] eqn:Hc; [|done]. injection Hup as <-.
    destruct (connect_verified _ _ _ _ Hc) as (c0 & cs & -> & _). split_and!; [done| |done].
    exists c0. done.
  - destruct (accept _ s) as [certs|] eqn:Hc; [|done]. injection Hup as <-.
    destruct (accept_verified _ _ _ Hc eq_refl eq_refl) as (c0 & cs & -> & _).
    split_and!; [done| |done]. exists c0. done.
Qed.
End tls_facts.

(** ** Witness *)
Section tls_witness.
#[local] Existing Instance letter_crates.

(** Every peer shows the certificate [[9]] to those who ask for one. *)
Definition nine : Rustls := {|
  Stream := unit;
  stream_connect _ := Some tt;
  stream_peer_addr _ := None;
  usable_key _ := true;
  accept cfg _ :=
    if offer_client_auth (sc_verifier cfg) then
      if verify_client_cert (sc_verifier cfg) [9%Z] [] then Some (Some [[9%Z]]) else None
    else Some None;
  connect cfg name _ :=
    if verify_server_cert (cc_verifier cfg) [9%Z] [] name then Some (Some [[9%Z]]) else None
|}.
#[local] Existing Instance nine.

Lemma nine_laws : RustlsLaws.
Proof.
  split; cbn.
  - intros cfg s certs Ha Ho _. rewrite Ho in Ha. destruct (verify_client_cert _ _ _) eqn:Hv; [|done].
    injection Ha as <-. eauto.
  - intros cfg name s certs Ha. destruct (verify_server_cert _ _ _ _) eqn:Hv; [|done].
    injection Ha as <-. eauto.
Qed.
#[local] Existing Instance nine_laws.

Definition nine_net : Net :=
  tls_net (mkClientConfig [[5%Z]] [6%Z] ZfxServerCertVerifier)
    (mkServerConfig [[5%Z]] [6%Z] ZfxClientCertVerifier).

Lemma tls_peers_identified_witness :
  ∃ us c, tls_upgraders [5%Z] [6%Z] = Ok (us, nine_net) ∧
    @upgrade nine_net (up_server us) (tt : @TcpStream nine_net) = Ok c ∧
    @get_id nine_net letter_crates c = Some (id_new [9%Z]).
Proof.
  eexists _, _. split; [reflexivity|]. split; [reflexivity|].
  edestruct (tls_peers_identified [5%Z] [6%Z] (mkUpgraders TlsClientUpgrader TlsServerUpgrader)
    nine_net (tt : @TcpStream nine_net)) as (_ & (sc & Hs & Hid) & _);
    [reflexivity|right; reflexivity|reflexivity|].
  etransitivity; [exact Hid|]. cbn in Hs. injection Hs as <-. reflexivity.
Defined.
End tls_witness.
