(* ===== verification/NodeMachine.v ===== *)
(** * NodeMachine.v: the whole node as a state machine
      (src/src/server/router.rs, src/src/server/node.rs)

    A step of a node is a request of another node that reaches the router, or a message
    of one of its actors.  What sleet and hail guarantee of their states holds of every
    state of the node, and so of what it answers. *)

From stdpp Require Import prelude gmap sets list relations strings.
From Stdlib Require Import ZArith Lia.
From S2P Require Import Prelude Orders Cell Instances Dag ConflictGraph Blocks Storage SledInstances BlockStorage.
From S2P Require Import Util Operations DependencyGraph AlphaState Sleet SleetFacts Hail HailFacts Ice View Dissemination Alpha Ids Router.
From S2P Require Import SleetProperties SleetWitnesses Triples SleetMachine HailMachine Network.

Section node_machine.
Context {CR : Crypto} {IO : IterOrder} {BP : BuildProfile} {SC : StateCodec} {SD : Sled}
  {SL : SledLaws} {BC : BlockCodec} {TC : TxCodec} {TL : TxCodecLaws} {SO : Sortition} {RN : Rng}.
Implicit Types (n : Node) (m : RouterRequest).

(** Of view, ice, alpha and the validators of the router nothing is assumed: they may
    change in any way. *)
Inductive node_step : Node → Node → Prop :=
| node_request m n : node_step n (route m n).1
| node_sleet s n : sleet_step (nd_sleet n) s → node_step n (nd_set_sleet s n)
| node_hail h n : hail_step (nd_hail n) h → node_step n (nd_set_hail h n)
| node_view v n : node_step n (nd_set_view v n)
| node_ice i n : node_step n (nd_set_ice i n)
| node_alpha a n : node_step n (nd_set_alpha a n)
| node_validators vs n : node_step n (set_validator_set vs n).

(** A request runs at most one handler of sleet or hail. *)
Lemma send_sleet_run {E A B} (x : st Sleet E A) (k : A → st Node Empty_set B) n :
  (∀ a n0, (k a n0).1 = n0) →
  ((send_sleet x ≫= k) n).1 = nd_set_sleet (x (nd_sleet n)).1 n.
Proof.
  intros Hk. rewrite bind_state by done. unfold send_sleet, unwrap_st, zoom.
  by destruct (x (nd_sleet n)).
Qed.

Lemma send_hail_run {E A B} (x : st Hail E A) (k : A → st Node Empty_set B) n :
  (∀ a n0, (k a n0).1 = n0) →
  ((send_hail x ≫= k) n).1 = nd_set_hail (x (nd_hail n)).1 n.
Proof.
  intros Hk. rewrite bind_state by done. unfold send_hail, unwrap_st, zoom.
  by destruct (x (nd_hail n)).
Qed.

Lemma changes_sleet r n n' : changes r n n' →
  nd_sleet n' = nd_sleet n ∨ (∃ cell, r = Protocol.GenerateTx cell) ∨
  ∃ id ip tx, r = Protocol.QueryTx id ip tx.
Proof. destruct 1; naive_solver. Qed.

Lemma changes_hail r n n' : changes r n n' →
  nd_hail n' = nd_hail n ∨ ∃ id b, r = Protocol.QueryBlock id b.
Proof. destruct 1; naive_solver. Qed.

Lemma route_sleet_steps announced checks m n :
  rtc (sleet_step_with announced checks) (nd_sleet n) (nd_sleet (route m n).1).
Proof.
  destruct (changes_sleet _ _ _ (route_changes m n)) as [->|[[cell Hr]|(id & ip & tx & Hr)]]; [done|..];
    unfold route; rewrite gets_bind; cbn zeta; rewrite Hr.
  - rewrite send_sleet_run by done. apply rtc_once, step_generate_tx.
  - destruct (_ && _); [done|]. rewrite send_sleet_run by (by intros []). apply rtc_once, step_query_tx.
Qed.

Lemma route_hail_steps announced m n :
  rtc (hail_step_with announced) (nd_hail n) (nd_hail (route m n).1).
Proof.
  destruct (changes_hail _ _ _ (route_changes m n)) as [->|(id & b & Hr)]; [done|].
  unfold route; rewrite gets_bind; cbn zeta; rewrite Hr. destruct (_ && _); [done|].
  rewrite send_hail_run by done. apply rtc_once, hail_step_query_block.
Qed.

Lemma node_steps n n' : rtc node_step n n' →
  rtc sleet_step (nd_sleet n) (nd_sleet n') ∧ rtc hail_step (nd_hail n) (nd_hail n').
Proof.
  induction 1 as [n|n n1 n2 Hs _ [IHs IHh]]; [done|].
  assert (rtc sleet_step (nd_sleet n) (nd_sleet n1) ∧ rtc hail_step (nd_hail n) (nd_hail n1)) as [? ?].
  { destruct Hs; cbn; [split; [apply route_sleet_steps|apply route_hail_steps]|split; [by apply rtc_once|done]|split; [done|by apply rtc_once]|done..]. }
  split; by etrans.
Qed.

(** The states of a node that was started. *)
Definition node_reachable n : Prop :=
  ∃ ip peers id tree known_txs known_blocks queried_blocks,
    tx_db_wf known_txs ∧
    rtc node_step (start_actors ip peers id tree known_txs known_blocks queried_blocks) n.

Lemma reachable_parts n n' : node_reachable n → rtc node_step n n' →
  sleet_inv (λ _, true) [] (nd_sleet n) (nd_sleet n') ∧ hail_inv (nd_hail n) (nd_hail n').
Proof.
  intros (ip & peers & id & tree & txs & kb & qb & Hdb & Hn) Hn'.
  apply node_steps in Hn as [Hs Hh], Hn' as [Hs' Hh']. split.
  - eapply reachable_keeps; [by eapply rtc_subrel, Hs'; apply sleet_step_all|].
    eapply sleet_inv_refl, reachable_keeps; [by eapply rtc_subrel, Hs; apply sleet_step_all|].
    by apply sleet_new_inv.
  - eapply hail_reachable_keeps; [exact Hh'|].
    destruct (hail_reachable_keeps _ _ _ Hh (hail_new_inv id kb qb)) as [? ? [] [] ? ? ? ? ? ?]. by split.
Qed.

Lemma fetch_tx_known h tx n :
  tx_db_wf (sl_known_txs (nd_sleet n)) →
  handle_fetch_tx h (nd_sleet n) = Some tx ↔ known (sl_known_txs (nd_sleet n)) !! h = Some tx.
Proof.
  intros Hwf. unfold handle_fetch_tx. rewrite get_tx_spec by done.
  destruct (known _ !! h); naive_solver.
Qed.

Lemma get_accepted_cell_known h n :
  tx_db_wf (sl_known_txs (nd_sleet n)) →
  handle_get_accepted_cell h (nd_sleet n) = tx_cell <$> known (sl_known_txs (nd_sleet n)) !! h.
Proof.
  intros Hwf. unfold handle_get_accepted_cell. rewrite get_tx_spec by done.
  by destruct (known _ !! h).
Qed.

(** A stored transaction stays stored, with the same cell. *)
Lemma known_stays `{!CryptoLaws} n n' h tx :
  sleet_inv (λ _, true) [] (nd_sleet n) (nd_sleet n') → tx_db_wf (sl_known_txs (nd_sleet n)) →
  known (sl_known_txs (nd_sleet n)) !! h = Some tx →
  ∃ tx', known (sl_known_txs (nd_sleet n')) !! h = Some tx' ∧ tx_hash tx' = h ∧
    tx_cell tx' = tx_cell tx.
Proof.
  intros Hs Hwf Htx.
  assert (h ∈ dom (known (sl_known_txs (nd_sleet n')))) as [tx' Htx']%elem_of_dom.
  { apply (si_known _ _ _ _ Hs). by eapply elem_of_dom_2. }
  assert (tx_hash tx = h) by (eapply known_hash; [exact Hwf|exact Htx]).
  assert (tx_hash tx' = h) by (eapply known_hash; [apply Hs|exact Htx']).
  exists tx'. split_and!; [done|done|]. apply hash_inj. unfold tx_hash in *. congruence.
Qed.

(** C12: What a node serves is what was asked for, and it stays available.  In every
    state that a started node can reach, by whatever requests of peers and messages of
    its actors, and when no two contents have the same hash: a block it returns for a
    hash has that hash, and in every later state it returns the same block for it; a
    transaction it returns has the hash that was asked for, and in every later state it
    returns a transaction with the same cell for it (its parents and its status may be
    others, since a removed transaction can be issued again); a cell it returns as
    accepted has the hash, and in every later state the same cell is returned for it. *)
Theorem served_content_matches_hash `{!CryptoLaws, !BlockCodecLaws} n n' m :
  node_reachable n → rtc node_step n n' →
  let reply n := (route m n).2 in
  (∀ h b, rr_request m = Protocol.GetBlock h → reply n = Ok (Answered (Protocol.BlockAck (Some b))) →
     block_id b = h ∧ reply n' = Ok (Answered (Protocol.BlockAck (Some b)))) ∧
  (∀ h tx, rr_request m = Protocol.FetchTx h → reply n = Ok (Answered (Protocol.FetchedTx (Some tx))) →
     tx_hash tx = h ∧
     ∃ tx', reply n' = Ok (Answered (Protocol.FetchedTx (Some tx'))) ∧
       tx_hash tx' = h ∧ tx_cell tx' = tx_cell tx) ∧
  (∀ h c, rr_request m = Protocol.GetAcceptedCell h →
     reply n = Ok (Answered (Protocol.AcceptedCellAck (Some c))) →
     hash c = h ∧ reply n' = Ok (Answered (Protocol.AcceptedCellAck (Some c)))).
Proof.
  intros Hn Hn' reply. destruct (reachable_parts n n' Hn Hn') as [Hs Hh].
  destruct (reachable_parts n n Hn (rtc_refl _ _)) as [Hs0 Hh0].
  split_and!.
  - intros h b Hr Hb. unfold reply, route in *. rewrite gets_bind, Hr in *. cbn in *.
    injection Hb as Hb. unfold hail_get_block in *.
    assert (block_id b = h) as Hid by (by apply (hi_live _ _ Hh0)). split; [done|].
    assert (h ∈ dom (hl_live_blocks (nd_hail n'))) as [b' Hb']%elem_of_dom.
    { apply (hi_served _ _ Hh). by eapply elem_of_dom_2. }
    assert (b = b') as ->; [|by rewrite <- Hb'].
    apply block_id_inj. rewrite Hid. symmetry. by apply (hi_live _ _ Hh).
  - intros h tx Hr Hb. unfold reply, route in *. rewrite gets_bind, Hr in *. cbn in *.
    injection Hb as Hb. apply fetch_tx_known in Hb; [|apply Hs0].
    split; [by eapply known_hash, Hb; apply Hs0|].
    destruct (known_stays n n' h tx Hs (si_db _ _ _ _ Hs0) Hb) as (tx' & Htx' & Hh' & Hc').
    exists tx'. split; [|done]. apply fetch_tx_known in Htx'; [|apply Hs]. by rewrite <- Htx'.
  - intros h c Hr Hb. unfold reply, route in *. rewrite gets_bind, Hr in *. cbn in *.
    injection Hb as Hb. change (handle_get_accepted_cell h (nd_sleet n) = Some c) in Hb.
    rewrite get_accepted_cell_known in Hb by apply Hs0. apply fmap_Some in Hb as (tx & Htx & ->). split; [by eapply known_hash, Htx; apply Hs0|].
    destruct (known_stays n n' h tx Hs (si_db _ _ _ _ Hs0) Htx) as (tx' & Htx' & _ & Hc').
    pose proof (get_accepted_cell_known h n' (si_db _ _ _ _ Hs)) as Hg.
    rewrite Htx' in Hg. cbn [fmap option_fmap option_map] in Hg. by rewrite <- Hc', <- Hg.
Qed.
End node_machine.

(** ** Witness *)
Section node_witness.
#[local] Existing Instance plain_crypto.
#[local] Existing Instance plain_crypto_laws.
#[local] Existing Instance canonical_order.
#[local] Existing Instance release_profile.
#[local] Existing Instance plain_state_codec.
#[local] Existing Instance num_block_codec.
#[local] Existing Instance num_block_codec_laws.
#[local] Existing Instance num_tx_codec.
#[local] Existing Instance num_tx_codec_laws.
#[local] Existing Instance map_sled.
#[local] Existing Instance map_sled_laws.
#[local] Existing Instance keep_order.
#[local] Existing Instance whole_stake.

(** A node that was started, got its committee and was asked about [tx_a]. *)
Definition n_started : Node := start_actors my_ip [] me empty_db empty_db empty_db empty_db.
Definition n_live : Node := nd_set_sleet s_live n_started.
Definition n_asked : Node := (route (mkRouterRequest me false (Protocol.QueryTx me my_ip tx_a)) n_live).1.
Definition fetch_a : RouterRequest := mkRouterRequest me false (Protocol.FetchTx (tx_hash tx_a)).

Lemma n_asked_reachable : node_reachable n_asked.
Proof.
  exists my_ip, [], me, empty_db, empty_db, empty_db, empty_db. split.
  - intros h v Hv. exfalso. clear -Hv. unfold empty_db in Hv. cbn in Hv. rewrite lookup_empty in Hv.
    discriminate Hv.
  - eapply rtc_l; [apply (node_sleet s_live), (step_live_committee _ _ validators {[ hash g0 := g0 ]}); exact I|].
    apply rtc_once, node_request.
Qed.

Definition fetched (r : res Empty_set Answer) : option Tx :=
  match r with Ok (Answered (Protocol.FetchedTx tx)) => tx | _ => None end.

Lemma route_fetch_a n :
  (route fetch_a n).2 = Ok (Answered (Protocol.FetchedTx (handle_fetch_tx (tx_hash tx_a) (nd_sleet n)))).
Proof. reflexivity. Qed.

(** A later state, after a query for another transaction. *)
Definition n_later : Node := (route (mkRouterRequest me false (Protocol.QueryTx me my_ip tx_b)) n_asked).1.

Lemma served_content_matches_hash_witness :
  ∃ tx tx', fetched (route fetch_a n_asked).2 = Some tx ∧ tx_hash tx = tx_hash tx_a ∧
    fetched (route fetch_a n_later).2 = Some tx' ∧ tx_cell tx' = tx_cell tx.
Proof.
  destruct (handle_fetch_tx (tx_hash tx_a) (nd_sleet n_asked)) as [tx|] eqn:Htx.
  2: { exfalso. apply (f_equal (λ o : option Tx, bool_decide (is_Some o))) in Htx.
       vm_compute in Htx. discriminate Htx. }
  exists tx. destruct (served_content_matches_hash n_asked n_later fetch_a) as (_ & Hs & _).
  - exact n_asked_reachable.
  - apply rtc_once, node_request.
  - destruct (Hs (tx_hash tx_a) tx) as (H1 & tx' & H2 & _ & H3).
    + reflexivity.
    + rewrite route_fetch_a, Htx. reflexivity.
    + exists tx'. rewrite H2, route_fetch_a, Htx. split; [reflexivity|].
      split; [exact H1|]. split; [reflexivity|exact H3].
Defined.
End node_witness.
