(* ===== verification/LifeCycle.v ===== *)
(** * LifeCycle.v: a node from its start on
      (src/src/alpha/alpha.rs, src/src/server/router.rs, src/src/server/node.rs)

    The actors of a node with the messages that are on their way between them.  Alpha is
    the only source of committees: what it names are the validators of its state, and
    its state is that of the genesis block.  So only the stakers of the genesis block
    take part in the consensus of the node. *)

From stdpp Require Import prelude gmap sets list relations strings.
From Stdlib Require Import ZArith Lia.
From S2P Require Import Prelude Orders Cell Instances Dag ConflictGraph Blocks Storage SledInstances BlockStorage.
From S2P Require Import Util Operations DependencyGraph AlphaState Sleet SleetFacts Hail HailFacts Ice IceFacts View Dissemination Alpha AlphaFacts Ids Router.
From S2P Require Import SleetProperties SleetWitnesses Triples SleetMachine HailMachine NodeMachine.

(** ** The validators of the genesis block *)
Section genesis_validators.
Context {CR : Crypto} {IO : IterOrder} {BP : BuildProfile} {SC : StateCodec}.
Implicit Types (o : Output) (c : Cell) (g : Block).

(** A stake output names the node. *)
Definition stakes_for (id : Id) (k : Capacity) o : Prop :=
  cell_type o = Stake ∧ de_stake_state (data o) = Ok id ∧ capacity o = k.

Lemma produce_outputs_validators height os p p' :
  produce_outputs height os p = Ok p' → ∀ id k, (id, k) ∈ pd_validators p' →
  (id, k) ∈ pd_validators p ∨ ∃ o, o ∈ os ∧ stakes_for id k o.
Proof.
  revert p. induction os as [|o os IH]; intros p Heq id k Hin; cbn [produce_outputs] in Heq.
  { simplify_eq. by left. }
  apply res_bind_Ok_inv in Heq as (p1 & Hp & Heq).
  destruct (IH _ Heq _ _ Hin) as [Hp1|(o' & ? & ?)]; [|right; exists o'; set_solver].
  destruct (cell_type o) eqn:Ht.
  - destruct (height =? 0)%Z; [|done]. apply res_bind_Ok_inv in Hp as (z & _ & [= <-]). by left.
  - apply res_bind_Ok_inv in Hp as (z & _ & [= <-]). by left.
  - apply res_bind_Ok_inv in Hp as (n & Hn%map_err_Ok_inv & Hp).
    apply res_bind_Ok_inv in Hp as (z & _ & [= <-]). cbn in Hp1.
    apply elem_of_app in Hp1 as [?|Hx%list_elem_of_singleton]; [by left|]. simplify_eq.
    right. exists o. split; [by left|done].
Qed.

Lemma apply_cells_validators s cs s' :
  apply_cells s cs = Ok s' → ∀ id k, (id, k) ∈ as_validators s' →
  (id, k) ∈ as_validators s ∨ ∃ c o, c ∈ cs ∧ o ∈ outputs c ∧ stakes_for id k o.
Proof.
  revert s. induction cs as [|c cs IH]; intros s Heq id k Hin; cbn in Heq.
  { simplify_eq. by left. }
  apply res_bind_Ok_inv in Heq as (s1 & (a & p & t & Hap)%apply_cell_inv & Heq).
  destruct (IH _ Heq _ _ Hin) as [Hs1|(c' & o & ? & ?)]; [|right; exists c', o; set_solver].
  destruct Hap as [_ _ _ _ Hp _ _ ->]. cbn in Hs1. apply elem_of_app in Hs1 as [?|Hv]; [by left|].
  destruct (produce_outputs_validators _ _ _ _ Hp _ _ Hv) as [Hn|(o & ? & ?)];
    [cbn in Hn; set_solver|]. right. exists c, o. set_solver.
Qed.

Lemma apply_validators s g s' : apply s g = Ok s' → ∀ id k, (id, k) ∈ as_validators s' →
  (id, k) ∈ as_validators s ∨ ∃ c o, c ∈ block_cells g ∧ o ∈ outputs c ∧ stakes_for id k o.
Proof.
  intros (dg & l & Hdg & Hl & Ha)%apply_inv id k Hin.
  destruct (apply_cells_validators _ _ _ Ha _ _ Hin) as [?|(c & o & Hc & ?)]; [by left|].
  right. exists c, o. split; [|done]. eapply elem_of_submseteq, topological_cells_submseteq; eauto.
Qed.

Lemma try_map_elem {E A B} (f : A → res E B) l ys y :
  try_map f l = Ok ys → y ∈ ys → ∃ x, x ∈ l ∧ f x = Ok y.
Proof.
  revert ys. induction l as [|x l IH]; intros ys Heq Hy; cbn in Heq; [simplify_eq; set_solver|].
  apply res_bind_Ok_inv in Heq as (z & Hz & Heq). apply res_bind_Ok_inv in Heq as (zs & Hzs & [= <-]).
  apply elem_of_cons in Hy as [->|Hy]; [exists x; set_solver|].
  destruct (IH zs Hzs Hy) as (x' & ? & ?). exists x'. set_solver.
Qed.

Context {SCL : StateCodecLaws}.

Lemma stake_names_node (op : StakeOperation) kp c id k o :
  stake op kp = Ok c → o ∈ outputs c → stakes_for id k o → id = so_node_id op.
Proof.
  unfold stake, stake_output, transfer_output. intros (r & _ & Heq)%res_bind_Ok_inv Ho (Ht & Hd & _).
  cbn [mbind res_bind] in Heq. apply res_bind_Ok_inv in Heq as (os & Hos & [= <-]).
  cbn in Ho. unfold outputs_new in Ho. rewrite sort_perm in Ho.
  assert (o = Build_Output (cr_consumed r) Stake (ser_stake_state (so_node_id op)) (so_address op)) as ->.
  { destruct (_ && _); injection Hos as <-; set_solver. }
  cbn in Hd. rewrite de_ser_stake_state in Hd. by simplify_eq.
Qed.

(** Only stakers become validators. *)
Lemma genesis_validators (stakers : list InitialStaker) g s :
  build_genesis stakers = Ok g → apply state_new g = Ok s →
  ∀ id k, (id, k) ∈ as_validators s → id ∈ is_node_id <$> stakers.
Proof.
  unfold build_genesis. intros Hg Hs id k Hin.
  apply res_bind_Ok_inv in Hg as (al & Hal & Hg). apply res_bind_Ok_inv in Hg as (cb & Hcb & Hg).
  apply res_bind_Ok_inv in Hg as (cs & Hcs & [= <-]).
  destruct (apply_validators _ _ _ Hs _ _ Hin) as [?|(c & o & Hc & Ho & Hst)]; [cbn in *; set_solver|].
  cbn in Hc. apply elem_of_app in Hc as [Hc| ->%list_elem_of_singleton].
  - destruct (try_map_elem _ _ _ _ Hcs Hc) as (x & Hx & Hxc).
    apply res_bind_Ok_inv in Hxc as (pkh & _ & Hxc).
    apply (stake_names_node _ _ _ _ _ _ Hxc Ho) in Hst as ->. cbn. apply list_elem_of_fmap. eauto.
  - unfold coinbase_operation in Hcb. apply res_bind_Ok_inv in Hcb as (os & Hos & [= <-]).
    cbn in Ho. unfold outputs_new in Ho. rewrite sort_perm in Ho.
    destruct (try_map_elem _ _ _ _ Hos Ho) as (x & _ & [= <-]). by destruct Hst.
Qed.
End genesis_validators.

(** ** Who may change the committees *)
Section committee_frames.
Context `{Crypto, IterOrder, BuildProfile, SL : SledLaws, TC : TxCodecLaws, BlockCodec, Rng, Sortition}.
Implicit Types (s : Sleet) (h : Hail).

(** The committee of sleet changes only when alpha names another one. *)
Section sleet_frame.
Context (cm : gmap Id (SocketAddr * Weight)).
Abbreviation P := (λ s, sl_committee s = cm).

Lemma zoom_committee {T F A} (get : Sleet → T) put (conv : F → SleetError.Error) (m : st T F A) :
  (∀ t s, sl_committee (put t s) = sl_committee s) → keep P (zoom get put conv m).
Proof. intros Hput. eapply triple_zoom with (J := λ _, True); [done| |done]. intros s t Hs _. by rewrite Hput. Qed.
Hint Extern 1 (triple _ (zoom _ _ _ _) _) => (apply zoom_committee; done) : keeps.
Hint Extern 1 (triple _ (modify _) _) => (apply triple_modify; [done|done]) : keeps.
Ltac frame := unfold on_dag, on_cg, on_db, on_live_cells, on_accepted_txs, notify; keeps.

Lemma on_receive_tx_committee tx : keep P (on_receive_tx tx).
Proof. unfold on_receive_tx, sleet_insert. frame. Qed.

Lemma update_preference_committee hs : keep P (update_ancestral_preference hs).
Proof. unfold update_ancestral_preference. frame. Qed.

Lemma reset_confidence_committee hs : keep P (reset_ancestor_confidence hs).
Proof. unfold reset_ancestor_confidence. frame. Qed.

Lemma remove_progeny_committee fuel hs : keep P (remove_progeny fuel hs).
Proof. revert hs. induction fuel as [|fuel IH]; intros hs; [by intros s Hs|]. cbn [remove_progeny]. frame. Qed.

Lemma fetch_with_ancestry_committee fuel fetch hs : keep P (fetch_with_ancestry fuel fetch hs).
Proof. revert hs. induction fuel as [|fuel IH]; intros hs; [by intros s Hs|]. cbn [fetch_with_ancestry]. frame. Qed.
Hint Resolve on_receive_tx_committee update_preference_committee reset_confidence_committee
  remove_progeny_committee fetch_with_ancestry_committee : keeps.

Lemma sleet_step_committee announced checks s s' : sleet_step_with announced checks s s' → P s →
  P s' ∨ ∃ vs cs, announced vs cs ∧ s' = (handle_live_committee vs cs s).1.
Proof.
  destruct 1 as [| | | |vs cs ? Hvs| | | | | | | | | |]; [..|right; eauto| | | | | | | | | |]; intros Hs; left;
    (eapply (triple_run P _ (λ _, True)); [|exact Hs|apply surjective_pairing]; clear Hs);
    unfold started, handle_bootstrap, bootstrap_response, handle_query_incomplete,
      handle_query_complete, handle_new_accepted, handle_fresh_tx, fresh_tx_response,
      handle_generate_tx, handle_query_tx, handle_check_pending, check_query,
      handle_ask_for_ancestors, ask_for_ancestors_response, compute_accepted_txs, accept_step,
      prune_at_accepted_frontier, compute_accepted_frontier, remove_conflicts; frame.
Qed.
End sleet_frame.

Lemma sleet_steps_committee s s' :
  rtc (sleet_step_with (λ _ _, False) (λ _ _, True)) s s' → sl_committee s' = sl_committee s.
Proof.
  induction 1 as [|s s1 s2 Hs _ ->]; [done|].
  by destruct (sleet_step_committee _ _ _ _ _ Hs eq_refl) as [->|(? & ? & [] & _)].
Qed.

(** Hail computes its committee anew with every block, from the validators it has. *)
Section hail_frame.
Context (X : Id → Prop).

Record members_in (c : Committee) : Prop := {
  mi_validators : ∀ id, is_Some (cm_validators c !! id) → X id;
  mi_committee : ∀ id, is_Some (cm_committee c !! id) → X id
}.

Lemma committee_next_members own vrf vs :
  (∀ id, is_Some (vs !! id) → X id) → keep members_in (committee_next own vrf vs).
Proof.
  intros Hvs c [_ Hcm]. split; [|done]. unfold committee_next, next_committee.
  cbn [cm_self_staking_capacity].
  destruct (calculate_total_staking_capacity _ _) as [tsc|e| |]; cbn [mbind res_bind]; [|by split..].
  destruct (committee_loop_spec vrf tsc (expected_size (size vs)) (iter_map vs) ∅ ∅)
    as (cm' & ps' & -> & Hcm' & _); [apply NoDup_iter_map_fst|intros; apply lookup_empty|].
  cbn [mbind res_bind]. assert (∀ id, is_Some (cm' !! id) → X id) as Hin.
  { intros id [w Hw]. apply Hcm' in Hw as [Hw|(v & Hv%elem_of_iter_map & _)];
      [by rewrite lookup_empty in Hw|apply Hvs; eauto]. }
  cbn zeta. destruct (0 <? _)%Z; by split.
Qed.

Abbreviation P := (λ h, members_in (hl_committee h)).

Lemma zoom_hail_committee {T F A E} (get : Hail → T) put (conv : F → E) (m : st T F A) :
  (∀ t h, hl_committee (put t h) = hl_committee h) → keep P (zoom get put conv m).
Proof. intros Hput. eapply triple_zoom with (J := λ _, True); [done| |done]. intros h t Hs _. by rewrite Hput. Qed.

Lemma on_committee_members own vrf vs :
  (∀ id, is_Some (vs !! id) → X id) → keep P (on_committee (committee_next own vrf vs)).
Proof. intros Hvs. by eapply triple_zoom; [| |apply committee_next_members]. Qed.
Hint Extern 1 (triple _ (on_committee _) _) => (apply on_committee_members; assumption) : keeps.
Hint Extern 2 (triple _ (zoom _ _ _ _) _) => (apply zoom_hail_committee; done) : keeps.
Hint Extern 1 (triple _ (modify _) _) => (apply triple_modify; [by intros ? []; split|done]) : keeps.
Ltac frame := unfold on_conflict_map, on_hail_dag, on_known, hail_notify; keeps.

Lemma on_receive_block_members b : keep P (on_receive_block b).
Proof. unfold on_receive_block, hail_insert. frame. Qed.

Lemma hail_update_members vx : keep P (hail_update_ancestral_preference vx).
Proof. unfold hail_update_ancestral_preference. frame. Qed.

Lemma next_accepted_members vx : keep P (next_accepted_vertex vx).
Proof. unfold next_accepted_vertex. frame. Qed.
Hint Resolve on_receive_block_members hail_update_members next_accepted_members : keeps.

Lemma hail_live_committee_members lh b n cap vs vrf :
  (∀ id, is_Some (vs !! id) → X id) → keep P (hail_live_committee lh b n cap vs vrf).
Proof. intros Hvs. unfold hail_live_committee, hail_insert. frame. Qed.

Lemma hail_query_complete_members b acks : keep P (hail_query_complete b acks).
Proof.
  unfold hail_query_complete. eapply (triple_bind _ _ _ (λ _, True)); [by apply triple_gets|].
  intros outcomes _. eapply (triple_bind _ _ _ (λ _, True)); [|intros _ _; frame].
  destruct (f64_leb _ _); [|by apply triple_ret].
  do 4 (eapply (triple_bind _ _ _ (λ _, True)); [frame|intros ? _]).
  eapply (triple_bind _ _ _ (λ c, ∀ id, is_Some (cm_validators c !! id) → X id));
    [apply triple_gets; by intros h []|]. intros c Hc. frame.
Qed.
Hint Resolve hail_query_complete_members hail_live_committee_members : keeps.

Lemma hail_step_members announced h h' :
  (∀ lh b n cap vs vrf, announced lh b n cap vs vrf → ∀ id, is_Some (vs !! id) → X id) →
  hail_step_with announced h h' → P h → P h'.
Proof.
  intros Ha Hst Hs. destruct Hst as [lh b n cap vs vrf h Hvs| | | | | | | |];
    (eapply (triple_run P _ (λ _, True)); [|exact Hs|apply surjective_pairing]; clear Hs);
    [apply hail_live_committee_members; by eapply Ha|..];
    unfold hail_query_incomplete, hail_accepted, hail_fresh_block, hail_fresh_block_response,
      hail_query_block, hail_generate_block, hail_accepted_cells; frame.
Qed.

Lemma hail_steps_members h h' :
  rtc (hail_step_with (λ _ _ _ _ _ _, False)) h h' → P h → P h'.
Proof. induction 1 as [|h h1 h2 Hs _ IH]; [done|]. intros Hh. eapply IH, hail_step_members; [|done..]. done. Qed.
End hail_frame.
End committee_frames.

(** ** The committee that ice names *)
Section ice_members.
Context `{BuildProfile}.
Implicit Types (i : Ice) (vs : list (Id * Z)).

Lemma live_validators_members i vs hail own total r id :
  live_validators i vs hail own total = Ok r → is_Some (r.1.1 !! id) →
  is_Some (hail !! id) ∨ id ∈ vs.*1.
Proof.
  revert hail own total. induction vs as [|[id0 a] vs IH]; intros hail own total Heq Hid; cbn in Heq.
  { simplify_eq. by left. }
  rewrite fmap_cons, elem_of_cons. case_bool_decide.
  { apply res_bind_Ok_inv in Heq as (t & _ & Heq). destruct (IH _ _ _ Heq Hid); auto. }
  destruct (get_live_endpoint _ _) as [ip|].
  - apply res_bind_Ok_inv in Heq as (t & _ & Heq). destruct (IH _ _ _ Heq Hid) as [Hs|]; [|auto].
    apply lookup_insert_is_Some in Hs as [->|[_ ?]]; auto.
  - destruct (IH _ _ _ Heq Hid); auto.
Qed.

Lemma add_live_members {A} i (f : Z → A) vs m id :
  is_Some (foldl (add_live i f) m vs !! id) → is_Some (m !! id) ∨ id ∈ vs.*1.
Proof.
  revert m. induction vs as [|[id0 a] vs IH]; intros m Hid; cbn in Hid; [by left|].
  rewrite fmap_cons, elem_of_cons. destruct (IH _ Hid) as [Hs|]; [|auto].
  unfold add_live in Hs. case_bool_decide; [|auto]. cbn in Hs.
  destruct (get_live_endpoint _ _); [|auto]. apply lookup_insert_is_Some in Hs as [->|[_ ?]]; auto.
Qed.

Lemma live_committee_members i vs c : ice_live_committee vs i = Ok c →
  (∀ id, is_Some (ico_sleet_validators c !! id) → id ∈ vs.*1) ∧
  (∀ id, is_Some (ico_hail_validators c !! id) → id ∈ vs.*1).
Proof.
  unfold ice_live_committee. intros ([[hail own] total] & Hv & Heq)%res_bind_Ok_inv.
  destruct own as [a|]; [|done]. injection Heq as <-. cbn. split.
  - intros id Hid. destruct (add_live_members i (λ a, percent_of a total) vs ∅ id Hid) as [Hs|]; [|done].
    rewrite lookup_empty in Hs. by destruct Hs.
  - intros id Hid. destruct (live_validators_members _ _ _ _ _ _ id Hv Hid) as [Hs|]; [|done].
    rewrite lookup_empty in Hs. by destruct Hs.
Qed.
End ice_members.

(** ** The machine *)
Section life_cycle.
Context {CR : Crypto} {IO : IterOrder} {BP : BuildProfile} {SC : StateCodec} {SD : Sled}
  {SL : SledLaws} {BC : BlockCodec} {TC : TxCodec} {TL : TxCodecLaws} {SO : Sortition} {RN : Rng}.
Implicit Types (n : Node) (a : Alpha).

(** What is on its way: the questions of alpha to ice, which carry a copy of alpha, and
    the messages of alpha to the router, to sleet and to hail. *)
Inductive Message : Type :=
| AskIce a (m : ReceiveLastAccepted)
| ToRouter (es : list AlphaEffect)
| ToSleet (m : SleetLiveCommittee)
| ToHail (m : HailLiveCommittee).

Record Life : Type := mkLife { lf_node : Node; lf_messages : list Message }.

(** [Handler<ReceiveLastAccepted>]: the future that it spawns first updates the router
    and then asks ice. *)
Definition receive (m : ReceiveLastAccepted) a : list Message :=
  if bool_decide (rl_last_block_hash m = rl_last_accepted m) then
    [ToRouter (if al_router a then [SendValidatorSet (get_validator_set a)] else []); AskIce a m]
  else [].

(** A message arrives; the answer of ice sends the messages to sleet and hail on
    their way. *)
Definition deliver_message (msg : Message) n : Node * list Message :=
  match msg with
  | AskIce a m =>
      match initialize a m (nd_ice n) with
      | Ok (_, sm, hm) => (n, [ToSleet sm; ToHail hm])
      | _ => (n, [])
      end
  | ToRouter es => (deliver_router es n, [])
  | ToSleet m => (nd_set_sleet (deliver_sleet m (nd_sleet n)).1 n, [])
  | ToHail m => (nd_set_hail (deliver_hail m (nd_hail n)).1 n, [])
  end.

(** The messages may arrive in any order.  The other messages of sleet and hail have any
    content; of view and ice nothing is assumed. *)
Inductive life_step : Life → Life → Prop :=
| life_deliver msg before after n :
    life_step (mkLife n (before ++ msg :: after))
      (mkLife (deliver_message msg n).1 (before ++ after ++ (deliver_message msg n).2))
| life_receive m n ms : life_step (mkLife n ms) (mkLife n (ms ++ receive m (nd_alpha n)))
| life_router n ms :
    life_step (mkLife n ms) (mkLife (nd_set_alpha (init_router (nd_alpha n)).1 n)
      (ms ++ [ToRouter (init_router (nd_alpha n)).2]))
| life_request m n ms : life_step (mkLife n ms) (mkLife (route m n).1 ms)
| life_sleet s n ms : sleet_step_with (λ _ _, False) (λ _ _, True) (nd_sleet n) s →
    life_step (mkLife n ms) (mkLife (nd_set_sleet s n) ms)
| life_hail h n ms : hail_step_with (λ _ _ _ _ _ _, False) (nd_hail n) h →
    life_step (mkLife n ms) (mkLife (nd_set_hail h n) ms)
| life_view v n ms : life_step (mkLife n ms) (mkLife (nd_set_view v n) ms)
| life_ice i n ms : life_step (mkLife n ms) (mkLife (nd_set_ice i n) ms).

(** One way to run: the oldest message arrives first. *)
Definition run_first (l : Life) : Life :=
  match lf_messages l with
  | [] => l
  | msg :: ms => mkLife (deliver_message msg (lf_node l)).1 (ms ++ (deliver_message msg (lf_node l)).2)
  end.

Lemma run_first_steps k l : rtc life_step l (Nat.iter k run_first l).
Proof.
  induction k as [|k IH]; [done|]. etrans; [exact IH|].
  change (Nat.iter (S k) run_first l) with (run_first (Nat.iter k run_first l)).
  destruct (Nat.iter k run_first l) as [n [|msg ms]]; [apply rtc_refl|].
  apply rtc_once, (life_deliver msg [] ms n).
Qed.

(** *** The invariant *)
Section invariant.
Context (s0 : State).
Abbreviation X := (λ id, id ∈ (as_validators s0).*1).

Definition message_ok (msg : Message) : Prop :=
  match msg with
  | AskIce a _ => al_state a = s0
  | ToRouter es => ∀ vs id, SendValidatorSet vs ∈ es → id ∈ vs → X id
  | ToSleet m => ∀ id, is_Some (slc_validators m !! id) → X id
  | ToHail m => ∀ id, is_Some (hlc_validators m !! id) → X id
  end.

Record life_inv (l : Life) : Prop := {
  li_state : al_state (nd_alpha (lf_node l)) = s0;
  li_router : ∀ id, id ∈ nd_validators (lf_node l) → X id;
  li_sleet : ∀ id, is_Some (sl_committee (nd_sleet (lf_node l)) !! id) → X id;
  li_hail : members_in X (hl_committee (nd_hail (lf_node l)));
  li_messages : Forall message_ok (lf_messages l)
}.

Lemma validator_set_members a id : al_state a = s0 → id ∈ get_validator_set a → X id.
Proof.
  intros Ha (c & Hin & _)%get_validator_set_spec. rewrite Ha in Hin.
  apply list_elem_of_fmap. by exists (id, c).
Qed.

Lemma receive_ok m a : al_state a = s0 → Forall message_ok (receive m a).
Proof.
  intros Ha. unfold receive. case_bool_decide; [|done].
  apply Forall_cons. split; [|by apply Forall_singleton]. intros vs id Hvs Hid.
  destruct (al_router a); [|set_solver]. apply list_elem_of_singleton in Hvs as [= ->].
  by eapply validator_set_members.
Qed.

Lemma deliver_router_spec es n :
  (∀ vs id, SendValidatorSet vs ∈ es → id ∈ vs → X id) → (∀ id, id ∈ nd_validators n → X id) →
  ∃ vs, deliver_router es n = nd_set_validators vs n ∧ ∀ id, id ∈ vs → X id.
Proof.
  revert n. induction es as [|e es IH]; intros n Hes Hn; cbn.
  { exists (nd_validators n). split; [by destruct n|done]. }
  destruct (IH match e with SendValidatorSet vs => set_validator_set vs n | _ => n end)
    as (vs & Heq & Hvs).
  - intros vs id Hin. apply Hes. by right.
  - destruct e; try done. cbn. intros id. apply Hes. by left.
  - exists vs. split; [|done]. unfold deliver_router in Heq. rewrite Heq. by destruct e.
Qed.

Lemma live_committee_outcome vs cs (s : Sleet) :
  let cm := sl_committee (handle_live_committee vs cs s).1 in cm = vs ∨ cm = sl_committee s.
Proof.
  set (J := λ s', sl_committee s' = vs ∨ sl_committee s' = sl_committee s).
  assert (keep J (handle_live_committee vs cs)) as Hk.
  { unfold handle_live_committee, on_live_cells, on_cg.
    assert (∀ T F A (get : Sleet → T) put (conv : F → SleetError.Error) (m : st T F A),
      (∀ t s, sl_committee (put t s) = sl_committee s) → keep J (zoom get put conv m)) as Hz.
    { intros * Hput. eapply triple_zoom with (J := λ _, True); [done| |done].
      intros s' t Hs _. unfold J in *. by rewrite Hput. }
    keeps; try (by apply Hz). apply triple_modify; [by left|done]. }
  apply Hk. by right.
Qed.

Lemma deliver_keeps msg before after n :
  life_inv (mkLife n (before ++ msg :: after)) →
  life_inv (mkLife (deliver_message msg n).1 (before ++ after ++ (deliver_message msg n).2)).
Proof.
  intros [Hst Hr Hs Hh Hm]. cbn in *. rewrite Forall_app, Forall_cons in Hm.
  destruct Hm as (Hb & Hmsg & Ha).
  assert (∀ new, Forall message_ok new → Forall message_ok (before ++ after ++ new)) as Hms.
  { intros new Hnew. by rewrite !Forall_app. }
  destruct msg as [a m|es|m|m]; cbn [deliver_message message_ok] in *.
  - unfold initialize. rewrite Hmsg.
    destruct (ice_live_committee (as_validators s0) (nd_ice n)) as [c|e| |] eqn:Hc;
      (split; cbn; [done..|apply Hms]); try done.
    destruct (live_committee_members _ _ _ Hc) as [Hsl Hhl].
    apply Forall_cons. split; [done|]. by apply Forall_singleton.
  - destruct (deliver_router_spec es n Hmsg Hr) as (vs & -> & Hvs). split; cbn; try done. by apply Hms.
  - split; cbn; try done; [|by apply Hms]. unfold deliver_sleet.
    destruct (live_committee_outcome (slc_validators m) (slc_live_cells m) (nd_sleet n)) as [-> | ->]; done.
  - split; cbn; try done; [|by apply Hms]. unfold deliver_hail.
    by apply (hail_live_committee_members X (hlc_last_accepted_hash m) _ _ _ _ _ Hmsg).
Qed.

Lemma changes_frame r n n' : changes r n n' →
  nd_alpha n' = nd_alpha n ∧ nd_validators n' = nd_validators n.
Proof. by destruct 1. Qed.

Lemma life_step_keeps l l' : life_step l l' → life_inv l → life_inv l'.
Proof.
  destruct 1 as [msg before after n|m n ms|n ms|m n ms|s n ms Hs|h n ms Hh|v n ms|i n ms];
    intros Hl; [by apply deliver_keeps|..]; destruct Hl as [Hst Hr Hsl Hhl Hm]; cbn in *.
  - split; cbn; try done. apply Forall_app. split; [done|by apply receive_ok].
  - split; cbn; try done. apply Forall_app. split; [done|]. apply Forall_singleton.
    intros vs id [= ->]%list_elem_of_singleton. by apply validator_set_members.
  - destruct (changes_frame _ _ _ (route_changes m n)) as [Ha Hv].
    split; cbn; rewrite ?Ha, ?Hv; try done.
    + by rewrite (sleet_steps_committee _ _ (route_sleet_steps _ _ m n)).
    + eapply hail_steps_members, Hhl. apply route_hail_steps.
  - split; cbn; try done.
    by rewrite (sleet_steps_committee _ _ (rtc_once _ _ Hs)).
  - split; cbn; try done. eapply hail_steps_members, Hhl. by apply rtc_once.
  - by split.
  - by split.
Qed.

Lemma life_steps_keep l l' : rtc life_step l l' → life_inv l → life_inv l'.
Proof. induction 1; eauto using life_step_keeps. Qed.
End invariant.

(** What holds of the node as a state machine holds here too. *)
Lemma life_node_steps l l' : rtc life_step l l' → rtc node_step (lf_node l) (lf_node l').
Proof.
  induction 1 as [|l l1 l2 Hs _ IH]; [done|]. etrans; [|exact IH]. clear IH.
  destruct Hs as [msg before after n| | |m n ms|s n ms Hs|h n ms Hh| |]; cbn.
  - destruct msg as [a m|es|m|m]; cbn.
    + by destruct (initialize a m (nd_ice n)) as [[[? ?] ?]|e| |].
    + revert n. induction es as [|e es IH]; intros n; cbn; [done|].
      destruct e; [|apply IH..]. eapply rtc_l; [apply node_validators|]. apply IH.
    + apply rtc_once, node_sleet. by apply step_live_committee.
    + apply rtc_once, node_hail. by apply hail_step_live_committee.
  - done.
  - apply rtc_once, node_alpha.
  - apply rtc_once, node_request.
  - apply rtc_once, node_sleet. by eapply sleet_step_any.
  - apply rtc_once, node_hail. by eapply hail_step_any.
  - apply rtc_once, node_view.
  - apply rtc_once, node_ice.
Qed.
End life_cycle.

(** ** Only stakers take part *)
Section stakers.
Context `{CR : Crypto, IO : IterOrder, BP : BuildProfile, SL : SledLaws, !SledOrderLaws}.
Context `{BC : BlockCodecLaws, TC : TxCodecLaws, SC : StateCodecLaws, SO : Sortition, RN : Rng}.
(** blake3 gives 32 bytes. *)
Context (hash_length : ∀ m, length (blake3 m) = 32).
Implicit Types (stakers : list InitialStaker) (tree : Db) (n : Node).

(** The database of the first start, or of a later one: it holds the genesis block of the
    stakers and blocks that follow it. *)
Definition opened stakers tree : Prop :=
  sled_view tree = ∅ ∨ ∃ g, build_genesis stakers = Ok g ∧ chain_from g tree.

Lemma started_state stakers id tree a :
  opened stakers tree → alpha_started stakers (alpha_create id tree) = (a, Ok tt) →
  ∃ g, build_genesis stakers = Ok g ∧ apply state_new g = Ok (al_state a).
Proof.
  intros [He|(g & Hg & Hch)] Hst.
  { apply fresh_start_inv in Hst as (g & s & db & r & ? & _ & ? & ->); eauto. }
  exists g. split; [done|]. apply build_genesis_height in Hg as Hh.
  destruct (chain_from_first hash_length g tree Hh Hch) as [Hex Hget].
  unfold alpha_started in Hst. rewrite gets_bind in Hst. cbn [alpha_create al_tree] in Hst.
  rewrite Hex in Hst. cbn [negb] in Hst.
  erewrite reads_bind_Ok in Hst; [|cbn [al_tree alpha_create]; rewrite Hget; reflexivity].
  unfold apply_genesis in Hst. rewrite gets_bind in Hst. cbn [snd al_state alpha_create] in Hst.
  apply st_bind_Ok_inv in Hst as (a1 & s & Hs & Hst). unfold of_res in Hs.
  injection Hs as <- Hs%unwrap_res_Ok_inv. unfold modify in Hst. by simplify_eq.
Qed.

(** The node after alpha has started. *)
Definition life_start (ip : SocketAddr) (peers : list (Id * SocketAddr)) (id : Id) a
    (tree known_txs known_blocks queried_blocks : Db) : Life :=
  mkLife (nd_set_alpha a (start_actors ip peers id tree known_txs known_blocks queried_blocks)) [].

Lemma life_start_inv ip peers id a tree txs kb qb :
  life_inv (al_state a) (life_start ip peers id a tree txs kb qb).
Proof.
  split; cbn; try done.
  - intros id' [x Hx]. by rewrite lookup_empty in Hx.
  - split; intros id' [x Hx]; cbn in Hx; by rewrite lookup_empty in Hx.
Qed.

Lemma sample_members (seed : nat) (w : Weight) (cm : gmap Id (SocketAddr * Weight))
    (l : list (Id * SocketAddr)) (id : Id) (ip : SocketAddr) :
  sample_weighted seed w ((λ e : Id * (SocketAddr * Weight), (e.1, e.2.1, e.2.2)) <$> iter_map cm) =
    Some l → (id, ip) ∈ l → is_Some (cm !! id).
Proof.
  unfold sample_weighted. set (vs := _ <$> iter_map cm).
  destruct (sample_loop_spec w (shuffle seed vs) []) as (pre & post & Hvs & Hl & _).
  cbn in Hl. rewrite Hl. destruct (f64_ltb _ _); [done|]. intros [= <-] Hin.
  apply list_elem_of_fmap in Hin as ([[id' ip'] w'] & [= -> ->] & Hin).
  assert ((id', ip', w') ∈ vs) as Hin'.
  { rewrite <- (shuffle_perm seed vs), Hvs. set_solver. }
  apply list_elem_of_fmap in Hin' as ([id0 [ip0 w0]] & [= -> -> ->] & Hm%elem_of_iter_map). eauto.
Qed.

Lemma query_outcomes_members cm acks os x w b :
  query_outcomes cm acks = Ok os → (x, w, b) ∈ os → is_Some (cm !! x).
Proof.
  revert os. induction acks as [|[] acks IH]; intros os Heq Hin; cbn in Heq; try done.
  { simplify_eq. set_solver. }
  apply res_bind_Ok_inv in Heq as (r & Hr & [= <-]).
  destruct (cm !! id) as [[ip' w']|] eqn:Hc; [|by eapply IH].
  apply elem_of_cons in Hin as [[= -> -> ->]|Hin]; [by rewrite Hc|by eapply IH].
Qed.

Lemma block_outcomes_members cm acks x w b :
  (x, w, b) ∈ block_outcomes cm acks → is_Some (cm !! x).
Proof.
  intros ([id' h' o'|] & _ & Heq)%list_elem_of_omap; [|done].
  destruct (cm !! id') as [[ip' w']|] eqn:Hc; [|done]. injection Heq as <- <- <-. by rewrite Hc.
Qed.

(** C11: Only the stakers of the genesis block take part in the consensus of a node.  Take
    a node that was started for the first time or again, and any later state: peers
    may have sent any requests and responses, view and ice may have seen anything, and
    the messages with which alpha names the committees may have been sent at any time
    and have arrived in any order.  Then a vote that is counted for a transaction or a
    block is that of a staker; the peers that are asked about a new transaction or block
    are stakers; and the queries of a checked peer that is not a staker are refused and
    change nothing. *)
Theorem only_stakers_take_part stakers ip peers id tree txs kb qb a l :
  opened stakers tree → alpha_started stakers (alpha_create id tree) = (a, Ok tt) →
  rtc life_step (life_start ip peers id a tree txs kb qb) l →
  let n := lf_node l in
  let staker x := x ∈ is_node_id <$> stakers in
  (∀ acks os x w b, query_outcomes (sl_committee (nd_sleet n)) acks = Ok os →
     (x, w, b) ∈ os → staker x) ∧
  (∀ acks x w b, (x, w, b) ∈ block_outcomes (cm_committee (hl_committee (nd_hail n))) acks →
     staker x) ∧
  (∀ seed tx s vs x xip, handle_fresh_tx seed tx (nd_sleet n) = (s, Ok vs) →
     (x, xip) ∈ vs → staker x) ∧
  (∀ seed b h vs x xip, hail_fresh_block seed b (nd_hail n) = (h, Ok vs) →
     (x, xip) ∈ vs → staker x) ∧
  (∀ m, validator_only (rr_request m) = true → rr_check_peer m = true →
     ¬ staker (rr_peer_id m) → route m n = (n, Ok (Answered Protocol.RequestRefused))).
Proof.
  intros Hop Hst Hl n staker.
  destruct (started_state _ _ _ _ Hop Hst) as (g & Hg & Hs).
  pose proof (life_steps_keep _ _ _ Hl (life_start_inv ip peers id a tree txs kb qb)) as [_ Hr Hsl [_ Hhl] _].
  assert (∀ x, x ∈ (as_validators (al_state a)).*1 → staker x) as Hin.
  { intros x ([x' k] & -> & Hx)%list_elem_of_fmap. by eapply genesis_validators. }
  split_and!.
  - intros acks os x w b Ho Hx. by eapply Hin, Hsl, query_outcomes_members.
  - intros acks x w b Hx. by eapply Hin, Hhl, block_outcomes_members.
  - intros seed tx s vs x xip Hf Hx. eapply Hin, Hsl. unfold handle_fresh_tx in Hf.
    apply st_bind_Ok_inv in Hf as (s1 & vs' & Hv & Hf). injection Hv as <- Hv%unwrap_res_Ok_inv.
    rewrite gets_bind in Hf. cbn in Hf. injection Hf as _ <-. unfold sample in Hv.
    destruct (sample_weighted _ _ _) as [v|] eqn:Hw; [|done]. injection Hv as <-. by eapply sample_members.
  - intros seed b h vs x xip Hf Hx. eapply Hin, Hhl. unfold hail_fresh_block in Hf.
    apply st_bind_Ok_inv in Hf as (s1 & vs' & Hv & Hf). injection Hv as <- Hv%unwrap_res_Ok_inv.
    rewrite gets_bind in Hf. cbn in Hf. injection Hf as _ <-. unfold hail_sample in Hv.
    destruct (sample_weighted _ _ _) as [v|] eqn:Hw; [|done]. injection Hv as <-. by eapply sample_members.
  - intros m Hv Hc Hns. apply route_refuses. split_and!; [done| |done]. intros Hm. by apply Hns, Hin, Hr.
Qed.
End stakers.

(** ** Witness *)
Section life_witness.

(** A checksum in the place of the hash. *)
Definition checksum_crypto : Crypto := {|
  blake3 b := foldl (λ x y, (31 * x + y + 7) mod 65537)%Z 1%Z b :: replicate 31 0%Z;
  ser_bytes := @ser_bytes plain_crypto;
  ser_public_key := @ser_public_key plain_crypto;
  ser_signature := @ser_signature plain_crypto;
  ser_cell := @ser_cell plain_crypto;
  Keypair := bytes;
  public kp := kp;
  sign kp m := kp ++ m
|}.
#[local] Existing Instance checksum_crypto.
#[local] Existing Instance canonical_order.
#[local] Existing Instance debug_profile.
#[local] Existing Instance plain_state_codec.
#[local] Existing Instance plain_state_codec_laws.
#[local] Existing Instance num_block_codec.
#[local] Existing Instance num_block_codec_laws.
#[local] Existing Instance num_tx_codec.
#[local] Existing Instance num_tx_codec_laws.
#[local] Existing Instance map_sled.
#[local] Existing Instance map_sled_laws.
#[local] Existing Instance map_sled_order_laws.
#[local] Existing Instance keep_order.
#[local] Existing Instance by_stake.

(** Two stakers; the node is the first, and ice has seen the second. *)
Definition two_stakers : list InitialStaker :=
  [mkStaker ([1%Z] : @Keypair checksum_crypto) [101%Z] 2000 1000;
   mkStaker ([2%Z] : @Keypair checksum_crypto) [102%Z] 2000 1500].
Definition empty_tree : @Db map_sled := (∅ : gmap bytes bytes).
Definition staking_node : Alpha * res Empty_set unit :=
  alpha_started two_stakers (alpha_create [101%Z] empty_tree).
Definition ice_staking : Ice :=
  mkIce [101%Z] addr (mkReservoir ∅ {[ [102%Z] := (addr, Live, 3) ]} [] 2) true.
Definition agreed_block : ReceiveLastAccepted := mkReceive [1%Z] (mkBlock None 0 [9%Z] []) [9%Z] [1%Z].

(** The router is up, the last block is agreed on, and all messages have arrived. *)
Definition life_begin : Life :=
  life_start addr [] [101%Z] staking_node.1 empty_tree empty_tree empty_tree empty_tree.
Definition life_up : Life :=
  let n0 := nd_set_ice ice_staking (lf_node life_begin) in
  let n1 := nd_set_alpha (init_router (nd_alpha n0)).1 n0 in
  let l := mkLife n1 ([ToRouter (init_router (nd_alpha n0)).2] ++ receive agreed_block (nd_alpha n1)) in
  Nat.iter 5 run_first l.

Lemma life_up_reachable : rtc life_step life_begin life_up.
Proof.
  eapply rtc_l; [apply (life_ice ice_staking)|]. eapply rtc_l; [apply life_router|].
  eapply rtc_l; [apply (life_receive agreed_block)|]. apply run_first_steps.
Qed.

Definition asked (r : res SleetError.Error (list (Id * SocketAddr))) : list (Id * SocketAddr) :=
  match r with Ok vs => vs | _ => [] end.

Lemma asked_elem {S} (r : S * res SleetError.Error (list (Id * SocketAddr))) x :
  x ∈ asked r.2 → ∃ s vs, r = (s, Ok vs) ∧ x ∈ vs.
Proof. destruct r as [s [vs|e| |]]; cbn; [eauto|set_solver..]. Qed.

Lemma no_staker : [9%Z] ∉ is_node_id <$> two_stakers.
Proof. apply (bool_decide_unpack _). vm_compute. exact I. Qed.

Lemma only_stakers_take_part_witness :
  bool_decide (([102%Z], addr) ∈ asked (handle_fresh_tx 0 tx_a (nd_sleet (lf_node life_up))).2) = true ∧
  (∀ x, x ∈ asked (handle_fresh_tx 0 tx_a (nd_sleet (lf_node life_up))).2 →
    x.1 ∈ is_node_id <$> two_stakers) ∧
  let m := mkRouterRequest [9%Z] true (Protocol.QueryTx [9%Z] addr tx_a) in
  route m (lf_node life_up) = (lf_node life_up, Ok (Answered Protocol.RequestRefused)).
Proof.
  split; [vm_compute; reflexivity|].
  assert (is_ok staking_node.2 = true) as Hok by (vm_compute; reflexivity).
  destruct (only_stakers_take_part (CR:=checksum_crypto) (λ m, eq_refl) two_stakers addr [] [101%Z] empty_tree empty_tree
    empty_tree empty_tree staking_node.1 life_up) as (_ & _ & Hf & _ & Hr).
  - left. reflexivity.
  - fold staking_node. destruct staking_node as [a [[]| | |]]; [reflexivity|discriminate Hok..].
  - exact life_up_reachable.
  - split.
    + intros [x xip] Hx. destruct (asked_elem _ _ Hx) as (s & vs & Hh & Hin).
      exact (Hf 0 tx_a s vs x xip Hh Hin).
    + apply Hr; [reflexivity|reflexivity|]. exact no_staker.
Defined.
End life_witness.
