(* ===== verification/Porter.v ===== *)
(** * Porter.v: port mappings on the router of a home network (src/src/porter/)

    The protocol with the router is that of the igd crate: [Igd] lists the calls, a
    router being a state that they change.  The actor has no state of its own but the
    periodic refreshes it has set up; a refresh runs in a task of its own, whose panic
    ends only that task. *)

From stdpp Require Import prelude list strings.
From Stdlib Require Import ZArith Lia.
From S2P Require Import Prelude Cell Util.

(** ** Parameters (src/src/porter/params.rs, mod.rs) *)

Inductive PortProtocol : Type := TCP | UDP.

(** [SocketAddrV4] *)
Record SocketAddrV4 : Type := mkAddrV4 { v4_ip : list Z; v4_port : Z }.
#[export] Instance SocketAddrV4_eq_dec : EqDecision SocketAddrV4.
Proof. solve_decision. Defined.

(** Durations are in seconds. *)
Abbreviation Duration := Z.

Record PortMappingEntry : Type := mkPortMapping {
  pm_local_address : SocketAddrV4;
  pm_external_port : Z;
  pm_protocol : PortProtocol;
  pm_lease_duration : Duration;
  pm_node_description : string
}.

Record AddMappingEntry : Type := mkAddMapping {
  am_local_address : SocketAddrV4;
  am_external_port : Z;
  am_protocol : PortProtocol;
  am_lease_duration : Duration;
  am_node_description : string
}.

Record RefreshMappingEntry : Type := mkRefreshMapping {
  rm_mapping_update_interval : Duration;
  rm_external_ip : list Z;
  rm_add_params : AddMappingEntry
}.

Record RouterConfig : Type := mkRouterConfig {
  rc_bind_addr : SocketAddrV4;
  rc_broadcast_addr : SocketAddrV4;
  rc_search_timeout : option Duration
}.

Definition router_config_default : RouterConfig :=
  mkRouterConfig (mkAddrV4 [0; 0; 0; 0]%Z 0) (mkAddrV4 [239; 255; 255; 250]%Z 1900) (Some 10%Z).

(** [From<PortMappingEntry> for AddMappingEntry] *)
Definition add_of_port_mapping (e : PortMappingEntry) : AddMappingEntry :=
  mkAddMapping (pm_local_address e) (pm_external_port e) (pm_protocol e) (pm_lease_duration e)
    (pm_node_description e).

(** [porter::Error] *)
Module PorterError.
Inductive Error : Type :=
| GatewayRetrieve
| PortAdd
| ExternalIpRetrieve
| PortRemove
| ExternalIpChanged (s : string)
| MappingRefresh (s : string).
End PorterError.

(** [igd]: the options of the search are the configuration (the conversion copies the
    three fields); an option is a call that may fail. *)
Class Igd : Type := {
  Device : Type;
  search_gateway : RouterConfig → Device → bool;
  add_port : PortProtocol → Z → SocketAddrV4 → Z → string → Device → Device * bool;
  external_ip : Device → option (list Z)
}.

(** ** The actor (src/src/porter/gateway.rs, mapper_actor.rs) *)

(** The messages. *)
Inductive MappingMessage : Type :=
| AddMapping (add : AddMappingEntry)
| RefreshMapping (refresh : RefreshMappingEntry).

(** A refresh that runs at an interval. *)
Record Timer : Type := mkTimer {
  tm_interval : Duration;
  tm_config : RouterConfig;
  tm_refresh : RefreshMappingEntry
}.

Section porter.
Context `{Igd}.

(** The router and the refreshes that are set up. *)
Record World : Type := mkWorld { w_device : Device; w_timers : list Timer }.
Implicit Types (w : World) (c : RouterConfig).

Abbreviation pt := (st World PorterError.Error).

(** [Gateway::new] unwraps the search. *)
Definition gateway_new c : pt unit :=
  reads (λ w, if search_gateway c (w_device w) then Ok tt else Panic).

(** [lease_duration.as_secs() as u32] *)
Definition as_u32 (z : Z) : Z := (z mod 2 ^ 32)%Z.

Definition add_mapping (add : AddMappingEntry) : pt unit := λ w,
  let '(d, ok) := add_port (am_protocol add) (am_external_port add) (am_local_address add)
    (as_u32 (am_lease_duration add)) (am_node_description add) (w_device w) in
  (mkWorld d (w_timers w), if (ok : bool) then Ok tt else Err PorterError.PortAdd).

Definition get_external_ip : pt (list Z) :=
  reads (λ w, ok_or (external_ip (w_device w)) PorterError.ExternalIpRetrieve).

(** [Handler<MappingMessage>] and [Handler<GetExternalIpMessage>] *)
Definition handle_mapping c (m : MappingMessage) : pt unit :=
  match m with
  | AddMapping add => gateway_new c;; add_mapping add
  | RefreshMapping refresh =>
      modify (λ w, mkWorld (w_device w) (w_timers w ++ [mkTimer 10 c refresh]))
  end.

Definition handle_get_external_ip c : pt (list Z) := gateway_new c;; get_external_ip.

(** The task that a timer spawns: it logs a change of the address and a failure. *)
Definition refresh_task (t : Timer) : pt unit :=
  gateway_new (tm_config t);;
  unwrap_st get_external_ip;;
  ignore (add_mapping (rm_add_params (tm_refresh t))).

(** ** The mapper (src/src/porter/mapper_handler.rs) *)

Definition MAPPING_LEASE_DURATION : Duration := 3600 * 24.

Record Mapper : Type := mkMapper { mp_local_address : SocketAddrV4; mp_config : RouterConfig }.

Definition mapper_new (local_addr : SocketAddr) (config : option RouterConfig) :
    res PorterError.Error Mapper :=
  match addr_ip local_addr with
  | [_; _; _; _] => Ok (mkMapper (mkAddrV4 (addr_ip local_addr) (addr_port local_addr))
                          (default router_config_default config))
  | _ => Panic
  end.

(** The answer of the actor to the mapping is dropped; a dead actor panics. *)
Definition add_port_mapping (m : Mapper) (external_port : Z) (protocol : PortProtocol)
    (node_desc : string) : pt PortMappingEntry :=
  let add := mkAddMapping (mp_local_address m) external_port protocol MAPPING_LEASE_DURATION
    node_desc in
  ignore (handle_mapping (mp_config m) (AddMapping add));;
  mret (mkPortMapping (am_local_address add) (am_external_port add) (am_protocol add)
    (am_lease_duration add) (am_node_description add)).

Definition refresh_mapping (m : Mapper) (e : PortMappingEntry) (ip : list Z) (interval : Duration) :
    pt unit :=
  handle_mapping (mp_config m) (RefreshMapping (mkRefreshMapping interval ip (add_of_port_mapping e))).

Definition add_and_refresh_mapping (m : Mapper) (external_port : Z) (protocol : PortProtocol)
    (node_desc : string) : pt unit :=
  entry ← add_port_mapping m external_port protocol node_desc;
  ip ← unwrap_st (handle_get_external_ip (mp_config m));
  ignore (refresh_mapping m entry ip 120).
End porter.

(** ** Properties *)
Section porter_facts.
Context `{Igd}.
Implicit Types (w : World) (c : RouterConfig) (m : Mapper).

(** The call that a mapping makes at the router. *)
Definition call (e : AddMappingEntry) (d : Device) : Device * bool :=
  add_port (am_protocol e) (am_external_port e) (am_local_address e)
    (as_u32 (am_lease_duration e)) (am_node_description e) d.

Lemma add_mapping_call e w :
  add_mapping e w = (mkWorld (call e (w_device w)).1 (w_timers w),
    if (call e (w_device w)).2 then Ok tt else Err PorterError.PortAdd).
Proof. unfold add_mapping. fold (call e (w_device w)). by destruct (call e (w_device w)). Qed.

Lemma gateway_found {B} c w (k : unit → st World PorterError.Error B) :
  search_gateway c (w_device w) = true → (gateway_new c ≫= k) w = k tt w.
Proof. intros Hs. unfold gateway_new. by rewrite (reads_bind_Ok _ _ _ tt) by (by rewrite Hs). Qed.

Lemma ignore_add_mapping {F} e w :
  ignore (F:=F) (add_mapping e) w = (mkWorld (call e (w_device w)).1 (w_timers w), Ok tt).
Proof. unfold ignore, catch. rewrite add_mapping_call. by destruct (call e _) as [? []]. Qed.

(** What the mapper does with the answer of the router.  When the router is found,
    [add_port_mapping] reports the mapping it asked for as added whether the router
    accepted it or not.  The refresh that is set up runs every ten seconds, although the
    mapper asks for an interval of 120; each run repeats the very call of the first
    mapping, with a lease of one day, and succeeds whether the router accepts it or
    not.  Without a router every call panics. *)
Theorem refused_mapping_reported m port proto desc w ip :
  let e := mkAddMapping (mp_local_address m) port proto MAPPING_LEASE_DURATION desc in
  let '(d, accepted) := add_port proto port (mp_local_address m) 86400 desc (w_device w) in
  search_gateway (mp_config m) (w_device w) = true →
  search_gateway (mp_config m) d = true → external_ip d = Some ip →
  (∃ entry, add_port_mapping m port proto desc w = (mkWorld d (w_timers w), Ok entry) ∧
     add_of_port_mapping entry = e) ∧
  (∃ t, add_and_refresh_mapping m port proto desc w = (mkWorld d (w_timers w ++ [t]), Ok tt) ∧
     tm_interval t = 10%Z ∧ rm_mapping_update_interval (tm_refresh t) = 120%Z ∧
     ∀ w', search_gateway (mp_config m) (w_device w') = true → is_Some (external_ip (w_device w')) →
       refresh_task t w' =
         (mkWorld (add_port proto port (mp_local_address m) 86400 desc (w_device w')).1 (w_timers w'),
          Ok tt)) ∧
  ∀ w', search_gateway (mp_config m) (w_device w') = false →
    add_and_refresh_mapping m port proto desc w' = (w', Panic).
Proof.
  intros e. change (add_port proto port (mp_local_address m) 86400 desc) with (call e).
  destruct (call e (w_device w)) as [d accepted] eqn:Hc. intros Hs Hs' Hip.
  assert (∀ w0, search_gateway (mp_config m) (w_device w0) = true →
    add_port_mapping m port proto desc w0 = (mkWorld (call e (w_device w0)).1 (w_timers w0),
      Ok (mkPortMapping (mp_local_address m) port proto MAPPING_LEASE_DURATION desc))) as Hadd.
  { intros w0 Hw0. unfold add_port_mapping. cbn zeta. fold e.
    rewrite (st_bind_Ok _ _ w0 (mkWorld (call e (w_device w0)).1 (w_timers w0)) tt); [done|].
    rewrite <- ignore_add_mapping. unfold ignore, catch, handle_mapping.
    by rewrite gateway_found. }
  split_and!.
  - eexists. rewrite (Hadd w Hs), Hc. done.
  - eexists. split_and!.
    + unfold add_and_refresh_mapping. rewrite (st_bind_Ok _ _ _ _ _ (Hadd w Hs)), Hc.
      cbn [fst snd]. unfold handle_get_external_ip.
      erewrite st_bind_Ok.
      2: { apply unwrap_st_Ok. rewrite gateway_found by done. unfold get_external_ip, reads. cbn.
           by rewrite Hip. }
      unfold refresh_mapping, handle_mapping. done.
    + done.
    + done.
    + intros w' Hw' [ip' Hip']. unfold refresh_task. cbn [tm_config tm_refresh rm_add_params].
      rewrite gateway_found by done.
      erewrite st_bind_Ok by (by apply unwrap_st_Ok; unfold get_external_ip, reads; rewrite Hip').
      apply ignore_add_mapping.
  - intros w' Hw'. unfold add_and_refresh_mapping, add_port_mapping, ignore, catch, handle_mapping,
      gateway_new, mbind, st_bind, reads. by rewrite Hw'.
Qed.
End porter_facts.

(** ** Witness *)
Section porter_witness.
(** A router that refuses the port 80 and counts the calls. *)
Definition refusing : Igd := {|
  Device := nat;
  search_gateway _ _ := true;
  add_port _ port _ _ _ n := (S n, negb (port =? 80)%Z);
  external_ip _ := Some [1; 2; 3; 4]%Z
|}.
#[local] Existing Instance refusing.

Definition home : Mapper := mkMapper (mkAddrV4 [10; 0; 0; 2]%Z 8000) router_config_default.

Definition fresh_world : World := mkWorld (0 : @Device refusing) [].

Lemma refused_mapping_reported_witness :
  (add_port TCP 80 (mp_local_address home) 86400 "node" (w_device fresh_world)).2 = false ∧
  is_ok (add_port_mapping home 80 TCP "node" fresh_world).2 = true.
Proof.
  split; [reflexivity|].
  destruct (refused_mapping_reported home 80 TCP "node" fresh_world [1; 2; 3; 4]%Z)
    as [(entry & -> & _) _]; reflexivity.
Defined.
End porter_witness.
