(* ===== verification/ClientTest.v ===== *)
(** * ClientTest.v: the command line client (src/bin/client_test.rs)

    The client asks a node for a cell, spends it and goes on with the cell it made.
    The node it talks to is a parameter: [peer] is what [oneshot] returns for a request,
    and the state is that of the peer with the requests sent so far. *)

From stdpp Require Import prelude gmap list strings.
From Stdlib Require Import ZArith Lia.
From S2P Require Import Prelude Orders Cell Instances Dag ConflictGraph Blocks Storage SledInstances BlockStorage.
From S2P Require Import Util Operations DependencyGraph AlphaState Sleet Hail Ice View Dissemination Alpha Ids Router Files.

Section client_test.
Context {CR : Crypto} {IO : IterOrder} {BP : BuildProfile} {SC : StateCodec}.
Context {IC : IdCrates} {KC : KeyCrates}.
Context {W : Type} (peer : W → Protocol.Request → W * res CrateError.Error (option Protocol.Response)).

Abbreviation client := (st (W * list Protocol.Request) CrateError.Error).

(** [client::oneshot(..).await?] *)
Definition ask (r : Protocol.Request) : client (option Protocol.Response) := λ s,
  let '(w, x) := peer s.1 r in ((w, s.2 ++ [r]), x).

(** One attempt: the cell under [h] is spent and the hash of the new cell returned, or
    the cell was not there. *)
Definition try_spend (keypair : Keypair) (amount : Capacity) (h : CellHash) :
    client (option CellHash) :=
  let pkh := blake3 (ser_public_key (public keypair)) in
  r ← ask (Protocol.GetCell h);
  match r with
  | Some (Protocol.CellAck (Some cell_in)) =>
      transfer_tx ← of_res (unwrap_res (transfer (mkTransfer cell_in pkh pkh (amount + 1)) keypair));
      r ← ask (Protocol.GenerateTx transfer_tx);
      match r with
      | Some (Protocol.GenerateTxAck (Some _)) => mret (Some (hash transfer_tx))
      | _ => panic
      end
  | _ => mret None
  end.

(** [for retry in 1..11]; [left] attempts are left. *)
Fixpoint retry_loop (keypair : Keypair) (amount : Capacity) (h : CellHash) (left retry : nat) :
    client CellHash :=
  match left with
  | O => mret h
  | S left' =>
      r ← try_spend keypair amount h;
      match r with
      | Some h' => mret h'
      | None => if (retry =? 10)%nat then panic else retry_loop keypair amount h left' (S retry)
      end
  end.

(** [for amount in 0..n] *)
Definition spend_loop (keypair : Keypair) (n : nat) (h : CellHash) : client CellHash :=
  for_acc (seq 0 n) (λ amount h, retry_loop keypair (Z.of_nat amount) h 10 1) h.

(** The decoded arguments; [cell_hash_vec[i]] panics when there are less than 32
    bytes. *)
Definition client_main (keypair cell_hash : string) (n : nat) : client CellHash :=
  keypair_bytes ← of_res (unwrap (hex_decode keypair));
  keypair ← of_res (unwrap (keypair_from_bytes keypair_bytes));
  cell_hash_vec ← of_res (unwrap (hex_decode cell_hash));
  cell_hash_bytes ← of_res (if (32 <=? length cell_hash_vec)%nat then Ok (take 32 cell_hash_vec) else Panic);
  spend_loop keypair n cell_hash_bytes.

(** ** Properties *)

(** The cells that requests submit. *)
Definition submitted (rs : list Protocol.Request) : list Cell :=
  omap (λ r, match r with Protocol.GenerateTx c => Some c | _ => None end) rs.

(** The peer gave a cell when it was asked for [h], and [c] transfers [amount] of it to
    the owner. *)
Definition spends (keypair : Keypair) (h : CellHash) (amount : Capacity) (c : Cell) : Prop :=
  ∃ w w' cell_in, peer w (Protocol.GetCell h) = (w', Ok (Some (Protocol.CellAck (Some cell_in)))) ∧
    let pkh := blake3 (ser_public_key (public keypair)) in
    transfer (mkTransfer cell_in pkh pkh amount) keypair = Ok c.

Fixpoint chain (keypair : Keypair) (h : CellHash) (amount : Capacity) (cs : list Cell) : Prop :=
  match cs with
  | [] => True
  | c :: cs' => spends keypair h amount c ∧ chain keypair (hash c) (amount + 1) cs'
  end.

Lemma submitted_app l1 l2 : submitted (l1 ++ l2) = submitted l1 ++ submitted l2.
Proof. apply omap_app. Qed.

Lemma try_spend_inv kp amount h s s' r :
  try_spend kp amount h s = (s', Ok r) →
  ∃ rs, s'.2 = s.2 ++ rs ∧
    match r with
    | Some h' => ∃ c, rs = [Protocol.GetCell h; Protocol.GenerateTx c] ∧ h' = hash c ∧
        spends kp h (amount + 1) c
    | None => rs = [Protocol.GetCell h]
    end.
Proof.
  destruct s as [w tr]. unfold try_spend, ask, mbind, st_bind, of_res. cbn.
  destruct (peer w (Protocol.GetCell h)) as [w1 [x| | |]] eqn:Hp; cbn; try done.
  destruct x as [x|]; [|intros [= <- <-]; by eexists].
  destruct x as [| | | | | | |o| | | | | | | | | | |]; try (intros [= <- <-]; by eexists).
  destruct o as [cell_in|]; [|intros [= <- <-]; by eexists].
  destruct (transfer _ _) as [tx| | |] eqn:Ht; cbn; try done.
  destruct (peer w1 (Protocol.GenerateTx tx)) as [w2 [y| | |]] eqn:Hq; cbn; try done.
  destruct y as [y|]; [|done].
  destruct y as [| | | | | | | | |o| | | | | | | | |]; try done. destruct o as [z|]; [|done].
  intros [= <- <-]. eexists. split; [by rewrite <- app_assoc|]. exists tx.
  split_and!; [done..|]. by exists w, w1, cell_in.
Qed.

Lemma retry_loop_inv kp amount h left retry s s' h' :
  left + retry = 11 → 0 < left → retry_loop kp amount h left retry s = (s', Ok h') →
  ∃ rs c, s'.2 = s.2 ++ rs ∧ submitted rs = [c] ∧ h' = hash c ∧ spends kp h (amount + 1) c ∧
    length rs ≤ S left.
Proof.
  revert retry s. induction left as [|left IH]; intros retry s Hsum Hpos Hrun; [lia|].
  cbn [retry_loop] in Hrun. unfold mbind, st_bind in Hrun.
  destruct (try_spend kp amount h s) as [s1 [r| | |]] eqn:Ht; try done.
  destruct (try_spend_inv _ _ _ _ _ _ Ht) as (rs & Hs1 & Hr). destruct r as [h1|].
  - injection Hrun as <- <-. destruct Hr as (c & -> & -> & Hsp). exists [Protocol.GetCell h; Protocol.GenerateTx c], c.
    split_and!; try done. cbn. lia.
  - destruct (Nat.eqb_spec retry 10) as [->|Hne]; [done|].
    apply IH in Hrun as (rs' & c & Hs' & Hsub & -> & Hsp & Hlen); [|lia..].
    exists (rs ++ rs'), c. rewrite Hs', Hs1, submitted_app, Hsub, length_app. subst rs.
    split_and!; [by rewrite app_assoc|done..|cbn in *; lia].
Qed.

(** The client spends a chain of cells.  Whatever the node answers, when the client
    ends without an error it has submitted exactly [n] cells: the first one spends a
    cell that the node returned for the hash on the command line, each other one the
    cell returned for the hash of its predecessor, the amounts are 1, 2, .., [n], and
    the hash it ends with is that of the last cell.  It has sent at most eleven requests
    per cell. *)
Theorem client_spends_chain kp n h w s' h' :
  spend_loop kp n h (w, []) = (s', Ok h') →
  ∃ cs, submitted s'.2 = cs ∧ length cs = n ∧ chain kp h 1 cs ∧
    h' = default h (hash <$> list.last cs) ∧ length s'.2 ≤ 11 * n.
Proof.
  unfold spend_loop. change (chain kp h 1) with (chain kp h (Z.of_nat 0 + 1)).
  assert (∀ k i h s, for_acc (seq i k) (λ amount h, retry_loop kp (Z.of_nat amount) h 10 1) h s = (s', Ok h') →
    ∃ rs cs, s'.2 = s.2 ++ rs ∧ submitted rs = cs ∧ length cs = k ∧ chain kp h (Z.of_nat i + 1) cs ∧
      h' = default h (hash <$> list.last cs) ∧ length rs ≤ 11 * k) as Hgen.
  { clear. induction k as [|k IH]; intros i h s Hrun.
    - injection Hrun as <- <-. exists [], []. rewrite app_nil_r. split_and!; [done..|cbn; lia].
    - cbn [seq for_acc] in Hrun. unfold mbind, st_bind in Hrun.
      destruct (retry_loop kp (Z.of_nat i) h 10 1 s) as [s1 [h1| | |]] eqn:Hr; try done.
      apply retry_loop_inv in Hr as (rs & c & Hs1 & Hsub & -> & Hsp & Hlen); [|lia..].
      apply IH in Hrun as (rs' & cs & Hs' & Hsub' & Hk & Hch & -> & Hlen').
      exists (rs ++ rs'), (c :: cs). rewrite Hs', Hs1, submitted_app, Hsub, Hsub', length_app.
      split_and!; [by rewrite app_assoc|done|cbn; lia| | |lia].
      + split; [done|]. by replace (Z.of_nat i + 1 + 1)%Z with (Z.of_nat (S i) + 1)%Z by lia.
      + rewrite last_cons. by destruct (list.last cs). }
  intros Hrun. apply Hgen in Hrun as (rs & cs & Hs' & Hsub & Hlen & Hch & Hh & Hle).
  cbn in Hs'. exists cs. by rewrite Hs'.
Qed.
End client_test.

(** ** Witness *)
Section client_witness.
#[local] Existing Instance plain_crypto.
#[local] Existing Instance canonical_order.
#[local] Existing Instance release_profile.
#[local] Existing Instance plain_state_codec.

(** A node that has the cells it was given. *)
Definition cell_server (w : list Cell) (r : Protocol.Request) :
    list Cell * res CrateError.Error (option Protocol.Response) :=
  match r with
  | Protocol.GetCell h => (w, Ok (Some (Protocol.CellAck (head (filter (λ c, hash c = h) w)))))
  | Protocol.GenerateTx c => (w ++ [c], Ok (Some (Protocol.GenerateTxAck (Some (hash c)))))
  | _ => (w, Ok (Some Protocol.Unknown))
  end.

Lemma client_spends_chain_witness :
  ∃ s' h' cs, spend_loop cell_server key1 2 (hash purse) ([purse], []) = (s', Ok h') ∧
    submitted s'.2 = cs ∧ length cs = 2 ∧ chain cell_server key1 (hash purse) 1 cs.
Proof.
  destruct (spend_loop cell_server key1 2 (hash purse) ([purse], [])) as [s' r] eqn:Hrun.
  assert (∃ h', r = Ok h') as [h' ->].
  { assert (is_ok (spend_loop cell_server key1 2 (hash purse) ([purse], [])).2 = true) as Hok
      by (vm_compute; reflexivity).
    rewrite Hrun in Hok. destruct r; [by eexists|done..]. }
  destruct (client_spends_chain _ _ _ _ _ _ _ Hrun) as (cs & Hsub & Hlen & Hch & _).
  exists s', h', cs. exact (conj eq_refl (conj Hsub (conj Hlen Hch))).
Defined.
End client_witness.
