(* ===== verification/GraphTests.v ===== *)
(** * GraphTests.v: the unit tests of the graphs, run on the model
      (the modules [test] of src/src/graph/dag.rs and src/src/graph/conflict_graph.rs)

    A test is translated statement by statement: [unwrap] panics, an assertion that
    does not hold panics, and a test passes when it returns.  Hash maps are traversed
    in the order of [canonical_order]; where a test accepts several orders, so does its
    translation. *)

From stdpp Require Import prelude gmap sets fin_sets list.
From Stdlib Require Import ZArith Lia.
From S2P Require Import Prelude Orders Cell Instances Dag ConflictGraph Blocks Operations.

(** ** Assertions *)

(** The state is what the test declares [mut]; no error leaves a test. *)
Abbreviation test S := (st S Empty_set unit).

(** [assert!] on the state, [assert_eq!] on a call that is unwrapped. *)
Definition asserts {S} (f : S → bool) : test S := λ s, (s, if f s then Ok tt else Panic).

Definition asserts_eq {S E A} `{EqDecision A} (f : S → res E A) (a : A) : test S := λ s,
  (s, match f s with
      | Ok x => if decide (x = a) then Ok tt else Panic
      | OutOfFuel => OutOfFuel
      | _ => Panic
      end).

(** [assert_eq!] on a result that is an error *)
Definition asserts_err {S E A} `{EqDecision E} (f : S → res E A) (e : E) : test S := λ s,
  (s, match f s with
      | Err x => if decide (x = e) then Ok tt else Panic
      | OutOfFuel => OutOfFuel
      | _ => Panic
      end).

Definition passes {S} (t : test S) (s : S) : bool :=
  match (t s).2 with Ok _ => true | _ => false end.

(** ** The DAG *)
Section dag_tests.
#[local] Existing Instance canonical_order.
#[local] Open Scope Z_scope.

Abbreviation dag_test := (test (DAG Z)).

Definition put `{Countable V} (v : V) (ps : list V) : test (DAG V) := unwrap_st (insert_vx v ps).

Definition make_dag (data : list (Z * list Z)) : dag_test := foreach data (λ vps, put vps.1 vps.2).

Definition test_bfs : dag_test :=
  put 0 [];; put 1 [0];; put 2 [0];; put 3 [1; 2];; put 4 [3; 1];; put 5 [3; 2];;
  asserts_eq (λ d, bfs d 4) [4; 3; 1; 2; 0];;
  r2 ← reads (λ d, unwrap_res (bfs (invert d) 3));
  asserts (λ _, bool_decide (r2 ∈ [[3; 4; 5]; [3; 5; 4]]));;
  asserts (λ d, bool_decide (leaves d ∈ [[4; 5]; [5; 4]])).

Definition test_dfs : dag_test :=
  put 0 [];; put 1 [0];; put 2 [0];; put 3 [1; 2];; put 4 [1; 2];; put 5 [3; 2];;
  asserts_eq (λ d, dfs d 4) [4; 2; 0; 1];;
  asserts_eq (λ d, dfs (invert d) 3) [3; 5];;
  asserts (λ d, bool_decide (leaves d ∈ [[4; 5]; [5; 4]])).

Definition test_dfs2 : dag_test :=
  make_dag [(0, []); (1, [0]); (2, [0]); (3, [1]); (4, [1]); (5, [2]); (6, [2]);
    (7, [4; 5]); (8, [3; 4]); (9, [8; 7; 6])];;
  asserts_eq (λ d, dfs d 8) [8; 4; 1; 0; 3];;
  asserts_eq (λ d, dfs d 7) [7; 5; 2; 0; 4; 1];;
  asserts_eq (λ d, dfs d 9) [9; 6; 2; 0; 7; 5; 4; 1; 8; 3].

Definition dfs3 : dag_test :=
  make_dag [(0, []); (1, [0]); (2, [0]); (3, [1]); (4, [3; 1]); (5, [4; 1]); (6, [5; 1]);
    (7, [6; 1]); (8, [7; 1]); (9, [8; 1]); (10, [9; 1]); (11, [10; 1])];;
  asserts_eq (λ d, dfs d 11) [11; 1; 0; 10; 9; 8; 7; 6; 5; 4; 3].

Definition dfs_with_non_existing_vx : dag_test :=
  make_dag [(0, []); (1, [0]); (2, [0]); (3, [1])];;
  asserts_eq (λ d, dfs d 5) [].

Definition test_leaves : dag_test :=
  make_dag [(0, []); (1, [0]); (2, [1]); (3, [2]); (4, [3]); (5, [4]); (6, [5])];;
  asserts (λ d, bool_decide (leaves d = [6])).

(** An array [[n; 32]] *)
Definition array32 (n : Z) : list Z := replicate 32 n.

Definition dfs_with_arrays : test (DAG (list Z)) :=
  let a0 := array32 0 in let a1 := array32 1 in let a2 := array32 2 in
  put a0 [];; put a1 [a0];; put a2 [a0; a1];;
  asserts_eq (λ d, dfs d a2) [a2; a1; a0].

Definition dfs_with_u8 : dag_test :=
  let a0 := 0 in let a1 := 1 in let a2 := 2 in
  put a0 [];; put a1 [a0];; put a2 [a0; a1];;
  asserts_eq (λ d, dfs d a2) [a2; a1; a0].

Definition dfs_with_arrays2 : test (DAG (list Z)) :=
  let a0 := array32 0 in let a1 := array32 1 in let a2 := array32 2 in
  put a0 [];; put a1 [a0];; put a2 [a1; a0];;
  asserts_eq (λ d, dfs d a2) [a2; a0; a1].

Definition vote (v : Z) : dag_test := unwrap_st (set_chit v 1).

Definition test_conviction : dag_test :=
  put 0 [];; put 1 [0];; put 2 [0];; put 3 [1; 2];; put 4 [1; 2];; put 5 [3; 2];;
  vote 0;; vote 1;; vote 4;;
  asserts_eq (λ d, conviction d 0) 3;;
  asserts_eq (λ d, conviction d 1) 2;;
  asserts_eq (λ d, conviction d 4) 1;;
  asserts_eq (λ d, conviction d 2) 1;;
  asserts_eq (λ d, conviction d 3) 0;;
  asserts_eq (λ d, conviction d 5) 0.

Definition test_conviction2 : dag_test :=
  make_dag [(0, []); (1, [0]); (2, [0]); (3, [1]); (4, [3]); (5, [4]); (6, [5]); (7, [6]);
    (8, [7]); (9, [8]); (10, [9]); (11, [10])];;
  vote 0;; vote 1;;
  foreach [3; 4; 5; 6; 7; 8; 9; 10; 11] vote;;
  asserts_eq (λ d, conviction d 0) 11.

Definition test_has_vertices : dag_test :=
  put 0 [];; put 1 [0];; put 2 [0];; put 3 [1; 2];;
  asserts_eq (λ d, has_vertices d [1; 2; 3]) tt;;
  asserts_err (λ d, has_vertices d [1; 2; 3; 4]) [4];;
  asserts_err (λ d, has_vertices d [4; 1; 2; 3]) [4];;
  asserts_eq (λ d, has_vertices d []) tt;;
  asserts_err (λ d, has_vertices d [4]) [4].

Definition test_remove : dag_test :=
  make_dag [(0, []); (1, [0]); (2, [0]); (3, [1; 2]); (4, [3]); (5, [3])];;
  ch ← unwrap_st (remove_vx 3);
  asserts (λ _, bool_decide (sort Z.compare (iter_set ch) = [4; 5]));;
  let len (m : gmap Z (list Z)) v := unwrap (E:=Empty_set) (length <$> m !! v) in
  asserts_eq (λ d, len (dag_g d) 4) 0%nat;;
  asserts_eq (λ d, len (dag_g d) 5) 0%nat;;
  asserts_eq (λ d, len (dag_inv d) 1) 0%nat;;
  asserts_eq (λ d, len (dag_inv d) 2) 0%nat.

Definition test_topological : dag_test :=
  make_dag [(0, []); (1, [0]); (2, [0]); (42, [0; 1]); (3, [1]); (4, [1]); (5, [3; 4; 2])];;
  asserts_eq topological_sort [0; 1; 2; 42; 3; 4; 5].

Definition test_get_ancestors : dag_test :=
  make_dag [(0, []); (1, [0]); (2, [0]); (42, [0; 1]); (3, [1]); (4, [1]); (5, [3; 4; 2])];;
  anc ← reads (λ d, unwrap_res (get_ancestors d 5));
  asserts (λ _, bool_decide (take 2 anc = [0; 1]));;
  asserts (λ _, bool_decide (3 ∈ drop 2 anc));;
  asserts (λ _, bool_decide (4 ∈ drop 2 anc));;
  asserts (λ _, bool_decide (2 ∈ drop 2 anc)).

Definition test_get_ancestors_with_empty_dag : dag_test :=
  make_dag [];;
  asserts_eq (λ d, get_ancestors d 1) [].

Definition test_double_ancestry : dag_test :=
  put 0 [];; put 1 [0];;
  foreach [2; 3; 4; 5; 6; 7; 8; 9; 10] (λ i, put i [i - 1; i - 2]);;
  asserts_eq (λ d, get_ancestors d 10) [0; 1; 2; 3; 4; 5; 6; 7; 8; 9].

Definition test_deep_ancestry : dag_test :=
  put 0 [];; put 1 [0];;
  foreach [2; 3; 4; 5; 6; 7; 8; 9] (λ i, put i [i - 1; i - 2]);;
  put 10 [0; 9];;
  asserts_eq (λ d, get_ancestors d 10) [0; 1; 2; 3; 4; 5; 6; 7; 8; 9].

Definition dag_tests : list dag_test :=
  [test_bfs; test_dfs; test_dfs2; dfs3; dfs_with_non_existing_vx; test_leaves; dfs_with_u8;
   test_conviction; test_conviction2; test_has_vertices; test_remove; test_topological;
   test_get_ancestors; test_get_ancestors_with_empty_dag; test_double_ancestry;
   test_deep_ancestry].

Definition dag_array_tests : list (test (DAG (list Z))) := [dfs_with_arrays; dfs_with_arrays2].

Lemma dag_tests_pass :
  forallb (λ t, passes t dag_new) dag_tests && forallb (λ t, passes t dag_new) dag_array_tests =
    true.
Proof. vm_compute. reflexivity. Qed.
End dag_tests.

(** ** The conflict graph

    The keys of the tests are decoded from hex by another crate: they are arguments. *)
Section conflict_graph_tests.
Context `{Crypto, IterOrder, BuildProfile, StateCodec}.
Context (kp1 kp2 : Keypair).
#[local] Open Scope Z_scope.

Abbreviation cg_do := (st ConflictGraph Empty_set).

(** [ConflictGraph::len] *)
Definition cg_len (G : ConflictGraph) : nat := size (cg_cs G).

Definition hash_public (keypair : Keypair) : PublicKeyHash :=
  let enc := ser_public_key (public keypair) in blake3 enc.

Definition generate_keys : Keypair * Keypair * PublicKeyHash * PublicKeyHash :=
  (kp1, kp2, hash_public kp1, hash_public kp2).

(** The graph on the outputs of a genesis transaction. *)
Definition with_genesis (recipients : list (PublicKeyHash * Capacity)) : cg_do Cell :=
  genesis_tx ← of_res (unwrap_res (coinbase_operation recipients));
  ids ← of_res (unwrap_res (from_outputs (hash genesis_tx) (outputs genesis_tx)));
  modify (λ _, conflict_graph_new ids);;
  mret genesis_tx.

Definition new_input (kp : Keypair) (h : CellHash) (i : Z) : cg_do Input :=
  of_res (unwrap_res (input_new kp h i)).

Definition new_output (pkh : PublicKeyHash) (n : Capacity) : cg_do Output :=
  of_res (unwrap_res (transfer_output pkh n)).

(** [let tx = Cell::new(..); dh.insert_cell(tx.clone()).unwrap();] *)
Definition insert_new (ins : list Input) (outs : list Output) : cg_do Cell :=
  let tx := cell_new (inputs_new ins) (outputs_new outs) in
  unwrap_st (insert_cell tx);;
  mret tx.

(** The assertions on [dh.conflicting_cells(&tx.hash()).unwrap()]. *)
Definition conflicts_are (tx : Cell) (expected : list Cell) : test ConflictGraph :=
  c ← reads (λ G, unwrap (conflicting_cells G (hash tx)));
  asserts (λ _, bool_decide (size (conflicts c) = length expected));;
  asserts (λ _, bool_decide (conflicts c = list_to_set (hash <$> expected))).

Definition pref_is (tx : Cell) (h : CellHash) : test ConflictGraph :=
  c ← reads (λ G, unwrap (conflicting_cells G (hash tx)));
  asserts (λ _, bool_decide (pref c = h)).

Definition test_conflict_graph : test ConflictGraph :=
  let '(kp1, kp2, pkh1, pkh2) := generate_keys in
  genesis_tx ← with_genesis [(pkh1, 1000); (pkh2, 1000); (pkh2, 500)];
  input1 ← new_input kp1 (hash genesis_tx) 0;
  input2 ← new_input kp2 (hash genesis_tx) 1;
  input3 ← new_input kp2 (hash genesis_tx) 2;
  o900 ← new_output pkh2 900;
  tx1 ← insert_new [input1] [o900];
  conflicts_are tx1 [tx1];; pref_is tx1 (hash tx1);;
  o800 ← new_output pkh2 800;
  tx2 ← insert_new [input1] [o800];
  conflicts_are tx2 [tx1; tx2];; pref_is tx2 (hash tx1);;
  o700 ← new_output pkh1 700;
  tx3 ← insert_new [input2; input3] [o700];
  conflicts_are tx3 [tx3];; pref_is tx3 (hash tx3).

(** What [test_multiple_inputs] and [test_accept_cell2] have in common: four
    transactions, the last one in conflict with the others. *)
Definition four_spenders : cg_do (Cell * Cell * Cell * Cell) :=
  let '(kp1, kp2, pkh1, pkh2) := generate_keys in
  genesis_tx ← with_genesis [(pkh1, 1000); (pkh2, 1000); (pkh2, 500)];
  input1 ← new_input kp1 (hash genesis_tx) 0;
  input2 ← new_input kp2 (hash genesis_tx) 1;
  input3 ← new_input kp2 (hash genesis_tx) 2;
  output1 ← new_output pkh2 1000;
  tx1 ← insert_new [input1] [output1];
  conflicts_are tx1 [tx1];; pref_is tx1 (hash tx1);;
  output2 ← new_output pkh2 900;
  tx2 ← insert_new [input1; input2] [output2];
  conflicts_are tx2 [tx1; tx2];; pref_is tx2 (hash tx1);;
  tx3 ← insert_new [input3] [output2];
  conflicts_are tx3 [tx3];; pref_is tx3 (hash tx3);;
  output3 ← new_output pkh2 800;
  tx4 ← insert_new [input1; input2; input3] [output3];
  conflicts_are tx4 [tx1; tx2; tx3; tx4];; pref_is tx4 (hash tx1);;
  mret (tx1, tx2, tx3, tx4).

Definition test_multiple_inputs : test ConflictGraph := four_spenders;; mret tt.

Definition test_accept_cell : test ConflictGraph :=
  let '(kp1, _, pkh1, pkh2) := generate_keys in
  genesis_tx ← with_genesis [(pkh1, 1000); (pkh2, 1000)];
  input1 ← new_input kp1 (hash genesis_tx) 0;
  o900 ← new_output pkh2 900;
  tx1 ← insert_new [input1] [o900];
  conflicts_are tx1 [tx1];; pref_is tx1 (hash tx1);;
  o800 ← new_output pkh2 800;
  tx2 ← insert_new [input1] [o800];
  conflicts_are tx2 [tx1; tx2];; pref_is tx2 (hash tx1);;
  conflicts_removed ← unwrap_st (accept_cell tx2);
  asserts (λ _, bool_decide (conflicts_removed = [hash tx1])).

Definition test_accept_cell2 : test ConflictGraph :=
  txs ← four_spenders;
  let '(tx1, tx2, tx3, tx4) := txs in
  conflicts_removed ← unwrap_st (accept_cell tx4);
  asserts (λ _, bool_decide (sort bytes_cmp conflicts_removed =
                             sort bytes_cmp [hash tx1; hash tx2; hash tx3])).

Definition test_disjoint_inputs : test ConflictGraph :=
  let '(kp1, kp2, pkh1, pkh2) := generate_keys in
  genesis_tx ← with_genesis [(pkh1, 1000); (pkh2, 1000); (pkh2, 500); (pkh2, 400)];
  input1 ← new_input kp1 (hash genesis_tx) 0;
  input2 ← new_input kp2 (hash genesis_tx) 1;
  input3 ← new_input kp2 (hash genesis_tx) 2;
  input4 ← new_input kp2 (hash genesis_tx) 3;
  output1 ← new_output pkh2 1000;
  tx1 ← insert_new [input1] [output1];
  conflicts_are tx1 [tx1];; pref_is tx1 (hash tx1);;
  output2 ← new_output pkh2 900;
  tx2 ← insert_new [input1; input2] [output2];
  conflicts_are tx2 [tx1; tx2];; pref_is tx2 (hash tx1);;
  output3 ← new_output pkh2 800;
  tx3 ← insert_new [input2; input3; input4] [output3];
  conflicts_are tx3 [tx2; tx3];; pref_is tx3 (hash tx1);;
  output4 ← new_output pkh2 700;
  tx4 ← insert_new [input3] [output4];
  conflicts_are tx4 [tx3; tx4];; pref_is tx4 (hash tx1);;
  output5 ← new_output pkh2 600;
  tx5 ← insert_new [input4] [output5];
  conflicts_are tx5 [tx3; tx5];; pref_is tx5 (hash tx1).

Definition test_outputs : test ConflictGraph :=
  let '(kp1, kp2, pkh1, pkh2) := generate_keys in
  genesis_tx ← with_genesis [(pkh1, 1000); (pkh2, 1000); (pkh2, 500)];
  input1 ← new_input kp1 (hash genesis_tx) 0;
  to1 ← new_output pkh1 1000;
  to2 ← new_output pkh2 1000;
  tx1 ← insert_new [input1] [to1; to2];
  conflicts_are tx1 [tx1];;
  input2 ← new_input kp1 (hash tx1) 0;
  tx2 ← insert_new [input2] [to1];
  conflicts_are tx2 [tx2];;
  input3 ← new_input kp2 (hash tx1) 1;
  tx3 ← insert_new [input3] [to1; to2];
  conflicts_are tx3 [tx3];;
  input4 ← new_input kp1 (hash tx3) 0;
  tx4 ← insert_new [input1; input4] [to1];
  conflicts_are tx4 [tx1; tx4];; pref_is tx4 (hash tx1).

(** The integers [a <= i < b] *)
Definition range (a b : Z) : list Z := (λ i, a + Z.of_nat i) <$> seq 0 (Z.to_nat (b - a)).

(** [choice] is the random number of each iteration, below 3. *)
Definition test_conflict_graph_with_many_cells (choice : Z → nat) : test ConflictGraph :=
  let '(kp1, kp2, pkh1, pkh2) := generate_keys in
  genesis_tx ← with_genesis [(pkh1, 1000); (pkh2, 1000); (pkh2, 500)];
  input1 ← new_input kp1 (hash genesis_tx) 0;
  input2 ← new_input kp2 (hash genesis_tx) 1;
  input3 ← new_input kp2 (hash genesis_tx) 2;
  let inputs := [input1; input2; input3] in
  origin ← for_acc (imap pair inputs) (λ '(i, input) acc,
    let amount := 10 + Z.of_nat i in
    o ← new_output pkh2 amount;
    tx ← insert_new [input] [o];
    pref_is tx (hash tx);;
    mret (acc.1 ++ [hash tx], acc.2 ++ [amount])) ([], []);
  let '(origin_txs, original_spent_amounts) := origin in
  foreach (range 0 20) (λ iteration,
    if bool_decide (iteration ∈ original_spent_amounts) then mret tt
    else
      let n := choice iteration in
      origin_tx_hash ← of_res (unwrap (origin_txs !! n));
      input ← of_res (unwrap (inputs !! n));
      o ← new_output pkh2 iteration;
      tx ← insert_new [input] [o];
      pref_is tx origin_tx_hash);;
  first ← of_res (unwrap (origin_txs !! 0%nat));
  hashes ← for_acc (range 20 25) (λ iteration acc,
    input ← new_input kp1 acc.1 0;
    o ← new_output pkh1 iteration;
    tx ← insert_new [input] [o];
    pref_is tx (hash tx);;
    mret (hash tx, acc.1)) (first, first);
  let '(new_hash, previous_hash) := hashes in
  foreach (range 25 30) (λ iteration,
    input ← new_input kp1 previous_hash 0;
    o ← new_output pkh1 iteration;
    tx ← insert_new [input] [o];
    pref_is tx new_hash).

Definition conflict_graph_tests : list (test ConflictGraph) :=
  [test_conflict_graph; test_multiple_inputs; test_accept_cell; test_accept_cell2;
   test_disjoint_inputs; test_outputs;
   test_conflict_graph_with_many_cells (λ i, Z.to_nat (i mod 3))].
End conflict_graph_tests.

(** A hash of one number of 16 bits, for tests with many cells. *)
Definition digest_crypto : Crypto := {|
  blake3 b := [foldl (λ acc z, Z.land (33 * acc + z + 1) 65535)%Z 7%Z b];
  ser_bytes b := b;
  ser_public_key b := b;
  ser_signature b := b;
  ser_cell i o := ser_cell_body (i, o);
  Keypair := bytes;
  public kp := kp;
  sign kp m := kp ++ m
|}.

Section run.
#[local] Existing Instance digest_crypto.
#[local] Existing Instance canonical_order.
#[local] Existing Instance debug_profile.
#[local] Existing Instance plain_state_codec.

Lemma conflict_graph_tests_pass :
  forallb (λ t, passes t (conflict_graph_new ∅)) (conflict_graph_tests [1%Z] [2%Z]) = true.
Proof. vm_compute. reflexivity. Qed.
End run.
