(* ===== verification/UnitTests.v ===== *)
(** * UnitTests.v: the unit tests of the other components, run on the model
      (the modules [test] and [tests] of the files named below)

    As in GraphTests.v: every statement of a test is translated, a test passes when it
    returns.  Keys, random numbers and the functions of other crates are arguments. *)

From stdpp Require Import prelude gmap sets fin_sets list strings pretty.
From Stdlib Require Import ZArith Lia Ascii String SpecFloat.
From S2P Require Import Prelude Orders Cell Instances Dag ConflictGraph Blocks Storage SledInstances BlockStorage.
From S2P Require Import Util Operations DependencyGraph AlphaState Ice Dissemination Ids Files Genesis GraphTests.

#[local] Open Scope Z_scope.

(** [assert_eq!(.., Err(..))], the error given by its pattern *)
Definition fails_with {S E A} (r : res E A) (f : E → bool) : test S :=
  asserts (λ _, match r with Err e => f e | _ => false end).

Definition asserts_that {S} P `{Decision P} : test S := asserts (λ _, bool_decide P).

(** ** Operations (src/src/alpha/transfer.rs, src/src/alpha/stake.rs) *)
Section operation_tests.
Context `{Crypto, IterOrder, BuildProfile, StateCodec}.
Context (kp1 kp2 : Keypair).

Abbreviation value_test := (test unit).

Definition exceeds (e : AlphaError.Error) : bool :=
  match e with AlphaError.ExceedsAvailableFunds => true | _ => false end.

Definition coinbase_of (recipients : list (PublicKeyHash * Capacity)) : st unit Empty_set Cell :=
  of_res (unwrap_res (coinbase_operation recipients)).

Definition generate_coinbase (keypair : Keypair) (amount : Capacity) : st unit Empty_set Cell :=
  coinbase_of [(hash_public keypair, amount)].

Definition test_transfer_more_than_owner_output_has : value_test :=
  let '(kp1, _, pkh1, pkh2) := generate_keys kp1 kp2 in
  coinbase_tx ← coinbase_of [(pkh2, 688); (pkh1, 120)];
  fails_with (transfer (mkTransfer coinbase_tx pkh2 pkh1 133) kp1) exceeds.

Definition test_transfer_with_total_less_than_fee : value_test :=
  let '(kp1, _, pkh1, pkh2) := generate_keys kp1 kp2 in
  coinbase_tx ← coinbase_of [(pkh1, 1); (pkh1, 1)];
  fails_with (transfer (mkTransfer coinbase_tx pkh2 pkh1 3) kp1) exceeds.

Definition test_transfer_with_three_outputs : value_test :=
  let '(kp1, _, pkh1, pkh2) := generate_keys kp1 kp2 in
  coinbase_tx ← coinbase_of [(pkh1, 700); (pkh2, 800); (pkh1, 1000); (pkh1, 300)];
  transfer_tx ← of_res (unwrap_res (transfer (mkTransfer coinbase_tx pkh2 pkh1 1800) kp1));
  let indices := (λ i, index (output_index i)) <$> iter_set (inputs transfer_tx) in
  asserts_that (size (inputs transfer_tx) = 3%nat);;
  asserts_that (0 ∈ indices);;
  asserts_that (1 ∈ indices);;
  asserts_that (3 ∈ indices);;
  asserts_eq (λ _, unwrap (E:=Empty_set) (capacity <$> outputs transfer_tx !! 0%nat)) (200 - FEE);;
  asserts_eq (λ _, unwrap (E:=Empty_set) (capacity <$> outputs transfer_tx !! 1%nat)) 1800.

Definition test_transfer_zero_then_throw_error : value_test :=
  let '(kp1, _, pkh1, pkh2) := generate_keys kp1 kp2 in
  coinbase_tx ← generate_coinbase kp1 1000;
  fails_with (transfer (mkTransfer coinbase_tx pkh2 pkh1 0) kp1)
    (λ e, match e with AlphaError.ZeroTransfer => true | _ => false end).

Definition test_transfer_more_than_allowed_then_throw_error : value_test :=
  let '(kp1, _, pkh1, pkh2) := generate_keys kp1 kp2 in
  coinbase_tx ← generate_coinbase kp1 1000;
  fails_with (transfer (mkTransfer coinbase_tx pkh2 pkh1 1000) kp1) exceeds;;
  fails_with (transfer (mkTransfer coinbase_tx pkh2 pkh1 (1001 - FEE)) kp1) exceeds.

Definition test_transfer_various_amounts : value_test :=
  let '(kp1, kp2, pkh1, pkh2) := generate_keys kp1 kp2 in
  coinbase_tx ← generate_coinbase kp1 1000;
  tx2 ← of_res (unwrap_res (transfer (mkTransfer coinbase_tx pkh2 pkh1 (1000 - FEE)) kp1));
  asserts_that (size (inputs tx2) = 1%nat);;
  asserts_that (List.length (outputs tx2) = 1%nat);;
  asserts_eq (λ _, cell_sum (E:=Empty_set) tx2) (1000 - FEE);;
  tx3 ← of_res (unwrap_res (transfer (mkTransfer tx2 pkh1 pkh2 700) kp2));
  asserts_that (size (inputs tx3) = 1%nat);;
  asserts_eq (λ _, cell_sum (E:=Empty_set) tx3) (1000 - FEE * 2);;
  tx4 ← of_res (unwrap_res (transfer (mkTransfer tx3 pkh2 pkh1 (700 - FEE)) kp1));
  asserts_eq (λ _, cell_sum (E:=Empty_set) tx4) (700 - FEE);;
  asserts_that (List.length (outputs tx4) = 1%nat).

(** [ids]: the ids that [Id::generate] draws *)
Definition test_stake_more_than_allowed_then_throw_error (ids : nat → Id) : value_test :=
  let '(kp1, _, _, pkh2) := generate_keys kp1 kp2 in
  c1 ← generate_coinbase kp1 1000;
  fails_with (stake (mkStake c1 (ids 0%nat) pkh2 1000) kp1) exceeds;;
  fails_with (stake (mkStake c1 (ids 1%nat) pkh2 (1001 - FEE)) kp1) exceeds.

Definition test_stake (ids : nat → Id) : value_test :=
  let '(kp1, _, pkh1, pkh2) := generate_keys kp1 kp2 in
  c1 ← generate_coinbase kp1 1000;
  c2 ← of_res (unwrap_res (stake (mkStake c1 (ids 0%nat) pkh2 (1000 - FEE)) kp1));
  asserts_that (size (inputs c2) = 1%nat);;
  asserts_that (List.length (outputs c2) = 1%nat);;
  asserts_eq (λ _, cell_sum (E:=Empty_set) c2) (1000 - FEE);;
  c3 ← of_res (unwrap_res (stake (mkStake c1 (ids 1%nat) pkh1 500) kp1));
  asserts_that (size (inputs c3) = 1%nat);;
  asserts_that (List.length (outputs c3) = 2%nat);;
  asserts_eq (λ _, cell_sum (E:=Empty_set) c3) (1000 - FEE).

(** ** Cell ids (src/src/cell/cell_ids.rs) *)

Definition ids_of_outputs {S} (c : Cell) : st S Empty_set CellIds :=
  of_res (unwrap_res (from_outputs (hash c) (outputs c))).

Definition test_cell_ids : value_test :=
  let '(kp1, _, pkh1, pkh2) := generate_keys kp1 kp2 in
  genesis_tx ← coinbase_of [(pkh1, 1000); (pkh1, 1000)];
  genesis_output_cell_ids ← ids_of_outputs genesis_tx;
  transfer_tx ← of_res (unwrap_res (transfer (mkTransfer genesis_tx pkh2 pkh1 1100) kp1));
  transfer_tx_input_cell_ids ← of_res (unwrap_res (from_inputs (inputs transfer_tx)));
  asserts (λ _, cell_ids_eq genesis_output_cell_ids transfer_tx_input_cell_ids).

(** ** The dependency graph (src/src/graph/dependency_graph.rs) *)
Definition test_dependency_graph : test DependencyGraph :=
  let '(kp1, _, pkh1, _) := generate_keys kp1 kp2 in
  let spend_of tx n := of_res (unwrap_res (transfer (mkTransfer tx pkh1 pkh1 n) kp1)) in
  genesis_tx ← of_res (unwrap_res (coinbase_operation [(pkh1, 1000); (pkh1, 1000)]));
  genesis_tx_output_cell_ids ← ids_of_outputs genesis_tx;
  tx1 ← spend_of genesis_tx 1000; tx1_cell_ids ← ids_of_outputs tx1;
  tx2 ← spend_of tx1 900; tx2_cell_ids ← ids_of_outputs tx2;
  tx3 ← spend_of tx1 800; tx3_cell_ids ← ids_of_outputs tx3;
  tx4 ← spend_of tx2 700; tx4_cell_ids ← ids_of_outputs tx4;
  tx5 ← spend_of tx3 600; tx5_cell_ids ← ids_of_outputs tx5;
  foreach [tx4; tx2; genesis_tx; tx1; tx3; tx5] (λ tx, unwrap_st (dg_insert tx));;
  asserts (λ g, bool_decide (List.length (dg_roots g) = 2%nat));;
  asserts (λ g, bool_decide (dg_roots g = [tx4_cell_ids; tx5_cell_ids]));;
  asserts_eq topological [genesis_tx_output_cell_ids; tx1_cell_ids; tx2_cell_ids; tx4_cell_ids;
    tx3_cell_ids; tx5_cell_ids].
End operation_tests.

(** ** Bounded maps and sets (src/src/sleet/sleet/sleet_utils.rs) *)
Definition bounded_hashmap_test : test (@BoundedHashMap Z _ _ Z) :=
  modify (λ _, bounded_map_new 3);;
  bounded_map_insert 1 1;; bounded_map_insert 2 2;; bounded_map_insert 3 3;;
  asserts (λ h, bool_decide (is_Some (bm_elems h !! 3)));;
  bounded_map_insert 4 4;;
  asserts (λ h, bool_decide (is_Some (bm_elems h !! 4)));;
  asserts (λ h, bool_decide (bm_elems h !! 4 = Some 4));;
  asserts (λ h, negb (bool_decide (is_Some (bm_elems h !! 1)))).

Definition bounded_hashset_test : test (@BoundedHashSet Z _ _) :=
  modify (λ _, bounded_set_new 3);;
  bounded_set_insert 1;; bounded_set_insert 2;; bounded_set_insert 3;;
  asserts (λ h, bool_decide (3 ∈ bs_elems h));;
  bounded_set_insert 4;;
  asserts (λ h, bool_decide (4 ∈ bs_elems h));;
  asserts (λ h, negb (bool_decide (1 ∈ bs_elems h))).

(** ** Addresses of [std::net]: [str::parse] on an IPv4 address and a port *)
Definition digit (a : Ascii.ascii) : option Z :=
  let n := Z.of_nat (Ascii.nat_of_ascii a) - 48 in if decide (0 ≤ n < 10) then Some n else None.

Definition parse_dec (s : string) : option Z :=
  match list_ascii_of_string s with
  | [] => None
  | l => foldl (λ acc a, n ← acc; d ← digit a; Some (10 * n + d)) (Some 0) l
  end.

Definition parse_octet (s : string) : option Z :=
  n ← parse_dec s;
  if decide (n ≤ 255 ∧ pretty n = s) then Some n else None.

Definition parse_addr (s : string) : option SocketAddr :=
  match str_split ":"%char s with
  | [ip; port] =>
      octets ← mapM parse_octet (str_split "."%char ip);
      p ← parse_dec port;
      if decide (List.length octets = 4%nat ∧ p ≤ 65535) then Some (mkSocketAddr octets p) else None
  | _ => None
  end.

(** ** The reservoir of ice (src/src/ice/reservoir.rs) *)
Section reservoir_tests.
Context `{IterOrder, IdCrates}.

Abbreviation reservoir_test := (test Reservoir).

Definition addr {S} (s : string) : st S Empty_set SocketAddr := of_res (unwrap (parse_addr s)).
Definition insert_peer (id : Id) (ip : SocketAddr) (choice : Choice) (conviction : nat) : reservoir_test :=
  modify (rv_insert id ip choice conviction).
Definition decision_is (id : Id) (d : SocketAddr * Choice * nat) : reservoir_test :=
  asserts_eq (λ r, unwrap (E:=Empty_set) (get_decision r id)) d.
Definition len_is (n : nat) : reservoir_test := asserts (λ r, bool_decide (rv_len r = n)).

Definition reservoir_test_insert : reservoir_test :=
  ip1 ← addr "127.0.0.1:1234"; ip2 ← addr "127.0.0.1:1235";
  let id1 := from_ip ip1 in let id2 := from_ip ip2 in
  len_is 0;;
  insert_peer id1 ip1 Live 0;; insert_peer id2 ip2 Live 0;;
  len_is 2;;
  p1 ← reads (λ r, unwrap (get_decision r id1));
  p2 ← reads (λ r, unwrap (get_decision r id2));
  asserts_that ((id1, p1) = (id1, (ip1, Live, 0%nat)));;
  asserts_that ((id2, p2) = (id2, (ip2, Live, 0%nat)));;
  asserts (λ r, bool_decide (get_decisions r ∈ [[(id1, p1); (id2, p2)]; [(id2, p2); (id1, p1)]])).

(** The common start of the next three tests. *)
Definition two_faulty (k : Id → SocketAddr → Id → SocketAddr → reservoir_test) : reservoir_test :=
  ip1 ← addr "127.0.0.1:1234"; ip2 ← addr "127.0.0.1:1235";
  let id1 := from_ip ip1 in let id2 := from_ip ip2 in
  len_is 0;;
  insert_peer id1 ip1 Faulty 0;; insert_peer id2 ip2 Faulty 3;;
  len_is 2;;
  k id1 ip1 id2 ip2.

Definition test_reset_faulty : reservoir_test := two_faulty (λ id1 ip1 id2 ip2,
  modify (reset_faulty_decision id1);;
  decision_is id1 (ip1, Live, 0%nat);;
  modify (reset_faulty_decision id2);;
  decision_is id2 (ip2, Live, 0%nat)).

Definition test_reset_conviction : reservoir_test := two_faulty (λ id1 ip1 id2 ip2,
  modify (reset_conviction id1);;
  decision_is id1 (ip1, Faulty, 0%nat);;
  modify (reset_conviction id2);;
  decision_is id2 (ip2, Faulty, 0%nat)).

Definition decide_with (id : Id) (q : gmap Id Choice) : reservoir_test :=
  modify (λ r, (process_decision id q r).1).

Definition test_decide : reservoir_test := two_faulty (λ id1 ip1 id2 ip2,
  decide_with id1 (<[id2 := Faulty]> {[ id1 := Live ]});;
  decision_is id1 (ip1, Faulty, 0%nat);;
  decide_with id1 (<[id2 := Faulty]> {[ id1 := Faulty ]});;
  decision_is id1 (ip1, Faulty, 1%nat);;
  decide_with id1 (<[id2 := Live]> {[ id1 := Live ]});;
  decision_is id1 (ip1, Live, 0%nat)).

Definition test_decide_when_faulty_and_bootstrap_is_zero : reservoir_test :=
  p ← for_acc (seq 0 (K + 1)) (λ i (acc : gmap Id Choice * Id),
    ip ← addr ("127.0.0.1:123" +:+ pretty i);
    let id := from_ip ip in
    insert_peer id ip Faulty 0;;
    mret (<[id := Faulty]> acc.1, id)) (∅, id_zero);
  let '(quorum, id) := p in
  foreach (seq 0 (K + 1)) (λ _, decide_with id quorum);;
  asserts_eq (λ r, unwrap (E:=Empty_set) (snd <$> get_decision r id)) 3%nat;;
  asserts (λ r, bool_decide (rv_nbootstrapped r = 0%nat)).

Definition test_outcome : reservoir_test :=
  ip1 ← addr "127.0.0.1:1234"; ip2 ← addr "127.0.0.1:1235"; ip3 ← addr "127.0.0.1:1236";
  let id1 := from_ip ip1 in let id2 := from_ip ip2 in let id3 := from_ip ip3 in
  len_is 0;;
  insert_peer id1 ip1 Live 0;; insert_peer id2 ip2 Live 0;; insert_peer id3 ip3 Live 0;;
  len_is 3;;
  modify (λ r, (process_outcome id1 (mkOutcome id2 Faulty) r).1);;
  modify (λ r, (process_outcome id2 (mkOutcome id2 Faulty) r).1).

Definition reservoir_tests : list reservoir_test :=
  [reservoir_test_insert; test_reset_faulty; test_reset_conviction; test_decide;
   test_decide_when_faulty_and_bootstrap_is_zero; test_outcome].
End reservoir_tests.

(** ** Gossip (src/src/ice/dissemination.rs)

    [slices] are the random arrays that the ids are hashed from. *)
Section gossip_tests.
Context {DQ : DoublePriorityQueue} {LM : Libm} {BP : BuildProfile} `{IdCrates}.

Abbreviation gossip_test := (test PriorityMap).

Definition N : nat := 100.
Definition NETWORK_SIZE : Z := 128.

(** [PriorityMap::empty] and [PriorityMap::len] *)
Definition pm_empty (m : PriorityMap) : bool := (pq_len (pm_q m) =? 0)%nat.
Definition pm_len (m : PriorityMap) : nat := pq_len (pm_q m).

Definition pm_len_is (n : nat) : gossip_test := asserts (λ m, bool_decide (pm_len m = n)).

Definition test_pm_single (slices : nat → bytes) : gossip_test :=
  asserts pm_empty;; pm_len_is 0;;
  r ← take_n 1;
  asserts_that (List.length r = 0%nat);;
  let id := id_new (slices 0%nat) in
  pm_push (Joiner id);;
  asserts (λ m, negb (pm_empty m));; pm_len_is 1;;
  cleanup 10;;
  asserts (λ m, negb (pm_empty m));;
  cleanup 0;;
  asserts pm_empty;;
  pm_push (Joiner id);;
  r2 ← take_n 1;
  asserts_that (List.length r2 = 1%nat);;
  r3 ← take_n 200;
  asserts_that (List.length r3 = 1%nat);;
  cleanup 10;;
  asserts (λ m, negb (pm_empty m));;
  cleanup 2;;
  asserts pm_empty.

Definition test_pm_multi (slices : nat → bytes) : gossip_test :=
  foreach (seq 0 100) (λ i, pm_push (Joiner (id_new (slices i))));;
  pm_len_is 100;;
  foreach (seq 0 10) (λ _, take_n 10;; mret tt);;
  pm_len_is 100;;
  cleanup 2;;
  pm_len_is 100;;
  take_n 50;;
  pm_len_is 100;;
  cleanup 2;;
  pm_len_is 50.

(** [pull_rumours] *)
Definition pull_rumours (network_size : Z) : st PriorityMap Empty_set (list Gossip) :=
  dc_gossip_query network_size.

Definition test_simple_push_pull (slices : nat → bytes) : gossip_test :=
  let stored_id := id_new (slices 0%nat) in
  dc_gossip (Joiner stored_id);;
  rumours ← pull_rumours NETWORK_SIZE;
  asserts_that (List.length rumours = 1%nat);;
  g ← of_res (unwrap (list.last rumours));
  let '(Joiner id) := g in
  asserts_that (id = stored_id).

Definition test_multi_push_pull (slices : nat → bytes) : gossip_test :=
  ids ← for_acc (seq 0 N) (λ i ids,
    let id := id_new (slices i) in
    dc_gossip (Joiner id);;
    mret (ids ++ [id])) [];
  let logn := Z.to_nat (f64_to_usize (f64_log2 (f64_of_u64 NETWORK_SIZE))) in
  let pulls := ((N * logn) / GOSSIP_LIMIT + 1)%nat in
  foreach (seq 0 pulls) (λ _,
    rumours ← pull_rumours NETWORK_SIZE;
    let len := List.length rumours in
    (if (GOSSIP_LIMIT <? len)%nat then panic else mret tt);;
    (if (len =? 0)%nat then panic else mret tt);;
    foreach rumours (λ g, let '(Joiner id) := g in asserts_that (id ∈ ids)));;
  rumours ← pull_rumours NETWORK_SIZE;
  asserts_that (List.length rumours = 0%nat).
End gossip_tests.

(** ** Utilities (src/src/util.rs) *)
Section util_tests.
Context `{IdCrates, Rng}.

(** A decimal fraction; the division rounds like the literal. *)
Definition dec (n d : Z) : f64 := f64_div (f64_of_u64 n) (f64_of_u64 d).

Definition sampled (seed : nat) (vs : list (Id * SocketAddr * Weight))
    (f : list (Id * SocketAddr) → bool) : test unit :=
  asserts (λ _, match sample_weighted seed (dec 66 100) vs with Some v => f v | None => false end).

Definition test_sampling_insufficient_stake (seed : nat) : test unit :=
  dummy_ip ← addr "0.0.0.0:1111";
  asserts_that (sample_weighted seed (dec 66 100) [] = None);;
  asserts_that (sample_weighted seed (dec 66 100)
    [(id_one, dummy_ip, dec 1 10); (id_two, dummy_ip, dec 1 10)] = None).

Definition test_sampling (seed : nat) : test unit :=
  dummy_ip ← addr "0.0.0.0:1111";
  sampled seed [(id_one, dummy_ip, dec 7 10)] (λ v, bool_decide (v = [(id_one, dummy_ip)]));;
  sampled seed [(id_one, dummy_ip, dec 6 10); (id_two, dummy_ip, dec 1 10)]
    (λ v, bool_decide (List.length v = 2%nat));;
  sampled seed [(id_one, dummy_ip, dec 6 10); (id_two, dummy_ip, dec 1 10);
                (id_zero, dummy_ip, dec 1 10)]
    (λ v, bool_decide (2 ≤ List.length v ≤ 3)%nat).

Definition outcomes_sum (x : f64) (os : list (Id * Weight * bool)) : test unit :=
  asserts (λ _, SFeqb x (sum_outcomes os)).

Definition test_sum_outcomes : test unit :=
  let zid := id_zero in
  outcomes_sum f64_zero [];;
  outcomes_sum (dec 66 100) [(zid, dec 66 100, true)];;
  outcomes_sum f64_zero [(zid, dec 66 100, false)];;
  outcomes_sum (dec 2 10) [(zid, dec 1 10, false); (zid, dec 1 10, true);
                           (zid, dec 1 10, false); (zid, dec 1 10, true)].

Definition parse_fails (s : string) : test unit :=
  fails_with (parse_id_and_ip s)
    (λ e, match e with CrateError.PeerParseError => true | _ => false end).

Definition parses (id : Id) (ip_str : string) : test unit :=
  address ← addr ip_str;
  p ← of_res (unwrap_res (parse_id_and_ip (id_to_string id +:+ "@" +:+ ip_str)));
  asserts_that (id = p.1);;
  asserts_that (address = p.2).

Definition test_parse_id_and_ip : test unit :=
  parses id_zero "0.0.0.0:1111";;
  parses (id_new (string_bytes "to_be_hashed")) "1.2.3.4:5678";;
  address ← addr "0.0.0.0:1111";
  p ← of_res (unwrap_res (parse_id_and_ip "0.0.0.0:1111"));
  asserts_that (address = p.2);;
  parse_fails "";;
  parse_fails "@";;
  parse_fails "@1.2.3.4:5678";;
  parse_fails "not-an-id@0.0.0.0:1111";;
  parse_fails (id_to_string (id_new (string_bytes "to_be_hashed")) +:+ "@not-an-ip").
End util_tests.

(** ** The genesis block (src/src/alpha/state.rs) and the block storage
       (src/src/storage/block.rs) *)
Section block_tests.
Context {CR : Crypto} {IO : IterOrder} {BP : BuildProfile} {SC : StateCodec} {SD : Sled}
  {BC : BlockCodec} {IC : IdCrates} {KC : KeyCrates}.
Context (hex_message dalek_message : string).

Definition genesis_block {S} : st S Empty_set Block :=
  of_res (unwrap_res (stakers ← genesis_stakers hex_message dalek_message; build_genesis stakers)).

Definition test_apply_genesis : test unit :=
  block ← genesis_block;
  produced_state ← of_res (unwrap_res (apply state_new block));
  asserts_that (as_total_spending_capacity produced_state = 6000 - FEE * 6);;
  asserts_that (as_total_staking_capacity produced_state = 6000).

(** [KeyPrefix::new(&key).as_bytes()] *)
Definition key_prefix_bytes (height : BlockHeight) : bytes := be_bytes 8 height.

(** [db.insert(key, encoded)] and the look-up that follows it. *)
Definition insert_get (key encoded : bytes) : test Db :=
  unwrap_st (sled_insert key encoded);;
  v ← reads (λ db, unwrap_res (sled_get db key));
  asserts_that (v = Some encoded).

(** What an iterator of the database yields, up to its end. *)
Definition yields (f : Db → list (res SledError (bytes * bytes))) (l : list (bytes * bytes)) :
    test Db :=
  es ← reads (λ db, try_map (λ e, unwrap_res e) (f db));
  asserts_that (es = l).

(** [scan_prefix] of sled *)
Definition test_block_height_prefix (scan_prefix : Db → bytes → list (res SledError (bytes * bytes))) :
    test Db :=
  let vout := replicate 32 0 in
  block0 ← genesis_block;
  hash0 ← of_res (unwrap_res (block_hash block0));
  let encoded0 := ser_block block0 in
  let block1 := block_new hash0 1 vout [] in
  hash1 ← of_res (unwrap_res (block_hash block1));
  let encoded1 := ser_block block1 in
  let key0 := key_bytes (block_height block0) hash0 in
  insert_get key0 encoded0;;
  let prefix := key_prefix_bytes (block_height block0) in
  yields (λ db, scan_prefix db prefix) [(key0, encoded0)];;
  let key1 := key_bytes (block_height block1) hash1 in
  insert_get key1 encoded1;;
  yields (λ db, scan_prefix db prefix) [(key0, encoded0)].

Definition test_block_height_ordering : test Db :=
  let vout := replicate 32 0 in
  block0 ← genesis_block;
  hash0 ← of_res (unwrap_res (block_hash block0));
  let encoded0 := ser_block block0 in
  let block1 := block_new hash0 1 vout [] in
  hash1 ← of_res (unwrap_res (block_hash block1));
  let encoded1 := ser_block block1 in
  let block2 := block_new hash1 2 vout [] in
  hash2 ← of_res (unwrap_res (block_hash block2));
  let encoded2 := ser_block block2 in
  let key0 := key_bytes (block_height block0) hash0 in
  insert_get key0 encoded0;;
  let key1 := key_bytes (block_height block1) hash1 in
  insert_get key1 encoded1;;
  let key2 := key_bytes (block_height block2) hash2 in
  insert_get key2 encoded2;;
  first ← reads (λ db, unwrap_res (sled_first db));
  asserts_that (first = Some (key0, encoded0));;
  last ← reads (λ db, unwrap_res (sled_last db));
  asserts_that (last = Some (key2, encoded2));;
  let start := key_prefix_bytes (block_height block0) in
  let stop := key_prefix_bytes 3 in
  yields (λ db, sled_range db start stop) [(key0, encoded0); (key1, encoded1); (key2, encoded2)];;
  yields (λ db, rev (sled_range db start stop))
    [(key2, encoded2); (key1, encoded1); (key0, encoded0)].
End block_tests.

(** ** The runs *)

(** Addresses are parsed; an id is written in letters, and a string that starts with the
    version 0 of base 58 is read as the codes of its characters. *)
Definition reading_crates : IdCrates := {|
  to_base58check := @to_base58check letter_crates;
  from_base58check s :=
    match list_ascii_of_string s with
    | "1"%char :: l => Some (0, (λ a, Z.of_nat (nat_of_ascii a)) <$> take 32 l)
    | _ => @from_base58check letter_crates s
    end;
  blake2b := @blake2b letter_crates;
  fmt_v6 _ := EmptyString;
  to_socket_addrs s := a ← parse_addr s; Some [a]
|}.

(** Key pairs are 64 bytes in hex; the first two of them identify the key. *)
Definition hex_digit (a : ascii) : option Z :=
  (λ p : nat * ascii, Z.of_nat p.1) <$> list_find (a =.) (list_ascii_of_string "0123456789abcdef").

Fixpoint unhex (l : list ascii) : option bytes :=
  match l with
  | [] => Some []
  | a :: b :: l' => h ← hex_digit a; d ← hex_digit b; r ← unhex l'; Some (16 * h + d :: r)
  | _ => None
  end.

Definition hex_keys : @KeyCrates digest_crypto := @Build_KeyCrates digest_crypto
  (λ _, EmptyString) (λ s, unhex (list_ascii_of_string s))
  (λ b, if decide (List.length b = 64%nat) then Some (take 2 b) else None) (λ b, b) (λ n, [Z.of_nat n]).

Section run.
#[local] Existing Instance digest_crypto.
#[local] Existing Instance canonical_order.
#[local] Existing Instance debug_profile.
#[local] Existing Instance plain_state_codec.
#[local] Existing Instance reading_crates.
#[local] Existing Instance hex_keys.
#[local] Existing Instance num_block_codec.
#[local] Existing Instance map_sled.
#[local] Existing Instance keep_order.
#[local] Existing Instance map_queue.
#[local] Existing Instance floor_log2.

Definition kp1 : Keypair := [1].
Definition kp2 : Keypair := [2].
Definition arrays (i : nat) : bytes := [Z.of_nat i].

Definition operation_tests : list (test unit) :=
  [test_transfer_more_than_owner_output_has kp1 kp2; test_transfer_with_total_less_than_fee kp1 kp2;
   test_transfer_with_three_outputs kp1 kp2; test_transfer_zero_then_throw_error kp1 kp2;
   test_transfer_more_than_allowed_then_throw_error kp1 kp2; test_transfer_various_amounts kp1 kp2;
   test_stake_more_than_allowed_then_throw_error kp1 kp2 arrays; test_stake kp1 kp2 arrays;
   test_cell_ids kp1 kp2; test_apply_genesis "" ""].

Definition util_tests : list (test unit) :=
  [test_sampling_insufficient_stake 0; test_sampling 0; test_sum_outcomes; test_parse_id_and_ip].

Definition gossip_tests : list (test PriorityMap) :=
  [test_pm_single arrays; test_pm_multi arrays; test_simple_push_pull arrays;
   test_multi_push_pull arrays].

Definition block_tests : list (test Db) :=
  [test_block_height_prefix "" "" (λ db p, Ok <$> filter (λ e, p `prefix_of` e.1) (tree_entries db));
   test_block_height_ordering "" ""].

Lemma operation_tests_pass : forallb (λ t, passes t tt) (operation_tests ++ util_tests) = true.
Proof. vm_compute. reflexivity. Qed.

Lemma reservoir_tests_pass : forallb (λ t, passes t reservoir_new) reservoir_tests = true.
Proof. vm_compute. reflexivity. Qed.

Lemma gossip_tests_pass : forallb (λ t, passes t priority_map_new) gossip_tests = true.
Proof. vm_compute. reflexivity. Qed.

Lemma block_tests_pass : forallb (λ t, passes t (∅ : gmap bytes bytes)) block_tests = true.
Proof. vm_compute. reflexivity. Qed.

Lemma collection_tests_pass :
  passes (test_dependency_graph kp1 kp2) dependency_graph_new &&
  passes bounded_hashmap_test (bounded_map_new 3) &&
  passes bounded_hashset_test (bounded_set_new 3) = true.
Proof. vm_compute. reflexivity. Qed.
End run.
