(* ===== verification/SleetTests.v ===== *)
(** * SleetTests.v: the tests of sleet, run on the model
      (src/src/sleet/sleet/sleet_tests.rs)

    [Env] is the environment of a test: one or two sleet actors, the client that
    answers for the network, and the actor that stands for hail.  After a statement of
    a test that sends a message, the messages of the actors are delivered in order until
    none is left; a query that is still open then has timed out. *)

From stdpp Require Import prelude gmap sets fin_sets list strings.
From Stdlib Require Import ZArith Lia.
From S2P Require Import Prelude Orders Cell Instances Dag ConflictGraph Blocks Storage SledInstances.
From S2P Require Import Util Operations Sleet Ids GraphTests UnitTests.

#[local] Open Scope Z_scope.

Section sleet_tests.
Context {CR : Crypto} {IO : IterOrder} {BP : BuildProfile} {SC : StateCodec} {SD : Sled}
  {TC : TxCodec} {RN : Rng} {IC : IdCrates}.

(** ** The environment *)

Inductive Who : Type := First | Second.
#[local] Instance Who_eq_dec : EqDecision Who.
Proof. solve_decision. Defined.

(** [DummyClient] with its two fields, [HailMock] with its one, and the outcomes that
    arrived on the channels of queries. *)
Record Env : Type := mkEnv {
  ev_sleet1 : Sleet;
  ev_sleet2 : Sleet;
  ev_responses : list (Id * bool);
  ev_ancestors : list Tx;
  ev_accepted : list Cell;
  ev_outcomes : list (Who * nat * bool)
}.

Definition ev_sleet (w : Who) (e : Env) : Sleet :=
  match w with First => ev_sleet1 e | Second => ev_sleet2 e end.
Definition ev_set_sleet (w : Who) (s : Sleet) (e : Env) : Env :=
  match w with
  | First => mkEnv s (ev_sleet2 e) (ev_responses e) (ev_ancestors e) (ev_accepted e) (ev_outcomes e)
  | Second => mkEnv (ev_sleet1 e) s (ev_responses e) (ev_ancestors e) (ev_accepted e) (ev_outcomes e)
  end.

(** [Handler<SetResponses>], [Handler<SetAncestors>], [Handler<AcceptedCells>] *)
Definition set_responses x e :=
  mkEnv (ev_sleet1 e) (ev_sleet2 e) x (ev_ancestors e) (ev_accepted e) (ev_outcomes e).
Definition set_ancestors_of x e :=
  mkEnv (ev_sleet1 e) (ev_sleet2 e) (ev_responses e) x (ev_accepted e) (ev_outcomes e).
Definition mock_accepted_cells cells e :=
  mkEnv (ev_sleet1 e) (ev_sleet2 e) (ev_responses e) (ev_ancestors e) (ev_accepted e ++ cells)
    (ev_outcomes e).
Definition add_outcome x e :=
  mkEnv (ev_sleet1 e) (ev_sleet2 e) (ev_responses e) (ev_ancestors e) (ev_accepted e)
    (ev_outcomes e ++ [x]).

Abbreviation env := (st Env Empty_set).

Definition on_actor (w : Who) {A} (m : st Sleet SleetError.Error A) : st Env SleetError.Error A :=
  zoom (ev_sleet w) (ev_set_sleet w) (λ x, x) m.

(** [Handler<ClientRequest> for DummyClient]: an unexpected request panics, which the
    sender sees as a mailbox error. *)
Definition mock_client (r : Request) (e : Env) : option ClientResponse :=
  match r with
  | ReqQueryTx _ _ tx =>
      Some (Fanout ((λ p, QueryTxAck p.1 (tx_hash tx) p.2) <$> ev_responses e))
  | ReqGetTxAncestors _ => Some (Oneshot (Some (TxAncestors (ev_ancestors e))))
  | _ => None
  end.

(** One message; the result of a notification is dropped. *)
Definition deliver (w : Who) (e : Effect) : env unit :=
  match e with
  | NotifyBootstrap =>
      ignore (on_actor w handle_bootstrap);;
      r ← gets (mock_client ReqGetAcceptedFrontier);
      ignore (on_actor w (bootstrap_response r))
  | NotifyFreshTx tx =>
      validators ← unwrap_st (on_actor w (handle_fresh_tx 0 tx));
      r ← gets (λ e, mock_client (ReqQueryTx (sl_node_id (ev_sleet w e)) (sl_node_ip (ev_sleet w e)) tx) e);
      ignore (on_actor w (fresh_tx_response tx validators r))
  | NotifyQueryComplete tx acks => ignore (on_actor w (handle_query_complete tx acks))
  | NotifyQueryIncomplete tx acks => ignore (on_actor w (handle_query_incomplete tx acks))
  | NotifyNewAccepted hs => ignore (on_actor w (handle_new_accepted hs))
  | NotifyCheckPending => ignore (on_actor w (handle_check_pending (λ _, false)))
  | NotifyAskForAncestors h id ip =>
      ignore (on_actor w (handle_ask_for_ancestors h id ip));;
      r ← gets (mock_client (ReqGetTxAncestors h));
      ignore (on_actor w (ask_for_ancestors_response r))
  | SendAcceptedCells cells => modify (mock_accepted_cells cells)
  | Resolve ch outcome => modify (add_outcome (w, ch, outcome))
  | _ => mret tt
  end.

Definition clear_out (s : Sleet) : Sleet :=
  mkSleet (sl_node_id s) (sl_node_ip s) (sl_committee s) (sl_known_txs s) (sl_conflict_graph s)
    (sl_live_cells s) (sl_accepted_txs s) (sl_pending_queries s) (sl_dag s) (sl_accepted_frontier s)
    (sl_bootstrap_peers s) (sl_old_frontier s) (sl_bootstrapped s) (sl_next_channel s) [].

(** Deliver the messages of an actor, and those that this causes. *)
Fixpoint deliver_all (fuel : nat) (w : Who) : env unit :=
  match fuel with
  | O => of_res OutOfFuel
  | S fuel' =>
      out ← gets (λ e, sl_out (ev_sleet w e));
      match out with
      | [] => mret tt
      | _ =>
          modify (λ e, ev_set_sleet w (clear_out (ev_sleet w e)) e);;
          foreach out (deliver w);;
          deliver_all fuel' w
      end
  end.

Definition settle_actor (w : Who) : env unit := deliver_all 20 w.

(** ** The helpers of the tests *)

Definition sleet_coinbase {S} (kp : Keypair) (amount : Capacity) : st S Empty_set Cell :=
  let pkh := hash_public kp in
  of_res (unwrap_res (coinbase_operation [(pkh, amount); (pkh, amount + 1); (pkh, amount + 2)])).

Definition generate_transfer {S} (kp : Keypair) (from : Cell) (amount : Capacity) :
    st S Empty_set Cell :=
  let pkh := hash_public kp in
  of_res (unwrap_res (transfer (mkTransfer from pkh pkh amount) kp)).

Definition generate_transfer_whith_recipient {S} (kp : Keypair) (from : Cell)
    (recipient : PublicKeyHash) (amount : Capacity) : st S Empty_set Cell :=
  let pkh := hash_public kp in
  of_res (unwrap_res (transfer (mkTransfer from recipient pkh amount) kp)).

Definition mock_validator_id : Id := id_one.
Definition mock_ip : SocketAddr := mkSocketAddr [0; 0; 0; 0] 1.

Definition make_live_committee (cells : list Cell) :
    gmap Id (SocketAddr * Weight) * gmap CellHash Cell :=
  ({[ mock_validator_id := (mock_ip, dec 7 10) ]},
   foldl (λ m c, <[hash c := c]> m) ∅ cells).

Definition set_validator_response (response : bool) : env unit :=
  modify (set_responses [(mock_validator_id, response)]).
Definition set_ancestors (ancestors : list Tx) : env unit := modify (set_ancestors_of ancestors).

(** [Sleet::new(..).start()] and the first message. *)
Definition start_sleet (w : Who) (id : Id) (db : Db) (live : list Cell) : env unit :=
  modify (ev_set_sleet w (sleet_new id mock_ip db []));;
  unwrap_st (on_actor w started);;
  settle_actor w;;
  unwrap_st (on_actor w (let c := make_live_committee live in handle_live_committee c.1 c.2));;
  settle_actor w.

(** The three ways to start; [db] is the fresh database of an actor. *)
Definition start_test_env (root_kp : Keypair) (db : Db) : env Cell :=
  set_validator_response true;;
  genesis_tx ← sleet_coinbase root_kp 10000;
  start_sleet First id_zero db [genesis_tx];;
  mret genesis_tx.

Definition start_test_env_with_two_sleet_actors (root_kp : Keypair) (db : Db) : env Cell :=
  genesis_tx ← start_test_env root_kp db;
  start_sleet Second id_one db [genesis_tx];;
  mret genesis_tx.

Definition start_test_env_with_two_sleet_actors_and_two_cells (root_kp : Keypair) (db : Db) :
    env (Cell * Cell) :=
  set_validator_response true;;
  genesis_tx1 ← sleet_coinbase root_kp 10000;
  genesis_tx2 ← sleet_coinbase root_kp 20000;
  start_sleet First id_zero db [genesis_tx1; genesis_tx2];;
  start_sleet Second id_one db [genesis_tx1; genesis_tx2];;
  mret (genesis_tx1, genesis_tx2).

(** [sleet.send(GenerateTx { cell }).await.unwrap()] *)
Definition send_generate_tx (w : Who) (cell : Cell) : env (option CellHash) :=
  r ← unwrap_st (on_actor w (handle_generate_tx cell));
  settle_actor w;;
  mret r.

Definition issue (w : Who) (cell : Cell) : env unit := _ ← send_generate_tx w cell; mret tt.

(** [QueryTx]: the outcome, and whether it was waited for *)
Definition outcome_on (w : Who) (ch : nat) (e : Env) : bool :=
  default false (snd <$> head (filter (λ p, p.1 = (w, ch)) (ev_outcomes e))).

Definition send_query_tx (w : Who) (tx : Tx) : env (bool * bool) :=
  r ← unwrap_st (on_actor w (handle_query_tx id_zero mock_ip tx));
  settle_actor w;;
  match r with
  | Reply _ _ outcome => mret (outcome, false)
  | Await _ _ ch => outcome ← gets (outcome_on w ch); mret (outcome, true)
  end.

Definition query_gives (w : Who) (tx : Tx) (outcome : bool) : test Env :=
  r ← send_query_tx w tx;
  asserts_that (r.1 = outcome).

(** [GetCellHashes], [GetAcceptedCells], [GetStatus] *)
Definition hashes_len (n : nat) : test Env :=
  asserts (λ e, bool_decide (length (handle_get_cell_hashes (ev_sleet1 e)) = n)).
Definition hashes_contain (h : CellHash) (b : bool) : test Env :=
  asserts (λ e, bool_decide (bool_decide (h ∈ handle_get_cell_hashes (ev_sleet1 e)) = b)).
Definition accepted_len (f : nat → bool) : test Env := asserts (λ e, f (length (ev_accepted e))).

(** [tx_storage::get_tx(&known_txs, hash).unwrap()] *)
Definition known_tx (w : Who) (h : TxHash) : env Tx :=
  r ← reads (λ e, unwrap_res (get_tx (sl_known_txs (ev_sleet w e)) h));
  mret r.2.

(** [n] transfers, each from the one before; the last one is the result. *)
Definition spend_chain (w : Who) (kp : Keypair) (amounts : list Capacity) (from : Cell) : env Cell :=
  for_acc amounts (λ amount spend_cell,
    cell ← generate_transfer kp spend_cell amount;
    issue w cell;;
    mret cell) from.

(** ** The tests *)
Context (root_kp : Keypair) (db : Db).

Definition smoke_test_sleet : test Env :=
  genesis_tx ← start_test_env root_kp db;
  cell ← generate_transfer root_kp genesis_tx 1;
  issue First cell;;
  hashes_len 2;; hashes_contain (hash cell) true;;
  accepted_len (Nat.eqb 0).

Definition test_duplicate_tx : test Env :=
  genesis_tx ← start_test_env root_kp db;
  cell ← generate_transfer root_kp genesis_tx 1;
  r ← send_generate_tx First cell;
  asserts_that (r = Some (hash cell));;
  r ← send_generate_tx First cell;
  asserts_that (r = None);;
  hashes_len 2;; hashes_contain (hash cell) true;;
  accepted_len (Nat.eqb 0).

Definition test_coinbase_tx : test Env :=
  start_test_env root_kp db;;
  cell ← sleet_coinbase root_kp 1;
  r ← send_generate_tx First cell;
  asserts_that (r = None);;
  hashes_len 1;; hashes_contain (hash cell) false.

Definition test_spend_nonexistent_funds : test Env :=
  start_test_env root_kp db;;
  unknown_coinbase ← sleet_coinbase root_kp 1;
  bad_cell ← generate_transfer root_kp unknown_coinbase 1;
  r ← send_generate_tx First bad_cell;
  asserts_that (r = None).

Definition beta1 : nat := Z.to_nat BETA1.
Definition beta2 : nat := Z.to_nat BETA2.

Definition test_sleet_accept_one : test Env :=
  genesis_tx ← start_test_env root_kp db;
  cell0 ← generate_transfer root_kp genesis_tx 1;
  issue First cell0;;
  spend_chain First root_kp (range 2 (1 + BETA1)) cell0;;
  hashes_len (beta1 + 1);;
  accepted_len (Nat.eqb 1);;
  asserts (λ e, bool_decide (ev_accepted e = [cell0])).

(** [n] is 500. *)
Definition test_sleet_accept_many (n : nat) (recipient : PublicKeyHash) : test Env :=
  genesis_tx ← start_test_env root_kp db;
  for_acc (seq 0 n) (λ _ spend_cell,
    cell ← generate_transfer_whith_recipient root_kp spend_cell recipient 1;
    issue First cell;;
    mret cell) genesis_tx;;
  hashes_len (n + 1);;
  accepted_len (Nat.eqb (n + 1 - beta1));;
  asserts (λ e, bool_decide (size (sl_accepted_frontier (ev_sleet1 e)) = 1%nat));;
  asserts (λ e, bool_decide (size (dag_g (sl_dag (ev_sleet1 e))) = beta1));;
  asserts (λ e, bool_decide (cg_len (sl_conflict_graph (ev_sleet1 e)) = n)).

Definition test_sleet_accept_with_conflict : test Env :=
  genesis_tx ← start_test_env root_kp db;
  first_cell ← generate_transfer root_kp genesis_tx 100;
  issue First first_cell;;
  conflicting_cell ← generate_transfer root_kp genesis_tx 42;
  set_validator_response false;;
  issue First conflicting_cell;;
  set_validator_response true;;
  spend_chain First root_kp (range 1 (1 + BETA2)) first_cell;;
  hashes_len (beta2 + 2);;
  asserts (λ e, bool_decide (size (dag_g (sl_dag (ev_sleet1 e))) =
    10 + size (sl_accepted_frontier (ev_sleet1 e)))%nat);;
  accepted_len (Nat.eqb 11);;
  asserts (λ e, bool_decide (first_cell ∈ ev_accepted e)).

Definition test_sleet_dont_accept : test Env :=
  genesis_tx ← start_test_env root_kp db;
  set_validator_response false;;
  spend_chain First root_kp (range 1 31) genesis_tx;;
  hashes_len 1;;
  accepted_len (Nat.eqb 0).

Definition test_sleet_many_conflicts : test Env :=
  genesis_tx ← start_test_env root_kp db;
  cell0 ← generate_transfer root_kp genesis_tx 1;
  spend_cell ← for_acc (range 0 BETA2) (λ i spend_cell,
    cell ← generate_transfer root_kp spend_cell (1 + i);
    issue First cell;;
    set_validator_response false;;
    conflict_cell ← generate_transfer root_kp spend_cell (50 + 1 + i);
    issue First conflict_cell;;
    set_validator_response true;;
    mret cell) genesis_tx;
  spend_chain First root_kp (range 101 (101 + BETA2)) spend_cell;;
  hashes_len (2 * beta2 + 1);;
  accepted_len (Nat.leb 1);;
  asserts (λ e, Nat.leb 1 (size (sl_accepted_frontier (ev_sleet1 e))));;
  asserts (λ e, bool_decide (cell0 ∈ ev_accepted e)).
(** Two actors: [sleet1] issues transfers of 1, 2, .. in a chain. *)
Definition chain_on_sleet1 (n : nat) : env (list Tx) :=
  genesis_tx ← start_test_env_with_two_sleet_actors root_kp db;
  p ← for_acc (range 1 (1 + Z.of_nat n)) (λ amount (acc : Cell * list CellHash),
    cell ← generate_transfer root_kp acc.1 amount;
    issue First cell;;
    mret (cell, acc.2 ++ [hash cell])) (genesis_tx, []);
  for_acc p.2 (λ h txs, tx ← known_tx First h; mret (txs ++ [tx])) [].

Definition is_parent (tx child : Tx) : test Env :=
  asserts_that (tx_hash tx ∈ tx_parents child).

(** The timeout of the query is the wait. *)
Definition test_sleet_tx_no_parents : test Env :=
  txs ← chain_on_sleet1 2;
  match txs with
  | [tx1; tx] =>
      is_parent tx1 tx;;
      r ← send_query_tx Second tx;
      asserts_that (r = (false, true))
  | _ => panic
  end.

Definition test_sleet_tx_late_parents : test Env :=
  txs ← chain_on_sleet1 2;
  match txs with
  | [tx1; tx2] =>
      is_parent tx1 tx2;;
      query_gives Second tx1 true;;
      query_gives Second tx2 true
  | _ => panic
  end.

Definition test_sleet_tx_two_late_parents : test Env :=
  txs ← chain_on_sleet1 3;
  match txs with
  | [tx1; tx2; tx3] =>
      is_parent tx1 tx2;; is_parent tx2 tx3;;
      query_gives Second tx1 true;;
      query_gives Second tx2 true;;
      query_gives Second tx3 true
  | _ => panic
  end.

Definition test_sleet_tx_missing_parent : test Env :=
  txs ← chain_on_sleet1 3;
  match txs with
  | [tx1; tx2; tx3] =>
      is_parent tx1 tx2;; is_parent tx2 tx3;;
      query_gives Second tx1 true;;
      query_gives Second tx3 false
  | _ => panic
  end.

Definition test_sleet_get_single_ancestor : test Env :=
  txs ← chain_on_sleet1 2;
  match txs with
  | [tx1; tx2] =>
      is_parent tx1 tx2;;
      set_ancestors [tx1];;
      query_gives Second tx2 true
  | _ => panic
  end.

Definition test_sleet_get_wrong_ancestor : test Env :=
  txs ← chain_on_sleet1 2;
  match txs with
  | [tx1; tx2] =>
      is_parent tx1 tx2;;
      set_ancestors [tx2];;
      query_gives Second tx2 false
  | _ => panic
  end.

Definition has_status (w : Who) (h : TxHash) (x : TxStatus.TxStatus) : test Env :=
  tx ← known_tx w h;
  asserts_that (tx_status tx = x).

Definition test_sleet_remove_children_of_rejected : test Env :=
  genesis_txs ← start_test_env_with_two_sleet_actors_and_two_cells root_kp db;
  cell1 ← generate_transfer root_kp genesis_txs.1 1000;
  issue First cell1;;
  tx1 ← known_tx First (hash cell1);
  query_gives Second tx1 true;;
  cell2 ← generate_transfer root_kp cell1 1;
  issue First cell2;;
  cell2_rogue ← generate_transfer root_kp cell1 2;
  cell3 ← generate_transfer root_kp genesis_txs.2 1;
  issue Second cell2_rogue;;
  issue Second cell3;;
  tx2_rogue ← known_tx Second (hash cell2_rogue);
  tx3 ← known_tx Second (hash cell3);
  is_parent tx2_rogue tx3;;
  set_validator_response false;;
  query_gives First tx2_rogue false;;
  query_gives First tx3 false;;
  set_validator_response true;;
  spend_chain First root_kp (range 30 (30 + BETA2)) cell2;;
  tx2_rogue ← known_tx First (hash cell2_rogue);
  tx3 ← known_tx First (hash cell3);
  is_parent tx2_rogue tx3;;
  has_status First (hash cell2) TxStatus.Accepted;;
  has_status First (hash cell2_rogue) TxStatus.Rejected;;
  has_status First (hash cell3) TxStatus.Removed;;
  r ← send_generate_tx First cell3;
  asserts_that (is_Some r).

(** One actor, its methods called directly. *)
Definition test_strongly_preferred : test Sleet :=
  genesis_tx ← sleet_coinbase root_kp 1000;
  genesis_cell_ids ← of_res (unwrap_res (from_outputs (hash genesis_tx) (outputs genesis_tx)));
  modify (λ _, set_conflict_graph (conflict_graph_new genesis_cell_ids)
    (sleet_new id_zero mock_ip db []));;
  c1 ← generate_transfer root_kp genesis_tx 1000;
  c2 ← generate_transfer root_kp genesis_tx 1001;
  c3 ← generate_transfer root_kp genesis_tx 1002;
  asserts_eq (select_parents 3) [];;
  unwrap_st (sleet_insert (tx_new [] c1));;
  unwrap_st (sleet_insert (tx_new [] c2));;
  unwrap_st (sleet_insert (tx_new [] c3));;
  asserts_eq (select_parents 3) [hash c1].

Definition sleet_tests : list (test Env) :=
  [smoke_test_sleet; test_duplicate_tx; test_coinbase_tx; test_spend_nonexistent_funds;
   test_sleet_accept_one; test_sleet_accept_with_conflict; test_sleet_dont_accept;
   test_sleet_tx_no_parents; test_sleet_tx_late_parents; test_sleet_tx_two_late_parents;
   test_sleet_tx_missing_parent; test_sleet_get_single_ancestor; test_sleet_get_wrong_ancestor;
   test_sleet_remove_children_of_rejected].
End sleet_tests.

(** ** The runs *)

(** A transaction as a flat list of numbers, every sequence with its length. *)
Abbreviation parser A := (bytes → option (A * bytes)).

Definition p_z : parser Z := λ b, match b with z :: b' => Some (z, b') | [] => None end.

Fixpoint p_times {A} (n : nat) (p : parser A) : parser (list A) := λ b,
  match n with
  | O => Some ([], b)
  | S n' => '(a, b1) ← p b; '(l, b2) ← p_times n' p b1; Some (a :: l, b2)
  end.

Definition p_seq {A} (p : parser A) : parser (list A) := λ b,
  '(n, b1) ← p_z b; p_times (Z.to_nat n) p b1.

Definition p_blob : parser bytes := p_seq p_z.

Definition p_input : parser Input := λ b,
  '(h, b1) ← p_blob b; '(i, b2) ← p_z b1; '(pk, b3) ← p_blob b2; '(sg, b4) ← p_blob b3;
  Some ({| output_index := {| cell_hash := h; index := i |};
           unlock := {| public_key := pk; signature := sg |} |}, b4).

Definition p_output : parser Output := λ b,
  '(c, b1) ← p_z b; '(t, b2) ← p_z b1; '(d, b3) ← p_blob b2; '(l, b4) ← p_blob b3;
  Some ({| capacity := c; data := d; lock := l;
           cell_type := if (t =? 0)%Z then Coinbase else if (t =? 1)%Z then Transfer else Stake |}, b4).

Definition p_tx : parser Tx := λ b,
  '(x, b1) ← p_z b; '(ps, b2) ← p_seq p_blob b1; '(i, b3) ← p_seq p_input b2;
  '(o, b4) ← p_seq p_output b3;
  Some (mkTx ps (cell_new (inputs_new i) o)
    (match x with 0 => TxStatus.Pending | 1 => TxStatus.Queried | 2 => TxStatus.Accepted
     | 3 => TxStatus.Rejected | _ => TxStatus.Removed end), b4).

Definition flat_tx_codec : TxCodec := {|
  ser_tx tx :=
    match tx_status tx with TxStatus.Pending => 0 | TxStatus.Queried => 1 | TxStatus.Accepted => 2
      | TxStatus.Rejected => 3 | TxStatus.Removed => 4 end ::
    ser_seq ser_blob (tx_parents tx) ++
    ser_cell_body (elements (inputs (tx_cell tx)), outputs (tx_cell tx));
  de_tx b := match p_tx b with Some (tx, []) => Ok tx | _ => Err "invalid"%string end;
  de_cell b := match p_tx b with Some (tx, []) => Ok (tx_cell tx) | _ => Err "invalid"%string end
|}.

Section run.
#[local] Existing Instance digest_crypto.
#[local] Existing Instance canonical_order.
#[local] Existing Instance debug_profile.
#[local] Existing Instance plain_state_codec.
#[local] Existing Instance reading_crates.
#[local] Existing Instance flat_tx_codec.
#[local] Existing Instance map_sled.
#[local] Existing Instance keep_order.
Definition root_key : Keypair := [1].
Definition fresh_db : Db := (∅ : gmap bytes bytes).
Definition no_env : Env := let s := sleet_new id_zero mock_ip fresh_db [] in mkEnv s s [] [] [] [].

Definition many_tests : list (test Env) :=
  [test_sleet_accept_many root_key fresh_db 500 [9]; test_sleet_many_conflicts root_key fresh_db].

(** The tests of sleet pass on the model, [test_sleet_accept_many] with fewer transfers
    than in the source.  They are the smoke test, duplicate, coinbase and unfunded
    transactions, acceptance of one, of many and of conflicting transactions, refusal
    of what was voted down, queries whose parents are late, missing or fetched from the
    sender, the removal of the children of a rejected transaction and its reissue, and
    the choice of parents among conflicting transactions. *)
Theorem sleet_tests_pass :
  forallb (λ t, passes t no_env) (sleet_tests root_key fresh_db ++ many_tests) &&
  passes (test_strongly_preferred root_key fresh_db) (ev_sleet1 no_env) = true.
Proof. vm_compute. reflexivity. Qed.
End run.
