(* ===== verification/TransportTests.v ===== *)
(** * TransportTests.v: the tests of the transport, run on the model
      (the modules [test] and [tests] of src/src/channel/asymmetric.rs,
      src/src/tls/certificate.rs, src/src/tls/tls.rs and src/src/tls/upgrader.rs)

    Both ends of a connection run in one sequence, in an order in which nobody waits. *)

From stdpp Require Import prelude gmap list strings.
From Stdlib Require Import ZArith Lia String.
From S2P Require Import Prelude Orders Cell Instances Util Ids Files Network Channel Tls GraphTests UnitTests.

(** ** The channel *)
Section channel_tests.
Context {NT : Net} {FS : Framed string}.

(** Both ends are upgraded, wrapped and split first. *)
Definition asymmetric_send_recv (s1 s2 : TcpStream) : test Duplex :=
  c1 ← of_res (unwrap_res (upgrade TcpUpgrader s1));
  channel1 ← of_res (unwrap_res (wrap c1));
  of_res (unwrap_res (split channel1).2);;
  c2 ← of_res (unwrap_res (upgrade TcpUpgrader s2));
  channel2 ← of_res (unwrap_res (wrap c2));
  of_res (unwrap_res (split channel2).2);;
  unwrap_st (server_send "123"%string);;
  m ← unwrap_st (client_recv false); asserts_that (m = Some "123"%string);;
  unwrap_st (client_send "321"%string);;
  m ← unwrap_st (server_recv false); asserts_that (m = Some "321"%string);;
  unwrap_st (server_send "456"%string);;
  m ← unwrap_st (client_recv false); asserts_that (m = Some "456"%string);;
  unwrap_st (client_send "654"%string);;
  m ← unwrap_st (server_recv false); asserts_that (m = Some "654"%string).
End channel_tests.

(** ** Certificates *)
Section certificate_tests.
Context {CC : CertCrates}.

(** [temp_dir().join(format!("{}.{}", name, extension))] *)
Definition generate_file_in_tmp_dir (name extension : string) : Path :=
  ["tmp"; name +:+ "." +:+ extension]%string.

(** The two calls draw from different seeds. *)
Definition get_twice (fname : string) (seed1 seed2 : nat) : test Fs :=
  let crt := generate_file_in_tmp_dir fname "crt" in
  let key := generate_file_in_tmp_dir fname "key" in
  stuff1 ← unwrap_st (get_node_cert crt key seed1);
  stuff2 ← unwrap_st (get_node_cert crt key seed2);
  asserts_that (stuff1 = stuff2).

Definition cert_and_key (name : string) (seed : nat) : st Fs Empty_set (bytes * bytes) :=
  let crt_f := generate_file_in_tmp_dir name ".crt" in
  let key_f := generate_file_in_tmp_dir name "key" in
  unwrap_st (get_node_cert crt_f key_f seed).

(** *** Handshakes *)
Context {RS : Rustls} {IC : IdCrates}.

Definition test0 (seed : nat) : test Fs :=
  ck ← cert_and_key "test0" seed;
  of_res (unwrap_res (client_tls_config ck.1 ck.2));;
  of_res (unwrap_res (server_tls_config ck.1 ck.2));;
  mret tt.

(** The server reads what the client has written, and expects two bytes. *)
Definition reads_two (written : bytes) : test Fs := asserts_that (List.length written = 2).

(** [connection cert_of_server cert_of_client]: the two ends of a connection *)
Definition handshake_test (connection : bytes → bytes → Stream * Stream) : test Fs :=
  server ← cert_and_key "server" 1;
  client ← cert_and_key "client" 2;
  let '(ss, cs) := connection server.1 client.1 in
  sc ← of_res (unwrap_res (server_tls_config server.1 server.2));
  cc ← of_res (unwrap_res (client_tls_config client.1 client.2));
  of_res (unwrap (accept sc ss));;
  of_res (unwrap (connect cc DUMMY_DOMAIN cs));;
  reads_two (string_bytes "OK").

Definition smoke_test (seed : nat) : test Fs :=
  let _ := tcp_upgraders in
  ck ← of_res (unwrap_res (generate_node_cert seed));
  of_res (unwrap_res (tls_upgraders ck.1 ck.2));;
  mret tt.

(** The handshakes of the upgraders that [tls_upgraders] returns. *)
Definition node_net (cert key : bytes) : Net :=
  tls_net (mkClientConfig [cert] key ZfxServerCertVerifier)
    (mkServerConfig [cert] key ZfxClientCertVerifier).

Definition handshakeand_id_test (connection : bytes → bytes → Stream * Stream) : test Fs :=
  server ← of_res (unwrap_res (generate_node_cert 1));
  client ← of_res (unwrap_res (generate_node_cert 2));
  let '(ss, cs) := connection server.1 client.1 in
  let server_id1 := id_new server.1 in
  upgraders ← of_res (unwrap_res (tls_upgraders server.1 server.2));
  c1 ← of_res (unwrap_res (@upgrade (node_net server.1 server.2) (up_server upgraders.1) ss));
  asserts (λ _, is_tls c1);;
  client_id1 ← of_res (unwrap (get_id c1));
  let client_id2 := id_new client.1 in
  upgraders ← of_res (unwrap_res (tls_upgraders client.1 client.2));
  c2 ← of_res (unwrap_res (@upgrade (node_net client.1 client.2) (up_client upgraders.1) cs));
  asserts (λ _, is_tls c2);;
  server_id2 ← of_res (unwrap (get_id c2));
  reads_two (string_bytes "OK");;
  asserts_that (server_id1 = server_id2);;
  asserts_that (client_id1 = client_id2).
End certificate_tests.

(** ** The runs *)
Section run.
#[local] Existing Instance byte_certs.
#[local] Existing Instance letter_crates.

(** A connection knows the certificate of its other end. *)
Definition shows_peer : Rustls := {|
  Stream := bytes;
  stream_connect _ := None;
  stream_peer_addr _ := None;
  usable_key _ := true;
  accept cfg s :=
    if offer_client_auth (sc_verifier cfg) then
      if verify_client_cert (sc_verifier cfg) s [] then Some (Some [s]) else None
    else Some None;
  connect cfg name s :=
    if verify_server_cert (cc_verifier cfg) s [] name then Some (Some [s]) else None
|}.
#[local] Existing Instance shows_peer.

Definition two_ends (server client : bytes) : bytes * bytes := (client, server).

(** A frame is the length of a string with its characters. *)
Definition string_frames : Framed string := {|
  frame s := inr (Z.of_nat (String.length s) :: string_bytes s);
  try_next tls b := match b with
    | [] => ([], if tls then inl "unexpected end of file"%string else inr None)
    | n :: b' => (drop (Z.to_nat n) b', inr (Some (string_of_bytes (take (Z.to_nat n) b'))))
    end
|}.
#[local] Existing Instance string_frames.

Definition plain_net : Net := tls_net (mkClientConfig [] [] ZfxServerCertVerifier)
  (mkServerConfig [] [] ZfxClientCertVerifier).

Lemma transport_tests_pass :
  forallb (λ t, passes t ∅)
    [get_twice "x" 1 2; test0 3; handshake_test two_ends; smoke_test 4; handshakeand_id_test two_ends] &&
  passes (@asymmetric_send_recv plain_net string_frames [1%Z] [2%Z]) (mkDuplex [] []) = true.
Proof. vm_compute. reflexivity. Qed.
End run.
