(* ===== verification/Formats.v ===== *)
(** * Formats.v: the text of cells, transactions and blocks
      (the [Display] and [Debug] implementations of src/src/cell/, src/src/sleet/tx.rs,
      src/src/hail/block.rs, src/src/alpha/block.rs, src/src/ice/, src/src/porter/mod.rs and
      [State::format] of src/src/alpha/state.rs)

    What the program writes to its log.  A value can be printed or the attempt panics: the
    output of a stake is printed with the node that its data names, and the data of an
    output that came over the network may name none.  Colours are those of the crate
    colored, hexadecimal text that of the crate hex. *)

From stdpp Require Import prelude gmap sets list strings pretty.
From Stdlib Require Import ZArith Lia Ascii.
From S2P Require Import Prelude Orders Cell Instances Dag ConflictGraph Blocks Storage SledInstances BlockStorage.
From S2P Require Import Util Operations DependencyGraph AlphaState Sleet Hail Ice View Dissemination Alpha Ids Router Files Porter.

(** [colored::Colorize] *)
Inductive Color : Type := Blue | Cyan | Magenta | Yellow | Green | Red.
Class Colorize : Type := paint : Color → string → string.

Definition nl : string := String (ascii_of_nat 10) EmptyString.

(** A text, or a panic of the implementation of [fmt]. *)
Abbreviation text := (res Empty_set string).

(** ** Vectors between brackets *)

(** The loop over all but the last and then the last one. *)
Fixpoint comma_separated (l : list string) : string :=
  match l with
  | [] => ""
  | [x] => x
  | x :: l' => x +:+ ", " +:+ comma_separated l'
  end.
Definition bracketed (l : list string) : string := "[" +:+ comma_separated l +:+ "]".
Definition show_all {A} (show : A → text) (l : list A) : text :=
  ts ← try_map show l; Ok (bracketed ts).

Section formats.
Context {CR : Crypto} {IO : IterOrder} {BP : BuildProfile} {SC : StateCodec} {KC : KeyCrates} {IC : IdCrates}.
Context {CZ : Colorize}.

(** ** Cells *)
Definition cell_id_debug (id : CellId) : string := hex_encode id.
Definition cell_id_display (id : CellId) : string := paint Blue (hex_encode id).
Definition cell_ids_debug (ids : CellIds) : string :=
  foldl (λ s id, s +:+ cell_id_debug id +:+ nl) nl (iter_set ids).

Definition output_index_debug (o : OutputIndex) : string :=
  "<" +:+ hex_encode (cell_hash o) +:+ ":" +:+ pretty (index o) +:+ ">".
Definition unlock_debug (u : CellUnlockScript) : string :=
  "⚿ " +:+ hex_encode (ser_public_key (public_key u)) +:+ ":" +:+ hex_encode (ser_signature (signature u)).
(** [#[derive(Debug)]] *)
Definition input_debug (i : Input) : string :=
  "Input { output_index: " +:+ output_index_debug (output_index i) +:+ ", unlock: " +:+
    unlock_debug (unlock i) +:+ " }".
Definition input_display (i : Input) : text :=
  id ← unwrap_res (output_index_cell_id (output_index i)); Ok (cell_id_display id).

(** [if self.inputs.len() == 0 { "[]" }], and the sorted inputs otherwise *)
Definition inputs_debug (i : Inputs) : string :=
  if (size i =? 0)%nat then "[]" else bracketed (input_debug <$> sort input_cmp (iter_set i)).
Definition inputs_display (i : Inputs) : text :=
  if (size i =? 0)%nat then Ok "[]" else show_all input_display (sort input_cmp (iter_set i)).

Definition output_debug (o : Output) : text :=
  match cell_type o with
  | Coinbase => Ok ("coinbase (⚴ " +:+ hex_encode (lock o) +:+ ") = " +:+ pretty (capacity o))
  | Transfer => Ok ("transfer (⚴ " +:+ hex_encode (lock o) +:+ ") = " +:+ pretty (capacity o))
  | Stake =>
      id ← unwrap_res (de_stake_state (data o));
      Ok ("stake " +:+ id_to_string id +:+ " (⚴ " +:+ hex_encode (lock o) +:+ ") = " +:+ pretty (capacity o))
  end.
Definition output_display (o : Output) : text :=
  match cell_type o with
  | Coinbase => Ok (paint Cyan "coinbase" +:+ " = " +:+ paint Magenta (pretty (capacity o)))
  | Transfer => Ok (paint Cyan "transfer" +:+ " = " +:+ paint Magenta (pretty (capacity o)))
  | Stake =>
      id ← unwrap_res (de_stake_state (data o));
      Ok (paint Cyan "stake" +:+ " " +:+ paint Yellow (id_to_string id) +:+ " = " +:+
        paint Magenta (pretty (capacity o)))
  end.

Definition outputs_debug (os : Outputs) : text :=
  if (length os =? 0)%nat then Ok "[]" else show_all output_debug os.
Definition outputs_display (os : Outputs) : text :=
  if (length os =? 0)%nat then Ok "[]" else show_all output_display os.

(** [#[derive(Debug)]] *)
Definition cell_debug (c : Cell) : text :=
  o ← outputs_debug (outputs c);
  Ok ("Cell { inputs: " +:+ inputs_debug (inputs c) +:+ ", outputs: " +:+ o +:+ " }").
Definition cell_display (c : Cell) : text :=
  i ← inputs_display (inputs c);
  o ← outputs_display (outputs c);
  Ok ("inputs: " +:+ i +:+ nl +:+ "outputs: " +:+ o +:+ nl).

(** ** Transactions *)

(** [Debug] of an array of bytes *)
Definition bytes_debug (b : bytes) : string := bracketed (pretty <$> b).
Definition tx_status_debug (s : TxStatus.TxStatus) : string :=
  match s with
  | TxStatus.Pending => "Pending"
  | TxStatus.Queried => "Queried"
  | TxStatus.Accepted => "Accepted"
  | TxStatus.Rejected => "Rejected"
  | TxStatus.Removed => "Removed"
  end.
(** [#[derive(Debug)]] *)
Definition tx_debug (tx : Tx) : text :=
  c ← cell_debug (tx_cell tx);
  Ok ("Tx { parents: " +:+ bracketed (bytes_debug <$> tx_parents tx) +:+ ", cell: " +:+ c +:+
    ", status: " +:+ tx_status_debug (tx_status tx) +:+ " }").
Definition tx_display (tx : Tx) : text :=
  s ← cell_display (tx_cell tx);
  let ps := foldl (λ ps p, ps +:+ " " +:+ hex_encode p) "" (tx_parents tx) in
  let s := s +:+ "[" +:+ paint Yellow "parents" +:+ "]" +:+ ps +:+ nl in
  Ok (s +:+ "[" +:+ paint Yellow "status" +:+ "] " +:+ tx_status_debug (tx_status tx) +:+ nl).

(** ** Blocks *)
Definition option_debug (o : option string) : string :=
  match o with Some s => "Some(" +:+ s +:+ ")" | None => "None" end.
(** [#[derive(Debug)]] *)
Definition block_debug (b : Block) : text :=
  cs ← show_all cell_debug (block_cells b);
  Ok ("Block { predecessor: " +:+ option_debug (bytes_debug <$> predecessor b) +:+ ", height: " +:+
    pretty (block_height b) +:+ ", vrf_out: " +:+ bytes_debug (vrf_out b) +:+ ", cells: " +:+ cs +:+ " }").
Definition block_display (b : Block) : string :=
  let s := match predecessor b with
           | Some p => "predecessor = " +:+ hex_encode p +:+ nl
           | None => "predecessor = None" +:+ nl
           end in
  let s := s +:+ "block_height = " +:+ pretty (block_height b) +:+ nl in
  let s := s +:+ "vrf_output = " +:+ hex_encode (vrf_out b) in
  s +:+ nl.
Definition vertex_debug (v : Vertex) : string :=
  "Vertex { height: " +:+ pretty (vertex_height v) +:+ ", block_hash: " +:+ bytes_debug (vertex_hash v) +:+ " }".
(** [#[derive(Debug)]] *)
Definition hail_block_debug (b : HailBlock) : text :=
  inner ← block_debug (hb_block b);
  Ok ("HailBlock { parent: " +:+ option_debug (vertex_debug <$> hb_parent b) +:+ ", block: " +:+ inner +:+ " }").
Definition hail_block_display (b : HailBlock) : string :=
  let ps := match hb_parent b with Some p => " " +:+ hex_encode (vertex_hash p) | None => "" end in
  block_display (hb_block b) +:+ "[" +:+ paint Yellow "parent" +:+ "]" +:+ ps +:+ nl.

(** ** Ice *)
Definition choice_debug (c : Choice) : string :=
  match c with Live => paint Green "Live" | Faulty => paint Red "Faulty" end.
Definition query_debug (q : Query) : string :=
  "QUERY(" +:+ paint Yellow (fmt_addr (q_peer_ip q)) +:+ " (" +:+ id_to_string (q_peer_id q) +:+ "), " +:+
    choice_debug (q_choice q) +:+ ")".
Definition outcome_debug (o : Outcome) : string :=
  "OUTCOME(" +:+ paint Yellow (id_to_string (oc_peer_id o)) +:+ ", " +:+ choice_debug (oc_choice o) +:+ ")".
(** [Debug] of a [HashMap] *)
Definition quorum_display (q : Quorum) : string :=
  "Q {" +:+ comma_separated ((λ e, id_to_string e.1 +:+ ": " +:+ choice_debug e.2) <$> iter_map q) +:+ "}".

(** ** The state of alpha *)
Definition state_format (s : State) : string :=
  foldl (λ t v,
      t +:+ " ν = " +:+ paint Cyan "⦑" +:+ " " +:+ paint Yellow (id_to_string v.1) +:+ " | " +:+
        paint Magenta (pretty v.2) +:+ " " +:+ paint Cyan "⦒" +:+ nl)
    (paint Cyan ("Σ = " +:+ pretty (as_total_spending_capacity s)) +:+ nl) (as_validators s).

(** ** Requests that the router refuses ([#[derive(Debug)]]) *)
Definition query_tx_debug (id : Id) (ip : SocketAddr) (tx : Tx) : text :=
  t ← tx_debug tx;
  Ok ("QueryTx { id: " +:+ id_to_string id +:+ ", ip: " +:+ fmt_addr ip +:+ ", tx: " +:+ t +:+ " }").
Definition get_tx_ancestors_debug (h : TxHash) : string := "GetTxAncestors { tx_hash: " +:+ bytes_debug h +:+ " }".
Definition query_block_debug (id : Id) (b : HailBlock) : text :=
  t ← hail_block_debug b;
  Ok ("QueryBlock { id: " +:+ id_to_string id +:+ ", block: " +:+ t +:+ " }").
End formats.

(** ** What can be printed *)
Section printable.
Context {CR : Crypto} {IO : IterOrder} {BP : BuildProfile} {SC : StateCodec} {KC : KeyCrates} {IC : IdCrates}.
Context {CZ : Colorize}.
Implicit Types (o : Output) (c : Cell) (tx : Tx).

(** The data of a stake names a node. *)
Definition output_printable o : bool :=
  match cell_type o with
  | Stake => match de_stake_state (data o) with Ok _ => true | _ => false end
  | _ => true
  end.
Definition cell_printable c : bool := forallb output_printable (outputs c).

(** Printed, or a panic: the cases of an implementation of [fmt]. *)
Definition prints (t : text) (b : bool) : Prop := if b then ∃ s, t = Ok s else t = Panic.

Lemma prints_bind t b (k : string → text) :
  (∀ s, ∃ s', k s = Ok s') → prints t b → prints (t ≫= k) b.
Proof. intros Hk. destruct b; cbn; [intros [s ->]; apply Hk|by intros ->]. Qed.

Lemma prints_all {A} (show : A → text) (p : A → bool) l :
  (∀ x, x ∈ l → prints (show x) (p x)) → prints (show_all show l) (forallb p l).
Proof.
  intros Hl. unfold show_all. assert (if forallb p l then ∃ ts, try_map show l = Ok ts else try_map show l = Panic) as Ht.
  { induction l as [|x l IH]; [by exists []|]. cbn.
    pose proof (Hl x ltac:(by left)) as Hx. specialize (IH ltac:(intros; apply Hl; by right)).
    destruct (p x); cbn in Hx |- *; [destruct Hx as [s ->]|by rewrite Hx].
    cbn. destruct (forallb p l); [destruct IH as [ts ->]; by eexists|by rewrite IH]. }
  destruct (forallb p l); cbn; [destruct Ht as [ts ->]; by eexists|by rewrite Ht].
Qed.

Hypothesis de_stake_total : ∀ b, de_stake_state b ≠ OutOfFuel.

Lemma output_debug_prints o : prints (output_debug o) (output_printable o).
Proof.
  unfold output_debug, output_printable, prints. destruct (cell_type o); [by eexists..|].
  destruct (de_stake_state (data o)) eqn:Hd; cbn; [by eexists|done|done|by apply de_stake_total in Hd].
Qed.

Lemma output_display_prints o : prints (output_display o) (output_printable o).
Proof.
  unfold output_display, output_printable, prints. destruct (cell_type o); [by eexists..|].
  destruct (de_stake_state (data o)) eqn:Hd; cbn; [by eexists|done|done|by apply de_stake_total in Hd].
Qed.

Lemma outputs_debug_prints os : prints (outputs_debug os) (forallb output_printable os).
Proof.
  unfold outputs_debug. destruct (Nat.eqb_spec (length os) 0) as [->%nil_length_inv|_]; [by exists "[]"|].
  apply prints_all. auto using output_debug_prints.
Qed.

Lemma outputs_display_prints os : prints (outputs_display os) (forallb output_printable os).
Proof.
  unfold outputs_display. destruct (Nat.eqb_spec (length os) 0) as [->%nil_length_inv|_]; [by exists "[]"|].
  apply prints_all. auto using output_display_prints.
Qed.

Lemma inputs_display_prints i : ∃ s, inputs_display i = Ok s.
Proof.
  unfold inputs_display. destruct (size i =? 0)%nat; [by eexists|].
  assert (prints (show_all input_display (sort input_cmp (iter_set i))) (forallb (λ _, true) (sort input_cmp (iter_set i)))) as Hp
    by (apply prints_all; by eexists).
  assert (∀ l : list Input, forallb (λ _, true) l = true) as Ht by (intros l; by induction l).
  by rewrite Ht in Hp.
Qed.

Lemma cell_debug_prints c : prints (cell_debug c) (cell_printable c).
Proof. apply prints_bind; [eauto|apply outputs_debug_prints]. Qed.

Lemma cell_display_prints c : prints (cell_display c) (cell_printable c).
Proof.
  unfold cell_display. destruct (inputs_display_prints (inputs c)) as [i ->].
  apply (prints_bind (outputs_display (outputs c)) _ (λ t, Ok _)); [eauto|apply outputs_display_prints].
Qed.

Lemma tx_debug_prints tx : prints (tx_debug tx) (cell_printable (tx_cell tx)).
Proof. apply prints_bind; [eauto|apply cell_debug_prints]. Qed.

Lemma tx_display_prints tx : prints (tx_display tx) (cell_printable (tx_cell tx)).
Proof. apply prints_bind; [eauto|apply cell_display_prints]. Qed.

Lemma query_tx_debug_prints id ip tx : prints (query_tx_debug id ip tx) (cell_printable (tx_cell tx)).
Proof. apply prints_bind; [eauto|apply tx_debug_prints]. Qed.

Lemma query_block_debug_prints id b :
  prints (query_block_debug id b) (forallb cell_printable (block_cells (hb_block b))).
Proof.
  do 3 (apply prints_bind; [eauto|]). apply prints_all. auto using cell_debug_prints.
Qed.
End printable.

(** The text of a set of inputs does not depend on the order in which the hash set is
    walked; that of a set of ids does. *)
Lemma inputs_display_order {CR : Crypto} {CL : CryptoLaws} {KC : KeyCrates} {CZ : Colorize} (IO1 IO2 : IterOrder) (i : Inputs) :
  inputs_display (IO := IO1) i = inputs_display (IO := IO2) i ∧
  inputs_debug (IO := IO1) i = inputs_debug (IO := IO2) i.
Proof.
  assert (sort input_cmp (iter_set (IterOrder := IO1) i) = sort input_cmp (iter_set (IterOrder := IO2) i)) as Hs.
  { apply (sort_perm_eq input_cmp). etrans; [apply iter_set_perm|]. symmetry. apply iter_set_perm. }
  unfold inputs_display, inputs_debug. by rewrite Hs.
Qed.
