(* ===== verification/Logging.v ===== *)
(** * Logging.v: handlers with the lines that they write to the log
      (src/src/sleet/sleet.rs: [on_receive_tx], [Handler<GenerateTx>], [Handler<QueryTx>];
      src/src/server/router.rs: the requests that are refused)

    Sleet.v and Router.v leave the log out.  Here the lines of these handlers that print a
    transaction or a block are put back: a line of level info or error is formatted when
    the log is on, and formatting can panic.  On values that can be printed the handlers
    are those of Sleet.v and Router.v; on others they end the handler.  The other handlers
    of sleet and hail stay without their log lines. *)

From stdpp Require Import prelude gmap sets list strings pretty.
From Stdlib Require Import ZArith Lia.
From S2P Require Import Prelude Orders Cell Instances Dag ConflictGraph Blocks Storage SledInstances BlockStorage.
From S2P Require Import Util Operations DependencyGraph AlphaState Sleet Hail Ice View Dissemination Alpha Ids Router Files SleetWitnesses Network Formats.

(** The log is on: [tracing_subscriber::fmt().with_max_level(Level::INFO)] of the binary;
    and the [Debug] form of the errors that hold no cell. *)
Class Tracing : Type := {
  log_on : bool;
  error_debug : SleetError.Error → string
}.

Section logging.
Context {CR : Crypto} {IO : IterOrder} {BP : BuildProfile} {SC : StateCodec} {SD : Sled}
  {BC : BlockCodec} {TC : TxCodec} {SO : Sortition} {RN : Rng}.
Context {KC : KeyCrates} {IC : IdCrates} {CZ : Colorize} {TR : Tracing}.
Abbreviation sl := (st Sleet SleetError.Error).

(** [info!] and [error!] *)
Definition log {S E} (t : text) : st S E unit :=
  if log_on then of_res (unwrap_res (_ ← t; Ok tt)) else mret tt.

(** [Display] of [sleet::Error], which is its [Debug] form. *)
Definition sleet_error_display (e : SleetError.Error) : text :=
  match e with
  | SleetError.InvalidCoinbaseTransaction c =>
      t ← cell_debug c; Ok ("InvalidCoinbaseTransaction(" +:+ t +:+ ")")
  | e => Ok (error_debug e)
  end.

(** ** Sleet *)
Definition on_receive_tx_logged (tx : Tx) : sl bool :=
  if has_coinbase_output (tx_cell tx) then
    throw (SleetError.InvalidCoinbaseTransaction (tx_cell tx))
  else
    fresh ← reads (λ s, is_insertable_tx s (tx_hash tx));
    if (fresh : bool) then
      hp ← gets (λ s, has_parents s tx);
      if (hp : bool) then
        let tx := tx_with_status TxStatus.Pending tx in
        sleet_insert tx;;
        ignore (on_db (insert_tx tx));;
        mret true
      else throw SleetError.MissingAncestry
    else
      log (tx_display tx);;
      mret false.

(** [Handler<GenerateTx>] *)
Definition handle_generate_tx_logged (cell : Cell) : sl (option CellHash) :=
  parents ← reads (λ s, unwrap_res (select_parents NPARENTS s));
  let tx := tx_new parents cell in
  log (tx_display tx);;
  catch (on_receive_tx_logged tx) (λ r,
    match r with
    | Ok true => notify (NotifyFreshTx tx);; mret (Some (hash cell))
    | Err e => log (tx_display tx);; log (sleet_error_display e);; mret None
    | _ => mret None
    end).

(** [Handler<QueryTx>] *)
Definition handle_query_tx_logged (sender_id : Id) (sender_ip : SocketAddr) (tx : Tx) :
    sl QueryReply :=
  id ← gets sl_node_id;
  let h := tx_hash tx in
  catch (on_receive_tx_logged tx) (λ r,
    match r with
    | Ok is_new =>
        (if (is_new : bool) then notify (NotifyFreshTx tx);; notify NotifyCheckPending
         else mret tt);;
        accepted ← gets (λ s, stored_accepted s h);
        if (accepted : bool) then mret (Reply id h true)
        else
          rejected ← gets (λ s, stored_rejected s h);
          if (rejected : bool) then mret (Reply id h false)
          else
            outcome ← reads (λ s, unwrap_res (is_strongly_preferred s h));
            mret (Reply id h outcome)
    | Err SleetError.MissingAncestry =>
        log (tx_display tx);;
        ch ← gets sl_next_channel;
        modify (λ s, set_pending (sl_pending_queries s ++ [(tx, ch)]) (S ch) s);;
        notify (NotifyAskForAncestors h sender_id sender_ip);;
        mret (Await id h ch)
    | Err e => log (tx_display tx);; log (sleet_error_display e);; mret (Reply id h false)
    | _ => mret (Reply id h false)
    end).

(** ** The router *)
Definition route_logged (m : RouterRequest) : st Node Empty_set Answer :=
  validators ← gets nd_validators;
  let refused := rr_check_peer m && bool_decide (rr_peer_id m ∉ validators) in
  match rr_request m with
  | Protocol.GenerateTx cell =>
      h ← send_sleet (handle_generate_tx_logged cell); answer (Protocol.GenerateTxAck h)
  | Protocol.QueryTx id ip tx =>
      if refused then log (query_tx_debug id ip tx);; answer Protocol.RequestRefused
      else
        r ← send_sleet (handle_query_tx_logged id ip tx);
        match r with
        | Reply id' h outcome => answer (Protocol.QueryTxAck id' h outcome)
        | Await id' h channel => mret (Awaiting id' h channel)
        end
  | Protocol.GetTxAncestors h =>
      if refused then log (Ok (get_tx_ancestors_debug h));; answer Protocol.RequestRefused
      else route m
  | Protocol.QueryBlock id b =>
      if refused then log (query_block_debug id b);; answer Protocol.RequestRefused
      else route m
  | _ => route m
  end.

(** The cells that a request makes the node print. *)
Definition printed_cells (r : Protocol.Request) : list Cell :=
  match r with
  | Protocol.GenerateTx cell => [cell]
  | Protocol.QueryTx _ _ tx => [tx_cell tx]
  | Protocol.QueryBlock _ b => block_cells (hb_block b)
  | _ => []
  end.

(** ** Values that can be printed *)
Hypothesis de_stake_total : ∀ b, de_stake_state b ≠ OutOfFuel.

Lemma log_prints {S E} (t : text) (s : S) : prints t true → log (E := E) t s = (s, Ok tt).
Proof. intros [x ->]. unfold log. by destruct log_on. Qed.

Lemma log_panics {S E} (t : text) (s : S) :
  log_on = true → prints t false → log (E := E) t s = (s, Panic).
Proof. intros Hl Ht. cbn in Ht. unfold log. by rewrite Hl, Ht. Qed.

Lemma is_insertable_tx_no_error s h e : is_insertable_tx s h ≠ Err e.
Proof.
  unfold is_insertable_tx. destruct (is_known_tx _ _) as [[]| | |]; try done. cbn. by destruct (is_removed_tx _ _).
Qed.

(** The only cell of an error is the one of the transaction. *)
Lemma on_receive_tx_error tx s s' e :
  cell_printable (tx_cell tx) = true → on_receive_tx tx s = (s', Err e) → prints (sleet_error_display e) true.
Proof.
  intros Hp. unfold on_receive_tx. destruct (has_coinbase_output _).
  { intros Hrun. injection Hrun as _ <-. cbn [sleet_error_display].
    rewrite <- Hp. apply prints_bind; [eauto|by apply cell_debug_prints]. }
  assert (∀ A (m : sl A) s s' e, (∀ c, (m s).2 ≠ Err (SleetError.InvalidCoinbaseTransaction c)) →
    m s = (s', Err e) → prints (sleet_error_display e) true) as Hother.
  { intros A m t t' e' Hm Hrun. rewrite Hrun in Hm. cbn in Hm. destruct e'; try (by eexists).
    by destruct (Hm c). }
  apply Hother. intros c. unfold mbind, st_bind, reads.
  pose proof (is_insertable_tx_no_error s (tx_hash tx)) as Hk.
  destruct (is_insertable_tx s (tx_hash tx)) as [[]|e'| |]; [|done|by destruct (Hk e')|done|done].
  cbn. destruct (has_parents s tx); [|done].
  unfold sleet_insert, mbind, st_bind, on_cg, on_dag, zoom. 
  destruct (insert_cell _ _) as [g [| | |]]; cbn; try done.
  destruct (insert_vx _ _ _) as [d [| | |]]; cbn; try done.
  unfold ignore, catch, on_db, zoom. destruct (insert_tx _ _) as [db [| | |]]; done.
Qed.

Lemma on_receive_tx_logged_eq tx s :
  cell_printable (tx_cell tx) = true → on_receive_tx_logged tx s = on_receive_tx tx s.
Proof.
  intros Hp. unfold on_receive_tx_logged, on_receive_tx. destruct (has_coinbase_output _); [done|].
  apply st_bind_ext. intros [] s' _; [done|].
  pose proof (tx_display_prints de_stake_total tx) as Ht. rewrite Hp in Ht.
  by rewrite (st_bind_Ok _ _ _ _ _ (log_prints _ s' Ht)).
Qed.

(** Two handlers of a method that agree on what it can return. *)
Lemma catch_ext {S E F A B} (m m' : st S E A) (k k' : res E A → st S F B) s :
  m s = m' s → (∀ r s', m' s = (s', r) → k r s' = k' r s') → catch m k s = catch m' k' s.
Proof. intros Hm Hk. unfold catch. rewrite Hm. destruct (m' s) as [s' []]; auto. Qed.

Lemma log_error_eq {B} tx s s' e (x : B) :
  cell_printable (tx_cell tx) = true → on_receive_tx tx s = (s', Err e) →
  (log (tx_display tx);; log (sleet_error_display e);; mret x) s' = (s', @Ok SleetError.Error B x).
Proof.
  intros Hp He. pose proof (tx_display_prints de_stake_total tx) as Ht. rewrite Hp in Ht.
  rewrite (st_bind_Ok _ _ _ _ _ (log_prints _ s' Ht)).
  by rewrite (st_bind_Ok _ _ _ _ _ (log_prints _ s' (on_receive_tx_error _ _ _ _ Hp He))).
Qed.

Lemma handle_generate_tx_logged_eq cell s :
  cell_printable cell = true → handle_generate_tx_logged cell s = handle_generate_tx cell s.
Proof.
  intros Hp. unfold handle_generate_tx_logged, handle_generate_tx. apply st_bind_ext. intros parents s' _. cbn zeta.
  set (tx := tx_new parents cell). assert (cell_printable (tx_cell tx) = true) as Hpt by done. clearbody tx.
  pose proof (tx_display_prints de_stake_total tx) as Ht. rewrite Hpt in Ht.
  rewrite (st_bind_Ok _ _ _ _ _ (log_prints _ s' Ht)).
  apply catch_ext; [by apply on_receive_tx_logged_eq|]. intros [[]|e| |] s1 He; [done|done| |done|done].
  by rewrite (log_error_eq tx s' s1 e) by done.
Qed.

Lemma handle_query_tx_logged_eq id ip tx s :
  cell_printable (tx_cell tx) = true → handle_query_tx_logged id ip tx s = handle_query_tx id ip tx s.
Proof.
  intros Hp. unfold handle_query_tx_logged, handle_query_tx. apply st_bind_ext. intros me s' _. cbn zeta.
  apply catch_ext; [by apply on_receive_tx_logged_eq|]. intros [r|e| |] s1 He; [done| |done|done].
  pose proof (tx_display_prints de_stake_total tx) as Ht. rewrite Hp in Ht.
  destruct e; try (by rewrite (log_error_eq tx s' s1 _) by done).
  by rewrite (st_bind_Ok _ _ _ _ _ (log_prints _ s1 Ht)).
Qed.

Lemma send_sleet_ext {E A} (m m' : st Sleet E A) n :
  m (nd_sleet n) = m' (nd_sleet n) → send_sleet m n = send_sleet m' n.
Proof. intros Hm. unfold send_sleet, unwrap_st, zoom. by rewrite Hm. Qed.

Lemma log_refusal (t : text) n :
  prints t true → (log t;; answer Protocol.RequestRefused) n = answer Protocol.RequestRefused n.
Proof. intros Ht. by rewrite (st_bind_Ok _ _ _ _ _ (log_prints _ n Ht)). Qed.

Lemma route_refused m n :
  rr_check_peer m && bool_decide (rr_peer_id m ∉ nd_validators n) = true →
  validator_only (rr_request m) = true → route m n = answer Protocol.RequestRefused n.
Proof.
  intros [Hc Hv%bool_decide_eq_true]%andb_true_iff Hr. by rewrite route_refuses.
Qed.

(** Putting the log lines back changes nothing for requests whose cells can be printed:
    what is proved of the router and of sleet without them holds with them. *)
Theorem route_logged_eq m n :
  Forall (λ c, cell_printable c = true) (printed_cells (rr_request m)) → route_logged m n = route m n.
Proof.
  unfold route_logged. rewrite gets_bind. cbn zeta.
  destruct (rr_request m) as [| | | | | | | | |cell|id ip tx|h| | | | | |id b] eqn:Hr; cbn [printed_cells]; intros Hp; try done.
  - apply Forall_cons in Hp as [Hp _]. unfold route. rewrite gets_bind, Hr. cbn zeta. unfold mbind, st_bind.
    by rewrite (send_sleet_ext _ _ n (handle_generate_tx_logged_eq cell (nd_sleet n) Hp)).
  - apply Forall_cons in Hp as [Hp _]. unfold route. rewrite gets_bind, Hr. cbn zeta.
    pose proof (query_tx_debug_prints de_stake_total id ip tx) as Ht. rewrite Hp in Ht.
    destruct (_ && _); [by apply log_refusal|]. unfold mbind, st_bind.
    by rewrite (send_sleet_ext _ _ n (handle_query_tx_logged_eq id ip tx (nd_sleet n) Hp)).
  - destruct (_ && _) eqn:Hrf; [|done]. rewrite (route_refused m n) by (by rewrite ?Hr). apply log_refusal. by eexists.
  - destruct (_ && _) eqn:Hrf; [|done]. rewrite (route_refused m n) by (by rewrite ?Hr). apply log_refusal.
    pose proof (query_block_debug_prints de_stake_total id b) as Ht.
    rewrite (proj2 (forallb_forall _ _)) in Ht; [done|]. rewrite Forall_forall in Hp.
    intros c Hc. apply Hp. by apply list_elem_of_In.
Qed.

(** ** Values that cannot be printed *)

(** C6: One request is enough: a client that sends a cell with a stake whose data names no
    node, or a stranger that sends such a cell in a query that will be refused, makes the
    handler panic while it writes the log. *)
Theorem unprintable_request_panics m n :
  log_on = true →
  match rr_request m with
  | Protocol.GenerateTx cell =>
      cell_printable cell = false ∧ ∃ parents, select_parents NPARENTS (nd_sleet n) = Ok parents
  | Protocol.QueryTx _ _ tx => cell_printable (tx_cell tx) = false ∧ refuses n m
  | Protocol.QueryBlock _ b => Exists (λ c, cell_printable c = false) (block_cells (hb_block b)) ∧ refuses n m
  | _ => False
  end →
  (route_logged m n).2 = Panic.
Proof.
  intros Hl. unfold route_logged. rewrite gets_bind. cbn zeta.
  destruct (rr_request m) as [| | | | | | | | |cell|id ip tx|h| | | | | |id b] eqn:Hr; try done.
  - intros [Hp [parents Hps]]. unfold mbind, st_bind at 1. unfold send_sleet, unwrap_st, zoom, handle_generate_tx_logged.
    unfold mbind, st_bind at 1, reads. rewrite Hps. cbn [unwrap_res].
    pose proof (tx_display_prints de_stake_total (tx_new parents cell)) as Ht.
    change (tx_cell (tx_new parents cell)) with cell in Ht. rewrite Hp in Ht.
    unfold st_bind. by rewrite (log_panics _ _ Hl Ht).
  - intros [Hp (Hc & Hv & _)]. rewrite Hc, bool_decide_eq_true_2 by done. cbn [andb].
    pose proof (query_tx_debug_prints de_stake_total id ip tx) as Ht. rewrite Hp in Ht.
    unfold mbind, st_bind. by rewrite (log_panics _ _ Hl Ht).
  - intros [Hp (Hc & Hv & _)]. rewrite Hc, bool_decide_eq_true_2 by done. cbn [andb].
    pose proof (query_block_debug_prints de_stake_total id b) as Ht.
    replace (forallb cell_printable (block_cells (hb_block b))) with false in Ht.
    { unfold mbind, st_bind. by rewrite (log_panics _ _ Hl Ht). }
    clear Ht. induction Hp as [c l Hc'|c l _ IH]; cbn; [by rewrite Hc'|by rewrite <- IH, andb_false_r].
Qed.
End logging.

(** ** Cells of the program's own operations *)
Section own_cells.
Context {CR : Crypto} {IO : IterOrder} {BP : BuildProfile} {SC : StateCodec} {SL : StateCodecLaws}.

Lemma sorted_printable i os :
  Forall (λ o, output_printable o = true) os → cell_printable (cell_new i (outputs_new os)) = true.
Proof.
  intros Hos. apply forallb_forall. intros o Ho%list_elem_of_In. cbn in Ho. unfold outputs_new in Ho.
  rewrite sort_perm in Ho. by eapply Forall_forall in Hos.
Qed.

Lemma stake_output_printable id pkh c o : stake_output id pkh c = Ok o → output_printable o = true.
Proof. intros Ho. injection Ho as <-. unfold output_printable. cbn. by rewrite de_ser_stake_state. Qed.

Lemma transfer_output_printable pkh c o : transfer_output pkh c = Ok o → output_printable o = true.
Proof. intros Ho. by injection Ho as <-. Qed.

(** An operation whose main output can be printed makes a cell that can. *)
Lemma change_printable (main : Output) pkh residue i os :
  output_printable main = true →
  (if (FEE <? residue)%Z && (0 <? residue - FEE)%Z then
     change ← transfer_output pkh (residue - FEE); Ok [main; change]
   else Ok [main]) = @Ok AlphaError.Error _ os →
  cell_printable (cell_new i (outputs_new os)) = true.
Proof.
  intros Hm Hos. apply sorted_printable. destruct (_ && _); injection Hos as <-; by repeat constructor.
Qed.

(** What the program itself makes can be printed: transfers, stakes and coinbases. *)
Theorem operation_cells_printable c :
  (∃ recipients, coinbase_operation recipients = Ok c) ∨ (∃ op kp, transfer op kp = Ok c) ∨
  (∃ op kp, stake op kp = Ok c) → cell_printable c = true.
Proof.
  intros [[rs Hc]|[(op & kp & Hc)|(op & kp & Hc)]].
  - apply res_bind_Ok_inv in Hc as (os & Hos & Hc). injection Hc as <-. apply sorted_printable.
    revert os Hos. induction rs as [|r rs IH]; intros os Hos; cbn in Hos; [by injection Hos as <-|].
    apply res_bind_Ok_inv in Hos as (os' & Hos & Hc). injection Hc as <-. constructor; [done|by apply IH].
  - apply res_bind_Ok_inv in Hc as (r & _ & Hc). apply res_bind_Ok_inv in Hc as (main & Hm & Hc).
    apply res_bind_Ok_inv in Hc as (os & Hos & Hc). injection Hc as <-.
    eapply change_printable; [|exact Hos]. by eapply transfer_output_printable.
  - apply res_bind_Ok_inv in Hc as (r & _ & Hc). apply res_bind_Ok_inv in Hc as (main & Hm & Hc).
    apply res_bind_Ok_inv in Hc as (os & Hos & Hc). injection Hc as <-.
    eapply change_printable; [|exact Hos]. by eapply stake_output_printable.
Qed.
End own_cells.

(** ** Witnesses *)
Section logging_witnesses.
#[local] Existing Instance plain_crypto.
#[local] Existing Instance plain_crypto_laws.
#[local] Existing Instance canonical_order.
#[local] Existing Instance release_profile.
#[local] Existing Instance num_block_codec.
#[local] Existing Instance num_tx_codec.
#[local] Existing Instance map_sled.
#[local] Existing Instance keep_order.
#[local] Existing Instance whole_stake.
#[local] Existing Instance letter_crates.

(** A codec for the ids of one byte, and a log in one colour. *)
Definition strict_state_codec : StateCodec := {|
  ser_coinbase_state := [];
  de_coinbase_state b := match b with [] => Ok tt | _ => Err "trailing"%string end;
  ser_transfer_state := [];
  de_transfer_state b := match b with [] => Ok tt | _ => Err "trailing"%string end;
  ser_stake_state id := id;
  de_stake_state b := match b with [] => Err "unexpected end of file"%string | _ => Ok b end
|}.
#[local] Existing Instance strict_state_codec.
Definition letter_keys : KeyCrates := {|
  hex_encode b := encode_letters b;
  hex_decode s := decode_letters s;
  keypair_from_bytes b := Some b;
  keypair_to_bytes kp := kp;
  keypair_generate seed := [Z.of_nat seed]
|}.
#[local] Existing Instance letter_keys.
Definition no_colors : Colorize := λ _ s, s.
#[local] Existing Instance no_colors.
Definition info_log : Tracing := {| log_on := true; error_debug _ := "error"%string |}.
#[local] Existing Instance info_log.

Definition bare_node : Node := start_actors my_ip [] me empty_db empty_db empty_db empty_db.
(** A stake of 5 for nobody. *)
Definition bad_cell : Cell :=
  cell_new ∅ [{| capacity := 5; cell_type := Stake; data := []; lock := [1%Z] |}].
Definition from_client : RouterRequest := mkRouterRequest me false (Protocol.GenerateTx bad_cell).
Definition from_stranger : RouterRequest :=
  mkRouterRequest me true (Protocol.QueryTx me my_ip (tx_new [] bad_cell)).
Definition good_cell : Cell :=
  cell_new ∅ [{| capacity := 5; cell_type := Stake; data := [4%Z]; lock := [1%Z] |}].

Lemma strict_total b : de_stake_state b ≠ OutOfFuel.
Proof. by destruct b. Qed.

Lemma unprintable_request_panics_witness :
  (route_logged from_client bare_node).2 = Panic ∧ (route_logged from_stranger bare_node).2 = Panic.
Proof.
  split; apply (unprintable_request_panics strict_total); [reflexivity| |reflexivity|].
  - split; [reflexivity|]. exists []. reflexivity.
  - split; [reflexivity|]. split; [reflexivity|]. split; [|reflexivity]. apply not_elem_of_empty.
Defined.

Lemma route_logged_eq_witness :
  let m := mkRouterRequest me false (Protocol.GenerateTx good_cell) in
  route_logged m bare_node = route m bare_node.
Proof. apply (route_logged_eq strict_total). repeat constructor. Defined.
End logging_witnesses.
