(* ===== verification/TestHarness.v ===== *)
(** * TestHarness.v: nodes and clients of the integration tests
      (src/src/integration_test/test_model.rs)

    The tests start nodes as processes and talk to them over TCP.  The processes, the
    network and the time that passes are parameters: a [World] that answers requests,
    starts and kills processes and moves on while a thread sleeps.  Tests end or panic. *)

From stdpp Require Import prelude gmap sets list strings pretty.
From Stdlib Require Import ZArith Lia Ascii.
From S2P Require Import Prelude Orders Cell Instances Dag ConflictGraph Blocks Storage SledInstances BlockStorage.
From S2P Require Import Util Operations DependencyGraph AlphaState Sleet Hail Ice View Dissemination Alpha Ids Router Files.

(** ** The world of a test *)
Class TestWorld : Type := {
  World : Type;
  (** [timeout(d, client::oneshot_tcp(address, request)).await] with [d] in
      milliseconds; [None] when the time is over or the connection failed *)
  within : Z → SocketAddr → Protocol.Request → World → World * option (option Protocol.Response);
  (** [thread::sleep], in milliseconds *)
  pass : Z → World → World;
  (** [Command::spawn] of a program with arguments, and [Child::kill] *)
  spawn : string → list string → World → World * option nat;
  kill_child : nat → World → World * bool;
  (** a fresh seed of [thread_rng] *)
  draw : World → World * nat;
  (** [dirs::home_dir()] *)
  home_dir : string
}.

(** ** Addresses: [str::parse::<SocketAddr>] on the textual form of IPv4 *)
Definition dec_digit (a : ascii) : option Z :=
  let n := Z.of_nat (nat_of_ascii a) in
  if (48 <=? n)%Z && (n <=? 57)%Z then Some (n - 48)%Z else None.

Fixpoint read_digits (acc : Z) (s : string) : option Z :=
  match s with
  | EmptyString => Some acc
  | String a s' => d ← dec_digit a; read_digits (10 * acc + d) s'
  end.

(** A number of at least one digit that does not exceed [max]; an octet has no leading
    zero. *)
Definition read_number (max : Z) (zero_prefix : bool) (s : string) : option Z :=
  match s with
  | EmptyString => None
  | String a s' =>
      if negb zero_prefix && bool_decide (a = "0"%char) && negb (bool_decide (s' = EmptyString))
      then None
      else n ← read_digits 0 s; if (n <=? max)%Z then Some n else None
  end.

Definition parse_v4 (s : string) : option SocketAddr :=
  match str_split ":"%char s with
  | [ip; port] =>
      match str_split "."%char ip with
      | [a; b; c; d] =>
          a' ← read_number 255 false a; b' ← read_number 255 false b;
          c' ← read_number 255 false c; d' ← read_number 255 false d;
          p ← read_number 65535 true port;
          Some (mkSocketAddr [a'; b'; c'; d'] p)
      | _ => None
      end
  | _ => None
  end.

(** ** The context between test runs *)
Record IntegrationTestContext : Type := mkContext {
  cx_test_run_counter : Z;
  cx_old_to_new : gmap CellHash CellHash
}.

Definition context_new : IntegrationTestContext := mkContext 0 ∅.

Definition count_test_run `{BuildProfile} (cx : IntegrationTestContext) : res Empty_set IntegrationTestContext :=
  n ← u_add 32 (cx_test_run_counter cx) 1; Ok (mkContext n (cx_old_to_new cx)).

Definition register_cell_hash (old next : CellHash) (cx : IntegrationTestContext) :
    IntegrationTestContext :=
  mkContext (cx_test_run_counter cx) (<[old := next]> (cx_old_to_new cx)).

(** The recursion follows the map and has no other bound; a hash is visited once when it
    ends, so that one call more than there are entries is enough. *)
Fixpoint last_cell_of (fuel : nat) (m : gmap CellHash CellHash) (h : CellHash) :
    res Empty_set CellHash :=
  match fuel with
  | O => OutOfFuel
  | S fuel' =>
      match m !! h with
      | Some x =>
          if bool_decide (x ≠ h) && bool_decide (is_Some (m !! x)) then last_cell_of fuel' m x
          else Ok x
      | None => Ok h
      end
  end.

Definition get_last_cell_of (h : CellHash) (cx : IntegrationTestContext) : res Empty_set CellHash :=
  last_cell_of (S (size (cx_old_to_new cx))) (cx_old_to_new cx) h.

Definition get_latest_cells_of (hs : list CellHash) (cx : IntegrationTestContext) :
    res Empty_set (gset CellHash) :=
  l ← try_map (λ h, get_last_cell_of h cx) hs; Ok (list_to_set l).

Definition register_cell_in_test_context (original spent : CellHash)
    (spent_output_len original_output_len : nat) (cx : IntegrationTestContext) :
    IntegrationTestContext :=
  if (1 <? spent_output_len)%nat then register_cell_hash original spent cx
  else if (1 <? original_output_len)%nat then
    register_cell_hash spent spent (register_cell_hash original original cx)
  else cx.

(** ** Nodes as processes *)
Inductive ProcessNodeState : Type := Stopped | Running (child : nat).

Definition KEYPAIR_NODE_0 : string := "ad7f2ee3958a7f3fa2c84931770f5773ef7694fdd0bb217d90f29a94199c9d7307ca3851515c89344639fe6a4077923068d1d7fc6106701213c61d34ef8e9416".
Definition KEYPAIR_NODE_1 : string := "5a353c630d3faf8e2d333a0983c1c71d5e9b6aed8f4959578fbeb3d3f3172886393b576de0ac1fe86a4dd416cf032543ac1bd066eb82585f779f6ce21237c0cd".
Definition KEYPAIR_NODE_2 : string := "6f4b736b9a6894858a81696d9c96cbdacf3d49099d212213f5abce33da18716f067f8a2b9aeb602cd4163291ebbf39e0e024634f3be19bde4c490465d9095a6b".
Definition KEYPAIR_NODE_3 : string := "3ae38eec96146c241f6cadf01995af14f027b23b8fecbc77dbc2e3ed5fec6fc3fb4fe5534f7affc9a8f1d99e290fdb91cc26777edd6fae480cad9f735d1b3680".
Definition KEYPAIR_NODE_4 : string := "aae4e1343eb40e217a60fc61e22b86925686e664d7663c09d0042eb049600e187a2049a994e5b7a3e2baa9341c697029550ee0782d83ba31fe10fa0fefd6cc52".
Definition KEYPAIR_NODE_5 : string := "8c739c713aeb69e21a37bc2aab2ab314d08627d5435754b0418a71529c3614bccdfa638fa8da6d06e98a374c1df48e3a3d2563a4c7d78d0e7589f6706a8ed0d8".
Definition NODE_ID_0 : string := "12My22AzQQosboCy6TCDFkTQwHTSuHhFN1VDcdDRPUe3H8j3DvY".
Definition NODE_ID_1 : string := "19Y53ymnBw4LWUpiAMUzPYmYqZmukRhNHm3VyAhzMqckRcuvkf".
Definition NODE_ID_2 : string := "1A2iUK1VQWMfvtmrBpXXkVJjM5eMWmTfMEcBx4TatSJeuoSH7n".
Definition NODE_ID_3 : string := "12StzamTJk2jBxbdqGmT6gLfpctv9f39CmBXTsm8sBG2n6AdPxx".
Definition NODE_ID_4 : string := "1tJB1qNY6R4nPGQN83hmX8bviD6dbEMXkGjfByrCVYZsNnrJSk".
Definition NODE_ID_5 : string := "12KyV3nz5wJhqFSfEFsKAhEqMGaPD88JeeS7LA4Qsjbyf2Yqp87".
Definition NON_EXISTING_NODE : string := "9f4b736b9a6894858a81696d9c96cbdacf3d49099d212213f5abce33da18716f067f8a2b9aeb602cd4163291ebbf39e0e024634f3be19bde4c490465d9095a6b".
Definition NODE_ADDRESS : string := "127.0.0.1:123".

Section test_model.
Context {CR : Crypto} {BP : BuildProfile} {KC : KeyCrates} {TW : TestWorld}.

Record TestNode : Type := mkTestNode {
  tn_keypair : Keypair;
  tn_public_key : PublicKeyHash;
  tn_address : SocketAddr;
  tn_keypair_as_str : string;
  tn_address_as_str : string;
  tn_bootstrap_address : string;
  tn_state : ProcessNodeState;
  tn_id : string
}.

Definition tn_set_state (x : ProcessNodeState) (n : TestNode) : TestNode :=
  mkTestNode (tn_keypair n) (tn_public_key n) (tn_address n) (tn_keypair_as_str n)
    (tn_address_as_str n) (tn_bootstrap_address n) x (tn_id n).

Definition create_keys_of_node (keypair : string) : res Empty_set (Keypair * PublicKeyHash) :=
  b ← unwrap (hex_decode keypair);
  kp ← unwrap (keypair_from_bytes b);
  Ok (kp, blake3 (ser_public_key (public kp))).

(** [TestNode::new] *)
Definition test_node_new (id bootstrap_port : Z) (bootstrap_node_id keypair node_id : string) :
    res Empty_set TestNode :=
  keys ← create_keys_of_node keypair;
  bp ← u_add 32 bootstrap_port 4;
  p ← u_add 32 id 4;
  let address := NODE_ADDRESS +:+ pretty p in
  a ← unwrap (parse_v4 address);
  Ok (mkTestNode keys.1 keys.2 a keypair address
    (bootstrap_node_id +:+ "@" +:+ NODE_ADDRESS +:+ pretty bp) Stopped node_id).

Abbreviation tm := (st World Empty_set).

Definition sleep (ms : Z) : tm unit := modify (pass ms).
Definition request_within (ms : Z) (a : SocketAddr) (r : Protocol.Request) :
    tm (option (option Protocol.Response)) := λ w, let '(w', x) := within ms a r w in (w', Ok x).
Definition random : tm nat := λ w, let '(w', x) := draw w in (w', Ok x).
Definition test_assert (b : bool) : tm unit := if b then mret tt else panic.

(** The program and its arguments. *)
Definition get_start_node_command (n : TestNode) : string * list string :=
  (home_dir +:+ "/.cargo/bin/cargo",
   ["run"; "-p"; "zfx-subzero"; "--bin"; "node"; "--"; "-a"; tn_address_as_str n; "-b";
    tn_bootstrap_address n; "--keypair"; tn_keypair_as_str n; "--id"; tn_id n]).

(** [TestNode::start] *)
Definition node_start (n : TestNode) : tm TestNode :=
  match tn_state n with
  | Stopped =>
      child ← (λ w, let '(w', x) := spawn (get_start_node_command n).1 (get_start_node_command n).2 w
               in (w', unwrap x));
      mret (tn_set_state (Running child) n)
  | Running _ => panic
  end.

(** [TestNode::kill] *)
Definition node_kill (n : TestNode) : tm TestNode :=
  match tn_state n with
  | Running child =>
      killed ← (λ w, let '(w', b) := kill_child child w in (w', Ok b));
      test_assert killed;;
      sleep 1000;;
      mret (tn_set_state Stopped n)
  | Stopped => mret n
  end.

(** ** [TestNodes] *)
Abbreviation TestNodes := (list TestNode) (only parsing).

Definition test_nodes_new : res Empty_set (list TestNode) :=
  try_map (λ t : Z * Z * string * string * string,
      let '(id, bp, boot, kp, nid) := t in test_node_new id bp boot kp nid)
    [(0%Z, 1%Z, NODE_ID_1, KEYPAIR_NODE_0, NODE_ID_0);
     (1%Z, 0%Z, NODE_ID_0, KEYPAIR_NODE_1, NODE_ID_1);
     (2%Z, 1%Z, NODE_ID_1, KEYPAIR_NODE_2, NODE_ID_2);
     (3%Z, 2%Z, NODE_ID_2, KEYPAIR_NODE_3, NODE_ID_3);
     (4%Z, 3%Z, NODE_ID_3, KEYPAIR_NODE_4, NODE_ID_4);
     (5%Z, 4%Z, NODE_ID_4, KEYPAIR_NODE_5, NODE_ID_5)].

Definition node_running (n : TestNode) : bool :=
  match tn_state n with Running _ => true | Stopped => false end.
Definition get_running_nodes (ns : list TestNode) : list TestNode :=
  filter (λ n, node_running n = true) ns.
Definition get_node (ns : list TestNode) (id : nat) : option TestNode := ns !! id.
Definition get_non_existing_node : res Empty_set TestNode :=
  test_node_new 9 9 NODE_ID_1 NON_EXISTING_NODE NODE_ID_0.
Definition is_running (ns : list TestNode) (id : nat) : bool :=
  match get_node ns id with Some n => node_running n | None => false end.

(** A loop over all nodes that changes them in place. *)
Definition on_nodes (f : TestNode → tm TestNode) (ns : list TestNode) : tm (list TestNode) :=
  for_acc ns (λ n done_, n' ← f n; mret (done_ ++ [n'])) [].
(** [self.nodes[id]], which panics out of range *)
Definition on_node (f : TestNode → tm TestNode) (id : nat) (ns : list TestNode) : tm (list TestNode) :=
  match ns !! id with
  | Some n => n' ← f n; mret (<[id := n']> ns)
  | None => panic
  end.

Definition kill_all : list TestNode → tm (list TestNode) := on_nodes node_kill.
Definition kill_node (id : nat) : list TestNode → tm (list TestNode) := on_node node_kill id.
Definition start_node (id : nat) : list TestNode → tm (list TestNode) :=
  on_node (λ n, match tn_state n with Stopped => node_start n | Running _ => mret n end) id.
Definition start_all (ids : list string) : list TestNode → tm (list TestNode) :=
  on_nodes (λ n, if bool_decide (tn_id n ∈ ids) then node_start n else mret n).
End test_model.
