(* ===== verification/TestFunctions.v ===== *)
(** * TestFunctions.v: the client functions of the integration tests
      (src/src/integration_test/test_functions.rs)

    Requests are repeated until an answer fits; cells are looked up, spent and accounted
    for.  None of the functions returns an error: what can go wrong is a panic. *)

From stdpp Require Import prelude gmap sets list strings pretty.
From Stdlib Require Import ZArith Lia.
From S2P Require Import Prelude Orders Cell Instances Dag ConflictGraph Blocks Storage SledInstances BlockStorage.
From S2P Require Import Util Operations DependencyGraph AlphaState Sleet Hail Ice View Dissemination Alpha Ids Router Files TestHarness.

Section test_functions.
Context {CR : Crypto} {IO : IterOrder} {BP : BuildProfile} {SC : StateCodec} {RN : Rng}.
Context {KC : KeyCrates} {TW : TestWorld}.
Abbreviation tm := (st World Empty_set).
Implicit Types (n from to : TestNode) (cx : IntegrationTestContext) (a : SocketAddr).

(** ** Requests *)

(** [while updated_attempts > 0 { .. }] *)
Fixpoint filtered_request_with_timeout_and_attempts a (r : Protocol.Request) (ms : Z) (attempts : nat)
    (predicate : Protocol.Response → bool) : tm (option Protocol.Response) :=
  match attempts with
  | O => mret None
  | S attempts' =>
      x ← request_within ms a r;
      match x with
      | Some (Some resp) =>
          if predicate resp then mret (Some resp)
          else filtered_request_with_timeout_and_attempts a r ms attempts' predicate
      | _ => filtered_request_with_timeout_and_attempts a r ms attempts' predicate
      end
  end.

Definition filtered_request_with_timeout a (r : Protocol.Request)
    (predicate : Protocol.Response → bool) : tm (option Protocol.Response) :=
  filtered_request_with_timeout_and_attempts a r 10 1000 predicate.

Definition request_with_timeout_and_attempts a (r : Protocol.Request) (ms : Z) (attempts : nat) :
    tm (option Protocol.Response) :=
  filtered_request_with_timeout_and_attempts a r ms attempts (λ _, true).

Definition request_with_timeout a (r : Protocol.Request) : tm (option Protocol.Response) :=
  filtered_request_with_timeout_and_attempts a r 10 1000 (λ _, true).

Definition get_cell_from_hash (h : CellHash) a : tm (option Cell) :=
  x ← filtered_request_with_timeout a (Protocol.GetCell h)
    (λ r, match r with Protocol.CellAck c => bool_decide (is_Some c) | _ => false end);
  mret (match x with Some (Protocol.CellAck c) => c | _ => None end).

Definition get_accepted_cell_from_hash (h : CellHash) a : tm (option Cell) :=
  x ← filtered_request_with_timeout a (Protocol.GetAcceptedCell h)
    (λ r, match r with Protocol.AcceptedCellAck c => bool_decide (is_Some c) | _ => false end);
  mret (match x with Some (Protocol.AcceptedCellAck c) => c | _ => None end).

Definition get_block a (height : BlockHeight) : tm (option Block) :=
  x ← filtered_request_with_timeout a (Protocol.GetBlockByHeight height)
    (λ r, match r with Protocol.BlockAck b => bool_decide (is_Some b) | _ => false end);
  mret (match x with Some (Protocol.BlockAck b) => b | _ => None end).

Definition shuffled {A} (l : list A) : tm (list A) := seed ← random; mret (shuffle seed l).

Definition get_cell_hashes a : tm (list CellHash) :=
  x ← request_with_timeout a Protocol.GetCellHashes;
  match x with
  | Some (Protocol.CellHashes ids) => shuffled ids
  | _ => mret []
  end.

Definition get_accepted_cell_hashes a : tm (list CellHash) :=
  x ← request_with_timeout a Protocol.GetAcceptedCellHashes;
  mret (match x with Some (Protocol.AcceptedCellHashes ids) => ids | _ => [] end).

Definition test_node_status a : tm (option NodeStatus) :=
  x ← request_within 1000 a Protocol.GetNodeStatus;
  mret (match x with Some (Some (Protocol.NodeStatus s)) => Some s | _ => None end).

(** One turn of the loop of [wait_until_nodes_start]. *)
Definition poll_nodes (ns : list TestNode) (live : gset PublicKeyHash) : tm (gset PublicKeyHash) :=
  for_acc ns (λ n live,
    s ← test_node_status (tn_address n);
    mret (match s with
          | Some s => if ns_bootstrapped s then {[ tn_public_key n ]} ∪ live
                      else live ∖ {[ tn_public_key n ]}
          | None => live ∖ {[ tn_public_key n ]}
          end)) live.

(** [while live_nodes.len() < nodes_size && timer <= timeout] with a delay of 2 and a
    timeout of 120: 61 turns at most. *)
Fixpoint wait_loop (fuel : nat) (ns : list TestNode) (live : gset PublicKeyHash) (timer : Z) : tm unit :=
  if (size live <? length ns)%nat && (timer <=? 120)%Z then
    match fuel with
    | O => λ w, (w, OutOfFuel)
    | S fuel' =>
        sleep 2000;;
        live' ← poll_nodes ns live;
        wait_loop fuel' ns live' (timer + 2)
    end
  else mret tt.

Definition wait_until_nodes_start (ns : list TestNode) : tm unit :=
  wait_loop 61 (get_running_nodes ns) ∅ 0.

(** [TestNodes::start_minimal_and_wait] *)
Definition start_minimal_and_wait (ns : list TestNode) : tm (list TestNode) :=
  ns' ← start_all [NODE_ID_0; NODE_ID_1; NODE_ID_2] ns;
  wait_until_nodes_start ns';;
  mret ns'.

(** ** Balances *)
Definition is_stake (o : Output) : bool := bool_decide (cell_type o = Stake).

Definition get_outputs_capacity_of_owner (c : Cell) n : res Empty_set Capacity :=
  u_sum 64 0 (capacity <$> filter (λ o, is_stake o = false) (outputs_of_owner c (tn_public_key n))).

Definition get_outputs_capacity_of_owner_including_fee n (c : Cell) : res Empty_set Capacity :=
  balance ← get_outputs_capacity_of_owner c n;
  Ok (if (FEE <? balance)%Z then balance - FEE else 0)%Z.

(** [for cell_hash in cell_hashes], left at the first match *)
Fixpoint find_in_range (min_amount max_amount : Z) n (hs : list CellHash) : tm (option Cell) :=
  match hs with
  | [] => mret None
  | h :: hs' =>
      c ← get_cell_from_hash h (tn_address n);
      match c with
      | Some cell =>
          balance ← of_res (get_outputs_capacity_of_owner_including_fee n cell);
          if (min_amount <? balance)%Z && (balance <? max_amount)%Z then mret (Some cell)
          else find_in_range min_amount max_amount n hs'
      | None => find_in_range min_amount max_amount n hs'
      end
  end.

Definition get_cell_in_amount_range (min_amount max_amount : Z) n (hs : gset CellHash) :
    tm (option Cell) := find_in_range min_amount max_amount n (iter_set hs).

Definition get_cell_with_min_amount (min_amount : Z) n (hs : gset CellHash) : tm (option Cell) :=
  get_cell_in_amount_range min_amount (u_max 64) n hs.

(** [test_functions::get_cell] *)
Definition get_spendable_cell (min_amount : Z) cx n : tm (option Cell) :=
  hs ← get_cell_hashes (tn_address n);
  latest ← of_res (get_latest_cells_of hs cx);
  get_cell_with_min_amount min_amount n latest.

Definition get_not_spendable_cell (min_amount : Z) cx n : tm (option Cell) :=
  hs ← get_cell_hashes (tn_address n);
  spendable ← of_res (get_latest_cells_of hs cx);
  get_cell_with_min_amount min_amount n (list_to_set (filter (λ h, h ∉ spendable) hs)).

Definition get_cell_outputs_of_node n cx : tm (list Output) :=
  hs ← get_cell_hashes (tn_address n);
  latest ← of_res (get_latest_cells_of hs cx);
  for_acc (iter_set latest) (λ h os,
    c ← get_cell_from_hash h (tn_address n);
    mret (match c with
          | Some cell => os ++ filter (λ o, is_stake o = false) (outputs_of_owner cell (tn_public_key n))
          | None => os
          end)) [].

Definition get_cell_hashes_with_max_capacity n : tm (list (CellHash * Capacity)) :=
  hs ← get_cell_hashes (tn_address n);
  for_acc hs (λ h found,
    c ← get_cell_from_hash h (tn_address n);
    cell ← of_res (unwrap c);
    max_capacity ← of_res (u_sum 64 0 (capacity <$>
      filter (λ o, is_stake o = false) (outputs_of_owner cell (tn_public_key n))));
    mret (if (0 <? max_capacity)%Z then found ++ [(h, max_capacity)] else found)) [].

(** ** Spending *)
Definition create_transfer_request from to (amount : Z) (c : Cell) : res Empty_set Protocol.Request :=
  t ← unwrap_res (transfer (mkTransfer c (tn_public_key to) (tn_public_key from) amount) (tn_keypair from));
  Ok (Protocol.GenerateTx t).

Definition spend_cell from to (c : Cell) (amount : Z) : tm (option CellHash) :=
  r ← of_res (create_transfer_request from to amount c);
  x ← request_within 5000 (tn_address from) r;
  mret (match x with Some (Some (Protocol.GenerateTxAck h)) => h | _ => None end).

Definition spend_cell_from_hash from to (h : CellHash) (amount : Z) : tm (option CellHash) :=
  c ← get_cell_from_hash h (tn_address from);
  match c with
  | Some cell => spend_cell from to cell amount
  | None => panic
  end.

Definition spend_from from to (amount : Z) (spendable : list (CellHash * Capacity)) :
    tm (list (CellHash * Capacity)) :=
  total_to_spend ← of_res (u_add 64 amount FEE);
  match list_find (λ e : CellHash * Capacity, total_to_spend < e.2)%Z spendable with
  | Some (_, (h, c)) =>
      x ← spend_cell_from_hash from to h amount;
      spent ← of_res (unwrap x);
      new_capacity ← of_res (u_sub 64 c total_to_spend);
      mret (filter (λ e : CellHash * Capacity, e.1 ≠ h) spendable ++ [(spent, new_capacity)])
  | None => mret spendable
  end.

(** One iteration: the accepted hashes and the spendable cells. *)
Definition spend_turn from to (amount delay : Z)
    (acc : list CellHash * list (CellHash * Capacity)) :
    tm (list CellHash * list (CellHash * Capacity)) :=
  sleep delay;;
  updated ← spend_from from to amount acc.2;
  mret (match list_find (λ e, e ∉ acc.2) updated with
        | Some (_, (spent, _)) => (acc.1 ++ [spent], updated)
        | None => acc
        end).

Definition spend_many_from_cell_hashes from to (amount : Z) (iterations : nat) (delay : Z)
    (initial : list (CellHash * Capacity)) : tm (list CellHash * list (CellHash * Capacity)) :=
  for_acc (seq 0 iterations) (λ _, spend_turn from to amount delay) ([], initial).

Definition spend_many from to (amount : Z) (iterations : nat) (delay : Z) :
    tm (list CellHash * list (CellHash * Capacity)) :=
  initial ← get_cell_hashes_with_max_capacity from;
  spend_many_from_cell_hashes from to amount iterations delay initial.

Definition spend_many_from_accepted_cells from to (iterations : nat) (delay : Z) : tm unit :=
  foreach (seq 1 (iterations - 1)) (λ i,
    sleep delay;;
    hs ← get_accepted_cell_hashes (tn_address from);
    hs' ← shuffled hs;
    match hs' with
    | h :: _ =>
        c ← get_cell_from_hash h (tn_address from);
        match c with
        | Some cell =>
            spendable ← of_res (u_sum 64 0 (capacity <$> outputs_of_owner cell (tn_public_key from)));
            needed ← of_res (u_add 64 (Z.of_nat i) FEE);
            if (needed <? spendable)%Z then
              x ← spend_cell from to cell (Z.of_nat i);
              match x with
              | Some spent =>
                  c' ← get_cell_from_hash spent (tn_address from);
                  test_assert (bool_decide (c' = None))
              | None => mret tt
              end
            else mret tt
        | None => mret tt
        end
    | [] => mret tt
    end).

Definition spend_many_from_invalid_cells from to (iterations : nat) (delay : Z) : tm unit :=
  foreach (seq 1 (iterations - 1)) (λ i,
    sleep delay;;
    hs ← get_cell_hashes (tn_address from);
    match hs with
    | h :: _ =>
        c ← get_cell_from_hash h (tn_address from);
        match c with
        | Some cell =>
            match list.last (iter_set (inputs cell)) with
            | Some input =>
                let new_cell := cell_new {[ input ]}
                  [{| capacity := 1000; cell_type := Transfer; data := []; lock := tn_public_key from |}] in
                x ← spend_cell from to new_cell (Z.of_nat i);
                test_assert (bool_decide (x = None))
            | None => mret tt
            end
        | None => mret tt
        end
    | [] => mret tt
    end).
End test_functions.

(** ** Properties *)
Section test_function_facts.
Context {CR : Crypto} {IO : IterOrder} {BP : BuildProfile} {SC : StateCodec} {RN : Rng}.
Context {KC : KeyCrates} {TW : TestWorld}.
Implicit Types (w : World) (a : SocketAddr) (m : gmap CellHash CellHash).

(** *** Repeated requests *)

(** The world after [k] requests, and the answer to the next one. *)
Definition asked_times (ms : Z) a r (k : nat) w : World := Nat.iter k (λ w, (within ms a r w).1) w.
Definition answer_to (ms : Z) a r (k : nat) w : option (option Protocol.Response) :=
  (within ms a r (asked_times ms a r k w)).2.

Definition accepts (p : Protocol.Response → bool) (x : option (option Protocol.Response)) : bool :=
  match x with Some (Some resp) => p resp | _ => false end.

Lemma asked_times_S ms a r k w :
  asked_times ms a r (S k) w = asked_times ms a r k (within ms a r w).1.
Proof. unfold asked_times. by rewrite Nat.iter_succ_r. Qed.

Lemma filtered_request_S a r ms n p w :
  filtered_request_with_timeout_and_attempts a r ms (S n) p w =
    match (within ms a r w).2 with
    | Some (Some resp) =>
        if p resp then ((within ms a r w).1, Ok (Some resp))
        else filtered_request_with_timeout_and_attempts a r ms n p (within ms a r w).1
    | _ => filtered_request_with_timeout_and_attempts a r ms n p (within ms a r w).1
    end.
Proof.
  cbn [filtered_request_with_timeout_and_attempts]. unfold mbind, st_bind, request_within.
  destruct (within ms a r w) as [w1 [[resp|]|]]; [|done..]. cbn. by destruct (p resp).
Qed.

(** A request is repeated until an answer fits, and no longer: the first fitting one
    among the given number of attempts is returned, and [None] when there is none. *)
Theorem filtered_request_spec a r ms n p w :
  (∃ k resp, k < n ∧ (∀ j, j < k → accepts p (answer_to ms a r j w) = false) ∧
     answer_to ms a r k w = Some (Some resp) ∧ p resp = true ∧
     filtered_request_with_timeout_and_attempts a r ms n p w =
       (asked_times ms a r (S k) w, Ok (Some resp))) ∨
  ((∀ j, j < n → accepts p (answer_to ms a r j w) = false) ∧
   filtered_request_with_timeout_and_attempts a r ms n p w = (asked_times ms a r n w, Ok None)).
Proof.
  revert w. induction n as [|n IH]; intros w; [right; split; [lia|done]|].
  rewrite filtered_request_S. destruct (within ms a r w) as [w1 x] eqn:Hw. cbn [fst snd].
  assert (answer_to ms a r 0 w = x) as H0 by (unfold answer_to, asked_times; cbn; by rewrite Hw).
  assert (∀ k, answer_to ms a r (S k) w = answer_to ms a r k w1) as HS.
  { intros k. unfold answer_to. rewrite asked_times_S, Hw. done. }
  assert (accepts p x = false →
    (∃ k resp, k < S n ∧ (∀ j, j < k → accepts p (answer_to ms a r j w) = false) ∧
       answer_to ms a r k w = Some (Some resp) ∧ p resp = true ∧
       filtered_request_with_timeout_and_attempts a r ms n p w1 =
         (asked_times ms a r (S k) w, Ok (Some resp))) ∨
    ((∀ j, j < S n → accepts p (answer_to ms a r j w) = false) ∧
     filtered_request_with_timeout_and_attempts a r ms n p w1 = (asked_times ms a r (S n) w, Ok None)))
    as Hrest.
  { intros Hx. assert (∀ k, (∀ j, j < k → accepts p (answer_to ms a r j w1) = false) →
      ∀ j, j < S k → accepts p (answer_to ms a r j w) = false) as Hj.
    { intros k Hk [|j] Hlt; [by rewrite H0|]. rewrite HS. apply Hk. lia. }
    destruct (IH w1) as [(k & resp & Hk & Hrej & Hans & Hp & ->)|[Hrej ->]].
    - left. exists (S k), resp. rewrite HS, (asked_times_S _ _ _ (S k)), Hw.
      split_and!; [lia|by apply Hj|done..].
    - right. rewrite asked_times_S, Hw. split; [by apply Hj|done]. }
  destruct x as [[resp|]|]; [|by apply Hrest..].
  destruct (p resp) eqn:Hp; [|by apply Hrest].
  left. exists 0, resp. split_and!; [lia|lia|done|done|]. unfold asked_times. cbn. by rewrite Hw.
Qed.

(** *** Waiting *)
Lemma poll_nodes_Ok (ns : list TestNode) live w : ∃ w' live', poll_nodes ns live w = (w', Ok live').
Proof.
  destruct (for_acc_inv (λ _ _ _, True) ns (λ n live,
    s ← test_node_status (tn_address n);
    mret (match s with
          | Some s => if ns_bootstrapped s then {[ tn_public_key n ]} ∪ live
                      else live ∖ {[ tn_public_key n ]}
          | None => live ∖ {[ tn_public_key n ]}
          end)) live w I) as (w' & live' & Hrun & _); [|by exists w', live'].
  intros pre n post live0 w0 _ _. unfold test_node_status, request_within, mbind, st_bind, mret, st_ret.
  destruct (within 1000 (tn_address n) Protocol.GetNodeStatus w0) as [w1 x]. eauto.
Qed.

Lemma wait_loop_returns fuel (ns : list TestNode) live timer w :
  (120 < timer + 2 * Z.of_nat fuel)%Z → ∃ w', wait_loop fuel ns live timer w = (w', Ok tt).
Proof.
  revert live timer w. induction fuel as [|fuel IH]; intros live timer w Hf; cbn [wait_loop].
  { rewrite (proj2 (Z.leb_gt timer 120)) by lia. rewrite andb_false_r. eauto. }
  case_match; [|by eauto]. unfold sleep. rewrite modify_bind.
  destruct (poll_nodes_Ok ns live (pass 2000 w)) as (w1 & live1 & Hp).
  rewrite (st_bind_Ok _ _ _ _ _ Hp). apply IH. lia.
Qed.

(** Waiting for nodes ends with success in every world, also in one where no node ever
    answers: after 61 polls of 2 s the caller goes on as if the nodes were there. *)
Theorem wait_until_nodes_start_returns (ns : list TestNode) w :
  ∃ w', wait_until_nodes_start ns w = (w', Ok tt).
Proof. apply wait_loop_returns. lia. Qed.

(** *** The context *)

(** The rank of a hash falls along the map, except at hashes that refer to themselves. *)
Definition ranked m : Prop :=
  ∃ rank : CellHash → nat, ∀ h x, m !! h = Some x → x ≠ h → rank x < rank h.

(** A hash with no newer one. *)
Definition latest m h : Prop := m !! h = None ∨ m !! h = Some h.

Lemma last_cell_of_ends m (rank : CellHash → nat) seen fuel h :
  (∀ h x, m !! h = Some x → x ≠ h → rank x < rank h) →
  NoDup seen → list_to_set seen ⊆ dom m → (∀ x, x ∈ seen → rank h < rank x) →
  size m < length seen + fuel →
  ∃ h', last_cell_of fuel m h = Ok h' ∧ latest m h'.
Proof.
  intros Hrank. revert seen h. induction fuel as [|fuel IH]; intros seen h Hnd Hsub Hlt Hf.
  { exfalso. assert (length seen ≤ size (dom m)) as Hs; [|rewrite size_dom in Hs; lia].
    rewrite <- (size_list_to_set (C:=gset CellHash)) by done. by apply subseteq_size. }
  cbn [last_cell_of]. destruct (m !! h) as [x|] eqn:Hh; [|exists h; split; [done|by left]].
  destruct (decide (x = h)) as [->|Hne].
  { rewrite bool_decide_eq_false_2 by naive_solver. exists h. split; [done|by right]. }
  rewrite bool_decide_eq_true_2 by done. destruct (m !! x) as [y|] eqn:Hx; cbn.
  2: { exists x. split; [done|by left]. }
  pose proof (Hrank h x Hh Hne).
  apply (IH (h :: seen)); [| | |cbn; lia].
  - apply NoDup_cons. split; [|done]. intros Hin%Hlt. lia.
  - apply elem_of_dom_2 in Hh. set_solver.
  - intros z [->|Hz%Hlt]%elem_of_cons; lia.
Qed.

Lemma register_ranked m h h' :
  ranked m → h' = h ∨ (m !! h' = None ∧ ∀ x, m !! x ≠ Some h') → ranked (<[h := h']> m).
Proof.
  intros [rank Hrank] [->|[Hk Hv]].
  - exists rank. intros x y. rewrite lookup_insert_Some. intros [[-> ->]|[_ ?]] ?; [done|by apply Hrank].
  - exists (λ x, if decide (x = h') then 0 else S (rank x)). intros x y.
    rewrite lookup_insert_Some. intros [[-> ->]|[Hx Hl]] Hne.
    + rewrite (decide_True (P := y = y)) by done. rewrite decide_False by done. lia.
    + rewrite !decide_False; [|congruence|by intros ->; eapply Hv]. specialize (Hrank x y Hl Hne). lia.
Qed.

(** The registrations of a test: a cell replaces an older one under a hash that was
    not seen before, or is kept as it is. *)
Inductive registered : IntegrationTestContext → Prop :=
| registered_new : registered context_new
| registered_next old next cx :
    registered cx → next = old ∨ (cx_old_to_new cx !! next = None ∧ ∀ x, cx_old_to_new cx !! x ≠ Some next) →
    registered (register_cell_hash old next cx).

(** Looking for the latest cell ends, with a cell that has no newer one, in every context
    in which new cells were registered under new hashes. *)
Theorem latest_cell_found cx h :
  registered cx → ∃ h', get_last_cell_of h cx = Ok h' ∧ latest (cx_old_to_new cx) h'.
Proof.
  intros Hcx. assert (ranked (cx_old_to_new cx)) as [rank Hrank].
  { induction Hcx as [|old next cx _ IH Hn]; [|by apply register_ranked].
    exists (λ _, 0). intros x y Hx. cbn in Hx. by rewrite lookup_empty in Hx. }
  unfold get_last_cell_of. apply (last_cell_of_ends _ rank []); [done|apply NoDup_nil_2|set_solver|set_solver|cbn; lia].
Qed.

(** Two cells that were registered for each other send the search round and round. *)
Theorem cyclic_context_diverges x y fuel :
  x ≠ y → last_cell_of fuel (<[x := y]> {[ y := x ]}) x = OutOfFuel.
Proof.
  intros Hxy. assert (∀ z, last_cell_of fuel (<[x := y]> {[ y := x ]}) (if z : bool then x else y) = OutOfFuel)
    as Hgen; [|exact (Hgen true)].
  induction fuel as [|fuel IH]; intros z; [done|].
  assert (∀ h h', (h, h') = (x, y) ∨ (h, h') = (y, x) → (<[x := y]> {[ y := x ]} : gmap CellHash CellHash) !! h = Some h')
    as Hl.
  { intros h h' [[= -> ->]|[= -> ->]]; [by rewrite lookup_insert_eq|].
    by rewrite lookup_insert_ne, lookup_singleton_eq. }
  cbn [last_cell_of]. destruct z.
  - rewrite (Hl x y) by auto. rewrite (bool_decide_eq_true_2 (y ≠ x)) by done.
    rewrite (Hl y x) by auto. exact (IH false).
  - rewrite (Hl y x) by auto. rewrite (bool_decide_eq_true_2 (x ≠ y)) by done.
    rewrite (Hl x y) by auto. exact (IH true).
Qed.

(** *** Accounts *)
Implicit Types (cells : list (CellHash * Capacity)) (amount : Z).

(** What an attempt to spend leaves behind: nothing changes when no cell is large
    enough, and otherwise the first one that is gives way to the new cell. *)
Lemma spend_from_spec from to amount cells w w' cells' :
  in_range 64 (amount + FEE) → (∀ e, e ∈ cells → in_range 64 e.2) →
  spend_from from to amount cells w = (w', Ok cells') →
  (cells' = cells ∧ w' = w ∧ ∀ e, e ∈ cells → (e.2 ≤ amount + FEE)%Z) ∨
  ∃ h c spent, (h, c) ∈ cells ∧ (amount + FEE < c)%Z ∧
    cells' = filter (λ e : CellHash * Capacity, e.1 ≠ h) cells ++ [(spent, c - (amount + FEE))%Z].
Proof.
  intros Hr Hcs. unfold spend_from, of_res, u_add. rewrite u_norm_in_range by done. intros Hrun.
  apply st_bind_Ok_inv in Hrun as (w1 & total & [= <- <-] & Hrun).
  destruct (list_find _ cells) as [[k [h c]]|] eqn:Hf.
  - right. apply list_find_Some in Hf as (Hk & Hlt & _). cbn in Hlt. apply list_elem_of_lookup_2 in Hk.
    apply st_bind_Ok_inv in Hrun as (w2 & x & _ & Hrun). apply st_bind_Ok_inv in Hrun as (w3 & spent & _ & Hrun).
    apply st_bind_Ok_inv in Hrun as (w4 & c' & [= <- Hc] & [= <- <-]).
    pose proof (Hcs _ Hk) as Hck. cbn in Hck. unfold u_sub, in_range in *.
    rewrite u_norm_in_range in Hc by (unfold in_range; lia). injection Hc as <-. by exists h, c, spent.
  - left. injection Hrun as <- <-. split_and!; [done|done|]. apply list_find_None in Hf.
    rewrite Forall_forall in Hf. intros e He. specialize (Hf e He). cbn in Hf. lia.
Qed.

Lemma filter_out cells h c :
  NoDup cells.*1 → (h, c) ∈ cells →
  (zsum (filter (λ e : CellHash * Capacity, e.1 ≠ h) cells).*2 + c = zsum cells.*2)%Z.
Proof.
  intros Hnd Hin. apply list_elem_of_split in Hin as (l1 & l2 & ->).
  rewrite fmap_app, fmap_cons in Hnd. apply NoDup_app in Hnd as (_ & H1 & Hnd).
  apply NoDup_cons in Hnd as [H2 _]. cbn in H1, H2.
  rewrite filter_app, filter_cons_False by naive_solver.
  rewrite !filter_all.
  - rewrite !fmap_app, !zsum_app. change (zsum ((h, c) :: l2).*2) with (c + zsum l2.*2)%Z. lia.
  - intros e He Heq. apply H2. rewrite <- Heq. apply list_elem_of_fmap. eauto.
  - intros e He Heq. apply (H1 e.1); [apply list_elem_of_fmap; eauto|set_solver].
Qed.

(** The bookkeeping of [spend_many]: the cells and the transfers so far. *)
Record books (total : Z) cells0 (acc : list CellHash * list (CellHash * Capacity)) : Prop := {
  bk_range : ∀ e, e ∈ acc.2 → in_range 64 e.2;
  bk_hashes : ∀ h, h ∈ acc.2.*1 → h ∈ acc.1 ++ cells0.*1;
  bk_nodup : NoDup acc.2.*1;
  bk_sum : (zsum acc.2.*2 + Z.of_nat (length acc.1) * total = zsum cells0.*2)%Z
}.

Lemma spend_turn_books from to amount delay cells0 acc w w' acc' :
  (0 ≤ amount)%Z → in_range 64 (amount + FEE) → books (amount + FEE) cells0 acc →
  spend_turn from to amount delay acc w = (w', Ok acc') →
  ∃ new, acc'.1 = acc.1 ++ new ∧ length new ≤ 1 ∧
    (NoDup (acc'.1 ++ cells0.*1) → books (amount + FEE) cells0 acc').
Proof.
  intros Ha Hr [Hrange Hhs Hnd Hsum]. unfold spend_turn, sleep. rewrite modify_bind. intros Hrun.
  apply st_bind_Ok_inv in Hrun as (w1 & updated & Hsp & [= <- <-]).
  assert (∀ cells, cells ⊆ acc.2 → list_find (λ e, e ∉ acc.2) cells = None) as Hnone.
  { intros cells Hsub. apply list_find_None, Forall_forall. set_solver. }
  apply spend_from_spec in Hsp as [(-> & _ & _)|(h & c & spent & Hin & Hlt & ->)]; [| |done|done].
  { exists []. rewrite Hnone by done. rewrite app_nil_r. split_and!; [done|cbn; lia|by split]. }
  rewrite list_find_app_r by (apply Hnone; intros e [_ ?]%list_elem_of_filter; done). cbn [list_find].
  destruct (decide _) as [Hnew|Hold]; cbn.
  2: { exists []. rewrite app_nil_r. split_and!; [done|cbn; lia|by split]. }
  exists [spent]. split_and!; [done|done|]. intros Hfresh. pose proof (Hrange _ Hin) as Hc. cbn in Hc.
  assert (∀ x, x ∈ (filter (λ e : CellHash * Capacity, e.1 ≠ h) acc.2).*1 → x ∈ acc.2.*1) as Hsub.
  { intros x (e & -> & [_ He]%list_elem_of_filter)%list_elem_of_fmap. apply list_elem_of_fmap. eauto. }
  assert (spent ∉ acc.1 ++ cells0.*1) as Hns.
  { intros Hs. rewrite <- app_assoc in Hfresh. apply NoDup_app in Hfresh as (_ & H1 & H2). cbn in H2.
    apply NoDup_cons in H2 as [H2 _]. apply elem_of_app in Hs as [Hs|Hs]; [|done].
    apply (H1 _ Hs). cbn. by left. }
  split; cbn [fst snd].
  - intros e. rewrite elem_of_app, list_elem_of_singleton. intros [[_ ?]%list_elem_of_filter| ->]; [auto|].
    cbn. unfold in_range, FEE in *. lia.
  - intros x. rewrite fmap_app, elem_of_app. intros [Hx%Hsub%Hhs|Hx]; [set_solver|]. cbn in Hx. set_solver.
  - rewrite fmap_app. apply NoDup_app. split_and!; [|intros x Hx ->%list_elem_of_singleton; cbn|apply NoDup_singleton].
    + apply (sublist_NoDup _ acc.2.*1); [exact Hnd|]. apply fmap_sublist, sublist_filter.
    + by apply Hns, Hhs, Hsub.
  - rewrite fmap_app, zsum_app, length_app. pose proof (filter_out acc.2 h c Hnd Hin). cbn. lia.
Qed.

Lemma spend_turns_prefix from to amount delay l acc w w' acc' :
  for_acc l (λ _ : nat, spend_turn from to amount delay) acc w = (w', Ok acc') →
  ∃ new, acc'.1 = acc.1 ++ new.
Proof.
  revert acc w. induction l as [|i l IH]; intros acc w Hrun; cbn [for_acc] in Hrun.
  - injection Hrun as _ <-. exists []. by rewrite app_nil_r.
  - apply st_bind_Ok_inv in Hrun as (w1 & acc1 & Ht & Hrun). apply IH in Hrun as [new Hnew].
    unfold spend_turn, sleep in Ht. rewrite modify_bind in Ht.
    apply st_bind_Ok_inv in Ht as (w2 & up & _ & [= _ <-]). repeat case_match; cbn in Hnew; eauto.
    rewrite <- app_assoc in Hnew. eauto.
Qed.

Lemma spend_turns_books from to amount delay cells0 l acc w w' acc' :
  (0 ≤ amount)%Z → in_range 64 (amount + FEE) → books (amount + FEE) cells0 acc →
  for_acc l (λ _ : nat, spend_turn from to amount delay) acc w = (w', Ok acc') →
  NoDup (acc'.1 ++ cells0.*1) →
  books (amount + FEE) cells0 acc' ∧ length acc'.1 ≤ length acc.1 + length l.
Proof.
  intros Ha Hr. revert acc w. induction l as [|i l IH]; intros acc w Hb Hrun Hfresh; cbn [for_acc] in Hrun.
  { injection Hrun as _ <-. split; [done|cbn; lia]. }
  apply st_bind_Ok_inv in Hrun as (w1 & acc1 & Ht & Hrun).
  destruct (spend_turn_books _ _ _ _ _ _ _ _ _ Ha Hr Hb Ht) as (new & Hacc & Hlen & Hb1).
  destruct (spend_turns_prefix _ _ _ _ _ _ _ _ _ Hrun) as [new' Hnew].
  destruct (IH acc1 w1) as [? Hl]; [|done|done|].
  - apply Hb1. rewrite Hnew, <- app_assoc in Hfresh.
    eapply sublist_NoDup; [exact Hfresh|]. apply sublist_app; [done|by apply sublist_inserts_l].
  - split; [done|]. rewrite Hacc, length_app in Hl. cbn. lia.
Qed.

(** Spending many cells keeps the books.  When the node never names a hash that was
    known before, every transfer lowers the sum of the balances by the amount and the fee,
    and at most the given number of transfers was made. *)
Theorem spend_many_accounts from to amount iterations delay cells w w' accepted cells' :
  (0 ≤ amount)%Z → in_range 64 (amount + FEE) → NoDup cells.*1 →
  (∀ e, e ∈ cells → in_range 64 e.2) →
  spend_many_from_cell_hashes from to amount iterations delay cells w = (w', Ok (accepted, cells')) →
  NoDup (accepted ++ cells.*1) →
  (zsum cells'.*2 + Z.of_nat (length accepted) * (amount + FEE) = zsum cells.*2)%Z ∧
  NoDup cells'.*1 ∧ length accepted ≤ iterations.
Proof.
  intros Ha Hr Hnd Hcs Hrun Hfresh.
  assert (books (amount + FEE) cells ([], cells)) as Hb by (split; cbn; [done|set_solver|done|apply Z.add_0_r]).
  destruct (spend_turns_books _ _ _ _ _ _ _ _ _ _ Ha Hr Hb Hrun Hfresh) as [[_ _ Hnd' Hsum] Hlen].
  rewrite length_seq in Hlen. done.
Qed.
End test_function_facts.

(** ** A world, and a witness *)
Section ledger.
#[local] Existing Instance short_crypto.
#[local] Existing Instance canonical_order.
#[local] Existing Instance release_profile.
#[local] Existing Instance plain_state_codec.
#[local] Existing Instance keep_order.

(** A node that accepts every transfer at once: its cells. *)
Definition ledger_world : TestWorld := {|
  World := list Cell;
  within _ _ r w :=
    match r with
    | Protocol.GetCellHashes => (w, Some (Some (Protocol.CellHashes (hash <$> w))))
    | Protocol.GetCell h => (w, Some (Some (Protocol.CellAck (snd <$> list_find (λ c, hash c = h) w))))
    | Protocol.GenerateTx c => (c :: w, Some (Some (Protocol.GenerateTxAck (Some (hash c)))))
    | _ => (w, None)
    end;
  pass _ w := w;
  spawn _ _ w := (w, Some 0);
  kill_child _ w := (w, true);
  draw w := (w, 0);
  home_dir := "/root"
|}.
#[local] Existing Instance ledger_world.
Definition byte_keys : KeyCrates := {|
  hex_encode _ := ""%string;
  hex_decode _ := None;
  keypair_from_bytes b := Some b;
  keypair_to_bytes kp := kp;
  keypair_generate seed := [Z.of_nat seed]
|}.
#[local] Existing Instance byte_keys.

Definition test_node (key : Z) : TestNode :=
  mkTestNode [key] (blake3 [key]) (mkSocketAddr [127; 0; 0; 1]%Z 1234) "" "" "" Stopped "".
Definition funds : Cell :=
  cell_new ∅ [{| capacity := 100; cell_type := Coinbase; data := []; lock := blake3 [1%Z] |}].

(** Three transfers of 5, each with its fee of 3, leave 76 of 100. *)
Abbreviation three_transfers :=
  (spend_many_from_cell_hashes (TW := ledger_world) (test_node 1) (test_node 2) 5 3 10 [(hash funds, 100%Z)] [funds]).

Lemma spend_many_accounts_witness :
  ∃ w accepted cells, three_transfers = (w, Ok (accepted, cells)) ∧
    List.length accepted = 3 ∧ zsum cells.*2 = 76%Z.
Proof.
  destruct three_transfers as [w [[accepted cells]|e| |]] eqn:Hrun; [|exfalso..].
  2-4: apply (f_equal (λ p, is_ok p.2)) in Hrun; vm_compute in Hrun; discriminate Hrun.
  exists w, accepted, cells. split; [reflexivity|].
  assert ((bool_decide (NoDup (accepted ++ [hash funds])), List.length accepted) = (true, 3)) as Hacc.
  { apply (f_equal (λ p, match p.2 with
      | Ok r => (bool_decide (NoDup (r.1 ++ [hash funds])), List.length r.1) | _ => (false, 0) end)) in Hrun.
    cbn [snd fst] in Hrun. rewrite <- Hrun. vm_compute. reflexivity. }
  injection Hacc as Hnd%bool_decide_eq_true Hlen. split; [exact Hlen|].
  destruct (spend_many_accounts (TW := ledger_world) (test_node 1) (test_node 2) 5 3 10 [(hash funds, 100%Z)] [funds] w accepted cells)
    as [Hsum _]; [lia|vm_compute; split; [discriminate|reflexivity]|apply NoDup_singleton| |exact Hrun|exact Hnd|].
  - intros e ->%list_elem_of_singleton. vm_compute. split; [discriminate|reflexivity].
  - rewrite Hlen in Hsum. change (zsum [(hash funds, 100%Z)].*2) with 100%Z in Hsum. unfold FEE in Hsum. lia.
Defined.
End ledger.
