(* ===== verification/Benchmark.v ===== *)
(** * Benchmark.v: the transfer benchmark and the chaos manager of the integration tests
      (src/src/integration_test/cell_transfer_benchmark.rs, test_node_chaos_manager.rs)

    The benchmark sends cells from three tasks at once and judges the times they took.
    The clock and the way tokio runs the tasks are parameters.  The chaos manager is a
    step relation on the threads that start and stop nodes. *)

From stdpp Require Import prelude gmap sets list strings pretty.
From Stdlib Require Import ZArith Lia.
From S2P Require Import Prelude Orders Cell Instances Dag ConflictGraph Blocks Storage SledInstances BlockStorage.
From S2P Require Import Util Operations DependencyGraph AlphaState Sleet Hail Ice View Dissemination Alpha Ids Router Files TestHarness TestFunctions.

(** ** The benchmark *)
Definition TRANSFER_DELAY : Z := 10.
Definition ITERATION_LIMIT : nat := 50.

(** A [Duration] in nanoseconds. *)
Abbreviation Duration := Z (only parsing).
Definition as_millis (d : Duration) : Z := (d / 1000000)%Z.

Section benchmark.
Context {CR : Crypto} {IO : IterOrder} {BP : BuildProfile} {SC : StateCodec} {RN : Rng}.
Context {KC : KeyCrates} {TW : TestWorld}.
(** [Instant::now()], in nanoseconds *)
Variable now : World → Z.
(** [timeout(d, join_all(handles))] over tasks that were spawned: what each of them
    returned, [None] for one that panicked, or [None] when the time was over *)
Variable join_within : Z → list (st World Empty_set (list Duration)) → World →
  World * option (list (option (list Duration))).
Abbreviation tm := (st World Empty_set).
Implicit Types (from to : TestNode).

(** [Instant::elapsed], which never is negative. *)
Definition elapsed (start : Z) : tm Duration := λ w, (w, Ok (Z.max 0 (now w - start))%Z).

(** [cell_transfer_benchmark::spend_cell_from_hash] *)
Definition timed_spend from to (h : CellHash) (amount : Z) : tm (CellHash * Duration) :=
  sleep TRANSFER_DELAY;;
  c ← get_cell_from_hash h (tn_address from);
  match c with
  | Some cell =>
      start ← gets now;
      x ← spend_cell from to cell amount;
      spent ← of_res (unwrap x);
      d ← elapsed start;
      mret (spent, d)
  | None => panic
  end.

(** One iteration of [send]; [None] is the [break]. *)
Definition send_turn from to (i : Z) (cells : list (CellHash * Capacity)) :
    tm (option (Duration * list (CellHash * Capacity))) :=
  needed ← of_res (u_add 64 i FEE);
  match list_find (λ e : CellHash * Capacity, needed < e.2)%Z cells with
  | Some (_, (h, c)) =>
      x ← timed_spend from to h i;
      rest ← of_res (u_sub 64 c i);
      c' ← of_res (u_add 64 rest FEE);
      mret (Some (x.2, filter (λ e : CellHash * Capacity, e.1 ≠ h) cells ++ [(x.1, c')]))
  | None => mret None
  end.

(** [for i in 1..ITERATION_LIMIT + 1] *)
Fixpoint send_loop from to (is_ : list nat) (cells : list (CellHash * Capacity))
    (times : list Duration) : tm (list Duration) :=
  match is_ with
  | [] => mret times
  | i :: is' =>
      r ← send_turn from to (Z.of_nat i) cells;
      match r with
      | Some (d, cells') => send_loop from to is' cells' (times ++ [d])
      | None => mret times
      end
  end.

(** The task of [send]. *)
Definition send (from_node_id to_node_id : nat) : tm (list Duration) :=
  ns ← of_res test_nodes_new;
  from ← of_res (unwrap (get_node ns from_node_id));
  to ← of_res (unwrap (get_node ns to_node_id));
  cells ← get_cell_hashes_with_max_capacity from;
  send_loop from to (seq 1 ITERATION_LIMIT) cells [].

(** [Iterator::min] and [max] *)
Definition list_min (l : list Z) : option Z :=
  match l with [] => None | x :: l' => Some (foldl Z.min x l') end.
Definition list_max (l : list Z) : option Z :=
  match l with [] => None | x :: l' => Some (foldl Z.max x l') end.

(** What [run_cell_transfer_benchmark] makes of the results. *)
Definition verdict (results : option (list (option (list Duration)))) : res Empty_set unit :=
  match results with
  | Some rs =>
      let times := concat (omap id rs) in
      min ← unwrap (list_min times);
      max ← unwrap (list_max times);
      let avg := ((max + min) / 2)%Z in
      if (as_millis avg <? 100)%Z then Ok tt else Panic
  | None => Panic
  end.

Definition run_cell_transfer_benchmark : tm unit :=
  λ w, let '(w', rs) := join_within 60000 [send 0 1; send 2 0; send 1 2] w in (w', verdict rs).

Definition run_cell_transfer_benchmark_test : tm unit :=
  ns ← of_res test_nodes_new;
  ns' ← start_minimal_and_wait ns;
  run_cell_transfer_benchmark;;
  kill_all ns';;
  mret tt.

(** *** What the verdict says *)
Lemma foldl_min_spec x l :
  foldl Z.min x l ∈ x :: l ∧ ∀ y, y ∈ x :: l → (foldl Z.min x l ≤ y)%Z.
Proof.
  revert x. induction l as [|z l IH]; intros x; cbn [foldl].
  { split; [by left|]. intros y [->|?%not_elem_of_nil]%elem_of_cons; [lia|done]. }
  destruct (IH (Z.min x z)) as [Hin Hle]. split.
  - apply elem_of_cons in Hin as [Hin|Hin]; [|by right; right].
    rewrite Hin, !elem_of_cons. lia.
  - intros y. rewrite !elem_of_cons. pose proof (Hle (Z.min x z) ltac:(by left)).
    intros [->|[->|Hy]]; [lia|lia|]. apply Hle. by right.
Qed.

Lemma foldl_max_spec x l :
  foldl Z.max x l ∈ x :: l ∧ ∀ y, y ∈ x :: l → (y ≤ foldl Z.max x l)%Z.
Proof.
  revert x. induction l as [|z l IH]; intros x; cbn [foldl].
  { split; [by left|]. intros y [->|?%not_elem_of_nil]%elem_of_cons; [lia|done]. }
  destruct (IH (Z.max x z)) as [Hin Hle]. split.
  - apply elem_of_cons in Hin as [Hin|Hin]; [|by right; right].
    rewrite Hin, !elem_of_cons. lia.
  - intros y. rewrite !elem_of_cons. pose proof (Hle (Z.max x z) ltac:(by left)).
    intros [->|[->|Hy]]; [lia|lia|]. apply Hle. by right.
Qed.

Lemma millis_below s : (as_millis (s / 2) < 100 ↔ s < 200000000)%Z.
Proof.
  unfold as_millis. rewrite Z.div_div by lia. split; intros H.
  - apply Z.nle_gt. intros Hge. assert (100 ≤ s / (2 * 1000000))%Z; [|lia].
    apply Z.div_le_lower_bound; lia.
  - apply Z.div_lt_upper_bound; lia.
Qed.

(** The benchmark passes when some transfer was timed and the fastest and the slowest one
    together took less than 200 ms; otherwise it panics.  Tasks that panicked have no say. *)
Theorem verdict_spec rs :
  (verdict (Some rs) = Ok tt ∧
     ∃ lo hi, lo ∈ concat (omap id rs) ∧ hi ∈ concat (omap id rs) ∧
       (∀ d, d ∈ concat (omap id rs) → lo ≤ d ≤ hi)%Z ∧ (lo + hi < 200000000)%Z) ∨
  (verdict (Some rs) = Panic ∧
     ∀ lo hi, lo ∈ concat (omap id rs) → hi ∈ concat (omap id rs) →
       (∀ d, d ∈ concat (omap id rs) → lo ≤ d ≤ hi)%Z → (200000000 ≤ lo + hi)%Z).
Proof.
  unfold verdict. set (times := concat (omap id rs)). clearbody times.
  destruct times as [|x l]; cbn -[as_millis Z.div foldl].
  { right. split; [done|]. by intros lo hi ?%not_elem_of_nil. }
  destruct (foldl_min_spec x l) as [Hmin Hlo], (foldl_max_spec x l) as [Hmax Hhi].
  set (lo := foldl Z.min x l) in *. set (hi := foldl Z.max x l) in *.
  destruct (Z.ltb_spec (as_millis ((hi + lo) / 2)) 100) as [Hlt|Hge].
  - left. split; [done|]. apply millis_below in Hlt. exists lo, hi. split_and!; [done|done|by auto|lia].
  - right. split; [done|]. intros lo' hi' Hlo' Hhi' Hb.
    assert (¬ (hi + lo < 200000000)%Z) by (rewrite <- millis_below; lia).
    pose proof (Hb lo Hmin). pose proof (Hb hi Hmax). pose proof (Hlo lo' Hlo'). pose proof (Hhi hi' Hhi'). lia.
Qed.

(** 149 transfers of 190 ms and one of 5 ms pass, although they took more than 180 ms on
    average: the value that is compared is the midpoint of the extremes. *)
Theorem slow_transfers_pass :
  let times := replicate 149 190000000%Z ++ [5000000%Z] in
  verdict (Some [Some times]) = Ok tt ∧
  (180 * 1000000 * Z.of_nat (length times) < zsum times)%Z.
Proof. split; [reflexivity|]. vm_compute. reflexivity. Qed.

(** Two tasks that panicked do not make the benchmark fail. *)
Theorem failed_senders_pass d :
  (0 ≤ d < 100000000)%Z → verdict (Some [None; None; Some [d]]) = Ok tt.
Proof.
  intros Hd. destruct (verdict_spec [None; None; Some [d]]) as [[-> _]|[_ Hp]]; [done|].
  assert (200000000 ≤ d + d)%Z; [|lia].
  apply Hp; cbn; [by left|by left|]. intros e ->%list_elem_of_singleton. lia.
Qed.

(** *** What a task records *)

Lemma timed_spend_nonneg from to h i w w' spent d :
  timed_spend from to h i w = (w', Ok (spent, d)) → (0 ≤ d)%Z.
Proof.
  unfold timed_spend, sleep. rewrite modify_bind. generalize (get_cell_from_hash h (tn_address from)).
  intros lookup_cell Htimed. apply st_bind_Ok_inv in Htimed as (w1 & [cell|] & _ & Htimed); [|done].
  rewrite gets_bind in Htimed. apply st_bind_Ok_inv in Htimed as (w2 & x & _ & Htimed).
  apply st_bind_Ok_inv in Htimed as (w3 & s' & _ & Htimed).
  apply st_bind_Ok_inv in Htimed as (w4 & d' & Hd & Hret). injection Hret as _ _ <-.
  injection Hd as _ <-. lia.
Qed.

(** A turn takes the first cell that seems large enough, and puts down that the amount was
    spent and the fee was gained.  The transfer itself leaves the amount and the fee less
    ([spend_from_spec]): each turn overestimates the balance by twice the fee. *)
Theorem send_turn_books from to i cells w w' r :
  in_range 64 (i + FEE) → (0 ≤ i)%Z → NoDup cells.*1 →
  (∀ e, e ∈ cells → in_range 64 (e.2 + FEE) ∧ 0 ≤ e.2)%Z →
  send_turn from to i cells w = (w', Ok r) →
  match r with
  | None => w' = w ∧ ∀ e, e ∈ cells → (e.2 ≤ i + FEE)%Z
  | Some (d, cells') =>
      (0 ≤ d)%Z ∧ (zsum cells'.*2 = zsum cells.*2 - (i + FEE) + 2 * FEE)%Z ∧
      ∃ h c spent, (h, c) ∈ cells ∧ (i + FEE < c)%Z ∧
        cells' = filter (λ e : CellHash * Capacity, e.1 ≠ h) cells ++ [(spent, c - i + FEE)%Z]
  end.
Proof.
  intros Hr Hi Hnd Hcs. unfold send_turn, of_res, u_add. rewrite u_norm_in_range by done. intros Hrun.
  apply st_bind_Ok_inv in Hrun as (w1 & total & [= <- <-] & Hrun).
  destruct (list_find _ cells) as [[k [h c]]|] eqn:Hf.
  2: { injection Hrun as <- <-. split; [done|]. apply list_find_None in Hf.
       rewrite Forall_forall in Hf. intros e He. specialize (Hf e He). cbn in Hf. lia. }
  apply list_find_Some in Hf as (Hk & Hlt & _). cbn in Hlt. apply list_elem_of_lookup_2 in Hk.
  apply st_bind_Ok_inv in Hrun as (w2 & [spent d] & Htimed & Hrun).
  apply st_bind_Ok_inv in Hrun as (w3 & rest & [= <- Hrest] & Hrun).
  apply st_bind_Ok_inv in Hrun as (w4 & c' & [= <- Hc'] & [= <- <-]).
  destruct (Hcs _ Hk) as [Hcr Hc0]. cbn in Hcr, Hc0. unfold u_sub, in_range, FEE in *.
  rewrite u_norm_in_range in Hrest by (unfold in_range; lia). injection Hrest as <-.
  rewrite u_norm_in_range in Hc' by (unfold in_range; lia). injection Hc' as <-.
  split_and!; [|rewrite fmap_app, zsum_app; pose proof (filter_out cells h c Hnd Hk);
    change (zsum [(spent, (c - i + 3)%Z)].*2) with (c - i + 3 + 0)%Z; lia|by exists h, c, spent].
  exact (timed_spend_nonneg _ _ _ _ _ _ _ _ Htimed).
Qed.
End benchmark.

(** ** The chaos manager *)

(** Where the thread of a node is: at the condition of its loop, in its pause, past
    [is_running] but not yet at [kill_node] or [start_node], or at its end. *)
Inductive ChaosThread : Type := AtCheck | Asleep | Decided (was_running : bool) | Ended.
(** How far [stop] is: it sets the flag and then kills all nodes. *)
Inductive StopPhase : Type := NotCalled | FlagSet | AllKilled.

Section chaos.
Context {CR : Crypto} {BP : BuildProfile} {KC : KeyCrates} {TW : TestWorld}.
Variable now : World → Z.
(** [duration] in nanoseconds, [delay_sec_range] and [node_ids_range] *)
Variables (duration : Z) (delay_lo delay_hi : Z) (node_lo node_hi : nat).

(** The shared nodes and the flag; thread [j] manages node [node_lo + j]. *)
Record ChaosState : Type := mkChaos {
  ch_world : World;
  ch_nodes : list TestNode;
  ch_stop : StopPhase;
  ch_threads : list (Z * ChaosThread)
}.

Definition is_stopped (s : ChaosState) : bool :=
  match ch_stop s with NotCalled => false | _ => true end.
Definition goto (j : nat) (start : Z) (t : ChaosThread) (s : ChaosState) : ChaosState :=
  mkChaos (ch_world s) (ch_nodes s) (ch_stop s) (<[j := (start, t)]> (ch_threads s)).

Definition run_chaos (w : World) (ns : list TestNode) : ChaosState :=
  mkChaos w ns NotCalled (replicate (node_hi - node_lo) (now w, AtCheck)).

(** Steps of the threads and of the caller of [stop]; the lock is taken for each call on
    the nodes, so that these are atomic.  A step exists for a call that does not panic. *)
Inductive chaos_step : ChaosState → ChaosState → Prop :=
| chaos_go s j start :
    ch_threads s !! j = Some (start, AtCheck) → (now (ch_world s) - start ≤ duration)%Z →
    is_stopped s = false → chaos_step s (goto j start Asleep s)
| chaos_exit s j start :
    ch_threads s !! j = Some (start, AtCheck) →
    (duration < now (ch_world s) - start)%Z ∨ is_stopped s = true →
    chaos_step s (goto j start Ended s)
| chaos_keep s j start delay :
    ch_threads s !! j = Some (start, Asleep) → (delay_lo ≤ delay < delay_hi)%Z →
    chaos_step s (goto j start AtCheck
      (mkChaos (pass (delay * 1000) (ch_world s)) (ch_nodes s) (ch_stop s) (ch_threads s)))
| chaos_toggle s j start delay :
    ch_threads s !! j = Some (start, Asleep) → (delay_lo ≤ delay < delay_hi)%Z →
    chaos_step s (goto j start (Decided (is_running (ch_nodes s) (node_lo + j)))
      (mkChaos (pass (delay * 1000) (ch_world s)) (ch_nodes s) (ch_stop s) (ch_threads s)))
| chaos_act s j start b w' ns' :
    ch_threads s !! j = Some (start, Decided b) →
    (if b then kill_node (node_lo + j) else start_node (node_lo + j)) (ch_nodes s) (ch_world s) = (w', Ok ns') →
    chaos_step s (goto j start AtCheck (mkChaos w' ns' (ch_stop s) (ch_threads s)))
| chaos_stop_flag s :
    ch_stop s = NotCalled → chaos_step s (mkChaos (ch_world s) (ch_nodes s) FlagSet (ch_threads s))
| chaos_stop_kill s w' ns' :
    ch_stop s = FlagSet → kill_all (ch_nodes s) (ch_world s) = (w', Ok ns') →
    chaos_step s (mkChaos w' ns' AllKilled (ch_threads s)).

(** *** Calls on the nodes *)
Lemma node_kill_Ok n w w' n' :
  node_kill n w = (w', Ok n') → tn_id n' = tn_id n ∧ node_running n' = false.
Proof.
  unfold node_kill, node_running. destruct (tn_state n) as [|child] eqn:Hst; intros Hrun.
  - injection Hrun as _ <-. by rewrite Hst.
  - apply st_bind_Ok_inv in Hrun as (w1 & [] & _ & Hrun); [|done].
    by injection Hrun as _ <-.
Qed.

Lemma node_start_Ok n w w' n' :
  node_start n w = (w', Ok n') → tn_id n' = tn_id n ∧ node_running n' = true.
Proof.
  unfold node_start, node_running. destruct (tn_state n) as [|child] eqn:Hst; intros Hrun; [|done].
  apply st_bind_Ok_inv in Hrun as (w1 & child & _ & Hrun). by injection Hrun as _ <-.
Qed.

Lemma on_node_Ok f id ns w w' ns' :
  on_node f id ns w = (w', Ok ns') → ∃ n n', ns !! id = Some n ∧ f n w = (w', Ok n') ∧ ns' = <[id := n']> ns.
Proof.
  unfold on_node. destruct (ns !! id) as [n|] eqn:Hn; [|done]. intros Hrun.
  apply st_bind_Ok_inv in Hrun as (w1 & n' & Hf & Hret). injection Hret as <- <-. eauto 10.
Qed.

Lemma on_nodes_Ok f ns w w' ns' :
  on_nodes f ns w = (w', Ok ns') → Forall2 (λ n n', ∃ w1 w2, f n w1 = (w2, Ok n')) ns ns'.
Proof.
  unfold on_nodes. assert (∀ acc acc0 w, Forall2 (λ n n', ∃ w1 w2, f n w1 = (w2, Ok n')) acc0 acc →
    for_acc ns (λ n done_, n' ← f n; mret (done_ ++ [n'])) acc w = (w', Ok ns') →
    Forall2 (λ n n', ∃ w1 w2, f n w1 = (w2, Ok n')) (acc0 ++ ns) ns') as Hgen; [|by apply (Hgen [] [])].
  clear w. induction ns as [|n ns IH]; intros acc acc0 w Hacc Hrun; cbn [for_acc] in Hrun.
  { injection Hrun as _ <-. by rewrite app_nil_r. }
  apply st_bind_Ok_inv in Hrun as (w1 & acc1 & Hb & Hrun).
  apply st_bind_Ok_inv in Hb as (w2 & n' & Hf & Hret). injection Hret as <- <-.
  change (n :: ns) with ([n] ++ ns). rewrite (assoc_L (++)). eapply IH; [|exact Hrun].
  apply Forall2_app; [done|]. constructor; [eauto|constructor].
Qed.

(** *** What the chaos leaves alone *)

(** Node [n'] in place of node [n]: the same one, and only running when that one was or
    when it is one of the managed nodes. *)
Definition node_left (k : nat) (n n' : TestNode) : Prop :=
  tn_id n' = tn_id n ∧ ((k < node_lo ∨ node_hi ≤ k) → node_running n' = true → n' = n).

Definition chaos_inv (ns0 : list TestNode) (s : ChaosState) : Prop :=
  length (ch_threads s) = node_hi - node_lo ∧
  length (ch_nodes s) = length ns0 ∧
  ∀ k n, ns0 !! k = Some n → ∃ n', ch_nodes s !! k = Some n' ∧ node_left k n n'.

Lemma chaos_step_inv ns0 s s' : chaos_inv ns0 s → chaos_step s s' → chaos_inv ns0 s'.
Proof.
  intros (Hth & Hlen & Hns) Hstep. unfold chaos_inv.
  destruct Hstep as [s j start Hj _ _|s j start Hj _|s j start delay Hj _|s j start delay Hj _
    |s j start b w' ns' Hj Hrun|s Hp|s w' ns' Hp Hrun]; cbn [goto ch_threads ch_nodes]; rewrite ?length_insert;
    try (split_and!; [done|done|exact Hns]).
  - assert (∃ n n', ch_nodes s !! (node_lo + j) = Some n ∧ tn_id n' = tn_id n ∧
      ns' = <[node_lo + j := n']> (ch_nodes s)) as (n & n' & Hn & Hid & ->).
    { destruct b; apply on_node_Ok in Hrun as (n & n' & Hn & Hf & ->); exists n, n'.
      - by apply node_kill_Ok in Hf as [? _].
      - split_and!; [done| |done]. case_match; [by apply node_start_Ok in Hf as [? _]|].
        by injection Hf as _ <-. }
    rewrite length_insert. split_and!; [done|done|]. intros k n0 Hk.
    destruct (Hns k n0 Hk) as (n1 & Hn1 & Hid1 & Hrun1). apply lookup_lt_Some in Hj.
    destruct (decide (k = node_lo + j)) as [->|Hne]; [|rewrite list_lookup_insert_ne by done; by exists n1].
    simplify_eq. exists n'. rewrite list_lookup_insert_eq by (by eapply lookup_lt_Some).
    split; [done|]. split; [congruence|lia].
  - apply on_nodes_Ok in Hrun. split_and!; [done|by rewrite <- (Forall2_length _ _ _ Hrun)|]. intros k n0 Hk.
    destruct (Hns k n0 Hk) as (n1 & Hn1 & Hid1 & Hrun1).
    destruct (Forall2_lookup_l _ _ _ _ _ Hrun Hn1) as (n' & Hn' & w1 & w2 & [Hid Hst]%node_kill_Ok).
    exists n'. split; [done|]. split; [congruence|]. intros _. by rewrite Hst.
Qed.

(** The chaos manager only starts nodes of its range: whatever threads, pauses and the
    call of [stop] do, the nodes stay in their places, and one out of the range that runs
    is as it was before. *)
Theorem chaos_in_range w ns s :
  rtc chaos_step (run_chaos w ns) s →
  length (ch_nodes s) = length ns ∧
  ∀ k n, ns !! k = Some n → ∃ n', ch_nodes s !! k = Some n' ∧ node_left k n n'.
Proof.
  intros Hsteps. assert (chaos_inv ns s) as (_ & Hinv); [|exact Hinv].
  assert (chaos_inv ns (run_chaos w ns)) as Hinit.
  { split_and!; [apply length_replicate|done|]. intros k n Hk. exists n. done. }
  revert Hinit. induction Hsteps; eauto using chaos_step_inv.
Qed.
End chaos.

(** [stop] does not wait for the threads: one that saw its node stopped before all nodes
    are killed starts it afterwards, and the node runs on when every thread has ended. *)
Theorem chaos_stop_leaks_node {CR : Crypto} {BP : BuildProfile} {KC : KeyCrates} {TW : TestWorld}
    (now : World → Z) (duration delay_lo delay_hi : Z) (w : World) (n : TestNode) :
  (0 ≤ duration)%Z → (delay_lo < delay_hi)%Z → tn_state n = Stopped →
  (∀ program args w, is_Some (spawn program args w).2) →
  ∃ s, rtc (chaos_step now duration delay_lo delay_hi 0) (run_chaos now 0 1 w [n]) s ∧
    ch_stop s = AllKilled ∧ (snd <$> ch_threads s) = [Ended] ∧ is_running (ch_nodes s) 0 = true.
Proof.
  intros Hd Hlo Hst Hspawn. set (w1 := pass (delay_lo * 1000) w).
  destruct (spawn (get_start_node_command n).1 (get_start_node_command n).2 w1) as [w2 child] eqn:Hsp.
  destruct (Hspawn (get_start_node_command n).1 (get_start_node_command n).2 w1) as [c Hc].
  rewrite Hsp in Hc. cbn in Hc. subst child.
  assert (is_running [n] 0 = false) as Hnr by (unfold is_running, node_running; cbn; by rewrite Hst).
  exists (mkChaos w2 [tn_set_state (Running c) n] AllKilled [(now w, Ended)]). split; [|done].
  eapply rtc_l; [apply (chaos_go _ _ _ _ _ _ 0 (now w)); [done|cbn; lia|done]|].
  eapply rtc_l; [apply (chaos_toggle _ _ _ _ _ _ 0 (now w) delay_lo); [done|lia]|].
  cbn [goto run_chaos ch_world ch_nodes ch_stop ch_threads replicate Nat.add Nat.sub insert list_insert]. rewrite Hnr.
  eapply rtc_l; [by apply chaos_stop_flag|].
  eapply rtc_l; [apply (chaos_stop_kill _ _ _ _ _ _ w1 [n]); [done|]|].
  { cbn. unfold kill_all, on_nodes, node_kill. cbn. by rewrite Hst. }
  eapply rtc_l; [apply (chaos_act _ _ _ _ _ _ 0 (now w) false w2 [tn_set_state (Running c) n]); [done|]|].
  { cbn. unfold start_node, on_node. cbn [list_lookup lookup]. rewrite Hst.
    unfold node_start. rewrite Hst. unfold mbind, st_bind. cbn -[get_start_node_command]. by rewrite Hsp. }
  eapply rtc_l; [apply (chaos_exit _ _ _ _ _ _ 0 (now w)); [done|by right]|]. apply rtc_refl.
Qed.
